(* ===== verification/_CoqProject ===== *)
-Q . S2P
Prelude.v
Bits.v
BpfMachine.v
BpfValidate.v
BpfSafety.v
BpfMbuf.v
Lockf.v
LockfSpec.v
LockfAdd.v
LockfSys.v
LockfCalls.v
Clist.v
ClistSpec.v
Extent.v
ExtentSpec.v
ExtentOps.v
ExtentSearch.v
Bufq.v
BufqSort.v
BufqPrio.v
RbTree.v
BufqScan.v
Blist.v
BlistSpec.v
BlistOps.v
BlistSys.v
Clock.v
ClockSpec.v
Pcq.v
PcqSpec.v
Turnstile.v
TurnstileSpec.v
Rwlock.v
RwlockSpec.v
Callout.v
CalloutSpec.v
CalloutSys.v
CalloutClock.v
CalloutRun.v
Cksum.v
CksumSpec.v
CksumChain.v
CksumHdr.v
FfsMap.v
FfsAlloc.v
FfsMapSpec.v
FfsFragSpec.v
FfsCluster.v
FfsSearch.v
FfsAcct.v
FfsSys.v
FfsVol.v
FfsExample.v
