(* ===== verification/Prelude.v ===== *)
(** * A verification library for parts of the NetBSD kernel (src/sys)

    The library models kernel components that are closed algorithms over their
    own data: each keeps state of its own, and the rest of the kernel uses it
    through a handful of functions. The models follow the C code function by
    function, loop by loop and with its integer widths; what C leaves
    undefined, a panic and a failed assertion are values (the type [fault]
    below), so that "never goes wrong" is a theorem and not a convention.

    ** The components and the files

    Shared: Prelude.v (this file): faults and the monad [res], arrays, machine
    integers, tactics.

    Packet filter (net/bpf_filter.c, net/bpf.h).
    - BpfMachine.v: the interpreter [bpf_filter_ext], one definition per
      instruction class, with the mbuf readers [m_xword], [m_xhalf], [m_xbyte];
    - BpfValidate.v: the checker [bpf_validate_ext];
    - BpfSafety.v: a filter that the checker accepts makes no access outside
      its buffers and reads nothing uninitialised; interpreter and checker stop;
    - BpfMbuf.v: what a read of any mbuf chain gives; without short mbufs reads
      of the chain and of the flattened packet agree, and so do filters on the
      two forms.

    Advisory locks (kern/vfs_lockf.c). A [struct lockf] is a record, the list
    [lf_head] of a file a list, the queues of blocked requests a store indexed
    by address.
    - Lockf.v: the operations; LockfSpec.v, LockfAdd.v: [lf_clearlock] and
      [lf_addlock] update a map from owners and bytes to lock types, and keep
      the queues tied to the locks ([linked]);
    - LockfSys.v: the invariant [sys_ok] of the lock manager, which its entry
      points keep; LockfCalls.v: the contract of [lf_advlock], and the runs of
      calls and wake-ups: exclusion, and no wake-up is lost, for ranges that do
      not overflow [off_t] and end before its last offset.

    Bit maps (the macros of sys/param.h), shared by the two components that keep
    them, terminal queues and FFS.
    - Bits.v: [setbit], [clrbit], [isset] and [isclr] on an array of bytes, and
      the bits of the array after each.

    Terminal queues (kern/tty_subr.c, sys/tty.h).
    - Clist.v: the operations on the ring buffer and its quote bits;
      ClistSpec.v: they implement a bounded list of characters.

    Extent maps (kern/subr_extent.c).
    - Extent.v: the operations; ExtentSpec.v: the invariant of the region list;
      ExtentOps.v: allocating a given region, and freeing; ExtentSearch.v: the
      search for a free region.

    Device buffer queues (kern/subr_bufq.c, kern/bufq_fcfs.c,
    kern/bufq_disksort.c, kern/bufq_readprio.c, kern/bufq_priocscan.c).
    - Bufq.v: the common functions over any strategy; the class [Strategy]
      holds the operations of a strategy and [StrategyLaws] what the users of a
      queue rely on;
    - BufqSort.v (fcfs, disksort), BufqPrio.v (readprio), BufqScan.v
      (priocscan): the strategies, each an instance of the two classes and a
      refinement of an abstract policy; the end of BufqScan.v has what all four
      give their users; RbTree.v: the interface of rbtree(3).

    Block lists of swap space (kern/subr_blist.c).
    - Blist.v: the operations on the array of nodes; BlistSpec.v: what the
      nodes say and when they are consistent; BlistOps.v: the operations on one
      node; BlistSys.v: the exported functions against a set of free blocks.

    Dates (dev/clock_subr.c, dev/clock_subr.h, sys/clock.h).
    - Clock.v: the conversions, and the Gregorian calendar by itself;
      ClockSpec.v: they are inverse to each other and agree with the calendar.

    Producer/consumer queue (kern/subr_pcq.c).
    - Pcq.v: puts, gets and peeks as threads with one access to shared memory
      per step; PcqSpec.v: all their interleavings are histories of a bounded
      queue.

    Reader/writer locks and turnstiles (kern/kern_rwlock.c, sys/rwlock.h,
    kern/kern_turnstile.c, sys/sleepq.h, kern/kern_sleepq.c).
    - Turnstile.v: the heap of turnstiles, its hash chains and free lists, and
      the class [TurnstileOps] of the operations on the turnstile of one lock,
      with [TurnstileLaws]; TurnstileSpec.v: they implement two queues for each
      lock, the instance of the laws;
    - Rwlock.v: the functions of a lock as threads with one access to the lock
      word per step, over any turnstiles; RwlockSpec.v: the invariant of all
      interleavings, exclusion, and no wake-up is lost.

    Callouts (kern/kern_timeout.c, sys/callout.h).
    - Callout.v: the circular queues as links in memory, the timing wheel of each
      processor, the operations on a callout, the tick and the soft interrupt, and
      the machine that runs them in any order;
    - CalloutSpec.v: the operations on the links are operations on lists;
      CalloutSys.v: the invariant of the queues and of the wheel, and the
      operations on a callout; CalloutClock.v: the tick and the soft interrupt;
      CalloutRun.v: every run of the machine.

    Internet checksum (netinet/cpu_in_cksum.c, netinet/in_cksum.c,
    netinet/in4_cksum.c, netinet6/in6_cksum.c, inline functions of netinet/in.h
    and netinet6/in6.h).
    - Cksum.v: both portable versions on chains of mbufs in memory, with the
      alignment of every load, and the functions with pseudo headers, for the
      constants of a configuration (class [Platform]);
    - CksumSpec.v: RFC 1071 and equality in one's complement ([ones_eq]);
      CksumChain.v: [cpu_in_cksum] against it; CksumHdr.v: pseudo headers,
      delayed checksums, and fields that verify.

    Allocation of blocks and fragments in FFS (ufs/ffs/ffs_alloc.c,
    ufs/ffs/ffs_subr.c, ufs/ffs/ffs_tables.c, macros of ufs/ffs/fs.h and
    ufs/ufs/ufs_bswap.h, libkern/scanc.c).
    - FfsMap.v: the tables, the operations on the blocks of a map, the accounts of
      fragments and of clusters, in either byte order (class [Bswap]);
      FfsAlloc.v: allocation, claims, extension and freeing in a cylinder group,
      and the search of all groups;
    - FfsMapSpec.v: a map is a list of blocks; FfsFragSpec.v: the fragments of a
      block and its runs; FfsCluster.v: the clusters of a group; FfsSearch.v:
      [ffs_mapsearch]; FfsAcct.v: the steps on the counts;
    - FfsSys.v: sound groups, and the operations on one; FfsVol.v: a file system
      of sound groups; FfsExample.v: one of two groups, with the witnesses.

    ** How they interact

    Most of the components do not call each other. The exceptions go through type
    classes here, and the theorems about the callers are proved against the laws
    of the classes: the common functions of the buffer queues call the strategies
    ([Strategy]), priocscan calls rbtree(3), and the reader/writer locks sleep on
    turnstiles ([TurnstileOps]); the allocator of FFS works on numbers in a byte
    order of its own ([Bswap]), and [ffs_hashalloc] takes the allocator of one group
    as an argument, as in the code. The other callees are
    sleep and wake-up, the allocators and mutual exclusion: a thread that
    sleeps is a verdict of the call, with the code it runs on waking a function
    of its own; the allocator's answer is an argument; an operation that runs
    under a lock is one step.

    ** What the theorems show

    Safety: no operation of a component faults on a state that its operations
    can build (BPF on every packet in a buffer or in a chain without empty mbufs
    after the first, for accepted programs; locks, terminal
    queues, buffer queues, block lists and the producer/consumer queue in every
    history; extents on every state of the invariant). Each theorem states what it
    asks of the caller, and its comment says so; where the code itself goes wrong
    outside these conditions an Example shows it. Functional contracts and
    refinements: each component against an abstract object (a map from owners
    and bytes to lock types, a bounded list, a set of free numbers, an elevator,
    a set of free blocks, a calendar, a bounded queue, queues of sleepers); the
    checksum routines against RFC 1071 on the bytes of the packet; the allocator of
    FFS against the maps of free fragments, from which all its counts follow.
    Concurrency: every interleaving of a reader/writer lock, of a
    producer/consumer queue and of the users of callouts keeps its invariant.
    Time: no callout is called early or left behind in the wheel. Progress: the interpreter stops,
    a sleeping lock request really is blocked, the sleepers on a reader/writer
    lock are never all that is left, no queue of a scheduler starves. Errors: the inputs on which the code does not do what it means to;
    they are listed with the places in the source as findings of the manifest.

    ** Bounds and fuel

    A loop that is not structural on its data has fuel; running out is the fault
    [NoFuel], and the safety theorems exclude it. The amounts: a BPF program
    takes at most as many steps as it has instructions, since jumps go forward;
    the lock loops take one turn per lock of the list, and the deadlock search
    [maxlockdepth] turns, as in the code; a ring buffer is crossed at most twice
    by each copy; the searches of an extent are structural on the region list; the
    levels of a block list are fixed when it is created, and a node has sixteen
    children; a date takes at most 31 turns for the early years, 4 for the later
    ones and 12 for the months; a call on an undisturbed producer/consumer queue
    takes at most four steps. A reader/writer lock has no fuel: its threads take
    steps one at a time, and the number of threads is below 2^27, so that an [int]
    holds their count in the lock word. The loop of the soft interrupt of callouts
    takes one turn per callout on the work list: one that is not due leaves the
    list, and the model returns to its caller at each one that is due.
    The block loop of the checksum has one turn per byte to spare; an mbuf holds
    less than 2^27 bytes, so that the 32-bit sum keeps its carries.
    The loops of the FFS allocator over the sizes, the positions and the blocks of a
    byte have fuel 10, for at most eight fragments in a block; the quadratic rehash
    has a turn for each group.
    [blist_create] has no bound in the code: its theorem gives the sizes for which
    it returns.

    ** What is not modelled

    Allocators, red-black trees, mutexes, condition variables, the module loader
    and mbuf management appear as arguments or classes, with what the
    components rely on; the checksum has assembly versions on some ports, which
    are left out. Memory is sequentially consistent. The inheritance of
    priorities through turnstiles is left out, and so are LOCKDEBUG and panics in
    progress in the locks. Printing, statistics, sysctl glue and frees of whole objects are left out of the components above.
    In FFS the buffer of a group is in memory or cannot be read; the tables of the
    old layout, inodes, quotas, discards and snapshots are left out, and the counts
    of the super block are numbers without bound.
    The rest of src/sys (virtual memory, scheduling, other file systems, protocol
    stacks, device drivers, the machine-dependent ports, imported drivers and
    firmware) is not modelled; most of it is defined by hardware, by protocols
    on the wire or by data structures shared with all of the kernel. *)

From stdpp Require Export prelude list list_numbers sorting gmap.
From Stdlib Require Export ZArith Lia.
From Stdlib Require Import ZifyBool.

#[global] Set Default Goal Selector "!".

Declare Scope kern_scope.
Delimit Scope kern_scope with kern.
#[global] Open Scope Z_scope.

(** ** Faults and the result monad

    A C function that would run into undefined behaviour or call [panic] is a
    value of [res]: the models are total functions and the absence of faults
    is something to prove. *)
Inductive fault :=
  | OutOfBounds      (** an access outside an array or a buffer *)
  | Uninitialised    (** a read of memory that was never written *)
  | DivByZero
  | ShiftRange       (** a shift by at least the width of the type *)
  | NullDeref
  | TypeConfusion    (** a pointer used at the wrong type *)
  | Misaligned       (** an access through a pointer not aligned for its type *)
  | Panic            (** a call of panic(), or a KASSERT that fails *)
  | UseAfterFree
  | Deadlock         (** a thread waits for a lock that it holds itself *)
  | Corrupt          (** an update that would break a linked structure *)
  | NoFuel.          (** the fuel of a loop of the model ran out *)

#[export] Instance fault_eq_dec : EqDecision fault.
Proof. solve_decision. Defined.

Inductive res (A : Type) :=
  | Ok (a : A)
  | Fault (f : fault).
Arguments Ok {A} a.
Arguments Fault {A} f.

#[export] Instance res_ret : MRet res := λ A a, Ok a.
#[export] Instance res_bind : MBind res := λ A B k m,
  match m with Ok a => k a | Fault f => Fault f end.
#[export] Instance res_fmap : FMap res := λ A B g m,
  match m with Ok a => Ok (g a) | Fault f => Fault f end.

(** Reading an array: a missing element is an access out of bounds. *)
Definition get {A} (l : list A) (i : Z) : res A :=
  if i <? 0 then Fault OutOfBounds
  else match l !! Z.to_nat i with Some a => Ok a | None => Fault OutOfBounds end.

(** Writing an array. *)
Definition put {A} (l : list A) (i : Z) (a : A) : res (list A) :=
  if (i <? 0) || (Z.of_nat (length l) <=? i) then Fault OutOfBounds
  else Ok (<[Z.to_nat i := a]> l).

Lemma bind_Ok {A B} (m : res A) (k : A → res B) b :
  (m ≫= k) = Ok b ↔ ∃ a, m = Ok a ∧ k a = Ok b.
Proof. destruct m; naive_solver. Qed.

Lemma Ok_bind {A B} (a : A) (k : A → res B) : Ok a ≫= k = k a.
Proof. done. Qed.

Lemma fmap_Ok {A B} (g : A → B) (m : res A) b :
  (g <$> m) = Ok b ↔ ∃ a, m = Ok a ∧ b = g a.
Proof. destruct m; cbv; naive_solver. Qed.

Lemma get_Ok {A} (l : list A) i a :
  get l i = Ok a ↔ 0 ≤ i ∧ l !! Z.to_nat i = Some a.
Proof.
  unfold get. destruct (Z.ltb_spec i 0); [split; [done|lia]|].
  destruct (l !! Z.to_nat i); naive_solver lia.
Qed.

Lemma get_total {A} (l : list A) i :
  0 ≤ i < Z.of_nat (length l) → ∃ a, get l i = Ok a ∧ l !! Z.to_nat i = Some a.
Proof.
  intros Hi. destruct (lookup_lt_is_Some_2 l (Z.to_nat i)) as [a Ha]; [lia|].
  exists a. split; [|done]. by apply get_Ok; split; [lia|].
Qed.

Lemma put_total {A} (l : list A) i (a : A) :
  0 ≤ i < Z.of_nat (length l) → put l i a = Ok (<[Z.to_nat i := a]> l).
Proof. intros Hi. unfold put. by rewrite (proj2 (orb_false_iff _ _)) by lia. Qed.

Lemma put_Ok {A} (l : list A) i (a : A) l' :
  put l i a = Ok l' ↔ 0 ≤ i < Z.of_nat (length l) ∧ l' = <[Z.to_nat i := a]> l.
Proof.
  unfold put. destruct (_ || _) eqn:E; split; intros H; try done.
  - destruct H. apply orb_true_iff in E. lia.
  - injection H as <-. apply orb_false_iff in E. split; [lia|done].
  - by destruct H as [? ->].
Qed.

(** ** Lists without one element *)

Lemma filter_ne_notin l (sq : list Z) : l ∉ sq → filter (λ k, k ≠ l) sq = sq.
Proof.
  induction sq as [|k sq IH]; [done|]. intros [Hk Hl]%not_elem_of_cons. rewrite filter_cons, decide_True by done. by rewrite IH.
Qed.
Lemma filter_ne_perm l (sq : list Z) : NoDup sq → l ∈ sq → sq ≡ₚ l :: filter (λ k, k ≠ l) sq.
Proof.
  induction 1 as [|k sq Hk Hnd IH]; [set_solver|]. intros Hin. rewrite filter_cons.
  destruct (decide (k = l)) as [->|Hne]; simpl.
  - rewrite decide_False by tauto. by rewrite filter_ne_notin.
  - rewrite decide_True by done. apply elem_of_cons in Hin as [->|Hin]; [done|].
    rewrite (IH Hin) at 1. apply Permutation_swap.
Qed.

(** ** Machine integers

    An unsigned [w]-bit integer is a [Z] in [0, 2^w); the operations that C
    performs modulo [2^w] are written with [u32] and [u64]; a conversion to a
    signed 32-bit [int] is [s32]. *)
Definition u8 (z : Z) : Z := z mod 2 ^ 8.
Definition u16 (z : Z) : Z := z mod 2 ^ 16.
Definition u32 (z : Z) : Z := z mod 2 ^ 32.
Definition u64 (z : Z) : Z := z mod 2 ^ 64.
Definition s32 (z : Z) : Z := (z + 2 ^ 31) mod 2 ^ 32 - 2 ^ 31.
Definition s64 (z : Z) : Z := (z + 2 ^ 63) mod 2 ^ 64 - 2 ^ 63.

Definition is_u8 (z : Z) : Prop := 0 ≤ z < 2 ^ 8.
Definition is_u16 (z : Z) : Prop := 0 ≤ z < 2 ^ 16.
Definition is_u32 (z : Z) : Prop := 0 ≤ z < 2 ^ 32.
Definition is_u64 (z : Z) : Prop := 0 ≤ z < 2 ^ 64.

#[export] Instance is_u8_dec z : Decision (is_u8 z).
Proof. unfold is_u8. apply _. Defined.
#[export] Instance is_u16_dec z : Decision (is_u16 z).
Proof. unfold is_u16. apply _. Defined.
#[export] Instance is_u32_dec z : Decision (is_u32 z).
Proof. unfold is_u32. apply _. Defined.
#[export] Instance is_u64_dec z : Decision (is_u64 z).
Proof. unfold is_u64. apply _. Defined.

Notation "a .| b" := (Z.lor a b) (at level 50, left associativity) : kern_scope.
Notation "a .& b" := (Z.land a b) (at level 40, left associativity) : kern_scope.
#[global] Open Scope kern_scope.

Lemma u32_bounds z : is_u32 (u32 z).
Proof. unfold is_u32, u32. apply Z.mod_pos_bound. lia. Qed.
Lemma u64_bounds z : is_u64 (u64 z).
Proof. unfold is_u64, u64. apply Z.mod_pos_bound. lia. Qed.
Lemma u8_bounds z : is_u8 (u8 z).
Proof. unfold is_u8, u8. apply Z.mod_pos_bound. lia. Qed.
Lemma u32_small z : is_u32 z → u32 z = z.
Proof. apply Z.mod_small. Qed.
Lemma u64_small z : is_u64 z → u64 z = z.
Proof. apply Z.mod_small. Qed.
Lemma s32_small z : - 2 ^ 31 ≤ z < 2 ^ 31 → s32 z = z.
Proof. intros Hz. unfold s32. rewrite Z.mod_small; lia. Qed.
Lemma u8_small z : is_u8 z → u8 z = z.
Proof. apply Z.mod_small. Qed.

(** The bits of a number below [2^w] are those below position [w]. *)
Lemma below_pow2_testbit w n :
  0 ≤ w → 0 ≤ n → (n < 2 ^ w ↔ ∀ i, w ≤ i → Z.testbit n i = false).
Proof.
  intros Hw Hn. split.
  - intros Hlt i Hi. destruct (decide (n = 0)) as [->|]; [apply Z.testbit_0_l|].
    apply Z.bits_above_log2; [lia|]. apply Z.log2_lt_pow2; [lia|].
    eapply Z.lt_le_trans; [done|]. apply Z.pow_le_mono_r; lia.
  - intros Hb. destruct (decide (n = 0)) as [->|]; [apply Z.pow_pos_nonneg; lia|].
    apply Z.log2_lt_pow2; [lia|]. apply Z.nle_gt. intros Hle.
    specialize (Hb _ Hle). rewrite Z.bit_log2 in Hb by lia. done.
Qed.

Section bitwise_bounds.
Context (w : Z) (Hw : 0 ≤ w).
Lemma land_bounds a b : 0 ≤ a < 2 ^ w → 0 ≤ b → 0 ≤ Z.land a b < 2 ^ w.
Proof.
  intros Ha Hb. assert (0 ≤ Z.land a b) by (apply Z.land_nonneg; lia).
  split; [done|]. apply below_pow2_testbit; [done..|]. intros i Hi.
  rewrite Z.land_spec, (proj1 (below_pow2_testbit w a Hw ltac:(lia))); naive_solver lia.
Qed.
Lemma lor_bounds a b : 0 ≤ a < 2 ^ w → 0 ≤ b < 2 ^ w → 0 ≤ Z.lor a b < 2 ^ w.
Proof.
  intros Ha Hb. assert (0 ≤ Z.lor a b) by (apply Z.lor_nonneg; lia).
  split; [done|]. apply below_pow2_testbit; [done..|]. intros i Hi.
  rewrite Z.lor_spec, (proj1 (below_pow2_testbit w a Hw ltac:(lia))),
    (proj1 (below_pow2_testbit w b Hw ltac:(lia))); naive_solver lia.
Qed.
Lemma lxor_bounds a b : 0 ≤ a < 2 ^ w → 0 ≤ b < 2 ^ w → 0 ≤ Z.lxor a b < 2 ^ w.
Proof.
  intros Ha Hb. assert (0 ≤ Z.lxor a b) by (apply Z.lxor_nonneg; lia).
  split; [done|]. apply below_pow2_testbit; [done..|]. intros i Hi.
  rewrite Z.lxor_spec, (proj1 (below_pow2_testbit w a Hw ltac:(lia))),
    (proj1 (below_pow2_testbit w b Hw ltac:(lia))); naive_solver lia.
Qed.
Lemma shiftr_bounds a n : 0 ≤ a < 2 ^ w → 0 ≤ n → 0 ≤ Z.shiftr a n < 2 ^ w.
Proof.
  intros Ha Hn. rewrite Z.shiftr_div_pow2 by done.
  split; [apply Z.div_pos; [lia|by apply Z.pow_pos_nonneg]|].
  apply Z.div_lt_upper_bound; [by apply Z.pow_pos_nonneg|].
  assert (1 ≤ 2 ^ n) by (apply (Z.pow_le_mono_r 2 0 n); lia). nia.
Qed.
End bitwise_bounds.

Create HintDb kern.
#[export] Hint Resolve u32_bounds u64_bounds u8_bounds : kern.

(** ** Tactics of the development *)

(** Take apart a hypothesis that says a monadic computation returned. *)
Ltac inv_res :=
  repeat match goal with
  | H : (_ ≫= _) = Ok _ |- _ => apply bind_Ok in H; destruct H as (? & ? & ?)
  | H : (_ <$> _) = Ok _ |- _ => apply fmap_Ok in H; destruct H as (? & ? & ?)
  | H : mret _ = Ok _ |- _ => injection H as ?
  | H : Ok _ = Ok _ |- _ => injection H as ?
  | H : Ok _ = Fault _ |- _ => discriminate H
  | H : Fault _ = Ok _ |- _ => discriminate H
  | H : Fault _ = Fault _ |- _ => injection H as ?
  end; simplify_eq/=.

(** Case analysis on the boolean tests of the goal, outermost first. *)
Ltac case_bool :=
  match goal with
  | |- context [if ?b then _ else _] => destruct b eqn:?
  end.

(** Boolean comparisons in hypotheses as arithmetic. *)
Ltac zb := rewrite ?orb_true_iff, ?orb_false_iff, ?andb_true_iff, ?andb_false_iff,
  ?negb_true_iff, ?negb_false_iff, ?Z.eqb_eq, ?Z.eqb_neq, ?Z.ltb_lt, ?Z.ltb_ge,
  ?Z.leb_le, ?Z.leb_gt, ?Z.gtb_gt, ?Z.geb_ge in *.

(** Decide a closed decidable goal by computation. *)
Ltac by_decide := refine (bool_decide_unpack _ _); vm_compute; exact I.
