(* ===== verification/Bits.v ===== *)
(** * Bit maps in arrays of bytes (sys/param.h)

    The macros on bit maps that the components share, over an array of bytes as a
    list of numbers, and what they do to the bits of the array. The result of an
    assignment is truncated to the byte it is stored in. *)

From S2P Require Export Prelude.

(** Division and remainder by constants in [lia]. *)
#[local] Ltac Zify.zify_post_hook ::= Z.to_euclidean_division_equations.

Definition NBBY : Z := 8.

Definition bit_mask (i : Z) : Z := Z.shiftl 1 (i mod NBBY).
Definition setbit (a : list Z) (i : Z) : res (list Z) :=
  b ← get a (i / NBBY); put a (i / NBBY) (u8 (b .| bit_mask i)).
Definition clrbit (a : list Z) (i : Z) : res (list Z) :=
  b ← get a (i / NBBY); put a (i / NBBY) (u8 (b .& Z.lnot (bit_mask i))).
Definition isset (a : list Z) (i : Z) : res bool :=
  b ← get a (i / NBBY); mret (negb (b .& bit_mask i =? 0)).
Definition isclr (a : list Z) (i : Z) : res bool :=
  b ← get a (i / NBBY); mret (b .& bit_mask i =? 0).

(** The bit of index [i], for the statements. *)
Definition bit (a : list Z) (i : Z) : bool :=
  Z.testbit (default 0 (a !! Z.to_nat (i / NBBY))) (i mod NBBY).
Definition bytes_wf (a : list Z) : Prop := Forall is_u8 a.
Definition has_bit (a : list Z) (i : Z) : Prop := 0 ≤ i < NBBY * Z.of_nat (length a).

Lemma has_bit_byte a i : has_bit a i → 0 ≤ i / NBBY < Z.of_nat (length a) ∧ 0 ≤ i mod NBBY < 8.
Proof.
  unfold has_bit, NBBY. intros [H1 H2]. split; [|by apply Z.mod_pos_bound].
  split; [by apply Z.div_pos|]. apply Z.div_lt_upper_bound; lia.
Qed.

Lemma testbit_pow2 b n : 0 ≤ n → negb (b .& Z.shiftl 1 n =? 0) = Z.testbit b n.
Proof.
  intros Hn. rewrite Z.shiftl_1_l. destruct (Z.testbit b n) eqn:E.
  - apply negb_true_iff, Z.eqb_neq. intros H. assert (Hb : Z.testbit (b .& 2 ^ n) n = false)
      by (rewrite H; apply Z.testbit_0_l).
    by rewrite Z.land_spec, E, Z.pow2_bits_true in Hb.
  - apply negb_false_iff, Z.eqb_eq. apply Z.bits_inj'. intros i Hi.
    rewrite Z.land_spec, Z.testbit_0_l, Z.pow2_bits_eqb by done.
    destruct (Z.eqb_spec n i) as [<-|]; [by rewrite E|by rewrite andb_false_r].
Qed.

Lemma isset_spec a i : has_bit a i → isset a i = Ok (bit a i).
Proof.
  intros [Hi Hm]%has_bit_byte. unfold isset, bit_mask, bit. destruct (get_total a (i / NBBY) Hi) as (b & -> & Hb).
  rewrite Hb. simpl. by rewrite testbit_pow2 by lia.
Qed.

Lemma isclr_spec a i : has_bit a i → isclr a i = Ok (negb (bit a i)).
Proof.
  intros H%isset_spec. unfold isset, isclr in *. destruct (get a _); [|done].
  injection H as <-. simpl. by rewrite negb_involutive.
Qed.

Lemma testbit_u8 b n : is_u8 b → 8 ≤ n → Z.testbit b n = false.
Proof. intros Hb. by apply (below_pow2_testbit 8); [lia|destruct Hb|destruct Hb]. Qed.
Lemma testbit_u8_trunc b n : 0 ≤ n < 8 → Z.testbit (u8 b) n = Z.testbit b n.
Proof. intros. unfold u8. rewrite Z.mod_pow2_bits_low; [done|lia]. Qed.

(** A write to one byte. *)
Lemma byte_update a i b' (P : Z → bool → bool) : has_bit a i → bytes_wf a → is_u8 b' →
  (∀ n, 0 ≤ n < 8 → Z.testbit b' n =
     P (NBBY * (i / NBBY) + n) (bit a (NBBY * (i / NBBY) + n))) →
  (∀ j, j / NBBY ≠ i / NBBY → P j (bit a j) = bit a j) →
  ∃ a', put a (i / NBBY) b' = Ok a' ∧ length a' = length a ∧ bytes_wf a' ∧
    ∀ j, 0 ≤ j → bit a' j = P j (bit a j).
Proof.
  intros [Hi Hm]%has_bit_byte Hwf Hb' Hin Hout. eexists. split; [by apply put_total|].
  split; [by rewrite length_insert|]. split; [by apply Forall_insert|]. intros j Hj.
  unfold bit at 1. destruct (decide (j / NBBY = i / NBBY)) as [He|He].
  - rewrite He, list_lookup_insert_eq by lia. simpl. unfold NBBY in *. rewrite Hin by lia.
    rewrite <-He, <-Z.div_mod by lia. done.
  - rewrite list_lookup_insert_ne; [by rewrite Hout|]. intros H. apply He.
    assert (0 ≤ j / NBBY) by (unfold NBBY; apply Z.div_pos; lia). lia.
Qed.

Lemma bit_in_byte a i n b : 0 ≤ n < 8 → a !! Z.to_nat i = Some b → 0 ≤ i →
  bit a (NBBY * i + n) = Z.testbit b n.
Proof.
  intros Hn Hb Hi. unfold bit, NBBY. rewrite Z.mul_comm.
  rewrite Z.div_add_l, Z.div_small, Z.add_0_r by lia. rewrite Hb. simpl. f_equal.
  rewrite Z.add_comm, Z_mod_plus_full. apply Z.mod_small. lia.
Qed.

Lemma byte_split i n : 0 ≤ n < 8 → (NBBY * (i / NBBY) + n =? i) = (n =? i mod NBBY).
Proof. unfold NBBY. intros. pose proof (Z.div_mod i 8). lia. Qed.

Lemma get_byte_wf a i b : bytes_wf a → a !! Z.to_nat i = Some b → is_u8 b.
Proof. intros Hwf Hb. unfold bytes_wf in Hwf. rewrite Forall_forall in Hwf. apply Hwf. by eapply list_elem_of_lookup_2. Qed.

Lemma setbit_spec a i : has_bit a i → bytes_wf a →
  ∃ a', setbit a i = Ok a' ∧ length a' = length a ∧ bytes_wf a' ∧
    ∀ j, 0 ≤ j → bit a' j = (j =? i) || bit a j.
Proof.
  intros Hi Hwf. unfold setbit, bit_mask. destruct (has_bit_byte a i Hi) as [Hb Hm].
  destruct (get_total a (i / NBBY) Hb) as (b & -> & Hb'). simpl.
  apply (byte_update a i _ (λ j x, (j =? i) || x)); [done|done|apply u8_bounds| |].
  - intros n Hn. rewrite testbit_u8_trunc, Z.lor_spec, (bit_in_byte a _ n b), byte_split by (done || lia).
    rewrite Z.shiftl_1_l, Z.pow2_bits_eqb, (Z.eqb_sym n) by lia. apply orb_comm.
  - intros j Hj. destruct (Z.eqb_spec j i) as [->|]; [done|done].
Qed.

Lemma clrbit_spec a i : has_bit a i → bytes_wf a →
  ∃ a', clrbit a i = Ok a' ∧ length a' = length a ∧ bytes_wf a' ∧
    ∀ j, 0 ≤ j → bit a' j = negb (j =? i) && bit a j.
Proof.
  intros Hi Hwf. unfold clrbit, bit_mask. destruct (has_bit_byte a i Hi) as [Hb Hm].
  destruct (get_total a (i / NBBY) Hb) as (b & -> & Hb'). simpl.
  apply (byte_update a i _ (λ j x, negb (j =? i) && x)); [done|done|apply u8_bounds| |].
  - intros n Hn. rewrite testbit_u8_trunc, Z.land_spec, (bit_in_byte a _ n b), byte_split by (done || lia).
    rewrite Z.lnot_spec, Z.shiftl_1_l, Z.pow2_bits_eqb, (Z.eqb_sym n) by lia. apply andb_comm.
  - intros j Hj. destruct (Z.eqb_spec j i) as [->|]; [done|done].
Qed.
