(* ===== verification/BpfMachine.v ===== *)
(** * The packet-filter machine (net/bpf_filter.c, net/bpf.h)

    The instruction encoding, the packet readers over mbuf chains
    ([m_xword], [m_xhalf], [m_xbyte]) and the interpreter [bpf_filter_ext] as
    the kernel compiles it ([_KERNEL] defined).  Every read is checked: what
    the C code would do outside its buffers is a [Fault].  The instruction
    classes of the interpreter's one switch are one definition each. *)

From S2P Require Export Prelude.

(** ** Instruction encoding *)
Definition BPF_CLASS (code : Z) : Z := code .& 0x07.
Definition BPF_LD : Z := 0x00.
Definition BPF_LDX : Z := 0x01.
Definition BPF_ST : Z := 0x02.
Definition BPF_STX : Z := 0x03.
Definition BPF_ALU : Z := 0x04.
Definition BPF_JMP : Z := 0x05.
Definition BPF_RET : Z := 0x06.
Definition BPF_MISC : Z := 0x07.

Definition BPF_W : Z := 0x00.
Definition BPF_H : Z := 0x08.
Definition BPF_B : Z := 0x10.
Definition BPF_MODE (code : Z) : Z := code .& 0xe0.
Definition BPF_IMM : Z := 0x00.
Definition BPF_ABS : Z := 0x20.
Definition BPF_IND : Z := 0x40.
Definition BPF_MEM : Z := 0x60.
Definition BPF_LEN : Z := 0x80.
Definition BPF_MSH : Z := 0xa0.

Definition BPF_OP (code : Z) : Z := code .& 0xf0.
Definition BPF_ADD : Z := 0x00.
Definition BPF_SUB : Z := 0x10.
Definition BPF_MUL : Z := 0x20.
Definition BPF_DIV : Z := 0x30.
Definition BPF_OR : Z := 0x40.
Definition BPF_AND : Z := 0x50.
Definition BPF_LSH : Z := 0x60.
Definition BPF_RSH : Z := 0x70.
Definition BPF_NEG : Z := 0x80.
Definition BPF_MOD : Z := 0x90.
Definition BPF_XOR : Z := 0xa0.
Definition BPF_JA : Z := 0x00.
Definition BPF_JEQ : Z := 0x10.
Definition BPF_JGT : Z := 0x20.
Definition BPF_JGE : Z := 0x30.
Definition BPF_JSET : Z := 0x40.
Definition BPF_SRC (code : Z) : Z := code .& 0x08.
Definition BPF_K : Z := 0x00.
Definition BPF_X : Z := 0x08.
Definition BPF_A : Z := 0x10.
Definition BPF_MISCOP (code : Z) : Z := code .& 0xf8.
Definition BPF_TAX : Z := 0x00.
Definition BPF_COP : Z := 0x20.
Definition BPF_COPX : Z := 0x40.
Definition BPF_TXA : Z := 0x80.

Definition BPF_MEMWORDS : Z := 16.
Definition BPF_MAX_MEMWORDS : Z := 30.
Definition BPF_MAXINSNS : Z := 512.
(** [UINT32_C(1) << k] *)
Definition BPF_MEMWORD_INIT (k : Z) : Z := u32 (Z.shiftl 1 k).

(** [struct bpf_insn]: [code] is 16 bits wide, [jt] and [jf] 8, [k] 32. *)
Record bpf_insn := Insn { code : Z; jt : Z; jf : Z; k : Z }.

Definition insn_wf (i : bpf_insn) : Prop :=
  is_u16 (code i) ∧ is_u8 (jt i) ∧ is_u8 (jf i) ∧ is_u32 (k i).

#[export] Instance insn_wf_dec i : Decision (insn_wf i).
Proof. unfold insn_wf. apply _. Defined.

Definition BPF_STMT (code k : Z) : bpf_insn := Insn (u16 code) 0 0 k.
Definition BPF_JUMP (code k jt jf : Z) : bpf_insn := Insn (u16 code) jt jf k.

(** ** Packets

    [args->pkt] points at a contiguous buffer when [args->buflen] is not zero,
    and is a pointer to an mbuf chain in disguise when it is.  An mbuf is the
    list of its [m_len] bytes; an empty chain is the null pointer. *)
Inductive packet :=
  | Flat (bytes : list Z)
  | Mbuf (m : list (list Z)).

(** [bpf_args_t]; a word of [mem] that was never written is [None]. *)
Record bpf_args := Args {
  pkt : packet; wirelen : Z; buflen : Z; mem : list (option Z) }.

(** [bpf_ctx_t]; a coprocessor function gets the arguments and the
    accumulator, may change the arguments, and returns the new accumulator. *)
Definition bpf_copfunc := bpf_args → Z → bpf_args * Z.
Record bpf_ctx := Ctx {
  copfuncs : option (list bpf_copfunc); nfuncs : Z;
  extwords : Z; preinited : Z }.

Definition EINVAL : Z := 22.

Definition bpf_create : bpf_ctx := Ctx None 0 0 0.

Definition bpf_set_cop (bc : bpf_ctx) (funcs : list bpf_copfunc) (n : Z) : bpf_ctx :=
  Ctx (Some funcs) n (extwords bc) (preinited bc).

(** Returns the error code and the context. *)
Definition bpf_set_extmem (bc : bpf_ctx) (nwords preinit : Z) : Z * bpf_ctx :=
  if (BPF_MAX_MEMWORDS <? nwords) || negb (Z.shiftr preinit nwords =? 0)
  then (EINVAL, bc)
  else (0, Ctx (copfuncs bc) (nfuncs bc) nwords preinit).

(** ** Reading packets *)

(** [be16dec] and [be32dec] of the bytes at [k]. *)
Definition EXTRACT_SHORT (p : list Z) (k : Z) : res Z :=
  b0 ← get p k; b1 ← get p (k + 1);
  mret (Z.shiftl b0 8 .| b1).
Definition EXTRACT_LONG (p : list Z) (k : Z) : res Z :=
  b0 ← get p k; b1 ← get p (k + 1); b2 ← get p (k + 2); b3 ← get p (k + 3);
  mret (Z.shiftl b0 24 .| Z.shiftl b1 16 .| Z.shiftl b2 8 .| b3).

(** [MINDEX(len, m, k)]: the mbuf that holds byte [k], what follows it in the
    chain, and the offset in it; [None] when the macro returns 0. *)
Fixpoint MINDEX (m : list (list Z)) (k : Z) : option (list Z * list (list Z) * Z) :=
  match m with
  | [] => None
  | b :: m' =>
      let len := Z.of_nat (length b) in
      if len <=? k then MINDEX m' (k - len) else Some (b, m', k)
  end.

(** The readers return the value and [*err]; the chain is not null. *)
Definition m_xword (m : list (list Z)) (k : Z) : res (Z * Z) :=
  if bool_decide (m = []) then Fault NullDeref else
  match MINDEX m k with
  | None => mret (0, 1)
  | Some (b, next, k) =>
      let len := Z.of_nat (length b) in
      if 4 <=? len - k then w ← EXTRACT_LONG b k; mret (w, 0)
      else
        match next with
        | [] => mret (0, 1)
        | m0 :: _ =>
            if len - k + Z.of_nat (length m0) <? 4 then mret (0, 1)
            else if len - k =? 1 then
              c0 ← get b k; n0 ← get m0 0; n1 ← get m0 1; n2 ← get m0 2;
              mret (Z.shiftl c0 24 .| Z.shiftl n0 16 .| Z.shiftl n1 8 .| n2, 0)
            else if len - k =? 2 then
              c0 ← get b k; c1 ← get b (k + 1); n0 ← get m0 0; n1 ← get m0 1;
              mret (Z.shiftl c0 24 .| Z.shiftl c1 16 .| Z.shiftl n0 8 .| n1, 0)
            else
              c0 ← get b k; c1 ← get b (k + 1); c2 ← get b (k + 2); n0 ← get m0 0;
              mret (Z.shiftl c0 24 .| Z.shiftl c1 16 .| Z.shiftl c2 8 .| n0, 0)
        end
  end.

Definition m_xhalf (m : list (list Z)) (k : Z) : res (Z * Z) :=
  if bool_decide (m = []) then Fault NullDeref else
  match MINDEX m k with
  | None => mret (0, 1)
  | Some (b, next, k) =>
      let len := Z.of_nat (length b) in
      if 2 <=? len - k then w ← EXTRACT_SHORT b k; mret (w, 0)
      else
        match next with
        | [] => mret (0, 1)
        | m0 :: _ => c0 ← get b k; n0 ← get m0 0; mret (Z.shiftl c0 8 .| n0, 0)
        end
  end.

Definition m_xbyte (m : list (list Z)) (k : Z) : res (Z * Z) :=
  if bool_decide (m = []) then Fault NullDeref else
  match MINDEX m k with
  | None => mret (0, 1)
  | Some (b, _, k) => c ← get b k; mret (c, 0)
  end.

(** The shape every packet load of the interpreter has: when the bytes are in
    the buffer, [EXTRACT] them; otherwise give up ([None]: the filter returns
    0) when [early] holds or there is a buffer, and read the chain if not. *)
Definition pkt_fetch (a : bpf_args) (fits early : bool)
    (flat : list Z → Z → res Z) (chain : list (list Z) → Z → res (Z * Z)) (k : Z)
    : res (option Z) :=
  if fits then
    match pkt a with
    | Flat p => v ← flat p k; mret (Some v)
    | Mbuf _ => Fault TypeConfusion
    end
  else if early || negb (buflen a =? 0) then mret None
  else
    match pkt a with
    | Flat _ => Fault TypeConfusion
    | Mbuf m =>
        '(v, merr) ← chain m k;
        mret (if merr =? 0 then Some v else None)
    end.

(** ** The interpreter *)

(** The registers: [pc] is an index into the program. *)
Record vm := VM { pc : Z; A : Z; X : Z; args : bpf_args }.

(** One turn of the loop: go on (with [pc] not yet incremented) or return. *)
Inductive next := Continue (s : vm) | Return (v : Z).

Definition set_A (s : vm) (a : Z) : next := Continue (VM (pc s) a (X s) (args s)).
Definition set_X (s : vm) (x : Z) : next := Continue (VM (pc s) (A s) x (args s)).
Definition jump (s : vm) (off : Z) : next :=
  Continue (VM (pc s + off) (A s) (X s) (args s)).
Definition load_A (s : vm) (v : option Z) : next :=
  match v with Some a => set_A s a | None => Return 0 end.

(** The cases of the switch are tried in turn; [None] is "another case". *)
Definition bpf_exec_ret (i : bpf_insn) (s : vm) : option (res next) :=
  if code i =? BPF_RET .| BPF_K then Some (mret (Return (k i)))
  else if code i =? BPF_RET .| BPF_A then Some (mret (Return (A s)))
  else None.

Definition bpf_exec_ld_abs (i : bpf_insn) (s : vm) : option (res next) :=
  let a := args s in
  let k := k i in
  if code i =? BPF_LD .| BPF_W .| BPF_ABS then Some
    (let bad := (buflen a <? k) || (buflen a - k <? 4) in
     load_A s <$> pkt_fetch a (negb bad) false EXTRACT_LONG m_xword k)
  else if code i =? BPF_LD .| BPF_H .| BPF_ABS then Some
    (let bad := (buflen a <? k) || (buflen a - k <? 2) in
     load_A s <$> pkt_fetch a (negb bad) false EXTRACT_SHORT m_xhalf k)
  else if code i =? BPF_LD .| BPF_B .| BPF_ABS then Some
    (load_A s <$> pkt_fetch a (negb (buflen a <=? k)) false get m_xbyte k)
  else if code i =? BPF_LD .| BPF_W .| BPF_LEN then Some
    (mret (set_A s (u32 (wirelen a))))
  else if code i =? BPF_LDX .| BPF_W .| BPF_LEN then Some
    (mret (set_X s (u32 (wirelen a))))
  else None.

Definition bpf_exec_ld_ind (i : bpf_insn) (s : vm) : option (res next) :=
  let a := args s in
  let kx := u32 (X s + k i) in
  let early := kx <? X s in
  if code i =? BPF_LD .| BPF_W .| BPF_IND then Some
    (let bad := early || (buflen a <=? kx) || (buflen a - kx <? 4) in
     load_A s <$> pkt_fetch a (negb bad) early EXTRACT_LONG m_xword kx)
  else if code i =? BPF_LD .| BPF_H .| BPF_IND then Some
    (let bad := early || (buflen a <=? kx) || (buflen a - kx <? 2) in
     load_A s <$> pkt_fetch a (negb bad) early EXTRACT_SHORT m_xhalf kx)
  else if code i =? BPF_LD .| BPF_B .| BPF_IND then Some
    (let bad := early || (buflen a <=? kx) in
     load_A s <$> pkt_fetch a (negb bad) early get m_xbyte kx)
  else if code i =? BPF_LDX .| BPF_MSH .| BPF_B then Some
    (v ← pkt_fetch a (negb (buflen a <=? k i)) false get m_xbyte (k i);
     mret match v with
          | Some b => set_X s (Z.shiftl (b .& 0xf) 2)
          | None => Return 0
          end)
  else None.

Definition mem_read (a : bpf_args) (k : Z) : res Z :=
  w ← get (mem a) k;
  match w with Some v => mret v | None => Fault Uninitialised end.

Definition mem_write (s : vm) (k v : Z) : res next :=
  let a := args s in
  m ← put (mem a) k (Some v);
  mret (Continue (VM (pc s) (A s) (X s) (Args (pkt a) (wirelen a) (buflen a) m))).

Definition bpf_exec_mem (i : bpf_insn) (s : vm) : option (res next) :=
  if code i =? BPF_LD .| BPF_IMM then Some (mret (set_A s (k i)))
  else if code i =? BPF_LDX .| BPF_IMM then Some (mret (set_X s (k i)))
  else if code i =? BPF_LD .| BPF_MEM then Some (set_A s <$> mem_read (args s) (k i))
  else if code i =? BPF_LDX .| BPF_MEM then Some (set_X s <$> mem_read (args s) (k i))
  else if code i =? BPF_ST then Some (mem_write s (k i) (A s))
  else if code i =? BPF_STX then Some (mem_write s (k i) (X s))
  else None.

Definition bpf_exec_jmp (i : bpf_insn) (s : vm) : option (res next) :=
  let branch (b : bool) := Some (mret (jump s (if b then jt i else jf i))) in
  if code i =? BPF_JMP .| BPF_JA then Some (mret (jump s (k i)))
  else if code i =? BPF_JMP .| BPF_JGT .| BPF_K then branch (k i <? A s)
  else if code i =? BPF_JMP .| BPF_JGE .| BPF_K then branch (k i <=? A s)
  else if code i =? BPF_JMP .| BPF_JEQ .| BPF_K then branch (A s =? k i)
  else if code i =? BPF_JMP .| BPF_JSET .| BPF_K then branch (negb (A s .& k i =? 0))
  else if code i =? BPF_JMP .| BPF_JGT .| BPF_X then branch (X s <? A s)
  else if code i =? BPF_JMP .| BPF_JGE .| BPF_X then branch (X s <=? A s)
  else if code i =? BPF_JMP .| BPF_JEQ .| BPF_X then branch (A s =? X s)
  else if code i =? BPF_JMP .| BPF_JSET .| BPF_X then branch (negb (A s .& X s =? 0))
  else None.

(** [A <<= n] and [A >>= n]: a shift by 32 or more is undefined in C. *)
Definition shl32 (a n : Z) : res Z :=
  if n <? 32 then mret (u32 (Z.shiftl a n)) else Fault ShiftRange.
Definition shr32 (a n : Z) : res Z :=
  if n <? 32 then mret (Z.shiftr a n) else Fault ShiftRange.

Definition bpf_exec_alu_x (i : bpf_insn) (s : vm) : option (res next) :=
  let a := A s in
  let x := X s in
  if code i =? BPF_ALU .| BPF_ADD .| BPF_X then Some (mret (set_A s (u32 (a + x))))
  else if code i =? BPF_ALU .| BPF_SUB .| BPF_X then Some (mret (set_A s (u32 (a - x))))
  else if code i =? BPF_ALU .| BPF_MUL .| BPF_X then Some (mret (set_A s (u32 (a * x))))
  else if code i =? BPF_ALU .| BPF_DIV .| BPF_X then Some
    (mret (if x =? 0 then Return 0 else set_A s (a / x)))
  else if code i =? BPF_ALU .| BPF_MOD .| BPF_X then Some
    (mret (if x =? 0 then Return 0 else set_A s (a mod x)))
  else if code i =? BPF_ALU .| BPF_AND .| BPF_X then Some (mret (set_A s (a .& x)))
  else if code i =? BPF_ALU .| BPF_OR .| BPF_X then Some (mret (set_A s (a .| x)))
  else if code i =? BPF_ALU .| BPF_XOR .| BPF_X then Some (mret (set_A s (Z.lxor a x)))
  else if code i =? BPF_ALU .| BPF_LSH .| BPF_X then Some (set_A s <$> shl32 a x)
  else if code i =? BPF_ALU .| BPF_RSH .| BPF_X then Some (set_A s <$> shr32 a x)
  else None.

Definition div32 (a n : Z) : res Z := if n =? 0 then Fault DivByZero else mret (a / n).
Definition mod32 (a n : Z) : res Z := if n =? 0 then Fault DivByZero else mret (a mod n).

Definition bpf_exec_alu_k (i : bpf_insn) (s : vm) : option (res next) :=
  let a := A s in
  let k := k i in
  if code i =? BPF_ALU .| BPF_ADD .| BPF_K then Some (mret (set_A s (u32 (a + k))))
  else if code i =? BPF_ALU .| BPF_SUB .| BPF_K then Some (mret (set_A s (u32 (a - k))))
  else if code i =? BPF_ALU .| BPF_MUL .| BPF_K then Some (mret (set_A s (u32 (a * k))))
  else if code i =? BPF_ALU .| BPF_DIV .| BPF_K then Some (set_A s <$> div32 a k)
  else if code i =? BPF_ALU .| BPF_MOD .| BPF_K then Some (set_A s <$> mod32 a k)
  else if code i =? BPF_ALU .| BPF_AND .| BPF_K then Some (mret (set_A s (a .& k)))
  else if code i =? BPF_ALU .| BPF_OR .| BPF_K then Some (mret (set_A s (a .| k)))
  else if code i =? BPF_ALU .| BPF_XOR .| BPF_K then Some (mret (set_A s (Z.lxor a k)))
  else if code i =? BPF_ALU .| BPF_LSH .| BPF_K then Some (set_A s <$> shl32 a k)
  else if code i =? BPF_ALU .| BPF_RSH .| BPF_K then Some (set_A s <$> shr32 a k)
  else if code i =? BPF_ALU .| BPF_NEG then Some (mret (set_A s (u32 (- a))))
  else None.

(** [if (n < bc->nfuncs) { A = bc->copfuncs[n](bc, args, A); continue; } return 0] *)
Definition call_cop (bc : option bpf_ctx) (s : vm) (n : Z) : res next :=
  match bc with
  | None => Fault NullDeref
  | Some c =>
      if n <? nfuncs c then
        match copfuncs c with
        | None => Fault NullDeref
        | Some fs =>
            fn ← get fs n;
            let '(args', a) := fn (args s) (A s) in
            mret (Continue (VM (pc s) a (X s) args'))
        end
      else mret (Return 0)
  end.

Definition bpf_exec_misc (bc : option bpf_ctx) (i : bpf_insn) (s : vm) : option (res next) :=
  if code i =? BPF_MISC .| BPF_TAX then Some (mret (set_X s (A s)))
  else if code i =? BPF_MISC .| BPF_TXA then Some (mret (set_A s (X s)))
  else if code i =? BPF_MISC .| BPF_COP then Some (call_cop bc s (k i))
  else if code i =? BPF_MISC .| BPF_COPX then Some (call_cop bc s (X s))
  else None.

Fixpoint first_case (l : list (option (res next))) : res next :=
  match l with
  | [] => mret (Return 0)  (* default: *)
  | Some r :: _ => r
  | None :: l' => first_case l'
  end.

(** The switch of [bpf_filter_ext]. *)
Definition bpf_exec (bc : option bpf_ctx) (i : bpf_insn) (s : vm) : res next :=
  first_case [bpf_exec_ret i s; bpf_exec_ld_abs i s; bpf_exec_ld_ind i s;
    bpf_exec_mem i s; bpf_exec_jmp i s; bpf_exec_alu_x i s; bpf_exec_alu_k i s;
    bpf_exec_misc bc i s].

(** The loop, with [pc] the index of the instruction to execute. *)
Fixpoint bpf_loop (fuel : nat) (bc : option bpf_ctx) (f : list bpf_insn) (s : vm) : res Z :=
  match fuel with
  | O => Fault NoFuel
  | S fuel =>
      i ← get f (pc s);
      n ← bpf_exec bc i s;
      match n with
      | Return v => mret v
      | Continue s => bpf_loop fuel bc f (VM (pc s + 1) (A s) (X s) (args s))
      end
  end.

(** [None] is a null program.  The program counter grows at each turn, so the
    length of the program (and one turn to leave it) is enough fuel. *)
Definition bpf_filter_ext (bc : option bpf_ctx) (f : option (list bpf_insn))
    (a : bpf_args) : res Z :=
  match f with
  | None => mret (u32 (-1))
  | Some f => bpf_loop (S (length f)) bc f (VM 0 0 0 a)
  end.

Definition bpf_filter (f : option (list bpf_insn)) (p : packet) (wirelen buflen : Z) : res Z :=
  bpf_filter_ext None f (Args p wirelen buflen (replicate (Z.to_nat BPF_MEMWORDS) None)).
