(* ===== verification/BpfValidate.v ===== *)
(** * The static checker of packet filters (net/bpf_filter.c)

    [bpf_validate_ext], one definition per instruction class of its switch.
    [vmem] is the kernel's [mem] array: for each instruction, the memory words
    that some jump to it found uninitialised; [invalid] is the bit mask of the
    words not known to be initialised at the current instruction. *)

From S2P Require Export BpfMachine.

(** The masks after a class's checks, or [None] for [goto out]. *)
Definition vmasks : Type := list Z * Z.

Definition bpf_validate_ld (memwords : Z) (p : bpf_insn) (vmem : list Z) (invalid : Z)
    : res (option vmasks) :=
  let m := BPF_MODE (code p) in
  if m =? BPF_MEM then
    if memwords <=? k p then mret None
    else if negb (invalid .& BPF_MEMWORD_INIT (k p) =? 0) then mret None
    else mret (Some (vmem, invalid))
  else if (m =? BPF_ABS) || (m =? BPF_IND) || (m =? BPF_MSH) || (m =? BPF_IMM)
    || (m =? BPF_LEN) then mret (Some (vmem, invalid))
  else mret None.

Definition bpf_validate_st (memwords : Z) (p : bpf_insn) (vmem : list Z) (invalid : Z)
    : res (option vmasks) :=
  if memwords <=? k p then mret None
  else mret (Some (vmem, invalid .& u32 (Z.lnot (BPF_MEMWORD_INIT (k p))))).

Definition bpf_validate_alu (p : bpf_insn) (vmem : list Z) (invalid : Z)
    : res (option vmasks) :=
  let op := BPF_OP (code p) in
  if (op =? BPF_ADD) || (op =? BPF_SUB) || (op =? BPF_MUL) || (op =? BPF_OR)
    || (op =? BPF_XOR) || (op =? BPF_AND) || (op =? BPF_LSH) || (op =? BPF_RSH)
    || (op =? BPF_NEG) then mret (Some (vmem, invalid))
  else if (op =? BPF_DIV) || (op =? BPF_MOD) then
    if (BPF_SRC (code p) =? BPF_K) && (k p =? 0) then mret None
    else mret (Some (vmem, invalid))
  else mret None.

(** [mem[t] |= invalid] *)
Definition mark_invalid (vmem : list Z) (t invalid : Z) : res (list Z) :=
  w ← get vmem t; put vmem t (w .| invalid).

Definition bpf_validate_jmp (len i : Z) (p : bpf_insn) (vmem : list Z) (invalid : Z)
    : res (option vmasks) :=
  let from := i + 1 in
  let op := BPF_OP (code p) in
  if op =? BPF_JA then
    if len <=? u32 (from + k p) then mret None
    else if u32 (from + k p) <? from then mret None
    else vmem ← mark_invalid vmem (u32 (from + k p)) invalid; mret (Some (vmem, 0))
  else if (op =? BPF_JEQ) || (op =? BPF_JGT) || (op =? BPF_JGE) || (op =? BPF_JSET) then
    if (len <=? from + jt p) || (len <=? from + jf p) then mret None
    else
      vmem ← mark_invalid vmem (from + jt p) invalid;
      vmem ← mark_invalid vmem (from + jf p) invalid;
      mret (Some (vmem, 0))
  else mret None.

Definition bpf_validate_misc (bc : option bpf_ctx) (p : bpf_insn) (vmem : list Z)
    (invalid : Z) : res (option vmasks) :=
  let op := BPF_MISCOP (code p) in
  if (op =? BPF_COP) || (op =? BPF_COPX) then
    match bc with
    | Some (Ctx (Some _) nfuncs _ _) =>
        if (op =? BPF_COP) && (nfuncs <=? k p) then mret None
        else mret (Some (vmem, invalid))
    | _ => mret None
    end
  else mret (Some (vmem, invalid)).

Definition ctx_memwords (bc : option bpf_ctx) : Z :=
  match bc with
  | Some c => if extwords c =? 0 then BPF_MEMWORDS else extwords c
  | None => BPF_MEMWORDS
  end.
Definition ctx_preinited (bc : option bpf_ctx) : Z :=
  match bc with
  | Some c => if extwords c =? 0 then 0 else preinited c
  | None => 0
  end.

(** One turn of the loop at index [i], [invalid] being blended already. *)
Definition bpf_validate_insn (bc : option bpf_ctx) (len i : Z) (p : bpf_insn)
    (vmem : list Z) (invalid : Z) : res (option vmasks) :=
  let c := BPF_CLASS (code p) in
  let memwords := ctx_memwords bc in
  if (c =? BPF_LD) || (c =? BPF_LDX) then bpf_validate_ld memwords p vmem invalid
  else if (c =? BPF_ST) || (c =? BPF_STX) then bpf_validate_st memwords p vmem invalid
  else if c =? BPF_ALU then bpf_validate_alu p vmem invalid
  else if c =? BPF_JMP then bpf_validate_jmp len i p vmem invalid
  else if c =? BPF_RET then mret (Some (vmem, invalid))
  else if c =? BPF_MISC then bpf_validate_misc bc p vmem invalid
  else mret None.

(** The loop [for (i = 0; i < len; ++i)], with [n] turns left. *)
Fixpoint bpf_validate_loop (n : nat) (bc : option bpf_ctx) (f : list bpf_insn)
    (len i : Z) (vmem : list Z) (invalid : Z) : res Z :=
  match n with
  | O => mret 1
  | S n =>
      w ← get vmem i;
      let invalid := invalid .| w in
      p ← get f i;
      r ← bpf_validate_insn bc len i p vmem invalid;
      match r with
      | None => mret 0
      | Some (vmem, invalid) => bpf_validate_loop n bc f len (i + 1) vmem invalid
      end
  end.

Definition bpf_validate_ext (bc : option bpf_ctx) (f : list bpf_insn) (signed_len : Z)
    : res Z :=
  let len := u32 signed_len in
  if len <? 1 then mret 0
  else if BPF_MAXINSNS <? len then mret 0
  else
    last ← get f (len - 1);
    if negb (code last =? BPF_RET .| BPF_K) && negb (code last =? BPF_RET .| BPF_A)
    then mret 0
    else
      let invalid := u32 (Z.lnot (ctx_preinited bc)) in
      bpf_validate_loop (Z.to_nat len) bc f len 0 (replicate (Z.to_nat len) 0) invalid.

Definition bpf_validate (f : list bpf_insn) (signed_len : Z) : res Z :=
  bpf_validate_ext None f signed_len.
