(* ===== verification/BpfSafety.v ===== *)
(** * What the filter checker guarantees

    A filter that [bpf_validate_ext] accepts runs to a result on every packet
    (in a chain no mbuf after the first is empty):
    no access outside its buffers, no read of an uninitialised memory word, no
    null pointer, no division by zero and no jump out of the program.  The one
    fault left is a shift by 32 or more, which the checker lets through. *)

From S2P Require Export BpfValidate.

(** ** What the caller provides *)

Definition packet_wf (a : bpf_args) : Prop :=
  match pkt a with
  | Flat p => 0 < buflen a ≤ Z.of_nat (length p) ∧ Forall is_u8 p
  | Mbuf m => buflen a = 0 ∧ m ≠ [] ∧ Forall (Forall is_u8) m
              ∧ Forall (λ b, b ≠ []) (tail m)
  end.

Definition word_wf (w : option Z) : Prop :=
  match w with Some v => is_u32 v | None => True end.

#[export] Instance word_wf_dec w : Decision (word_wf w).
Proof. destruct w; simpl; apply _. Defined.

Record args_wf (memwords : Z) (a : bpf_args) : Prop := {
  awf_pkt : packet_wf a;
  awf_len : Z.of_nat (length (mem a)) = memwords;
  awf_mem : Forall word_wf (mem a);
}.

(** Every uninitialised word of [m] has its bit set in [inv]. *)
Definition covers (inv : Z) (m : list (option Z)) : Prop :=
  ∀ w : nat, m !! w = Some None → Z.testbit inv (Z.of_nat w) = true.

(** A coprocessor function returns a 32-bit word, and leaves the packet, the
    size of the memory and every initialised word well-formed. *)
Definition cop_wf (memwords : Z) (fn : bpf_copfunc) : Prop :=
  ∀ a acc, args_wf memwords a → is_u32 acc →
    args_wf memwords (fn a acc).1 ∧ is_u32 (fn a acc).2 ∧
    ∀ w : nat, mem (fn a acc).1 !! w = Some None → mem a !! w = Some None.

Definition ctx_wf (bc : option bpf_ctx) : Prop :=
  match bc with
  | None => True
  | Some c =>
      0 ≤ extwords c ≤ BPF_MAX_MEMWORDS ∧
      match copfuncs c with
      | None => True
      | Some fs => nfuncs c = Z.of_nat (length fs) ∧ Forall (cop_wf (ctx_memwords bc)) fs
      end
  end.

(** The memory store a run starts with: the words of [preinited] are set. *)
Definition mem_ready (bc : option bpf_ctx) (m : list (option Z)) : Prop :=
  ∀ w : nat, Z.testbit (ctx_preinited bc) (Z.of_nat w) = true → m !! w ≠ Some None.

(** ** The packet readers *)

Lemma is_u8_get (p : list Z) i b : Forall is_u8 p → get p i = Ok b → is_u8 b.
Proof. intros Hp [_ Hb]%get_Ok. by eapply Forall_lookup_1 in Hp. Qed.

Lemma shl_byte_bounds b n : is_u8 b → 0 ≤ n ≤ 24 → is_u32 (Z.shiftl b n).
Proof.
  unfold is_u8, is_u32. intros Hb Hn. rewrite Z.shiftl_mul_pow2 by lia.
  assert (1 ≤ 2 ^ n ≤ 2 ^ 24) by (split; [apply (Z.pow_le_mono_r 2 0)|apply Z.pow_le_mono_r]; lia).
  nia.
Qed.
Lemma u8_u32 b : is_u8 b → is_u32 b.
Proof. unfold is_u8, is_u32. lia. Qed.
Lemma lor_u32 a b : is_u32 a → is_u32 b → is_u32 (a .| b).
Proof. apply lor_bounds. lia. Qed.
#[local] Hint Resolve is_u8_get shl_byte_bounds u8_u32 lor_u32 : kern.

Ltac get_byte i :=
  let b := fresh "b" in let Hb := fresh "Hb" in
  match goal with
  | |- context [get ?l i] =>
      destruct (get_total l i) as (b & Hb & _); [cbn [length]; lia|];
      rewrite Hb; cbn [mbind res_bind]
  end.

Lemma EXTRACT_SHORT_ok p k : Forall is_u8 p → 0 ≤ k → k + 2 ≤ Z.of_nat (length p) →
  ∃ v, EXTRACT_SHORT p k = Ok v ∧ is_u32 v.
Proof.
  intros Hp H0 H1. unfold EXTRACT_SHORT. get_byte k. get_byte (k + 1).
  eexists. split; [done|]. apply lor_u32; [apply shl_byte_bounds; [|lia]|apply u8_u32]; eauto with kern.
Qed.

Lemma EXTRACT_LONG_ok p k : Forall is_u8 p → 0 ≤ k → k + 4 ≤ Z.of_nat (length p) →
  ∃ v, EXTRACT_LONG p k = Ok v ∧ is_u32 v.
Proof.
  intros Hp H0 H1. unfold EXTRACT_LONG.
  get_byte k. get_byte (k + 1). get_byte (k + 2). get_byte (k + 3).
  eexists. split; [done|].
  repeat apply lor_u32; try apply shl_byte_bounds; try apply u8_u32; eauto with kern; lia.
Qed.

Lemma get_byte_ok p k : Forall is_u8 p → 0 ≤ k < Z.of_nat (length p) →
  ∃ v, get p k = Ok v ∧ is_u32 v.
Proof. intros Hp Hk. destruct (get_total p k Hk) as (b & Hb & _). eauto with kern. Qed.

Lemma MINDEX_Some m k b nx k' : 0 ≤ k → MINDEX m k = Some (b, nx, k') →
  0 ≤ k' < Z.of_nat (length b) ∧ b ∈ m ∧ (∀ c, c ∈ nx → c ∈ tail m).
Proof.
  revert k. induction m as [|c m IH]; intros k Hk H; simpl in H; [done|].
  destruct (Z.leb_spec (Z.of_nat (length c)) k).
  - apply IH in H as (? & ? & Hsub); [|lia]. repeat split; [lia|lia|set_solver|].
    intros d Hd%Hsub. destruct m; set_solver.
  - simplify_eq/=. repeat split; [lia|lia|set_solver|done].
Qed.

Section chain.
Context (m : list (list Z)) (Hne : m ≠ []) (Hm : Forall (Forall is_u8) m)
  (Htl : Forall (λ b, b ≠ []) (tail m)).

Lemma MINDEX_bytes k b nx k' : 0 ≤ k → MINDEX m k = Some (b, nx, k') →
  0 ≤ k' < Z.of_nat (length b) ∧ Forall is_u8 b ∧
  match nx with [] => True | m0 :: _ => Forall is_u8 m0 ∧ m0 ≠ [] end.
Proof.
  intros Hk (Hk' & Hb & Hnx)%MINDEX_Some; [|done]. rewrite Forall_forall in Hm.
  rewrite Forall_forall in Htl. split; [done|]. split; [by apply Hm|].
  destruct nx as [|m0 nx]; [done|]. assert (Ht : m0 ∈ tail m) by (apply Hnx; set_solver).
  split; [|by apply Htl]. apply Hm. destruct m; set_solver.
Qed.

Lemma m_xbyte_ok k : 0 ≤ k → ∃ v e, m_xbyte m k = Ok (v, e) ∧ is_u32 v.
Proof.
  intros Hk. unfold m_xbyte. rewrite bool_decide_eq_false_2 by done.
  destruct (MINDEX m k) as [[[b nx] k']|] eqn:E; [|by exists 0, 1].
  destruct (MINDEX_bytes _ _ _ _ Hk E) as (Hk' & Hb & _). get_byte k'.
  eexists _, _. split; [done|]. eauto with kern.
Qed.

Lemma m_xhalf_ok k : 0 ≤ k → ∃ v e, m_xhalf m k = Ok (v, e) ∧ is_u32 v.
Proof.
  intros Hk. unfold m_xhalf. rewrite bool_decide_eq_false_2 by done.
  destruct (MINDEX m k) as [[[b nx] k']|] eqn:E; [|by exists 0, 1].
  destruct (MINDEX_bytes _ _ _ _ Hk E) as (Hk' & Hb & Hnx).
  destruct (Z.leb_spec 2 (Z.of_nat (length b) - k')).
  - destruct (EXTRACT_SHORT_ok b k') as (v & -> & ?); [done|lia..|]. by eexists _, _.
  - destruct nx as [|m0 nx]; [by exists 0, 1|]. destruct Hnx as [Hm0 ?].
    destruct m0 as [|x m0]; [done|]. get_byte k'. get_byte 0.
    eexists _, _. split; [done|].
    apply lor_u32; [apply shl_byte_bounds; [|lia]|apply u8_u32]; eauto with kern.
Qed.

Lemma m_xword_ok k : 0 ≤ k → ∃ v e, m_xword m k = Ok (v, e) ∧ is_u32 v.
Proof.
  intros Hk. unfold m_xword. rewrite bool_decide_eq_false_2 by done.
  destruct (MINDEX m k) as [[[b nx] k']|] eqn:E; [|by exists 0, 1].
  destruct (MINDEX_bytes _ _ _ _ Hk E) as (Hk' & Hb & Hnx).
  destruct (Z.leb_spec 4 (Z.of_nat (length b) - k')).
  - destruct (EXTRACT_LONG_ok b k') as (v & -> & ?); [done|lia..|]. by eexists _, _.
  - destruct nx as [|m0 nx]; [by exists 0, 1|]. destruct Hnx as [Hm0 ?].
    repeat case_bool; zb; [by exists 0, 1|..].
    + get_byte k'. get_byte 0. get_byte 1. get_byte 2. eexists _, _. split; [done|].
      repeat apply lor_u32; try apply shl_byte_bounds; try apply u8_u32; eauto with kern; lia.
    + get_byte k'. get_byte (k' + 1). get_byte 0. get_byte 1. eexists _, _. split; [done|].
      repeat apply lor_u32; try apply shl_byte_bounds; try apply u8_u32; eauto with kern; lia.
    + get_byte k'. get_byte (k' + 1). get_byte (k' + 2). get_byte 0.
      eexists _, _. split; [done|].
      repeat apply lor_u32; try apply shl_byte_bounds; try apply u8_u32; eauto with kern; lia.
Qed.
End chain.

(** A packet load never faults on a well-formed packet. *)
Lemma pkt_fetch_ok a fits early flat chain k n :
  packet_wf a → 0 ≤ k → 0 < n →
  (fits = true → k + n ≤ buflen a) →
  (∀ p, Forall is_u8 p → k + n ≤ Z.of_nat (length p) → ∃ v, flat p k = Ok v ∧ is_u32 v) →
  (∀ m, m ≠ [] → Forall (Forall is_u8) m → Forall (λ b, b ≠ []) (tail m) →
     ∃ v e, chain m k = Ok (v, e) ∧ is_u32 v) →
  ∃ o, pkt_fetch a fits early flat chain k = Ok o ∧ word_wf o.
Proof.
  intros Hp Hk Hn Hfits Hflat Hchain. unfold pkt_fetch, packet_wf in *.
  destruct fits.
  - specialize (Hfits eq_refl). destruct (pkt a) as [p|m]; [|lia].
    destruct Hp as [? Hp]. destruct (Hflat p Hp) as (v & -> & ?); [lia|]. by exists (Some v).
  - destruct (early || _) eqn:E; [by exists None|]. zb. destruct E as [_ E].
    destruct (pkt a) as [p|m]; [lia|]. destruct Hp as (_ & ? & ? & ?).
    destruct (Hchain m) as (v & e & -> & ?); [done..|]. simpl.
    eexists. split; [done|]. by destruct (e =? 0).
Qed.

(** ** One instruction *)

(** The state of a run that the checker's mask [inv] describes. *)
Record vm_ok (bc : option bpf_ctx) (inv : Z) (s : vm) : Prop := {
  vok_args : args_wf (ctx_memwords bc) (args s);
  vok_A : is_u32 (A s);
  vok_X : is_u32 (X s);
  vok_inv : covers inv (mem (args s));
}.

(** A shift that may be by 32 or more: by [X], or by such a constant. *)
Definition wide_shift (p : bpf_insn) : Prop :=
  code p = BPF_ALU .| BPF_LSH .| BPF_X ∨ code p = BPF_ALU .| BPF_RSH .| BPF_X ∨
  (32 ≤ k p ∧ (code p = BPF_ALU .| BPF_LSH .| BPF_K ∨ code p = BPF_ALU .| BPF_RSH .| BPF_K)).

(** The outcome of the instruction [p] at [i] after which the checker has the
    masks [vmem] and [inv]: the filter returned, or goes on to the next
    instruction under [inv] or to a later one under the mask kept for it. *)
Definition step_ok (bc : option bpf_ctx) (len : Z) (p : bpf_insn) (i : Z) (vmem : list Z) (inv : Z)
    (r : res next) : Prop :=
  match r with
  | Fault f => f = ShiftRange ∧ wide_shift p
  | Ok (Return v) => is_u32 v
  | Ok (Continue s) =>
      (pc s = i ∧ vm_ok bc inv s) ∨
      (i ≤ pc s ∧ pc s + 1 < len ∧
       ∃ w, vmem !! Z.to_nat (pc s + 1) = Some w ∧ vm_ok bc w s)
  end.

(** A term built from numerals, the encoding's constants and masks. *)
Ltac closed_Z t :=
  match t with
  | Z.land ?a ?b => closed_Z a; closed_Z b
  | Z.lor ?a ?b => closed_Z a; closed_Z b
  | BPF_CLASS ?a => closed_Z a
  | BPF_MODE ?a => closed_Z a
  | BPF_OP ?a => closed_Z a
  | BPF_SRC ?a => closed_Z a
  | BPF_MISCOP ?a => closed_Z a
  | Z0 => idtac
  | Zpos _ => idtac
  | _ => let u := eval red in t in match u with Z0 => idtac | Zpos _ => idtac end
  end.

(** Evaluate the tests on closed operands in a hypothesis. *)
Ltac eval_tests H :=
  repeat match type of H with
  | context [?a =? ?b] =>
      closed_Z a; closed_Z b;
      let v := eval vm_compute in (a =? b) in
      match v with true => idtac | false => idtac end;
      change (a =? b) with v in H
  end; cbn [orb andb negb] in H; cbv iota in H.

(** The checks of an instruction whose code is known. *)
Ltac known_code Hv Hc :=
  unfold bpf_validate_insn, bpf_validate_ld, bpf_validate_st, bpf_validate_alu,
    bpf_validate_jmp, bpf_validate_misc in Hv; rewrite Hc in Hv; eval_tests Hv.

(** The checks passed without touching the masks. *)
Ltac same_masks Hv :=
  let H1 := fresh in let H2 := fresh in
  injection Hv as H1 H2; rewrite <- H1, <- H2.

(** Split a chain of code tests; in each case [Hc] gives the code. *)
Ltac split_cases Hr :=
  repeat match type of Hr with
  | (if code ?p =? ?c then _ else _) = Some _ =>
      let Hc := fresh "Hc" in destruct (Z.eqb_spec (code p) c) as [Hc|_]
  end; try discriminate Hr; injection Hr as <-.

Lemma u32_0 : is_u32 0.
Proof. unfold is_u32. lia. Qed.
#[local] Hint Resolve u32_0 : kern.

(** *** Masks *)

Definition sub_mask (a b : Z) : Prop :=
  ∀ n, 0 ≤ n → Z.testbit a n = true → Z.testbit b n = true.

Lemma sub_mask_lor_l a b : sub_mask a (a .| b).
Proof. intros n Hn H. rewrite Z.lor_spec, orb_true_iff. auto. Qed.
Lemma sub_mask_lor_r a b : sub_mask b (a .| b).
Proof. intros n Hn H. rewrite Z.lor_spec, orb_true_iff. auto. Qed.
#[export] Instance sub_mask_preorder : PreOrder sub_mask.
Proof. split; [by intros a n|]. intros a b c ?? n ??. auto. Qed.

#[export] Instance covers_mono : Proper (sub_mask ==> (=) ==> impl) covers.
Proof. intros a b Hab m ? <- Hm w Hw. apply Hab; [lia|]. by apply Hm. Qed.

Lemma vm_ok_mono bc a b s : sub_mask a b → vm_ok bc a s → vm_ok bc b s.
Proof. intros Hab [????]. split; try done. by eapply covers_mono. Qed.

Lemma MEMWORD_INIT_bit n i : 0 ≤ n < 32 → 0 ≤ i →
  Z.testbit (BPF_MEMWORD_INIT n) i = bool_decide (i = n).
Proof.
  intros Hn Hi. unfold BPF_MEMWORD_INIT. rewrite u32_small.
  - rewrite Z.shiftl_1_l, Z.pow2_bits_eqb by lia. case_bool_decide; lia.
  - unfold is_u32. rewrite Z.shiftl_1_l. split; [lia|]. apply Z.pow_lt_mono_r; lia.
Qed.

Lemma valid_word_bit inv n : 0 ≤ n < 32 →
  inv .& BPF_MEMWORD_INIT n = 0 → Z.testbit inv n = false.
Proof.
  intros Hn H. assert (Hb : Z.testbit (inv .& BPF_MEMWORD_INIT n) n = false).
  { by rewrite H, Z.testbit_0_l. }
  rewrite Z.land_spec, MEMWORD_INIT_bit, bool_decide_eq_true_2, andb_true_r in Hb; [done..|lia|lia].
Qed.

Lemma clear_word_bit inv n i : 0 ≤ n < 32 → 0 ≤ i < 32 → i ≠ n →
  Z.testbit (inv .& u32 (Z.lnot (BPF_MEMWORD_INIT n))) i = Z.testbit inv i.
Proof.
  intros Hn Hi Hne. unfold u32. rewrite Z.land_spec, Z.mod_pow2_bits_low by lia.
  rewrite Z.lnot_spec, MEMWORD_INIT_bit, bool_decide_eq_false_2 by lia.
  by rewrite andb_true_r.
Qed.

Lemma ctx_memwords_bounds bc : ctx_wf bc → 1 ≤ ctx_memwords bc ≤ 30.
Proof.
  unfold ctx_wf, ctx_memwords, BPF_MEMWORDS, BPF_MAX_MEMWORDS.
  destruct bc as [c|]; [|lia]. intros [? _]. case_bool; lia.
Qed.

(** The masks kept for later instructions only grow. *)
Definition masks_grow (v v' : list Z) : Prop :=
  length v' = length v ∧
  ∀ (j : nat) w, v !! j = Some w → ∃ w', v' !! j = Some w' ∧ sub_mask w w'.

#[export] Instance masks_grow_preorder : PreOrder masks_grow.
Proof.
  split.
  - intros v. split; [done|]. intros j w ?. by exists w.
  - intros a b c [L1 H1] [L2 H2]. split; [congruence|].
    intros j w (w1 & E1 & ?)%H1. destruct (H2 _ _ E1) as (w2 & ? & ?).
    exists w2. split; [done|]. by etrans.
Qed.

Lemma mark_invalid_Ok v t inv v' : mark_invalid v t inv = Ok v' →
  masks_grow v v' ∧ ∃ w, v' !! Z.to_nat t = Some w ∧ sub_mask inv w.
Proof.
  unfold mark_invalid. intros (w & Hw & Hp)%bind_Ok.
  apply get_Ok in Hw as [_ Hw]. apply put_Ok in Hp as [Ht ->].
  assert (Z.to_nat t < length v)%nat by lia. split; [split|].
  - by rewrite length_insert.
  - intros j w' Hj. destruct (decide (j = Z.to_nat t)) as [->|].
    + rewrite list_lookup_insert_eq by done. simplify_eq. eexists; split; [done|].
      apply sub_mask_lor_l.
    + rewrite list_lookup_insert_ne by done. by exists w'.
  - rewrite list_lookup_insert_eq by done. eexists; split; [done|]. apply sub_mask_lor_r.
Qed.

Section exec.
Context (bc : option bpf_ctx) (len i : Z) (p : bpf_insn) (vmem : list Z) (inv : Z)
  (vmem' : list Z) (inv' : Z) (s : vm) (r : res next)
  (Hctx : ctx_wf bc) (Hp : insn_wf p) (Hi : 0 ≤ i < len) (Hlen : len ≤ BPF_MAXINSNS)
  (Hvmem : Z.of_nat (length vmem) = len) (Hpc : pc s = i) (Hs : vm_ok bc inv s)
  (Hv : bpf_validate_insn bc len i p vmem inv = Ok (Some (vmem', inv'))).

Lemma kp_u32 : is_u32 (k p).
Proof. by destruct Hp as (_ & _ & _ & ?). Qed.

Lemma step_set_A a : is_u32 a → step_ok bc len p i vmem inv (Ok (set_A s a)).
Proof. intros Ha. left. destruct Hs. by split. Qed.
Lemma step_set_X a : is_u32 a → step_ok bc len p i vmem inv (Ok (set_X s a)).
Proof. intros Ha. left. destruct Hs. by split. Qed.
Lemma step_load (o : option Z) : word_wf o → step_ok bc len p i vmem inv (Ok (load_A s o)).
Proof. destruct o; simpl; [apply step_set_A|intros _; apply u32_0]. Qed.

(** A load of [n] bytes at [kk]. *)
Lemma step_fetch fits early flat chain kk n (g : option Z → next) :
  0 ≤ kk → 0 < n → (fits = true → kk + n ≤ buflen (args s)) →
  (∀ p, Forall is_u8 p → kk + n ≤ Z.of_nat (length p) → ∃ v, flat p kk = Ok v ∧ is_u32 v) →
  (∀ m, m ≠ [] → Forall (Forall is_u8) m → Forall (λ b, b ≠ []) (tail m) →
     ∃ v e, chain m kk = Ok (v, e) ∧ is_u32 v) →
  (∀ o, word_wf o → step_ok bc len p i vmem inv (Ok (g o))) →
  step_ok bc len p i vmem inv (g <$> pkt_fetch (args s) fits early flat chain kk).
Proof.
  intros Hk Hn Hfits Hflat Hchain Hg. destruct Hs as [[Hpkt _ _] _ _ _].
  destruct (pkt_fetch_ok (args s) fits early flat chain kk n) as (o & -> & Ho); [done..|].
  by apply Hg.
Qed.

Lemma step_word fits early kk : 0 ≤ kk → (fits = true → kk + 4 ≤ buflen (args s)) →
  step_ok bc len p i vmem inv
    (load_A s <$> pkt_fetch (args s) fits early EXTRACT_LONG m_xword kk).
Proof.
  intros Hk Hfits. apply (step_fetch _ _ _ _ _ 4); [lia..|done| | |apply step_load].
  - intros b Hb ?. by apply EXTRACT_LONG_ok; [..|lia].
  - intros m ???. by apply m_xword_ok.
Qed.
Lemma step_half fits early kk : 0 ≤ kk → (fits = true → kk + 2 ≤ buflen (args s)) →
  step_ok bc len p i vmem inv
    (load_A s <$> pkt_fetch (args s) fits early EXTRACT_SHORT m_xhalf kk).
Proof.
  intros Hk Hfits. apply (step_fetch _ _ _ _ _ 2); [lia..|done| | |apply step_load].
  - intros b Hb ?. by apply EXTRACT_SHORT_ok; [..|lia].
  - intros m ???. by apply m_xhalf_ok.
Qed.
Lemma step_byte fits early kk (g : option Z → next) :
  0 ≤ kk → (fits = true → kk < buflen (args s)) →
  (∀ o, word_wf o → step_ok bc len p i vmem inv (Ok (g o))) →
  step_ok bc len p i vmem inv (g <$> pkt_fetch (args s) fits early get m_xbyte kk).
Proof.
  intros Hk Hfits. apply (step_fetch _ _ _ _ _ 1); [lia..| | |].
  - intros H%Hfits. lia.
  - intros b Hb ?. apply get_byte_ok; [done|lia].
  - intros m ???. by apply m_xbyte_ok.
Qed.

Lemma exec_ret_sound : bpf_exec_ret p s = Some r → step_ok bc len p i vmem' inv' r.
Proof using All.
  intros Hr. unfold bpf_exec_ret in Hr. split_cases Hr; [apply kp_u32|by destruct Hs].
Qed.

Lemma exec_ld_abs_sound : bpf_exec_ld_abs p s = Some r → step_ok bc len p i vmem' inv' r.
Proof using All.
  intros Hr. unfold bpf_exec_ld_abs in Hr. cbv zeta in Hr.
  pose proof kp_u32 as Hk. unfold is_u32 in Hk.
  split_cases Hr; known_code Hv Hc; same_masks Hv.
  - apply step_word; lia.
  - apply step_half; lia.
  - apply step_byte; [lia..|apply step_load].
  - apply step_set_A, u32_bounds.
  - apply step_set_X, u32_bounds.
Qed.

Lemma nibble_shift v : is_u32 v → is_u32 (Z.shiftl (v .& 0xf) 2).
Proof.
  intros Hb. assert (0 ≤ Z.land v 0xf < 2 ^ 4).
  { change 0xf with (Z.ones 4). rewrite Z.land_ones by lia. by apply Z.mod_pos_bound. }
  rewrite Z.shiftl_mul_pow2 by lia. unfold is_u32. lia.
Qed.

Lemma exec_ld_ind_sound : bpf_exec_ld_ind p s = Some r → step_ok bc len p i vmem' inv' r.
Proof using All.
  intros Hr. unfold bpf_exec_ld_ind in Hr. cbv zeta in Hr. pose proof kp_u32 as Hk.
  pose proof (u32_bounds (X s + k p)) as Hx. unfold is_u32 in Hk, Hx.
  split_cases Hr; known_code Hv Hc; same_masks Hv.
  - apply step_word; lia.
  - apply step_half; lia.
  - apply step_byte; [lia..|apply step_load].
  - apply (step_byte _ _ _ (λ o, match o with
      Some b => set_X s (Z.shiftl (b .& 0xf) 2) | None => Return 0 end)); [lia..|].
    intros [b|]; [|intros _; apply u32_0]. intros Hb. by apply step_set_X, nibble_shift.
Qed.

Lemma mem_read_ok n : 0 ≤ n < ctx_memwords bc → inv .& BPF_MEMWORD_INIT n = 0 →
  ∃ v, mem_read (args s) n = Ok v ∧ is_u32 v.
Proof.
  intros Hn Hbit. destruct Hs as [[_ Hl Hm] _ _ Hcov].
  pose proof (ctx_memwords_bounds bc Hctx). apply valid_word_bit in Hbit; [|lia].
  unfold mem_read. destruct (get_total (mem (args s)) n) as ([v|] & -> & Hw); [lia| |].
  - exists v. split; [done|]. by apply (Forall_lookup_1 _ _ _ _ Hm Hw).
  - apply Hcov in Hw. rewrite Z2Nat.id in Hw by lia. congruence.
Qed.

Lemma mem_write_ok n v : 0 ≤ n < ctx_memwords bc → is_u32 v →
  step_ok bc len p i vmem (inv .& u32 (Z.lnot (BPF_MEMWORD_INIT n))) (mem_write s n v).
Proof.
  intros Hn Hw. destruct Hs as [[Hpkt Hl Hm] HA HX Hcov].
  pose proof (ctx_memwords_bounds bc Hctx). unfold mem_write.
  rewrite put_total by lia. left. split; [done|]. split; [|done..|].
  - split; [done|simpl; by rewrite length_insert|]. simpl.
    apply Forall_insert; [done|]. done.
  - intros w. simpl. intros Hj. destruct (decide (w = Z.to_nat n)) as [->|].
    + rewrite list_lookup_insert_eq in Hj by lia. done.
    + rewrite list_lookup_insert_ne in Hj by done.
      pose proof (lookup_lt_Some _ _ _ Hj). rewrite clear_word_bit by lia. by apply Hcov.
Qed.

Lemma exec_mem_sound : bpf_exec_mem p s = Some r → step_ok bc len p i vmem' inv' r.
Proof using All.
  intros Hr. unfold bpf_exec_mem in Hr. pose proof kp_u32 as Hk. pose proof Hk as [Hk0 _].
  split_cases Hr; known_code Hv Hc.
  - same_masks Hv. by apply step_set_A.
  - same_masks Hv. by apply step_set_X.
  - destruct (_ <=? _) eqn:E1; [done|]. destruct (_ =? _) eqn:E2; [|done]. same_masks Hv.
    destruct (mem_read_ok (k p)) as (v & -> & ?); [lia..|]. by apply step_set_A.
  - destruct (_ <=? _) eqn:E1; [done|]. destruct (_ =? _) eqn:E2; [|done]. same_masks Hv.
    destruct (mem_read_ok (k p)) as (v & -> & ?); [lia..|]. by apply step_set_X.
  - destruct (_ <=? _) eqn:E1; [done|]. same_masks Hv. apply mem_write_ok; [lia|by destruct Hs].
  - destruct (_ <=? _) eqn:E1; [done|]. same_masks Hv. apply mem_write_ok; [lia|by destruct Hs].
Qed.

Lemma step_jump off (v : list Z) w : 0 ≤ off → i + 1 + off < len →
  v !! Z.to_nat (i + 1 + off) = Some w → sub_mask inv w →
  step_ok bc len p i v inv' (Ok (jump s off)).
Proof.
  intros H0 H1 H2 H3. right. simpl. rewrite Hpc. split_and!; [lia..|].
  exists w. replace (i + off + 1) with (i + 1 + off) by lia. split; [done|].
  eapply vm_ok_mono; [done|]. by destruct Hs.
Qed.

Lemma step_branch (b : bool) : BPF_CLASS (code p) = BPF_JMP →
  (BPF_OP (code p) =? BPF_JA) = false →
  step_ok bc len p i vmem' inv' (Ok (jump s (if b then jt p else jf p))).
Proof using Hi Hv Hp Hpc Hs.
  intros Hcl Hop. unfold bpf_validate_insn, bpf_validate_jmp in Hv.
  rewrite Hcl, Hop in Hv. eval_tests Hv.
  destruct (_ || _); [|done]. destruct (_ || _) eqn:E; [done|].
  apply orb_false_iff in E as [E1 E2]. destruct Hp as (_ & [? _] & [? _] & _).
  apply bind_Ok in Hv as (v1 & H1 & Hv). apply bind_Ok in Hv as (v2 & H2 & Hv).
  injection Hv as <- _. apply mark_invalid_Ok in H1 as [_ (w1 & Hw1 & Hs1)].
  apply mark_invalid_Ok in H2 as [[_ Hg] (w2 & Hw2 & Hs2)].
  destruct b.
  - destruct (Hg _ _ Hw1) as (w1' & Hw1' & Hs1').
    apply (step_jump _ _ w1'); [lia..|done|by transitivity w1].
  - apply (step_jump _ _ w2); [lia..|done|done].
Qed.

Lemma exec_jmp_sound : bpf_exec_jmp p s = Some r → step_ok bc len p i vmem' inv' r.
Proof using All.
  intros Hr. unfold bpf_exec_jmp in Hr. cbv zeta in Hr. pose proof kp_u32 as Hk.
  split_cases Hr; try (apply step_branch; by rewrite Hc).
  known_code Hv Hc. destruct (len <=? _) eqn:E1; [done|]. destruct (_ <? _) eqn:E2; [done|].
  apply bind_Ok in Hv as (v1 & H1 & Hv). injection Hv as <- _.
  apply mark_invalid_Ok in H1 as [_ (w1 & Hw1 & Hs1)].
  unfold is_u32, BPF_MAXINSNS, u32 in *. destruct (Z.lt_ge_cases (i + 1 + k p) (2 ^ 32)).
  - rewrite Z.mod_small in * by lia. apply (step_jump _ _ w1); [lia..|done|done].
  - assert ((i + 1 + k p) mod 2 ^ 32 = i + 1 + k p - 2 ^ 32); [|lia].
    symmetry. apply (Z.mod_unique_pos _ _ 1); lia.
Qed.

Lemma exec_alu_x_sound : bpf_exec_alu_x p s = Some r → step_ok bc len p i vmem' inv' r.
Proof using All.
  intros Hr. unfold bpf_exec_alu_x in Hr. cbv zeta in Hr.
  assert (is_u32 (A s) ∧ is_u32 (X s)) as [HA HX] by (by destruct Hs).
  split_cases Hr; known_code Hv Hc; same_masks Hv; try apply step_set_A, u32_bounds.
  - case_bool; [apply u32_0|]. apply step_set_A. unfold is_u32 in *.
    split; [apply Z.div_pos; lia|]. apply Z.div_lt_upper_bound; nia.
  - case_bool; [apply u32_0|]. apply step_set_A. unfold is_u32 in *.
    pose proof (Z.mod_pos_bound (A s) (X s)). lia.
  - apply step_set_A, land_bounds; [lia|done|apply HX].
  - by apply step_set_A, lor_bounds.
  - by apply step_set_A, lxor_bounds.
  - unfold shl32. case_bool; [|by split; [|left]]. apply step_set_A, u32_bounds.
  - unfold shr32. case_bool; [|by split; [|right; left]].
    apply step_set_A, shiftr_bounds; [lia|done|apply HX].
Qed.

Lemma exec_alu_k_sound : bpf_exec_alu_k p s = Some r → step_ok bc len p i vmem' inv' r.
Proof using All.
  intros Hr. unfold bpf_exec_alu_k in Hr. cbv zeta in Hr. pose proof kp_u32 as HX.
  assert (is_u32 (A s)) as HA by (by destruct Hs).
  split_cases Hr; known_code Hv Hc; try (same_masks Hv; apply step_set_A, u32_bounds).
  - destruct (k p =? 0) eqn:E; [done|]. same_masks Hv. unfold div32. rewrite E.
    apply step_set_A. unfold is_u32 in *.
    split; [apply Z.div_pos; lia|]. apply Z.div_lt_upper_bound; nia.
  - destruct (k p =? 0) eqn:E; [done|]. same_masks Hv. unfold mod32. rewrite E.
    apply step_set_A. unfold is_u32 in *. pose proof (Z.mod_pos_bound (A s) (k p)). lia.
  - same_masks Hv. apply step_set_A, land_bounds; [lia|done|apply HX].
  - same_masks Hv. by apply step_set_A, lor_bounds.
  - same_masks Hv. by apply step_set_A, lxor_bounds.
  - same_masks Hv. unfold shl32. case_bool; [apply step_set_A, u32_bounds|].
    split; [done|]. right. right. split; [lia|by left].
  - same_masks Hv. unfold shr32. case_bool; [|split; [done|]; right; right; split; [lia|by right]].
    apply step_set_A, shiftr_bounds; [lia|done|apply HX].
Qed.

Lemma call_cop_sound n c fs : bc = Some c → copfuncs c = Some fs → 0 ≤ n →
  step_ok bc len p i vmem inv (call_cop bc s n).
Proof.
  intros Hbc Hfs Hn. unfold call_cop. rewrite Hbc.
  destruct (Z.ltb_spec n (nfuncs c)); [|apply u32_0]. rewrite Hfs.
  pose proof Hctx as Hctx'. unfold ctx_wf in Hctx'. rewrite Hbc in Hctx'.
  rewrite Hfs in Hctx'. destruct Hctx' as (_ & Hnf & Hall). rewrite <- Hbc in Hall.
  destruct (get_total fs n) as (fn & -> & Hfn); [lia|]. cbn [mbind res_bind].
  pose proof (Forall_lookup_1 _ _ _ _ Hall Hfn) as Hok.
  destruct Hs as [Hargs HA HX Hcov]. destruct (Hok (args s) (A s)) as (H1 & H2 & H3); [done..|].
  destruct (fn (args s) (A s)) as [args' a]. rewrite <- Hbc. left. split; [done|].
  split; [done..|]. intros w Hw. by apply Hcov, H3.
Qed.

Lemma exec_misc_sound : bpf_exec_misc bc p s = Some r → step_ok bc len p i vmem' inv' r.
Proof using All.
  intros Hr. unfold bpf_exec_misc in Hr. pose proof kp_u32 as [Hk _].
  assert (is_u32 (A s) ∧ is_u32 (X s)) as [HA [HX ?]] by (by destruct Hs).
  split_cases Hr; known_code Hv Hc.
  - same_masks Hv. by apply step_set_X.
  - same_masks Hv. by apply step_set_A.
  - assert (∃ c fs, bc = Some c ∧ copfuncs c = Some fs ∧ (vmem, inv) = (vmem', inv'))
      as (c & fs & Hbc & Hfs & [= <- <-]).
    { clear - Hv. destruct bc as [[[fs|] nf ew pr]|]; try done.
      destruct (nf <=? k p); [done|]. injection Hv as -> ->. by eexists _, fs. }
    by eapply call_cop_sound.
  - assert (∃ c fs, bc = Some c ∧ copfuncs c = Some fs ∧ (vmem, inv) = (vmem', inv'))
      as (c & fs & Hbc & Hfs & [= <- <-]).
    { clear - Hv. destruct bc as [[[fs|] nf ew pr]|]; try done.
      injection Hv as -> ->. by eexists _, fs. }
    by eapply call_cop_sound.
Qed.
End exec.

(** Whatever the instruction, if the checker passed it then it is safe. *)
Lemma exec_sound bc len i p vmem inv vmem' inv' s :
  ctx_wf bc → insn_wf p → 0 ≤ i < len → len ≤ BPF_MAXINSNS →
  Z.of_nat (length vmem) = len → pc s = i → vm_ok bc inv s →
  bpf_validate_insn bc len i p vmem inv = Ok (Some (vmem', inv')) →
  step_ok bc len p i vmem' inv' (bpf_exec bc p s).
Proof.
  intros Hctx Hp Hi Hlen Hvm Hpc Hs Hv. unfold bpf_exec, first_case.
  destruct (bpf_exec_ret p s) eqn:E1; [by eapply exec_ret_sound|].
  destruct (bpf_exec_ld_abs p s) eqn:E2; [by eapply exec_ld_abs_sound|].
  destruct (bpf_exec_ld_ind p s) eqn:E3; [by eapply exec_ld_ind_sound|].
  destruct (bpf_exec_mem p s) eqn:E4; [by eapply exec_mem_sound|].
  destruct (bpf_exec_jmp p s) eqn:E5; [by eapply exec_jmp_sound|].
  destruct (bpf_exec_alu_x p s) eqn:E6; [by eapply exec_alu_x_sound|].
  destruct (bpf_exec_alu_k p s) eqn:E7; [by eapply exec_alu_k_sound|].
  destruct (bpf_exec_misc bc p s) eqn:E8; [by eapply exec_misc_sound|].
  apply u32_0.
Qed.

(** A return instruction leaves the loop. *)
Lemma exec_ret_returns bc p s v :
  (code p =? BPF_RET .| BPF_K) || (code p =? BPF_RET .| BPF_A) = true →
  bpf_exec bc p s ≠ Ok (Continue v).
Proof.
  intros Hc. unfold bpf_exec, bpf_exec_ret. simpl.
  destruct (code p =? BPF_RET .| BPF_K); [done|].
  by destruct (code p =? BPF_RET .| BPF_A).
Qed.

(** ** The checker's loop *)

Lemma mark_invalid_total v t inv : 0 ≤ t < Z.of_nat (length v) →
  ∃ v', mark_invalid v t inv = Ok v' ∧ length v' = length v.
Proof.
  intros Ht. unfold mark_invalid. destruct (get_total v t Ht) as (w & -> & _).
  cbn [mbind res_bind]. rewrite put_total by done. eexists. split; [done|]. apply length_insert.
Qed.

(** An accepted instruction only adds to the masks of later ones. *)
Lemma validate_insn_grows bc len i p v inv v' inv' :
  bpf_validate_insn bc len i p v inv = Ok (Some (v', inv')) → masks_grow v v'.
Proof.
  unfold bpf_validate_insn, bpf_validate_ld, bpf_validate_st, bpf_validate_alu,
    bpf_validate_jmp, bpf_validate_misc. cbv zeta. intros H.
  repeat case_match; inv_res; try done;
    repeat match goal with H : mark_invalid _ _ _ = Ok _ |- _ => apply mark_invalid_Ok in H as [? _] end;
    first [done | match goal with
      | _ : masks_grow ?a ?b, _ : masks_grow ?b ?c |- masks_grow ?a ?c => by transitivity b
      end].
Qed.

(** No instruction makes the checker leave its arrays. *)
Lemma validate_insn_total bc len i p v inv :
  insn_wf p → 0 ≤ i < len → Z.of_nat (length v) = len →
  ∃ o, bpf_validate_insn bc len i p v inv = Ok o.
Proof.
  intros (_ & [? _] & [? _] & [? _]) Hi Hl.
  unfold bpf_validate_insn, bpf_validate_ld, bpf_validate_st, bpf_validate_alu,
    bpf_validate_misc. cbv zeta.
  destruct (BPF_CLASS (code p) =? BPF_JMP) eqn:Ej; [|repeat case_match; by eexists].
  repeat case_match; try by eexists. all: unfold bpf_validate_jmp; cbv zeta.
  all: repeat case_match; try by eexists.
  - destruct (mark_invalid_total v (u32 (i + 1 + k p)) inv) as (v1 & -> & _).
    { unfold u32 in *. pose proof (Z.mod_pos_bound (i + 1 + k p) (2 ^ 32)). lia. }
    by eexists.
  - destruct (mark_invalid_total v (i + 1 + jt p) inv) as (v1 & -> & Hl1); [lia|].
    cbn [mbind res_bind].
    destruct (mark_invalid_total v1 (i + 1 + jf p) inv) as (v2 & -> & _); [lia|]. by eexists.
Qed.

Lemma validate_loop_total bc f n : ∀ i v inv,
  Forall insn_wf f → 0 ≤ i → i + Z.of_nat n = Z.of_nat (length f) →
  Z.of_nat (length v) = Z.of_nat (length f) →
  bpf_validate_loop n bc f (Z.of_nat (length f)) i v inv = Ok 0 ∨
  bpf_validate_loop n bc f (Z.of_nat (length f)) i v inv = Ok 1.
Proof.
  induction n as [|n IH]; intros i v inv Hf Hi Hn Hl; [by right|]. simpl.
  destruct (get_total v i) as (w & -> & _); [lia|].
  destruct (get_total f i) as (p & -> & Hp); [lia|]. cbn [mbind res_bind].
  pose proof (Forall_lookup_1 _ _ _ _ Hf Hp) as Hwf.
  destruct (validate_insn_total bc (Z.of_nat (length f)) i p v (inv .| w)) as [o Ho]; [done|lia|done|].
  rewrite Ho. cbn [mbind res_bind]. destruct o as [[v' inv']|]; [|by left].
  apply validate_insn_grows in Ho as [Hl' _]. apply IH; [done|lia..].
Qed.

(** ** The whole run *)

(** What a run of an accepted filter [f] can end with. *)
Definition run_ok (f : list bpf_insn) (r : res Z) : Prop :=
  match r with
  | Ok v => is_u32 v
  | Fault e => e = ShiftRange ∧ Exists wide_shift f
  end.

Lemma vm_ok_pc bc inv s n : vm_ok bc inv s → vm_ok bc inv (VM n (A s) (X s) (args s)).
Proof. intros [????]. by split. Qed.

Section run.
Context (bc : option bpf_ctx) (f : list bpf_insn) (len : Z) (last : bpf_insn)
  (Hctx : ctx_wf bc) (Hf : Forall insn_wf f) (Hlen : Z.of_nat (length f) = len)
  (Hmax : len ≤ BPF_MAXINSNS) (Hlast : get f (len - 1) = Ok last)
  (Hret : (code last =? BPF_RET .| BPF_K) || (code last =? BPF_RET .| BPF_A) = true).

(** The run from [s], which the checker's state at turn [i] describes. *)
Lemma loop_sound n : ∀ i v inv s fuel,
  i + Z.of_nat n = len → 0 ≤ i → Z.of_nat (length v) = len →
  bpf_validate_loop n bc f len i v inv = Ok 1 →
  i ≤ pc s < len → len - pc s < Z.of_nat fuel →
  (∃ w, v !! Z.to_nat (pc s) = Some w ∧
        vm_ok bc (if pc s =? i then inv .| w else w) s) →
  run_ok f (bpf_loop fuel bc f s).
Proof using Hctx Hf Hlen Hmax Hlast Hret.
  induction n as [|n IH]; intros i v inv s fuel Hn Hi Hl Hv Hpc Hfuel (w & Hw & Hs); [lia|].
  simpl in Hv. apply bind_Ok in Hv as (wi & Hwi & Hv).
  apply bind_Ok in Hv as (p & Hp & Hv). apply bind_Ok in Hv as ([[v' inv']|] & Hins & Hv); [|done].
  apply get_Ok in Hwi as [_ Hwi].
  destruct (validate_insn_grows _ _ _ _ _ _ _ _ Hins) as [Hl' Hgrow].
  destruct (Z.eqb_spec (pc s) i) as [Heq|Hne].
  - rewrite Heq, Hwi in Hw. injection Hw as <-. destruct fuel as [|fuel]; [lia|]. simpl.
    rewrite Heq, Hp. cbn [mbind res_bind].
    assert (insn_wf p) as Hpwf by (by apply get_Ok in Hp as [_ ?%(Forall_lookup_1 _ _ _ _ Hf)]).
    pose proof (exec_sound bc len i p v _ v' inv' s Hctx Hpwf ltac:(lia) Hmax Hl Heq Hs Hins) as Hstep.
    destruct (bpf_exec bc p s) as [[s'|r]|e] eqn:He; cbn [mbind res_bind]; [|done|].
    + assert (Hnext : i ≤ pc s' ∧ pc s' + 1 < len ∧ ∃ w', v' !! Z.to_nat (pc s' + 1) = Some w' ∧
          vm_ok bc (if pc s' + 1 =? i + 1 then inv' .| w' else w') s').
      { destruct Hstep as [[Hpc' Hok]|(? & ? & w' & Hw' & Hok)].
        - assert (i ≠ len - 1).
          { intros ->. rewrite Hlast in Hp. injection Hp as <-. by eapply exec_ret_returns in Hret. }
          split_and!; [lia..|]. destruct (lookup_lt_is_Some_2 v' (Z.to_nat (pc s' + 1))) as [w' Hw']; [lia|].
          exists w'. split; [done|]. rewrite (proj2 (Z.eqb_eq _ _)) by lia.
          eapply vm_ok_mono; [apply sub_mask_lor_l|done].
        - split_and!; [done..|]. exists w'. split; [done|]. case_bool; [|done].
          eapply vm_ok_mono; [apply sub_mask_lor_r|done]. }
      destruct Hnext as (? & ? & w' & Hw' & Hok).
      apply (IH (i + 1) v' inv'); simpl; [lia..|done|lia|lia|].
      exists w'. split; [done|]. by apply vm_ok_pc.
    + destruct Hstep as [-> ?]. split; [done|]. apply get_Ok in Hp as [_ Hp].
      apply Exists_exists. exists p. split; [by apply list_elem_of_lookup_2 in Hp|done].
  - destruct (Hgrow _ _ Hw) as (w' & Hw' & Hsub).
    apply (IH (i + 1) v' inv'); [lia..|done|lia|lia|].
    exists w'. split; [done|]. eapply vm_ok_mono; [|exact Hs]. case_bool; [|done].
    by etrans; [|apply sub_mask_lor_r].
Qed.
End run.

Lemma covers_preinited bc m : ctx_wf bc → Z.of_nat (length m) = ctx_memwords bc →
  mem_ready bc m → covers (u32 (Z.lnot (ctx_preinited bc))) m.
Proof.
  intros Hctx Hl Hm w Hw. pose proof (ctx_memwords_bounds bc Hctx).
  pose proof (lookup_lt_Some _ _ _ Hw). unfold u32.
  rewrite Z.mod_pow2_bits_low, Z.lnot_spec by lia. apply negb_true_iff.
  destruct (Z.testbit _ _) eqn:E; [|done]. by apply Hm in E.
Qed.

(** C1: a filter that [bpf_validate_ext] accepts, run by [bpf_filter_ext] on
    a packet in a buffer of [buflen] bytes at least, or in an mbuf chain in
    which no mbuf after the first is empty ([packet_wf]), with the memory words
    of [preinited] set, returns a 32-bit value: no jump leaves the program, no
    access leaves the packet or the memory words, no uninitialised word is
    read, no null context or function table is used and nothing is divided by
    zero.  The only fault possible is a shift by at least 32, and only when
    the program has a shift by [X] or by such a constant.  A chain with an
    empty mbuf further on is excluded because [m_xhalf] reads outside it
    ([m_xhalf_empty_mbuf] in BpfMbuf.v). *)
Theorem bpf_validate_sound bc f a :
  ctx_wf bc → Forall insn_wf f → Z.of_nat (length f) < 2 ^ 31 →
  args_wf (ctx_memwords bc) a → mem_ready bc (mem a) →
  bpf_validate_ext bc f (Z.of_nat (length f)) = Ok 1 →
  run_ok f (bpf_filter_ext bc (Some f) a).
Proof.
  intros Hctx Hf Hint Ha Hm Hv. unfold bpf_validate_ext in Hv. cbv zeta in Hv.
  rewrite u32_small in Hv by (unfold is_u32; lia).
  destruct (_ <? 1) eqn:E1; [done|]. destruct (BPF_MAXINSNS <? _) eqn:E2; [done|].
  apply bind_Ok in Hv as (last & Hlast & Hv).
  destruct (negb _ && negb _) eqn:Hret; [done|]. rewrite <- negb_orb, negb_false_iff in Hret.
  eapply (loop_sound bc f _ last); try done; try (simpl; lia); [rewrite length_replicate; lia|].
  exists 0. split; [by apply lookup_replicate_2; simpl; lia|]. simpl.
  split; simpl; [done|apply u32_0|apply u32_0|].
  rewrite Z.lor_0_r. apply covers_preinited; [done| |done]. by destruct Ha.
Qed.

(** What the checker asks of a program as a whole: it is not empty, not too
    long, and its last instruction returns. *)
Definition shape_ok (f : list bpf_insn) : Prop :=
  1 ≤ Z.of_nat (length f) ≤ BPF_MAXINSNS ∧
  ∃ i, last f = Some i ∧ (code i = BPF_RET .| BPF_K ∨ code i = BPF_RET .| BPF_A).

Lemma last_get {T} (f : list T) : 0 < Z.of_nat (length f) →
  ∃ x, get f (Z.of_nat (length f) - 1) = Ok x ∧ last f = Some x.
Proof.
  intros Hf. destruct (get_total f (Z.of_nat (length f) - 1)) as (x & Hx & Hl); [lia|].
  exists x. split; [done|]. rewrite last_lookup, <-Hl. f_equal. lia.
Qed.

(** The checker answers 0 or 1 for every program, never leaving the program or its
    array of masks, and answers 0 unless the program has the right shape. *)
Lemma validate_total bc f :
  Forall insn_wf f → Z.of_nat (length f) < 2 ^ 31 →
  ∃ r, bpf_validate_ext bc f (Z.of_nat (length f)) = Ok r ∧ (r = 0 ∨ r = 1 ∧ shape_ok f).
Proof.
  intros Hf Hint. unfold bpf_validate_ext. cbv zeta. rewrite u32_small by (unfold is_u32; lia).
  destruct (_ <? 1) eqn:E1; [by eauto|]. destruct (BPF_MAXINSNS <? _) eqn:E2; [by eauto|].
  destruct (last_get f) as (x & -> & Hx); [lia|].
  cbn [mbind res_bind]. case_bool; [by eauto|].
  rewrite <-negb_orb, negb_false_iff in Heqb.
  assert (Hs : shape_ok f).
  { split; [lia|]. exists x. split; [done|]. zb. tauto. }
  edestruct (validate_loop_total bc f) as [-> | ->]; [..|eauto|eauto]; [done|lia..|].
  rewrite length_replicate. lia.
Qed.

(** ** Any program at all terminates *)

Definition advances (s : vm) (r : res next) : Prop :=
  match r with
  | Ok (Continue s') => pc s ≤ pc s'
  | Ok (Return _) => True
  | Fault e => e ≠ NoFuel
  end.

Definition no_fuel_fault {T} (m : res T) : Prop := m ≠ Fault NoFuel.

Lemma no_fuel_get {T} (l : list T) i : no_fuel_fault (get l i).
Proof. unfold no_fuel_fault, get. by repeat case_match. Qed.
Lemma no_fuel_put {T} (l : list T) i a : no_fuel_fault (put l i a).
Proof. unfold no_fuel_fault, put. by repeat case_match. Qed.
Lemma no_fuel_ret {T} (a : T) : no_fuel_fault (mret a).
Proof. done. Qed.
Lemma no_fuel_bind {T U} (m : res T) (g : T → res U) :
  no_fuel_fault m → (∀ x, no_fuel_fault (g x)) → no_fuel_fault (m ≫= g).
Proof. unfold no_fuel_fault. destruct m; naive_solver. Qed.
#[local] Hint Resolve no_fuel_get no_fuel_put no_fuel_ret : kern.

Ltac no_fuel := repeat first
  [ progress eauto with kern
  | apply no_fuel_bind; [|intros ?]
  | case_match | progress cbv zeta | done ].

Lemma no_fuel_pkt_fetch a fits early flat chain k :
  (∀ p, no_fuel_fault (flat p k)) → (∀ m, no_fuel_fault (chain m k)) →
  no_fuel_fault (pkt_fetch a fits early flat chain k).
Proof. intros. unfold pkt_fetch. no_fuel. Qed.
Lemma no_fuel_EXTRACT_SHORT p k : no_fuel_fault (EXTRACT_SHORT p k).
Proof. unfold EXTRACT_SHORT. no_fuel. Qed.
Lemma no_fuel_EXTRACT_LONG p k : no_fuel_fault (EXTRACT_LONG p k).
Proof. unfold EXTRACT_LONG. no_fuel. Qed.
#[local] Hint Resolve no_fuel_EXTRACT_SHORT no_fuel_EXTRACT_LONG : kern.
Lemma no_fuel_m_xword m k : no_fuel_fault (m_xword m k).
Proof. unfold m_xword. no_fuel. Qed.
Lemma no_fuel_m_xhalf m k : no_fuel_fault (m_xhalf m k).
Proof. unfold m_xhalf. no_fuel. Qed.
Lemma no_fuel_m_xbyte m k : no_fuel_fault (m_xbyte m k).
Proof. unfold m_xbyte. no_fuel. Qed.
#[local] Hint Resolve no_fuel_m_xword no_fuel_m_xhalf no_fuel_m_xbyte no_fuel_pkt_fetch : kern.

Lemma advances_fmap {T} s (m : res T) (g : T → next) :
  no_fuel_fault m → (∀ x, advances s (Ok (g x))) → advances s (g <$> m).
Proof. intros Hm Hg. destruct m; [apply Hg|]. intros ->. by apply Hm. Qed.
Lemma advances_bind {T} s (m : res T) (g : T → res next) :
  no_fuel_fault m → (∀ x, advances s (g x)) → advances s (m ≫= g).
Proof. intros Hm Hg. destruct m; [apply Hg|]. intros ->. by apply Hm. Qed.

Lemma exec_advances bc p s : insn_wf p → advances s (bpf_exec bc p s).
Proof.
  intros (_ & [Ht _] & [Hf _] & [Hk _]).
  assert (Hload : ∀ o, advances s (Ok (load_A s o))) by (intros [a|]; simpl; [lia|done]).
  assert (HA : ∀ a, advances s (Ok (set_A s a))) by (intros a; simpl; lia).
  assert (HX : ∀ a, advances s (Ok (set_X s a))) by (intros a; simpl; lia).
  assert (Hj : ∀ b : bool, advances s (Ok (jump s (if b then jt p else jf p)))).
  { intros b. simpl. destruct b; lia. }
  assert (Hw : ∀ n v, advances s (mem_write s n v)).
  { intros n v. apply advances_bind; [apply no_fuel_put|]. intros m. simpl. lia. }
  assert (Hr : ∀ n, no_fuel_fault (mem_read (args s) n)) by (intros n; unfold mem_read; no_fuel).
  assert (Hc : ∀ n, advances s (call_cop bc s n)).
  { intros n. unfold call_cop. repeat case_match; try done. apply advances_bind; [apply no_fuel_get|].
    intros fn. destruct (fn (args s) (A s)). simpl. lia. }
  assert (Hsh : ∀ n, no_fuel_fault (shl32 (A s) n) ∧ no_fuel_fault (shr32 (A s) n) ∧
    no_fuel_fault (div32 (A s) n) ∧ no_fuel_fault (mod32 (A s) n)).
  { intros n. unfold shl32, shr32, div32, mod32, no_fuel_fault. repeat case_match; by split_and!. }
  unfold bpf_exec, first_case, bpf_exec_ret, bpf_exec_ld_abs, bpf_exec_ld_ind, bpf_exec_mem,
    bpf_exec_jmp, bpf_exec_alu_x, bpf_exec_alu_k, bpf_exec_misc. cbv zeta.
  repeat case_bool; try done; try apply HA; try apply HX; try apply Hj; try apply Hw; try apply Hc;
    try (apply advances_fmap; [first [apply Hr|apply Hsh|eauto with kern]|done]); try (simpl; lia).
  apply advances_bind; [eauto with kern|]. intros [b|]; [apply HX|done].
Qed.

Lemma loop_terminates bc f fuel : ∀ s, Forall insn_wf f →
  Z.of_nat (length f) < Z.of_nat fuel + pc s → (0 < fuel)%nat →
  bpf_loop fuel bc f s ≠ Fault NoFuel.
Proof.
  induction fuel as [|fuel IH]; intros s Hf Hlen Hpos; [lia|]. simpl.
  destruct (get f (pc s)) as [p|e] eqn:Hp; cbn [mbind res_bind].
  - apply get_Ok in Hp as [H0 Hp]. pose proof (lookup_lt_Some _ _ _ Hp).
    pose proof (exec_advances bc p s (Forall_lookup_1 _ _ _ _ Hf Hp)) as Hadv.
    destruct (bpf_exec bc p s) as [[s'|v]|e]; cbn [mbind res_bind]; simpl in Hadv; [|done|congruence].
    apply IH; [done|simpl; lia|lia].
  - intros [= ->]. by apply (no_fuel_get f (pc s)) in Hp.
Qed.

(** C2: checker and interpreter stop on every program. The checker answers 0 or 1,
    never leaving the program or its array of masks, and answers 0 unless the
    program has the right shape. The interpreter stops on every packet, whether or
    not the program is accepted: the program counter only grows, so the turns
    [bpf_filter_ext] is given are enough. *)
Theorem bpf_stops bc f :
  Forall insn_wf f → Z.of_nat (length f) < 2 ^ 31 →
  (∃ r, bpf_validate_ext bc f (Z.of_nat (length f)) = Ok r ∧ (r = 0 ∨ r = 1 ∧ shape_ok f)) ∧
  ∀ a, no_fuel_fault (bpf_filter_ext bc (Some f) a).
Proof.
  intros Hf Hlen. split; [by apply validate_total|].
  intros a. apply loop_terminates; [done|simpl; lia|lia].
Qed.

(** ** A filter that passes the checks: store the Ethernet type in a memory
    word, load it again and accept 96 bytes of an IPv4 packet. *)
Definition sample_filter : list bpf_insn :=
  [ BPF_STMT (BPF_LD .| BPF_H .| BPF_ABS) 12; BPF_STMT BPF_ST 3;
    BPF_STMT (BPF_LD .| BPF_MEM) 3; BPF_JUMP (BPF_JMP .| BPF_JEQ .| BPF_K) 0x800 0 1;
    BPF_STMT (BPF_RET .| BPF_K) 96; BPF_STMT (BPF_RET .| BPF_K) 0 ].
Definition sample_chain : list (list Z) := [replicate 12 0 ++ [8]; [0; 69; 0]; [1]].
Definition sample_args : bpf_args := Args (Mbuf sample_chain) 17 0 (replicate 16 None).

Lemma bpf_validate_sound_witness :
  bpf_validate_ext None sample_filter 6 = Ok 1 ∧
  run_ok sample_filter (bpf_filter_ext None (Some sample_filter) sample_args).
Proof.
  split; [vm_compute; reflexivity|].
  apply (bpf_validate_sound None sample_filter sample_args).
  - exact I.
  - by_decide.
  - vm_compute; reflexivity.
  - split; [|reflexivity|by_decide].
    split_and!; [reflexivity|discriminate|by_decide|by_decide].
  - intros w Hw. rewrite Z.testbit_0_l in Hw. discriminate.
  - vm_compute; reflexivity.
Defined.

Lemma bpf_stops_witness :
  (∃ r, bpf_validate_ext None sample_filter 6 = Ok r ∧ (r = 0 ∨ r = 1 ∧ shape_ok sample_filter)) ∧
  no_fuel_fault (bpf_filter_ext None (Some sample_filter) sample_args).
Proof.
  destruct (bpf_stops None sample_filter) as [Hv Ht]; [by_decide|vm_compute; reflexivity|].
  split; [exact Hv|apply Ht].
Defined.
