(* ===== verification/BpfMbuf.v ===== *)
(** * Packets in mbuf chains and in one buffer

    What the readers of [net/bpf_filter.c] over an mbuf chain give, for every
    chain: a word or halfword is read when it lies in the mbuf that holds its
    first byte and the next one ([in_two]).  On a chain in which no mbuf but the
    last is too short ([chain_wf]) that is every word of the packet, so a
    filter sees no difference between the two forms of a packet.  The file ends
    with the inputs on which the checks of the code are not enough. *)

From S2P Require Export BpfSafety.

(** No mbuf after the first is empty, and those between the first and the last
    hold three bytes at least: a 4-byte read then spans two mbufs at most. *)
Definition chain_wf (m : list (list Z)) : Prop :=
  m ≠ [] ∧ Forall (λ b : list Z, b ≠ []) (tail m) ∧
  ∀ pre b b' post, m = pre ++ b :: b' :: post → pre ≠ [] → (3 ≤ length b)%nat.

(** The [n] bytes from [k] on lie in the mbuf that holds byte [k] and the one
    after it. *)
Fixpoint in_two (m : list (list Z)) (k n : Z) : bool :=
  match m with
  | [] => false
  | b :: nx =>
      if k <? Z.of_nat (length b)
      then k + n <=? Z.of_nat (length b) + Z.of_nat (length (default [] (head nx)))
      else in_two nx (k - Z.of_nat (length b)) n
  end.

(** Byte [k] is the last of its mbuf, and the next mbuf is there and empty. *)
Fixpoint next_empty (m : list (list Z)) (k : Z) : bool :=
  match m with
  | [] => false
  | b :: nx =>
      if k <? Z.of_nat (length b)
      then (k + 1 =? Z.of_nat (length b)) && match nx with [] :: _ => true | _ => false end
      else next_empty nx (k - Z.of_nat (length b))
  end.

Lemma in_two_MINDEX m k n :
  in_two m k n = match MINDEX m k with
                 | None => false
                 | Some (b, nx, k') =>
                     k' + n <=? Z.of_nat (length b) + Z.of_nat (length (default [] (head nx)))
                 end.
Proof.
  revert k. induction m as [|b nx IH]; intros k; simpl; [done|]. rewrite IH.
  by destruct (Z.leb_spec (Z.of_nat (length b)) k), (Z.ltb_spec k (Z.of_nat (length b))); try lia.
Qed.
Lemma next_empty_MINDEX m k :
  next_empty m k = match MINDEX m k with
                   | None => false
                   | Some (b, nx, k') =>
                       (k' + 1 =? Z.of_nat (length b)) && match nx with [] :: _ => true | _ => false end
                   end.
Proof.
  revert k. induction m as [|b nx IH]; intros k; simpl; [done|]. rewrite IH.
  by destruct (Z.leb_spec (Z.of_nat (length b)) k), (Z.ltb_spec k (Z.of_nat (length b))); try lia.
Qed.

Lemma MINDEX_spec m k : 0 ≤ k →
  match MINDEX m k with
  | None => Z.of_nat (length (concat m)) ≤ k
  | Some (b, nx, k') => ∃ pre, m = pre ++ b :: nx ∧
      k = Z.of_nat (length (concat pre)) + k' ∧ 0 ≤ k' < Z.of_nat (length b)
  end.
Proof.
  revert k. induction m as [|c m IH]; intros k Hk; simpl; [lia|].
  destruct (Z.leb_spec (Z.of_nat (length c)) k).
  - specialize (IH (k - Z.of_nat (length c)) ltac:(lia)).
    destruct (MINDEX m _) as [[[b nx] k']|].
    + destruct IH as (pre & -> & Hke & ?). exists (c :: pre). split; [done|]. simpl.
      rewrite length_app. lia.
    + rewrite length_app. lia.
  - exists []. simpl. split; [done|]. lia.
Qed.

Lemma get_app_r {T} (l1 l2 : list T) i j :
  i = Z.of_nat (length l1) + j → 0 ≤ j → get (l1 ++ l2) i = get l2 j.
Proof.
  intros -> Hj. unfold get. rewrite !(proj2 (Z.ltb_ge _ _)) by lia.
  rewrite lookup_app_r by lia. by replace (Z.to_nat (Z.of_nat (length l1) + j) - length l1)%nat
    with (Z.to_nat j) by lia.
Qed.
Lemma get_app_l {T} (l1 l2 : list T) i :
  i < Z.of_nat (length l1) → get (l1 ++ l2) i = get l1 i.
Proof.
  intros Hi. unfold get. destruct (Z.ltb_spec i 0); [done|]. by rewrite lookup_app_l by lia.
Qed.

Section readers.
Context (m : list (list Z)) (Hm : m ≠ []).
Let p := concat m.
Let len := Z.of_nat (length p).

(** Byte [k' + j] of the found mbuf or byte [j'] of the one after it. *)
Lemma flat_split pre b nx k k' : m = pre ++ b :: nx →
  k = Z.of_nat (length (concat pre)) + k' → 0 ≤ k' →
  (∀ j, 0 ≤ j → k' + j < Z.of_nat (length b) → get p (k + j) = get b (k' + j)) ∧
  (∀ j m0 nx', nx = m0 :: nx' → 0 ≤ k' + j - Z.of_nat (length b) < Z.of_nat (length m0) →
     get p (k + j) = get m0 (k' + j - Z.of_nat (length b))).
Proof.
  unfold p. intros -> -> Hk'. rewrite concat_app. simpl. split.
  - intros j Hj Hb. rewrite (get_app_r _ _ _ (k' + j)) by lia. by apply get_app_l.
  - intros j m0 nx' -> Hj. rewrite (get_app_r _ _ _ (k' + j)) by lia.
    rewrite (get_app_r _ _ _ (k' + j - Z.of_nat (length b))) by lia. simpl.
    apply get_app_l. lia.
Qed.

Lemma concat_length pre b nx : m = pre ++ b :: nx →
  length p = (length (concat pre) + length b + length (concat nx))%nat.
Proof. unfold p. intros ->. rewrite concat_app. simpl. rewrite !length_app. lia. Qed.

Lemma in_two_inside k n : 0 ≤ k → in_two m k n = true → k + n ≤ len.
Proof.
  intros Hk. rewrite in_two_MINDEX. pose proof (MINDEX_spec m k Hk) as Hspec.
  destruct (MINDEX m k) as [[[b nx] k']|]; [|done]. destruct Hspec as (pre & Heq & Hke & Hk').
  pose proof (concat_length _ _ _ Heq). intros Hle%Z.leb_le. unfold len.
  destruct nx; simpl in *; rewrite ?length_app in *; lia.
Qed.

Lemma m_xbyte_spec k : 0 ≤ k →
  if k <? len then ∃ v, m_xbyte m k = Ok (v, 0) ∧ get p k = Ok v
  else ∃ v, m_xbyte m k = Ok (v, 1).
Proof using Hm.
  intros Hk. unfold m_xbyte. rewrite bool_decide_eq_false_2 by apply Hm.
  pose proof (MINDEX_spec m k Hk) as Hspec. destruct (MINDEX m k) as [[[b nx] k']|].
  - destruct Hspec as (pre & Heq & Hke & Hk'). pose proof (concat_length _ _ _ Heq).
    destruct (flat_split _ _ _ _ _ Heq Hke (proj1 Hk')) as [H0 _].
    rewrite (proj2 (Z.ltb_lt k len)) by (unfold len; lia).
    specialize (H0 0 ltac:(lia) ltac:(lia)). rewrite !Z.add_0_r in H0. rewrite H0.
    destruct (get_total b k' Hk') as (v & -> & _). by exists v.
  - rewrite (proj2 (Z.ltb_ge k len)) by done. by exists 0.
Qed.

Lemma m_xhalf_spec k : 0 ≤ k →
  if in_two m k 2 then ∃ v, m_xhalf m k = Ok (v, 0) ∧ EXTRACT_SHORT p k = Ok v
  else if next_empty m k then m_xhalf m k = Fault OutOfBounds
  else ∃ v, m_xhalf m k = Ok (v, 1).
Proof using Hm.
  intros Hk. unfold m_xhalf. rewrite bool_decide_eq_false_2 by apply Hm.
  rewrite in_two_MINDEX, next_empty_MINDEX. pose proof (MINDEX_spec m k Hk) as Hspec.
  destruct (MINDEX m k) as [[[b nx] k']|]; [|by exists 0].
  destruct Hspec as (pre & Heq & Hke & Hk').
  destruct (flat_split _ _ _ _ _ Heq Hke (proj1 Hk')) as [H0 H1].
  pose proof (H0 0 ltac:(lia) ltac:(lia)) as G0. rewrite !Z.add_0_r in G0.
  destruct (Z.leb_spec 2 (Z.of_nat (length b) - k')).
  - rewrite (proj2 (Z.leb_le _ _)) by lia. unfold EXTRACT_SHORT. rewrite G0, (H0 1) by lia.
    get_byte k'. get_byte (k' + 1). by eexists.
  - destruct nx as [|[|x m0] nx]; simpl.
    + rewrite (proj2 (Z.leb_gt _ _)), andb_false_r by lia. by exists 0.
    + rewrite (proj2 (Z.leb_gt _ _)), (proj2 (Z.eqb_eq _ _)) by lia. simpl.
      by get_byte k'.
    + rewrite (proj2 (Z.leb_le _ _)) by lia. unfold EXTRACT_SHORT.
      rewrite G0, (H1 1 (x :: m0) nx) by (done || simpl; lia). replace (k' + 1 - _) with 0 by lia.
      get_byte k'. by eexists.
Qed.

Lemma m_xword_spec k : 0 ≤ k →
  if in_two m k 4 then ∃ v, m_xword m k = Ok (v, 0) ∧ EXTRACT_LONG p k = Ok v
  else ∃ v, m_xword m k = Ok (v, 1).
Proof using Hm.
  intros Hk. unfold m_xword. rewrite bool_decide_eq_false_2 by apply Hm.
  rewrite in_two_MINDEX. pose proof (MINDEX_spec m k Hk) as Hspec.
  destruct (MINDEX m k) as [[[b nx] k']|]; [|by exists 0].
  destruct Hspec as (pre & Heq & Hke & Hk').
  destruct (flat_split _ _ _ _ _ Heq Hke (proj1 Hk')) as [H0 H1].
  pose proof (H0 0 ltac:(lia) ltac:(lia)) as G0. rewrite !Z.add_0_r in G0.
  destruct (Z.leb_spec 4 (Z.of_nat (length b) - k')).
  { rewrite (proj2 (Z.leb_le _ _)) by lia. unfold EXTRACT_LONG. rewrite G0, !H0 by lia.
    get_byte k'. get_byte (k' + 1). get_byte (k' + 2). get_byte (k' + 3). by eexists. }
  destruct nx as [|m0 nx]; simpl.
  { rewrite (proj2 (Z.leb_gt _ _)) by lia. by exists 0. }
  destruct (Z.ltb_spec (Z.of_nat (length b) - k' + Z.of_nat (length m0)) 4).
  { rewrite (proj2 (Z.leb_gt _ _)) by lia. by exists 0. }
  rewrite (proj2 (Z.leb_le _ _)) by lia. unfold EXTRACT_LONG.
  destruct (Z.eqb_spec (Z.of_nat (length b) - k') 1);
    [|destruct (Z.eqb_spec (Z.of_nat (length b) - k') 2)].
  - rewrite G0, !(H1 _ m0 nx) by (done || lia). replace (k' + 1 - _) with 0 by lia.
    replace (k' + 2 - _) with 1 by lia. replace (k' + 3 - _) with 2 by lia.
    get_byte k'. get_byte 0. get_byte 1. get_byte 2. by eexists.
  - rewrite G0, (H0 1), !(H1 _ m0 nx) by (done || lia).
    replace (k' + 2 - _) with 0 by lia. replace (k' + 3 - _) with 1 by lia.
    get_byte k'. get_byte (k' + 1). get_byte 0. get_byte 1. by eexists.
  - rewrite G0, (H0 1), (H0 2), (H1 3 m0 nx) by (done || lia).
    replace (k' + 3 - _) with 0 by lia.
    get_byte k'. get_byte (k' + 1). get_byte (k' + 2). get_byte 0. by eexists.
Qed.

(** ** Chains without short mbufs *)

(** What follows the mbuf [b]: nothing, or an mbuf that holds all that is
    left or at least three bytes. *)
Lemma next_long pre b m0 nx : chain_wf m → m = pre ++ b :: m0 :: nx →
  (1 ≤ length m0)%nat ∧ (nx = [] ∨ 3 ≤ length m0)%nat.
Proof.
  intros (_ & Htl & H3) Heq. split.
  - assert (m0 ∈ tail m) as Hin by (rewrite Heq; destruct pre; set_solver).
    rewrite Forall_forall in Htl. apply Htl in Hin. destruct m0; simpl; [done|lia].
  - destruct nx as [|m1 nx]; [by left|right].
    apply (H3 (pre ++ [b]) m0 m1 nx); [by rewrite Heq, <- app_assoc|by destruct pre].
Qed.

Lemma wf_in_two k n : chain_wf m → 0 ≤ k → 0 < n ≤ 4 → in_two m k n = (k + n <=? len).
Proof using Hm.
  intros Hwf Hk Hn. apply eq_true_iff_eq. rewrite Z.leb_le.
  split; [by apply in_two_inside|]. rewrite in_two_MINDEX.
  pose proof (MINDEX_spec m k Hk) as Hspec. fold p len in Hspec.
  destruct (MINDEX m k) as [[[b nx] k']|]; [|lia]. destruct Hspec as (pre & Heq & Hke & Hk').
  pose proof (concat_length _ _ _ Heq) as Hlen. intros H. apply Z.leb_le. unfold len in H.
  destruct nx as [|m0 nx]; simpl in *; [lia|]. rewrite length_app in Hlen.
  destruct (next_long _ _ _ _ Hwf Heq) as [_ [->|?]]; simpl in *; lia.
Qed.

Lemma wf_next_empty k : chain_wf m → 0 ≤ k → next_empty m k = false.
Proof using Hm.
  intros Hwf Hk. rewrite next_empty_MINDEX. pose proof (MINDEX_spec m k Hk) as Hspec.
  destruct (MINDEX m k) as [[[b nx] k']|]; [|done]. destruct Hspec as (pre & Heq & _ & _).
  destruct nx as [|[|x m0] nx]; [by rewrite andb_false_r| |by rewrite andb_false_r].
  destruct (next_long _ _ _ _ Hwf Heq) as [H _]. simpl in H. lia.
Qed.
End readers.

(** ** A filter on the two forms of a packet *)

Section flatten.
Context (m : list (list Z)) (Hm : chain_wf m) (Hne : concat m ≠ []).
Let p := concat m.
Let L := Z.of_nat (length p).

(** The same registers and memory over the chain and over the buffer. *)
Inductive same_vm : vm → vm → Prop :=
  | Same_vm pc A X wl mem :
      same_vm (VM pc A X (Args (Mbuf m) wl 0 mem)) (VM pc A X (Args (Flat p) wl L mem)).

Definition same_next (r r' : res next) : Prop :=
  match r, r' with
  | Ok (Continue s), Ok (Continue s') => same_vm s s'
  | Ok (Return v), Ok (Return v') => v = v'
  | Fault e, Fault e' => e = e'
  | _, _ => False
  end.

Lemma fetch_same wl mem0 fits fits' early flat chain k n :
  0 ≤ k → 0 < n → fits = false → fits' = negb (early || (L <? k + n)) →
  (k + n ≤ L → ∃ v, chain m k = Ok (v, 0) ∧ flat p k = Ok v) →
  (L < k + n → ∃ v, chain m k = Ok (v, 1)) →
  pkt_fetch (Args (Flat p) wl L mem0) fits' early flat chain k =
  pkt_fetch (Args (Mbuf m) wl 0 mem0) fits early flat chain k.
Proof.
  intros Hk Hn -> -> Hin Hout. unfold pkt_fetch. simpl.
  assert (L ≠ 0) by (unfold L, p; destruct (concat m); simpl; [done|lia]).
  destruct early; simpl; [done|]. destruct (Z.ltb_spec L (k + n)); simpl.
  - destruct (Hout ltac:(lia)) as [v ->]. by rewrite (proj2 (Z.eqb_neq _ _)).
  - destruct (Hin ltac:(lia)) as (v & -> & ->). done.
Qed.

Section load.
Context (wl : Z) (mem0 : list (option Z)) (g g' : option Z → next)
  (Hg : ∀ o, same_next (Ok (g o)) (Ok (g' o))).
Let chain_args := Args (Mbuf m) wl 0 mem0.
Let flat_args := Args (Flat p) wl L mem0.

Lemma same_word fits fits' early k :
  0 ≤ k → fits = false → fits' = negb (early || (L <? k + 4)) →
  same_next (g <$> pkt_fetch chain_args fits early EXTRACT_LONG m_xword k)
    (g' <$> pkt_fetch flat_args fits' early EXTRACT_LONG m_xword k).
Proof.
  intros Hk Hf Hf'. unfold chain_args, flat_args.
  pose proof (m_xword_spec m (proj1 Hm) k Hk) as Hspec. rewrite wf_in_two in Hspec by (done || apply Hm || lia).
  fold p L in Hspec. destruct (Z.leb_spec (k + 4) L);
    rewrite (fetch_same wl mem0 fits fits' early _ _ k 4) by (done || lia);
    (destruct (pkt_fetch _ _ _ _ _ _); [apply Hg|done]).
Qed.

Lemma same_half fits fits' early k :
  0 ≤ k → fits = false → fits' = negb (early || (L <? k + 2)) →
  same_next (g <$> pkt_fetch chain_args fits early EXTRACT_SHORT m_xhalf k)
    (g' <$> pkt_fetch flat_args fits' early EXTRACT_SHORT m_xhalf k).
Proof.
  intros Hk Hf Hf'. unfold chain_args, flat_args.
  pose proof (m_xhalf_spec m (proj1 Hm) k Hk) as Hspec.
  rewrite wf_in_two, wf_next_empty in Hspec by (done || apply Hm || lia).
  fold p L in Hspec. destruct (Z.leb_spec (k + 2) L);
    rewrite (fetch_same wl mem0 fits fits' early _ _ k 2) by (done || lia);
    (destruct (pkt_fetch _ _ _ _ _ _); [apply Hg|done]).
Qed.

Lemma same_byte fits fits' early k :
  0 ≤ k → fits = false → fits' = negb (early || (L <=? k)) →
  same_next (g <$> pkt_fetch chain_args fits early get m_xbyte k)
    (g' <$> pkt_fetch flat_args fits' early get m_xbyte k).
Proof.
  intros Hk Hf Hf'. unfold chain_args, flat_args.
  pose proof (m_xbyte_spec m (proj1 Hm) k Hk) as Hspec. fold p L in Hspec.
  destruct (Z.ltb_spec k L);
    rewrite (fetch_same wl mem0 fits fits' early _ _ k 1) by (done || lia);
    (destruct (pkt_fetch _ _ _ _ _ _); [apply Hg|done]).
Qed.
End load.

Lemma same_fmap (r : res Z) (g g' : Z → next) :
  (∀ v, same_next (Ok (g v)) (Ok (g' v))) → same_next (g <$> r) (g' <$> r).
Proof. intros Hg. destruct r; [apply Hg|done]. Qed.

Lemma same_write pc A X wl mem0 n v :
  same_next (mem_write (VM pc A X (Args (Mbuf m) wl 0 mem0)) n v)
    (mem_write (VM pc A X (Args (Flat p) wl L mem0)) n v).
Proof. unfold mem_write. simpl. destruct (put mem0 n (Some v)); constructor. Qed.

Lemma exec_same i s s' : insn_wf i → same_vm s s' →
  same_next (bpf_exec None i s) (bpf_exec None i s').
Proof.
  intros (_ & _ & _ & Hk & _) [pc A X wl mem0].
  pose proof (u32_bounds (X + k i)) as [Hx _].
  assert (HL : 0 ≤ L) by (unfold L; lia).
  assert (Hload : ∀ o, same_next (Ok (load_A (VM pc A X (Args (Mbuf m) wl 0 mem0)) o))
    (Ok (load_A (VM pc A X (Args (Flat p) wl L mem0)) o))) by (intros [a|]; constructor).
  unfold bpf_exec, first_case, bpf_exec_ret, bpf_exec_ld_abs, bpf_exec_ld_ind, bpf_exec_mem,
    bpf_exec_jmp, bpf_exec_alu_x, bpf_exec_alu_k, bpf_exec_misc. cbv zeta.
  cbn [BpfMachine.A BpfMachine.X args BpfMachine.pc buflen wirelen BpfMachine.mem].
  repeat case_bool; try done; try (apply same_word; [exact Hload|lia..]);
    try (apply same_half; [exact Hload|lia..]); try (apply same_byte; [exact Hload|lia..]);
    try (apply same_fmap; constructor); try apply same_write.
  apply (same_byte wl mem0
    (λ o, match o with Some b => set_X _ (Z.shiftl (b .& 0xf) 2) | None => Return 0 end)
    (λ o, match o with Some b => set_X _ (Z.shiftl (b .& 0xf) 2) | None => Return 0 end));
    [by intros [b|]; constructor|lia..].
Qed.

Lemma loop_same f fuel : Forall insn_wf f → ∀ s s', same_vm s s' →
  bpf_loop fuel None f s = bpf_loop fuel None f s'.
Proof.
  intros Hf. induction fuel as [|fuel IH]; intros s s' Hs; [done|]. simpl.
  assert (pc s = pc s') as <- by (by inversion Hs).
  destruct (get f (pc s)) as [i|e] eqn:Hi; [|done]. cbn [mbind res_bind].
  apply get_Ok in Hi as [_ Hi]. pose proof (exec_same i s s' (Forall_lookup_1 _ _ _ _ Hf Hi) Hs) as Hn.
  destruct (bpf_exec None i s) as [[t|v]|e], (bpf_exec None i s') as [[t'|v']|e'];
    simpl in Hn; try done; cbn [mbind res_bind]; [|by subst..].
  apply IH. destruct Hn. constructor.
Qed.
End flatten.

(** C3: what the three readers give at offset [k] of any chain of at least one
    mbuf.  When the word (halfword) lies in the mbuf that holds byte [k] and the
    next one, it is that of the flattened packet, with [*err] = 0; otherwise
    [*err] is set, or, for a halfword whose second byte would be in an empty
    next mbuf, the read is out of bounds.  A byte of the packet is always found.
    What is found lies inside the packet; and in a chain in which no mbuf after
    the first is empty and those between the first and the last hold three
    bytes at least, every word and halfword of the packet is found. *)
Theorem m_x_read_flat m k : m ≠ [] → 0 ≤ k →
  let p := concat m in
  let len := Z.of_nat (length p) in
  (if in_two m k 4 then ∃ v, m_xword m k = Ok (v, 0) ∧ EXTRACT_LONG p k = Ok v
   else ∃ v, m_xword m k = Ok (v, 1)) ∧
  (if in_two m k 2 then ∃ v, m_xhalf m k = Ok (v, 0) ∧ EXTRACT_SHORT p k = Ok v
   else if next_empty m k then m_xhalf m k = Fault OutOfBounds
   else ∃ v, m_xhalf m k = Ok (v, 1)) ∧
  (if k <? len then ∃ v, m_xbyte m k = Ok (v, 0) ∧ get p k = Ok v
   else ∃ v, m_xbyte m k = Ok (v, 1)) ∧
  (∀ n, in_two m k n = true → k + n ≤ len) ∧
  (chain_wf m → in_two m k 4 = (k + 4 <=? len) ∧ in_two m k 2 = (k + 2 <=? len) ∧
     next_empty m k = false).
Proof.
  intros Hm Hk p len. split; [by apply m_xword_spec|]. split; [by apply m_xhalf_spec|].
  split; [by apply m_xbyte_spec|]. split; [intros n; by apply in_two_inside|].
  intros Hwf. split_and!; [by apply wf_in_two|by apply wf_in_two|by apply wf_next_empty].
Qed.

(** C4: a filter without a coprocessor gives on an mbuf chain ([buflen] 0)
    exactly what it gives on the same packet in one buffer, when the packet is
    not empty, no mbuf after the first is empty and those between the first and
    the last hold three bytes at least.  [m_xword_three_mbufs] and
    [m_xhalf_empty_mbuf] below are why the last two are needed. *)
Theorem bpf_filter_mbuf_flat f m wl mem0 :
  chain_wf m → concat m ≠ [] → Forall insn_wf f →
  bpf_filter_ext None (Some f) (Args (Mbuf m) wl 0 mem0) =
  bpf_filter_ext None (Some f) (Args (Flat (concat m)) wl (Z.of_nat (length (concat m))) mem0).
Proof. intros Hm Hne Hf. apply (loop_same m Hm Hne); [done|]. constructor. Qed.

Lemma sample_chain_wf : chain_wf sample_chain.
Proof.
  split; [done|]. split; [by_decide|]. intros pre b b' post Heq Hpre.
  destruct pre as [|c pre]; [done|]. unfold sample_chain in Heq. simpl in Heq.
  injection Heq as _ Heq. destruct pre as [|c' pre]; simpl in Heq.
  - injection Heq as <- _. simpl. lia.
  - injection Heq as _ Heq. destruct pre as [|? [|? ?]]; discriminate.
Qed.

Lemma m_x_read_flat_witness :
  in_two sample_chain 11 4 = true ∧
  ∃ v, m_xword sample_chain 11 = Ok (v, 0) ∧ EXTRACT_LONG (concat sample_chain) 11 = Ok v.
Proof.
  split; [reflexivity|]. apply (m_x_read_flat sample_chain 11); [discriminate|lia].
Defined.

Lemma bpf_filter_mbuf_flat_witness :
  bpf_filter_ext None (Some sample_filter) sample_args =
  bpf_filter_ext None (Some sample_filter)
    (Args (Flat (concat sample_chain)) 17 17 (replicate 16 None)).
Proof.
  apply (bpf_filter_mbuf_flat sample_filter sample_chain 17 (replicate 16 None) sample_chain_wf);
    [discriminate|by_decide].
Defined.

(** ** Where the checks fall short *)

(** A constant shift by 32 passes the checker. *)
Example wide_shift_accepted :
  let f := [BPF_STMT (BPF_LD .| BPF_IMM) 1; BPF_STMT (BPF_ALU .| BPF_LSH .| BPF_K) 32;
            BPF_STMT (BPF_RET .| BPF_A) 0] in
  bpf_validate f 3 = Ok 1 ∧ bpf_filter (Some f) (Flat [0]) 1 1 = Fault ShiftRange.
Proof. split; vm_compute; reflexivity. Qed.

(** [m_xword] looks at one mbuf after that of the first byte: a word over three
    mbufs is an error although its bytes are there. *)
Example m_xword_three_mbufs :
  m_xword [[1]; [2]; [3; 4]] 0 = Ok (0, 1) ∧ EXTRACT_LONG [1; 2; 3; 4] 0 = Ok 0x01020304 ∧
  let f := [BPF_STMT (BPF_LD .| BPF_W .| BPF_ABS) 0; BPF_STMT (BPF_RET .| BPF_K) 1] in
  bpf_filter (Some f) (Mbuf [[1]; [2]; [3; 4]]) 4 0 = Ok 0 ∧
  bpf_filter (Some f) (Flat [1; 2; 3; 4]) 4 4 = Ok 1.
Proof. cbv zeta. split_and!; vm_compute; reflexivity. Qed.

(** [m_xhalf] does not look at the length of the mbuf it takes the second byte
    from: when that mbuf is empty it reads outside it. *)
Example m_xhalf_empty_mbuf : m_xhalf [[1]; []; [2]] 0 = Fault OutOfBounds.
Proof. reflexivity. Qed.
