(* ===== verification/Lockf.v ===== *)
(** * Advisory byte-range locks (kern/vfs_lockf.c)

    A [struct lockf] is a record; the list that [lf_head] points at is the list
    of its records in the order of [lf_next].  [lf_ptr] is the address of the
    structure: a pending request is reached through the queue [lf_blkhd] of the
    lock it waits for, so requests live in a store indexed by address. *)

From S2P Require Export Prelude.

Inductive ltype := F_RDLCK | F_UNLCK | F_WRLCK.
#[export] Instance ltype_eq_dec : EqDecision ltype.
Proof. solve_decision. Defined.

Record lockf := Lockf {
  lf_ptr : nat;
  lf_posix : bool; lf_flock : bool; lf_wait : bool;   (** the bits of [lf_flags] *)
  lf_type : ltype;
  lf_start : Z;
  lf_end : Z;             (** -1 is the end of the file *)
  lf_id : Z;              (** process or file description *)
  lf_blkhd : list nat;    (** requests blocked on this lock *)
  lf_uid : Z;
}.
#[export] Instance lockf_eq_dec : EqDecision lockf.
Proof. solve_decision. Defined.

Definition set_range (l : lockf) (s e : Z) : lockf :=
  Lockf (lf_ptr l) (lf_posix l) (lf_flock l) (lf_wait l) (lf_type l) s e (lf_id l)
    (lf_blkhd l) (lf_uid l).
Definition set_start (l : lockf) (s : Z) : lockf := set_range l s (lf_end l).
Definition set_end (l : lockf) (e : Z) : lockf := set_range l (lf_start l) e.
Definition set_type (l : lockf) (t : ltype) : lockf :=
  Lockf (lf_ptr l) (lf_posix l) (lf_flock l) (lf_wait l) t (lf_start l) (lf_end l) (lf_id l)
    (lf_blkhd l) (lf_uid l).
Definition set_blkhd (l : lockf) (q : list nat) : lockf :=
  Lockf (lf_ptr l) (lf_posix l) (lf_flock l) (lf_wait l) (lf_type l) (lf_start l) (lf_end l)
    (lf_id l) q (lf_uid l).
Definition set_ptr (l : lockf) (p : nat) : lockf :=
  Lockf p (lf_posix l) (lf_flock l) (lf_wait l) (lf_type l) (lf_start l) (lf_end l) (lf_id l)
    (lf_blkhd l) (lf_uid l).

Definition MAXDEPTH : nat := 50.
Definition maxlockdepth : nat := MAXDEPTH.
Definition maxlocksperuid : Z := 1024.

(** A pending request: [lf_next] is the lock it is queued on, null when it was
    woken; [w_asleep] says that its thread is still in [cv_wait_sig]. *)
Record waiter := Waiter {
  w_lock : lockf;
  w_file : Z;
  w_proc : Z;
  w_spare : option lockf;
  w_next : option nat;
  w_asleep : bool;
}.

(** What the operations share: the requests, [ui_lockcnt] for each user, and
    the next free address. *)
Record kst := Kst {
  waiters : gmap nat waiter;
  lockcnt : gmap Z Z;
  nextptr : nat;
}.

Definition cnt (st : kst) (uid : Z) : Z := default 0 (lockcnt st !! uid).
Definition add_cnt (st : kst) (uid d : Z) : kst :=
  Kst (waiters st) (<[uid := cnt st uid + d]> (lockcnt st)) (nextptr st).
Definition set_waiter (st : kst) (p : nat) (w : waiter) : kst :=
  Kst (<[p := w]> (waiters st)) (lockcnt st) (nextptr st).

(** ** Allocation, with the limit per user *)

Definition lf_alloc (allowfail uid : Z) (st : kst) : option lockf * kst :=
  let st1 := add_cnt st uid 1 in
  let lcnt := cnt st1 uid in
  if negb (uid =? 0) && negb (allowfail =? 0) &&
     ((if allowfail =? 1 then maxlocksperuid else maxlocksperuid * 2) <? lcnt)
  then (None, add_cnt st1 uid (-1))
  else (Some (Lockf (nextptr st1) false false false F_UNLCK 0 0 0 [] uid),
        Kst (waiters st1) (lockcnt st1) (S (nextptr st1))).

Definition lf_free (l : lockf) (st : kst) : kst := add_cnt st (lf_uid l) (-1).

(** ** Overlap *)

Inductive who := SELF | OTHERS.

(** The case number, the locks skipped and the list from [*overlap] on; [prev]
    is the link between the two.  Case 0 leaves the rest where a new lock of
    the caller belongs. *)
Fixpoint lf_findoverlap (lf : list lockf) (lock : lockf) (type : who)
    : res (Z * list lockf * list lockf) :=
  match lf with
  | [] => mret (0, [], [])
  | l :: lf' =>
      let next := '(c, skipped, rest) ← lf_findoverlap lf' lock type;
                  mret (c, l :: skipped, rest) in
      let start := lf_start lock in
      let end_ := lf_end lock in
      if match type with SELF => negb (lf_id l =? lf_id lock)
                       | OTHERS => lf_id l =? lf_id lock end
      then next
      else if (negb (lf_end l =? -1) && (lf_end l <? start)) ||
              (negb (end_ =? -1) && (end_ <? lf_start l)) then
        if match type with SELF => true | OTHERS => false end &&
           negb (end_ =? -1) && (end_ <? lf_start l)
        then mret (0, [], lf)
        else next
      else if (lf_start l =? start) && (lf_end l =? end_) then mret (1, [], lf)
      else if (lf_start l <=? start) && negb (end_ =? -1) &&
              ((end_ <=? lf_end l) || (lf_end l =? -1)) then mret (2, [], lf)
      else if (start <=? lf_start l) &&
              ((end_ =? -1) || (negb (lf_end l =? -1) && (lf_end l <=? end_)))
      then mret (3, [], lf)
      else if (lf_start l <? start) && ((start <=? lf_end l) || (lf_end l =? -1))
      then mret (4, [], lf)
      else if (start <? lf_start l) && negb (end_ =? -1) &&
              ((end_ <? lf_end l) || (lf_end l =? -1)) then mret (5, [], lf)
      else Fault Panic
  end.

(** ** Splitting

    Offsets are [off_t], 64 bits; the byte after a range and the byte before it
    are computed at that width.  [tl] is what follows [lock1].  The result is [lock1] after the call, the
    list its [lf_next] then points at, the list [lock2]'s [lf_next] points at,
    and the spare lock. *)
Definition lf_split (lock1 lock2 : lockf) (tl : list lockf) (sparelock : option lockf)
    : res (lockf * list lockf * list lockf * option lockf) :=
  if lf_start lock1 =? lf_start lock2 then
    let lock1 := set_start lock1 (s64 (lf_end lock2 + 1)) in
    mret (lock1, tl, lock1 :: tl, sparelock)
  else if lf_end lock1 =? lf_end lock2 then
    mret (set_end lock1 (s64 (lf_start lock2 - 1)), lock2 :: tl, tl, sparelock)
  else
    match sparelock with
    | None => Fault NullDeref
    | Some spare =>
        let splitlock :=
          set_blkhd (set_start (set_ptr lock1 (lf_ptr spare)) (s64 (lf_end lock2 + 1))) [] in
        mret (set_end lock1 (s64 (lf_start lock2 - 1)), lock2 :: splitlock :: tl,
              splitlock :: tl, None)
    end.

(** ** Waking the requests queued on a lock *)

Fixpoint wake_all (q : list nat) (head : nat) (st : kst) : res kst :=
  match q with
  | [] => mret st
  | p :: q =>
      match waiters st !! p with
      | None => Fault UseAfterFree
      | Some w =>
          if bool_decide (w_next w = Some head) then
            wake_all q head (set_waiter st p
              (Waiter (w_lock w) (w_file w) (w_proc w) (w_spare w) None false))
          else Fault Panic (* KASSERT(wakelock->lf_next == listhead) *)
      end
  end.

Definition lf_wakelock (listhead : lockf) (st : kst) : res (lockf * kst) :=
  st ← wake_all (lf_blkhd listhead) (lf_ptr listhead) st;
  mret (set_blkhd listhead [], st).

(** Moving the queue of [overlap] to the end of the queue of [lock]. *)
Fixpoint move_all (q : list nat) (from to : nat) (st : kst) : res kst :=
  match q with
  | [] => mret st
  | p :: q =>
      match waiters st !! p with
      | None => Fault UseAfterFree
      | Some w =>
          if bool_decide (w_next w = Some from) then
            move_all q from to (set_waiter st p
              (Waiter (w_lock w) (w_file w) (w_proc w) (w_spare w) (Some to) (w_asleep w)))
          else Fault Panic (* KASSERT(ltmp->lf_next == overlap) *)
      end
  end.

(** ** Removing a range

    [lf] is the list from [*prev] on; the result replaces it. *)
Fixpoint lf_clearlock (fuel : nat) (lf : list lockf) (unlock : lockf)
    (sparelock : option lockf) (st : kst) : res (list lockf * option lockf * kst) :=
  match fuel with
  | O => Fault NoFuel
  | S fuel =>
      '(ovcase, skipped, rest) ← lf_findoverlap lf unlock SELF;
      if ovcase =? 0 then mret (lf, sparelock, st) else
      match rest with
      | [] => Fault NullDeref
      | overlap :: tl =>
          '(overlap, st) ← lf_wakelock overlap st;
          if ovcase =? 1 then
            mret (skipped ++ tl, sparelock, lf_free overlap st)
          else if ovcase =? 2 then
            if lf_start overlap =? lf_start unlock then
              mret (skipped ++ set_start overlap (s64 (lf_end unlock + 1)) :: tl, sparelock, st)
            else
              '(overlap, _, next2, sparelock) ← lf_split overlap unlock tl sparelock;
              mret (skipped ++ overlap :: next2, sparelock, st)
          else if ovcase =? 3 then
            '(tl, sparelock, st) ← lf_clearlock fuel tl unlock sparelock (lf_free overlap st);
            mret (skipped ++ tl, sparelock, st)
          else if ovcase =? 4 then
            '(tl, sparelock, st) ← lf_clearlock fuel tl unlock sparelock st;
            mret (skipped ++ set_end overlap (s64 (lf_start unlock - 1)) :: tl, sparelock, st)
          else if ovcase =? 5 then
            mret (skipped ++ set_start overlap (s64 (lf_end unlock + 1)) :: tl, sparelock, st)
          else mret (skipped ++ overlap :: tl, sparelock, st)
      end
  end.

(** ** The first lock that blocks a request *)
Fixpoint lf_getblock (fuel : nat) (lf : list lockf) (lock : lockf) : res (option lockf) :=
  match fuel with
  | O => Fault NoFuel
  | S fuel =>
      '(ovcase, _, rest) ← lf_findoverlap lf lock OTHERS;
      if ovcase =? 0 then mret None else
      match rest with
      | [] => Fault NullDeref
      | overlap :: tl =>
          if bool_decide (lf_type lock = F_WRLCK) || bool_decide (lf_type overlap = F_WRLCK)
          then mret (Some overlap)
          else lf_getblock fuel tl lock
      end
  end.

(** ** Adding a lock that nothing blocks

    [lf] is the list from [*prev] on.  The result is the list that replaces
    it, the contents of [lock] at the end (it collects the queues of the locks
    it replaces), the spare lock and the store.  [lock] is in the result list
    when [needtolink] holds and it was linked there; when it was linked before
    ([needtolink] false) the caller puts its contents in place. *)
Definition downgrade (lock overlap : lockf) : bool :=
  bool_decide (lf_type lock = F_RDLCK) && bool_decide (lf_type overlap = F_WRLCK).

Fixpoint lf_addlock (fuel : nat) (needtolink : bool) (lf : list lockf) (lock : lockf)
    (sparelock : option lockf) (st : kst)
    : res (list lockf * lockf * option lockf * kst) :=
  match fuel with
  | O => Fault NoFuel
  | S fuel =>
      '(ovcase, skipped, rest) ← lf_findoverlap lf lock SELF;
      if ovcase =? 0 then
        mret (skipped ++ (if needtolink then lock :: rest else rest), lock, sparelock, st)
      else
      match rest with
      | [] => Fault NullDeref
      | overlap :: tl =>
          if ovcase =? 1 then
            if negb needtolink then Fault UseAfterFree else
            '(overlap, st) ← (if downgrade lock overlap then lf_wakelock overlap st
                              else mret (overlap, st));
            let overlap := set_type overlap (lf_type lock) in
            mret (skipped ++ overlap :: tl, overlap, sparelock, lf_free lock st)
          else if ovcase =? 2 then
            if negb needtolink then Fault Corrupt else
            if bool_decide (lf_type overlap = lf_type lock) then
              mret (lf, overlap, sparelock, lf_free lock st)
            else if lf_start overlap =? lf_start lock then
              '(overlap, st) ← lf_wakelock (set_start overlap (s64 (lf_end lock + 1))) st;
              mret (skipped ++ lock :: overlap :: tl, lock, sparelock, st)
            else
              '(overlap, next1, _, sparelock) ← lf_split overlap lock tl sparelock;
              '(overlap, st) ← lf_wakelock overlap st;
              mret (skipped ++ overlap :: next1, lock, sparelock, st)
          else if ovcase =? 3 then
            '(lock, overlap, st) ←
              (if downgrade lock overlap then
                 '(overlap, st) ← lf_wakelock overlap st; mret (lock, overlap, st)
               else
                 st ← move_all (lf_blkhd overlap) (lf_ptr overlap) (lf_ptr lock) st;
                 mret (set_blkhd lock (lf_blkhd lock ++ lf_blkhd overlap),
                       set_blkhd overlap [], st));
            '(tl, lock, sparelock, st) ←
              lf_addlock fuel false tl lock sparelock (lf_free overlap st);
            mret (skipped ++ (if needtolink then lock :: tl else tl), lock, sparelock, st)
          else if ovcase =? 4 then
            if negb needtolink then Fault Corrupt else
            '(overlap, st) ← lf_wakelock (set_end overlap (s64 (lf_start lock - 1))) st;
            '(tl, lock, sparelock, st) ← lf_addlock fuel false tl lock sparelock st;
            mret (skipped ++ overlap :: lock :: tl, lock, sparelock, st)
          else if ovcase =? 5 then
            '(overlap, st) ← lf_wakelock (set_start overlap (s64 (lf_end lock + 1))) st;
            mret (skipped ++ (if needtolink then lock :: overlap :: tl else overlap :: tl),
                  lock, sparelock, st)
          else Fault Corrupt
      end
  end.

Definition EAGAIN : Z := 35.
Definition EDEADLK : Z := 11.
Definition EINVAL : Z := 22.
Definition ENOMEM : Z := 12.

(** ** Deadlock detection

    [nlwps p] is the number of threads of process [p].  The request that the
    only thread of [p] sleeps on, if it sleeps in this module. *)
Definition waits_on (st : kst) (p : Z) : option waiter :=
  snd <$> head (filter (λ e : nat * waiter, w_proc e.2 = p ∧ w_asleep e.2 = true)
                  (map_to_list (waiters st))).

(** The lock at an address, in any of the lists. *)
Definition find_lock (all : list lockf) (p : nat) : option lockf :=
  find (λ l, bool_decide (lf_ptr l = p)) all.

(** [true] when the request must fail with [EDEADLK].  [i] turns of the loop
    are left; [p] owns the lock at the end of the chain followed so far.  The
    loop ends in its last turn, or without a turn left, with [i >= maxlockdepth]. *)
Fixpoint deadlock (i : nat) (nlwps : Z → Z) (all : list lockf) (st : kst)
    (curproc p : Z) : res bool :=
  match i with
  | O => mret true
  | S i =>
      let break := mret (bool_decide (i = O)) in
      if 1 <? nlwps p then break
      else
        match waits_on st p with
        | None => break
        | Some w =>
            match w_next w with
            | None => Fault NullDeref
            | Some b =>
                match find_lock all b with
                | None => Fault UseAfterFree
                | Some waitblock =>
                    if negb (lf_posix waitblock) then break
                    else if lf_id waitblock =? curproc then mret true
                    else deadlock i nlwps all st curproc (lf_id waitblock)
                end
            end
        end
  end.

(** ** Setting a lock *)

(** The locks of all files, and what the operations share. *)
Record sys := Sys { files : gmap Z (list lockf); kern : kst }.

Definition file_locks (s : sys) (f : Z) : list lockf := default [] (files s !! f).
Definition all_locks (s : sys) : list lockf := concat (snd <$> map_to_list (files s)).
Definition set_file (s : sys) (f : Z) (l : list lockf) (st : kst) : sys :=
  Sys (<[f := l]> (files s)) st.

(** [lf_setlock] either finishes with an error code, leaving the spare lock for
    its caller to free, or sleeps as a pending request. *)
Inductive outcome :=
  | Done (error : Z) (sparelock : option lockf) (s : sys)
  | Sleep (s : sys).

(** [TAILQ_INSERT_TAIL(&block->lf_blkhd, lock)] *)
Definition enqueue (l : list lockf) (block p : nat) : list lockf :=
  (λ b, if bool_decide (lf_ptr b = block) then set_blkhd b (lf_blkhd b ++ [p]) else b) <$> l.
(** [TAILQ_REMOVE(&lock->lf_next->lf_blkhd, lock)] *)
Definition dequeue (l : list lockf) (block p : nat) : list lockf :=
  (λ b, if bool_decide (lf_ptr b = block)
        then set_blkhd b (filter (λ q, q ≠ p) (lf_blkhd b)) else b) <$> l.

(** From the head of the [while] loop to the next sleep or the end. *)
Definition lf_setlock (nlwps : Z → Z) (s : sys) (f curproc : Z) (lock : lockf)
    (sparelock : option lockf) : res outcome :=
  let l := file_locks s f in
  let st := kern s in
  block ← lf_getblock (S (length l)) l lock;
  match block with
  | None =>
      '(l', _, sparelock, st) ← lf_addlock (S (length l)) true l lock sparelock st;
      mret (Done 0 sparelock (set_file s f l' st))
  | Some block =>
      if negb (lf_wait lock) then mret (Done EAGAIN sparelock (Sys (files s) (lf_free lock st)))
      else
        dead ← (if lf_posix lock && lf_posix block
                then deadlock maxlockdepth nlwps (all_locks s) st curproc (lf_id block)
                else mret false);
        if dead : bool then mret (Done EDEADLK sparelock (Sys (files s) (lf_free lock st)))
        else
          '(l, st) ←
            (if lf_flock lock && bool_decide (lf_type lock = F_WRLCK) then
               '(l, _, st) ← lf_clearlock (S (length l)) l (set_type lock F_UNLCK) None st;
               mret (l, st)
             else mret (l, st));
          mret (Sleep (set_file s f (enqueue l (lf_ptr block) (lf_ptr lock))
            (set_waiter st (lf_ptr lock)
              (Waiter lock f curproc sparelock (Some (lf_ptr block)) true))))
  end.

(** After [cv_wait_sig] returned [error] to the request at [p]. *)
Definition lf_setlock_woken (nlwps : Z → Z) (s : sys) (p : nat) (error : Z) : res outcome :=
  match waiters (kern s) !! p with
  | None => Fault UseAfterFree
  | Some w =>
      let l := file_locks s (w_file w) in
      let l := match w_next w with Some b => dequeue l b p | None => l end in
      let st := kern s in
      let s := set_file s (w_file w) l (Kst (delete p (waiters st)) (lockcnt st) (nextptr st)) in
      if negb (error =? 0)
      then mret (Done error (w_spare w) (Sys (files s) (lf_free (w_lock w) (kern s))))
      else lf_setlock nlwps s (w_file w) (w_proc w) (w_lock w) (w_spare w)
  end.

(** ** The entry point *)

(** [struct flock]; [l_whence] is a plain integer. *)
Record flock := Flock {
  l_start : Z; l_len : Z; l_pid : Z; l_type : ltype; l_whence : Z }.
Definition SEEK_SET : Z := 0.
Definition SEEK_CUR : Z := 1.
Definition SEEK_END : Z := 2.

Definition fl_unlocked (fl : flock) : flock :=
  Flock (l_start fl) (l_len fl) (l_pid fl) F_UNLCK (l_whence fl).

(** [pid id] is the [p_pid] of the process at [id]. *)
Definition lf_getlock (pid : Z → Z) (l : list lockf) (lock : lockf) (fl : flock) : res flock :=
  block ← lf_getblock (S (length l)) l lock;
  mret match block with
       | Some b =>
           Flock (lf_start b) (if lf_end b =? -1 then 0 else s64 (lf_end b - lf_start b + 1))
             (if lf_posix b then pid (lf_id b) else -1) (lf_type b) SEEK_SET
       | None => fl_unlocked fl
       end.

(** [struct vop_advlock_args], with the credential of the caller. *)
Record advlock_args := Advlock {
  a_id : Z; a_op : Z; a_fl : flock;
  a_posix : bool; a_flock : bool; a_wait : bool;   (** the bits of [a_flags] *)
  a_uid : Z;
}.
Definition OP_UNLCK : Z := 2.
Definition OP_GETLK : Z := 7.
Definition OP_SETLK : Z := 8.

(** The range of the request; off_t arithmetic wraps at 64 bits. *)
Definition flock_range (fl : flock) (size : Z) : option (Z * Z) :=
  start ← (if (l_whence fl =? SEEK_SET) || (l_whence fl =? SEEK_CUR) then Some (l_start fl)
           else if l_whence fl =? SEEK_END then Some (s64 (size + l_start fl))
           else None);
  let '(start, end_) :=
    if l_len fl =? 0 then (start, -1)
    else if 0 <? l_len fl then (start, s64 (start + l_len fl - 1))
    else (s64 (start + l_len fl), s64 (start - 1)) in
  if start <? 0 then None else Some (start, end_).

Inductive advlock_outcome :=
  | AdvDone (error : Z) (fl : flock) (s : sys)
  | AdvSleep (s : sys).

Definition free_opt (l : option lockf) (st : kst) : kst :=
  match l with Some l => lf_free l st | None => st end.

(** What follows [lf_setlock] in its caller: the spare lock is freed. *)
Definition setlock_done (fl : flock) (o : outcome) : advlock_outcome :=
  match o with
  | Done error spare s => AdvDone error fl (Sys (files s) (free_opt spare (kern s)))
  | Sleep s => AdvSleep s
  end.

Definition lf_advlock (nlwps pid : Z → Z) (s : sys) (f curproc : Z) (ap : advlock_args)
    (size : Z) : res advlock_outcome :=
  let fl := a_fl ap in
  match flock_range fl size with
  | None => mret (AdvDone EINVAL fl s)
  | Some (start, end_) =>
      if negb ((a_op ap =? OP_SETLK) || (a_op ap =? OP_UNLCK) || (a_op ap =? OP_GETLK))
      then mret (AdvDone EINVAL fl s)
      else
        let st := kern s in
        let '(sparelock, st) :=
          if ((a_op ap =? OP_SETLK) || (a_op ap =? OP_UNLCK)) && negb (a_flock ap)
          then lf_alloc 0 (a_uid ap) st else (None, st) in
        let '(lock, st) :=
          if a_op ap =? OP_SETLK then lf_alloc 1 (a_uid ap) st
          else if a_op ap =? OP_UNLCK then
            lf_alloc (if (start =? 0) || (end_ =? -1) then 0 else 2) (a_uid ap) st
          else lf_alloc 0 (a_uid ap) st in
        match lock with
        | None => mret (AdvDone ENOMEM fl (Sys (files s) (free_opt sparelock st)))
        | Some lock =>
            let l := file_locks s f in
            if bool_decide (l = []) && negb (a_op ap =? OP_SETLK) then
              mret (AdvDone 0 (fl_unlocked fl)
                (Sys (files s) (free_opt sparelock (lf_free lock st))))
            else if a_posix ap && negb (a_id ap =? curproc) then Fault Panic
            else
              let lock := Lockf (lf_ptr lock) (a_posix ap) (a_flock ap) (a_wait ap) (l_type fl)
                            start end_ (a_id ap) [] (lf_uid lock) in
              if a_op ap =? OP_SETLK then
                setlock_done fl <$>
                  lf_setlock nlwps (Sys (files s) st) f curproc lock sparelock
              else if a_op ap =? OP_UNLCK then
                '(l, sparelock, st) ← lf_clearlock (S (length l)) l lock sparelock st;
                mret (AdvDone 0 fl (set_file s f l (free_opt sparelock (lf_free lock st))))
              else
                fl ← lf_getlock pid l lock fl;
                mret (AdvDone 0 fl (Sys (files s) (free_opt sparelock (lf_free lock st))))
        end
  end.

Definition lf_init : sys := Sys ∅ (Kst ∅ ∅ 0).
