(* ===== verification/LockfSpec.v ===== *)
(** * The lock list as a map from owners and bytes to lock types

    Abstractly a file has, for each owner and each byte, a lock type or none.
    This file proves that [lf_clearlock] and [lf_addlock] implement the update
    of that map, and that the list keeps its invariant: the locks of one owner
    are in order and do not overlap.  Ranges end before the last offset of
    [off_t], so that the byte after each can be computed ([valid_range]).  What they do to the queues of blocked
    requests is proved in LockfAdd.v, by the invariant [linked]. *)

From S2P Require Export Lockf.

(** ** Ranges *)

Definition in_range (l : lockf) (b : Z) : Prop :=
  lf_start l ≤ b ∧ (lf_end l = -1 ∨ b ≤ lf_end l).
#[export] Instance in_range_dec l b : Decision (in_range l b).
Proof. unfold in_range. apply _. Defined.

(** The offsets are representable and the byte after the end is too. *)
Definition off_t (z : Z) : Prop := - 2 ^ 63 ≤ z < 2 ^ 63.
#[export] Instance off_t_dec z : Decision (off_t z).
Proof. unfold off_t. apply _. Defined.
Lemma s64_id z : off_t z → s64 z = z.
Proof. unfold off_t, s64. intros. rewrite Z.mod_small; lia. Qed.
Lemma s64_off_t z : off_t (s64 z).
Proof. unfold off_t, s64. pose proof (Z.mod_pos_bound (z + 2 ^ 63) (2 ^ 64)). lia. Qed.

Definition valid_range (l : lockf) : Prop :=
  0 ≤ lf_start l < 2 ^ 63 ∧ (lf_end l = -1 ∨ lf_start l ≤ lf_end l < 2 ^ 63 - 1).
#[export] Instance valid_range_dec l : Decision (valid_range l).
Proof. unfold valid_range. apply _. Defined.

Lemma s64_end u : valid_range u → s64 (lf_end u + 1) = lf_end u + 1.
Proof. intros Hu. apply s64_id. unfold valid_range, off_t in *. lia. Qed.
Lemma s64_start u : valid_range u → s64 (lf_start u - 1) = lf_start u - 1.
Proof. intros Hu. apply s64_id. unfold valid_range, off_t in *. lia. Qed.

(** [k] ends before [l] starts. *)
Definition ends_before (k l : lockf) : Prop := lf_end k ≠ -1 ∧ lf_end k < lf_start l.
#[export] Instance ends_before_dec k l : Decision (ends_before k l).
Proof. unfold ends_before. apply _. Defined.

(** The order of the list constrains the locks of one owner only. *)
Definition before (k l : lockf) : Prop := lf_id k = lf_id l → ends_before k l.
#[export] Instance before_dec k l : Decision (before k l).
Proof. unfold before. apply _. Defined.

Definition list_wf (l : list lockf) : Prop := Forall valid_range l ∧ StronglySorted before l.

(** The abstract state: the type of the lock that [id] has on byte [b]. *)
Definition held (l : list lockf) (id b : Z) : option ltype :=
  lf_type <$> find (λ k, bool_decide (lf_id k = id ∧ in_range k b)) l.

Definition holds (l : list lockf) (id b : Z) (t : ltype) : Prop :=
  ∃ k, k ∈ l ∧ lf_id k = id ∧ in_range k b ∧ lf_type k = t.

Lemma StronglySorted_app {A} (R : A → A → Prop) (l1 l2 : list A) :
  StronglySorted R (l1 ++ l2) ↔
  StronglySorted R l1 ∧ StronglySorted R l2 ∧ ∀ x y, x ∈ l1 → y ∈ l2 → R x y.
Proof.
  induction l1 as [|a l1 IH]; simpl.
  - split; [intros ?; split_and!; [constructor|done|set_solver]|by intros (_ & ? & _)].
  - split.
    + inversion 1 as [|? ? Hs Hf]; subst. apply IH in Hs as (? & ? & Hx).
      rewrite Forall_app, !Forall_forall in Hf. destruct Hf as [Hf1 Hf2].
      split_and!; [constructor; [done|by apply Forall_forall]|done|].
      intros x y [->|?]%elem_of_cons ?; auto.
    + intros (Hs1 & Hs2 & Hx). inversion Hs1 as [|? ? Hs Hf]; subst. constructor.
      * apply IH. split_and!; [done..|]. intros x y ??. apply Hx; set_solver.
      * apply Forall_app. split; [done|]. apply Forall_forall. intros y ?. apply Hx; set_solver.
Qed.

Lemma StronglySorted_cons {A} (R : A → A → Prop) a (l : list A) :
  StronglySorted R (a :: l) ↔ StronglySorted R l ∧ ∀ y, y ∈ l → R a y.
Proof.
  split; [inversion 1; subst; split; [done|by apply Forall_forall]|].
  intros [??]. constructor; [done|by apply Forall_forall].
Qed.

Lemma list_wf_app l1 l2 : list_wf (l1 ++ l2) ↔
  list_wf l1 ∧ list_wf l2 ∧ ∀ x y, x ∈ l1 → y ∈ l2 → before x y.
Proof. unfold list_wf. rewrite Forall_app, StronglySorted_app. tauto. Qed.
Lemma list_wf_cons k l : list_wf (k :: l) ↔
  valid_range k ∧ list_wf l ∧ ∀ y, y ∈ l → before k y.
Proof. unfold list_wf. rewrite Forall_cons, StronglySorted_cons. tauto. Qed.
Lemma list_wf_nil : list_wf [].
Proof. split; constructor. Qed.
#[export] Hint Resolve list_wf_nil : kern.

Lemma holds_app l1 l2 id b t : holds (l1 ++ l2) id b t ↔ holds l1 id b t ∨ holds l2 id b t.
Proof. unfold holds. setoid_rewrite elem_of_app. naive_solver. Qed.
Lemma holds_cons k l id b t : holds (k :: l) id b t ↔
  (lf_id k = id ∧ in_range k b ∧ lf_type k = t) ∨ holds l id b t.
Proof. unfold holds. setoid_rewrite elem_of_cons. naive_solver. Qed.
Lemma holds_nil id b t : holds [] id b t ↔ False.
Proof. unfold holds. set_solver. Qed.

(** On a well-formed list the two readings agree. *)
Lemma held_holds l id b t : list_wf l → (held l id b = Some t ↔ holds l id b t).
Proof.
  unfold held. induction l as [|k l IH]; intros Hwf; [by rewrite holds_nil|].
  apply list_wf_cons in Hwf as (_ & Hwf & Hb). rewrite holds_cons. simpl. case_bool_decide as Hk; simpl.
  - split; [naive_solver|]. intros [(? & ? & ->)|(y & Hy & Hid & Hr & _)]; [done|].
    destruct Hk as [Hid' Hr']. destruct (Hb y Hy) as [? ?]; [congruence|].
    unfold in_range in *. lia.
  - rewrite (IH Hwf). naive_solver.
Qed.

(** ** The search for an overlap with the owner's own locks *)

(** How the lock found stands to the request in each of the five cases. *)
Definition overlap_case (c : Z) (ov lock : lockf) : Prop :=
  (c = 1 ∧ lf_start ov = lf_start lock ∧ lf_end ov = lf_end lock) ∨
  (c = 2 ∧ lf_start ov ≤ lf_start lock ∧ lf_end lock ≠ -1 ∧
     (lf_end lock ≤ lf_end ov ∨ lf_end ov = -1) ∧
     (lf_start ov ≠ lf_start lock ∨ lf_end ov ≠ lf_end lock)) ∨
  (c = 3 ∧ lf_start lock ≤ lf_start ov ∧
     (lf_end lock = -1 ∨ (lf_end ov ≠ -1 ∧ lf_end ov ≤ lf_end lock)) ∧
     (lf_start ov ≠ lf_start lock ∨ lf_end ov ≠ lf_end lock)) ∨
  (c = 4 ∧ lf_start ov < lf_start lock ∧ (lf_start lock ≤ lf_end ov ∨ lf_end ov = -1) ∧
     (lf_end lock = -1 ∨ (lf_end ov ≠ -1 ∧ lf_end ov < lf_end lock))) ∨
  (c = 5 ∧ lf_start lock < lf_start ov ∧ lf_end lock ≠ -1 ∧ lf_start ov ≤ lf_end lock ∧
     (lf_end lock < lf_end ov ∨ lf_end ov = -1)).

(** What the search answers. *)
Definition self_result (lf : list lockf) (lock : lockf) (c : Z) (sk rest : list lockf) : Prop :=
  lf = sk ++ rest ∧ (∀ k, k ∈ sk → lf_id k = lf_id lock → ends_before k lock) ∧
  ((c = 0 ∧ (rest = [] ∨ ∃ ov tl, rest = ov :: tl ∧ lf_id ov = lf_id lock ∧ ends_before lock ov)) ∨
   (∃ ov tl, rest = ov :: tl ∧ lf_id ov = lf_id lock ∧ overlap_case c ov lock)).

Ltac zbool := repeat match goal with
  | H : (_ || _) = true |- _ => apply orb_true_iff in H
  | H : (_ || _) = false |- _ => apply orb_false_iff in H; destruct H
  | H : (_ && _) = true |- _ => apply andb_true_iff in H; destruct H
  | H : (_ && _) = false |- _ => apply andb_false_iff in H
  | H : negb _ = true |- _ => apply negb_true_iff in H
  | H : negb _ = false |- _ => apply negb_false_iff in H
  end.

Lemma findoverlap_self lf lock : valid_range lock → Forall valid_range lf →
  ∃ c sk rest, lf_findoverlap lf lock SELF = Ok (c, sk, rest) ∧ self_result lf lock c sk rest.
Proof.
  intros Hv Hlf. induction Hlf as [|l lf Hl Hlf IH]; simpl.
  - exists 0, [], []. split; [done|]. split; [done|]. split; [set_solver|]. left. auto.
  - assert (Hskip : (lf_id l = lf_id lock → ends_before l lock) →
      ∃ c sk rest, ('(c, skipped, rest) ← lf_findoverlap lf lock SELF;
                    mret (c, l :: skipped, rest)) = Ok (c, sk, rest) ∧
                   self_result (l :: lf) lock c sk rest).
    { intros Hbef. destruct IH as (c & sk & rest & -> & -> & Hsk & Hc). exists c, (l :: sk), rest.
      split; [done|]. split; [done|]. split; [|done]. intros k [->|?]%elem_of_cons; auto. }
    assert (Hstop : ∀ c, lf_id l = lf_id lock →
      (c = 0 ∧ ends_before lock l) ∨ overlap_case c l lock →
      ∃ c' sk rest, Ok (c, [], l :: lf) = Ok (c', sk, rest) ∧
                    self_result (l :: lf) lock c' sk rest).
    { intros c Hid Hc. exists c, [], (l :: lf). split; [done|]. split; [done|]. split; [set_solver|].
      destruct Hc as [[-> ?]|?]; [left; split; [done|right]|right]; by eexists _, _. }
    destruct (Z.eqb_spec (lf_id l) (lf_id lock)) as [Hid|]; simpl; [|by apply Hskip].
    unfold ends_before, overlap_case, valid_range in *.
    repeat case_bool; zbool; first [apply Hskip; lia | apply Hstop; [done|lia] | exfalso; lia].
Qed.

(** ** Cutting a range out of the owner's locks *)

(** [k] belongs to the owner of [u] and overlaps it. *)
Definition touches (u k : lockf) : Prop :=
  lf_id k = lf_id u ∧ ¬ ends_before k u ∧ ¬ ends_before u k.
#[export] Instance touches_dec u k : Decision (touches u k).
Proof. unfold touches. apply _. Defined.

Definition cut_left (u k : lockf) : bool := lf_start k <? lf_start u.
Definition cut_right (u k : lockf) : bool :=
  negb (lf_end u =? -1) && ((lf_end k =? -1) || (lf_end u <? lf_end k)).

Definition left_piece (u k : lockf) : lockf := set_blkhd (set_end k (lf_start u - 1)) [].
Definition right_piece (u k : lockf) (p : nat) : lockf :=
  set_blkhd (set_start (set_ptr k p) (lf_end u + 1)) [].

(** What is left of [k] without the range of [u]; the right piece is a new
    structure, at [sp], when there are two. *)
Definition cut (u : lockf) (sp : nat) (k : lockf) : list lockf :=
  if decide (touches u k) then
    (if cut_left u k then [left_piece u k] else []) ++
    (if cut_right u k then [right_piece u k (if cut_left u k then sp else lf_ptr k)] else [])
  else [k].

Definition cut_all (u : lockf) (sp : nat) (lf : list lockf) : list lockf := mbind (cut u sp) lf.

(** [k'] is a part of [k]. *)
Definition part_of (k' k : lockf) : Prop :=
  lf_id k' = lf_id k ∧ lf_start k ≤ lf_start k' ∧
  (lf_end k = -1 ∨ (lf_end k' ≠ -1 ∧ lf_end k' ≤ lf_end k)).

Lemma before_part x k k' : before x k → part_of k' k → before x k'.
Proof. unfold before, part_of, ends_before. intros H (Hid & ? & _) ?. destruct H; [congruence|]. lia. Qed.
Lemma part_before x k k' : before k x → part_of k' k → before k' x.
Proof. unfold before, part_of, ends_before. intros H (Hid & ? & ?) ?. destruct H; [congruence|]. lia. Qed.

Lemma cut_untouched u sp k : ¬ touches u k → cut u sp k = [k].
Proof. intros. unfold cut. by rewrite decide_False. Qed.

Lemma cut_all_untouched u sp lf : (∀ k, k ∈ lf → ¬ touches u k) → cut_all u sp lf = lf.
Proof.
  unfold cut_all. induction lf as [|k lf IH]; intros H; [done|]. csimpl.
  rewrite cut_untouched by (apply H; set_solver). rewrite IH by (intros; apply H; set_solver). done.
Qed.
Lemma cut_all_app u sp l1 l2 : cut_all u sp (l1 ++ l2) = cut_all u sp l1 ++ cut_all u sp l2.
Proof. apply bind_app. Qed.

Lemma cut_part u sp k k' : valid_range u → valid_range k → k' ∈ cut u sp k →
  part_of k' k ∧ valid_range k' ∧ lf_type k' = lf_type k.
Proof.
  unfold cut, cut_left, cut_right, touches, part_of, valid_range, ends_before. intros Hu Hk.
  destruct (decide _) as [(Hid & H1 & H2)|_]; [|intros ->%list_elem_of_singleton; split_and!; auto; lia].
  destruct (Z.ltb_spec (lf_start k) (lf_start u)), (negb _ && _) eqn:E; simpl; zb;
    rewrite ?elem_of_cons, ?list_elem_of_singleton, ?elem_of_nil; intros; destruct_or?; subst; simpl; split_and!; try done; lia.
Qed.

Lemma cut_wf u sp k : valid_range u → valid_range k → list_wf (cut u sp k).
Proof.
  intros Hu Hk. split; [apply Forall_forall; intros k' Hin; by apply (cut_part u sp k)|].
  unfold cut, cut_left, cut_right. destruct (decide _); [|repeat constructor].
  destruct (Z.ltb_spec (lf_start k) (lf_start u)), (negb _ && _) eqn:E; simpl; repeat constructor;
    unfold before, valid_range in *; simpl; lia.
Qed.

Lemma cut_holds u sp k id b t : valid_range u → valid_range k →
  holds (cut u sp k) id b t ↔ holds [k] id b t ∧ ¬ (id = lf_id u ∧ in_range u b).
Proof.
  intros Hu Hk. unfold cut, cut_left, cut_right. destruct (decide (touches u k)) as [(Hid & H1 & H2)|Ht].
  - unfold ends_before, valid_range in *.
    destruct (Z.ltb_spec (lf_start k) (lf_start u)), (negb _ && _) eqn:E; simpl; zb;
      rewrite ?holds_cons, ?holds_nil; simpl; unfold in_range; simpl; rewrite Hid;
      (destruct (decide (lf_id u = id)); [|naive_solver]); (destruct (decide (lf_type k = t)) as [Ht|]; [|naive_solver]);
      assert (Hy : lf_type k = t ↔ True) by tauto; rewrite ?Hy; clear Hy Ht; lia.
  - split; [|tauto]. intros Hh. split; [done|]. intros [-> Hin]. apply Ht.
    apply holds_cons in Hh as [(Hid & Hr & _)|[]%holds_nil]. split; [done|].
    unfold in_range, ends_before in *. lia.
Qed.

Lemma cut_all_part u sp lf k' : valid_range u → Forall valid_range lf → k' ∈ cut_all u sp lf →
  ∃ k, k ∈ lf ∧ part_of k' k ∧ valid_range k'.
Proof.
  unfold cut_all. intros Hu Hlf (k & Hk' & Hk)%list_elem_of_bind. exists k. split; [done|].
  rewrite Forall_forall in Hlf. by destruct (cut_part u sp k k' Hu (Hlf k Hk) Hk') as (? & ? & _).
Qed.

Lemma cut_all_wf u sp lf : valid_range u → list_wf lf → list_wf (cut_all u sp lf).
Proof.
  intros Hu. induction lf as [|k lf IH]; intros Hwf; [done|].
  apply list_wf_cons in Hwf as (Hk & Hlf & Hb). unfold cut_all. csimpl.
  apply list_wf_app. split_and!; [by apply cut_wf|by apply IH|].
  intros x y Hx Hy. destruct (cut_part u sp k x Hu Hk Hx) as [Hpx _].
  destruct (cut_all_part u sp lf y Hu (proj1 Hlf) Hy) as (k2 & Hk2 & Hpy & _).
  eapply before_part; [|done]. eapply part_before; [|done]. by apply Hb.
Qed.

Lemma cut_all_holds u sp lf id b t : valid_range u → Forall valid_range lf →
  holds (cut_all u sp lf) id b t ↔ holds lf id b t ∧ ¬ (id = lf_id u ∧ in_range u b).
Proof.
  intros Hu. induction 1 as [|k lf Hk Hlf IH]; [rewrite !holds_nil; tauto|].
  unfold cut_all in *. csimpl. rewrite holds_app, IH, cut_holds by done.
  rewrite (holds_cons k lf), (holds_cons k []), holds_nil. tauto.
Qed.

(** ** Waking requests *)

Definition woken (w : waiter) : waiter :=
  Waiter (w_lock w) (w_file w) (w_proc w) (w_spare w) None false.

(** The store after the requests of [q] were woken. *)
Definition wake_map (q : list nat) (m : gmap nat waiter) : gmap nat waiter :=
  map_imap (λ p w, Some (if decide (p ∈ q) then woken w else w)) m.

Lemma lookup_wake_map q m p :
  wake_map q m !! p = (λ w, if decide (p ∈ q) then woken w else w) <$> m !! p.
Proof. unfold wake_map. rewrite map_lookup_imap. by destruct (m !! p). Qed.

Lemma wake_map_nil m : wake_map [] m = m.
Proof. apply map_eq. intros p. rewrite lookup_wake_map. by destruct (m !! p). Qed.
Lemma wake_map_app q1 q2 m : wake_map q2 (wake_map q1 m) = wake_map (q1 ++ q2) m.
Proof.
  apply map_eq. intros p. rewrite !lookup_wake_map. destruct (m !! p); simpl; [|done].
  f_equal. repeat case_decide; set_solver.
Qed.
Lemma wake_map_cons p q m w : m !! p = Some w →
  wake_map (p :: q) m = wake_map q (<[p := woken w]> m).
Proof.
  intros Hp. apply map_eq. intros i. rewrite !lookup_wake_map.
  destruct (decide (i = p)) as [->|].
  - rewrite lookup_insert_eq, Hp. simpl. f_equal. rewrite decide_True by set_solver. by case_decide.
  - rewrite lookup_insert_ne by done. destruct (m !! i); simpl; [|done].
    f_equal. repeat case_decide; set_solver.
Qed.

(** The queue of [k] holds requests that are queued on [k]. *)
Definition queue_ok (m : gmap nat waiter) (k : lockf) : Prop :=
  NoDup (lf_blkhd k) ∧ ∀ p, p ∈ lf_blkhd k → ∃ w, m !! p = Some w ∧ w_next w = Some (lf_ptr k).
Definition queues_ok (m : gmap nat waiter) (l : list lockf) : Prop :=
  NoDup (lf_ptr <$> l) ∧ Forall (queue_ok m) l.

Definition with_waiters (st : kst) (m : gmap nat waiter) : kst := Kst m (lockcnt st) (nextptr st).

Lemma wake_all_spec q h : ∀ st, NoDup q →
  (∀ p, p ∈ q → ∃ w, waiters st !! p = Some w ∧ w_next w = Some h) →
  wake_all q h st = Ok (with_waiters st (wake_map q (waiters st))).
Proof.
  induction q as [|p q IH]; intros st Hnd Hq; simpl.
  - rewrite wake_map_nil. by destruct st.
  - apply NoDup_cons in Hnd as [Hp Hnd]. destruct (Hq p) as (w & Hw & Hn); [set_solver|].
    rewrite Hw, bool_decide_eq_true_2 by done. rewrite IH.
    + rewrite (wake_map_cons p q _ w Hw). done.
    + done.
    + intros p' Hp'. simpl. rewrite lookup_insert_ne by set_solver. apply Hq. set_solver.
Qed.

Lemma lf_wakelock_spec k st : queue_ok (waiters st) k →
  lf_wakelock k st =
    Ok (set_blkhd k [], with_waiters st (wake_map (lf_blkhd k) (waiters st))).
Proof. intros [Hnd Hq]. unfold lf_wakelock. by rewrite wake_all_spec. Qed.

(** Waking the queue of one lock leaves the others' alone. *)
Lemma queue_ok_wake m k k' : lf_ptr k ≠ lf_ptr k' →
  queue_ok m k → queue_ok m k' → queue_ok (wake_map (lf_blkhd k) m) k'.
Proof.
  intros Hne [_ Hk] [Hnd Hk']. split; [done|]. intros p Hp. destruct (Hk' p Hp) as (w & Hw & Hn).
  exists w. rewrite lookup_wake_map, Hw. simpl. split; [|done].
  rewrite decide_False; [done|]. intros Hin. destruct (Hk p Hin) as (w' & ? & ?). simplify_eq.
Qed.

Lemma queues_ok_cons m k l : queues_ok m (k :: l) ↔
  queue_ok m k ∧ (lf_ptr k ∉ (lf_ptr <$> l)) ∧ queues_ok m l.
Proof. unfold queues_ok. csimpl. rewrite NoDup_cons, Forall_cons. tauto. Qed.
Lemma queues_ok_app m l1 l2 : queues_ok m (l1 ++ l2) → queues_ok m l2.
Proof. unfold queues_ok. rewrite fmap_app, NoDup_app, Forall_app. tauto. Qed.

Lemma queues_ok_wake m k l : queues_ok m (k :: l) → queues_ok (wake_map (lf_blkhd k) m) l.
Proof.
  rewrite queues_ok_cons. intros (Hk & Hp & Hnd & Hl). split; [done|].
  rewrite Forall_forall in *. intros k' Hk'. apply queue_ok_wake; [|done|by apply Hl].
  intros Heq. apply Hp. rewrite Heq. by apply list_elem_of_fmap_2.
Qed.

(** ** [lf_clearlock] cuts the range out of the list *)

(** The requests it wakes, and the structures a list and a spare lock hold for
    user [u]. *)
Definition cut_woken (u : lockf) (lf : list lockf) : list nat :=
  mbind (λ k, if decide (touches u k) then lf_blkhd k else []) lf.
Definition uid_count (u : Z) (l : list lockf) : Z :=
  Z.of_nat (length (filter (λ k, lf_uid k = u) l)).

Lemma uid_count_app u l1 l2 : uid_count u (l1 ++ l2) = uid_count u l1 + uid_count u l2.
Proof. unfold uid_count. rewrite filter_app, length_app. lia. Qed.
Lemma uid_count_cons u k l :
  uid_count u (k :: l) = (if decide (lf_uid k = u) then 1 else 0) + uid_count u l.
Proof. unfold uid_count. rewrite filter_cons. case_decide; simpl; lia. Qed.
Lemma uid_count_nil u : uid_count u [] = 0.
Proof. done. Qed.

Lemma cnt_add st u u' d : cnt (add_cnt st u d) u' = cnt st u' + (if decide (u = u') then d else 0).
Proof.
  unfold cnt, add_cnt. simpl. case_decide as Hu.
  - subst. by rewrite lookup_insert_eq.
  - rewrite lookup_insert_ne by done. lia.
Qed.

Lemma cnt_free st l id :
  cnt (lf_free l st) id = cnt st id - (if decide (lf_uid l = id) then 1 else 0).
Proof. unfold lf_free. rewrite cnt_add. case_decide; lia. Qed.
Lemma cnt_with_waiters st m id : cnt (with_waiters st m) id = cnt st id.
Proof. done. Qed.

(** The count of each user follows the structures that exist, as long as a
    spare lock is charged to the user of the lock that is split. *)
Definition same_uid (u : lockf) (sp : option lockf) (lf : list lockf) : Prop :=
  ∀ s k, sp = Some s → k ∈ lf → lf_id k = lf_id u → lf_uid k = lf_uid s.

Definition cut_needs_spare (u : lockf) (lf : list lockf) : bool :=
  existsb (λ k, bool_decide (touches u k) && cut_left u k && cut_right u k) lf.

(** A spare lock is at hand, or the range reaches one end of the file. *)
Definition spare_ok (u : lockf) (sp : option lockf) : Prop :=
  is_Some sp ∨ lf_start u = 0 ∨ lf_end u = -1.

(** The owner's locks that start after [u] ends are not touched. *)
Lemma beyond_untouched (u ov : lockf) (tl : list lockf) : lf_id ov = lf_id u → ends_before u ov →
  (∀ y, y ∈ tl → before ov y) → valid_range ov → ∀ k, k ∈ ov :: tl → ¬ touches u k.
Proof.
  intros Hid Hb Hs Hv k [->|Hk]%elem_of_cons (Hk1 & Hk2 & Hk3); [done|].
  apply Hk3. unfold before, ends_before, valid_range in *. destruct (Hs k Hk); [congruence|]. lia.
Qed.
Lemma after_untouched (u ov : lockf) (tl : list lockf) : lf_id ov = lf_id u → lf_end u ≠ -1 →
  (lf_end u ≤ lf_end ov ∨ lf_end ov = -1) → (∀ y, y ∈ tl → before ov y) →
  ∀ k, k ∈ tl → ¬ touches u k.
Proof.
  intros Hid Hu Hov Hs k Hk (Hk1 & _ & Hk3). apply Hk3.
  unfold before, ends_before in *. destruct (Hs k Hk); [congruence|]. lia.
Qed.
Lemma skipped_untouched (u : lockf) (sk : list lockf) : (∀ k, k ∈ sk → lf_id k = lf_id u → ends_before k u) →
  ∀ k, k ∈ sk → ¬ touches u k.
Proof. intros H k Hk (Hid & Hn & _). by apply Hn, H. Qed.

Lemma cut_woken_untouched u (lf : list lockf) : (∀ k, k ∈ lf → ¬ touches u k) → cut_woken u lf = [].
Proof.
  unfold cut_woken. induction lf as [|k lf IH]; intros H; [done|]. csimpl.
  rewrite decide_False by (apply H; set_solver). rewrite IH by (intros; apply H; set_solver). done.
Qed.
Lemma cut_woken_app u l1 l2 : cut_woken u (l1 ++ l2) = cut_woken u l1 ++ cut_woken u l2.
Proof. apply bind_app. Qed.

(** Outcome of the clearing of [u]'s range in [lf]. *)
Definition clear_result (lf : list lockf) (u : lockf) (sp : option lockf) (st : kst)
    (r : res (list lockf * option lockf * kst)) : Prop :=
  ∃ sp' st', r = Ok (cut_all u (from_option lf_ptr O sp) lf, sp', st') ∧
    (sp' = if cut_needs_spare u lf then None else sp) ∧
    waiters st' = wake_map (cut_woken u lf) (waiters st) ∧ nextptr st' = nextptr st ∧
    (same_uid u sp lf → ∀ id,
       cnt st' id - uid_count id (cut_all u (from_option lf_ptr O sp) lf)
         - uid_count id (option_list sp') =
       cnt st id - uid_count id lf - uid_count id (option_list sp)).

Lemma overlap_touches c ov u : valid_range u → valid_range ov → lf_id ov = lf_id u →
  overlap_case c ov u → touches u ov.
Proof.
  unfold overlap_case, touches, ends_before, valid_range. intros ?? Hid Hc.
  split; [done|]. lia.
Qed.

Lemma needs_spare_app u l1 l2 :
  cut_needs_spare u (l1 ++ l2) = cut_needs_spare u l1 || cut_needs_spare u l2.
Proof. apply existsb_app. Qed.
Lemma needs_spare_untouched u lf : (∀ k, k ∈ lf → ¬ touches u k) → cut_needs_spare u lf = false.
Proof.
  unfold cut_needs_spare. induction lf as [|k lf IH]; intros H; [done|]. simpl.
  rewrite bool_decide_eq_false_2 by (apply H; set_solver). simpl. apply IH. intros. apply H. set_solver.
Qed.
Lemma needs_spare_cons u k lf : touches u k →
  cut_needs_spare u (k :: lf) = (cut_left u k && cut_right u k) || cut_needs_spare u lf.
Proof. intros. unfold cut_needs_spare. simpl. by rewrite bool_decide_eq_true_2. Qed.

(** The list around the lock found, when the locks before it are not touched. *)
Lemma cut_all_around u sp sk ov tl : (∀ k, k ∈ sk → ¬ touches u k) →
  cut_all u sp (sk ++ ov :: tl) = sk ++ cut u sp ov ++ cut_all u sp tl.
Proof. intros Hsk. rewrite cut_all_app, cut_all_untouched by done. done. Qed.
Lemma cut_woken_around u sk ov tl : (∀ k, k ∈ sk → ¬ touches u k) → touches u ov →
  cut_woken u (sk ++ ov :: tl) = lf_blkhd ov ++ cut_woken u tl.
Proof.
  intros Hsk Hov. rewrite cut_woken_app, cut_woken_untouched by done.
  unfold cut_woken. csimpl. by rewrite decide_True.
Qed.
Lemma needs_spare_around u sk ov tl : (∀ k, k ∈ sk → ¬ touches u k) → touches u ov →
  cut_needs_spare u (sk ++ ov :: tl) = (cut_left u ov && cut_right u ov) || cut_needs_spare u tl.
Proof.
  intros Hsk Hov. by rewrite needs_spare_app, needs_spare_untouched, needs_spare_cons.
Qed.

(** The pieces of the lock found, in the form the code builds them. *)
Section pieces.
Context (u ov : lockf) (sp : nat) (Hu : valid_range u) (Hov : valid_range ov)
  (Hid : lf_id ov = lf_id u).

Lemma cut_case_gone : (overlap_case 1 ov u ∨ overlap_case 3 ov u) →
  cut u sp ov = [] ∧ cut_left u ov && cut_right u ov = false.
Proof.
  intros Hc. assert (Ht : touches u ov) by (destruct Hc; by eapply overlap_touches).
  unfold cut. rewrite decide_True by done.
  assert (cut_left u ov = false) as -> by (unfold cut_left, overlap_case in *; lia).
  assert (cut_right u ov = false) as -> by (unfold cut_right, overlap_case, valid_range in *; lia).
  done.
Qed.
Lemma cut_case_left : overlap_case 4 ov u →
  cut u sp ov = [left_piece u ov] ∧ cut_left u ov && cut_right u ov = false.
Proof.
  intros Hc. assert (Ht : touches u ov) by by eapply overlap_touches.
  unfold cut. rewrite decide_True by done.
  assert (cut_left u ov = true) as -> by (unfold cut_left, overlap_case in *; lia).
  assert (cut_right u ov = false) as -> by (unfold cut_right, overlap_case, valid_range in *; lia).
  done.
Qed.
Lemma cut_case_right : overlap_case 5 ov u ∨ (overlap_case 2 ov u ∧ lf_start ov = lf_start u) →
  cut u sp ov = [right_piece u ov (lf_ptr ov)] ∧ cut_left u ov && cut_right u ov = false.
Proof.
  intros Hc. assert (Ht : touches u ov) by (destruct Hc as [?|[? _]]; by eapply overlap_touches).
  unfold cut. rewrite decide_True by done.
  assert (cut_left u ov = false) as -> by (unfold cut_left, overlap_case in *; lia).
  assert (cut_right u ov = true) as -> by (unfold cut_right, overlap_case, valid_range in *; lia).
  done.
Qed.
Lemma cut_case_end : overlap_case 2 ov u → lf_start ov ≠ lf_start u → lf_end ov = lf_end u →
  cut u sp ov = [left_piece u ov] ∧ cut_left u ov && cut_right u ov = false.
Proof.
  intros Hc ??. assert (Ht : touches u ov) by by eapply overlap_touches.
  unfold cut. rewrite decide_True by done.
  assert (cut_left u ov = true) as -> by (unfold cut_left, overlap_case in *; lia).
  assert (cut_right u ov = false) as -> by (unfold cut_right, overlap_case, valid_range in *; lia).
  done.
Qed.
Lemma cut_case_split : overlap_case 2 ov u → lf_start ov ≠ lf_start u → lf_end ov ≠ lf_end u →
  cut u sp ov = [left_piece u ov; right_piece u ov sp] ∧
  cut_left u ov && cut_right u ov = true ∧ 0 < lf_start u ∧ lf_end u ≠ -1.
Proof.
  intros Hc ??. assert (Ht : touches u ov) by by eapply overlap_touches.
  unfold cut. rewrite decide_True by done.
  assert (cut_left u ov = true) as -> by (unfold cut_left, overlap_case in *; lia).
  assert (cut_right u ov = true) as -> by (unfold cut_right, overlap_case, valid_range in *; lia).
  unfold overlap_case, valid_range in *. split_and!; [done..|lia|lia].
Qed.
End pieces.

Lemma clear_result_untouched lf u sp st : (∀ k, k ∈ lf → ¬ touches u k) →
  clear_result lf u sp st (Ok (lf, sp, st)).
Proof.
  intros H. exists sp, st. rewrite cut_all_untouched, needs_spare_untouched, cut_woken_untouched by done.
  rewrite wake_map_nil. split_and!; auto.
Qed.

(** The result for a list from the results for the lock found and for the rest. *)
Lemma clear_result_cons sk ov tl u sp sp1 st st1 r :
  (∀ k, k ∈ sk → ¬ touches u k) → touches u ov →
  sp1 = (if cut_left u ov && cut_right u ov then None else sp) →
  (cut_left u ov && cut_right u ov = true → ∀ k, k ∈ tl → ¬ touches u k) →
  waiters st1 = wake_map (lf_blkhd ov) (waiters st) → nextptr st1 = nextptr st →
  (same_uid u sp [ov] → ∀ id,
     cnt st1 id - uid_count id (cut u (from_option lf_ptr O sp) ov) - uid_count id (option_list sp1) =
     cnt st id - uid_count id [ov] - uid_count id (option_list sp)) →
  clear_result tl u sp1 st1 r →
  clear_result (sk ++ ov :: tl) u sp st
    ('(tl', sp', st') ← r;
     mret (sk ++ cut u (from_option lf_ptr O sp) ov ++ tl', sp', st')).
Proof.
  intros Hsk Hov Hsp1 Hsplit Hw Hn Hc (sp' & st' & -> & Hsp' & Hw' & Hn' & Hc').
  assert (Htl : cut_all u (from_option lf_ptr O sp1) tl = cut_all u (from_option lf_ptr O sp) tl).
  { destruct (cut_left u ov && cut_right u ov); [|by subst].
    by rewrite !cut_all_untouched by auto. }
  exists sp', st'. rewrite cut_all_around, needs_spare_around, cut_woken_around by done.
  csimpl. rewrite Htl in *. split; [done|]. split; [|split; [|split; [congruence|]]].
  - rewrite Hsp', Hsp1. destruct (cut_left u ov && cut_right u ov); [|done].
    by rewrite needs_spare_untouched by auto.
  - by rewrite Hw', Hw, wake_map_app.
  - intros Hu id. rewrite !uid_count_app, uid_count_cons.
    assert (Hu1 : same_uid u sp1 tl).
    { intros s k Hs Hk. apply Hu; [|set_solver]. subst sp1. by destruct (_ && _). }
    specialize (Hc' Hu1 id). assert (Hu2 : same_uid u sp [ov]).
    { intros s k Hs Hk. apply Hu; [done|set_solver]. }
    specialize (Hc Hu2 id). rewrite uid_count_cons, uid_count_nil in Hc. lia.
Qed.

Lemma clear_result_stop sk ov tl u sp sp1 st st1 l' :
  l' = sk ++ cut u (from_option lf_ptr O sp) ov ++ tl →
  (∀ k, k ∈ sk → ¬ touches u k) → touches u ov →
  sp1 = (if cut_left u ov && cut_right u ov then None else sp) →
  (∀ k, k ∈ tl → ¬ touches u k) →
  waiters st1 = wake_map (lf_blkhd ov) (waiters st) → nextptr st1 = nextptr st →
  (same_uid u sp [ov] → ∀ id,
     cnt st1 id - uid_count id (cut u (from_option lf_ptr O sp) ov) - uid_count id (option_list sp1) =
     cnt st id - uid_count id [ov] - uid_count id (option_list sp)) →
  clear_result (sk ++ ov :: tl) u sp st
    (Ok (l', sp1, st1)).
Proof.
  intros -> ???????. apply (clear_result_cons sk ov tl u sp sp1 st st1 (Ok (tl, sp1, st1))); auto.
  by apply clear_result_untouched.
Qed.

(** Where the search stops, nothing further on is touched. *)
Lemma stop_untouched c (u ov : lockf) (tl : list lockf) : overlap_case c ov u → lf_id ov = lf_id u → valid_range u →
  c ≠ 3 → c ≠ 4 → (∀ y, y ∈ tl → before ov y) → ∀ k, k ∈ tl → ¬ touches u k.
Proof.
  intros Hc Hid Hu ?? Hb k Hk (Hk1 & _ & Hk3). apply Hk3.
  unfold before, ends_before, overlap_case, valid_range in *. destruct (Hb k Hk); [congruence|]. lia.
Qed.

Lemma spare_ok_split u sp : spare_ok u sp → 0 < lf_start u → lf_end u ≠ -1 →
  ∃ s, sp = Some s.
Proof. intros [[s ->]|[?|?]] ??; [by eexists|lia|lia]. Qed.

Lemma clearlock_spec fuel : ∀ lf u sp st,
  (length lf < fuel)%nat → list_wf lf → valid_range u → queues_ok (waiters st) lf → spare_ok u sp →
  clear_result lf u sp st (lf_clearlock fuel lf u sp st).
Proof.
  induction fuel as [|fuel IH]; intros lf u sp st Hf Hwf Hu Hq Hsp; [lia|].
  simpl. unfold lf_split. rewrite ?s64_end, ?s64_start by done.
  destruct (findoverlap_self lf u Hu (proj1 Hwf)) as (c & sk & rest & -> & -> & Hsk & Hc).
  pose proof (skipped_untouched u sk Hsk) as Hsku. csimpl.
  destruct Hc as [[-> Hc]|(ov & tl & -> & Hid & Hc)].
  { apply clear_result_untouched. intros k [?|Hk]%elem_of_app; [by apply Hsku|].
    destruct Hc as [->|(ov & tl & -> & Hid & Hb)]; [set_solver|].
    apply list_wf_app in Hwf as (_ & Hwf & _). apply list_wf_cons in Hwf as (? & _ & ?).
    by eapply (beyond_untouched u ov tl). }
  apply list_wf_app in Hwf as (Hwsk & Hwf & Hskb). apply list_wf_cons in Hwf as (Hvov & Hwtl & Hovb).
  apply queues_ok_app in Hq. assert (Hqov := proj1 (proj1 (queues_ok_cons _ _ _) Hq)).
  rewrite lf_wakelock_spec by done. csimpl.
  assert (Hqtl := queues_ok_wake _ _ _ Hq).
  rewrite length_app in Hf. simpl in Hf.
  assert (Htouch : touches u ov) by by eapply overlap_touches.
  assert (Hstop := stop_untouched c u ov tl Hc Hid Hu).
  assert (Hcases := Hc). unfold overlap_case in Hcases.
  pose (p := from_option lf_ptr O sp). fold p.
  destruct Hcases as [[-> _]|[[-> H2]|[[-> _]|[[-> _]|[-> _]]]]]; simpl.
  - destruct (cut_case_gone u ov p Hu Hvov Hid) as [Hcut Hlr]; [auto|].
    eapply clear_result_stop; auto; [by fold p; rewrite Hcut|by rewrite Hlr|].
    intros _ id. fold p. rewrite Hcut, uid_count_cons, uid_count_nil, cnt_free, cnt_with_waiters.
    simpl. lia.
  - destruct (Z.eqb_spec (lf_start ov) (lf_start u)) as [Hs|Hs].
    + destruct (cut_case_right u ov p Hu Hvov Hid) as [Hcut Hlr]; [right; split; [done|lia]|].
      eapply clear_result_stop; auto; [by fold p; rewrite Hcut|by rewrite Hlr|].
      intros _ id. fold p. rewrite Hcut, !uid_count_cons, uid_count_nil. done.
    + simpl.
      destruct (Z.eqb_spec (lf_end ov) (lf_end u)) as [He|He]; simpl.
      * destruct (cut_case_end u ov p Hu Hvov Hid) as [Hcut Hlr]; [done..|].
        eapply clear_result_stop; auto; [by fold p; rewrite Hcut|by rewrite Hlr|].
        intros _ id. fold p. rewrite Hcut, !uid_count_cons, uid_count_nil. done.
      * destruct (cut_case_split u ov p Hu Hvov Hid) as (Hcut & Hlr & ? & ?); [done..|].
        destruct (spare_ok_split u sp) as [s ->]; [done..|]. simpl.
        eapply clear_result_stop; auto; [by fold p; rewrite Hcut|by rewrite Hlr|].
        intros Hsame id. fold p. rewrite Hcut. simpl. rewrite !uid_count_cons, uid_count_nil. simpl.
        rewrite (Hsame s ov); [|done|set_solver|done]. change (cnt (with_waiters _ _) id) with (cnt st id). lia.
  - destruct (cut_case_gone u ov p Hu Hvov Hid) as [Hcut Hlr]; [auto|].
    set (st1 := lf_free _ _).
    assert (Hr : clear_result tl u sp st1 (lf_clearlock fuel tl u sp st1)) by (apply IH; try done; lia).
    eapply (clear_result_cons sk ov tl u sp sp st) in Hr; auto; fold p in Hr |- *; try by rewrite Hlr.
    + rewrite Hcut in Hr. done.
    + intros _ id. fold p. rewrite Hcut, uid_count_cons, uid_count_nil. unfold st1.
      rewrite cnt_free, cnt_with_waiters. simpl. lia.
  - destruct (cut_case_left u ov p Hu Hvov Hid) as [Hcut Hlr]; [auto|].
    set (st1 := with_waiters _ _).
    assert (Hr : clear_result tl u sp st1 (lf_clearlock fuel tl u sp st1)) by (apply IH; try done; lia).
    eapply (clear_result_cons sk ov tl u sp sp st) in Hr; auto; fold p in Hr |- *; try by rewrite Hlr.
    + rewrite Hcut in Hr. done.
    + intros _ id. fold p. rewrite Hcut, !uid_count_cons, uid_count_nil. done.
  - destruct (cut_case_right u ov p Hu Hvov Hid) as [Hcut Hlr]; [auto|].
    eapply clear_result_stop; auto; [by fold p; rewrite Hcut|by rewrite Hlr|].
    intros _ id. fold p. rewrite Hcut, !uid_count_cons, uid_count_nil. done.
Qed.
