(* ===== verification/LockfAdd.v ===== *)
(** * Queues of blocked requests, and the addition of a lock

    [linked] is the invariant that ties the requests in the store to the locks:
    a request is in the queue of exactly the lock that its [lf_next] names, and
    that lock blocks it.  Each change that [lf_addlock] and [lf_clearlock] make
    to a lock preserves it; so do the two functions. *)

From S2P Require Export LockfSpec.

(** The ranges of [k] and [l] have a byte in common. *)
Definition overlaps (k l : lockf) : Prop := ¬ ends_before k l ∧ ¬ ends_before l k.
#[export] Instance overlaps_dec k l : Decision (overlaps k l).
Proof. unfold overlaps. apply _. Defined.

(** [k] stands in the way of [l]. *)
Definition blocks (k l : lockf) : Prop :=
  lf_id k ≠ lf_id l ∧ overlaps k l ∧ (lf_type k = F_WRLCK ∨ lf_type l = F_WRLCK).
#[export] Instance blocks_dec k l : Decision (blocks k l).
Proof. unfold blocks. apply _. Defined.

(** What never changes of a request. *)
Definition request (w : waiter) : lockf * Z * Z * option lockf :=
  (w_lock w, w_file w, w_proc w, w_spare w).
(** The requests are the same, and the woken ones stay so. *)
Definition same_requests (m m' : gmap nat waiter) : Prop :=
  (∀ p, request <$> m !! p = request <$> m' !! p) ∧
  ∀ p w w', m !! p = Some w → m' !! p = Some w' → w_next w = None → w_next w' = None.

#[export] Instance same_requests_preorder : PreOrder same_requests.
Proof.
  split; [split; [done|naive_solver]|]. intros m1 m2 m3 [H1 N1] [H2 N2].
  split; [intros p; by rewrite H1, H2|]. intros p w w' Hw Hw' Hn.
  specialize (H1 p). rewrite Hw in H1. destruct (m2 !! p) as [w2|] eqn:E; [|done]. eauto.
Qed.

(** [p] waits for the lock at [b]. *)
Definition waits (m : gmap nat waiter) (p b : nat) : Prop :=
  ∃ w, m !! p = Some w ∧ w_next w = Some b.

Record linked (m : gmap nat waiter) (locks : list lockf) : Prop := {
  linked_ptrs : NoDup (lf_ptr <$> locks);
  linked_queue k p : k ∈ locks → p ∈ lf_blkhd k → waits m p (lf_ptr k);
  linked_nodup k : k ∈ locks → NoDup (lf_blkhd k);
  linked_next p w b : m !! p = Some w → w_next w = Some b →
    ∃ k, k ∈ locks ∧ lf_ptr k = b ∧ p ∈ lf_blkhd k ∧ blocks k (w_lock w);
  linked_asleep p w : m !! p = Some w → w_asleep w = true → is_Some (w_next w);
}.

#[export] Instance linked_perm m : Proper ((≡ₚ) ==> iff) (linked m).
Proof.
  intros l1 l2 Hp. split; intros []; split; intros *.
  1, 6: by (rewrite <-Hp || rewrite Hp).
  all: repeat setoid_rewrite Hp; eauto.
  all: repeat setoid_rewrite <-Hp; eauto.
Qed.

Lemma linked_queues_ok m l R : linked m (l ++ R) → queues_ok m l.
Proof.
  intros [Hn Hq Hd _ _]. split; [rewrite fmap_app in Hn; by apply NoDup_app in Hn as (? & _)|].
  apply Forall_forall. intros k Hk. split; [apply Hd; set_solver|].
  intros p Hp. apply Hq; set_solver.
Qed.

Lemma ptr_inj m l k k' : linked m l → k ∈ l → k' ∈ l → lf_ptr k = lf_ptr k' → k = k'.
Proof.
  intros [Hn _ _ _ _] Hk Hk' Hp. apply list_elem_of_lookup in Hk as [i Hi], Hk' as [j Hj].
  assert (i = j) as <-; [|congruence].
  eapply NoDup_lookup; [exact Hn| |]; rewrite list_lookup_fmap, ?Hi, ?Hj; simpl; [done|by rewrite Hp].
Qed.

Lemma same_requests_wake q m : same_requests m (wake_map q m).
Proof.
  split; [intros p; rewrite lookup_wake_map; destruct (m !! p); simpl; [by case_decide|done]|].
  intros p w w' Hw. rewrite lookup_wake_map, Hw. simpl. intros [= <-]. by case_decide.
Qed.

(** Waking the queue of a lock. *)
Lemma linked_wake m k l : linked m (k :: l) →
  linked (wake_map (lf_blkhd k) m) (set_blkhd k [] :: l).
Proof.
  intros H. pose proof H as [Hn Hq Hd Hx Ha]. split.
  - done.
  - intros k' p [->|Hk']%elem_of_cons Hp; [simpl in Hp; set_solver|].
    destruct (Hq k' p) as (w & Hw & Hnx); [set_solver..|]. exists w. split; [|done].
    rewrite lookup_wake_map, Hw. simpl. rewrite decide_False; [done|]. intros Hpk.
    destruct (Hq k p) as (w' & Hw' & Hnx'); [set_solver..|]. simplify_eq.
    apply NoDup_cons in Hn as [Hn _]. apply Hn. apply list_elem_of_fmap. naive_solver.
  - intros k' [->|Hk']%elem_of_cons; simpl; [constructor|]. apply Hd. set_solver.
  - intros p w b. rewrite lookup_wake_map. intros (w0 & Hw0 & Hw)%fmap_Some Hnx.
    destruct (decide (p ∈ lf_blkhd k)) as [|Hp]; [by subst w|subst w].
    destruct (Hx p w0 b Hw0 Hnx) as (k' & [->|Hk']%elem_of_cons & ? & ? & ?); [done|].
    exists k'. split; [set_solver|done].
  - intros p w. rewrite lookup_wake_map. intros (w0 & Hw0 & Hw)%fmap_Some Hs.
    destruct (decide (p ∈ lf_blkhd k)); subst w; [done|]. by eapply Ha.
Qed.

(** Changing a lock that nothing waits for, removing it, adding a new one. *)
Lemma linked_change m k k' l : lf_ptr k' = lf_ptr k → lf_blkhd k = [] → lf_blkhd k' = [] →
  linked m (k :: l) → linked m (k' :: l).
Proof.
  intros Hp Hb Hb' [Hn Hq Hd Hx Ha]. split; [csimpl in *; by rewrite Hp| | | |done].
  - intros k0 p [->|?]%elem_of_cons Hin; [rewrite Hb' in Hin; set_solver|]. apply Hq; set_solver.
  - intros k0 [->|?]%elem_of_cons; [rewrite Hb'; constructor|]. apply Hd; set_solver.
  - intros p w b Hw Hnx. destruct (Hx p w b Hw Hnx) as (k0 & [->|Hk']%elem_of_cons & ? & Hin & ?).
    + rewrite Hb in Hin. set_solver.
    + exists k0. split; [set_solver|done].
Qed.
Lemma linked_remove m k l : lf_blkhd k = [] → linked m (k :: l) → linked m l.
Proof.
  intros Hb [Hn Hq Hd Hx Ha]. split; [by apply NoDup_cons in Hn as [_ ?]| | | |done].
  - intros k0 p ??. apply Hq; set_solver.
  - intros k0 ?. apply Hd; set_solver.
  - intros p w b Hw Hnx. destruct (Hx p w b Hw Hnx) as (k0 & [->|Hk']%elem_of_cons & ? & Hin & ?).
    + rewrite Hb in Hin. set_solver.
    + exists k0. done.
Qed.
Lemma linked_add m k l : lf_blkhd k = [] → (lf_ptr k ∉ (lf_ptr <$> l)) → linked m l → linked m (k :: l).
Proof.
  intros Hb Hp [Hn Hq Hd Hx Ha]. split; [by apply NoDup_cons| | | |done].
  - intros k0 p [->|?]%elem_of_cons Hin; [rewrite Hb in Hin; set_solver|]. apply Hq; set_solver.
  - intros k0 [->|?]%elem_of_cons; [rewrite Hb; constructor|]. apply Hd; set_solver.
  - intros p w b Hw Hnx. destruct (Hx p w b Hw Hnx) as (k0 & Hk' & ? & Hin & ?).
    exists k0. split; [set_solver|done].
Qed.
(** Changing a lock that still blocks what waits for it. *)
Lemma linked_grow m k k' l : lf_ptr k' = lf_ptr k → lf_blkhd k' = lf_blkhd k →
  (∀ r, blocks k r → blocks k' r) → linked m (k :: l) → linked m (k' :: l).
Proof.
  intros Hp Hb Hbl [Hn Hq Hd Hx Ha]. split; [csimpl in *; by rewrite Hp| | | |done].
  - intros k0 p [->|?]%elem_of_cons Hin; [rewrite Hp; apply Hq; [set_solver|by rewrite <-Hb]|].
    apply Hq; set_solver.
  - intros k0 [->|?]%elem_of_cons; [rewrite Hb|]; apply Hd; set_solver.
  - intros p w b Hw Hnx. destruct (Hx p w b Hw Hnx) as (k0 & [->|Hk']%elem_of_cons & ? & Hin & ?).
    + exists k'. split_and!; [set_solver|congruence|by rewrite Hb|auto].
    + exists k0. split; [set_solver|done].
Qed.

(** The store after the requests of [q] were queued on [to] instead. *)
Definition requeued (to : nat) (w : waiter) : waiter :=
  Waiter (w_lock w) (w_file w) (w_proc w) (w_spare w) (Some to) (w_asleep w).
Definition move_map (q : list nat) (to : nat) (m : gmap nat waiter) : gmap nat waiter :=
  map_imap (λ p w, Some (if decide (p ∈ q) then requeued to w else w)) m.

Lemma lookup_move_map q to m p :
  move_map q to m !! p = (λ w, if decide (p ∈ q) then requeued to w else w) <$> m !! p.
Proof. unfold move_map. rewrite map_lookup_imap. by destruct (m !! p). Qed.
Lemma same_requests_move q from to m : (∀ p, p ∈ q → waits m p from) →
  same_requests m (move_map q to m).
Proof.
  intros Hq. split; [intros p; rewrite lookup_move_map; destruct (m !! p); simpl; [by case_decide|done]|].
  intros p w w' Hw. rewrite lookup_move_map, Hw. simpl. intros [= <-]. case_decide as Hp; [|done].
  destruct (Hq p Hp) as (? & ? & ?). naive_solver.
Qed.

Lemma move_all_spec q from to : ∀ st, NoDup q → (∀ p, p ∈ q → waits (waiters st) p from) →
  move_all q from to st = Ok (with_waiters st (move_map q to (waiters st))).
Proof.
  induction q as [|p q IH]; intros st Hnd Hq; simpl.
  - assert (move_map [] to (waiters st) = waiters st) as ->; [|by destruct st].
    apply map_eq. intros p. rewrite lookup_move_map. by destruct (waiters st !! p).
  - apply NoDup_cons in Hnd as [Hp Hnd]. destruct (Hq p) as (w & Hw & Hn); [set_solver|].
    rewrite Hw, bool_decide_eq_true_2 by done. rewrite IH; [|done|].
    + unfold with_waiters. simpl. do 2 f_equal. apply map_eq. intros i. rewrite !lookup_move_map.
      destruct (decide (i = p)) as [->|].
      * rewrite lookup_insert_eq, Hw. simpl. f_equal.
        rewrite (decide_True (P := p ∈ p :: q)) by set_solver. by case_decide.
      * rewrite lookup_insert_ne by done. destruct (waiters st !! i); simpl; [|done].
        f_equal. repeat case_decide; set_solver.
    + intros p' Hp'. unfold waits. simpl. rewrite lookup_insert_ne by set_solver. apply Hq. set_solver.
Qed.

(** Moving the queue of [ov] to [lock], which blocks what [ov] blocks. *)
Lemma linked_move m lock ov l : (∀ r, blocks ov r → blocks lock r) →
  linked m (lock :: ov :: l) →
  linked (move_map (lf_blkhd ov) (lf_ptr lock) m)
    (set_blkhd lock (lf_blkhd lock ++ lf_blkhd ov) :: set_blkhd ov [] :: l).
Proof.
  intros Hbl H. pose proof H as [Hn Hq Hd Hx Ha].
  assert (Hmv : ∀ k p, k ∈ lock :: ov :: l → p ∈ lf_blkhd k → p ∈ lf_blkhd ov → k = ov).
  { intros k p Hk Hp Ho. destruct (Hq k p Hk Hp) as (w & Hw & Hx1).
    destruct (Hq ov p) as (w' & Hw' & Hx2); [set_solver..|]. simplify_eq.
    eapply ptr_inj; [exact H|done|set_solver|congruence]. }
  assert (Hstay : ∀ k p, k ∈ lock :: ov :: l → k ≠ ov → p ∈ lf_blkhd k →
    waits (move_map (lf_blkhd ov) (lf_ptr lock) m) p (lf_ptr k)).
  { intros k p Hk Hne Hp. destruct (Hq k p Hk Hp) as (w & Hw & Hx1). exists w. split; [|done].
    rewrite lookup_move_map, Hw. simpl. rewrite decide_False; [done|]. intros Ho. by eapply Hne, Hmv. }
  assert (Hlo : lock ≠ ov).
  { intros ->. apply NoDup_cons in Hn as [Hn _]. apply Hn. set_solver. }
  split.
  - done.
  - intros k p [->|[->|Hk]%elem_of_cons]%elem_of_cons Hp; simpl in *.
    + apply elem_of_app in Hp as [Hp|Hp]; [apply Hstay; [set_solver|done|done]|].
      destruct (Hq ov p) as (w & Hw & Hx1); [set_solver..|]. exists (requeued (lf_ptr lock) w).
      split; [|done]. rewrite lookup_move_map, Hw. simpl. by rewrite decide_True.
    + set_solver.
    + apply Hstay; [set_solver| |done]. intros ->. apply NoDup_cons in Hn as [_ Hn].
      apply NoDup_cons in Hn as [Hn _]. apply Hn. by apply list_elem_of_fmap_2.
  - intros k [->|[->|Hk]%elem_of_cons]%elem_of_cons; simpl; [|constructor|apply Hd; set_solver].
    apply NoDup_app. split_and!; [apply Hd; set_solver| |apply Hd; set_solver].
    intros p Hp Ho. apply Hlo. eapply Hmv; [set_solver|done|done].
  - intros p w b. rewrite lookup_move_map. intros (w0 & Hw0 & Hw)%fmap_Some Hnx.
    destruct (decide (p ∈ lf_blkhd ov)) as [Hp|Hp]; subst w; simpl in *.
    + destruct (Hq ov p) as (w & Hw & Hx1); [set_solver..|]. simplify_eq.
      destruct (Hx p w0 (lf_ptr ov) Hw0 Hx1) as (k & Hk & Hkp & Hin & Hb).
      assert (k = ov) as -> by (eapply ptr_inj; [exact H|done|set_solver|done]).
      eexists. split; [apply elem_of_cons; by left|]. simpl. split_and!; [done|set_solver|by apply Hbl].
    + destruct (Hx p w0 b Hw0 Hnx) as (k & [->|[->|Hk]%elem_of_cons]%elem_of_cons & ? & ? & ?); [|done|].
      * eexists. split; [apply elem_of_cons; by left|]. simpl. split_and!; [done|set_solver|done].
      * exists k. split; [set_solver|done].
  - intros p w. rewrite lookup_move_map. intros (w0 & Hw0 & Hw)%fmap_Some Hs.
    destruct (decide (p ∈ lf_blkhd ov)); subst w; [done|]. by eapply Ha.
Qed.

(** Cutting a range out keeps the requests linked. *)
Lemma linked_cut u sp : ∀ lf R m, linked m (lf ++ R) → list_wf lf → valid_range u →
  (cut_needs_spare u lf = true → sp ∉ (lf_ptr <$> lf ++ R)) →
  linked (wake_map (cut_woken u lf) m) (cut_all u sp lf ++ R).
Proof.
  induction lf as [|k lf IH]; intros R m H Hwf Hu Hsp; [by rewrite wake_map_nil|].
  apply list_wf_cons in Hwf as (Hvk & Hwf & Hb).
  change (cut_all u sp (k :: lf)) with (cut u sp k ++ cut_all u sp lf).
  assert (Hp : (cut u sp k ++ cut_all u sp lf) ++ R ≡ₚ cut_all u sp lf ++ (cut u sp k ++ R)).
  { rewrite <-app_assoc, (Permutation_app_comm (cut u sp k)), <-app_assoc. f_equiv.
    apply Permutation_app_comm. }
  rewrite Hp. clear Hp. unfold cut_woken. csimpl. fold (cut_woken u lf).
  destruct (decide (touches u k)) as [Ht|Ht].
  2:{ rewrite cut_untouched by done. apply IH; try done.
      - simpl. by rewrite <-Permutation_middle.
      - intros Hns. csimpl. rewrite <-Permutation_middle. apply Hsp. simpl. rewrite Hns. by rewrite orb_true_r. }
  apply linked_wake in H. rewrite needs_spare_cons in Hsp by done. rewrite <-wake_map_app.
  unfold cut. rewrite decide_True by done. unfold left_piece, right_piece.
  destruct (cut_left u k) eqn:El, (cut_right u k) eqn:Er; simpl in *.
  - specialize (Hsp eq_refl). assert (Hut : ∀ y, y ∈ lf → ¬ touches u y).
    { destruct Ht as (Hid & _). unfold cut_right in Er. eapply (after_untouched u k); [done|lia|lia|done]. }
    apply IH; try done; [|by rewrite needs_spare_untouched].
    do 2 rewrite <-Permutation_middle. rewrite Permutation_swap. apply linked_add; [done|set_solver|].
    eapply linked_change; [..|exact H]; done.
  - apply IH; try done.
    + rewrite <-Permutation_middle. eapply linked_change; [..|exact H]; done.
    + intros Hns. rewrite <-Permutation_middle. by apply Hsp.
  - apply IH; try done.
    + rewrite <-Permutation_middle. eapply linked_change; [..|exact H]; done.
    + intros Hns. rewrite <-Permutation_middle. by apply Hsp.
  - apply IH; try done.
    + eapply linked_remove; [|exact H]; done.
    + intros Hns. specialize (Hsp Hns). set_solver.
Qed.

(** The structures that hold the pieces: those of the list, and the spare one
    when a lock is split. *)
Lemma cut_all_ptrs u p lf : list_wf lf → valid_range u →
  lf_ptr <$> cut_all u p lf ⊆+ (if cut_needs_spare u lf then [p] else []) ++ (lf_ptr <$> lf).
Proof.
  induction lf as [|k lf IH]; intros Hwf Hu; [done|].
  apply list_wf_cons in Hwf as (Hvk & Hwf & Hb). specialize (IH Hwf Hu).
  change (cut_all u p (k :: lf)) with (cut u p k ++ cut_all u p lf).
  rewrite fmap_app, fmap_cons.
  destruct (decide (touches u k)) as [Ht|Ht].
  2:{ rewrite cut_untouched by done. unfold cut_needs_spare. simpl.
      rewrite bool_decide_eq_false_2 by done. simpl. fold (cut_needs_spare u lf). rewrite <-Permutation_middle. by apply submseteq_skip. }
  rewrite needs_spare_cons by done. unfold cut. rewrite decide_True by done.
  destruct (cut_left u k) eqn:El, (cut_right u k) eqn:Er; simpl in *.
  - rewrite cut_all_untouched; [by rewrite Permutation_swap|].
    destruct Ht as (Hid & _). unfold cut_right in Er. eapply (after_untouched u k); [done|lia|lia|done].
  - rewrite <-Permutation_middle. by apply submseteq_skip.
  - rewrite <-Permutation_middle. by apply submseteq_skip.
  - rewrite <-Permutation_middle. by apply submseteq_cons.
Qed.

Lemma cut_all_blkhd u q p lf : cut_all (set_blkhd u q) p lf = cut_all u p lf.
Proof. done. Qed.

(** What a downgrade does not change blocks still more than the lock it replaces. *)
Lemma blocks_contained lock ov r : lf_id ov = lf_id lock → overlap_case 3 ov lock →
  valid_range ov → valid_range lock →
  lf_type lock ≠ F_UNLCK → downgrade lock ov = false → blocks ov r → blocks lock r.
Proof.
  unfold blocks, overlaps, ends_before, overlap_case, downgrade, valid_range.
  intros Hid Hc ?? Ht Hd (H1 & H2 & H3). split; [congruence|]. split; [lia|].
  destruct (lf_type lock), (lf_type ov); naive_solver.
Qed.

(** What the part of the loop after the lock was linked does. *)
Definition tail_result (p : nat) (tl : list lockf) (lock : lockf) (sp : option lockf) (st : kst)
    (R : list lockf) (r : res (list lockf * lockf * option lockf * kst)) : Prop :=
  ∃ q st', r = Ok (cut_all lock p tl, set_blkhd lock q, sp, st') ∧
    linked (waiters st') (set_blkhd lock q :: cut_all lock p tl ++ R) ∧
    same_requests (waiters st) (waiters st') ∧ nextptr st' = nextptr st ∧
    ∀ id, cnt st' id - uid_count id (cut_all lock p tl) = cnt st id - uid_count id tl.

Lemma lock_eta lock : set_blkhd lock (lf_blkhd lock) = lock.
Proof. by destruct lock. Qed.

Lemma tail_result_untouched p tl lock sp st R : (∀ k, k ∈ tl → ¬ touches lock k) →
  linked (waiters st) (lock :: tl ++ R) → tail_result p tl lock sp st R (Ok (tl, lock, sp, st)).
Proof.
  intros Ht Hl. exists (lf_blkhd lock), st. rewrite cut_all_untouched, lock_eta by done. done.
Qed.

Lemma linked_queue_ok m l k : linked m l → k ∈ l → queue_ok m k.
Proof. intros [? Hq Hd _ _] Hk. split; [by apply Hd|]. intros q Hp. by apply (Hq k q). Qed.

Lemma perm_pick {A} (a : A) sk tl R : (sk ++ a :: tl) ++ R ≡ₚ a :: (sk ++ tl) ++ R.
Proof. by rewrite <-!app_assoc, <-app_comm_cons, <-Permutation_middle. Qed.
Lemma perm_pick2 {A} (x a : A) sk tl R : x :: (sk ++ a :: tl) ++ R ≡ₚ a :: x :: (sk ++ tl) ++ R.
Proof. rewrite perm_pick. apply Permutation_swap. Qed.

Lemma tail_result_cons p sk ov tl lock q sp st st1 R r :
  (∀ k, k ∈ sk → ¬ touches lock k) → cut lock p ov = [] →
  same_requests (waiters st) (waiters st1) → nextptr st1 = nextptr st →
  (∀ id, cnt st1 id = cnt st id - (if decide (lf_uid ov = id) then 1 else 0)) →
  tail_result p tl (set_blkhd lock q) sp st1 (sk ++ R) r →
  tail_result p (sk ++ ov :: tl) lock sp st R
    ('(tl, lock, sp, st) ← r; mret (sk ++ tl, lock, sp, st)).
Proof.
  intros Hsk Hcut Hs Hn Hc (q' & st' & -> & Hl & Hs' & Hn' & Hc'). exists q', st'. csimpl.
  rewrite cut_all_around, Hcut by done. simpl. rewrite cut_all_blkhd in *.
  split; [done|]. split; [|split; [by etrans|split; [congruence|]]].
  - change (set_blkhd lock q') with (set_blkhd (set_blkhd lock q) q').
    by rewrite <-app_assoc, (Permutation_app_comm sk), <-app_assoc, (Permutation_app_comm R).
  - intros id. rewrite !uid_count_app, uid_count_cons. specialize (Hc' id). specialize (Hc id). lia.
Qed.

Lemma addlock_tail p fuel : ∀ tl lock sp st R,
  (length tl < fuel)%nat → list_wf tl → valid_range lock → lf_type lock ≠ F_UNLCK →
  (∀ k, k ∈ tl → lf_id k = lf_id lock → lf_start lock < lf_start k) →
  linked (waiters st) (lock :: tl ++ R) →
  tail_result p tl lock sp st R (lf_addlock fuel false tl lock sp st).
Proof.
  induction fuel as [|fuel IH]; intros tl lock sp st R Hf Hwf Hv Ht Hst Hl; [lia|].
  simpl. rewrite ?s64_end, ?s64_start by done.
  destruct (findoverlap_self tl lock Hv (proj1 Hwf)) as (c & sk & rest & -> & -> & Hsk & Hc).
  pose proof (skipped_untouched lock sk Hsk) as Hsku. csimpl.
  destruct Hc as [[-> Hc]|(ov & tl & -> & Hid & Hc)].
  { apply tail_result_untouched; [|done]. intros k [?|Hk]%elem_of_app; [by apply Hsku|].
    destruct Hc as [->|(ov & tl & -> & Hid & Hb)]; [set_solver|].
    apply list_wf_app in Hwf as (_ & Hwf & _). apply list_wf_cons in Hwf as (? & _ & ?).
    by eapply (beyond_untouched lock ov tl). }
  apply list_wf_app in Hwf as (Hwsk & Hwf & Hskb). apply list_wf_cons in Hwf as (Hvov & Hwtl & Hovb).
  assert (Hov := Hst ov ltac:(set_solver) Hid).
  rewrite length_app in Hf. simpl in Hf.
  assert (Htouch : touches lock ov) by by eapply overlap_touches.
  assert (Hcases := Hc). unfold overlap_case in Hcases.
  destruct Hcases as [[-> H1]|[[-> H2]|[[-> _]|[[-> H4]|[-> _]]]]]; [lia|lia| |lia|]; simpl.
  - destruct (cut_case_gone lock ov p Hv Hvov Hid) as [Hcut _]; [auto|].
    destruct (downgrade lock ov) eqn:Hd; csimpl.
    + rewrite lf_wakelock_spec by (eapply linked_queue_ok; [done|set_solver]). csimpl.
      set (st1 := lf_free _ _).
      assert (Hr : tail_result p tl (set_blkhd lock (lf_blkhd lock)) sp st1 (sk ++ R)
        (lf_addlock fuel false tl lock sp st1)).
      { rewrite lock_eta. apply IH; [lia|done..|set_solver|].
        rewrite perm_pick2 in Hl. apply linked_wake, linked_remove in Hl; [|done].
        by rewrite app_assoc, (Permutation_app_comm tl). }
      eapply (tail_result_cons _ _ ov) in Hr; [exact Hr|done..|apply same_requests_wake|done|].
      intros id. unfold st1. by rewrite cnt_free, cnt_with_waiters.
    + rewrite perm_pick2 in Hl.
      rewrite move_all_spec; [|eapply linked_nodup; [done|set_solver]
        |intros k Hk; eapply linked_queue; [done|set_solver|done]]. csimpl.
      set (st1 := lf_free _ _). set (q := lf_blkhd lock ++ lf_blkhd ov).
      assert (Hr : tail_result p tl (set_blkhd lock q) sp st1 (sk ++ R)
        (lf_addlock fuel false tl (set_blkhd lock q) sp st1)).
      { apply IH; [lia|done..|set_solver|].
        rewrite Permutation_swap in Hl. apply linked_move in Hl; [|intros r; by apply (blocks_contained lock ov)].
        rewrite Permutation_swap in Hl. apply linked_remove in Hl; [|done].
        by rewrite app_assoc, (Permutation_app_comm tl). }
      eapply (tail_result_cons _ _ ov) in Hr; [exact Hr|done..| |done|].
      { apply (same_requests_move _ (lf_ptr ov)). intros k Hk. apply (linked_queue _ _ Hl); set_solver. }
      intros id. unfold st1. by rewrite cnt_free, cnt_with_waiters.
  - destruct (cut_case_right lock ov p Hv Hvov Hid) as [Hcut _]; [auto|].
    assert (Htl := stop_untouched 5 lock ov tl Hc Hid Hv ltac:(lia) ltac:(lia) Hovb).
    rewrite lf_wakelock_spec by (eapply (linked_queue_ok _ _ ov); [done|set_solver]). csimpl.
    exists (lf_blkhd lock), (with_waiters st (wake_map (lf_blkhd ov) (waiters st))).
    rewrite cut_all_around, Hcut, (cut_all_untouched _ _ tl), lock_eta by done.
    split; [done|]. split; [|split; [apply same_requests_wake|split; [done|]]].
    + rewrite perm_pick2 in Hl. apply linked_wake in Hl. simpl. rewrite perm_pick2.
      eapply linked_change; [..|exact Hl]; done.
    + intros id. simpl. by rewrite !uid_count_app, !uid_count_cons, cnt_with_waiters.
Qed.

(** ** The list with the new lock in it *)

Definition inserted (lock : lockf) (p : nat) (lf l' : list lockf) : Prop :=
  (∃ l1 l2 k, l' = l1 ++ k :: l2 ∧ l1 ++ l2 = cut_all lock p lf ∧
     lf_id k = lf_id lock ∧ lf_start k = lf_start lock ∧ lf_end k = lf_end lock ∧
     lf_type k = lf_type lock ∧
     (∀ x, x ∈ l1 → lf_id x = lf_id lock → lf_start x < lf_start lock) ∧
     (∀ y, y ∈ l2 → lf_id y = lf_id lock → lf_start lock ≤ lf_start y)) ∨
  (l' = lf ∧ ∃ k, k ∈ lf ∧ lf_id k = lf_id lock ∧ lf_type k = lf_type lock ∧
     overlap_case 2 k lock).

Lemma cut_all_apart u p lf k : valid_range u → Forall valid_range lf → k ∈ cut_all u p lf →
  lf_id k = lf_id u → ends_before k u ∨ ends_before u k.
Proof.
  intros Hu Hlf Hk Hid. destruct (decide (ends_before k u)) as [|H1]; [by left|].
  destruct (decide (ends_before u k)) as [|H2]; [by right|exfalso].
  destruct (cut_all_part u p lf k Hu Hlf Hk) as (_ & _ & _ & Hv).
  assert (Hh : holds (cut_all u p lf) (lf_id k) (lf_start u `max` lf_start k) (lf_type k)).
  { exists k. split; [done|]. unfold in_range, ends_before, valid_range in *. split_and!; [done|lia|lia|done]. }
  apply cut_all_holds in Hh as [_ Hh]; [|done..]. apply Hh. split; [done|].
  unfold in_range, ends_before, valid_range in *. lia.
Qed.

Lemma inserted_wf lock p lf l' : list_wf lf → valid_range lock → inserted lock p lf l' → list_wf l'.
Proof.
  intros Hwf Hv [(l1 & l2 & k & -> & Hc & Hid & Hs & He & _ & H1 & H2)|(-> & _)]; [|done].
  pose proof (cut_all_wf lock p lf Hv Hwf) as Hw. rewrite <-Hc in Hw.
  apply list_wf_app in Hw as (Hw1 & Hw2 & Hb).
  assert (Hap : ∀ x, x ∈ l1 ++ l2 → lf_id x = lf_id lock →
    (ends_before x lock ∨ ends_before lock x) ∧ valid_range x).
  { intros x Hx Hidx. rewrite Hc in Hx.
    destruct (cut_all_part lock p lf x Hv (proj1 Hwf) Hx) as (_ & _ & _ & ?).
    split; [|done]. by eapply cut_all_apart; [|apply Hwf|..]. }
  assert (Hvk : valid_range k) by (unfold valid_range in *; lia).
  apply list_wf_app. split_and!; [done| |].
  - apply list_wf_cons. split_and!; [done|done|]. intros y Hy Hidy.
    destruct (Hap y) as [Ha Hvy]; [set_solver|congruence|]. specialize (H2 y Hy ltac:(congruence)).
    unfold ends_before, valid_range in *. lia.
  - intros x y Hx [->|Hy]%elem_of_cons; [|by apply Hb]. intros Hidx.
    destruct (Hap x) as [Ha Hvy]; [set_solver|congruence|]. specialize (H1 x Hx ltac:(congruence)).
    unfold ends_before, valid_range in *. lia.
Qed.

Lemma inserted_holds lock p lf l' id b t : list_wf lf → valid_range lock → inserted lock p lf l' →
  holds l' id b t ↔ (id = lf_id lock ∧ in_range lock b ∧ t = lf_type lock) ∨
                    (holds lf id b t ∧ ¬ (id = lf_id lock ∧ in_range lock b)).
Proof.
  intros Hwf Hv [(l1 & l2 & k & -> & Hc & Hid & Hs & He & Ht & _)|(-> & k & Hk & Hid & Ht & Hc)].
  - rewrite <-(cut_all_holds lock p lf) by (done || apply Hwf). rewrite <-Hc, !holds_app, holds_cons.
    unfold in_range. rewrite Hid, Hs, He, Ht. naive_solver.
  - destruct (decide (id = lf_id lock ∧ in_range lock b)) as [[-> Hr]|]; [|naive_solver].
    assert (Hr' : in_range k b) by (unfold in_range, overlap_case in *; lia).
    assert (Hh : holds lf (lf_id lock) b (lf_type lock)) by by exists k.
    rewrite <-held_holds in Hh |- * by done. rewrite Hh. naive_solver.
Qed.

(** Everything about a lock that was added. *)
Definition add_result (lf : list lockf) (lock : lockf) (sp : option lockf) (st : kst) (R : list lockf)
    (r : res (list lockf * lockf * option lockf * kst)) : Prop :=
  ∃ l' lk sp' st', r = Ok (l', lk, sp', st') ∧ inserted lock (from_option lf_ptr O sp) lf l' ∧
    linked (waiters st') (l' ++ R) ∧ same_requests (waiters st) (waiters st') ∧
    nextptr st' = nextptr st ∧ (sp' = sp ∨ sp' = None) ∧
    (lf_ptr <$> l' ++ option_list sp') ⊆+ (lf_ptr <$> lock :: lf ++ option_list sp) ∧
    (same_uid lock sp lf → ∀ id,
       cnt st' id - uid_count id (l' ++ option_list sp') =
       cnt st id - uid_count id (lock :: lf ++ option_list sp)).

Lemma needs_spare_some u sp lf : list_wf lf → valid_range u → spare_ok u sp →
  cut_needs_spare u lf = true → ∃ s, sp = Some s.
Proof.
  intros [Hwf _] Hu Hsp (k & Hk & Hb)%existsb_exists. rewrite Forall_forall in Hwf.
  specialize (Hwf k ltac:(by apply list_elem_of_In)). unfold cut_left, cut_right, valid_range in *.
  apply (spare_ok_split u sp); [done|lia|lia].
Qed.

Lemma add_result_link lf lock sp st R l1 l2 lk q st' :
  list_wf lf → valid_range lock → spare_ok lock sp →
  l1 ++ l2 = cut_all lock (from_option lf_ptr O sp) lf →
  (∀ x, x ∈ l1 → lf_id x = lf_id lock → lf_start x < lf_start lock) →
  (∀ y, y ∈ l2 → lf_id y = lf_id lock → lf_start lock ≤ lf_start y) →
  linked (waiters st') (set_blkhd lock q :: (l1 ++ l2) ++ R) →
  same_requests (waiters st) (waiters st') → nextptr st' = nextptr st →
  (same_uid lock sp lf → ∀ id,
     cnt st' id - uid_count id (l1 ++ l2)
       - uid_count id (option_list (if cut_needs_spare lock lf then None else sp)) =
     cnt st id - uid_count id lf - uid_count id (option_list sp)) →
  add_result lf lock sp st R
    (Ok (l1 ++ set_blkhd lock q :: l2, lk, if cut_needs_spare lock lf then None else sp, st')).
Proof.
  intros Hwf Hv Hsp Hc H1 H2 Hl Hs Hn Hcnt.
  eexists _, lk, _, st'. split; [done|]. split; [|split; [|split; [done|split; [done|split; [|split]]]]].
  - left. by exists l1, l2, (set_blkhd lock q).
  - by rewrite perm_pick.
  - destruct (cut_needs_spare lock lf); auto.
  - pose proof (cut_all_ptrs lock (from_option lf_ptr O sp) lf Hwf Hv) as Hp. rewrite <-Hc in Hp.
    rewrite (perm_pick (set_blkhd lock q)), fmap_cons, (fmap_cons _ lock). simpl. apply submseteq_skip.
    rewrite !fmap_app in Hp |- *. destruct (cut_needs_spare lock lf) eqn:E.
    + destruct (needs_spare_some lock sp lf) as [s ->]; [done..|]. simpl in *.
      by rewrite app_nil_r, !fmap_app, (Permutation_app_comm (lf_ptr <$> lf)).
    + simpl in Hp. rewrite !fmap_app. by apply submseteq_app.
  - intros Hu id. specialize (Hcnt Hu id).
    rewrite !uid_count_app, !uid_count_cons, !uid_count_app in *. simpl. lia.
Qed.

(** The lock found stands on the wanted sides of the new one. *)
Lemma skipped_start (lock : lockf) (sk : list lockf) : valid_range lock → list_wf sk →
  (∀ k, k ∈ sk → lf_id k = lf_id lock → ends_before k lock) →
  ∀ x, x ∈ sk → lf_id x = lf_id lock → lf_start x < lf_start lock.
Proof.
  intros Hv [Hw _] H x Hx Hid. destruct (H x Hx Hid). rewrite Forall_forall in Hw.
  specialize (Hw x Hx). unfold valid_range in *. lia.
Qed.
Lemma rest_start c (lock ov : lockf) (tl : list lockf) p : valid_range lock → valid_range ov →
  list_wf tl → lf_id ov = lf_id lock → overlap_case c ov lock → (∀ y, y ∈ tl → before ov y) →
  ∀ y, y ∈ cut_all lock p tl → lf_id y = lf_id lock → lf_start lock ≤ lf_start y.
Proof.
  intros Hv Hvo [Hwf _] Hid Hc Hb y Hy Hidy.
  destruct (cut_all_part lock p tl y Hv Hwf Hy) as (k & Hk & (Hidk & Hs & _) & _).
  destruct (Hb k Hk); [congruence|]. unfold overlap_case, valid_range in *. lia.
Qed.

Lemma needs_spare_tail (lock : lockf) (tl : list lockf) :
  (∀ y, y ∈ tl → lf_id y = lf_id lock → lf_start lock < lf_start y) → cut_needs_spare lock tl = false.
Proof.
  intros H. apply not_true_iff_false. intros (k & Hk & Hb)%existsb_exists.
  apply andb_true_iff in Hb as [[Ht Hlt]%andb_true_iff _]. apply bool_decide_eq_true in Ht as [Hid _].
  apply list_elem_of_In in Hk. specialize (H k Hk Hid). unfold cut_left in Hlt. lia.
Qed.

(** One lemma for each case of the switch. *)
Section add_cases.
Context (lock ov : lockf) (sk tl : list lockf) (sp : option lockf) (st : kst) (R : list lockf).
Context (Hwf : list_wf (sk ++ ov :: tl)) (Hv : valid_range lock) (Ht : lf_type lock ≠ F_UNLCK)
  (Hbl : lf_blkhd lock = []) (Hsp : spare_ok lock sp)
  (Hfresh : ∀ s, sp = Some s → lf_ptr s ∉ (lf_ptr <$> lock :: (sk ++ ov :: tl) ++ R))
  (Hl : linked (waiters st) (lock :: (sk ++ ov :: tl) ++ R))
  (Hsk : ∀ k, k ∈ sk → lf_id k = lf_id lock → ends_before k lock)
  (Hid : lf_id ov = lf_id lock).
Let p := from_option lf_ptr O sp.

Lemma add_facts : valid_range ov ∧ list_wf sk ∧ list_wf tl ∧ (∀ y, y ∈ tl → before ov y) ∧
  queue_ok (waiters st) ov ∧ (∀ k, k ∈ sk → ¬ touches lock k) ∧
  (∀ x, x ∈ sk → lf_id x = lf_id lock → lf_start x < lf_start lock).
Proof using All.
  pose proof Hwf as Hwf'. apply list_wf_app in Hwf' as (? & Hwf' & _).
  apply list_wf_cons in Hwf' as (? & ? & ?).
  split_and!; try done; [|by apply skipped_untouched|by apply skipped_start].
  eapply linked_queue_ok; [apply Hl|set_solver].
Qed.

(** [linked] with the lock found in front, its queue woken. *)
Lemma linked_ov : linked (wake_map (lf_blkhd ov) (waiters st)) (set_blkhd ov [] :: lock :: (sk ++ tl) ++ R).
Proof using All. apply linked_wake. by rewrite <-perm_pick2. Qed.

Lemma add_case_5 : overlap_case 5 ov lock ∨ (overlap_case 2 ov lock ∧ lf_start ov = lf_start lock) →
  (∀ k, k ∈ tl → ¬ touches lock k) →
  add_result (sk ++ ov :: tl) lock sp st R
    ('(overlap, st) ← lf_wakelock (set_start ov (lf_end lock + 1)) st;
     mret (sk ++ lock :: overlap :: tl, lock, sp, st)).
Proof using All.
  intros Hc Htl. destruct add_facts as (Hvov & Hwsk & Hwtl & Hb & Hq & Hsku & Hsks).
  destruct (cut_case_right lock ov p Hv Hvov Hid Hc) as [Hcut Hlr].
  assert (Htouch : touches lock ov) by (destruct Hc as [?|[? _]]; by eapply overlap_touches).
  rewrite lf_wakelock_spec by done. csimpl.
  assert (Hca : cut_all lock p (sk ++ ov :: tl) = sk ++ right_piece lock ov (lf_ptr ov) :: tl).
  { by rewrite cut_all_around, Hcut, (cut_all_untouched _ _ tl). }
  assert (Hns : cut_needs_spare lock (sk ++ ov :: tl) = false).
  { by rewrite needs_spare_around, Hlr, needs_spare_untouched. }
  pose proof (add_result_link (sk ++ ov :: tl) lock sp st R sk
    (right_piece lock ov (lf_ptr ov) :: tl) lock []
    (with_waiters st (wake_map (lf_blkhd ov) (waiters st)))) as Hr.
  rewrite Hns in Hr. rewrite <-Hbl, lock_eta in Hr.
  apply Hr; clear Hr; try done; [..|apply same_requests_wake|].
  - intros y [->|Hy]%elem_of_cons Hidy; simpl.
    + destruct Hc as [Hc|[Hc _]]; unfold overlap_case, valid_range in *; lia.
    + destruct (Hb y Hy); [congruence|]. unfold valid_range in *.
      destruct Hc as [Hc|[Hc _]]; unfold overlap_case in *; lia.
  - rewrite perm_pick2. eapply linked_change; [..|apply linked_ov]; done.
  - intros _ id. rewrite !uid_count_app, !uid_count_cons, cnt_with_waiters. done.
Qed.

(** What remains when the new lock is linked and the loop goes on with [tl]. *)
Lemma add_after_tail l0 q0 st1 r : sk ++ cut lock p ov = l0 →
  touches lock ov → cut_left lock ov && cut_right lock ov = false →
  (∀ x, x ∈ l0 → lf_id x = lf_id lock → lf_start x < lf_start lock) →
  (∀ y, y ∈ tl → lf_id y = lf_id lock → lf_start lock < lf_start y) →
  same_requests (waiters st) (waiters st1) → nextptr st1 = nextptr st →
  (∀ id, cnt st1 id - uid_count id l0 = cnt st id - uid_count id (sk ++ [ov])) →
  tail_result p tl (set_blkhd lock q0) sp st1 (l0 ++ R) r →
  add_result (sk ++ ov :: tl) lock sp st R
    ('(tl, lock, sp, st) ← r; mret (l0 ++ lock :: tl, lock, sp, st)).
Proof using All.
  intros Hl0 Htouch Hlr Hleft Htl Hs Hn Hc (q & st' & -> & Hl' & Hs' & Hn' & Hc'). csimpl.
  destruct add_facts as (Hvov & Hwsk & Hwtl & Hb & Hq & Hsku & Hsks).
  assert (Hca : cut_all lock p (sk ++ ov :: tl) = l0 ++ cut_all lock p tl).
  { by rewrite cut_all_around, app_assoc, Hl0. }
  assert (Hns : cut_needs_spare lock (sk ++ ov :: tl) = false).
  { rewrite needs_spare_around, Hlr by done. simpl. by apply needs_spare_tail. }
  rewrite !cut_all_blkhd in *.
  pose proof (add_result_link (sk ++ ov :: tl) lock sp st R l0 (cut_all lock p tl)
    (set_blkhd lock q) q st') as Hr.
  rewrite Hns in Hr. apply Hr; clear Hr; try done; [|..|by etrans|by rewrite Hn'|].
  - intros y Hy Hidy. destruct (cut_all_part lock p tl y Hv (proj1 Hwtl) Hy) as (k & Hk & (Hidk & ? & _) & _).
    specialize (Htl k Hk ltac:(congruence)). lia.
  - by rewrite <-app_assoc, (Permutation_app_comm l0), <-app_assoc, (Permutation_app_comm R).
  - intros _ id. specialize (Hc id). specialize (Hc' id).
    rewrite !uid_count_app, !uid_count_cons, uid_count_nil in *. lia.
Qed.

Lemma add_case_4 fuel : (length tl < fuel)%nat → overlap_case 4 ov lock →
  add_result (sk ++ ov :: tl) lock sp st R
    ('(overlap, st) ← lf_wakelock (set_end ov (lf_start lock - 1)) st;
     '(tl, lock, sp, st) ← lf_addlock fuel false tl lock sp st;
     mret (sk ++ overlap :: lock :: tl, lock, sp, st)).
Proof using All.
  intros Hf Hc. destruct add_facts as (Hvov & Hwsk & Hwtl & Hb & Hq & Hsku & Hsks).
  destruct (cut_case_left lock ov p Hv Hvov Hid Hc) as [Hcut Hlr].
  assert (Htouch : touches lock ov) by by eapply overlap_touches.
  rewrite lf_wakelock_spec by done. csimpl. set (st1 := with_waiters _ _).
  assert (Hst : ∀ y, y ∈ tl → lf_id y = lf_id lock → lf_start lock < lf_start y).
  { intros y Hy Hidy. destruct (Hb y Hy); [congruence|]. unfold overlap_case, valid_range in *. lia. }
  assert (Htr : tail_result p tl (set_blkhd lock []) sp st1 ((sk ++ [left_piece lock ov]) ++ R)
    (lf_addlock fuel false tl lock sp st1)).
  { rewrite <-Hbl, lock_eta. apply addlock_tail; try done. rewrite <-app_assoc.
    rewrite app_assoc, (Permutation_app_comm tl), app_comm_cons.
    change ([left_piece lock ov] ++ R) with (left_piece lock ov :: R). rewrite <-Permutation_middle.
    eapply linked_change; [..|apply linked_ov]; done. }
  eapply add_after_tail in Htr; [|by rewrite Hcut|done..| | |apply same_requests_wake|done|].
  - destruct (lf_addlock fuel false tl lock sp st1) as [r|e]; [destruct r as [[[? ?] ?] ?]|done].
    csimpl in *. by rewrite <-app_assoc in Htr.
  - intros x [Hx| ->%list_elem_of_singleton]%elem_of_app Hidx; [by apply Hsks|]. simpl.
    unfold overlap_case in Hc. lia.
  - done.
  - intros id. unfold st1. by rewrite !uid_count_app, !uid_count_cons, cnt_with_waiters.
Qed.

Lemma add_case_3 fuel : (length tl < fuel)%nat → overlap_case 3 ov lock →
  add_result (sk ++ ov :: tl) lock sp st R
    ('(lock, overlap, st) ←
       (if downgrade lock ov then
          '(overlap, st) ← lf_wakelock ov st; mret (lock, overlap, st)
        else
          st ← move_all (lf_blkhd ov) (lf_ptr ov) (lf_ptr lock) st;
          mret (set_blkhd lock (lf_blkhd lock ++ lf_blkhd ov), set_blkhd ov [], st));
     '(tl, lock, sp, st) ← lf_addlock fuel false tl lock sp (lf_free overlap st);
     mret (sk ++ lock :: tl, lock, sp, st)).
Proof using All.
  intros Hf Hc. destruct add_facts as (Hvov & Hwsk & Hwtl & Hb & Hq & Hsku & Hsks).
  destruct (cut_case_gone lock ov p Hv Hvov Hid) as [Hcut Hlr]; [by right|].
  assert (Htouch : touches lock ov) by by eapply overlap_touches.
  assert (Hst : ∀ y, y ∈ tl → lf_id y = lf_id lock → lf_start lock < lf_start y).
  { intros y Hy Hidy. destruct (Hb y Hy); [congruence|]. unfold overlap_case, valid_range in *. lia. }
  pose proof Hl as Hl0. rewrite perm_pick2 in Hl0. destruct (downgrade lock ov) eqn:Hd.
  - rewrite lf_wakelock_spec by done. csimpl. set (st1 := lf_free _ _).
    eapply (add_after_tail sk (lf_blkhd lock) st1); try done; [by rewrite Hcut, app_nil_r|apply same_requests_wake| |].
    + intros id. unfold st1. rewrite cnt_free, uid_count_app, uid_count_cons, uid_count_nil, cnt_with_waiters.
      simpl. lia.
    + rewrite lock_eta. apply addlock_tail; try done.
      rewrite app_assoc, (Permutation_app_comm tl). eapply linked_remove; [|apply linked_ov]. done.
  - rewrite move_all_spec; [|apply Hq..]. csimpl. set (st1 := lf_free _ _).
    eapply (add_after_tail sk (lf_blkhd lock ++ lf_blkhd ov) st1); try done;
      [by rewrite Hcut, app_nil_r|apply (same_requests_move _ (lf_ptr ov)), Hq| |].
    + intros id. unfold st1. rewrite cnt_free, uid_count_app, uid_count_cons, uid_count_nil, cnt_with_waiters.
      simpl. lia.
    + apply addlock_tail; try done. rewrite app_assoc, (Permutation_app_comm tl).
      rewrite Permutation_swap in Hl0. apply linked_move in Hl0; [|intros r; by apply (blocks_contained lock ov)].
      rewrite Permutation_swap in Hl0. by apply linked_remove in Hl0.
Qed.

Lemma add_case_1 : overlap_case 1 ov lock →
  add_result (sk ++ ov :: tl) lock sp st R
    ('(overlap, st) ← (if downgrade lock ov then lf_wakelock ov st else mret (ov, st));
     let overlap := set_type overlap (lf_type lock) in
     mret (sk ++ overlap :: tl, overlap, sp, lf_free lock st)).
Proof using All.
  intros Hc. destruct add_facts as (Hvov & Hwsk & Hwtl & Hb & Hq & Hsku & Hsks).
  destruct (cut_case_gone lock ov p Hv Hvov Hid) as [Hcut Hlr]; [by left|].
  assert (Htouch : touches lock ov) by by eapply overlap_touches.
  assert (Htl := stop_untouched 1 lock ov tl Hc Hid Hv ltac:(lia) ltac:(lia) Hb).
  assert (Hres : ∀ q st1, same_requests (waiters st) (waiters st1) → nextptr st1 = nextptr st →
    (∀ id, cnt st1 id = cnt st id) →
    linked (waiters st1) (set_blkhd (set_type ov (lf_type lock)) q :: (sk ++ tl) ++ R) →
    add_result (sk ++ ov :: tl) lock sp st R
      (Ok (sk ++ set_blkhd (set_type ov (lf_type lock)) q :: tl,
           set_blkhd (set_type ov (lf_type lock)) q, sp, lf_free lock st1))).
  { intros q st1 Hs Hn Hcn Hl1. eexists _, _, _, _. split; [done|]. split; [left|].
    { exists sk, tl, (set_blkhd (set_type ov (lf_type lock)) q).
      fold p. rewrite cut_all_around, Hcut, (cut_all_untouched _ _ tl) by done.
      unfold overlap_case in Hc. split_and!; try done; [simpl; lia..|].
      intros y Hy Hidy. destruct (Hb y Hy); [congruence|]. unfold valid_range in *. lia. }
    split; [by rewrite perm_pick|]. split_and!; [done|done|auto| |].
    - csimpl. rewrite !fmap_app. csimpl. by apply submseteq_cons.
    - intros _ id. rewrite cnt_free, Hcn, !uid_count_cons, !uid_count_app, !uid_count_cons. simpl. lia. }
  pose proof Hl as Hl0. rewrite perm_pick2 in Hl0. destruct (downgrade lock ov) eqn:Hd.
  - rewrite lf_wakelock_spec by done. csimpl.
    apply (Hres []); [apply same_requests_wake|done|done|].
    eapply linked_change; [..|eapply linked_remove; [|rewrite Permutation_swap; apply linked_ov]]; done.
  - csimpl. pose proof (Hres (lf_blkhd ov) st) as Hr.
    change (set_blkhd (set_type ov (lf_type lock)) (lf_blkhd ov)) with
      (set_type (set_blkhd ov (lf_blkhd ov)) (lf_type lock)) in Hr. rewrite lock_eta in Hr.
    apply Hr; try done. rewrite Permutation_swap in Hl0. apply linked_remove in Hl0; [|done].
    eapply linked_grow; [..|exact Hl0]; [done..|]. intros r (H1 & H2 & H3). split; [done|].
    split; [done|]. simpl. unfold downgrade in Hd. destruct (lf_type lock), (lf_type ov); naive_solver.
Qed.

Lemma add_case_2_same : overlap_case 2 ov lock → lf_type ov = lf_type lock →
  add_result (sk ++ ov :: tl) lock sp st R (Ok (sk ++ ov :: tl, ov, sp, lf_free lock st)).
Proof using All.
  intros Hc Hty. eexists _, _, _, _. split; [done|]. split.
  { right. split; [done|]. exists ov. split_and!; [set_solver|done..]. }
  split; [eapply linked_remove; [|exact Hl]; done|]. split_and!; [done|done|auto| |].
  - csimpl. by apply submseteq_cons.
  - intros _ id. rewrite cnt_free, !uid_count_cons. lia.
Qed.

Lemma add_case_2_split : overlap_case 2 ov lock → lf_start ov ≠ lf_start lock →
  add_result (sk ++ ov :: tl) lock sp st R
    ('(overlap, next1, _, sp) ← lf_split ov lock tl sp;
     '(overlap, st) ← lf_wakelock overlap st;
     mret (sk ++ overlap :: next1, lock, sp, st)).
Proof using All.
  intros Hc Hs. destruct add_facts as (Hvov & Hwsk & Hwtl & Hb & Hq & Hsku & Hsks).
  assert (Htouch : touches lock ov) by by eapply overlap_touches.
  assert (Htl := stop_untouched 2 lock ov tl Hc Hid Hv ltac:(lia) ltac:(lia) Hb).
  assert (Hleft : ∀ x, x ∈ sk ++ [left_piece lock ov] → lf_id x = lf_id lock →
    lf_start x < lf_start lock).
  { intros x [Hx| ->%list_elem_of_singleton]%elem_of_app Hidx; [by apply Hsks|]. simpl.
    unfold overlap_case in Hc. lia. }
  assert (Hright : ∀ y, y ∈ tl → lf_id y = lf_id lock → lf_start lock ≤ lf_start y).
  { intros y Hy Hidy. destruct (Hb y Hy); [congruence|]. unfold overlap_case, valid_range in *. lia. }
  assert (Hl1 : linked (wake_map (lf_blkhd ov) (waiters st))
    (lock :: ((sk ++ [left_piece lock ov]) ++ tl) ++ R)).
  { rewrite <-(app_assoc sk). simpl. rewrite perm_pick2. eapply linked_change; [..|apply linked_ov]; done. }
  assert (Hassoc : ∀ l, sk ++ set_blkhd (set_end ov (lf_start lock - 1)) [] :: l =
    (sk ++ [left_piece lock ov]) ++ l) by (intros; by rewrite <-app_assoc).
  unfold lf_split. rewrite ?s64_end, ?s64_start, (proj2 (Z.eqb_neq _ _) Hs) by done.
  destruct (Z.eqb_spec (lf_end ov) (lf_end lock)) as [He|He]; csimpl.
  - destruct (cut_case_end lock ov p Hv Hvov Hid) as [Hcut Hlr]; [done..|].
    rewrite lf_wakelock_spec by done. csimpl.
    pose proof (add_result_link (sk ++ ov :: tl) lock sp st R (sk ++ [left_piece lock ov]) tl lock []
      (with_waiters st (wake_map (lf_blkhd ov) (waiters st)))) as Hr.
    rewrite needs_spare_around, Hlr, needs_spare_untouched in Hr by done.
    rewrite <-Hbl, lock_eta in Hr. rewrite Hassoc.
    apply Hr; clear Hr; try done; [|apply same_requests_wake|].
    + fold p. by rewrite cut_all_around, Hcut, (cut_all_untouched _ _ tl), <-app_assoc.
    + intros _ id. rewrite <-app_assoc. rewrite !uid_count_app, !uid_count_cons, uid_count_nil, cnt_with_waiters. simpl. lia.
  - destruct (cut_case_split lock ov p Hv Hvov Hid) as (Hcut & Hlr & ? & ?); [done..|].
    destruct (spare_ok_split lock sp) as [s Hsps]; [done..|].
    assert (Hps : p = lf_ptr s) by (unfold p; by rewrite Hsps). rewrite Hps in Hcut.
    pose proof (add_result_link (sk ++ ov :: tl) lock sp st R (sk ++ [left_piece lock ov])
      (right_piece lock ov (lf_ptr s) :: tl) lock []
      (with_waiters st (wake_map (lf_blkhd ov) (waiters st)))) as Hr.
    rewrite needs_spare_around, Hlr in Hr by done. rewrite Hsps in Hr |- *. csimpl.
    rewrite lf_wakelock_spec by done. csimpl.
    rewrite <-Hbl, lock_eta in Hr. rewrite Hassoc. rewrite Hsps in Hsp.
    apply Hr; clear Hr; try done; [| | |apply same_requests_wake|].
    + change (from_option lf_ptr O (Some s)) with (lf_ptr s). by rewrite cut_all_around, Hcut, (cut_all_untouched _ _ tl), <-app_assoc.
    + intros y [->|Hy]%elem_of_cons Hidy; [simpl; unfold valid_range in *; lia|auto].
    + rewrite perm_pick2. apply linked_add; [done| |done].
      specialize (Hfresh s Hsps). simpl. rewrite !fmap_cons, !fmap_app in *. csimpl. set_solver.
    + intros Hsame id. rewrite <-app_assoc. rewrite !uid_count_app, !uid_count_cons, cnt_with_waiters.
      simpl. rewrite !uid_count_cons, !uid_count_nil. simpl.
      rewrite (Hsame s ov) by (done || set_solver). lia.
Qed.
End add_cases.

Lemma lf_addlock_spec fuel lf lock sp st R :
  (length lf < fuel)%nat → list_wf lf → valid_range lock → lf_type lock ≠ F_UNLCK →
  lf_blkhd lock = [] → spare_ok lock sp →
  (∀ s, sp = Some s → lf_ptr s ∉ (lf_ptr <$> lock :: lf ++ R)) →
  linked (waiters st) (lock :: lf ++ R) →
  add_result lf lock sp st R (lf_addlock fuel true lf lock sp st).
Proof.
  intros Hf Hwf Hv Ht Hbl Hsp Hfresh Hl. destruct fuel as [|fuel]; [lia|].
  simpl. rewrite ?s64_end, ?s64_start by done.
  destruct (findoverlap_self lf lock Hv (proj1 Hwf)) as (c & sk & rest & -> & -> & Hsk & Hc).
  pose proof (skipped_untouched lock sk Hsk) as Hsku. csimpl.
  destruct Hc as [[-> Hc]|(ov & tl & -> & Hid & Hc)].
  { assert (Hut : ∀ k, k ∈ sk ++ rest → ¬ touches lock k).
    { intros k [?|Hk]%elem_of_app; [by apply Hsku|].
      destruct Hc as [->|(ov & tl & -> & Hid & Hb)]; [set_solver|].
      apply list_wf_app in Hwf as (_ & Hwf & _). apply list_wf_cons in Hwf as (? & _ & ?).
      by eapply (beyond_untouched lock ov tl). }
    pose proof (add_result_link (sk ++ rest) lock sp st R sk rest lock [] st) as Hr.
    rewrite needs_spare_untouched, <-Hbl, lock_eta in Hr by done.
    apply list_wf_app in Hwf as Hwf'. destruct Hwf' as (Hwsk & Hwr & _).
    apply Hr; try done; [by rewrite cut_all_untouched|by apply skipped_start|].
    intros y Hy Hid. destruct Hc as [->|(ov & tl & -> & Hido & Hb)]; [set_solver|].
    apply list_wf_cons in Hwr as (Hvo & _ & Hbo). apply elem_of_cons in Hy as [->|Hy].
    - unfold ends_before, valid_range in *. lia.
    - destruct (Hbo y Hy); [congruence|]. unfold ends_before, valid_range in *. lia. }
  rewrite length_app in Hf. simpl in Hf. assert (Hcases := Hc). unfold overlap_case in Hcases.
  destruct Hcases as [[-> _]|[[-> H2]|[[-> _]|[[-> _]|[-> _]]]]]; simpl.
  - by apply add_case_1.
  - case_bool_decide; [by apply add_case_2_same|].
    destruct (Z.eqb_spec (lf_start ov) (lf_start lock)).
    + apply add_case_5; try done; [by right|].
      apply list_wf_app in Hwf as (_ & Hwf & _). apply list_wf_cons in Hwf as (? & ? & ?).
      by eapply (stop_untouched 2).
    + by apply add_case_2_split.
  - apply (add_case_3 lock ov sk tl sp st R); try done; lia.
  - apply (add_case_4 lock ov sk tl sp st R); try done; lia.
  - apply add_case_5; try done; [by left|].
    apply list_wf_app in Hwf as (_ & Hwf & _). apply list_wf_cons in Hwf as (? & ? & ?).
    by eapply (stop_untouched 5).
Qed.
