(* ===== verification/LockfSys.v ===== *)
(** * The lock manager as a whole: its invariant, and what its entry points do

    [sys_ok] is the invariant of the state between two calls.  Each entry point
    preserves it and returns: no KASSERT fires, no structure is used after it
    was freed, no loop runs out of fuel. *)

From S2P Require Export LockfAdd.

(** ** The search for a lock that blocks *)

Lemma findoverlap_others lf lock : valid_range lock → Forall valid_range lf →
  ∃ c sk rest, lf_findoverlap lf lock OTHERS = Ok (c, sk, rest) ∧ lf = sk ++ rest ∧
    (∀ k, k ∈ sk → lf_id k ≠ lf_id lock → ¬ overlaps k lock) ∧
    ((c = 0 ∧ rest = []) ∨
     (c ≠ 0 ∧ ∃ ov tl, rest = ov :: tl ∧ lf_id ov ≠ lf_id lock ∧ overlaps ov lock)).
Proof.
  intros Hv Hlf. induction Hlf as [|l lf Hl Hlf IH]; simpl.
  - exists 0, [], []. split_and!; [done|done|set_solver|auto].
  - assert (Hskip : (lf_id l ≠ lf_id lock → ¬ overlaps l lock) →
      ∃ c sk rest, ('(c, skipped, rest) ← lf_findoverlap lf lock OTHERS;
                    mret (c, l :: skipped, rest)) = Ok (c, sk, rest) ∧ l :: lf = sk ++ rest ∧
        (∀ k, k ∈ sk → lf_id k ≠ lf_id lock → ¬ overlaps k lock) ∧
        ((c = 0 ∧ rest = []) ∨
         (c ≠ 0 ∧ ∃ ov tl, rest = ov :: tl ∧ lf_id ov ≠ lf_id lock ∧ overlaps ov lock))).
    { intros Hb. destruct IH as (c & sk & rest & -> & -> & Hsk & Hc). exists c, (l :: sk), rest.
      split_and!; [done|done| |done]. intros k [->|?]%elem_of_cons; auto. }
    assert (Hstop : ∀ c, c ≠ 0 → lf_id l ≠ lf_id lock → overlaps l lock →
      ∃ c' sk rest, Ok (c, [], l :: lf) = Ok (c', sk, rest) ∧ l :: lf = sk ++ rest ∧
        (∀ k, k ∈ sk → lf_id k ≠ lf_id lock → ¬ overlaps k lock) ∧
        ((c' = 0 ∧ rest = []) ∨
         (c' ≠ 0 ∧ ∃ ov tl, rest = ov :: tl ∧ lf_id ov ≠ lf_id lock ∧ overlaps ov lock))).
    { intros c Hc Hid Ho. exists c, [], (l :: lf). split_and!; [done|done|set_solver|].
      right. split; [done|]. by eexists _, _. }
    destruct (Z.eqb_spec (lf_id l) (lf_id lock)) as [Hid|]; simpl; [by apply Hskip|].
    unfold overlaps, ends_before, valid_range in *.
    repeat case_bool; zbool;
      first [apply Hskip; lia | apply Hstop; [lia|done|lia] | exfalso; lia].
Qed.

(** The first lock that blocks, or none does. *)
Definition getblock_result (lf : list lockf) (lock : lockf) (r : option lockf) : Prop :=
  match r with
  | None => ∀ k, k ∈ lf → ¬ blocks k lock
  | Some b => ∃ l1 l2, lf = l1 ++ b :: l2 ∧ blocks b lock ∧ ∀ k, k ∈ l1 → ¬ blocks k lock
  end.

Lemma getblock_spec fuel : ∀ lf lock, (length lf < fuel)%nat → valid_range lock →
  Forall valid_range lf → ∃ r, lf_getblock fuel lf lock = Ok r ∧ getblock_result lf lock r.
Proof.
  induction fuel as [|fuel IH]; intros lf lock Hf Hv Hlf; [lia|]. simpl.
  destruct (findoverlap_others lf lock Hv Hlf) as (c & sk & rest & -> & -> & Hsk & Hc). csimpl.
  assert (Hskb : ∀ k, k ∈ sk → ¬ blocks k lock).
  { intros k Hk (H1 & H2 & _). by apply (Hsk k). }
  destruct Hc as [[-> ->]|(Hc & ov & tl & -> & Hid & Hov)].
  { exists None. split; [done|]. by rewrite app_nil_r. }
  rewrite (proj2 (Z.eqb_neq _ _) Hc). case_bool.
  - exists (Some ov). split; [done|]. exists sk, tl. split; [done|]. split; [|done].
    split; [done|]. split; [done|]. apply orb_true_iff in Heqb.
    destruct Heqb as [H%bool_decide_eq_true|H%bool_decide_eq_true]; auto.
  - apply orb_false_iff in Heqb as [H1%bool_decide_eq_false H2%bool_decide_eq_false].
    assert (Hovb : ¬ blocks ov lock) by (intros (_ & _ & ?); naive_solver).
    rewrite Forall_app, Forall_cons in Hlf. rewrite length_app in Hf. simpl in Hf.
    destruct (IH tl lock) as (r & -> & Hr); [lia|done|tauto|]. exists r. split; [done|].
    destruct r as [b|]; simpl in *; [|set_solver].
    destruct Hr as (l1 & l2 & -> & Hb & Hl1). exists (sk ++ ov :: l1), l2. rewrite <-app_assoc.
    split; [done|]. split; [done|]. set_solver.
Qed.

(** ** The structures that exist *)

Definition held_by (w : waiter) : list lockf := w_lock w :: option_list (w_spare w).
Definition pending (m : gmap nat waiter) : list lockf :=
  map_to_list m ≫= λ e : nat * waiter, held_by e.2.

Lemma pending_insert m p w : m !! p = None → pending (<[p:=w]> m) ≡ₚ held_by w ++ pending m.
Proof. intros. unfold pending. by rewrite map_to_list_insert. Qed.
Lemma pending_delete m p w : m !! p = Some w → pending m ≡ₚ held_by w ++ pending (delete p m).
Proof.
  intros. rewrite <-pending_insert by apply lookup_delete_eq. by rewrite insert_delete_id.
Qed.

Lemma pending_requests m : pending m ≡ₚ
  map_to_list (request <$> m) ≫= λ e : nat * (lockf * Z * Z * option lockf),
    e.2.1.1.1 :: option_list e.2.2.
Proof.
  rewrite map_to_list_fmap. unfold pending. rewrite list_fmap_bind.
  induction (map_to_list m) as [|e l IH]; [done|]. csimpl. by rewrite IH.
Qed.
Lemma pending_same m m' : same_requests m m' → pending m ≡ₚ pending m'.
Proof.
  intros [H _]. rewrite !pending_requests. replace (request <$> m') with (request <$> m); [done|].
  apply map_eq. intros p. by rewrite !lookup_fmap.
Qed.

Definition others (s : sys) (f : Z) : list lockf :=
  concat (snd <$> map_to_list (delete f (files s))).

Lemma all_locks_split s f : all_locks s ≡ₚ file_locks s f ++ others s f.
Proof.
  unfold all_locks, file_locks, others. destruct (files s !! f) as [l|] eqn:E; simpl.
  - rewrite <-(insert_delete_id (files s) f l) at 1 by done.
    rewrite map_to_list_insert by apply lookup_delete_eq. done.
  - by rewrite delete_id.
Qed.
Lemma file_locks_set s f l st : file_locks (set_file s f l st) f = l.
Proof. unfold file_locks. simpl. by rewrite lookup_insert_eq. Qed.
Lemma file_locks_set_ne s f g l st : g ≠ f → file_locks (set_file s f l st) g = file_locks s g.
Proof. intros. unfold file_locks. simpl. by rewrite lookup_insert_ne. Qed.
Lemma others_set s f l st : others (set_file s f l st) f = others s f.
Proof. unfold others. simpl. by rewrite delete_insert_eq. Qed.
Lemma all_locks_set s f l st : all_locks (set_file s f l st) ≡ₚ l ++ others s f.
Proof. by rewrite (all_locks_split _ f), file_locks_set, others_set. Qed.

(** ** The invariant *)

(** No lock stands in the way of another: a byte that one owner has locked for
    writing is locked by nobody else. *)
Definition exclusive (l : list lockf) : Prop := ∀ k1 k2, k1 ∈ l → k2 ∈ l → ¬ blocks k1 k2.

(** A well-formed request for a lock, with the spare structure it carries. *)
Record lock_req (lock : lockf) (sp : option lockf) : Prop := {
  lr_range : valid_range lock;
  lr_type : lf_type lock ≠ F_UNLCK;
  lr_queue : lf_blkhd lock = [];
  lr_spare : spare_ok lock sp;
  lr_flock : lf_flock lock = true → lf_start lock = 0 ∧ lf_end lock = -1;
}.

(** [H] holds the structures that the running call has in hand. *)
Record sys_ok (H : list lockf) (s : sys) : Prop := {
  so_file f l : files s !! f = Some l →
    list_wf l ∧ exclusive l ∧ ∀ k, k ∈ l → lf_type k ≠ F_UNLCK;
  so_linked : linked (waiters (kern s)) (all_locks s);
  so_req p w : waiters (kern s) !! p = Some w →
    lf_ptr (w_lock w) = p ∧ lock_req (w_lock w) (w_spare w);
  so_home p w b : waiters (kern s) !! p = Some w → w_next w = Some b →
    b ∈ (lf_ptr <$> file_locks s (w_file w));
  so_nodup : NoDup (lf_ptr <$> H ++ all_locks s ++ pending (waiters (kern s)));
  so_fresh k : k ∈ H ++ all_locks s ++ pending (waiters (kern s)) → (lf_ptr k < nextptr (kern s))%nat;
}.

Lemma so_locks H s f : sys_ok H s →
  list_wf (file_locks s f) ∧ exclusive (file_locks s f) ∧
  ∀ k, k ∈ file_locks s f → lf_type k ≠ F_UNLCK.
Proof.
  intros Hs. unfold file_locks. destruct (files s !! f) as [l|] eqn:E; simpl.
  - by eapply so_file.
  - split_and!; [auto with kern|intros ???; set_solver|set_solver].
Qed.
Lemma so_linked_split H s f : sys_ok H s →
  linked (waiters (kern s)) (file_locks s f ++ others s f).
Proof. intros Hs. rewrite <-all_locks_split. by eapply so_linked. Qed.

Lemma lf_init_ok : sys_ok [] lf_init.
Proof.
  split; try (intros *; simpl; rewrite ?lookup_empty; done).
  - split; intros *; simpl; try (rewrite lookup_empty; done); [constructor|set_solver|set_solver].
  - constructor.
  - intros k Hk. simpl in Hk. by apply elem_of_nil in Hk.
Qed.

Lemma NoDup_sub {A} (l k : list A) : l ⊆+ k → NoDup k → NoDup l.
Proof. intros [x ->]%submseteq_Permutation. rewrite NoDup_app. tauto. Qed.

(** An edit of the list of one file, with the queues of the others. *)
Lemma file_other_stays m m' l l' R p w w' b :
  linked m (l ++ R) → linked m' (l' ++ R) → same_requests m m' →
  m !! p = Some w → m' !! p = Some w' → w_next w' = Some b →
  (b ∈ (lf_ptr <$> R) ∧ w_next w = Some b) ∨
  (b ∈ (lf_ptr <$> l') ∧ ∃ b0, w_next w = Some b0 ∧ b0 ∈ (lf_ptr <$> l)).
Proof.
  intros Hl Hl' [_ Hnone] Hw Hw' Hb.
  destruct (linked_next _ _ Hl' p w' b Hw' Hb) as (k & Hk & Hkb & Hkp & _). subst b.
  destruct (w_next w) as [b0|] eqn:Hb0; [|by rewrite (Hnone p w w') in Hb].
  destruct (linked_next _ _ Hl p w b0 Hw Hb0) as (k0 & Hk0 & Hk0b & Hk0p & _). subst b0.
  assert (HR : ∀ x, x ∈ R → p ∈ lf_blkhd x → x = k ∧ x = k0).
  { intros x Hx Hp.
    destruct (linked_queue _ _ Hl' x p) as (? & ? & ?); [set_solver|done|].
    destruct (linked_queue _ _ Hl x p) as (? & ? & ?); [set_solver|done|]. simplify_eq.
    split; [eapply (ptr_inj _ _ _ _ Hl')|eapply (ptr_inj _ _ _ _ Hl)]; try done; set_solver. }
  apply elem_of_app in Hk as [Hk|Hk], Hk0 as [Hk0|Hk0].
  - right. split; [by apply list_elem_of_fmap_2|]. exists (lf_ptr k0). split; [done|].
    by apply list_elem_of_fmap_2.
  - destruct (HR k0 Hk0 Hk0p) as [-> _]. left. split; [by apply list_elem_of_fmap_2|done].
  - destruct (HR k Hk Hkp) as [_ ->]. left. split; [by apply list_elem_of_fmap_2|done].
  - destruct (HR k Hk Hkp) as [_ ->]. left. split; [by apply list_elem_of_fmap_2|done].
Qed.

Lemma others_ptr_home s f g b m : linked m (all_locks s) → g ≠ f →
  b ∈ (lf_ptr <$> file_locks s g) → b ∉ (lf_ptr <$> file_locks s f).
Proof.
  intros [Hn _ _ _ _] Hg Hb Hb'. rewrite (all_locks_split s f), fmap_app in Hn.
  apply NoDup_app in Hn as (_ & Hn & _). apply (Hn b Hb'). unfold others.
  unfold file_locks in Hb. destruct (files s !! g) as [l|] eqn:E; simpl in Hb; [|set_solver].
  apply list_elem_of_fmap in Hb as (k & -> & Hk). apply list_elem_of_fmap_2.
  apply list_elem_of_In, in_concat. exists l. rewrite <-!list_elem_of_In. split; [|done]. apply list_elem_of_fmap. exists (g, l).
  split; [done|]. apply elem_of_map_to_list. by rewrite lookup_delete_ne.
Qed.

Lemma sys_ok_edit H H' s f l' st' : sys_ok H s →
  list_wf l' → exclusive l' → (∀ k, k ∈ l' → lf_type k ≠ F_UNLCK) →
  linked (waiters st') (l' ++ others s f) →
  same_requests (waiters (kern s)) (waiters st') → nextptr st' = nextptr (kern s) →
  (lf_ptr <$> H' ++ l') ⊆+ (lf_ptr <$> H ++ file_locks s f) →
  sys_ok H' (set_file s f l' st').
Proof.
  intros Hs Hwf Hex Hty Hl' Hsame Hn Hp. pose proof (so_linked_split H s f Hs) as Hl.
  assert (Hptrs : (lf_ptr <$> H' ++ all_locks (set_file s f l' st') ++ pending (waiters st')) ⊆+
    (lf_ptr <$> H ++ all_locks s ++ pending (waiters (kern s)))).
  { rewrite all_locks_set, (all_locks_split s f), <-(pending_same _ _ Hsame), <-!app_assoc,
      !(app_assoc H), !(app_assoc H'), !(fmap_app lf_ptr (_ ++ _)). by apply submseteq_skips_r. }
  split.
  - intros g l. simpl. destruct (decide (g = f)) as [->|].
    + rewrite lookup_insert_eq. by intros [= <-].
    + rewrite lookup_insert_ne by done. by apply (so_file H).
  - rewrite all_locks_set. done.
  - intros p w' Hw'. destruct Hsame as [Hreq _]. specialize (Hreq p). simpl in Hw'. rewrite Hw' in Hreq.
    destruct (waiters (kern s) !! p) as [w|] eqn:Hw; [|done].
    unfold request in Hreq. injection Hreq as Hr1 _ _ Hr2. rewrite <-Hr1, <-Hr2. by apply (so_req H s Hs).
  - intros p w' b Hw' Hb. simpl in Hw'. pose proof (proj1 Hsame p) as Hreq. rewrite Hw' in Hreq.
    destruct (waiters (kern s) !! p) as [w|] eqn:Hw; [|done].
    assert (w_file w' = w_file w) as -> by (unfold request in Hreq; by injection Hreq).
    destruct (file_other_stays _ _ _ _ _ _ _ _ _ Hl Hl' Hsame Hw Hw' Hb) as [[HbR Hnx]|(Hbl & b0 & Hnx & Hb0)].
    + pose proof (so_home H s Hs p w b Hw Hnx) as Hh.
      destruct (decide (w_file w = f)) as [Hf|]; [|by rewrite file_locks_set_ne].
      exfalso. rewrite Hf in Hh. destruct Hl as [Hnd _ _ _ _]. rewrite fmap_app in Hnd.
      apply NoDup_app in Hnd as (_ & Hnd & _). by apply (Hnd b).
    + pose proof (so_home H s Hs p w b0 Hw Hnx) as Hh.
      destruct (decide (w_file w = f)) as [->|]; [by rewrite file_locks_set|].
      exfalso. by eapply (others_ptr_home s f); [apply (so_linked H s Hs)| | |].
  - simpl. eapply NoDup_sub; [exact Hptrs|]. by apply so_nodup.
  - intros k Hk. simpl in *. rewrite Hn.
    assert (lf_ptr k ∈ lf_ptr <$> H ++ all_locks s ++ pending (waiters (kern s))) as Hin.
    { eapply elem_of_submseteq; [apply list_elem_of_fmap_2, Hk|exact Hptrs]. }
    apply list_elem_of_fmap in Hin as (k' & -> & Hk'). by apply (so_fresh H).
Qed.

(** ** Exclusion is preserved *)

Lemma blocks_sym k l : blocks k l → blocks l k.
Proof. unfold blocks, overlaps. naive_solver. Qed.

Lemma blocks_part k k' l : part_of k' k → valid_range k' → valid_range k → valid_range l →
  lf_type k' = lf_type k → blocks k' l → blocks k l.
Proof.
  unfold part_of, blocks, overlaps, ends_before, valid_range.
  intros (Hid & Hs & He) Hv' Hv Hvl Ht (H1 & [H2 H2'] & H3). rewrite <-Hid, <-Ht.
  split_and!; [done|lia|lia|done].
Qed.

Lemma cut_all_from u p lf k' : valid_range u → Forall valid_range lf → k' ∈ cut_all u p lf →
  ∃ k, k ∈ lf ∧ part_of k' k ∧ valid_range k' ∧ valid_range k ∧ lf_type k' = lf_type k.
Proof.
  unfold cut_all. intros Hu Hlf (k & Hk' & Hk)%list_elem_of_bind. exists k. split; [done|].
  rewrite Forall_forall in Hlf. specialize (Hlf k Hk).
  by destruct (cut_part u p k k' Hu Hlf Hk') as (? & ? & ?).
Qed.

Lemma exclusive_cut u p lf : valid_range u → Forall valid_range lf → exclusive lf →
  exclusive (cut_all u p lf).
Proof.
  intros Hu Hlf Hex k1 k2 Hk1 Hk2 Hb.
  destruct (cut_all_from u p lf k1 Hu Hlf Hk1) as (x1 & Hx1 & Hp1 & Hv1 & Hvx1 & Ht1).
  destruct (cut_all_from u p lf k2 Hu Hlf Hk2) as (x2 & Hx2 & Hp2 & Hv2 & Hvx2 & Ht2).
  apply (Hex x1 x2 Hx1 Hx2). apply blocks_sym, (blocks_part _ k2); try done.
  by apply blocks_sym, (blocks_part _ k1).
Qed.

Lemma exclusive_inserted lock p lf l' : list_wf lf → valid_range lock → exclusive lf →
  (∀ k, k ∈ lf → ¬ blocks k lock) → inserted lock p lf l' → exclusive l'.
Proof.
  intros [Hlf _] Hv Hex Hnb [(l1 & l2 & k & -> & Hc & Hid & Hs & He & Ht & _)|(-> & _)]; [|done].
  assert (Hkl : ∀ x, blocks k x ↔ blocks lock x).
  { intros x. unfold blocks, overlaps, ends_before. by rewrite Hid, Hs, He, Ht. }
  assert (Hnk : ∀ x, x ∈ l1 ++ l2 → ¬ blocks k x).
  { intros x Hx Hb. rewrite Hc in Hx.
    destruct (cut_all_from lock p lf x Hv Hlf Hx) as (y & Hy & Hp & Hvx & Hvy & Hty).
    apply (Hnb y Hy). apply (blocks_part y x); try done. by apply blocks_sym, Hkl. }
  assert (Hin : ∀ x, x ∈ l1 ++ k :: l2 → x = k ∨ x ∈ l1 ++ l2) by set_solver.
  intros k1 k2 [->|H1]%Hin [->|H2]%Hin Hb.
  - by destruct Hb.
  - by apply (Hnk k2).
  - by apply (Hnk k1), blocks_sym.
  - rewrite Hc in H1, H2. by apply (exclusive_cut lock p lf Hv Hlf Hex k1 k2).
Qed.

Lemma inserted_types lock p lf l' : valid_range lock → Forall valid_range lf →
  lf_type lock ≠ F_UNLCK → (∀ k, k ∈ lf → lf_type k ≠ F_UNLCK) → inserted lock p lf l' →
  ∀ k, k ∈ l' → lf_type k ≠ F_UNLCK.
Proof.
  intros Hv Hlf Ht Hty [(l1 & l2 & k & -> & Hc & Hid & Hs & He & Htk & _)|(-> & _)]; [|done].
  intros x Hx. assert (Hin : x = k ∨ x ∈ l1 ++ l2) by set_solver. destruct Hin as [->|Hin]; [congruence|].
  rewrite Hc in Hin. destruct (cut_all_from lock p lf x Hv Hlf Hin) as (y & Hy & _ & _ & _ & ->). auto.
Qed.

(** Only the queue of a lock changes. *)
Lemma list_wf_blkhd l1 k q l2 : list_wf (l1 ++ k :: l2) → list_wf (l1 ++ set_blkhd k q :: l2).
Proof.
  rewrite !list_wf_app, !list_wf_cons. intros (H1 & (H2 & H3 & H4) & H5). split_and!; try done.
  intros x y Hx [->|Hy]%elem_of_cons; [|apply H5; set_solver].
  pose proof (H5 x k Hx ltac:(set_solver)) as Hb. exact Hb.
Qed.
Lemma exclusive_blkhd l1 k q l2 : exclusive (l1 ++ k :: l2) → exclusive (l1 ++ set_blkhd k q :: l2).
Proof.
  intros Hex. assert (Hm : ∀ x, x ∈ l1 ++ set_blkhd k q :: l2 → ∃ y, y ∈ l1 ++ k :: l2 ∧
    (∀ z, blocks x z → blocks y z)).
  { intros x [Hx|[->|Hx]%elem_of_cons]%elem_of_app; [exists x; set_solver|exists k|exists x; set_solver].
    split; [set_solver|]. done. }
  intros x1 x2 (y1 & Hy1 & H1)%Hm (y2 & Hy2 & H2)%Hm Hb.
  apply (Hex y1 y2 Hy1 Hy2). by apply H1, blocks_sym, H2, blocks_sym.
Qed.

(** ** Going to sleep and waking up *)

Lemma linked_enqueue m k l p w : linked m (k :: l) → m !! p = None → blocks k (w_lock w) →
  w_next w = Some (lf_ptr k) →
  linked (<[p := w]> m) (set_blkhd k (lf_blkhd k ++ [p]) :: l).
Proof.
  intros [Hn Hq Hd Hx Ha] Hp Hb Hw.
  assert (Hq' : ∀ k' q, k' ∈ k :: l → q ∈ lf_blkhd k' → q ≠ p ∧ waits (<[p:=w]> m) q (lf_ptr k')).
  { intros k' q Hk Hin. destruct (Hq k' q Hk Hin) as (w' & Hw' & ?).
    assert (q ≠ p) by congruence. split; [done|]. exists w'. by rewrite lookup_insert_ne. }
  split.
  - done.
  - intros k' q [->|Hk']%elem_of_cons Hin; simpl in *; [|apply Hq'; set_solver].
    apply elem_of_app in Hin as [Hin| ->%list_elem_of_singleton]; [apply Hq'; set_solver|].
    exists w. by rewrite lookup_insert_eq.
  - intros k' [->|Hk']%elem_of_cons; simpl; [|apply Hd; set_solver].
    apply NoDup_app. split_and!; [apply Hd; set_solver| |apply NoDup_singleton].
    intros q Hin ->%list_elem_of_singleton. by destruct (Hq' k p ltac:(set_solver) Hin).
  - intros q w' b. destruct (decide (q = p)) as [->|].
    + rewrite lookup_insert_eq. intros [= <-] Hb'. rewrite Hw in Hb'. injection Hb' as <-.
      eexists. split; [apply elem_of_cons; by left|]. simpl. split_and!; [done|set_solver|done].
    + rewrite lookup_insert_ne by done. intros Hw' Hb'.
      destruct (Hx q w' b Hw' Hb') as (k' & [->|Hk']%elem_of_cons & ? & ? & ?).
      * eexists. split; [apply elem_of_cons; by left|]. simpl. split_and!; [done|set_solver|done].
      * exists k'. split; [set_solver|done].
  - intros q w'. destruct (decide (q = p)) as [->|].
    + rewrite lookup_insert_eq. intros [= <-] _. by rewrite Hw.
    + rewrite lookup_insert_ne by done. apply (Ha q).
Qed.

(** A request leaves the store; if it is still queued it leaves the queue. *)
Definition without (p : nat) (k : lockf) : lockf := set_blkhd k (filter (λ q, q ≠ p) (lf_blkhd k)).

Lemma linked_dequeue m p k l : linked m (k :: l) → waits m p (lf_ptr k) →
  linked (delete p m) (without p k :: l).
Proof.
  intros Hl (w & Hw & Hnx). pose proof Hl as [Hn Hq Hd Hx Ha]. split.
  - done.
  - intros k' q [->|Hk']%elem_of_cons Hin; simpl in *.
    + apply list_elem_of_filter in Hin as [Hne Hin].
      destruct (Hq k q) as (w' & ? & ?); [set_solver|done|]. exists w'. by rewrite lookup_delete_ne.
    + destruct (Hq k' q) as (w' & ? & Hnx'); [set_solver|done|]. exists w'.
      rewrite lookup_delete_ne; [done|]. intros ->.
      assert (lf_ptr k = lf_ptr k') as He by congruence.
      apply NoDup_cons in Hn as [Hn _]. apply Hn. rewrite He. by apply list_elem_of_fmap_2.
  - intros k' [->|Hk']%elem_of_cons; simpl; [|apply Hd; set_solver].
    apply NoDup_filter, Hd. set_solver.
  - intros q w' b [Hne Hw']%lookup_delete_Some Hb.
    destruct (Hx q w' b Hw' Hb) as (k' & [->|Hk']%elem_of_cons & ? & ? & ?).
    + eexists. split; [apply elem_of_cons; by left|]. simpl. split_and!; [done| |done].
      apply list_elem_of_filter. naive_solver.
    + exists k'. split; [set_solver|done].
  - intros q w' [Hne Hw']%lookup_delete_Some. by apply (Ha q).
Qed.
Lemma linked_gone m p w l : linked m l → m !! p = Some w → w_next w = None → linked (delete p m) l.
Proof.
  intros [Hn Hq Hd Hx Ha] Hw Hnx. split; [done| |done| |].
  - intros k q Hk Hin. destruct (Hq k q Hk Hin) as (w' & ? & ?). exists w'.
    rewrite lookup_delete_ne; [done|]. intros ->. simplify_eq.
  - intros q w' b [_ Hw']%lookup_delete_Some. by apply (Hx q).
  - intros q w' [_ Hw']%lookup_delete_Some. by apply (Ha q).
Qed.

(** What [enqueue] and [dequeue] do to a list without duplicate addresses. *)
Lemma map_at_ptr (g : lockf → lockf) l b : NoDup (lf_ptr <$> l) → b ∈ l →
  ∃ l1 l2, l = l1 ++ b :: l2 ∧
    (λ k, if bool_decide (lf_ptr k = lf_ptr b) then g k else k) <$> l = l1 ++ g b :: l2.
Proof.
  intros Hn (l1 & l2 & ->)%list_elem_of_split. exists l1, l2. split; [done|].
  rewrite fmap_app, fmap_cons in Hn. apply NoDup_app in Hn as (_ & H1 & [H2 _]%NoDup_cons).
  assert (Hid : ∀ x : list lockf, (∀ k, k ∈ x → lf_ptr k ≠ lf_ptr b) →
    (λ k, if bool_decide (lf_ptr k = lf_ptr b) then g k else k) <$> x = x).
  { intros x Hx. induction x as [|k x IH]; [done|]. csimpl. rewrite bool_decide_eq_false_2 by set_solver.
    rewrite IH; [done|set_solver]. }
  rewrite fmap_app, fmap_cons, bool_decide_eq_true_2 by done. rewrite !Hid; [done|..].
  - intros k Hk He. apply H2. rewrite <-He. by apply list_elem_of_fmap_2.
  - intros k Hk He. apply (H1 (lf_ptr k)); [by apply list_elem_of_fmap_2|]. rewrite He. left.
Qed.

(** ** Deadlock detection returns *)

Lemma waits_on_spec st p w : waits_on st p = Some w →
  ∃ k, waiters st !! k = Some w ∧ w_proc w = p ∧ w_asleep w = true.
Proof.
  unfold waits_on. intros (e & He & ->)%fmap_Some. apply head_Some_elem_of in He.
  apply list_elem_of_filter in He as [[? ?] He]. destruct e as [k w'].
  apply elem_of_map_to_list in He. simpl in *. eauto.
Qed.

Lemma find_lock_spec l k : NoDup (lf_ptr <$> l) → k ∈ l → find_lock l (lf_ptr k) = Some k.
Proof.
  intros Hn Hk. unfold find_lock. induction l as [|x l IH]; [set_solver|]. simpl.
  apply NoDup_cons in Hn as [Hx Hn]. apply elem_of_cons in Hk as [->|Hk].
  - by rewrite bool_decide_eq_true_2.
  - rewrite bool_decide_eq_false_2; [by apply IH|]. intros He. apply Hx. rewrite He.
    by apply list_elem_of_fmap_2.
Qed.

(** The lock that a sleeping request waits for. *)
Lemma asleep_blocked m l p w : linked m l → m !! p = Some w → w_asleep w = true →
  ∃ k, k ∈ l ∧ w_next w = Some (lf_ptr k) ∧ find_lock l (lf_ptr k) = Some k ∧ blocks k (w_lock w).
Proof.
  intros Hl Hw Ha. destruct (linked_asleep _ _ Hl p w Hw Ha) as [b Hb].
  destruct (linked_next _ _ Hl p w b Hw Hb) as (k & Hk & <- & _ & Hbl).
  exists k. split_and!; [done|done| |done]. apply find_lock_spec; [|done]. by destruct Hl.
Qed.

Lemma deadlock_total nlwps l st curproc : linked (waiters st) l →
  ∀ i p, ∃ b, deadlock i nlwps l st curproc p = Ok b.
Proof.
  intros Hl. induction i as [|i IH]; intros p; simpl; [by eexists|].
  case_bool; [by eexists|]. destruct (waits_on st p) as [w|] eqn:E; [|by eexists].
  apply waits_on_spec in E as (q & Hw & _ & Ha).
  destruct (asleep_blocked _ _ q w Hl Hw Ha) as (k & Hk & -> & -> & _).
  repeat case_bool; [by eexists..|apply IH].
Qed.

(** ** The two kinds of change of state *)

(** Structures in hand are freed. *)
Lemma sys_ok_free H H' s st' : sys_ok H s → waiters st' = waiters (kern s) →
  nextptr st' = nextptr (kern s) → H' ⊆+ H → sys_ok H' (Sys (files s) st').
Proof.
  intros [] Hw Hn Hsub. split; simpl; rewrite ?Hw, ?Hn; try done.
  - eapply NoDup_sub; [|done]. by apply (fmap_submseteq lf_ptr), submseteq_skips_r.
  - intros k Hk. apply so_fresh0. eapply elem_of_submseteq; [exact Hk|]. by apply submseteq_skips_r.
Qed.

Lemma so_not_pending H s k : sys_ok H s → k ∈ H → waiters (kern s) !! lf_ptr k = None.
Proof.
  intros Hs Hk. apply eq_None_not_Some. intros [w Hw]. destruct (so_req H s Hs _ _ Hw) as [Hp _].
  pose proof (so_nodup H s Hs) as Hn. rewrite fmap_app, NoDup_app in Hn. destruct Hn as (_ & Hn & _).
  apply (Hn (lf_ptr k)); [by apply list_elem_of_fmap_2|]. rewrite <-Hp. apply list_elem_of_fmap_2.
  rewrite (pending_delete _ _ _ Hw). set_solver.
Qed.

(** A request goes to sleep on [b]. *)
Lemma sys_ok_sleep s f lock sp b c :
  sys_ok (lock :: option_list sp) s → lock_req lock sp → b ∈ file_locks s f → blocks b lock →
  sys_ok [] (set_file s f (enqueue (file_locks s f) (lf_ptr b) (lf_ptr lock))
    (set_waiter (kern s) (lf_ptr lock) (Waiter lock f c sp (Some (lf_ptr b)) true))).
Proof.
  intros Hs Hr Hb Hbl. pose proof (so_linked_split _ s f Hs) as Hl.
  destruct (so_locks _ s f Hs) as (Hwf & Hex & Hty).
  assert (Hnp := so_not_pending _ s lock Hs ltac:(set_solver)).
  destruct (map_at_ptr (λ k, set_blkhd k (lf_blkhd k ++ [lf_ptr lock])) (file_locks s f) b)
    as (l1 & l2 & Hfl & He); [|done|].
  { destruct Hl as [Hn _ _ _ _]. rewrite fmap_app in Hn. by apply NoDup_app in Hn as [? _]. }
  unfold enqueue. rewrite He. rewrite Hfl in Hwf, Hex, Hty, Hl.
  set (l' := l1 ++ set_blkhd b (lf_blkhd b ++ [lf_ptr lock]) :: l2).
  assert (Hptr : lf_ptr <$> l' = lf_ptr <$> file_locks s f).
  { unfold l'. by rewrite Hfl, !fmap_app. }
  assert (Hall : all_locks (set_file s f l' (set_waiter (kern s) (lf_ptr lock)
    (Waiter lock f c sp (Some (lf_ptr b)) true))) ≡ₚ l' ++ others s f) by apply all_locks_set.
  assert (Hptrs : lf_ptr <$> (l' ++ others s f) ++ (lock :: option_list sp) ++ pending (waiters (kern s))
    ≡ₚ lf_ptr <$> (lock :: option_list sp) ++ all_locks s ++ pending (waiters (kern s))).
  { rewrite (all_locks_split s f). rewrite app_assoc, (Permutation_app_comm (_ ++ others s f)).
    rewrite <-!app_assoc, !fmap_app. by rewrite Hptr. }
  split.
  - intros g l. simpl. destruct (decide (g = f)) as [->|].
    + rewrite lookup_insert_eq. intros [= <-]. split_and!.
      * by apply list_wf_blkhd.
      * by apply exclusive_blkhd.
      * intros k Hk. unfold l' in Hk. apply elem_of_app in Hk as [?|[->|?]%elem_of_cons]; [apply Hty; set_solver|..].
        -- apply (Hty b). set_solver.
        -- apply Hty. set_solver.
    + rewrite lookup_insert_ne by done. by apply (so_file _ s Hs).
  - rewrite Hall. unfold l'. rewrite perm_pick in Hl |- *. by apply linked_enqueue.
  - intros p w. simpl. destruct (decide (p = lf_ptr lock)) as [->|].
    + rewrite lookup_insert_eq. by intros [= <-].
    + rewrite lookup_insert_ne by done. by apply (so_req _ s Hs).
  - intros p w x. simpl. destruct (decide (p = lf_ptr lock)) as [->|].
    + rewrite lookup_insert_eq. intros [= <-]. simpl. intros [= <-].
      rewrite file_locks_set. rewrite Hptr. by apply list_elem_of_fmap_2.
    + rewrite lookup_insert_ne by done. intros Hw Hx. pose proof (so_home _ s Hs p w x Hw Hx) as Hh.
      destruct (decide (w_file w = f)) as [He'|]; [|by rewrite file_locks_set_ne].
      rewrite He' in Hh |- *. by rewrite file_locks_set, Hptr.
  - rewrite Hall. simpl. rewrite pending_insert by done. rewrite Hptrs. by apply (so_nodup _ s Hs).
  - intros k. rewrite Hall. simpl. rewrite pending_insert by done. intros Hk.
    assert (Hk2 : lf_ptr k ∈ lf_ptr <$> (lock :: option_list sp) ++ all_locks s ++ pending (waiters (kern s)))
      by (rewrite <-Hptrs; by apply list_elem_of_fmap_2).
    apply list_elem_of_fmap in Hk2 as (k' & -> & Hk'). by apply (so_fresh _ s Hs).
Qed.

(** The owner's locks in the range of [u] go away. *)
Lemma sys_ok_clear H s f u sp st' : sys_ok (H ++ option_list sp) s → valid_range u →
  (∀ x, sp = Some x → spare_ok u sp) → (sp = None → cut_needs_spare u (file_locks s f) = false) →
  waiters st' = wake_map (cut_woken u (file_locks s f)) (waiters (kern s)) →
  nextptr st' = nextptr (kern s) →
  sys_ok (H ++ option_list (if cut_needs_spare u (file_locks s f) then None else sp))
    (set_file s f (cut_all u (from_option lf_ptr O sp) (file_locks s f)) st').
Proof.
  intros Hs Hu Hsp Hnone Hw Hn. destruct (so_locks _ s f Hs) as (Hwf & Hex & Hty).
  assert (Hfr : cut_needs_spare u (file_locks s f) = true → ∃ x, sp = Some x).
  { destruct sp as [x|]; [by eexists|]. intros. by rewrite Hnone in *. }
  eapply sys_ok_edit; [exact Hs|by apply cut_all_wf|by apply exclusive_cut; [|apply Hwf|]|..].
  - intros k Hk. destruct (cut_all_from u _ _ k Hu (proj1 Hwf) Hk) as (y & Hy & _ & _ & _ & ->). auto.
  - rewrite Hw. apply linked_cut; [by eapply so_linked_split|done|done|].
    intros Hns. destruct (Hfr Hns) as [x ->]. simpl. rewrite <-all_locks_split.
    pose proof (so_nodup _ s Hs) as Hnd. rewrite !fmap_app, !NoDup_app in Hnd.
    intros Hin. destruct Hnd as (_ & Hnd & _). apply (Hnd (lf_ptr x)); [set_solver|].
    apply elem_of_app. by left.
  - rewrite Hw. apply same_requests_wake.
  - done.
  - pose proof (cut_all_ptrs u (from_option lf_ptr O sp) (file_locks s f) Hwf Hu) as Hp.
    rewrite <-!app_assoc, !(fmap_app lf_ptr H). apply submseteq_skips_l.
    rewrite !fmap_app. destruct (cut_needs_spare u (file_locks s f)) eqn:Hns; simpl in *.
    + destruct (Hfr eq_refl) as [x ->]. done.
    + by apply submseteq_skips_l.
Qed.

(** A request leaves the store, with its structures in hand. *)
Definition leave (s : sys) (p : nat) (w : waiter) : sys :=
  let l := file_locks s (w_file w) in
  set_file s (w_file w) (match w_next w with Some b => dequeue l b p | None => l end)
    (Kst (delete p (waiters (kern s))) (lockcnt (kern s)) (nextptr (kern s))).

Lemma dequeue_spec m s p w b : linked m (all_locks s) → m !! p = Some w → w_next w = Some b →
  b ∈ (lf_ptr <$> file_locks s (w_file w)) →
  ∃ l1 l2 k, file_locks s (w_file w) = l1 ++ k :: l2 ∧ lf_ptr k = b ∧
    dequeue (file_locks s (w_file w)) b p = l1 ++ without p k :: l2.
Proof.
  intros Hl Hw Hb (k & -> & Hk)%list_elem_of_fmap. rewrite (all_locks_split s (w_file w)) in Hl.
  destruct (map_at_ptr (without p) (file_locks s (w_file w)) k) as (l1 & l2 & Hfl & He); [|done|].
  { destruct Hl as [Hn _ _ _ _]. rewrite fmap_app in Hn. by apply NoDup_app in Hn as [? _]. }
  exists l1, l2, k. split_and!; [done|done|]. rewrite <-He. done.
Qed.

Lemma sys_ok_leave s p w : sys_ok [] s → waiters (kern s) !! p = Some w →
  sys_ok (held_by w) (leave s p w).
Proof.
  intros Hs Hw. set (f := w_file w). destruct (so_locks _ s f Hs) as (Hwf & Hex & Hty).
  pose proof (so_linked _ s Hs) as Hl.
  assert (∃ l', leave s p w = set_file s f l'
      (Kst (delete p (waiters (kern s))) (lockcnt (kern s)) (nextptr (kern s))) ∧
    lf_ptr <$> l' = lf_ptr <$> file_locks s f ∧ list_wf l' ∧ exclusive l' ∧
    (∀ k, k ∈ l' → lf_type k ≠ F_UNLCK) ∧
    linked (delete p (waiters (kern s))) (l' ++ others s f)) as (l' & -> & Hptr & Hwf' & Hex' & Hty' & Hl').
  { unfold leave. fold f. destruct (w_next w) as [b|] eqn:Hb.
    - destruct (dequeue_spec _ s p w b Hl Hw Hb) as (l1 & l2 & k & Hfl & Hkb & Hd); [by apply (so_home _ s Hs p)|].
      fold f in Hfl, Hd. rewrite Hd. exists (l1 ++ without p k :: l2). rewrite Hfl in Hwf, Hex, Hty |- *.
      split_and!; [done|by rewrite !fmap_app|by apply list_wf_blkhd|by apply exclusive_blkhd| |].
      + intros x Hx. apply elem_of_app in Hx as [?|[->|?]%elem_of_cons]; [apply Hty; set_solver| |apply Hty; set_solver].
        apply (Hty k). set_solver.
      + rewrite (all_locks_split s f), Hfl, perm_pick in Hl. rewrite perm_pick.
        apply linked_dequeue; [done|]. exists w. by rewrite Hkb.
    - exists (file_locks s f). split_and!; try done. rewrite <-all_locks_split. by eapply linked_gone. }
  assert (Hptrs : lf_ptr <$> held_by w ++ (l' ++ others s f) ++ pending (delete p (waiters (kern s)))
    ≡ₚ lf_ptr <$> all_locks s ++ pending (waiters (kern s))).
  { rewrite (all_locks_split s f), (pending_delete _ _ _ Hw).
    rewrite app_assoc, (Permutation_app_comm (held_by w)), <-!app_assoc, !fmap_app. by rewrite Hptr. }
  split.
  - intros g l. simpl. destruct (decide (g = f)) as [->|].
    + rewrite lookup_insert_eq. by intros [= <-].
    + rewrite lookup_insert_ne by done. by apply (so_file _ s Hs).
  - by rewrite all_locks_set.
  - intros q w'. simpl. intros [_ Hw']%lookup_delete_Some. by apply (so_req _ s Hs).
  - intros q w' x. simpl. intros [_ Hw']%lookup_delete_Some Hx.
    pose proof (so_home _ s Hs q w' x Hw' Hx) as Hh.
    destruct (decide (w_file w' = f)) as [He'|]; [|by rewrite file_locks_set_ne].
    rewrite He' in Hh |- *. by rewrite file_locks_set, Hptr.
  - rewrite all_locks_set. simpl kern. simpl waiters. rewrite Hptrs. by apply (so_nodup _ s Hs).
  - intros k. rewrite all_locks_set. simpl kern. simpl waiters. simpl nextptr. intros Hk.
    assert (Hk2 : lf_ptr k ∈ lf_ptr <$> all_locks s ++ pending (waiters (kern s)))
      by (rewrite <-Hptrs; by apply list_elem_of_fmap_2).
    apply list_elem_of_fmap in Hk2 as (k' & -> & Hk'). by apply (so_fresh _ s Hs).
Qed.

(** ** [lf_setlock] *)

#[global] Arguments lf_clearlock : simpl never.
#[global] Arguments lf_addlock : simpl never.
#[global] Arguments lf_getblock : simpl never.
#[global] Arguments deadlock : simpl never.

Definition setlock_result (s : sys) (f c : Z) (lock : lockf) (sp : option lockf) (o : outcome) : Prop :=
  match o with
  | Done e sp' s' => sys_ok (option_list sp') s' ∧
      ((e = 0 ∧ (∀ k, k ∈ file_locks s f → ¬ blocks k lock) ∧
        inserted lock (from_option lf_ptr O sp) (file_locks s f) (file_locks s' f) ∧
        ∀ g, g ≠ f → file_locks s' g = file_locks s g) ∨
       ((e = EAGAIN ∧ lf_wait lock = false ∨ e = EDEADLK ∧ lf_wait lock = true) ∧
        files s' = files s ∧ ∃ k, k ∈ file_locks s f ∧ blocks k lock))
  | Sleep s' => sys_ok [] s' ∧ lf_wait lock = true ∧
      ∃ k, k ∈ file_locks s f ∧ blocks k lock ∧
        waiters (kern s') !! lf_ptr lock = Some (Waiter lock f c sp (Some (lf_ptr k)) true)
  end.

Lemma setlock_add s f c lock sp : sys_ok (lock :: option_list sp) s → lock_req lock sp →
  (∀ k, k ∈ file_locks s f → ¬ blocks k lock) →
  ∃ o, ('(l', _, sp', st) ← lf_addlock (S (length (file_locks s f))) true (file_locks s f) lock sp (kern s);
        mret (Done 0 sp' (set_file s f l' st))) = Ok o ∧ setlock_result s f c lock sp o.
Proof.
  intros Hs [Hv Hty Hbl Hsp _] Hnb. destruct (so_locks _ s f Hs) as (Hwf & Hex & Htys).
  pose proof (so_nodup _ s Hs) as Hnd.
  rewrite (app_assoc (lock :: _)), (all_locks_split s f) in Hnd.
  assert (Hnd2 : NoDup (lf_ptr <$> option_list sp ++ lock :: file_locks s f ++ others s f)).
  { rewrite fmap_app, NoDup_app in Hnd. destruct Hnd as [Hnd _]. by rewrite <-Permutation_middle. }
  destruct (lf_addlock_spec (S (length (file_locks s f))) (file_locks s f) lock sp (kern s) (others s f))
    as (l' & lk & sp' & st' & -> & Hins & Hl' & Hsame & Hn & Hsp' & Hptrs & _); try done; [lia|..].
  { intros x ->. simpl in Hnd2. by apply NoDup_cons in Hnd2 as [? _]. }
  { apply linked_add; [done| |by eapply so_linked_split].
    rewrite fmap_app, NoDup_app in Hnd2. destruct Hnd2 as (_ & _ & Hnd2). by apply NoDup_cons in Hnd2 as [? _]. }
  csimpl. eexists. split; [done|]. split.
  - eapply sys_ok_edit; [exact Hs| | | |done|done|done|].
    + by eapply inserted_wf.
    + by eapply exclusive_inserted.
    + by eapply inserted_types; [|apply Hwf|..].
    + rewrite !(Permutation_app_comm _ l'), (Permutation_app_comm _ (file_locks s f)).
      by rewrite <-Permutation_middle.
  - left. rewrite file_locks_set. split_and!; [done..|]. intros. by apply file_locks_set_ne.
Qed.

(** A request blocked by someone else's lock that removes its owner's locks
    first still finds that lock. *)
Lemma cut_all_keeps u p lf b : b ∈ lf → lf_id b ≠ lf_id u → b ∈ cut_all u p lf.
Proof.
  intros Hb Hid. unfold cut_all. apply list_elem_of_bind. exists b. split; [|done].
  rewrite cut_untouched by (intros [? _]; congruence). set_solver.
Qed.

Lemma lf_setlock_spec nlwps s f c lock sp : sys_ok (lock :: option_list sp) s → lock_req lock sp →
  ∃ o, lf_setlock nlwps s f c lock sp = Ok o ∧ setlock_result s f c lock sp o.
Proof.
  intros Hs Hr. destruct (so_locks _ s f Hs) as (Hwf & Hex & Htys). unfold lf_setlock.
  destruct (getblock_spec (S (length (file_locks s f))) (file_locks s f) lock)
    as (r & -> & Hblk); [lia|apply Hr|apply Hwf|]. csimpl.
  destruct r as [b|]; [|by apply setlock_add].
  destruct Hblk as (l1 & l2 & Hfl & Hb & _). assert (Hin : b ∈ file_locks s f) by (rewrite Hfl; set_solver).
  destruct (lf_wait lock) eqn:Hwait; simpl.
  2:{ eexists. split; [done|]. split; [eapply sys_ok_free; [exact Hs|done..|by apply submseteq_cons]|].
      right. split_and!; [auto|done|eauto]. }
  assert (∃ d : bool, (if lf_posix lock && lf_posix b
    then deadlock maxlockdepth nlwps (all_locks s) (kern s) c (lf_id b) else mret false) = Ok d) as [d ->].
  { destruct (_ && _); [|by eexists]. by eapply deadlock_total, so_linked. }
  csimpl. destruct d.
  { eexists. split; [done|]. split; [eapply sys_ok_free; [exact Hs|done..|by apply submseteq_cons]|].
    right. split_and!; [auto|done|eauto]. }
  destruct (lf_flock lock && bool_decide (lf_type lock = F_WRLCK)) eqn:Hfl'.
  - apply andb_true_iff in Hfl' as [Hfk _]. destruct (lr_flock _ _ Hr Hfk) as [Hs0 He0].
    set (u := set_type lock F_UNLCK).
    assert (Hvu : valid_range u) by apply Hr.
    destruct (clearlock_spec (S (length (file_locks s f))) (file_locks s f) u None (kern s))
      as (sp' & st' & -> & Hsp' & Hw' & Hn' & _); [lia|done|done| |by right; left|].
    { eapply linked_queues_ok. by eapply so_linked_split. }
    csimpl. eexists. split; [done|].
    assert (Hns : cut_needs_spare u (file_locks s f) = false).
    { apply not_true_iff_false. intros Hns.
      by destruct (needs_spare_some u None (file_locks s f)) as [? ?]; [..|by right; left|done|]. }
    assert (Hs1 : sys_ok (lock :: option_list sp) (set_file s f (cut_all u O (file_locks s f)) st')).
    { pose proof (sys_ok_clear (lock :: option_list sp) s f u None st') as Hc.
      rewrite Hns, app_nil_r in Hc. by apply Hc. }
    assert (Hb1 : b ∈ cut_all u O (file_locks s f)) by (apply cut_all_keeps; [done|apply Hb]).
    pose proof (sys_ok_sleep _ f lock sp b c Hs1 Hr) as Hsl. rewrite file_locks_set in Hsl.
    specialize (Hsl Hb1 Hb). unfold set_file in *. simpl in *. rewrite insert_insert_eq in Hsl.
    split; [exact Hsl|]. split; [done|]. exists b. split_and!; [done|done|]. simpl. by rewrite lookup_insert_eq.
  - csimpl. eexists. split; [done|]. split; [by apply sys_ok_sleep|]. split; [done|].
    exists b. split_and!; [done|done|]. simpl. by rewrite lookup_insert_eq.
Qed.

Lemma lf_setlock_woken_spec nlwps s p w error : sys_ok [] s → waiters (kern s) !! p = Some w →
  ∃ o, lf_setlock_woken nlwps s p error = Ok o ∧
    if error =? 0 then setlock_result (leave s p w) (w_file w) (w_proc w) (w_lock w) (w_spare w) o
    else ∃ s', o = Done error (w_spare w) s' ∧ sys_ok (option_list (w_spare w)) s' ∧
           files s' = files (leave s p w).
Proof.
  intros Hs Hw. unfold lf_setlock_woken. rewrite Hw. fold (leave s p w).
  pose proof (sys_ok_leave s p w Hs Hw) as Hl. destruct (so_req _ s Hs p w Hw) as [_ Hr].
  destruct (error =? 0); simpl.
  - by apply lf_setlock_spec.
  - eexists. split; [done|]. eexists. split; [done|]. split; [|done].
    apply (sys_ok_free (held_by w) _ (leave s p w) (lf_free (w_lock w) (kern (leave s p w)))); [done..|].
    by apply submseteq_cons.
Qed.
