(* ===== verification/LockfCalls.v ===== *)
(** * What [lf_advlock] promises, and the runs of the lock manager

    The abstract state gives, for each file, owner and byte, the type of the
    lock held there.  Each call of [lf_advlock] acts on it as the requested
    operation should; over all runs no two owners hold conflicting locks and a
    sleeping request is queued on a lock that blocks it.  The calls are those of
    [call_ok]; [unlock_to_last_offset] shows what the arithmetic on offsets does
    outside it. *)

From S2P Require Export LockfSys.

(** ** Allocation *)

Lemma lf_alloc_spec H s allowfail uid : sys_ok H s →
  match lf_alloc allowfail uid (kern s) with
  | (Some l, st) => sys_ok (l :: H) (Sys (files s) st) ∧ lf_uid l = uid
  | (None, st) => sys_ok H (Sys (files s) st) ∧ uid ≠ 0 ∧ allowfail ≠ 0
  end.
Proof.
  intros Hs. unfold lf_alloc. case_bool.
  - split; [by eapply sys_ok_free; [exact Hs|..]|]. zb. lia.
  - split; [|done]. pose proof (so_fresh _ _ Hs) as so_fresh0. destruct Hs. split; simpl; try done.
    + csimpl. apply NoDup_cons. split; [|done]. intros (k & He & Hk)%list_elem_of_fmap.
      specialize (so_fresh0 k Hk). lia.
    + intros k [->|Hk]%elem_of_cons; simpl; [lia|]. specialize (so_fresh0 k Hk). lia.
Qed.

(** A structure in hand is filled in. *)
Lemma sys_ok_fill H s l l' : lf_ptr l' = lf_ptr l → sys_ok (l :: H) s → sys_ok (l' :: H) s.
Proof.
  intros Hp Hs. pose proof (so_fresh _ _ Hs) as so_fresh0. destruct Hs. split; try done.
  - csimpl in *. by rewrite Hp.
  - intros k [->|Hk]%elem_of_cons; [rewrite Hp; apply so_fresh0; set_solver|]. apply so_fresh0. set_solver.
Qed.

(** ** The range of a request *)

(** Where [l_start] counts from. *)
Definition flock_base (fl : flock) (size : Z) : option Z :=
  if (l_whence fl =? SEEK_SET) || (l_whence fl =? SEEK_CUR) then Some 0
  else if l_whence fl =? SEEK_END then Some size else None.

(** What a caller must respect: the range that results is not inverted (which
    it is when the sum overflows [off_t]; nothing in the system call path checks
    it) and does not end at the last offset, 2^63-1, for which [lf_end + 1]
    overflows ([unlock_to_last_offset] below); BSD locks cover the file, a
    process locks for itself, a lock is for reading or writing. *)
Definition range_ok (fl : flock) (size : Z) : Prop :=
  match flock_range fl size with
  | Some (s, e) => e = -1 ∨ s ≤ e < 2 ^ 63 - 1
  | None => True
  end.

Record call_ok (curproc : Z) (ap : advlock_args) (size : Z) : Prop := {
  co_width : off_t (l_start (a_fl ap));
  co_range : range_ok (a_fl ap) size;
  co_flock : a_flock ap = true → flock_range (a_fl ap) size = Some (0, -1);
  co_posix : a_posix ap = true → a_id ap = curproc;
  co_type : a_op ap = OP_SETLK → l_type (a_fl ap) ≠ F_UNLCK;
}.

(** ** The abstract operations *)

(** The bytes of a range; [e = -1] is the end of the file. *)
Definition byte_in (s e b : Z) : Prop := s ≤ b ∧ (e = -1 ∨ b ≤ e).

(** Someone else holds a byte of the range in a way that excludes type [t]. *)
Definition conflict (l : list lockf) (id s e : Z) (t : ltype) : Prop :=
  ∃ id' b t', id' ≠ id ∧ byte_in s e b ∧ held l id' b = Some t' ∧ (t' = F_WRLCK ∨ t = F_WRLCK).

Lemma conflict_blocks l lock : list_wf l → valid_range lock →
  conflict l (lf_id lock) (lf_start lock) (lf_end lock) (lf_type lock) ↔ ∃ k, k ∈ l ∧ blocks k lock.
Proof.
  intros Hwf Hv. unfold conflict. setoid_rewrite held_holds; [|done]. split.
  - intros (id' & b & t' & Hid & Hb & (k & Hk & <- & Hr & <-) & Ht). exists k. split; [done|].
    split; [done|]. split; [|tauto]. unfold overlaps, ends_before, byte_in, in_range in *. lia.
  - intros (k & Hk & Hid & Ho & Ht). assert (Hvk : valid_range k).
    { destruct Hwf as [Hf _]. rewrite Forall_forall in Hf. auto. }
    exists (lf_id k), (lf_start k `max` lf_start lock), (lf_type k).
    unfold overlaps, ends_before, byte_in, valid_range in *. split_and!; [done|lia|lia| |done].
    exists k. unfold in_range. split_and!; [done|done|lia|lia|done].
Qed.

(** The abstract state of a file after a lock of type [t] was set, or the range
    was unlocked. *)
Definition range_set (l l' : list lockf) (id s e : Z) (t : option ltype) : Prop :=
  ∀ id' b, (id' = id → byte_in s e b → held l' id' b = t) ∧
           (¬ (id' = id ∧ byte_in s e b) → held l' id' b = held l id' b).

Lemma held_ext l l' : list_wf l → list_wf l' → ∀ id b,
  (∀ t, holds l' id b t ↔ holds l id b t) → held l' id b = held l id b.
Proof.
  intros Hl Hl' id b H. apply option_eq. intros t. rewrite !held_holds by done. apply H.
Qed.
Lemma range_set_inserted lock p l l' : list_wf l → valid_range lock → inserted lock p l l' →
  range_set l l' (lf_id lock) (lf_start lock) (lf_end lock) (Some (lf_type lock)).
Proof.
  intros Hwf Hv Hi id b. pose proof (inserted_wf _ _ _ _ Hwf Hv Hi) as Hwf'. split.
  - intros -> Hb. apply held_holds; [done|]. rewrite (inserted_holds lock p l l') by done. left.
    split_and!; [done|exact Hb|done].
  - intros Hn. apply held_ext; [done..|]. intros t. rewrite (inserted_holds lock p l l') by done.
    unfold byte_in, in_range in *. naive_solver.
Qed.
Lemma range_set_cut u p l : list_wf l → valid_range u →
  range_set l (cut_all u p l) (lf_id u) (lf_start u) (lf_end u) None.
Proof.
  intros Hwf Hv id b. pose proof (cut_all_wf u p l Hv Hwf) as Hwf'. split.
  - intros -> Hb. destruct (held _ _ b) as [t|] eqn:E; [|done]. exfalso.
    rewrite held_holds in E by done. rewrite cut_all_holds in E by (done || apply Hwf).
    destruct E as [_ E]. by apply E.
  - intros Hn. apply held_ext; [done..|]. intros t. rewrite cut_all_holds by (done || apply Hwf).
    unfold byte_in, in_range in *. naive_solver.
Qed.

(** ** The promise of [lf_advlock] *)

Definition same_files (s s' : sys) (f : Z) : Prop :=
  ∀ g, g ≠ f → file_locks s' g = file_locks s g.

(** A request that was granted, refused, or put to sleep. *)
Definition set_promise (s : sys) (f : Z) (ap : advlock_args) (start end_ : Z) (o : advlock_outcome) : Prop :=
  let t := l_type (a_fl ap) in
  let blocked := conflict (file_locks s f) (a_id ap) start end_ t in
  match o with
  | AdvDone e fl s' =>
      (e = 0 ∧ ¬ blocked ∧ same_files s s' f ∧
        range_set (file_locks s f) (file_locks s' f) (a_id ap) start end_ (Some t)) ∨
      (e = EAGAIN ∧ a_wait ap = false ∧ blocked ∧ files s' = files s) ∨
      (e = EDEADLK ∧ a_wait ap = true ∧ blocked ∧ files s' = files s) ∨
      (e = ENOMEM ∧ a_uid ap ≠ 0 ∧ files s' = files s)
  | AdvSleep s' => a_wait ap = true ∧ blocked
  end.

Definition unlock_promise (s : sys) (f : Z) (ap : advlock_args) (start end_ : Z) (o : advlock_outcome) : Prop :=
  match o with
  | AdvDone e fl s' =>
      (e = 0 ∧ same_files s s' f ∧
        range_set (file_locks s f) (file_locks s' f) (a_id ap) start end_ None) ∨
      (e = ENOMEM ∧ a_uid ap ≠ 0 ∧ start ≠ 0 ∧ end_ ≠ -1 ∧ files s' = files s)
  | AdvSleep _ => False
  end.

(** The first lock in the way is described, or the request could be granted. *)
Definition get_promise (pid : Z → Z) (s : sys) (f : Z) (ap : advlock_args) (start end_ : Z)
    (o : advlock_outcome) : Prop :=
  let t := l_type (a_fl ap) in
  match o with
  | AdvDone e fl s' => e = 0 ∧ files s' = files s ∧
      ((¬ conflict (file_locks s f) (a_id ap) start end_ t ∧ fl = fl_unlocked (a_fl ap)) ∨
       (∃ k, k ∈ file_locks s f ∧ lf_id k ≠ a_id ap ∧
          conflict [k] (a_id ap) start end_ t ∧
          fl = Flock (lf_start k) (if lf_end k =? -1 then 0 else s64 (lf_end k - lf_start k + 1))
                 (if lf_posix k then pid (lf_id k) else -1) (lf_type k) SEEK_SET))
  | AdvSleep _ => False
  end.

Definition adv_promise (pid : Z → Z) (s : sys) (f : Z) (ap : advlock_args) (size : Z)
    (o : advlock_outcome) : Prop :=
  match flock_range (a_fl ap) size with
  | None => o = AdvDone EINVAL (a_fl ap) s
  | Some (start, end_) =>
      if a_op ap =? OP_SETLK then set_promise s f ap start end_ o
      else if a_op ap =? OP_UNLCK then unlock_promise s f ap start end_ o
      else if a_op ap =? OP_GETLK then get_promise pid s f ap start end_ o
      else o = AdvDone EINVAL (a_fl ap) s
  end.

Definition outcome_state (o : advlock_outcome) : sys :=
  match o with AdvDone _ _ s => s | AdvSleep s => s end.

Lemma flock_range_start fl size s e : off_t (l_start fl) →
  flock_range fl size = Some (s, e) → 0 ≤ s < 2 ^ 63.
Proof.
  unfold flock_range. intros Hw (x & Hx & H)%bind_Some.
  assert (off_t x).
  { destruct (_ || _) in Hx; [by simplify_eq|]. destruct (_ =? _) in Hx; [|done].
    simplify_eq. apply s64_off_t. }
  pose proof (s64_off_t (x + l_len fl)). unfold off_t in *.
  destruct (l_len fl =? 0); [|destruct (0 <? l_len fl)]; simpl in H;
    (destruct (_ <? 0) eqn:E in H; [done|]); simplify_eq; lia.
Qed.

(** The structure [lf_advlock] fills in. *)
Definition new_lock (ap : advlock_args) (l : lockf) (start end_ : Z) : lockf :=
  Lockf (lf_ptr l) (a_posix ap) (a_flock ap) (a_wait ap) (l_type (a_fl ap))
    start end_ (a_id ap) [] (lf_uid l).

Section calls.
Context (pid nlwps : Z → Z) (s : sys) (f c : Z) (ap : advlock_args) (size start end_ : Z).
Context (Hs : sys_ok [] s) (Hc : call_ok c ap size)
  (Hr : flock_range (a_fl ap) size = Some (start, end_)).

Lemma call_range l : valid_range (new_lock ap l start end_).
Proof using All.
  pose proof (co_range _ _ _ Hc) as H. unfold range_ok in H. rewrite Hr in H.
  pose proof (flock_range_start _ _ _ _ (co_width _ _ _ Hc) Hr). split; simpl; lia.
Qed.
Lemma call_flock : a_flock ap = true → start = 0 ∧ end_ = -1.
Proof using All. intros H. apply (co_flock _ _ _ Hc) in H. rewrite Hr in H. by simplify_eq. Qed.

(** The spare structure is allocated unless the range is the whole file. *)
Lemma call_spare st : sys_ok [] (Sys (files s) st) →
  ∃ sp st', (if negb (a_flock ap) then lf_alloc 0 (a_uid ap) st else (None, st)) = (sp, st') ∧
    sys_ok (option_list sp) (Sys (files s) st') ∧ ∀ l, spare_ok (new_lock ap l start end_) sp.
Proof using All.
  intros Hst. destruct (a_flock ap) eqn:E; simpl.
  - exists None, st. destruct call_flock as [-> ->]; [done|]. split_and!; [done|done|]. right. by left.
  - pose proof (lf_alloc_spec [] _ 0 (a_uid ap) Hst) as Ha. simpl in Ha.
    destruct (lf_alloc 0 (a_uid ap) st) as [[l|] st'] eqn:Ea; [|by destruct Ha as (_ & _ & ?)].
    exists (Some l), st'. split_and!; [done|apply Ha|]. left. by eexists.
Qed.

Lemma call_conflict l : conflict (file_locks s f) (a_id ap) start end_ (l_type (a_fl ap)) ↔
  ∃ k, k ∈ file_locks s f ∧ blocks k (new_lock ap l start end_).
Proof using All.
  destruct (so_locks _ s f Hs) as (Hwf & _ & _).
  by rewrite <-(conflict_blocks _ (new_lock ap l start end_)) by (done || apply call_range).
Qed.

(** [F_SETLK] and [F_SETLKW], from the allocation on. *)
Lemma setlk_spec sp st l : a_op ap = OP_SETLK → sys_ok (l :: option_list sp) (Sys (files s) st) →
  (∀ l, spare_ok (new_lock ap l start end_) sp) →
  ∃ o, (setlock_done (a_fl ap) <$>
         lf_setlock nlwps (Sys (files s) st) f c (new_lock ap l start end_) sp) = Ok o ∧
    sys_ok [] (outcome_state o) ∧ set_promise s f ap start end_ o.
Proof using All.
  intros Hop Hl Hsp. set (lock := new_lock ap l start end_).
  assert (Hlr : lock_req lock sp).
  { split; [apply call_range|by apply (co_type _ _ _ Hc)|done|apply Hsp|apply call_flock]. }
  apply (sys_ok_fill _ _ l lock) in Hl; [|done].
  destruct (lf_setlock_spec nlwps _ f c lock sp Hl Hlr) as (o & -> & Ho). csimpl.
  destruct (so_locks _ s f Hs) as (Hwf & _ & _).
  change (file_locks (Sys (files s) st) f) with (file_locks s f) in Ho.
  eexists. split; [done|]. destruct o as [e sp' s'|s']; simpl in *.
  - destruct Ho as [Hs' Ho]. split.
    { destruct sp' as [x|]; [|by destruct s']. simpl.
      eapply sys_ok_free; [exact Hs'|done..|]. by apply submseteq_cons. }
    destruct Ho as [(-> & Hnb & Hi & Hg)|(He & Hf & Hb)].
    + left. split; [done|]. split; [rewrite (call_conflict l); intros (k & ? & ?); by eapply Hnb|].
      split; [exact Hg|]. by apply (range_set_inserted lock) in Hi; [|done|apply call_range].
    + assert (Hcf : conflict (file_locks s f) (a_id ap) start end_ (l_type (a_fl ap)))
        by by apply (call_conflict l).
      right. destruct He as [[-> ?]|[-> ?]]; [left|right; left]; done.
  - destruct Ho as (Hs' & Hw & k & Hk & Hb & _). split; [done|]. split; [done|].
    apply (call_conflict l). eauto.
Qed.

(** [F_UNLCK]. *)
Lemma unlck_spec sp st l : sys_ok (l :: option_list sp) (Sys (files s) st) →
  (∀ l, spare_ok (new_lock ap l start end_) sp) →
  ∃ o, ('(l', sp', st') ← lf_clearlock (S (length (file_locks s f))) (file_locks s f)
           (new_lock ap l start end_) sp st;
        mret (AdvDone 0 (a_fl ap) (set_file s f l' (free_opt sp' (lf_free (new_lock ap l start end_) st'))))) = Ok o ∧
    sys_ok [] (outcome_state o) ∧ unlock_promise s f ap start end_ o.
Proof using All.
  intros Hl Hsp. set (lock := new_lock ap l start end_). specialize (Hsp l). fold lock in Hsp.
  apply (sys_ok_fill _ _ l lock) in Hl; [|done].
  destruct (so_locks _ s f Hs) as (Hwf & _ & _).
  assert (Hv : valid_range lock) by apply call_range.
  destruct (clearlock_spec (S (length (file_locks s f))) (file_locks s f) lock sp st)
    as (sp' & st' & -> & Hsp' & Hw' & Hn' & _); [lia|done|done| |done|].
  { eapply linked_queues_ok. exact (so_linked_split _ _ f Hl). }
  csimpl. eexists. split; [done|]. simpl. split.
  - pose proof (sys_ok_clear [lock] (Sys (files s) st) f lock sp st') as Hcl.
    change (file_locks (Sys (files s) st) f) with (file_locks s f) in Hcl.
    assert (Hns : sp = None → cut_needs_spare lock (file_locks s f) = false).
    { intros ->. apply not_true_iff_false. intros Hns.
      by destruct (needs_spare_some lock None (file_locks s f)) as [? ?]. }
    specialize (Hcl Hl Hv ltac:(done) Hns Hw' Hn'). rewrite <-Hsp' in Hcl.
    refine (sys_ok_free _ [] _ _ Hcl _ _ _); [by destruct sp'|by destruct sp'|].
    apply submseteq_nil_l.
  - left. split; [done|]. split; [intros g Hg; by apply file_locks_set_ne|].
    rewrite file_locks_set. by apply (range_set_cut lock).
Qed.

(** [F_GETLK]. *)
Lemma getlk_spec sp st l : sys_ok (l :: option_list sp) (Sys (files s) st) →
  ∃ o, (fl ← lf_getlock pid (file_locks s f) (new_lock ap l start end_) (a_fl ap);
        mret (AdvDone 0 fl (Sys (files s) (free_opt sp (lf_free (new_lock ap l start end_) st))))) = Ok o ∧
    sys_ok [] (outcome_state o) ∧ get_promise pid s f ap start end_ o.
Proof using All.
  intros Hl. set (lock := new_lock ap l start end_).
  destruct (so_locks _ s f Hs) as (Hwf & _ & _). unfold lf_getlock.
  destruct (getblock_spec (S (length (file_locks s f))) (file_locks s f) lock)
    as (r & -> & Hblk); [lia|apply call_range|apply Hwf|]. csimpl. eexists. split; [done|]. simpl. split.
  - refine (sys_ok_free _ [] _ _ Hl _ _ _); [by destruct sp|by destruct sp|]. apply submseteq_nil_l.
  - split; [done|]. split; [done|]. destruct r as [b|].
    + right. destruct Hblk as (l1 & l2 & Hfl & Hb & _). exists b. split_and!; [rewrite Hfl; set_solver|apply Hb| |done].
      apply (conflict_blocks [b] lock).
      * rewrite Hfl in Hwf. apply list_wf_app in Hwf as (_ & Hwf & _).
        apply list_wf_cons in Hwf as (? & _ & _). apply list_wf_cons. split_and!; [done|auto with kern|set_solver].
      * apply call_range.
      * exists b. split; [set_solver|done].
    + left. split; [|done]. rewrite (call_conflict l). intros (k & Hk & Hkb). by apply (Hblk k).
Qed.
End calls.

(** The whole entry point, by operation. *)
Section entry.
Context (pid nlwps : Z → Z) (s : sys) (f c : Z) (ap : advlock_args) (size start end_ : Z).
Context (Hs : sys_ok [] s) (Hc : call_ok c ap size)
  (Hr : flock_range (a_fl ap) size = Some (start, end_)).

Lemma panic_guard : a_posix ap && negb (a_id ap =? c) = false.
Proof using Hc.
  pose proof (co_posix _ _ _ Hc) as H. destruct (a_posix ap); [|done]. simpl.
  rewrite H by done. by rewrite Z.eqb_refl.
Qed.

Lemma advlock_set : a_op ap = OP_SETLK → ∃ o, lf_advlock nlwps pid s f c ap size = Ok o ∧
  sys_ok [] (outcome_state o) ∧ set_promise s f ap start end_ o.
Proof using All.
  intros Hop. unfold lf_advlock. rewrite Hr, Hop. simpl.
  destruct (call_spare pid nlwps s f c ap size start end_ Hs Hc Hr (kern s))
    as (sp & st & -> & Hsp & Hok); [by destruct s|].
  pose proof (lf_alloc_spec (option_list sp) _ 1 (a_uid ap) Hsp) as Ha. simpl in Ha.
  destruct (lf_alloc 1 (a_uid ap) st) as [[l|] st']; simpl.
  - rewrite andb_false_r, panic_guard. destruct Ha as [Ha _].
    by apply (setlk_spec pid nlwps s f c ap size start end_ Hs Hc Hr sp st' l).
  - destruct Ha as (Ha & Hu & _). eexists. split; [done|]. simpl. split; [|auto 10].
    refine (sys_ok_free _ [] _ _ Ha _ _ _); [by destruct sp|by destruct sp|]. apply submseteq_nil_l.
Qed.

Lemma advlock_unlock : a_op ap = OP_UNLCK → ∃ o, lf_advlock nlwps pid s f c ap size = Ok o ∧
  sys_ok [] (outcome_state o) ∧ unlock_promise s f ap start end_ o.
Proof using All.
  intros Hop. unfold lf_advlock. rewrite Hr, Hop. simpl.
  destruct (call_spare pid nlwps s f c ap size start end_ Hs Hc Hr (kern s))
    as (sp & st & -> & Hsp & Hok); [by destruct s|].
  set (allow := if (start =? 0) || (end_ =? -1) then 0 else 2).
  pose proof (lf_alloc_spec (option_list sp) _ allow (a_uid ap) Hsp) as Ha. simpl in Ha.
  destruct (lf_alloc allow (a_uid ap) st) as [[l|] st']; simpl.
  - rewrite andb_true_r. destruct Ha as [Ha _]. case_bool_decide as Hl.
    + eexists. split; [done|]. simpl. split.
      * refine (sys_ok_free _ [] _ _ Ha _ _ _); [by destruct sp|by destruct sp|]. apply submseteq_nil_l.
      * left. split; [done|]. split; [done|]. intros id b.
        change (file_locks (Sys _ _) f) with (file_locks s f). by rewrite Hl.
    + rewrite panic_guard. by apply (unlck_spec pid nlwps s f c ap size start end_ Hs Hc Hr sp st' l).
  - destruct Ha as (Ha & Hu & Hal). eexists. split; [done|]. simpl. split.
    + refine (sys_ok_free _ [] _ _ Ha _ _ _); [by destruct sp|by destruct sp|]. apply submseteq_nil_l.
    + right. unfold allow in Hal. destruct (_ || _) eqn:E; [done|]. zb. split_and!; [done|done|lia|lia|done].
Qed.

Lemma advlock_get : a_op ap = OP_GETLK → ∃ o, lf_advlock nlwps pid s f c ap size = Ok o ∧
  sys_ok [] (outcome_state o) ∧ get_promise pid s f ap start end_ o.
Proof using All.
  intros Hop. unfold lf_advlock. rewrite Hr, Hop. simpl.
  pose proof (lf_alloc_spec [] s 0 (a_uid ap) Hs) as Ha.
  destruct (lf_alloc 0 (a_uid ap) (kern s)) as [[l|] st']; simpl; [|by destruct Ha as (_ & _ & ?)].
  rewrite andb_true_r. destruct Ha as [Ha _]. case_bool_decide as Hl.
  - eexists. split; [done|]. simpl. split.
    + refine (sys_ok_free _ [] _ _ Ha _ _ _); [done|done|]. apply submseteq_nil_l.
    + split; [done|]. split; [done|]. left. split; [|done]. rewrite Hl. by intros (id & b & t & _ & _ & ? & _).
  - rewrite panic_guard. by apply (getlk_spec pid nlwps s f c ap size start end_ Hs Hc Hr None st' l).
Qed.
End entry.

Lemma advlock_spec nlwps pid s f c ap size : sys_ok [] s → call_ok c ap size →
  ∃ o, lf_advlock nlwps pid s f c ap size = Ok o ∧ sys_ok [] (outcome_state o) ∧
       adv_promise pid s f ap size o.
Proof.
  intros Hs Hc. unfold adv_promise.
  destruct (flock_range (a_fl ap) size) as [[start end_]|] eqn:Hr.
  - repeat case_bool; zb.
    + by eapply advlock_set.
    + by eapply advlock_unlock.
    + by eapply advlock_get.
    + exists (AdvDone EINVAL (a_fl ap) s). split; [|done]. unfold lf_advlock. rewrite Hr.
      by rewrite (proj2 (Z.eqb_neq _ OP_SETLK)), (proj2 (Z.eqb_neq _ OP_UNLCK)),
        (proj2 (Z.eqb_neq _ OP_GETLK)).
  - exists (AdvDone EINVAL (a_fl ap) s). split; [|done]. unfold lf_advlock. by rewrite Hr.
Qed.

(** ** Runs *)

(** A call of [lf_advlock], or the return of [cv_wait_sig] to a sleeping
    request.  A process with one thread makes no call while it sleeps. *)
Inductive lf_step (nlwps pid : Z → Z) (s : sys) : sys → Prop :=
  | step_call f c ap size o :
      call_ok c ap size →
      (nlwps c ≤ 1 → ∀ p w, waiters (kern s) !! p = Some w → w_proc w ≠ c) →
      lf_advlock nlwps pid s f c ap size = Ok o →
      lf_step nlwps pid s (outcome_state o)
  | step_wake p w error fl o :
      waiters (kern s) !! p = Some w →
      lf_setlock_woken nlwps s p error = Ok o →
      lf_step nlwps pid s (outcome_state (setlock_done fl o)).

Definition reachable (nlwps pid : Z → Z) (s : sys) : Prop := rtc (lf_step nlwps pid) lf_init s.

Lemma woken_ok nlwps s p w error fl : sys_ok [] s → waiters (kern s) !! p = Some w →
  ∃ o, lf_setlock_woken nlwps s p error = Ok o ∧ sys_ok [] (outcome_state (setlock_done fl o)).
Proof.
  intros Hs Hw. destruct (lf_setlock_woken_spec nlwps s p w error Hs Hw) as (o & Ho & Hr).
  exists o. split; [done|]. assert (Hd : ∀ e sp s', sys_ok (option_list sp) s' →
    sys_ok [] (outcome_state (setlock_done fl (Done e sp s')))).
  { intros e sp s' Hok. simpl. refine (sys_ok_free _ [] _ _ Hok _ _ _); [by destruct sp|by destruct sp|].
    apply submseteq_nil_l. }
  destruct (error =? 0).
  - destruct o as [e sp s'|s']; [apply Hd, Hr|apply Hr].
  - destruct Hr as (s' & -> & Hok & _). by apply Hd.
Qed.

Lemma step_ok nlwps pid s s' : lf_step nlwps pid s s' → sys_ok [] s → sys_ok [] s'.
Proof.
  intros [f c ap size o Hc _ Ho|p w error fl o Hw Ho] Hs.
  - destruct (advlock_spec nlwps pid s f c ap size Hs Hc) as (o' & Ho' & Hok & _).
    rewrite Ho in Ho'. by injection Ho' as <-.
  - destruct (woken_ok nlwps s p w error fl Hs Hw) as (o' & Ho' & Hok).
    rewrite Ho in Ho'. by injection Ho' as <-.
Qed.

Lemma reachable_ok nlwps pid s : reachable nlwps pid s → sys_ok [] s.
Proof.
  intros H. assert (Hi := lf_init_ok). induction H as [|x y z Hxy _ IH]; [done|].
  apply IH. by eapply step_ok.
Qed.

(** *** A run to instantiate the properties

    Processes 1 and 2 (of several threads) lock bytes 0-9 and 5-14 of file 0
    for reading, then process 3 asks for byte 8 for writing and sleeps. *)
Definition call_state (nlwps pid : Z → Z) (s : sys) (f c : Z) (ap : advlock_args) (size : Z) : sys :=
  match lf_advlock nlwps pid s f c ap size with Ok o => outcome_state o | Fault _ => s end.

Lemma reachable_call nlwps pid s f c ap size : reachable nlwps pid s → call_ok c ap size →
  1 < nlwps c → reachable nlwps pid (call_state nlwps pid s f c ap size).
Proof.
  intros Hs Hc Hn. pose proof (reachable_ok _ _ _ Hs) as Hok.
  destruct (advlock_spec nlwps pid s f c ap size Hok Hc) as (o & Ho & _ & _).
  unfold call_state. rewrite Ho. eapply rtc_r; [exact Hs|]. eapply step_call; [exact Hc|intros; lia|exact Ho].
Qed.

Definition sample_call (op c start len : Z) (t : ltype) : advlock_args :=
  Advlock c op (Flock start len 0 t SEEK_SET) true false true 100.
Definition sample_s1 := call_state (λ _, 2) (λ i, i) lf_init 0 1 (sample_call OP_SETLK 1 0 10 F_RDLCK) 0.
Definition sample_s2 := call_state (λ _, 2) (λ i, i) sample_s1 0 2 (sample_call OP_SETLK 2 5 10 F_RDLCK) 0.
Definition sample_s3 := call_state (λ _, 2) (λ i, i) sample_s2 0 3 (sample_call OP_SETLK 3 8 1 F_WRLCK) 0.
Definition sample_waiter : waiter :=
  Waiter (Lockf 5 true false true F_WRLCK 8 8 3 [] 100) 0 3
    (Some (Lockf 4 false false false F_UNLCK 0 0 0 [] 100)) (Some 1%nat) true.

Lemma sample_call_ok op c start len t : 0 ≤ start < 2 ^ 32 → 0 < len < 2 ^ 32 → t ≠ F_UNLCK →
  call_ok c (sample_call op c start len t) 0.
Proof.
  intros Hs Hl Ht. split; [unfold off_t; simpl; lia| |done..]. unfold range_ok, flock_range. simpl.
  destruct (Z.eqb_spec len 0); [lia|]. destruct (Z.ltb_spec 0 len); [|lia]. simpl.
  rewrite s64_id by (unfold off_t; lia). case_bool; simpl; lia.
Qed.

Lemma sample_reachable : reachable (λ _, 2) (λ i, i) sample_s3.
Proof.
  repeat (apply reachable_call; [|by apply sample_call_ok|done]). apply rtc_refl.
Qed.

(** *** The last offset

    Why [range_ok] excludes it: process 1 locks from byte 100 to the end of the
    file, process 2 locks bytes 10-19, both for writing, and process 1 unlocks
    bytes 200 to 2^63-1.  What should be left of its lock after the range
    starts at [lf_end + 1 = -2^63]: a lock that covers the whole file. *)
Definition last_s1 := call_state (λ _, 2) (λ i, i) lf_init 0 1 (sample_call OP_SETLK 1 100 0 F_WRLCK) 0.
Definition last_s2 := call_state (λ _, 2) (λ i, i) last_s1 0 2 (sample_call OP_SETLK 2 10 10 F_WRLCK) 0.
Definition last_s3 := call_state (λ _, 2) (λ i, i) last_s2 0 1
  (sample_call OP_UNLCK 1 200 (2 ^ 63 - 200) F_WRLCK) 0.

Example unlock_to_last_offset :
  flock_range (a_fl (sample_call OP_UNLCK 1 200 (2 ^ 63 - 200) F_WRLCK)) 0 = Some (200, 2 ^ 63 - 1) ∧
  (λ l, (lf_id l, lf_start l, lf_end l)) <$> file_locks last_s3 0 =
    [(1, 100, 199); (1, - 2 ^ 63, -1); (2, 10, 19)] ∧
  held (file_locks last_s3 0) 1 12 = Some F_WRLCK ∧ held (file_locks last_s3 0) 2 12 = Some F_WRLCK.
Proof. vm_compute. done. Qed.

(** ** Properties *)

(** C5: mutual exclusion of byte-range locks.  In every state that wake-ups and
    calls with a legal range can reach, two different owners that hold locks on
    the same byte of the same file both hold it for reading.  A range is legal
    when it is to the end of the file, or is not inverted (its end did not
    overflow [off_t]) and ends before the last offset, 2^63-1; the other
    conditions of [call_ok] are that a BSD lock covers the file, a process
    locks for itself, and a lock is for reading or writing.  The conditions on
    the range are needed: [unlock_to_last_offset] breaks exclusion. *)
Theorem lockf_exclusion nlwps pid s f id1 id2 b t1 t2 : reachable nlwps pid s →
  held (file_locks s f) id1 b = Some t1 → held (file_locks s f) id2 b = Some t2 → id1 ≠ id2 →
  t1 = F_RDLCK ∧ t2 = F_RDLCK.
Proof.
  intros Hs%reachable_ok H1 H2 Hne. destruct (so_locks _ s f Hs) as (Hwf & Hex & Hty).
  apply held_holds in H1 as (k1 & Hk1 & <- & Hr1 & <-); [|done].
  apply held_holds in H2 as (k2 & Hk2 & <- & Hr2 & <-); [|done].
  assert (Ho : overlaps k1 k2) by (unfold overlaps, ends_before, in_range in *; lia).
  pose proof (Hex k1 k2 Hk1 Hk2) as Hnb. unfold blocks in Hnb.
  pose proof (Hty k1 Hk1). pose proof (Hty k2 Hk2).
  destruct (lf_type k1), (lf_type k2); naive_solver.
Qed.

Lemma lockf_exclusion_witness : F_RDLCK = F_RDLCK ∧ F_RDLCK = F_RDLCK.
Proof.
  apply (lockf_exclusion (λ _, 2) (λ i, i) sample_s3 0 1 2 7); [apply sample_reachable|..];
    [vm_compute; reflexivity|vm_compute; reflexivity|done].
Defined.



(** C7: no wake-up is lost.  In every state that legal calls ([call_ok]; no
    range overflows [off_t] or ends at the offset 2^63-1) and wake-ups reach,
    a request that is asleep
    is for bytes of its file that another owner holds in a conflicting way:
    whenever the last such lock is released, shortened or downgraded the
    request is awake again. *)
Theorem sleeper_is_blocked nlwps pid s p w : reachable nlwps pid s →
  waiters (kern s) !! p = Some w → w_asleep w = true →
  conflict (file_locks s (w_file w)) (lf_id (w_lock w)) (lf_start (w_lock w)) (lf_end (w_lock w))
    (lf_type (w_lock w)).
Proof.
  intros Hs%reachable_ok Hw Ha. pose proof (so_linked _ s Hs) as Hl.
  destruct (asleep_blocked _ _ p w Hl Hw Ha) as (k & Hk & Hnx & _ & Hb).
  destruct (so_req _ s Hs p w Hw) as [_ Hr]. destruct (so_locks _ s (w_file w) Hs) as (Hwf & _ & _).
  apply conflict_blocks; [done|apply Hr|]. exists k. split; [|done].
  apply (so_home _ s Hs p w _ Hw) in Hnx. apply list_elem_of_fmap in Hnx as (k' & He & Hk').
  assert (k = k') as ->; [|done]. eapply (ptr_inj _ _ _ _ Hl); [done| |done].
  rewrite (all_locks_split s (w_file w)). set_solver.
Qed.

Lemma sleeper_is_blocked_witness : conflict (file_locks sample_s3 0) 3 8 8 F_WRLCK.
Proof.
  apply (sleeper_is_blocked (λ _, 2) (λ i, i) sample_s3 5%nat sample_waiter);
    [apply sample_reachable|vm_compute; reflexivity|done].
Defined.

(** C8: a wake-up is handled without a fault.  Whatever error [cv_wait_sig]
    returns to a pending request of a state that legal calls ([call_ok]; no
    range overflows [off_t] or ends at the offset 2^63-1) and wake-ups reach,
    the request leaves the
    queue it is on, if any, and the call ends or sleeps again: no KASSERT
    fails and no freed structure is reached. *)
Theorem woken_request_returns nlwps pid s p w error : reachable nlwps pid s →
  waiters (kern s) !! p = Some w → ∃ o, lf_setlock_woken nlwps s p error = Ok o ∧
    match o with
    | Done e sp s' => error ≠ 0 → e = error ∧ waiters (kern s') = delete p (waiters (kern s))
    | Sleep s' => error = 0 ∧ lf_wait (w_lock w) = true
    end.
Proof.
  intros Hs%reachable_ok Hw. unfold lf_setlock_woken. rewrite Hw. fold (leave s p w).
  pose proof (sys_ok_leave s p w Hs Hw) as Hl. destruct (so_req _ s Hs p w Hw) as [_ Hr].
  destruct (Z.eqb_spec error 0) as [->|]; simpl; [|eexists; split; [done|done]].
  destruct (lf_setlock_spec nlwps _ (w_file w) (w_proc w) _ _ Hl Hr) as (o & Ho & Hres).
  exists o. split; [done|]. destruct o; [done|]. split; [done|apply Hres].
Qed.

Lemma woken_request_returns_witness : ∃ o, lf_setlock_woken (λ _, 2) sample_s3 5 0 = Ok o ∧
  match o with
  | Done e sp s' => 0 ≠ 0 → e = 0 ∧ waiters (kern s') = delete 5%nat (waiters (kern sample_s3))
  | Sleep s' => 0 = 0 ∧ lf_wait (w_lock sample_waiter) = true
  end.
Proof.
  apply (woken_request_returns (λ _, 2) (λ i, i) sample_s3 5 sample_waiter 0);
    [apply sample_reachable|vm_compute; reflexivity].
Defined.
