(* ===== verification/Clist.v ===== *)
(** * Terminal queues: ring buffers with a quote bit per character
      (kern/tty_subr.c)

    The buffer [c_cs] and the bit array [c_cq] are lists of bytes, absent when
    the pointer is null; the pointers [c_cf] and [c_cl] into the buffer are
    offsets, [None] when null; [c_ce] is the offset [c_cn]. *)

From S2P Require Export Bits.

Definition TTY_QUOTE : Z := 0x100.
Definition QMEM (n : Z) : Z := (n - 1) / NBBY + 1.

(** [memcpy] out of and into an array. *)
Definition copyout (a : list Z) (off n : Z) : res (list Z) :=
  if (off <? 0) || (n <? 0) || (Z.of_nat (length a) <? off + n) then Fault OutOfBounds
  else Ok (take (Z.to_nat n) (drop (Z.to_nat off) a)).
Definition copyin (a : list Z) (off : Z) (b : list Z) : res (list Z) :=
  if (off <? 0) || (Z.of_nat (length a) <? off + Z.of_nat (length b)) then Fault OutOfBounds
  else Ok (take (Z.to_nat off) a ++ b ++ drop (Z.to_nat off + length b) a).

Record clist := Clist {
  c_cf : option Z;         (** first character *)
  c_cl : option Z;         (** next open character *)
  c_cs : option (list Z);  (** the ring buffer *)
  c_cq : option (list Z);  (** the quote bits *)
  c_cc : Z;                (** characters in the queue *)
  c_cn : Z;                (** length of the buffer *)
}.

Definition deref {A} (p : option A) : res A :=
  match p with Some a => Ok a | None => Fault NullDeref end.

Definition set_pos (q : clist) (cf cl : option Z) (cc : Z) : clist :=
  Clist cf cl (c_cs q) (c_cq q) cc (c_cn q).
Definition set_mem (q : clist) (cs cq : option (list Z)) : clist :=
  Clist (c_cf q) (c_cl q) cs cq (c_cc q) (c_cn q).

(** ** Creation *)

Definition clalloc (size : Z) (quot : bool) : clist :=
  Clist None None (Some (replicate (Z.to_nat size) 0))
    (if quot then Some (replicate (Z.to_nat (QMEM size)) 0) else None) 0 size.

Definition clfree (q : clist) : clist := set_mem q None None.

(** The quote bit of the character at offset [i], as an addend. *)
Definition quote_at (q : clist) (i : Z) : res Z :=
  match c_cq q with
  | None => mret 0
  | Some cq => b ← isset cq i; mret (if b : bool then TTY_QUOTE else 0)
  end.

(** [if (++p == c_ce) p = c_cs] *)
Definition wrap (q : clist) (i : Z) : Z := if i =? c_cn q then 0 else i.

(** ** One character at a time *)

Definition getc (q : clist) : res (Z * clist) :=
  if c_cc q =? 0 then mret (-1, q)
  else
    cs ← deref (c_cs q);
    cf ← deref (c_cf q);
    b ← get cs cf;
    quote ← quote_at q cf;
    cs ← put cs cf 0;
    let q := set_mem q (Some cs) (c_cq q) in
    let q := set_pos q (Some (wrap q (cf + 1))) (c_cl q) (c_cc q - 1) in
    mret ((b .& 0xff) .| quote, if c_cc q =? 0 then set_pos q None None 0 else q).

(** The buffer is allocated when it is missing; an empty queue starts at its
    beginning. *)
Definition clstart (q : clist) : clist :=
  if c_cc q =? 0 then
    let q := match c_cs q with None => clalloc (c_cn q) true | Some _ => q end in
    set_pos q (Some 0) (Some 0) (c_cc q)
  else q.

Definition putc (c : Z) (q : clist) : res (Z * clist) :=
  if c_cc q =? c_cn q then mret (-1, q)
  else
    let q := clstart q in
    cs ← deref (c_cs q);
    i ← deref (c_cl q);
    cs ← put cs i (c .& 0xff);
    cq ← match c_cq q with
         | None => mret None
         | Some cq => Some <$> (if negb (c .& TTY_QUOTE =? 0) then setbit cq i else clrbit cq i)
         end;
    let q := set_mem q (Some cs) cq in
    mret (0, set_pos q (c_cf q) (Some (wrap q (i + 1))) (c_cc q + 1)).

Definition unputc (q : clist) : res (Z * clist) :=
  if c_cc q =? 0 then mret (-1, q)
  else
    cl ← deref (c_cl q);
    let cl := if cl =? 0 then c_cn q - 1 else cl - 1 in
    cs ← deref (c_cs q);
    b ← get cs cl;
    quote ← quote_at q cl;
    let cc := c_cc q - 1 in
    mret ((b .& 0xff) .| quote,
          if cc =? 0 then set_pos q None None 0 else set_pos q (c_cf q) (Some cl) cc).

(** ** Many characters at a time *)

(** The length of the run that starts at [c_cf]. *)
Definition run_length (q : clist) (cf cl : Z) : Z := if cl <=? cf then c_cn q - cf else cl - cf.

Fixpoint q_to_b_loop (fuel : nat) (q : clist) (count : Z) (p : list Z) : res (list Z * clist) :=
  match fuel with
  | O => Fault NoFuel
  | S fuel =>
      if (0 <? count) && (0 <? c_cc q) then
        cf ← deref (c_cf q);
        cl ← deref (c_cl q);
        let cc := run_length q cf cl in
        let cc := if count <? cc then count else cc in
        cs ← deref (c_cs q);
        b ← copyout cs cf cc;
        q_to_b_loop fuel (set_pos q (Some (wrap q (cf + cc))) (Some cl) (c_cc q - cc))
          (count - cc) (p ++ b)
      else mret (p, q)
  end.

(** Twice around the ring is the most the loops turn: one turn ends at the end
    of the buffer or of the characters. *)
Definition ring_fuel : nat := 4.

(** The bytes copied out; the result of the C function is their number. *)
Definition q_to_b (q : clist) (count : Z) : res (list Z * clist) :=
  '(p, q) ← q_to_b_loop ring_fuel q count [];
  mret (p, if c_cc q =? 0 then set_pos q None None 0 else q).

Fixpoint ndflush_loop (fuel : nat) (q : clist) (count : Z) : res clist :=
  match fuel with
  | O => Fault NoFuel
  | S fuel =>
      if (0 <? count) && (0 <? c_cc q) then
        cf ← deref (c_cf q);
        cl ← deref (c_cl q);
        let cc := run_length q cf cl in
        let cc := if count <? cc then count else cc in
        ndflush_loop fuel (set_pos q (Some (wrap q (cf + cc))) (Some cl) (c_cc q - cc)) (count - cc)
      else mret q
  end.

Definition ndflush (q : clist) (count : Z) : res clist :=
  if count =? c_cc q then mret (set_pos q None None 0)
  else
    q ← ndflush_loop ring_fuel q count;
    mret (if c_cc q =? 0 then set_pos q None None 0 else q).

(** [cc] characters are left; [i] is the offset of the next one. *)
Fixpoint ndqb_loop (cc : nat) (cs : list Z) (cq : option (list Z)) (cn flag i count : Z) : res Z :=
  match cc with
  | O => mret count
  | S cc =>
      b ← get cs i;
      let i := i + 1 in
      stop ← (if negb (flag .& TTY_QUOTE =? 0) then
                if negb (b .& (flag .& Z.lnot TTY_QUOTE) =? 0) then mret true
                else cq ← deref cq; isset cq i
              else mret (negb (b .& flag =? 0)));
      if stop : bool then mret count
      else if i =? cn then mret (count + 1)
      else ndqb_loop cc cs cq cn flag i (count + 1)
  end.

Definition ndqb (q : clist) (flag : Z) : res Z :=
  if c_cc q =? 0 then mret 0
  else
    cf ← deref (c_cf q);
    cl ← deref (c_cl q);
    if flag =? 0 then mret (if cl - cf <=? 0 then c_cn q - cf else cl - cf)
    else cs ← deref (c_cs q); ndqb_loop (Z.to_nat (c_cc q)) cs (c_cq q) (c_cn q) flag cf 0.

(** The bytes strictly between [scp] and [ecp] become 0. *)
Fixpoint zero_bytes (n : nat) (cp : list Z) (i : Z) : res (list Z) :=
  match n with
  | O => mret cp
  | S n => cp ← put cp i 0; zero_bytes n cp (i + 1)
  end.

Definition clrbits (cp : list Z) (off len : Z) : res (list Z) :=
  let scp := off / NBBY in
  let sbi := off mod NBBY in
  let end_ := off + len + NBBY - 1 in
  let ecp := end_ / NBBY - 1 in
  let ebi := end_ mod NBBY + 1 in
  if ecp <=? scp then
    let mask := u8 (Z.shiftl (Z.shiftl 1 len - 1) sbi) in
    b ← get cp scp; put cp scp (b .& Z.lnot mask)
  else
    let mask := u8 (Z.shiftl 1 sbi - 1) in
    b ← get cp scp; cp ← put cp scp (b .& mask);
    let mask := u8 (Z.shiftl 1 ebi - 1) in
    b ← get cp ecp; cp ← put cp ecp (b .& Z.lnot mask);
    zero_bytes (Z.to_nat (ecp - (scp + 1))) cp (scp + 1).

Fixpoint b_to_q_loop (fuel : nat) (p : list Z) (q : clist) : res (Z * clist) :=
  match fuel with
  | O => Fault NoFuel
  | S fuel =>
      let count := Z.of_nat (length p) in
      if (0 <? count) && (c_cc q <? c_cn q) then
        cf ← deref (c_cf q);
        cl ← deref (c_cl q);
        let cc := if cl <? cf then cf - cl else c_cn q - cl in
        let cc := if count <? cc then count else cc in
        cs ← deref (c_cs q);
        cs ← copyin cs cl (take (Z.to_nat cc) p);
        cq ← match c_cq q with None => mret None | Some cq => Some <$> clrbits cq cl cc end;
        let q := set_mem q (Some cs) cq in
        b_to_q_loop fuel (drop (Z.to_nat cc) p)
          (set_pos q (Some cf) (Some (wrap q (cl + cc))) (c_cc q + cc))
      else mret (count, q)
  end.

Definition b_to_q (p : list Z) (q : clist) : res (Z * clist) :=
  if Z.of_nat (length p) <=? 0 then mret (0, q)
  else if c_cc q =? c_cn q then mret (Z.of_nat (length p), q)
  else b_to_q_loop ring_fuel p (clstart q).

(** ** Walking over the queue: [cc] is the variable of the file. *)

Definition firstc (q : clist) : res (option (Z * Z) * Z) :=
  let cc := c_cc q in
  if cc =? 0 then mret (None, cc)
  else
    cf ← deref (c_cf q);
    cs ← deref (c_cs q);
    b ← get cs cf;
    quote ← quote_at q cf;
    mret (Some (cf, (b .& 0xff) .| quote), cc).

Definition nextc (q : clist) (cp cc : Z) : res (option (Z * Z) * Z) :=
  let cc := if bool_decide (c_cf q = Some cp) then c_cc q else cc in
  if cc =? 0 then mret (None, cc)
  else
    let cc := cc - 1 in
    if cc =? 0 then mret (None, cc)
    else
      let cp := wrap q (cp + 1) in
      cs ← deref (c_cs q);
      b ← get cs cp;
      quote ← quote_at q cp;
      mret (Some (cp, (b .& 0xff) .| quote), cc).

(** ** Concatenation: what does not fit is lost. *)
Fixpoint catq_loop (fuel : nat) (from to : clist) : res (clist * clist) :=
  match fuel with
  | O => Fault NoFuel
  | S fuel =>
      '(c, from) ← getc from;
      if c =? -1 then mret (from, to)
      else '(_, to) ← putc c to; catq_loop fuel from to
  end.

Definition catq (from to : clist) : res (clist * clist) :=
  catq_loop (S (Z.to_nat (c_cc from))) from to.
