(* ===== verification/ClistSpec.v ===== *)
(** * A terminal queue is a bounded queue of characters

    The abstract state of a ring buffer is the list of its characters, with the
    quote bit.  This file proves that each operation implements the list
    operation its comment names, on every state that the operations can build. *)

From S2P Require Export Clist.

(** Division and remainder by constants in [lia]. *)
#[local] Ltac Zify.zify_post_hook ::= Z.to_euclidean_division_equations.

(** ** Clearing bits of an array *)

(** [r] is the array [a] with the bits that [f] selects cleared. *)
Definition clears (a : list Z) (f : Z → bool) (r : res (list Z)) : Prop :=
  ∃ a', r = Ok a' ∧ length a' = length a ∧ bytes_wf a' ∧
    ∀ j, 0 ≤ j → bit a' j = negb (f j) && bit a j.

Lemma u8_land b x : is_u8 b → is_u8 (b .& x).
Proof.
  intros Hb. assert (0 ≤ b .& x) by (apply Z.land_nonneg; left; apply Hb).
  split; [done|]. apply below_pow2_testbit; [done..|]. intros i Hi.
  by rewrite Z.land_spec, testbit_u8.
Qed.

Lemma clear_masked a i m (f : Z → bool) : 0 ≤ i < Z.of_nat (length a) → bytes_wf a →
  (∀ n, 0 ≤ n < 8 → Z.testbit m n = negb (f (NBBY * i + n))) →
  (∀ j, j / NBBY ≠ i → f j = false) →
  clears a f (b ← get a i; put a i (b .& m)).
Proof.
  intros Hi Hwf Hm Hf. destruct (get_total a i Hi) as (b & -> & Hb). simpl.
  pose proof (get_byte_wf a i b Hwf Hb) as Hb8.
  assert (Hdiv : NBBY * i / NBBY = i) by (unfold NBBY; lia).
  destruct (byte_update a (NBBY * i) (b .& m) (λ j x, negb (f j) && x)) as (a' & Hp & H).
  - unfold has_bit, NBBY. lia.
  - done.
  - by apply u8_land.
  - intros n Hn. rewrite Hdiv, Z.land_spec, Hm, (bit_in_byte a i n b) by (done || lia). apply andb_comm.
  - intros j Hj. rewrite Hdiv in Hj. by rewrite Hf.
  - rewrite Hdiv in Hp. exists a'. done.
Qed.

Lemma clears_bind a f g h r (k : list Z → res (list Z)) : clears a f r →
  (∀ a', length a' = length a → bytes_wf a' → clears a' g (k a')) →
  (∀ j, 0 ≤ j → h j = f j || g j) → clears a h (r ≫= k).
Proof.
  intros (a1 & -> & Hl & Hwf & Hb) Hk Hh. destruct (Hk a1 Hl Hwf) as (a2 & Hr & Hl2 & Hwf2 & Hb2).
  exists a2. simpl. split_and!; [done|congruence|done|]. intros j Hj.
  rewrite Hb2, Hb, Hh, negb_orb by done. rewrite andb_assoc. f_equal. apply andb_comm.
Qed.

Lemma clears_seq a f g h i x (k : list Z → res (list Z)) : clears a f (b ← get a i; put a i (x b)) →
  (∀ a', length a' = length a → bytes_wf a' → clears a' g (k a')) →
  (∀ j, 0 ≤ j → h j = f j || g j) → clears a h (b ← get a i; cp ← put a i (x b); k cp).
Proof.
  intros Hf Hk Hh. assert (He : (b ← get a i; cp ← put a i (x b); k cp) =
    ((b ← get a i; put a i (x b)) ≫= k)) by by destruct (get a i).
  rewrite He. by eapply clears_bind.
Qed.

Lemma clears_ext a f g r : (∀ j, 0 ≤ j → f j = g j) → clears a f r → clears a g r.
Proof.
  intros He (a' & ? & ? & ? & Hb). exists a'. split_and!; [done..|]. intros j Hj. by rewrite Hb, He.
Qed.

Lemma zero_bytes_spec n : ∀ a i, 0 ≤ i → i + Z.of_nat n ≤ Z.of_nat (length a) → bytes_wf a →
  clears a (λ j, (i <=? j / NBBY) && (j / NBBY <? i + Z.of_nat n)) (zero_bytes n a i).
Proof.
  induction n as [|n IH]; intros a i Hi Hn Hwf.
  - exists a. split_and!; [done..|]. intros j Hj.
    replace ((i <=? j / NBBY) && _) with false by (unfold NBBY; lia). done.
  - cbn [zero_bytes].
    assert (Hput : put a i 0 = (b ← get a i; put a i (b .& 0))).
    { destruct (get_total a i) as (b & -> & _); [lia|]. simpl. by rewrite Z.land_0_r. }
    rewrite Hput. eapply (clears_bind _ (λ j, j / NBBY =? i)).
    + apply clear_masked; [lia|done| |].
      * intros m Hm. rewrite Z.testbit_0_l. unfold NBBY. lia.
      * intros j Hj. lia.
    + intros a' Hl Hwf'. apply IH; [lia|lia|done].
    + intros j Hj. simpl. unfold NBBY. lia.
Qed.

Lemma testbit_ones_shift len sbi n : 0 ≤ len → 0 ≤ sbi → 0 ≤ n →
  Z.testbit (Z.shiftl (Z.shiftl 1 len - 1) sbi) n = (sbi <=? n) && (n <? sbi + len).
Proof.
  intros Hl Hs Hn. rewrite Z.shiftl_1_l. replace (2 ^ len - 1) with (Z.ones len) by (rewrite Z.ones_equiv; lia).
  rewrite Z.shiftl_spec by done. destruct (Z.leb_spec sbi n); simpl.
  - rewrite Z.testbit_ones_nonneg by lia. lia.
  - by rewrite Z.testbit_neg_r by lia.
Qed.
Lemma testbit_ones len n : 0 ≤ len → 0 ≤ n → Z.testbit (Z.shiftl 1 len - 1) n = (n <? len).
Proof.
  intros Hl Hn. rewrite Z.shiftl_1_l. replace (2 ^ len - 1) with (Z.ones len) by (rewrite Z.ones_equiv; lia).
  by apply Z.testbit_ones_nonneg.
Qed.

Lemma clrbits_spec a off len : 0 ≤ off → 0 < len → off + len ≤ NBBY * Z.of_nat (length a) →
  bytes_wf a → clears a (λ j, (off <=? j) && (j <? off + len)) (clrbits a off len).
Proof.
  intros Ho Hl Ha Hwf. unfold clrbits, NBBY in *.
  destruct (Z.leb_spec ((off + len + 8 - 1) / 8 - 1) (off / 8)) as [Hc|Hc].
  - apply clear_masked; [lia|done| |].
    + intros n Hn. rewrite Z.lnot_spec, testbit_u8_trunc, testbit_ones_shift by lia. unfold NBBY. lia.
    + intros j Hj. unfold NBBY in *. lia.
  - eapply (clears_seq a (λ j, (off <=? j) && (j / 8 =? off / 8))).
    + apply clear_masked; [lia|done| |].
      * intros n Hn. rewrite testbit_u8_trunc, testbit_ones by lia. unfold NBBY. lia.
      * intros j Hj. unfold NBBY in *. lia.
    + intros a1 Hl1 Hwf1.
      eapply (clears_seq a1 (λ j, (j <? off + len) && (j / 8 =? (off + len + 8 - 1) / 8 - 1))).
      * apply clear_masked; [lia|done| |].
        -- intros n Hn. rewrite Z.lnot_spec, testbit_u8_trunc, testbit_ones by lia. unfold NBBY. lia.
        -- intros j Hj. unfold NBBY in *. lia.
      * intros a2 Hl2 Hwf2. apply zero_bytes_spec; [lia|lia|done].
      * intros j Hj. reflexivity.
    + intros j Hj. cbv beta. unfold NBBY. rewrite Z2Nat.id by lia. lia.
Qed.

(** [clrbits] does what the loop of [clrbit] in its comment means to. *)
Fixpoint clrbit_loop (n : nat) (cp : list Z) (off : Z) : res (list Z) :=
  match n with
  | O => mret cp
  | S n => cp ← clrbit cp off; clrbit_loop n cp (off + 1)
  end.

Lemma clrbit_loop_spec n : ∀ a off, 0 ≤ off → off + Z.of_nat n ≤ NBBY * Z.of_nat (length a) →
  bytes_wf a → clears a (λ j, (off <=? j) && (j <? off + Z.of_nat n)) (clrbit_loop n a off).
Proof.
  induction n as [|n IH]; intros a off Ho Hn Hwf.
  - exists a. split_and!; [done..|]. intros j Hj.
    by replace ((off <=? j) && _) with false by lia.
  - cbn [clrbit_loop]. eapply (clears_bind _ (λ j, j =? off)).
    + apply clrbit_spec; [|done]. unfold has_bit, NBBY in *. lia.
    + intros a' Hl Hwf'. apply IH; [lia|lia|done].
    + intros j Hj. simpl. lia.
Qed.

(** An array is determined by its bits. *)
Lemma bits_ext a b : bytes_wf a → bytes_wf b → length a = length b →
  (∀ j, 0 ≤ j → bit a j = bit b j) → a = b.
Proof.
  intros Ha Hb Hl Hj. apply list_eq_same_length with (length a); [done|done|].
  intros i x y Hi Hx Hy. apply Z.bits_inj'. intros n Hn.
  destruct (decide (n < 8)).
  - rewrite <-(Nat2Z.id i) in Hx, Hy.
    rewrite <-(bit_in_byte a (Z.of_nat i) n x), <-(bit_in_byte b (Z.of_nat i) n y) by (done || lia).
    apply Hj. unfold NBBY. lia.
  - rewrite !testbit_u8; [done|eapply get_byte_wf; [exact Hb|by rewrite Nat2Z.id]|lia| |lia].
    eapply get_byte_wf; [exact Ha|by rewrite Nat2Z.id].
Qed.

(** ** The ring *)

(** The slot [i] places after [f]. *)
Definition slot (n f i : Z) : Z := if f + i <? n then f + i else f + i - n.

(** The character in slot [j]. *)
Definition chr (q : clist) (j : Z) : Z :=
  default 0 (default [] (c_cs q) !! Z.to_nat j) +
  match c_cq q with Some cq => if bit cq j then TTY_QUOTE else 0 | None => 0 end.

(** The abstract state. *)
Definition contents (q : clist) : list Z :=
  (λ i, chr q (slot (c_cn q) (default 0 (c_cf q)) i)) <$> seqZ 0 (c_cc q).

Definition mem_ok (q : clist) : Prop :=
  0 < c_cn q ∧
  match c_cs q with
  | None => c_cc q = 0
  | Some cs => Z.of_nat (length cs) = c_cn q ∧ bytes_wf cs
  end ∧
  match c_cq q with
  | None => True
  | Some cq => c_cn q ≤ NBBY * Z.of_nat (length cq) ∧ bytes_wf cq
  end.

(** The pointers of a queue that is being filled or emptied. *)
Definition ring_at (q : clist) (f : Z) : Prop :=
  is_Some (c_cs q) ∧ c_cf q = Some f ∧ 0 ≤ f < c_cn q ∧ c_cl q = Some (slot (c_cn q) f (c_cc q)) ∧
  0 ≤ c_cc q ≤ c_cn q.

(** An empty queue has null pointers between two calls. *)
Definition clist_ok (q : clist) : Prop :=
  mem_ok q ∧ if c_cc q =? 0 then c_cf q = None ∧ c_cl q = None else ∃ f, ring_at q f.

(** Decide the comparisons of a goal about slots, the inner ones first. *)
Ltac slots := unfold slot, wrap, run_length in *; simpl in *;
  repeat match goal with
  | |- context [?a <? ?b] => destruct (Z.ltb_spec a b)
  | |- context [?a <=? ?b] => destruct (Z.leb_spec a b)
  end;
  repeat match goal with |- context [?a =? ?b] => destruct (Z.eqb_spec a b) end;
  try (f_equal; lia).

Lemma slot_bounds n f i : 0 ≤ f < n → 0 ≤ i < n → 0 ≤ slot n f i < n.
Proof. intros. slots; lia. Qed.

Lemma contents_length q : Z.of_nat (length (contents q)) = Z.max 0 (c_cc q).
Proof. unfold contents. rewrite length_fmap, length_seqZ. lia. Qed.

Lemma contents_empty q : c_cc q = 0 → contents q = [].
Proof. unfold contents. by intros ->. Qed.

Lemma contents_cons q f : ring_at q f → 0 < c_cc q →
  contents q = chr q f :: ((λ i, chr q (slot (c_cn q) f (i + 1))) <$> seqZ 0 (c_cc q - 1)).
Proof.
  intros (_ & Hf & Hfb & _ & Hc) Hp. unfold contents. rewrite Hf. simpl.
  rewrite seqZ_cons, fmap_cons by lia. f_equal; [f_equal; unfold slot; case_bool; lia|].
  replace (Z.succ 0) with (1 + 0) by lia. rewrite <-fmap_add_seqZ, <-list_fmap_compose.
  replace (Z.pred (c_cc q)) with (c_cc q - 1) by lia. apply list_fmap_ext. intros i x _. simpl. do 2 f_equal. lia.
Qed.

Lemma contents_ext q q' n : c_cc q' = c_cc q → c_cn q' = n → c_cn q = n → c_cf q' = c_cf q →
  (∀ i, 0 ≤ i < c_cc q → chr q' (slot n (default 0 (c_cf q)) i) = chr q (slot n (default 0 (c_cf q)) i)) →
  contents q' = contents q.
Proof.
  intros Hc <- Hn Hf He. unfold contents. rewrite Hc, Hf, Hn. apply list_fmap_ext. intros i x Hx.
  apply lookup_seqZ in Hx as [-> Hi]. apply He. lia.
Qed.

(** A write into the slot after the last character. *)
Lemma contents_snoc q q' f : ring_at q f → c_cc q < c_cn q →
  c_cc q' = c_cc q + 1 → c_cn q' = c_cn q → c_cf q' = Some f →
  (∀ j, 0 ≤ j < c_cn q → j ≠ slot (c_cn q) f (c_cc q) → chr q' j = chr q j) →
  contents q' = contents q ++ [chr q' (slot (c_cn q) f (c_cc q))].
Proof.
  intros (_ & Hf & Hfb & _ & Hc) Hlt Hc' Hn' Hf' He. unfold contents. rewrite Hc', Hn', Hf, Hf'. simpl.
  rewrite seqZ_app, fmap_app by lia. f_equal.
  apply list_fmap_ext. intros i x Hx. apply lookup_seqZ in Hx as [-> Hi].
  apply He; [apply slot_bounds; lia|]. unfold slot. repeat case_bool; lia.
Qed.

Definition keeps_quote (q : clist) : bool :=
  match c_cs q with None => true | Some _ => bool_decide (is_Some (c_cq q)) end.
(** What the queue stores of a character. *)
Definition stored (q : clist) (c : Z) : Z :=
  (c .& 0xff) + (if keeps_quote q && negb (c .& TTY_QUOTE =? 0) then TTY_QUOTE else 0).

Lemma replicate_bytes n : bytes_wf (replicate n 0).
Proof. apply Forall_replicate. by_decide. Qed.

Lemma clalloc_mem n quot : 0 < n → mem_ok (clalloc n quot).
Proof.
  intros Hn. split; [done|]. split.
  - simpl. rewrite length_replicate. split; [lia|apply replicate_bytes].
  - destruct quot; simpl; [|done]. rewrite length_replicate. unfold QMEM, NBBY.
    split; [lia|apply replicate_bytes].
Qed.

(** The queue is ready to take a character. *)
Lemma clstart_spec q : clist_ok q → c_cc q < c_cn q → ∃ f,
  mem_ok (clstart q) ∧ ring_at (clstart q) f ∧ contents (clstart q) = contents q ∧
  c_cc (clstart q) = c_cc q ∧ c_cn (clstart q) = c_cn q ∧ keeps_quote (clstart q) = keeps_quote q ∧
  is_Some (c_cs (clstart q)).
Proof.
  intros [Hm Hr] Hlt. pose proof Hm as (Hn & Hcs & Hcq).
  unfold clstart. destruct (Z.eqb_spec (c_cc q) 0) as [H0|H0].
  - exists 0. destruct (c_cs q) as [cs|] eqn:Ecs.
    + split_and!; [|..].
      * split; [done|]. simpl. rewrite Ecs. done.
      * split; [simpl; rewrite Ecs; by eexists|]. simpl. rewrite H0. unfold slot.
        split_and!; [done|lia|lia|by case_bool; f_equal; lia|lia|lia].
      * rewrite !contents_empty by done. done.
      * done.
      * done.
      * unfold keeps_quote. simpl. by rewrite Ecs.
      * simpl. by rewrite Ecs.
    + pose proof (clalloc_mem (c_cn q) true Hn) as Ha. split_and!.
      * exact Ha.
      * split; [by eexists|]. simpl. unfold slot. split_and!; [done|lia|lia|by case_bool; f_equal; lia|lia|lia].
      * rewrite !contents_empty by done. done.
      * done.
      * done.
      * unfold keeps_quote. simpl. by rewrite Ecs.
      * by eexists.
  - destruct Hr as [f Hr]. exists f.
    split_and!; try done. by destruct Hr.
Qed.

(** Writing one slot, with or without its quote bit. *)
Lemma write_slot q cs j b quote : mem_ok q → c_cs q = Some cs → 0 ≤ j < c_cn q → is_u8 b →
  ∃ cs' cq', put cs j b = Ok cs' ∧
    match c_cq q with
    | None => mret None
    | Some cq => Some <$> (if quote : bool then setbit cq j else clrbit cq j)
    end = Ok cq' ∧
    mem_ok (set_mem q (Some cs') cq') ∧ bool_decide (is_Some cq') = bool_decide (is_Some (c_cq q)) ∧
    chr (set_mem q (Some cs') cq') j = b + (if bool_decide (is_Some (c_cq q)) && quote then TTY_QUOTE else 0) ∧
    ∀ i, 0 ≤ i → i ≠ j → chr (set_mem q (Some cs') cq') i = chr q i.
Proof.
  intros (Hn & Hcs & Hcq) Ecs Hj Hb. rewrite Ecs in Hcs. destruct Hcs as [Hl Hwf].
  exists (<[Z.to_nat j:=b]> cs). rewrite put_total by lia.
  assert (Hj0 : default 0 ((<[Z.to_nat j:=b]> cs) !! Z.to_nat j) = b) by (by rewrite list_lookup_insert_eq by lia).
  assert (Hi0 : ∀ i, 0 ≤ i → i ≠ j → (<[Z.to_nat j:=b]> cs) !! Z.to_nat i = cs !! Z.to_nat i).
  { intros i Hi Hne. apply list_lookup_insert_ne. lia. }
  assert (Hwf' : Z.of_nat (length (<[Z.to_nat j:=b]> cs)) = c_cn q ∧ bytes_wf (<[Z.to_nat j:=b]> cs)).
  { rewrite length_insert. split; [done|by apply Forall_insert]. }
  destruct (c_cq q) as [cq|] eqn:Ecq.
  - destruct Hcq as [Hlq Hwfq]. assert (Hh : has_bit cq j) by (unfold has_bit; lia).
    assert (∃ cq', (if quote then setbit cq j else clrbit cq j) = Ok cq' ∧ length cq' = length cq ∧
      bytes_wf cq' ∧ ∀ i, 0 ≤ i → bit cq' i = if i =? j then quote else bit cq i) as (cq' & -> & Hl' & Hw' & Hbit).
    { destruct quote.
      - destruct (setbit_spec cq j Hh Hwfq) as (a & -> & ? & ? & Hbit). exists a. split_and!; [done..|].
        intros i Hi. rewrite Hbit by done. by destruct (i =? j).
      - destruct (clrbit_spec cq j Hh Hwfq) as (a & -> & ? & ? & Hbit). exists a. split_and!; [done..|].
        intros i Hi. rewrite Hbit by done. by destruct (i =? j). }
    exists (Some cq'). split_and!; try done.
    + split; [done|]. split; [exact Hwf'|]. split; [simpl; lia|done].
    + unfold chr. simpl. rewrite Hj0, Hbit, Z.eqb_refl by lia. done.
    + intros i Hi Hne. unfold chr. simpl. rewrite Hi0, Hbit, Ecs, Ecq by done.
      by rewrite (proj2 (Z.eqb_neq i j)).
  - exists None. split_and!; try done.
    + unfold chr. simpl. rewrite Hj0. done.
    + intros i Hi Hne. unfold chr. simpl. by rewrite Hi0, Ecs, Ecq.
Qed.

Lemma land_ff c : is_u8 (c .& 0xff).
Proof.
  assert (0 ≤ c .& 0xff) by (apply Z.land_nonneg; lia). split; [done|].
  change 0xff with (Z.ones 8). rewrite Z.land_ones by lia. by apply Z.mod_pos_bound.
Qed.
Lemma land_ff_id b : is_u8 b → b .& 0xff = b.
Proof. intros Hb. change 0xff with (Z.ones 8). rewrite Z.land_ones by lia. by apply Z.mod_small. Qed.
Lemma lor_quote b c : is_u8 b → (c = 0 ∨ c = TTY_QUOTE) → b .| c = b + c.
Proof.
  intros Hb [->| ->]; [by rewrite Z.lor_0_r, Z.add_0_r|].
  assert (Hd : Z.land b TTY_QUOTE = 0).
  { apply Z.bits_inj'. intros i Hi. rewrite Z.land_spec, Z.testbit_0_l. unfold TTY_QUOTE.
    change 0x100 with (2 ^ 8). rewrite Z.pow2_bits_eqb by lia.
    destruct (Z.eqb_spec 8 i) as [<-|]; [by rewrite testbit_u8|by rewrite andb_false_r]. }
  pose proof (Z.add_lor_land b TTY_QUOTE) as H. rewrite Hd in H. lia.
Qed.

Lemma ring_at_ok q f : mem_ok q → ring_at q f → 0 < c_cc q → clist_ok q.
Proof. intros Hm Hr Hc. split; [done|]. rewrite (proj2 (Z.eqb_neq _ _)) by lia. by exists f. Qed.

Lemma slot_next n f c : 0 ≤ f < n → 0 ≤ c < n →
  (if slot n f c + 1 =? n then 0 else slot n f c + 1) = slot n f (c + 1).
Proof. intros. slots; lia. Qed.

Lemma putc_spec c q : clist_ok q → ∃ r q', putc c q = Ok (r, q') ∧ clist_ok q' ∧
  c_cn q' = c_cn q ∧
  if c_cc q =? c_cn q then r = -1 ∧ q' = q
  else r = 0 ∧ contents q' = contents q ++ [stored q c] ∧ c_cc q' = c_cc q + 1 ∧
    keeps_quote q' = keeps_quote q.
Proof.
  intros Hok. unfold putc. destruct (Z.eqb_spec (c_cc q) (c_cn q)) as [He|He]; [by eauto 10|].
  assert (Hlt : c_cc q < c_cn q).
  { destruct Hok as [(Hn & _ & _) Hr]. destruct (Z.eqb_spec (c_cc q) 0); [lia|].
    destruct Hr as (f & _ & _ & _ & _ & ?). lia. }
  destruct (clstart_spec q Hok Hlt) as (f & Hm & Hr & Hcon & Hcc & Hcn & Hkq & [cs Ecs]).
  set (q1 := clstart q) in *. pose proof Hr as (_ & Hf & Hfb & Hl & Hcb).
  rewrite Ecs, Hl. csimpl. assert (Hj : 0 ≤ slot (c_cn q1) f (c_cc q1) < c_cn q1) by (apply slot_bounds; lia).
  destruct (write_slot q1 cs _ (c .& 0xff) (negb (c .& TTY_QUOTE =? 0)) Hm Ecs Hj (land_ff c))
    as (cs' & cq' & -> & Hq & Hm' & Hsame & Hchr & Hother). csimpl.
  rewrite Hq. csimpl.
  set (q2 := set_pos _ _ _ _).
  assert (Hr2 : ring_at q2 f).
  { unfold q2. split; [by eexists|]. simpl. split_and!; [by rewrite Hf|lia|lia| |lia|lia].
    f_equal. unfold wrap. simpl. apply slot_next; lia. }
  exists 0, q2. split; [done|]. split.
  { apply (ring_at_ok q2 f); [|done|simpl; lia]. destruct Hm' as (? & ? & ?). split_and!; [done|simpl in *|done].
    done. }
  split; [simpl; lia|]. split; [done|]. split; [|split; [simpl; lia|]].
  - rewrite <-Hcon, (contents_snoc q1 q2 f); [| |lia|done..|]; [|done|].
    + f_equal. f_equal. etrans; [exact Hchr|]. unfold stored. rewrite <-Hkq. unfold keeps_quote.
      by rewrite Ecs.
    + intros j Hjb Hne. apply Hother; [lia|done].
  - rewrite <-Hkq. unfold keeps_quote. simpl. by rewrite Ecs.
Qed.

Lemma quote_at_spec q j : mem_ok q → 0 ≤ j < c_cn q → ∃ d, quote_at q j = Ok d ∧
  (d = 0 ∨ d = TTY_QUOTE) ∧ d = match c_cq q with Some cq => if bit cq j then TTY_QUOTE else 0 | None => 0 end.
Proof.
  intros (Hn & _ & Hcq) Hj. unfold quote_at. destruct (c_cq q) as [cq|]; [|by eauto].
  rewrite isset_spec by (unfold has_bit; lia). csimpl. destruct (bit cq j); eauto.
Qed.

(** Reading the character in a slot. *)
Lemma read_slot q j cs : mem_ok q → c_cs q = Some cs → 0 ≤ j < c_cn q →
  ∃ b d, get cs j = Ok b ∧ quote_at q j = Ok d ∧ (b .& 0xff) .| d = chr q j ∧ 0 ≤ chr q j.
Proof.
  intros Hm Ecs Hj. destruct (quote_at_spec q j Hm Hj) as (d & Hd & Hd2 & Hd3).
  destruct Hm as (Hn & Hcs & _). rewrite Ecs in Hcs. destruct Hcs as [Hl Hwf].
  destruct (get_total cs j) as (b & Hb & Hb'); [lia|]. exists b, d.
  assert (Hb8 : is_u8 b) by by eapply get_byte_wf. rewrite land_ff_id, lor_quote by done.
  assert (b + d = chr q j) as <- by (unfold chr; rewrite Ecs; simpl; by rewrite Hb', Hd3).
  split_and!; try done. destruct Hb8. unfold TTY_QUOTE in *. lia.
Qed.

Lemma getc_spec q : clist_ok q → ∃ r q', getc q = Ok (r, q') ∧ clist_ok q' ∧ c_cn q' = c_cn q ∧
  match contents q with
  | [] => r = -1 ∧ q' = q
  | c :: l => r = c ∧ 0 ≤ c ∧ contents q' = l ∧ c_cc q' = c_cc q - 1 ∧ keeps_quote q' = keeps_quote q
  end.
Proof.
  intros Hok. pose proof Hok as [Hm Hr]. unfold getc. destruct (Z.eqb_spec (c_cc q) 0) as [H0|H0].
  { rewrite contents_empty by done. eauto 10. }
  destruct Hr as [f Hr]. pose proof Hr as ([cs Ecs] & Hf & Hfb & Hl & Hcb).
  rewrite Ecs, Hf. csimpl. destruct (read_slot q f cs Hm Ecs Hfb) as (b & d & -> & -> & Hchr & Hpos). csimpl.
  pose proof Hm as (Hn & Hcs & Hcq). rewrite Ecs in Hcs. destruct Hcs as [Hlen Hwf].
  rewrite put_total by lia. csimpl. rewrite Hchr.
  set (q1 := set_pos _ (Some _) _ _).
  assert (Hm1 : mem_ok q1).
  { split; [done|]. split; [|done]. simpl. rewrite length_insert. split; [done|]. by apply Forall_insert; [|by_decide]. }
  assert (Hr1 : ring_at q1 (wrap q (f + 1))).
  { unfold q1. split; [by eexists|]. simpl. rewrite Hl.
    split_and!; [done|by slots; lia|by slots; lia|by slots|lia|lia]. }
  assert (Hcon : contents q = chr q f :: contents q1).
  { rewrite (contents_cons q f Hr) by lia. f_equal. unfold contents at 1. simpl.
    apply list_fmap_ext. intros i x Hx. apply lookup_seqZ in Hx as [-> Hi]. unfold wrap. simpl.
    assert (Hs : slot (c_cn q) f (0 + Z.of_nat i + 1) =
      slot (c_cn q) (if f + 1 =? c_cn q then 0 else f + 1) (0 + Z.of_nat i))
      by (slots; lia).
    rewrite Hs. unfold chr. simpl. rewrite Ecs. simpl. rewrite list_lookup_insert_ne; [done|].
    unfold slot. repeat case_bool; lia. }
  rewrite Hcon. exists (chr q f).
  destruct (Z.eqb_spec (c_cc q - 1) 0) as [H1|H1]; simpl.
  - eexists. split; [done|].
    split; [split; [destruct Hm1 as (?&?&?); split_and!; done|done]|]. split; [done|]. split_and!; try done.
    + by rewrite !contents_empty by done.
    + unfold keeps_quote. simpl. by rewrite Ecs.
  - eexists. split; [done|].
    split; [apply (ring_at_ok q1 _ Hm1 Hr1); simpl; lia|]. split; [done|]. split_and!; try done.
    unfold keeps_quote. simpl. by rewrite Ecs.
Qed.

Lemma lookup_contents q i : contents q !! i =
  if Z.of_nat i <? c_cc q
  then Some (chr q (slot (c_cn q) (default 0 (c_cf q)) (Z.of_nat i))) else None.
Proof.
  unfold contents. rewrite list_lookup_fmap. destruct (Z.ltb_spec (Z.of_nat i) (c_cc q)).
  - rewrite lookup_seqZ_lt by lia. simpl. do 3 f_equal.
  - by rewrite lookup_seqZ_ge by lia.
Qed.

(** Moving the pointers takes characters from the front or from the back. *)
Lemma contents_drop q f cl k : ring_at q f → 0 ≤ k ≤ c_cc q → f + k ≤ c_cn q →
  contents (set_pos q (Some (wrap q (f + k))) cl (c_cc q - k)) = drop (Z.to_nat k) (contents q).
Proof.
  intros (_ & Hf & Hfb & _ & Hc) Hk Hfk. apply list_eq. intros i. rewrite lookup_drop, !lookup_contents.
  simpl. rewrite Hf. simpl.
  destruct (Z.ltb_spec (Z.of_nat i) (c_cc q - k)), (Z.ltb_spec (Z.of_nat (Z.to_nat k + i)) (c_cc q)); try lia; [|done].
  f_equal. unfold chr. simpl. assert (slot (c_cn q) (wrap q (f + k)) (Z.of_nat i) =
    slot (c_cn q) f (Z.of_nat (Z.to_nat k + i))) as ->; [|done]. slots; lia.
Qed.
Lemma contents_take q f cl k : ring_at q f → 0 ≤ k ≤ c_cc q →
  contents (set_pos q (Some f) cl k) = take (Z.to_nat k) (contents q).
Proof.
  intros (_ & Hf & Hfb & _ & Hc) Hk. apply list_eq. intros i. rewrite lookup_take, !lookup_contents.
  simpl. rewrite Hf. simpl. destruct (Z.ltb_spec (Z.of_nat i) k).
  - rewrite decide_True by lia. by rewrite (proj2 (Z.ltb_lt _ _)) by lia.
  - by rewrite decide_False by lia.
Qed.

Lemma ring_drop q f k : ring_at q f → 0 ≤ k ≤ c_cc q → f + k ≤ c_cn q → (c_cc q - k = 0 → True) →
  ring_at (set_pos q (Some (wrap q (f + k))) (c_cl q) (c_cc q - k)) (wrap q (f + k)).
Proof.
  intros (Hs & Hf & Hfb & Hl & Hc) Hk Hfk _. split; [done|]. simpl. rewrite Hl.
  split_and!; [done|slots; lia|slots; lia|slots|lia|lia].
Qed.

Lemma mem_ok_pos q cf cl cc : mem_ok q → is_Some (c_cs q) → mem_ok (set_pos q cf cl cc).
Proof. intros (? & ? & ?) [cs E]. split; [done|]. simpl. rewrite E in *. done. Qed.

Lemma unputc_spec q : clist_ok q → ∃ r q', unputc q = Ok (r, q') ∧ clist_ok q' ∧ c_cn q' = c_cn q ∧
  ((contents q = [] ∧ r = -1 ∧ q' = q) ∨
   (contents q = contents q' ++ [r] ∧ 0 ≤ r ∧ c_cc q' = c_cc q - 1)).
Proof.
  intros Hok. pose proof Hok as [Hm Hr]. unfold unputc. destruct (Z.eqb_spec (c_cc q) 0) as [H0|H0].
  { rewrite contents_empty by done. eauto 10. }
  destruct Hr as [f Hr]. pose proof Hr as ([cs Ecs] & Hf & Hfb & Hl & Hcb).
  rewrite Hl, Ecs. csimpl. set (j := if slot _ _ _ =? 0 then _ else _).
  assert (Hj : j = slot (c_cn q) f (c_cc q - 1)) by (unfold j; slots; lia).
  assert (Hjb : 0 ≤ j < c_cn q) by (rewrite Hj; apply slot_bounds; lia).
  destruct (read_slot q j cs Hm Ecs Hjb) as (b & d & -> & -> & Hchr & Hpos). csimpl. rewrite Hchr.
  assert (Hcon : ∀ cl, contents q = contents (set_pos q (Some f) cl (c_cc q - 1)) ++ [chr q j]).
  { intros cl. rewrite (contents_take q f) by (done || lia).
    rewrite <-(take_drop (Z.to_nat (c_cc q - 1)) (contents q)) at 1. f_equal. apply list_eq. intros [|i].
    - rewrite lookup_drop, lookup_contents, Hf. simpl. rewrite (proj2 (Z.ltb_lt _ _)) by lia.
      do 2 f_equal. rewrite Hj. f_equal. lia.
    - rewrite lookup_drop, lookup_contents. simpl. by rewrite (proj2 (Z.ltb_ge _ _)) by lia. }
  exists (chr q j). destruct (Z.eqb_spec (c_cc q - 1) 0) as [H1|H1].
  - eexists. split; [done|]. split; [split; [apply mem_ok_pos; [done|by rewrite Ecs]|done]|].
    split; [done|]. right. split_and!; [|done|done]. rewrite (Hcon (c_cl q)).
    f_equal. by rewrite !contents_empty.
  - eexists. split; [done|]. rewrite Hf. split; [|split; [done|right; by split_and!]].
    split; [apply mem_ok_pos; [done|by rewrite Ecs]|].
    simpl. rewrite (proj2 (Z.eqb_neq _ _) H1). exists f. split; [by eexists|]. simpl.
    split_and!; [done|lia|lia|by rewrite Hj|lia|lia].
Qed.

(** ** Runs of characters *)

(** The states of a loop that takes characters from the front. *)
Definition draining (q : clist) (f : Z) : Prop := mem_ok q ∧ ring_at q f.

Lemma run_length_spec q f : ring_at q f → 0 < c_cc q →
  let r := run_length q f (slot (c_cn q) f (c_cc q)) in
  0 < r ≤ c_cc q ∧ f + r ≤ c_cn q ∧ (f + r = c_cn q ∨ r = c_cc q).
Proof. intros (_ & _ & Hfb & _ & Hc) Hp r. unfold r. slots; lia. Qed.

(** The turns that the loops need: none, one from the start of the buffer, two
    from elsewhere. *)
Definition turns (q : clist) (f count : Z) : nat :=
  if (count <=? 0) || (c_cc q =? 0) then 1 else if f =? 0 then 2 else 3.

Lemma turns_bounds q f count : (1 ≤ turns q f count ≤ 3)%nat.
Proof. unfold turns. repeat case_bool; lia. Qed.
Lemma turns_step q f count k : ring_at q f → 0 < count → 0 < c_cc q →
  k = Z.min count (run_length q f (slot (c_cn q) f (c_cc q))) →
  (S (turns (set_pos q (Some (wrap q (f + k))) (c_cl q) (c_cc q - k)) (wrap q (f + k)) (count - k))
   ≤ turns q f count)%nat.
Proof.
  intros Hr Hp Hc ->. pose proof (run_length_spec q f Hr Hc) as (H1 & H2 & H3).
  destruct Hr as (_ & _ & Hfb & _ & Hcb). set (r := run_length _ _ _) in *.
  unfold turns, wrap. simpl. destruct (Z.eqb_spec (f + count `min` r) (c_cn q)); repeat case_bool; lia.
Qed.

Lemma ndflush_loop_spec fuel : ∀ q f count, draining q f → (turns q f count ≤ fuel)%nat →
  ∃ q' f', ndflush_loop fuel q count = Ok q' ∧ draining q' f' ∧ c_cn q' = c_cn q ∧
    contents q' = drop (Z.to_nat count) (contents q) ∧ c_cq q' = c_cq q ∧ c_cs q' = c_cs q.
Proof.
  induction fuel as [|fuel IH]; intros q f count [Hm Hr] Hfu.
  { pose proof (turns_bounds q f count). lia. }
  simpl. destruct (Z.ltb_spec 0 count); simpl.
  2:{ exists q, f. split_and!; try done. replace (Z.to_nat count) with 0%nat by lia. done. }
  destruct (Z.ltb_spec 0 (c_cc q)).
  2:{ exists q, f. split_and!; try done. rewrite contents_empty; [by rewrite drop_nil|].
      destruct Hr as (_ & _ & _ & _ & ?). lia. }
  pose proof Hr as (Hs & Hf & Hfb & Hl & Hc). rewrite Hf, Hl. csimpl.
  pose proof (run_length_spec q f Hr ltac:(lia)) as (Hr1 & Hr2 & _).
  set (k := if count <? _ then _ else _).
  assert (Hk : k = Z.min count (run_length q f (slot (c_cn q) f (c_cc q)))) by (unfold k; case_bool; lia).
  pose proof (turns_step q f count k Hr ltac:(lia) ltac:(lia) Hk) as Ht.
  pose proof (ring_drop q f k Hr ltac:(lia) ltac:(lia) ltac:(done)) as Hr'. rewrite Hl in Ht, Hr'.
  destruct (IH _ (wrap q (f + k)) (count - k) (conj (mem_ok_pos _ _ _ _ Hm Hs) Hr')) as (q' & f' & -> & Hd & Hn & Hcon & Hq & Hcs); [lia|].
  exists q', f'. split_and!; [done|apply Hd|done| |done|done].
  rewrite Hcon, (contents_drop q f) by (done || lia). rewrite drop_drop. f_equal. lia.
Qed.

(** The end of a call that took characters from the front. *)
Definition settle (q : clist) : clist := if c_cc q =? 0 then set_pos q None None 0 else q.

Lemma settle_ok q f : draining q f → clist_ok (settle q) ∧ contents (settle q) = contents q ∧
  c_cn (settle q) = c_cn q.
Proof.
  intros [Hm Hr]. unfold settle. destruct (Z.eqb_spec (c_cc q) 0) as [H0|H0].
  - split; [split; [apply mem_ok_pos; [done|apply Hr]|done]|]. by rewrite !contents_empty.
  - split; [|done]. split; [done|]. rewrite (proj2 (Z.eqb_neq _ _) H0). by exists f.
Qed.

Lemma clist_ok_draining q : clist_ok q → c_cc q = 0 ∨ ∃ f, draining q f.
Proof.
  intros [Hm Hr]. destruct (Z.eqb_spec (c_cc q) 0) as [|H0]; [by left|right].
  destruct Hr as [f Hr]. by exists f.
Qed.

Lemma ndflush_spec q count : clist_ok q → ∃ q', ndflush q count = Ok q' ∧ clist_ok q' ∧
  c_cn q' = c_cn q ∧ contents q' = drop (Z.to_nat count) (contents q).
Proof.
  intros Hok. pose proof Hok as [Hm _]. unfold ndflush. destruct (Z.eqb_spec count (c_cc q)) as [->|Hne].
  - assert (Hdrop : drop (Z.to_nat (c_cc q)) (contents q) = []).
    { apply drop_ge. pose proof (contents_length q). lia. }
    eexists. split; [done|]. split; [|split; [done|by rewrite Hdrop, contents_empty]].
    split; [|done]. destruct Hm as (Hn & Hcs & Hcq). split; [done|]. split; [|done]. simpl.
    by destruct (c_cs q).
  - destruct (clist_ok_draining q Hok) as [H0|[f Hd]].
    + simpl. rewrite H0, andb_false_r. csimpl. rewrite H0. simpl. eexists. split; [done|].
      rewrite !contents_empty by done. rewrite drop_nil. split; [|done]. split; [|done].
      destruct Hm as (Hn & Hcs & Hcq). split; [done|]. split; [|done]. simpl. by destruct (c_cs q).
    + destruct (ndflush_loop_spec ring_fuel q f count Hd) as (q' & f' & -> & Hd' & Hn & Hcon & _).
      { pose proof (turns_bounds q f count). unfold ring_fuel. lia. }
      csimpl. fold (settle q'). destruct (settle_ok q' f' Hd') as (Ho & Hc & Hn').
      exists (settle q'). split; [done|]. split; [done|]. split; [congruence|]. by rewrite Hc.
Qed.

(** The character without its quote bit. *)
Definition low (c : Z) : Z := c .& 0xff.

Lemma low_chr q cs j : mem_ok q → c_cs q = Some cs → 0 ≤ j < c_cn q →
  cs !! Z.to_nat j = Some (low (chr q j)).
Proof.
  intros (Hn & Hcs & _) Ecs Hj. rewrite Ecs in Hcs. destruct Hcs as [Hl Hwf].
  destruct (get_total cs j) as (b & _ & Hb); [lia|]. rewrite Hb. f_equal.
  pose proof (get_byte_wf cs j b Hwf Hb) as Hb8.
  unfold low, chr. rewrite Ecs. simpl. rewrite Hb. simpl.
  set (d := match c_cq q with Some _ => _ | None => 0 end).
  assert (Hd : d = 0 ∨ d = TTY_QUOTE) by (unfold d; repeat case_match; auto).
  rewrite <-lor_quote by done. apply Z.bits_inj'. intros i Hi. rewrite Z.land_spec, Z.lor_spec.
  change 0xff with (Z.ones 8). rewrite Z.testbit_ones_nonneg by lia.
  assert (Hq : ∀ x, x = 0 ∨ x = TTY_QUOTE → (i <? 8) = true → Z.testbit x i = false).
  { intros x [->| ->] Hlt; [apply Z.testbit_0_l|]. change TTY_QUOTE with (2 ^ 8).
    rewrite Z.pow2_bits_eqb by lia. lia. }
  destruct (i <? 8) eqn:E; rewrite ?andb_true_r, ?andb_false_r.
  - by rewrite (Hq d), orb_false_r.
  - apply testbit_u8; [done|lia].
Qed.

Lemma copyout_contents q f cs k : draining q f → c_cs q = Some cs → 0 ≤ k ≤ c_cc q →
  f + k ≤ c_cn q → copyout cs f k = Ok (low <$> take (Z.to_nat k) (contents q)).
Proof.
  intros [Hm Hr] Ecs Hk Hfk. pose proof Hr as (_ & Hf & Hfb & _ & Hc).
  pose proof Hm as (Hn & Hcs & _). rewrite Ecs in Hcs. destruct Hcs as [Hl Hwf]. unfold copyout.
  replace ((f <? 0) || (k <? 0) || (Z.of_nat (length cs) <? f + k)) with false by lia.
  f_equal. apply list_eq. intros i. rewrite list_lookup_fmap, !lookup_take.
  case_decide as Hi; [|done]. rewrite lookup_drop, lookup_contents, Hf. simpl.
  rewrite (proj2 (Z.ltb_lt _ _)) by lia. simpl.
  rewrite <-(low_chr q cs) by (done || (apply slot_bounds; lia)). f_equal. slots; lia.
Qed.

Lemma q_to_b_loop_spec fuel : ∀ q f count p, draining q f → (turns q f count ≤ fuel)%nat →
  ∃ q' f', q_to_b_loop fuel q count p = Ok (p ++ (low <$> take (Z.to_nat count) (contents q)), q') ∧
    draining q' f' ∧ c_cn q' = c_cn q ∧ contents q' = drop (Z.to_nat count) (contents q).
Proof.
  induction fuel as [|fuel IH]; intros q f count p [Hm Hr] Hfu.
  { pose proof (turns_bounds q f count). lia. }
  simpl. destruct (Z.ltb_spec 0 count); simpl.
  2:{ exists q, f. replace (Z.to_nat count) with 0%nat by lia. by rewrite app_nil_r. }
  destruct (Z.ltb_spec 0 (c_cc q)).
  2:{ exists q, f. rewrite contents_empty; [by rewrite drop_nil, take_nil, app_nil_r|].
      destruct Hr as (_ & _ & _ & _ & ?). lia. }
  pose proof Hr as ([cs Ecs] & Hf & Hfb & Hl & Hc). rewrite Hf, Hl. csimpl. rewrite Ecs. csimpl.
  pose proof (run_length_spec q f Hr ltac:(lia)) as (Hr1 & Hr2 & _).
  set (k := if count <? _ then _ else _).
  assert (Hk : k = Z.min count (run_length q f (slot (c_cn q) f (c_cc q)))) by (unfold k; case_bool; lia).
  rewrite (copyout_contents q f) by (done || lia). csimpl.
  pose proof (turns_step q f count k Hr ltac:(lia) ltac:(lia) Hk) as Ht.
  pose proof (ring_drop q f k Hr ltac:(lia) ltac:(lia) ltac:(done)) as Hr'. rewrite Hl in Ht, Hr'.
  assert (Hm' := mem_ok_pos _ (Some (wrap q (f + k))) (Some (slot (c_cn q) f (c_cc q))) (c_cc q - k) Hm ltac:(by rewrite Ecs)).
  destruct (IH _ (wrap q (f + k)) (count - k) (p ++ (low <$> take (Z.to_nat k) (contents q))) (conj Hm' Hr'))
    as (q' & f' & -> & Hd & Hn & Hcon); [lia|].
  exists q', f'. rewrite (contents_drop q f) in * by (done || lia). split_and!; [|done|done|].
  - do 2 f_equal. rewrite <-app_assoc. f_equal. rewrite <-fmap_app. f_equal.
    rewrite take_take_drop. f_equal. lia.
  - rewrite Hcon, drop_drop. f_equal. lia.
Qed.

Lemma q_to_b_spec q count : clist_ok q → ∃ q', 
  q_to_b q count = Ok (low <$> take (Z.to_nat count) (contents q), q') ∧ clist_ok q' ∧
  c_cn q' = c_cn q ∧ contents q' = drop (Z.to_nat count) (contents q).
Proof.
  intros Hok. unfold q_to_b. destruct (clist_ok_draining q Hok) as [H0|[f Hd]].
  - simpl. rewrite H0, andb_false_r. csimpl. rewrite H0. simpl. exists (set_pos q None None 0).
    rewrite !contents_empty by done. rewrite drop_nil, take_nil. split; [done|]. split; [|done].
    destruct Hok as [Hm _]. split; [|done]. destruct Hm as (Hn & Hcs & Hcq).
    split; [done|]. split; [|done]. simpl. by destruct (c_cs q).
  - destruct (q_to_b_loop_spec ring_fuel q f count [] Hd) as (q' & f' & -> & Hd' & Hn & Hcon).
    { pose proof (turns_bounds q f count). unfold ring_fuel. lia. }
    csimpl. fold (settle q'). destruct (settle_ok q' f' Hd') as (Ho & Hc & Hn').
    exists (settle q'). split; [done|]. split; [done|]. split; [congruence|]. by rewrite Hc.
Qed.

(** ** Filling *)

Definition free_run (q : clist) (f l : Z) : Z := if l <? f then f - l else c_cn q - l.

Definition fill_turns (q : clist) (l count : Z) : nat :=
  if (count <=? 0) || (c_cn q <=? c_cc q) then 1 else if l =? 0 then 2 else 3.

Lemma fill_turns_bounds q l count : (1 ≤ fill_turns q l count ≤ 3)%nat.
Proof. unfold fill_turns. repeat case_bool; lia. Qed.

Lemma free_run_spec q f : ring_at q f → c_cc q < c_cn q →
  let l := slot (c_cn q) f (c_cc q) in
  let r := free_run q f l in
  0 ≤ l < c_cn q ∧ 0 < r ≤ c_cn q - c_cc q ∧ l + r ≤ c_cn q ∧ (l + r = c_cn q ∨ r = c_cn q - c_cc q) ∧
  (l = 0 → r = c_cn q - c_cc q).
Proof. intros (_ & _ & Hfb & _ & Hc) Hp l r. unfold r, free_run, l. slots; lia. Qed.

Lemma lookup_copyin a off b : 0 ≤ off → off + Z.of_nat (length b) ≤ Z.of_nat (length a) →
  ∃ a', copyin a off b = Ok a' ∧ length a' = length a ∧
    ∀ j, 0 ≤ j → a' !! Z.to_nat j =
      if (off <=? j) && (j <? off + Z.of_nat (length b)) then b !! Z.to_nat (j - off) else a !! Z.to_nat j.
Proof.
  intros Ho Hl. unfold copyin.
  replace ((off <? 0) || (Z.of_nat (length a) <? off + Z.of_nat (length b))) with false by lia.
  eexists. split; [done|]. split; [rewrite !length_app, length_take, length_drop; lia|].
  intros j Hj. destruct (Z.leb_spec off j), (Z.ltb_spec j (off + Z.of_nat (length b))); simpl.
  - rewrite lookup_app_r by (rewrite length_take; lia). rewrite lookup_app_l by (rewrite length_take; lia).
    f_equal. rewrite length_take. lia.
  - rewrite !lookup_app_r by (rewrite ?length_take; lia). rewrite lookup_drop, !length_take. f_equal. lia.
  - rewrite lookup_app_l by (rewrite length_take; lia). by rewrite lookup_take_lt by lia.
  - lia.
Qed.

(** Writing a run of characters without quote bits. *)
Lemma write_run q cs l b : mem_ok q → c_cs q = Some cs → 0 ≤ l → 0 < Z.of_nat (length b) →
  l + Z.of_nat (length b) ≤ c_cn q → bytes_wf b →
  ∃ cs' cq', copyin cs l b = Ok cs' ∧
    match c_cq q with None => mret None | Some cq => Some <$> clrbits cq l (Z.of_nat (length b)) end = Ok cq' ∧
    mem_ok (set_mem q (Some cs') cq') ∧
    ∀ i, 0 ≤ i → chr (set_mem q (Some cs') cq') i =
      if (l <=? i) && (i <? l + Z.of_nat (length b)) then default 0 (b !! Z.to_nat (i - l)) else chr q i.
Proof.
  intros (Hn & Hcs & Hcq) Ecs Hl Hb Hlb Hbw. rewrite Ecs in Hcs. destruct Hcs as [Hlen Hwf].
  destruct (lookup_copyin cs l b) as (cs' & -> & Hl' & Hlk); [lia|lia|].
  assert (Hcs' : Z.of_nat (length cs') = c_cn q ∧ bytes_wf cs').
  { split; [lia|]. apply Forall_lookup. intros i x Hx. rewrite <-(Nat2Z.id i), Hlk in Hx by lia.
    destruct (_ && _); [by eapply Forall_lookup_1 in Hx; [|exact Hbw]|by eapply Forall_lookup_1 in Hx; [|exact Hwf]]. }
  exists cs'. destruct (c_cq q) as [cq|] eqn:Ecq.
  - destruct Hcq as [Hlq Hwfq].
    destruct (clrbits_spec cq l (Z.of_nat (length b))) as (cq' & -> & Hl2 & Hw2 & Hbit); [lia|lia|lia|done|].
    exists (Some cq'). split_and!; try done.
    + split; [done|]. split; [exact Hcs'|]. simpl. split; [lia|done].
    + intros i Hi. unfold chr. simpl. rewrite Ecs, Ecq, Hlk, Hbit by done. simpl.
      case_bool; simpl; [lia|done].
  - exists None. split_and!; try done.
    intros i Hi. unfold chr. simpl. rewrite Ecs, Ecq, Hlk by done. simpl. case_bool; lia.
Qed.

(** The run is appended. *)
Lemma contents_fill q q' f b : ring_at q f → c_cc q < c_cn q → 0 < Z.of_nat (length b) →
  Z.of_nat (length b) ≤ free_run q f (slot (c_cn q) f (c_cc q)) →
  c_cc q' = c_cc q + Z.of_nat (length b) → c_cn q' = c_cn q → c_cf q' = Some f →
  (∀ i, 0 ≤ i → chr q' i =
     let l := slot (c_cn q) f (c_cc q) in
     if (l <=? i) && (i <? l + Z.of_nat (length b)) then default 0 (b !! Z.to_nat (i - l)) else chr q i) →
  contents q' = contents q ++ b.
Proof.
  intros Hr Hlt Hb Hbf Hcc Hcn Hcf Hchr. pose proof (free_run_spec q f Hr Hlt) as (Hl1 & Hl2 & Hl3 & _).
  pose proof Hr as (_ & Hf & Hfb & _ & Hc). cbv zeta in *. set (l := slot (c_cn q) f (c_cc q)) in *.
  pose proof (contents_length q) as Hlen. rewrite Z.max_r in Hlen by lia.
  apply list_eq. intros i. rewrite lookup_contents, Hcc, Hcn, Hcf. simpl.
  destruct (Z.ltb_spec (Z.of_nat i) (c_cc q)) as [Hi|Hi].
  - rewrite lookup_app_l by lia. rewrite lookup_contents, Hf, (proj2 (Z.ltb_lt _ _)) by lia.
    rewrite (proj2 (Z.ltb_lt _ (c_cc q))) by lia. simpl. f_equal. rewrite Hchr by (slots; lia).
    replace ((l <=? _) && _) with false; [done|]. symmetry. apply andb_false_iff.
    unfold l. slots; lia.
  - rewrite lookup_app_r by lia. destruct (Z.ltb_spec (Z.of_nat i) (c_cc q + Z.of_nat (length b))) as [Hj|Hj].
    + rewrite Hchr by (slots; lia).
      assert (Hs : slot (c_cn q) f (Z.of_nat i) = l + (Z.of_nat i - c_cc q)) by (unfold l; slots; lia).
      rewrite Hs. replace ((l <=? _) && _) with true by lia.
      destruct (get_total b (Z.of_nat i - c_cc q)) as (x & _ & Hx); [lia|].
      replace (l + (Z.of_nat i - c_cc q) - l) with (Z.of_nat i - c_cc q) by lia. rewrite Hx.
      replace (i - length (contents q))%nat with (Z.to_nat (Z.of_nat i - c_cc q)) by lia. done.
    + symmetry. apply lookup_ge_None. lia.
Qed.

Lemma b_to_q_loop_spec fuel : ∀ p q f, draining q f → bytes_wf p →
  (fill_turns q (slot (c_cn q) f (c_cc q)) (Z.of_nat (length p)) ≤ fuel)%nat →
  ∃ q', b_to_q_loop fuel p q =
      Ok (Z.of_nat (length p) - Z.min (Z.of_nat (length p)) (c_cn q - c_cc q), q') ∧
    draining q' f ∧ c_cn q' = c_cn q ∧
    contents q' = contents q ++ take (Z.to_nat (c_cn q - c_cc q)) p.
Proof.
  induction fuel as [|fuel IH]; intros p q f [Hm Hr] Hp Hfu.
  { pose proof (fill_turns_bounds q (slot (c_cn q) f (c_cc q)) (Z.of_nat (length p))). lia. }
  simpl. pose proof Hr as ([cs Ecs] & Hf & Hfb & Hl & Hc).
  destruct (Z.ltb_spec 0 (Z.of_nat (length p))); simpl.
  2:{ exists q. rewrite (nil_length_inv p), take_nil, app_nil_r by lia. split_and!; try done.
      do 2 f_equal. simpl. lia. }
  destruct (Z.ltb_spec (c_cc q) (c_cn q)) as [Hlt|Hge].
  2:{ exists q. replace (c_cn q - c_cc q) with 0 by lia. simpl. rewrite app_nil_r. split_and!; try done.
      do 2 f_equal. lia. }
  rewrite Hf, Hl. csimpl. rewrite Ecs. csimpl.
  pose proof (free_run_spec q f Hr Hlt) as (Hl1 & Hl2 & Hl3 & Hl4 & Hl5). cbv zeta in *.
  set (l := slot (c_cn q) f (c_cc q)) in *. fold (free_run q f l). set (r := free_run q f l) in *.
  set (k := if _ <? r then _ else _).
  assert (Hk : k = Z.min (Z.of_nat (length p)) r) by (unfold k; case_bool; lia).
  assert (Hlk : Z.of_nat (length (take (Z.to_nat k) p)) = k) by (rewrite length_take; lia).
  destruct (write_run q cs l (take (Z.to_nat k) p) Hm Ecs) as (cs' & cq' & -> & Hcq' & Hm' & Hchr);
    [lia|lia|lia|by apply Forall_take|]. rewrite Hlk in Hcq', Hchr. csimpl. rewrite Hcq'. csimpl.
  set (q1 := set_pos _ _ _ _).
  assert (Hm1 : mem_ok q1) by (apply mem_ok_pos; [exact Hm'|by eexists]).
  assert (Hr1 : ring_at q1 f).
  { unfold q1. split; [by eexists|]. simpl. split_and!; [done|lia|lia| |lia|lia].
    unfold l in *. unfold wrap. simpl. f_equal. clear - Hfb Hc Hk Hl2 Hl3 Hl1 Hlt. unfold slot in *.
    destruct (Z.ltb_spec (f + c_cc q) (c_cn q)), (Z.ltb_spec (f + (c_cc q + k)) (c_cn q));
      case_bool; lia. }
  assert (Hcon : contents q1 = contents q ++ take (Z.to_nat k) p).
  { apply (contents_fill q q1 f); try done; [lia|fold l; fold r; lia|simpl; lia|].
    intros i Hi. cbv zeta. fold l. rewrite Hlk. by apply Hchr. }
  destruct (IH (drop (Z.to_nat k) p) q1 f (conj Hm1 Hr1)) as (q' & -> & Hd & Hn & Hcon');
    [by apply Forall_drop| |].
  { assert (Hw : slot (c_cn q1) f (c_cc q1) = wrap q1 (l + k)).
    { destruct Hr1 as (_ & _ & _ & Hl1' & _). apply (inj Some). by rewrite <-Hl1'. }
    rewrite Hw. clear - Hfu H Hlt Hk Hl1 Hl2 Hl4 Hl5. unfold fill_turns, q1, wrap in *. simpl. rewrite length_drop.
    destruct (Z.leb_spec (Z.of_nat (length p)) 0); [lia|].
    destruct (Z.leb_spec (c_cn q) (c_cc q)); [lia|]. simpl in Hfu.
    destruct (Z.eqb_spec l 0), (Z.eqb_spec (l + k) (c_cn q)); repeat case_bool; lia. }
  exists q'. split_and!; [|done..|].
  - simpl. rewrite length_drop. do 2 f_equal. lia.
  - rewrite Hcon', Hcon, <-app_assoc. simpl. f_equal. 
    assert (Hz : Z.to_nat (c_cn q - c_cc q) = (Z.to_nat k + Z.to_nat (c_cn q - (c_cc q + k)))%nat) by lia.
    rewrite Hz. by rewrite take_take_drop.
Qed.

Lemma b_to_q_spec p q : clist_ok q → bytes_wf p → ∃ q',
  b_to_q p q = Ok (Z.of_nat (length p) - Z.min (Z.of_nat (length p)) (c_cn q - c_cc q), q') ∧
  clist_ok q' ∧ c_cn q' = c_cn q ∧ contents q' = contents q ++ take (Z.to_nat (c_cn q - c_cc q)) p.
Proof.
  intros Hok Hp. unfold b_to_q. destruct (Z.leb_spec (Z.of_nat (length p)) 0).
  { exists q. rewrite (nil_length_inv p), take_nil, app_nil_r by lia. split_and!; try done.
    destruct Hok as [(Hn & _ & _) Hr]. simpl. destruct (Z.eqb_spec (c_cc q) 0); [do 2 f_equal; lia|].
    destruct Hr as (f & _ & _ & _ & _ & ?). do 2 f_equal. lia. }
  destruct (Z.eqb_spec (c_cc q) (c_cn q)) as [He|He].
  { exists q. rewrite He, Z.sub_diag. simpl. rewrite app_nil_r. split_and!; try done. do 2 f_equal. lia. }
  assert (Hlt : c_cc q < c_cn q).
  { destruct Hok as [(Hn & _ & _) Hr]. destruct (Z.eqb_spec (c_cc q) 0); [lia|].
    destruct Hr as (f & _ & _ & _ & _ & ?). lia. }
  destruct (clstart_spec q Hok Hlt) as (f & Hm & Hr & Hcon & Hcc & Hcn & _ & _).
  destruct (b_to_q_loop_spec ring_fuel p (clstart q) f (conj Hm Hr) Hp) as (q' & -> & [Hm' Hr'] & Hn' & Hcon').
  { pose proof (fill_turns_bounds (clstart q) (slot (c_cn (clstart q)) f (c_cc (clstart q))) (Z.of_nat (length p))).
    unfold ring_fuel. lia. }
  rewrite Hcc, Hcn in *. exists q'. rewrite Hcon', Hcon. split_and!; try done.
  apply (ring_at_ok q' f); [done..|]. pose proof (contents_length q') as Hl.
  destruct Hr' as (_ & _ & _ & _ & ?). rewrite Hcon', length_app, length_take in Hl. lia.
Qed.

(** ** The refinement of a bounded queue *)

Inductive clop :=
  | OpPutc (c : Z) | OpGetc | OpUnputc | OpWrite (p : list Z) | OpRead (n : Z) | OpFlush (n : Z).

(** What an operation returns (a character, a count, the bytes) and leaves. *)
Definition run_clop (op : clop) (q : clist) : res (list Z * clist) :=
  match op with
  | OpPutc c => '(r, q) ← putc c q; mret ([r], q)
  | OpGetc => '(r, q) ← getc q; mret ([r], q)
  | OpUnputc => '(r, q) ← unputc q; mret ([r], q)
  | OpWrite p => '(r, q) ← b_to_q p q; mret ([r], q)
  | OpRead n => q_to_b q n
  | OpFlush n => q ← ndflush q n; mret ([], q)
  end.

(** The same on a list of at most [cap] characters; [keep] says whether quote
    bits are stored. *)
Definition spec_clop (op : clop) (cap : Z) (keep : bool) (l : list Z) : list Z * list Z :=
  match op with
  | OpPutc c =>
      if Z.of_nat (length l) =? cap then ([-1], l)
      else ([0], l ++ [low c + (if keep && negb (c .& TTY_QUOTE =? 0) then TTY_QUOTE else 0)])
  | OpGetc => match l with [] => ([-1], []) | c :: l' => ([c], l') end
  | OpUnputc => match last l with None => ([-1], []) | Some c => ([c], removelast l) end
  | OpWrite p =>
      let free := cap - Z.of_nat (length l) in
      ([Z.of_nat (length p) - Z.min (Z.of_nat (length p)) free], l ++ take (Z.to_nat free) p)
  | OpRead n => (low <$> take (Z.to_nat n) l, drop (Z.to_nat n) l)
  | OpFlush n => ([], drop (Z.to_nat n) l)
  end.

Definition clop_wf (op : clop) : Prop := match op with OpWrite p => bytes_wf p | _ => True end.

Lemma clist_cc q : clist_ok q → c_cc q = Z.of_nat (length (contents q)).
Proof.
  intros [_ Hr]. rewrite contents_length. destruct (Z.eqb_spec (c_cc q) 0); [lia|].
  destruct Hr as (f & _ & _ & _ & _ & ?). lia.
Qed.

Lemma clop_step op q : clist_ok q → clop_wf op → ∃ out q', run_clop op q = Ok (out, q') ∧
  clist_ok q' ∧ c_cn q' = c_cn q ∧
  (out, contents q') = spec_clop op (c_cn q) (keeps_quote q) (contents q).
Proof.
  intros Hok Hw. pose proof (clist_cc q Hok) as Hcc. destruct op as [c| | |p|n|n]; simpl.
  - destruct (putc_spec c q Hok) as (r & q' & -> & Hok' & Hn & H). csimpl. rewrite <-Hcc.
    eexists _, q'. split; [done|]. split; [done|]. split; [done|].
    destruct (c_cc q =? c_cn q); [by destruct H as [-> ->]|]. destruct H as (-> & -> & _). done.
  - destruct (getc_spec q Hok) as (r & q' & -> & Hok' & Hn & H). csimpl.
    eexists _, q'. split; [done|]. split; [done|]. split; [done|].
    destruct (contents q) as [|c l] eqn:E; [destruct H as [-> ->]; by rewrite E|].
    destruct H as (-> & _ & -> & _). done.
  - destruct (unputc_spec q Hok) as (r & q' & -> & Hok' & Hn & H). csimpl.
    eexists _, q'. split; [done|]. split; [done|]. split; [done|].
    destruct H as [(E & -> & ->)|(-> & _)]; [by rewrite E|].
    by rewrite last_snoc, removelast_last.
  - destruct (b_to_q_spec p q Hok Hw) as (q' & -> & Hok' & Hn & Hcon). csimpl. rewrite <-Hcc.
    eexists _, q'. split_and!; [done..|by rewrite Hcon].
  - destruct (q_to_b_spec q n Hok) as (q' & -> & Hok' & Hn & Hcon).
    eexists _, q'. split_and!; [done..|by rewrite Hcon].
  - destruct (ndflush_spec q n Hok) as (q' & -> & Hok' & Hn & Hcon). csimpl.
    eexists _, q'. split_and!; [done..|by rewrite Hcon].
Qed.

(** ** Contiguous characters *)

Lemma ndqb_spec q : clist_ok q → ∃ n, ndqb q 0 = Ok n ∧ 0 ≤ n ≤ c_cc q ∧
  (0 < c_cc q → 0 < n) ∧
  ∀ cs f, c_cs q = Some cs → c_cf q = Some f →
    copyout cs f n = Ok (low <$> take (Z.to_nat n) (contents q)).
Proof.
  intros Hok. pose proof Hok as [Hm Hr]. unfold ndqb. destruct (Z.eqb_spec (c_cc q) 0) as [H0|H0].
  { exists 0. split_and!; [done|lia|lia|lia|]. intros cs f _ Hf. destruct Hr as [Hf' _]. congruence. }
  destruct Hr as [f Hr]. pose proof Hr as (_ & Hf & Hfb & Hl & Hc).
  rewrite Hf, Hl. csimpl. pose proof (run_length_spec q f Hr ltac:(lia)) as (Hr1 & Hr2 & _).
  eexists. split; [done|]. set (n := if _ <=? 0 then _ else _).
  assert (Hn : n = run_length q f (slot (c_cn q) f (c_cc q))) by (unfold n, run_length; repeat case_bool; lia).
  split; [lia|]. split; [lia|]. intros cs f' Ecs [= <-].
  apply copyout_contents; [by split|done|lia|lia].
Qed.

(** ** Walking *)

(** [n] more characters with [nextc] after [firstc]. *)
Fixpoint walk (n : nat) (q : clist) (cp cc : Z) : res (list Z) :=
  match n with
  | O => mret []
  | S n =>
      '(r, cc) ← nextc q cp cc;
      match r with
      | None => mret []
      | Some (cp, c) => l ← walk n q cp cc; mret (c :: l)
      end
  end.
Definition walk_all (n : nat) (q : clist) : res (list Z) :=
  '(r, cc) ← firstc q;
  match r with None => mret [] | Some (cp, c) => l ← walk n q cp cc; mret (c :: l) end.

Lemma walk_spec n : ∀ q f i cs, mem_ok q → ring_at q f → c_cs q = Some cs → 0 ≤ i < c_cc q →
  walk n q (slot (c_cn q) f i) (c_cc q - i) = Ok (take n (drop (S (Z.to_nat i)) (contents q))).
Proof.
  induction n as [|n IH]; intros q f i cs Hm Hr Ecs Hi; [done|].
  pose proof Hr as (_ & Hf & Hfb & _ & Hc). simpl. unfold nextc.
  assert (Hcc : (if bool_decide (c_cf q = Some (slot (c_cn q) f i)) then c_cc q else c_cc q - i) = c_cc q - i).
  { case_bool_decide as H; [|done]. rewrite Hf in H. injection H as H. unfold slot in H.
    destruct (Z.ltb_spec (f + i) (c_cn q)); lia. }
  rewrite Hcc. rewrite (proj2 (Z.eqb_neq _ _)) by lia.
  destruct (Z.eqb_spec (c_cc q - i - 1) 0) as [He|He]; csimpl.
  - rewrite drop_ge; [done|]. pose proof (contents_length q). lia.
  - assert (Hw : wrap q (slot (c_cn q) f i + 1) = slot (c_cn q) f (i + 1)) by (apply slot_next; lia).
    rewrite Hw, Ecs. csimpl.
    destruct (read_slot q (slot (c_cn q) f (i + 1)) cs Hm Ecs) as (b & d & -> & -> & Hchr & _);
      [apply slot_bounds; lia|]. csimpl. rewrite Hchr.
    replace (c_cc q - i - 1) with (c_cc q - (i + 1)) by lia.
    rewrite (IH q f (i + 1) cs) by (done || lia). csimpl.
    assert (Hlk : contents q !! S (Z.to_nat i) = Some (chr q (slot (c_cn q) f (i + 1)))).
    { rewrite lookup_contents, Hf. simpl. rewrite (proj2 (Z.ltb_lt _ _)) by lia. do 3 f_equal. lia. }
    rewrite (drop_S _ _ _ Hlk). replace (Z.to_nat (i + 1)) with (S (Z.to_nat i)) by lia. done.
Qed.

#[global] Arguments walk : simpl never.

(** ** Concatenation *)

Lemma catq_loop_spec fuel : ∀ from to, clist_ok from → clist_ok to →
  (length (contents from) < fuel)%nat →
  ∃ from' to', catq_loop fuel from to = Ok (from', to') ∧ clist_ok from' ∧ clist_ok to' ∧
    contents from' = [] ∧ c_cn to' = c_cn to ∧
    contents to' = contents to ++
      take (Z.to_nat (c_cn to - c_cc to)) ((λ c, stored to c) <$> contents from).
Proof.
  induction fuel as [|fuel IH]; intros from to Hf Ht Hfu; [lia|]. simpl.
  destruct (getc_spec from Hf) as (r & from' & -> & Hf' & _ & H). csimpl.
  destruct (contents from) as [|c l] eqn:E.
  - destruct H as [-> ->]. simpl. exists from, to. rewrite take_nil, app_nil_r. done.
  - destruct H as (-> & Hc & Hl & _). rewrite (proj2 (Z.eqb_neq c (-1))) by lia.
    destruct (putc_spec c to Ht) as (r & to' & -> & Ht' & Hn & Hp). csimpl.
    destruct (IH from' to' Hf' Ht') as (f2 & t2 & -> & ? & ? & ? & Hn2 & Hcon);
      [rewrite Hl; simpl in Hfu; lia|].
    exists f2, t2. split_and!; try done; [congruence|]. rewrite Hcon, Hl.
    destruct (Z.eqb_spec (c_cc to) (c_cn to)) as [He|He].
    + destruct Hp as [_ ->]. by rewrite He, Z.sub_diag.
    + destruct Hp as (_ & Hcon' & Hcc & Hk). rewrite Hcon', <-app_assoc, Hn, Hcc. f_equal.
      assert (c_cc to ≤ c_cn to).
      { destruct Ht as [(Hpos & _ & _) Hr]. destruct (Z.eqb_spec (c_cc to) 0); [lia|].
        destruct Hr as (f & _ & _ & _ & _ & ?). lia. }
      replace (Z.to_nat (c_cn to - c_cc to)) with (S (Z.to_nat (c_cn to - (c_cc to + 1)))) by lia.
      csimpl. do 2 f_equal. apply list_fmap_ext. intros i x _. unfold stored. by rewrite Hk.
Qed.

(** ** Properties *)

(** A queue of 8 characters that holds the letters a and b, the second one
    quoted, from the last place of the buffer on. *)
Definition sample_clist : clist :=
  match (q ← b_to_q [1; 2; 3; 4; 5; 6; 7; 97] (clalloc 8 true);
         q ← q_to_b q.2 7; q ← putc (98 + TTY_QUOTE) q.2; mret q.2) with
  | Ok q => q
  | Fault _ => clalloc 8 true
  end.

Lemma sample_clist_ok : clist_ok sample_clist.
Proof.
  split.
  - split; [done|]. split; [split; [done|by_decide]|]. split; [done|by_decide].
  - exists 7. split; [by eexists|]. split_and!; first [reflexivity|by_decide].
Qed.

(** C9: each operation on a ring buffer implements the operation on a bounded
    list of characters that its comment describes, on every state that satisfies
    the invariant, which it preserves: [putc] appends or fails when the queue is
    full, [getc] takes the first character, [unputc] the last one, [b_to_q]
    appends what fits and reports the rest, [q_to_b] removes and copies out the
    front, [ndflush] drops it.  No access leaves the buffer or the bit array and
    every loop ends. *)
Theorem clist_refines op q : clist_ok q → clop_wf op → ∃ out q', run_clop op q = Ok (out, q') ∧
  clist_ok q' ∧ c_cn q' = c_cn q ∧
  (out, contents q') = spec_clop op (c_cn q) (keeps_quote q) (contents q).
Proof. apply clop_step. Qed.

Lemma clist_refines_witness : ∃ out q', run_clop (OpWrite [120; 121; 122]) sample_clist = Ok (out, q') ∧
  clist_ok q' ∧ c_cn q' = 8 ∧
  (out, contents q') = spec_clop (OpWrite [120; 121; 122]) 8 true [97; 98 + TTY_QUOTE].
Proof. apply (clist_refines (OpWrite [120; 121; 122]) sample_clist sample_clist_ok). by_decide. Defined.

(** C10: [clrbits] clears the same bits as the loop of [clrbit] that its comment
    means: the results are the same array. *)
Theorem clrbits_is_loop a off len : bytes_wf a → 0 ≤ off → 0 < len →
  off + len ≤ NBBY * Z.of_nat (length a) →
  clrbits a off len = clrbit_loop (Z.to_nat len) a off ∧ ∃ a', clrbits a off len = Ok a'.
Proof.
  intros Hwf Ho Hl Ha. destruct (clrbits_spec a off len) as (a1 & -> & Hl1 & Hw1 & Hb1); [done..|].
  destruct (clrbit_loop_spec (Z.to_nat len) a off) as (a2 & -> & Hl2 & Hw2 & Hb2); [done|lia|done|].
  split; [|by eexists]. f_equal. apply bits_ext; [done|done|congruence|]. intros j Hj.
  rewrite Hb1, Hb2 by done. do 2 f_equal. lia.
Qed.

Lemma clrbits_is_loop_witness : clrbits [255; 255; 255; 255] 5 17 = clrbit_loop 17 [255; 255; 255; 255] 5 ∧
  ∃ a', clrbits [255; 255; 255; 255] 5 17 = Ok a'.
Proof. apply (clrbits_is_loop [255; 255; 255; 255] 5 17); [by_decide|done|done|done]. Defined.

(** [catq] moves the characters of one queue to the end of the other in
    order, as long as there is room, and leaves the first one empty: what does
    not fit is lost. *)
Lemma catq_moves from to : clist_ok from → clist_ok to → ∃ from' to',
  catq from to = Ok (from', to') ∧ clist_ok from' ∧ clist_ok to' ∧ contents from' = [] ∧
  contents to' = contents to ++
    take (Z.to_nat (c_cn to - c_cc to)) ((λ c, stored to c) <$> contents from).
Proof.
  intros Hf Ht. unfold catq.
  destruct (catq_loop_spec (S (Z.to_nat (c_cc from))) from to Hf Ht) as (f' & t' & -> & ? & ? & ? & _ & ?).
  { pose proof (clist_cc from Hf). lia. }
  by exists f', t'.
Qed.

Lemma clalloc_ok n quot : 0 < n → clist_ok (clalloc n quot).
Proof. intros Hn. split; [by apply clalloc_mem|done]. Qed.

Lemma catq_moves_witness : ∃ from' to',
  catq sample_clist (clalloc 1 true) = Ok (from', to') ∧ clist_ok from' ∧ clist_ok to' ∧
  contents from' = [] ∧
  contents to' = contents (clalloc 1 true) ++ take 1 ((λ c, stored (clalloc 1 true) c) <$> contents sample_clist).
Proof. apply (catq_moves sample_clist (clalloc 1 true) sample_clist_ok). by apply clalloc_ok. Defined.

(** [firstc] and then [nextc] until it returns null visit the characters of
    the queue in order, with their quote bits. *)
Lemma walk_visits q : clist_ok q → walk_all (S (Z.to_nat (c_cc q))) q = Ok (contents q).
Proof.
  intros [Hm Hr]. unfold walk_all, firstc. destruct (Z.eqb_spec (c_cc q) 0) as [H0|H0].
  { csimpl. by rewrite contents_empty. }
  destruct Hr as [f Hr]. pose proof Hr as ([cs Ecs] & Hf & Hfb & _ & Hc). rewrite Hf, Ecs. csimpl.
  destruct (read_slot q f cs Hm Ecs Hfb) as (b & d & -> & -> & Hchr & _). csimpl. rewrite Hchr.
  pose proof (walk_spec (S (Z.to_nat (c_cc q))) q f 0 cs Hm Hr Ecs ltac:(lia)) as Hw.
  assert (Hs : slot (c_cn q) f 0 = f) by (slots; lia). rewrite Hs, Z.sub_0_r in Hw. rewrite Hw.
  assert (Hlk : contents q !! 0%nat = Some (chr q f)).
  { rewrite lookup_contents, Hf, (proj2 (Z.ltb_lt _ _)) by lia. by rewrite <-Hs at 2. }
  pose proof (drop_S _ _ _ Hlk) as Hd. rewrite drop_0 in Hd. rewrite Hd at 2.
  cbn [mbind res_bind mret res_ret]. do 2 f_equal. apply take_ge. rewrite length_drop.
  pose proof (contents_length q). lia.
Qed.

(** a queue can be read where it is, without taking characters off. [firstc]
    and then [nextc] until it returns null visit its characters in order, with
    their quote bits; and the length that [ndqb] with flag 0 reports is that of a
    run of characters, non-empty unless the queue is, that starts at [c_cf]: a
    driver may copy it out at once. *)
Lemma clist_read_in_place q : clist_ok q →
  walk_all (S (Z.to_nat (c_cc q))) q = Ok (contents q) ∧
  ∃ n, ndqb q 0 = Ok n ∧ 0 ≤ n ≤ c_cc q ∧ (0 < c_cc q → 0 < n) ∧
    ∀ cs f, c_cs q = Some cs → c_cf q = Some f → copyout cs f n = Ok (low <$> take (Z.to_nat n) (contents q)).
Proof. intros Hok. split; [by apply walk_visits|by apply ndqb_spec]. Qed.

Lemma clist_read_in_place_witness : walk_all 3 sample_clist = Ok (contents sample_clist) ∧
  ∃ n, ndqb sample_clist 0 = Ok n ∧ 0 ≤ n ≤ 2 ∧ (0 < 2 → 0 < n) ∧
    ∀ cs f, c_cs sample_clist = Some cs → c_cf sample_clist = Some f →
      copyout cs f n = Ok (low <$> take (Z.to_nat n) (contents sample_clist)).
Proof. apply (clist_read_in_place sample_clist sample_clist_ok). Defined.

Definition quoted_b : clist := match putc (98 + TTY_QUOTE) (clalloc 8 true) with Ok q => q.2 | _ => clalloc 8 true end.
Definition full_clist : clist := match b_to_q [1; 2; 3; 4; 5; 6; 7; 8] (clalloc 8 true) with Ok q => q.2 | _ => clalloc 8 true end.

(** With [TTY_QUOTE] in its flag [ndqb] looks at the quote bit one place too
    far, because it tests bit [i] after [i++]: it counts a quoted character as
    plain, and at the end of the buffer it reads past the bit array. *)
Example ndqb_quote_off_by_one :
  contents quoted_b = [98 + TTY_QUOTE] ∧ ndqb quoted_b TTY_QUOTE = Ok 1 ∧
  clist_ok full_clist ∧ ndqb full_clist TTY_QUOTE = Fault OutOfBounds.
Proof.
  split; [vm_compute; reflexivity|]. split; [vm_compute; reflexivity|]. split; [|vm_compute; reflexivity].
  split.
  - split; [done|]. split; [split; [done|by_decide]|]. split; [done|by_decide].
  - exists 0. split; [by eexists|]. split_and!; first [reflexivity|by_decide].
Qed.
