(* ===== verification/Extent.v ===== *)
(** * Extent maps: allocation of ranges of numbers (kern/subr_extent.c)

    [u_long] is a [Z] below [2^64].  A region descriptor that is not on the
    region list is known by its flags alone; pointers into the region list are
    positions in it.  The mutex of the extent is the flag [ex_lock], true
    when the running thread holds it; a thread
    that sleeps on [ex_cv] is a verdict of the call, and the code it runs when
    it wakes is a function of its own.  [DIAGNOSTIC] is the kernel option. *)

From S2P Require Export Prelude.

(** ** Constants (sys/extent.h, sys/errno.h) *)

Definition ER_ALLOC : Z := 0x01.
Definition EXF_FIXED : Z := 0x1.
Definition EXF_NOCOALESCE : Z := 0x2.
Definition EXF_EARLY : Z := 0x4.
Definition EX_NOWAIT : Z := 0.
Definition EX_WAITOK : Z := 0x1.
Definition EX_FAST : Z := 0x2.
Definition EX_CATCH : Z := 0x4.
Definition EX_NOCOALESCE : Z := 0x8.
Definition EX_MALLOCOK : Z := 0x10.
Definition EX_WAITSPACE : Z := 0x20.
Definition EX_BOUNDZERO : Z := 0x40.
Definition EX_EARLY : Z := 0x80.
Definition EX_NOALIGN : Z := 1.
Definition EX_NOBOUNDARY : Z := 0.
Definition ENOMEM : Z := 12.
Definition EINVAL : Z := 22.
Definition EAGAIN : Z := 35.

(** [flags & bit] as a condition. *)
Definition has (flags bit : Z) : bool := negb (flags .& bit =? 0).

(** ** Data *)

Record extent_region := ExtentRegion {
  er_start : Z;
  er_end : Z;
  er_flags : Z;
}.

#[export] Instance extent_region_eq_dec : EqDecision extent_region.
Proof. solve_decision. Defined.

(** [fex_freelist] is empty in an extent that is not fixed; [pr_nout] is the
    number of descriptors the pool [expool] has handed out to this extent. *)
Record extent := Extent {
  ex_lock : bool;
  ex_regions : list extent_region;
  ex_start : Z;
  ex_end : Z;
  ex_flags : Z;
  ex_flwanted : bool;
  fex_freelist : list Z;
  pr_nout : Z;
}.

Definition set_lock (ex : extent) (b : bool) : extent :=
  Extent b (ex_regions ex) (ex_start ex) (ex_end ex) (ex_flags ex) (ex_flwanted ex)
    (fex_freelist ex) (pr_nout ex).
Definition set_regions (ex : extent) (rs : list extent_region) : extent :=
  Extent (ex_lock ex) rs (ex_start ex) (ex_end ex) (ex_flags ex) (ex_flwanted ex)
    (fex_freelist ex) (pr_nout ex).
Definition set_flwanted (ex : extent) (b : bool) : extent :=
  Extent (ex_lock ex) (ex_regions ex) (ex_start ex) (ex_end ex) (ex_flags ex) b
    (fex_freelist ex) (pr_nout ex).
Definition set_freelist (ex : extent) (l : list Z) : extent :=
  Extent (ex_lock ex) (ex_regions ex) (ex_start ex) (ex_end ex) (ex_flags ex)
    (ex_flwanted ex) l (pr_nout ex).
Definition set_nout (ex : extent) (n : Z) : extent :=
  Extent (ex_lock ex) (ex_regions ex) (ex_start ex) (ex_end ex) (ex_flags ex)
    (ex_flwanted ex) (fex_freelist ex) n.

Definition set_start (r : extent_region) (a : Z) : extent_region :=
  ExtentRegion a (er_end r) (er_flags r).
Definition set_end (r : extent_region) (a : Z) : extent_region :=
  ExtentRegion (er_start r) a (er_flags r).

(** ** Locking *)

(** [ex_lock] is a spin mutex (IPL_VM), and the flag says that the running
    thread holds it.  A thread that takes it while it holds it spins for ever
    in the kernel modelled, one with MULTIPROCESSOR (kern_mutex.c: with
    LOCKDEBUG the spinning ends in a panic).  The mutex of an early extent is
    never initialised. *)
Definition mutex_enter (ex : extent) : res extent :=
  if has (ex_flags ex) EXF_EARLY then Fault Uninitialised
  else if ex_lock ex then Fault Deadlock
  else mret (set_lock ex true).
Definition mutex_exit (ex : extent) : res extent :=
  if has (ex_flags ex) EXF_EARLY then Fault Uninitialised
  else if ex_lock ex then mret (set_lock ex false)
  else Fault Panic.

(** [if (!(ex->ex_flags & EXF_EARLY)) mutex_enter(&ex->ex_lock)] *)
Definition enter (ex : extent) : res extent :=
  if has (ex_flags ex) EXF_EARLY then mret ex else mutex_enter ex.
Definition leave (ex : extent) : res extent :=
  if has (ex_flags ex) EXF_EARLY then mret ex else mutex_exit ex.

(** Falling asleep in [cv_wait] gives up the mutex. *)
Definition cv_sleep (ex : extent) : res extent := mutex_exit ex.

(** ** Region descriptors *)

Inductive got :=
  | GotDesc (rp : Z)   (** a descriptor *)
  | NoDesc             (** NULL *)
  | SleepDesc.         (** asleep until one is freed *)

(** [pool_get]: with [PR_WAITOK] it does not return NULL; [pool_ok] tells
    whether the pool can hand out an item at once. *)
Definition pool_get (pool_ok : bool) (ex : extent) (flags : Z) : extent * got :=
  if has flags EX_WAITOK || pool_ok then (set_nout ex (pr_nout ex + 1), GotDesc ER_ALLOC)
  else (ex, NoDesc).
Definition pool_put (ex : extent) : extent := set_nout ex (pr_nout ex - 1).

(** The body of the loop over the freelist, with the mutex held. *)
Definition descriptor_loop (pool_ok : bool) (ex : extent) (flags : Z) : res (extent * got) :=
  match fex_freelist ex with
  | rp :: l => ex ← leave (set_freelist ex l); mret (ex, GotDesc rp)
  | [] =>
    if has flags EX_MALLOCOK then ex ← leave ex; mret (pool_get pool_ok ex flags)
    else if negb (has flags EX_WAITOK) then ex ← leave ex; mret (ex, NoDesc)
    else if negb (ex_lock ex) then Fault Panic
    else ex ← cv_sleep (set_flwanted ex true); mret (ex, SleepDesc)
  end.

Definition extent_alloc_region_descriptor (pool_ok : bool) (ex : extent) (flags : Z) :
    res (extent * got) :=
  if has (ex_flags ex) EXF_FIXED then ex ← enter ex; descriptor_loop pool_ok ex flags
  else mret (pool_get pool_ok ex flags).

(** What a thread asleep in [extent_alloc_region_descriptor] does when
    [cv_wait_sig] or [cv_wait] returns [error]. *)
Definition descriptor_wake (pool_ok : bool) (ex : extent) (flags error : Z) :
    res (extent * got) :=
  ex ← mutex_enter ex;
  if negb (error =? 0) then ex ← mutex_exit ex; mret (ex, NoDesc)
  else descriptor_loop pool_ok ex flags.

Definition extent_free_region_descriptor (ex : extent) (rp : Z) : extent :=
  if has (ex_flags ex) EXF_FIXED then
    let ex :=
      if has rp ER_ALLOC then
        if ex_flwanted ex then set_freelist ex (ER_ALLOC :: fex_freelist ex)
        else pool_put ex
      else set_freelist ex (0 :: fex_freelist ex) in
    if has (ex_flags ex) EXF_EARLY then ex else set_flwanted ex false
  else pool_put ex.

(** ** Creation and destruction

    [fixed_size] and [region_size] are [ALIGN(sizeof(struct extent_fixed))]
    and [ALIGN(sizeof(struct extent_region))], which depend on the machine. *)
Section create.
Context (DIAGNOSTIC : bool) (fixed_size region_size : Z).

(** The loop that carves descriptors out of the storage; [fuel] bounds the
    number of descriptors. *)
Fixpoint carve (fuel : nat) (sz : Z) (l : list Z) : res (list Z) :=
  if sz >=? region_size then
    match fuel with
    | O => Fault NoFuel
    | S fuel => carve fuel (sz - region_size) (0 :: l)
    end
  else mret l.

(** [storage] is the size of the storage handed in, [None] for NULL; [None]
    is returned when [kmem_alloc] fails. *)
Definition extent_create (kmem_ok : bool) (start end_ : Z) (storage : option Z) (flags : Z) :
    res (option extent) :=
  if DIAGNOSTIC && (end_ <? start) then Fault Panic
  else
    let exflags :=
      match storage with Some _ => EXF_FIXED | None => 0 end
      .| (if has flags EX_NOCOALESCE then EXF_NOCOALESCE else 0)
      .| (if has flags EX_EARLY then EXF_EARLY else 0) in
    match storage with
    | Some storagesize =>
      if storagesize <? fixed_size then Fault (if DIAGNOSTIC then Panic else OutOfBounds)
      else
        let sz := storagesize - fixed_size in
        l ← carve (Z.to_nat sz) sz [];
        mret (Some (Extent false [] start end_ exflags false l 0))
    | None =>
      if negb (has flags EX_WAITOK || kmem_ok) then mret None
      else mret (Some (Extent false [] start end_ exflags false [] 0))
    end.
End create.

(** The loop of [extent_destroy]. *)
Fixpoint destroy_loop (rs : list extent_region) (ex : extent) : extent :=
  match rs with
  | [] => ex
  | orp :: rest =>
    destroy_loop rest (extent_free_region_descriptor (set_regions ex rest) (er_flags orp))
  end.
Definition extent_destroy (ex : extent) : extent := destroy_loop (ex_regions ex) ex.

(** ** Insertion

    [after] is the number of regions up to and including the entry [after] of
    the code, 0 for NULL. *)
Definition extent_insert_and_optimize (ex : extent) (start size : Z) (after : nat) (rp : Z) :
    res extent :=
  let rs := ex_regions ex in
  let new := ExtentRegion start (u64 (start + (size - 1))) rp in
  let coalesce := negb (has (ex_flags ex) EXF_NOCOALESCE) in
  match after with
  | O =>
    match rs with
    | first :: rest =>
      if coalesce && (u64 (start + size) =? er_start first) then
        mret (extent_free_region_descriptor
          (set_regions ex (set_start first start :: rest)) rp)
      else mret (set_regions ex (new :: rs))
    | [] => mret (set_regions ex [new])
    end
  | S n =>
    a ← match rs !! n with Some a => mret a | None => Fault NullDeref end;
    let pre := take n rs in
    let post := drop (S n) rs in
    if negb coalesce then mret (set_regions ex (pre ++ a :: new :: post))
    else
      let appended := u64 (er_end a + 1) =? start in
      let a := if appended then set_end a (u64 (start + (size - 1))) else a in
      let insert :=
        if appended then extent_free_region_descriptor (set_regions ex (pre ++ a :: post)) rp
        else set_regions ex (pre ++ a :: new :: post) in
      match post with
      | nextr :: post' =>
        if u64 (start + size) =? er_start nextr then
          mret (extent_free_region_descriptor
            (if appended then
               extent_free_region_descriptor
                 (set_regions ex (pre ++ set_end a (er_end nextr) :: post')) (er_flags nextr)
             else set_regions ex (pre ++ a :: set_start nextr start :: post')) rp)
        else mret insert
      | [] => mret insert
      end
  end.

(** ** Outcomes of a call *)

Inductive verdict :=
  | Returned (error result : Z)   (** [error], and [*result] when it is 0 *)
  | SleepsDesc                    (** asleep for a descriptor *)
  | SleepsSpace (myrp : Z).       (** asleep for space, holding [myrp] *)

(** ** A given region *)

(** The loop over the regions: [None] on a conflict, else the position of
    [last]. *)
Fixpoint region_scan (rs : list extent_region) (start end_ : Z) (last : nat) : option nat :=
  match rs with
  | [] => Some last
  | rp :: rest =>
    if er_start rp >? end_ then Some last
    else if er_end rp >=? start then None
    else region_scan rest start end_ (S last)
  end.

(** From the label [alloc_start], with the mutex held. *)
Definition alloc_region_start (ex : extent) (start size flags myrp : Z) :
    res (extent * verdict) :=
  match region_scan (ex_regions ex) start (u64 (start + (size - 1))) 0 with
  | None =>
    if has flags EX_WAITSPACE then
      if has (ex_flags ex) EXF_EARLY then Fault Panic
      else ex ← cv_sleep ex; mret (ex, SleepsSpace myrp)
    else
      ex ← leave ex;
      mret (extent_free_region_descriptor ex myrp, Returned EAGAIN 0)
  | Some last =>
    ex ← extent_insert_and_optimize ex start size last myrp;
    ex ← leave ex;
    mret (ex, Returned 0 start)
  end.

Definition alloc_region_wake (ex : extent) (start size flags myrp error : Z) :
    res (extent * verdict) :=
  ex ← mutex_enter ex;
  if error =? 0 then alloc_region_start ex start size flags myrp
  else
    ex ← mutex_exit ex;
    mret (extent_free_region_descriptor ex myrp, Returned error 0).

(** The checks before the descriptor is allocated: [None] when they pass. *)
Definition alloc_region_checks (DIAGNOSTIC : bool) (ex : extent) (start size : Z) :
    res (option Z) :=
  let end_ := u64 (start + (size - 1)) in
  if DIAGNOSTIC && (size <? 1) then Fault Panic
  else if DIAGNOSTIC && (end_ <? start) then Fault Panic
  else if (start <? ex_start ex) || (end_ >? ex_end ex) then
    if DIAGNOSTIC then Fault Panic else mret (Some EINVAL)
  else mret None.

Definition extent_alloc_region (DIAGNOSTIC pool_ok : bool) (ex : extent)
    (start size flags : Z) : res (extent * verdict) :=
  chk ← alloc_region_checks DIAGNOSTIC ex start size;
  match chk with
  | Some error => mret (ex, Returned error 0)
  | None =>
    '(ex, g) ← extent_alloc_region_descriptor pool_ok ex flags;
    match g with
    | NoDesc => mret (ex, Returned ENOMEM 0)
    | SleepDesc => mret (ex, SleepsDesc)
    | GotDesc myrp =>
      ex ← enter ex;
      alloc_region_start ex start size flags myrp
    end
  end.

(** ** A region somewhere in a subregion *)

Definition EXTENT_ALIGN (start align skew : Z) : Z :=
  u64 ((u64 (start - skew + (align - 1)) .& u64 (- align)) + skew).
Definition LE_OV (x y z : Z) : bool := (u64 (x + y) >=? x) && (u64 (x + y) <=? z).

(** What the boundary check makes of a candidate. *)
Inductive fit :=
  | Fits (newstart : Z)
  | Crosses    (** no room left before the next region once moved: [goto skip] *)
  | NoFit.     (** [goto fail] *)

(** [room newstart] is the test that the request fits in the gap. *)
Definition boundary_check (ex : extent) (room : Z → bool)
    (newstart size boundary flags : Z) : fit :=
  if boundary =? 0 then Fits newstart
  else
    let newend := u64 (newstart + (size - 1)) in
    let dontcross := u64 (EXTENT_ALIGN (u64 (newstart + 1)) boundary
      (if has flags EX_BOUNDZERO then 0 else ex_start ex) - 1) in
    let past newstart dontcross :=
      if (u64 (newstart + size - 1) >? ex_end ex) || (dontcross <? newstart) then NoFit
      else Fits newstart in
    if dontcross <? ex_start ex then past newstart (ex_end ex)
    else if newend >? dontcross then
      let newstart := u64 (dontcross + 1) in
      if negb (room newstart) then Crosses else past newstart (u64 (dontcross + boundary))
    else past newstart dontcross.

(** The best gap so far: [bestovh], [beststart] and [bestlast]. *)
Record best := Best { bestovh : Z; beststart : Z; bestlast : nat }.

Definition better (b : best) (ovh newstart : Z) (last : nat) : best :=
  if (bestovh b =? 0) || (ovh <? bestovh b) then Best ovh newstart last else b.

(** Where the loop over the gaps leaves to. *)
Inductive gap_exit :=
  | GapFound (newstart : Z) (last : nat)                       (** [goto found] *)
  | GapFail (b : best)                                         (** [goto fail] *)
  | GapTail (exend newstart : Z) (last : nat) (b : best).      (** the final check *)

Section search.
Context (ex : extent) (subend size alignment skew boundary flags : Z).

(** The loop over the regions after [last]. *)
Fixpoint gap_loop (rs : list extent_region) (newstart : Z) (last : nat) (b : best) : gap_exit :=
  match rs with
  | [] => GapTail (ex_end ex) newstart last b
  | rp :: rest =>
    if er_start rp >? subend then GapTail (er_start rp) newstart last b
    else
      let skip b :=
        let newstart := EXTENT_ALIGN (u64 (er_end rp + 1)) alignment skew in
        if newstart <? er_end rp then GapFail b
        else gap_loop rest newstart (S last) b in
      let room newstart := LE_OV newstart size (er_start rp) in
      if room newstart then
        match boundary_check ex room newstart size boundary flags with
        | NoFit => GapFail b
        | Crosses => skip b
        | Fits newstart =>
          let ovh := u64 (er_start rp - newstart - size) in
          if has flags EX_FAST || (ovh =? 0) then GapFound newstart last
          else skip (better b ovh newstart last)
        end
      else skip b
  end.

(** The final check against the end of the subregion. *)
Definition tail_check (exend newstart : Z) (last : nat) (b : best) : gap_exit :=
  let room newstart := LE_OV newstart (size - 1) subend in
  if room newstart then
    match boundary_check ex room newstart size boundary flags with
    | NoFit | Crosses => GapFail b
    | Fits newstart =>
      let ovh := u64 (exend - newstart - (size - 1)) in
      if has flags EX_FAST || (ovh =? 0) then GapFound newstart last
      else GapFail (better b ovh newstart last)
    end
  else GapFail b.

(** The loop that finds [last], the last region that begins before
    [newstart]; with it the end of that region. *)
Fixpoint skip_before (rs : list extent_region) (newstart : Z) (last : nat) (lend : option Z) :
    nat * option Z * list extent_region :=
  match rs with
  | rp :: rest =>
    if er_start rp >=? newstart then (last, lend, rs)
    else skip_before rest newstart (S last) (Some (er_end rp))
  | [] => (last, lend, [])
  end.

(** The search from [newstart], up to the label [found] or the end of the
    label [fail]: the start and the position, or nothing. *)
Definition search (newstart : Z) : option (Z * nat) :=
  let '(last, lend, rest) := skip_before (ex_regions ex) newstart 0 None in
  let newstart :=
    match lend with
    | Some e => if e >=? newstart then EXTENT_ALIGN (u64 (e + 1)) alignment skew else newstart
    | None => newstart
    end in
  let out :=
    match gap_loop rest newstart last (Best 0 0 0) with
    | GapTail exend newstart last b => tail_check exend newstart last b
    | out => out
    end in
  match out with
  | GapFound newstart last => Some (newstart, last)
  | GapFail b | GapTail _ _ _ b =>
    if negb (has flags EX_FAST) && negb (bestovh b =? 0) then Some (beststart b, bestlast b)
    else None
  end.
End search.

(** From the label [alloc_start]. *)
Definition alloc_subregion_start (DIAGNOSTIC : bool) (ex : extent)
    (substart subend size alignment skew boundary flags myrp : Z) : res (extent * verdict) :=
  ex ← mutex_enter ex;
  let newstart := EXTENT_ALIGN substart alignment skew in
  if newstart <? ex_start ex then
    if DIAGNOSTIC then Fault Panic
    else
      ex ← mutex_exit (extent_free_region_descriptor ex myrp);
      mret (ex, Returned EINVAL 0)
  else
    match search ex subend size alignment skew boundary flags newstart with
    | Some (newstart, last) =>
      ex ← extent_insert_and_optimize ex newstart size last myrp;
      ex ← mutex_exit ex;
      mret (ex, Returned 0 newstart)
    | None =>
      if has flags EX_WAITSPACE then ex ← cv_sleep ex; mret (ex, SleepsSpace myrp)
      else
        ex ← mutex_exit ex;
        mret (extent_free_region_descriptor ex myrp, Returned EAGAIN 0)
    end.

(** [cv_wait] takes the mutex again before it returns. *)
Definition alloc_subregion_wake (DIAGNOSTIC : bool) (ex : extent)
    (substart subend size alignment skew boundary flags myrp error : Z) :
    res (extent * verdict) :=
  ex ← mutex_enter ex;
  if error =? 0 then
    alloc_subregion_start DIAGNOSTIC ex substart subend size alignment skew boundary flags myrp
  else
    ex ← mutex_exit ex;
    mret (extent_free_region_descriptor ex myrp, Returned error 0).

(** The checks of a kernel with [DIAGNOSTIC]. *)
Definition alloc_subregion_checks (DIAGNOSTIC : bool) (ex : extent)
    (substart subend size alignment boundary : Z) : res unit :=
  if DIAGNOSTIC && ((substart <? ex_start ex) || (substart >? ex_end ex)
      || (subend >? ex_end ex) || (subend <? ex_start ex)) then Fault Panic
  else if DIAGNOSTIC && ((size <? 1) || (size - 1 >? u64 (subend - substart))) then Fault Panic
  else if DIAGNOSTIC && (alignment =? 0) then Fault Panic
  else if DIAGNOSTIC && (negb (boundary =? 0) && (boundary <? size)) then Fault Panic
  else mret ().

Definition extent_alloc_subregion1 (DIAGNOSTIC pool_ok : bool) (ex : extent)
    (substart subend size alignment skew boundary flags : Z) : res (extent * verdict) :=
  _ ← alloc_subregion_checks DIAGNOSTIC ex substart subend size alignment boundary;
  '(ex, g) ← extent_alloc_region_descriptor pool_ok ex flags;
  match g with
  | NoDesc => mret (ex, Returned ENOMEM 0)
  | SleepDesc => mret (ex, SleepsDesc)
  | GotDesc myrp =>
    alloc_subregion_start DIAGNOSTIC ex substart subend size alignment skew boundary flags myrp
  end.

Definition extent_alloc_subregion (DIAGNOSTIC pool_ok : bool) (ex : extent)
    (start end_ size alignment boundary flags : Z) : res (extent * verdict) :=
  extent_alloc_subregion1 DIAGNOSTIC pool_ok ex start end_ size alignment 0 boundary flags.
Definition extent_alloc (DIAGNOSTIC pool_ok : bool) (ex : extent)
    (size alignment boundary flags : Z) : res (extent * verdict) :=
  extent_alloc_subregion1 DIAGNOSTIC pool_ok ex (ex_start ex) (ex_end ex)
    size alignment 0 boundary flags.
Definition extent_alloc1 (DIAGNOSTIC pool_ok : bool) (ex : extent)
    (size alignment skew boundary flags : Z) : res (extent * verdict) :=
  extent_alloc_subregion1 DIAGNOSTIC pool_ok ex (ex_start ex) (ex_end ex)
    size alignment skew boundary flags.

(** ** Freeing *)

(** The loop over the regions: the new list, the descriptor that was taken
    off it if there is one, and [nrp] if it was not used; [None] when the
    region is not found. *)
Fixpoint free_loop (coalesce : bool) (rs : list extent_region) (start end_ : Z)
    (nrp : option Z) : option (list extent_region * option Z * option Z) :=
  match rs with
  | [] => None
  | rp :: rest =>
    let continue :=
      '(rs, gone, nrp) ← free_loop coalesce rest start end_ nrp;
      mret (rp :: rs, gone, nrp) in
    if er_end rp <? start then continue
    else if er_start rp >? end_ then None
    else if (start =? er_start rp) && (end_ =? er_end rp) then
      Some (rest, Some (er_flags rp), nrp)
    else if negb coalesce then continue
    else if (start =? er_start rp) && (end_ <? er_end rp) then
      Some (set_start rp (u64 (end_ + 1)) :: rest, None, nrp)
    else if (start >? er_start rp) && (end_ =? er_end rp) then
      Some (set_end rp (u64 (start - 1)) :: rest, None, nrp)
    else if (start >? er_start rp) && (end_ <? er_end rp) then
      match nrp with
      | Some n =>
        Some (set_end rp (u64 (start - 1))
              :: ExtentRegion (u64 (end_ + 1)) (er_end rp) n :: rest, None, None)
      | None => None
      end
    else continue
  end.

Definition free_checks (DIAGNOSTIC : bool) (ex : extent) (start size : Z) : res unit :=
  let end_ := u64 (start + (size - 1)) in
  if DIAGNOSTIC && ((start <? ex_start ex) || (end_ >? ex_end ex)) then Fault Panic
  else if DIAGNOSTIC && (end_ <? start) then Fault Panic
  else mret ().

(** From the point where the mutex is taken, with the descriptor [nrp]. *)
Definition free_start (ex : extent) (start size : Z) (nrp : option Z) : res (extent * verdict) :=
  ex ← enter ex;
  let coalesce := negb (has (ex_flags ex) EXF_NOCOALESCE) in
  match free_loop coalesce (ex_regions ex) start (u64 (start + (size - 1))) nrp with
  | None => Fault Panic
  | Some (rs, gone, nrp) =>
    let ex := set_regions ex rs in
    let ex := match gone with Some rp => extent_free_region_descriptor ex rp | None => ex end in
    let ex := match nrp with Some rp => extent_free_region_descriptor ex rp | None => ex end in
    ex ← leave ex;
    mret (ex, Returned 0 0)
  end.

Definition extent_free (DIAGNOSTIC pool_ok : bool) (ex : extent) (start size flags : Z) :
    res (extent * verdict) :=
  _ ← free_checks DIAGNOSTIC ex start size;
  if negb (has (ex_flags ex) EXF_NOCOALESCE) then
    '(ex, g) ← extent_alloc_region_descriptor pool_ok ex flags;
    match g with
    | NoDesc => mret (ex, Returned ENOMEM 0)
    | SleepDesc => mret (ex, SleepsDesc)
    | GotDesc nrp => free_start ex start size (Some nrp)
    end
  else free_start ex start size None.
