(* ===== verification/ExtentSpec.v ===== *)
(** * Extent maps: the invariant of the region list, and the operations on a
      given region

    The regions are sorted, disjoint and inside the extent; in an extent that
    coalesces no two of them touch, so the list is determined by the set of
    allocated numbers.  Every descriptor is accounted for. *)

From S2P Require Export Prelude Extent.

(** ** The region list *)

(** Sorted regions between [lo] and [hi], with at least [g - 1] numbers between
    the end of one and the start of the next. *)
Fixpoint regions_in (g lo : Z) (rs : list extent_region) (hi : Z) : Prop :=
  match rs with
  | [] => True
  | r :: rest =>
    lo ≤ er_start r ∧ er_start r ≤ er_end r ∧ er_end r ≤ hi ∧
    regions_in g (er_end r + g) rest hi
  end.

Definition gap (ex : extent) : Z := if has (ex_flags ex) EXF_NOCOALESCE then 1 else 2.

(** The numbers that are allocated. *)
Definition alloced (rs : list extent_region) (a : Z) : Prop :=
  ∃ r : extent_region, r ∈ rs ∧ er_start r ≤ a ≤ er_end r.

(** Where the next region may start after the regions [rs]. *)
Fixpoint next_lo (g lo : Z) (rs : list extent_region) : Z :=
  match rs with [] => lo | r :: rest => next_lo g (er_end r + g) rest end.

Lemma regions_in_app g lo l1 l2 hi :
  regions_in g lo (l1 ++ l2) hi ↔ regions_in g lo l1 hi ∧ regions_in g (next_lo g lo l1) l2 hi.
Proof.
  revert lo. induction l1 as [|r l1 IH]; intros lo; simpl; [naive_solver|].
  rewrite IH. naive_solver.
Qed.

Lemma next_lo_snoc g lo l r : next_lo g lo (l ++ [r]) = er_end r + g.
Proof. revert lo. induction l as [|r' l IH]; intros lo; simpl; auto. Qed.

Lemma regions_in_weaken g lo lo' rs hi :
  regions_in g lo rs hi → lo' ≤ lo → regions_in g lo' rs hi.
Proof. destruct rs; simpl; naive_solver lia. Qed.

Lemma regions_in_lo g lo rs hi (r : extent_region) :
  1 ≤ g → regions_in g lo rs hi → r ∈ rs → lo ≤ er_start r ≤ er_end r ∧ er_end r ≤ hi.
Proof.
  intros Hg. revert lo. induction rs as [|r' rs IH]; intros lo Hr Hin; [set_solver|].
  destruct Hr as (?&?&?&Hrest). apply list_elem_of_In in Hin. destruct Hin as [->|Hin]; [lia|].
  apply list_elem_of_In in Hin. specialize (IH _ Hrest Hin). lia.
Qed.

Lemma next_lo_ge g lo rs hi : 1 ≤ g → regions_in g lo rs hi → lo ≤ next_lo g lo rs.
Proof.
  intros Hg. revert lo. induction rs as [|r rs IH]; intros lo Hr; simpl; [lia|].
  destruct Hr as (?&?&?&Hrest). specialize (IH _ Hrest). lia.
Qed.

Lemma regions_in_pre g lo rs hi (r : extent_region) :
  1 ≤ g → regions_in g lo rs hi → r ∈ rs → er_end r + g ≤ next_lo g lo rs.
Proof.
  intros Hg. revert lo. induction rs as [|r' rs IH]; intros lo Hr Hin; [set_solver|].
  destruct Hr as (?&?&?&Hrest). apply list_elem_of_In in Hin. destruct Hin as [->|Hin]; simpl.
  - by eapply next_lo_ge.
  - apply list_elem_of_In in Hin. by apply IH.
Qed.

(** An interval that starts above [lo], ends below the regions and within the
    bound can be put in front of them. *)
Lemma regions_in_cons g lo r rs hi :
  lo ≤ er_start r → er_start r ≤ er_end r → er_end r ≤ hi →
  regions_in g (er_end r + g) rs hi → regions_in g lo (r :: rs) hi.
Proof. simpl. auto. Qed.

Lemma regions_in_raise g lo lo' rs hi :
  1 ≤ g → regions_in g lo rs hi → (∀ r : extent_region, r ∈ rs → lo' ≤ er_start r) →
  regions_in g lo' rs hi.
Proof.
  intros Hg Hr Hlo. destruct rs as [|r rs]; [done|]. simpl in *.
  split_and!; [apply Hlo; set_solver|naive_solver..].
Qed.

Lemma alloced_nil a : alloced [] a ↔ False.
Proof. unfold alloced. set_solver. Qed.
Lemma alloced_cons r rs a : alloced (r :: rs) a ↔ er_start r ≤ a ≤ er_end r ∨ alloced rs a.
Proof.
  unfold alloced. split.
  - intros (r'&Hin&Hr). apply elem_of_cons in Hin as [->|]; [by left|right; eauto].
  - intros [?|(r'&?&?)]; [exists r|exists r']; (split; [set_solver|done]).
Qed.
Lemma alloced_app l1 l2 a : alloced (l1 ++ l2) a ↔ alloced l1 a ∨ alloced l2 a.
Proof.
  induction l1 as [|r l1 IH]; simpl; [rewrite alloced_nil; naive_solver|].
  rewrite !alloced_cons, IH. naive_solver.
Qed.

(** ** Descriptors *)

(** How many of the descriptors [l] have the flags [f]. *)
Definition count (f : Z) (l : list Z) : Z := Z.of_nat (length (filter (λ x, x = f) l)).

Lemma count_nil f : count f [] = 0.
Proof. done. Qed.
Lemma count_cons f x l : count f (x :: l) = (if decide (x = f) then 1 else 0) + count f l.
Proof. unfold count. rewrite filter_cons. case_decide; simpl; lia. Qed.
Lemma count_app f l k : count f (l ++ k) = count f l + count f k.
Proof. unfold count. rewrite filter_app, length_app. lia. Qed.

(** The descriptors of the storage of the extent (flags 0), and the difference
    between those of the pool in use and those it has handed out; [held] are
    the descriptors that calls in progress hold. *)
Definition accounts (ex : extent) (held : list Z) : Z * Z :=
  let l := (er_flags <$> ex_regions ex) ++ fex_freelist ex ++ held in
  (count 0 l, count ER_ALLOC l - pr_nout ex).

Definition is_fixed (ex : extent) : bool := has (ex_flags ex) EXF_FIXED.

(** The flags a descriptor of the extent can have. *)
Definition desc_ok (ex : extent) (f : Z) : Prop := f = ER_ALLOC ∨ f = 0 ∧ is_fixed ex = true.

(** ** The invariant *)

Record ext_ok (ex : extent) : Prop := {
  ok_lo : 0 ≤ ex_start ex;
  ok_range : ex_start ex ≤ ex_end ex;
  ok_hi : ex_end ex < 2 ^ 64;
  ok_regions : regions_in (gap ex) (ex_start ex) (ex_regions ex) (ex_end ex);
  ok_flags : Forall (desc_ok ex) (er_flags <$> ex_regions ex);
  ok_free : Forall (desc_ok ex) (fex_freelist ex);
  ok_heap : is_fixed ex = false → fex_freelist ex = [];
}.

(** What no operation changes. *)
Definition same_map (ex ex' : extent) : Prop :=
  ex_start ex' = ex_start ex ∧ ex_end ex' = ex_end ex ∧ ex_flags ex' = ex_flags ex.

#[export] Instance same_map_po : PreOrder same_map.
Proof. split; [done|]. intros x y z (?&?&?) (?&?&?). unfold same_map. by split_and!; congruence. Qed.

Lemma gap_pos ex : 1 ≤ gap ex.
Proof. unfold gap. case_match; lia. Qed.
#[export] Hint Resolve gap_pos : kern.

(** Giving a descriptor back moves it from the caller's hands to the freelist
    or to the pool, and touches nothing else. *)
Lemma free_descriptor_spec ex rp :
  desc_ok ex rp → (is_fixed ex = false → fex_freelist ex = []) →
  let ex' := extent_free_region_descriptor ex rp in
  ex_regions ex' = ex_regions ex ∧ same_map ex ex' ∧ ex_lock ex' = ex_lock ex ∧
  (is_fixed ex = false → fex_freelist ex' = []) ∧
  (Forall (desc_ok ex) (fex_freelist ex) → Forall (desc_ok ex) (fex_freelist ex')) ∧
  ∀ held, accounts ex' held = accounts ex (rp :: held).
Proof.
  intros Hrp Hheap. unfold extent_free_region_descriptor, desc_ok, is_fixed in *.
  destruct (has (ex_flags ex) EXF_FIXED) eqn:Hfix; destruct Hrp as [->|[-> ?]]; try done;
    repeat (case_match; simpl in *; try done);
    (split_and!; [done..|auto| |]);
    try (intros; constructor; auto; fail); try done;
    intros held; unfold accounts; simpl; f_equal;
    repeat rewrite ?count_app, ?count_cons; unfold ER_ALLOC;
    repeat case_decide; simplify_eq/=; lia.
Qed.

Lemma has_ext_ok_same ex ex' :
  same_map ex ex' → gap ex' = gap ex ∧ is_fixed ex' = is_fixed ex.
Proof. intros (?&?&E). unfold gap, is_fixed. by rewrite E. Qed.

(** [ex'] is [ex] with the regions [rs] and, in exchange for the descriptors
    [gained], the descriptors [lost]. *)
Definition becomes (ex ex' : extent) (rs : list extent_region) (gained lost : list Z) : Prop :=
  ext_ok ex' ∧ ex_regions ex' = rs ∧ same_map ex ex' ∧ ex_lock ex' = ex_lock ex ∧
  ∀ held, accounts ex' (lost ++ held) = accounts ex (gained ++ held).

Lemma becomes_set ex rs gained lost :
  ext_ok ex → regions_in (gap ex) (ex_start ex) rs (ex_end ex) →
  Forall (desc_ok ex) gained →
  (er_flags <$> rs) ++ lost ≡ₚ (er_flags <$> ex_regions ex) ++ gained →
  becomes ex (set_regions ex rs) rs gained lost.
Proof.
  intros [] Hrs Hg Hp. split_and!; try done.
  - split; try done. apply (Forall_app _ _ lost). rewrite Hp. by apply Forall_app.
  - intros held. unfold accounts; simpl.
    assert (Hc : ∀ f, count f (er_flags <$> rs) + count f lost
      = count f (er_flags <$> ex_regions ex) + count f gained).
    { intros f. rewrite <-!count_app. unfold count. by rewrite Hp. }
    f_equal; rewrite !count_app; [specialize (Hc 0)|specialize (Hc ER_ALLOC)]; lia.
Qed.

Lemma becomes_free ex ex' rs gained rp lost :
  becomes ex ex' rs gained (rp :: lost) → desc_ok ex rp →
  becomes ex (extent_free_region_descriptor ex' rp) rs gained lost.
Proof.
  intros ([]&Hrs&Hm&Hl&Hacc) Hrp. destruct (has_ext_ok_same _ _ Hm) as [Hgap Hfix].
  assert (Hrp' : desc_ok ex' rp) by (unfold desc_ok in *; by rewrite Hfix).
  destruct (free_descriptor_spec ex' rp) as (E1&E2&E3&E4&E5&E6); [done..|].
  destruct (has_ext_ok_same _ _ E2) as [Hgap' Hfix'].
  split_and!; [|congruence|by etransitivity|congruence|].
  - assert (Hd : ∀ l, Forall (desc_ok ex') l →
      Forall (desc_ok (extent_free_region_descriptor ex' rp)) l).
    { intros l Hf. eapply Forall_impl; [exact Hf|]. intros f. unfold desc_ok. by rewrite Hfix'. }
    destruct E2 as (Es&Ee&Ef). split; rewrite ?Hgap', ?Hfix', ?E1, ?Es, ?Ee; auto.
  - intros held. rewrite E6. by apply (Hacc held).
Qed.

(** ** Insertion *)

Section insert.
Context (ex : extent) (Hok : ext_ok ex) (start size rp : Z) (pre post : list extent_region).
Context (Hrs : ex_regions ex = pre ++ post) (Hsize : 1 ≤ size)
  (Hlo : ex_start ex ≤ start) (Hhi : start + size - 1 ≤ ex_end ex) (Hrp : desc_ok ex rp)
  (Hpre : ∀ r : extent_region, r ∈ pre → er_end r < start)
  (Hpost : ∀ r : extent_region, r ∈ post → start + size - 1 < er_start r).

Definition inserted (ex' : extent) : Prop :=
  ext_ok ex' ∧ same_map ex ex' ∧ ex_lock ex' = ex_lock ex ∧
  (∀ a, alloced (ex_regions ex') a ↔ alloced (ex_regions ex) a ∨ start ≤ a < start + size) ∧
  ∀ held, accounts ex' held = accounts ex (rp :: held).

Lemma inserted_intro ex' rs :
  becomes ex ex' rs [rp] [] →
  (∀ a, alloced rs a ↔ alloced (pre ++ post) a ∨ start ≤ a < start + size) → inserted ex'.
Proof using Hrs.
  intros (?&<-&?&?&Hacc) Ha. rewrite <-Hrs in Ha. by split_and!.
Qed.

Lemma insert_regions :
  regions_in (gap ex) (ex_start ex) pre (ex_end ex) ∧
  regions_in (gap ex) (next_lo (gap ex) (ex_start ex) pre) post (ex_end ex).
Proof using All. apply regions_in_app. rewrite <-Hrs. apply Hok. Qed.

(** What it takes for an insertion between [pre'] and [post'] to keep the list
    sorted. *)
Lemma regions_around (pre' post' : list extent_region) r lo :
  regions_in (gap ex) (ex_start ex) pre' (ex_end ex) →
  next_lo (gap ex) (ex_start ex) pre' ≤ er_start r → er_start r ≤ er_end r →
  er_end r ≤ ex_end ex → regions_in (gap ex) lo post' (ex_end ex) → 
  (∀ x : extent_region, x ∈ post' → er_end r + gap ex ≤ er_start x) →
  regions_in (gap ex) (ex_start ex) (pre' ++ r :: post') (ex_end ex).
Proof.
  intros. apply regions_in_app. split; [done|]. apply regions_in_cons; try done.
  eapply regions_in_raise; eauto with kern.
Qed.

Lemma u64_end : u64 (start + (size - 1)) = start + size - 1.
Proof using All. destruct Hok. rewrite u64_small; [|unfold is_u64]; lia. Qed.

Lemma pre_next : pre = [] ∨ ∃ l a, pre = l ++ [a] ∧ er_start a ≤ er_end a ∧ er_end a < start ∧
  next_lo (gap ex) (ex_start ex) l ≤ er_start a ∧
  regions_in (gap ex) (ex_start ex) l (ex_end ex).
Proof using All.
  destruct insert_regions as [H1 H2]. destruct pre as [|a l _] using rev_ind; [by left|].
  right. exists l, a. apply regions_in_app in H1 as [? (?&?&?&?)].
  split_and!; try done. apply Hpre. set_solver.
Qed.

Lemma post_next :
  (∀ x l, post = x :: l → gap ex = 2 → u64 (start + size) ≠ er_start x) →
  ∀ y : extent_region, y ∈ post → start + size - 1 + gap ex ≤ er_start y.
Proof using All.
  intros Hne y Hy. pose proof (proj2 insert_regions) as H2. assert (Hy' := Hpost _ Hy).
  remember post as l eqn:El in H2, Hy. destruct l as [|x l]; [set_solver|].
  specialize (Hne x l (eq_sym El)). assert (Hx := Hpost x ltac:(rewrite <-El; set_solver)).
  destruct H2 as (?&?&?&Hl). destruct Hok. unfold gap in *. case_match; [lia|].
  specialize (Hne eq_refl). rewrite u64_small in Hne by (unfold is_u64; lia).
  apply elem_of_cons in Hy as [->|Hy]; [lia|].
  pose proof (regions_in_lo 2 _ _ _ _ ltac:(lia) Hl Hy). lia.
Qed.

Lemma insert_new :
  (∀ x l, post = x :: l → gap ex = 2 → u64 (start + size) ≠ er_start x) →
  next_lo (gap ex) (ex_start ex) pre ≤ start →
  inserted (set_regions ex (pre ++ ExtentRegion start (u64 (start + (size - 1))) rp :: post)).
Proof using All.
  intros Hne Hpl. destruct insert_regions as [H1 H2].
  eapply inserted_intro; [apply becomes_set; try done|].
  - eapply regions_around; simpl; rewrite ?u64_end; try done; [lia..|]. by apply post_next.
  - by constructor.
  - rewrite app_nil_r, Hrs, !fmap_app. simpl. rewrite <-Permutation_middle.
    by rewrite Permutation_cons_append.
  - intros a. rewrite !alloced_app, alloced_cons; simpl. rewrite u64_end. intuition lia.
Qed.

Lemma coalesce_gap : negb (has (ex_flags ex) EXF_NOCOALESCE) = true → gap ex = 2.
Proof using Type. unfold gap. by destruct (has _ _). Qed.

(** The request joins the region that follows. *)
Lemma insert_prepend x l :
  post = x :: l → u64 (start + size) = er_start x →
  next_lo (gap ex) (ex_start ex) pre ≤ start →
  inserted (extent_free_region_descriptor (set_regions ex (pre ++ set_start x start :: l)) rp).
Proof using All.
  intros Hp Hx Hpl. destruct insert_regions as [H1 H2]. rewrite Hp in H2.
  destruct H2 as (?&?&?&Hl). destruct (Hok).
  rewrite u64_small in Hx by (assert (Hq := Hpost x ltac:(rewrite Hp; set_solver));
    unfold is_u64; lia).
  eapply inserted_intro; [apply becomes_free; [apply becomes_set; try done|done]|].
  - apply regions_in_app. split; [done|]. simpl. split_and!; try done; lia.
  - by constructor.
  - rewrite Hrs, Hp, !fmap_app. done.
  - intros a. rewrite Hp, !alloced_app, !alloced_cons; simpl. intuition lia.
Qed.

(** The request joins the region that precedes. *)
Lemma insert_append l a :
  pre = l ++ [a] → u64 (er_end a + 1) = start →
  (∀ x k, post = x :: k → u64 (start + size) ≠ er_start x) → gap ex = 2 →
  inserted (extent_free_region_descriptor
    (set_regions ex (l ++ set_end a (u64 (start + (size - 1))) :: post)) rp).
Proof using All.
  intros Hp Ha Hne Hg. destruct insert_regions as [H1 H2]. rewrite Hp in H1.
  apply regions_in_app in H1 as [H1 (?&?&?&_)]. destruct (Hok).
  pose proof (next_lo_ge _ _ _ _ (gap_pos ex) H1).
  assert (Hae : er_end a < start) by (apply Hpre; rewrite Hp; set_solver).
  rewrite u64_small in Ha by (unfold is_u64; lia). rewrite u64_end.
  eapply inserted_intro; [apply becomes_free; [apply becomes_set; try done|done]|].
  - eapply regions_around; simpl; try done; [lia..|]. apply post_next. naive_solver.
  - by constructor.
  - rewrite Hrs, Hp, !fmap_app. by rewrite <-!(assoc (++)).
  - intros b. rewrite Hp, !alloced_app, !alloced_cons, alloced_nil; simpl. intuition lia.
Qed.

(** The request fills the gap between two regions exactly. *)
Lemma insert_join l a x k :
  pre = l ++ [a] → u64 (er_end a + 1) = start →
  post = x :: k → u64 (start + size) = er_start x →
  inserted (extent_free_region_descriptor (extent_free_region_descriptor
    (set_regions ex (l ++ set_end a (er_end x) :: k)) (er_flags x)) rp).
Proof using All.
  intros Hp Ha Hq Hx. destruct insert_regions as [H1 H2]. rewrite Hp in H1. rewrite Hq in H2.
  apply regions_in_app in H1 as [H1 (?&?&?&_)]. destruct H2 as (?&?&?&Hk). destruct (Hok).
  pose proof (next_lo_ge _ _ _ _ (gap_pos ex) H1).
  assert (Hae : er_end a < start) by (apply Hpre; rewrite Hp; set_solver).
  rewrite u64_small in Ha by (unfold is_u64; lia).
  rewrite u64_small in Hx by (assert (Hq' := Hpost x ltac:(rewrite Hq; set_solver));
    unfold is_u64; lia).
  assert (Hfx : desc_ok ex (er_flags x)).
  { apply (proj1 (Forall_forall _ _) (ok_flags _ Hok)). rewrite Hrs, Hp, Hq, !fmap_app. set_solver. }
  eapply inserted_intro;
    [apply becomes_free; [apply becomes_free; [apply becomes_set; try done|done]|done]|].
  - apply regions_in_app. split; [done|]. simpl. split_and!; try done; lia.
  - by constructor.
  - rewrite Hrs, Hp, Hq, !fmap_app. simpl. rewrite <-!(assoc (++)). simpl.
    do 2 f_equiv. by rewrite <-Permutation_middle.
  - intros b. rewrite Hp, Hq, !alloced_app, !alloced_cons, alloced_nil; simpl. intuition lia.
Qed.

Lemma insert_at_head :
  pre = [] → ∃ ex', extent_insert_and_optimize ex start size 0 rp = Ok ex' ∧ inserted ex'.
Proof using All.
  intros Hp. unfold extent_insert_and_optimize. rewrite Hrs.
  pose proof insert_new as Hnew. pose proof insert_prepend as Hpp. rewrite Hp in *.
  simpl in *. assert (Hq : ∃ q, q = post) by eauto. destruct Hq as [q Hq]. rewrite <-Hq in *.
  destruct q as [|x k]; [eexists; split; [done|]; apply Hnew; naive_solver|].
  destruct (negb _) eqn:Hco; simpl.
  - destruct (Z.eqb_spec (u64 (start + size)) (er_start x)); (eexists; split; [done|]).
    + by apply (Hpp x k).
    + apply Hnew; naive_solver.
  - eexists; split; [done|]. apply Hnew; [|done]. unfold gap. by destruct (has _ _).
Qed.

Lemma insert_after l a :
  pre = l ++ [a] →
  ∃ ex', extent_insert_and_optimize ex start size (S (length l)) rp = Ok ex' ∧ inserted ex'.
Proof using All.
  intros Hp. assert (Ha : er_end a < start) by (apply Hpre; rewrite Hp; set_solver).
  assert (Hlook : (l ++ a :: post) !! length l = Some a) by by apply list_lookup_middle.
  assert (Htk : take (length l) (l ++ a :: post) = l) by apply take_app_length.
  assert (Hdr : drop (S (length l)) (l ++ a :: post) = post).
  { rewrite cons_middle, (assoc (++)). apply drop_app_length'. rewrite length_app; simpl; lia. }
  assert (Hnl : next_lo (gap ex) (ex_start ex) pre = er_end a + gap ex)
    by (rewrite Hp; apply next_lo_snoc).
  assert (Hrs' : ex_regions ex = l ++ a :: post) by (by rewrite Hrs, Hp, <-(assoc (++))).
  assert (Hjoin := insert_join l a). assert (Happ := insert_append l a).
  assert (Hmax : ex_end ex < 2 ^ 64) by apply Hok. assert (0 ≤ ex_start ex) by apply Hok.
  assert (Hrest : u64 (er_end a + 1) = start ∨ u64 (er_end a + 1) ≠ start ∧
    er_end a + 2 ≤ start).
  { pose proof (proj1 insert_regions) as H1. rewrite Hp in H1.
    pose proof (regions_in_lo _ _ _ _ a (gap_pos ex) H1 ltac:(set_solver)).
    rewrite u64_small by (unfold is_u64; lia). lia. }
  pose proof insert_new as Hnew. pose proof insert_prepend as Hpp. rewrite Hnl, Hp in *.
  rewrite <-(assoc (++)) in Hnew; simpl in Hnew.
  unfold extent_insert_and_optimize. rewrite Hrs', Hlook, Htk, Hdr. simpl.
  assert (Hq : ∃ q, q = post) by eauto. destruct Hq as [q Hq]. rewrite <-Hq in *.
  destruct (has (ex_flags ex) EXF_NOCOALESCE) eqn:Hco; simpl.
  { eexists; split; [done|]. apply Hnew; unfold gap; rewrite Hco; [done|lia]. }
  assert (Hg : gap ex = 2) by (unfold gap; by rewrite Hco). rewrite Hg in *.
  destruct (Z.eqb_spec (u64 (er_end a + 1)) start) as [He|He]; destruct q as [|x k];
    try (destruct (Z.eqb_spec (u64 (start + size)) (er_start x)));
    (eexists; split; [done|]).
  - by apply Happ.
  - by apply (Hjoin x k).
  - apply Happ; naive_solver.
  - apply Hnew; [done|lia].
  - specialize (Hpp x k). rewrite <-(assoc (++)) in Hpp. apply Hpp; [done..|lia].
  - apply Hnew; [naive_solver|lia].
Qed.

Lemma insert_spec :
  ∃ ex', extent_insert_and_optimize ex start size (length pre) rp = Ok ex' ∧ inserted ex'.
Proof using All.
  destruct pre_next as [Hp|(l&a&Hp&_)]; rewrite Hp; [by apply insert_at_head|].
  rewrite length_app, Nat.add_comm. by apply (insert_after l a).
Qed.
End insert.

(** ** Descriptors of a call *)

Lemma enter_spec ex :
  ex_lock ex = false → enter ex = Ok (if has (ex_flags ex) EXF_EARLY then ex else set_lock ex true).
Proof. intros Hl. unfold enter, mutex_enter. rewrite Hl. by case_match. Qed.

Lemma leave_spec ex :
  (has (ex_flags ex) EXF_EARLY = false → ex_lock ex = true) →
  leave ex = Ok (if has (ex_flags ex) EXF_EARLY then ex else set_lock ex false).
Proof. intros Hl. unfold leave, mutex_exit. case_match; [done|]. by rewrite Hl. Qed.

(** The parts of the extent that the mutex is no part of. *)
Definition unlocked_eq (ex ex' : extent) : Prop := set_lock ex false = set_lock ex' false.

Lemma ext_ok_lock ex b : ext_ok (set_lock ex b) ↔ ext_ok ex.
Proof. split; intros []; split; done. Qed.
Lemma accounts_lock ex b held : accounts (set_lock ex b) held = accounts ex held.
Proof. done. Qed.

(** The descriptor comes out of the freelist or out of the pool. *)
Lemma accounts_take ex rp l held :
  fex_freelist ex = rp :: l → accounts (set_freelist ex l) (rp :: held) = accounts ex held.
Proof.
  intros E. unfold accounts; simpl. rewrite E.
  f_equal; repeat rewrite <-?app_comm_cons, ?count_app, ?count_cons; lia.
Qed.
Lemma accounts_pool ex held :
  accounts (set_nout ex (pr_nout ex + 1)) (ER_ALLOC :: held) = accounts ex held.
Proof.
  unfold accounts; simpl.
  f_equal; repeat rewrite ?count_app, ?count_cons; unfold ER_ALLOC; simpl; lia.
Qed.

Lemma ext_ok_take ex rp l : ext_ok ex → fex_freelist ex = rp :: l → ext_ok (set_freelist ex l).
Proof.
  intros [? ? ? ? ? Hf Hh] E. rewrite E in *. split; try done.
  - by inversion Hf.
  - intros Hx. by specialize (Hh Hx).
Qed.

(** A call for a descriptor returns without one: the freelist of a fixed extent
    is empty, and neither the pool nor sleeping helps. *)
Definition no_desc (pool_ok : bool) (ex : extent) (flags : Z) : bool :=
  if has (ex_flags ex) EXF_FIXED then
    bool_decide (fex_freelist ex = []) &&
    (if has flags EX_MALLOCOK then negb (has flags EX_WAITOK || pool_ok)
     else negb (has flags EX_WAITOK))
  else negb (has flags EX_WAITOK || pool_ok).

(** A call for a descriptor falls asleep. *)
Definition desc_sleeps (ex : extent) (flags : Z) : bool :=
  has (ex_flags ex) EXF_FIXED && bool_decide (fex_freelist ex = []) &&
  negb (has flags EX_MALLOCOK) && has flags EX_WAITOK.

Lemma pool_get_spec pool_ok ex flags :
  ext_ok ex → ex_lock ex = false →
  let '(ex', g) := pool_get pool_ok ex flags in
  ext_ok ex' ∧ ex_lock ex' = false ∧ same_map ex ex' ∧ ex_regions ex' = ex_regions ex ∧
  match g with
  | GotDesc rp => has flags EX_WAITOK || pool_ok = true ∧ desc_ok ex rp ∧
      ∀ held, accounts ex' (rp :: held) = accounts ex held
  | NoDesc => has flags EX_WAITOK || pool_ok = false ∧ ex' = ex
  | SleepDesc => False
  end.
Proof.
  intros Hok Hl. unfold pool_get. destruct (has flags EX_WAITOK || pool_ok) eqn:E.
  - split_and!; try done; [by destruct Hok; split|by left|apply accounts_pool].
  - by split_and!.
Qed.

Lemma pool_outcome (b w : bool) (g : got) (P : Z → Prop) (Q R : Prop) :
  match g with
  | GotDesc rp => b || w = true ∧ P rp
  | NoDesc => b || w = false ∧ Q
  | SleepDesc => False
  end →
  match g with
  | GotDesc rp => (negb (b || w) = false ∧ false = false) ∧ P rp
  | NoDesc => negb (b || w) = true ∧ b = false ∧ Q
  | SleepDesc => R
  end.
Proof. destruct g, b, w; naive_solver. Qed.

(** A call that allocates a descriptor returns with one that the extent or the
    pool gave up, returns without one, or falls asleep; the regions stay. *)
Lemma alloc_descriptor_spec pool_ok ex flags :
  ext_ok ex → ex_lock ex = false →
  (has (ex_flags ex) EXF_EARLY = true → has flags EX_WAITOK = true →
    has flags EX_MALLOCOK = true) →
  ∃ ex' g, extent_alloc_region_descriptor pool_ok ex flags = Ok (ex', g) ∧
    ext_ok ex' ∧ ex_lock ex' = false ∧ same_map ex ex' ∧ ex_regions ex' = ex_regions ex ∧
    match g with
    | GotDesc rp => (no_desc pool_ok ex flags = false ∧ desc_sleeps ex flags = false) ∧
        desc_ok ex rp ∧ ∀ held, accounts ex' (rp :: held) = accounts ex held
    | NoDesc => no_desc pool_ok ex flags = true ∧ has flags EX_WAITOK = false ∧ ex' = ex
    | SleepDesc => desc_sleeps ex flags = true ∧ ex_flwanted ex' = true ∧
        fex_freelist ex' = [] ∧ has flags EX_WAITOK = true ∧
        ∀ held, accounts ex' held = accounts ex held
    end.
Proof.
  intros Hok Hl Hearly. unfold extent_alloc_region_descriptor, descriptor_loop, no_desc, desc_sleeps.
  assert (Hpool := pool_get_spec pool_ok ex flags Hok Hl).
  destruct (has (ex_flags ex) EXF_FIXED) eqn:Hfix.
  2:{ simpl. destruct (pool_get _ _ _) as [ex' g] eqn:E. exists ex', g. split; [done|].
    destruct Hpool as (?&?&?&?&Hg). split_and!; try done. by apply pool_outcome. }
  rewrite enter_spec by done. simpl. set (ex1 := if has _ EXF_EARLY then ex else set_lock ex true).
  assert (E1 : fex_freelist ex1 = fex_freelist ex) by (unfold ex1; by destruct (has _ EXF_EARLY)).
  assert (E2 : has (ex_flags ex1) EXF_EARLY = has (ex_flags ex) EXF_EARLY)
    by (unfold ex1; by destruct (has (ex_flags ex) EXF_EARLY) eqn:Q; simpl; rewrite ?Q).
  assert (E3 : has (ex_flags ex1) EXF_EARLY = false → ex_lock ex1 = true)
    by (rewrite E2; unfold ex1; by intros ->).
  assert (E4 : (if has (ex_flags ex1) EXF_EARLY then ex1 else set_lock ex1 false) = ex).
  { rewrite E2. unfold ex1. destruct (has _ EXF_EARLY); [done|]. destruct ex; simpl in *. by rewrite Hl. }
  rewrite E1. destruct (fex_freelist ex) as [|rp l] eqn:Hfl.
  - destruct (has flags EX_MALLOCOK) eqn:Hm; [|destruct (has flags EX_WAITOK) eqn:Hw]; simpl.
    + rewrite leave_spec by done. rewrite E4. simpl.
      destruct (pool_get _ _ _) as [ex' g]. exists ex', g. split; [done|].
      destruct Hpool as (?&?&?&?&Hg). split_and!; try done. by apply pool_outcome.
    + assert (He : has (ex_flags ex) EXF_EARLY = false).
      { apply not_true_is_false. intros He. specialize (Hearly He eq_refl). congruence. }
      rewrite E3 by congruence. simpl. unfold cv_sleep, mutex_exit; simpl.
      rewrite E2, He, E3 by congruence. simpl.
      eexists _, _. split; [done|]. unfold ex1; rewrite He.
      split_and!; try done. destruct Hok; split; try done.
    + rewrite leave_spec by done. rewrite E4. simpl. exists ex, NoDesc. by split_and!.
  - rewrite leave_spec by (simpl; done). simpl.
    eexists _, _. split; [done|].
    assert (E5 : (if has (ex_flags ex1) EXF_EARLY then set_freelist ex1 l
      else set_lock (set_freelist ex1 l) false) = set_freelist ex l).
    { unfold ex1. destruct (has (ex_flags ex) EXF_EARLY) eqn:Q; simpl; rewrite Q; [done|].
      unfold set_freelist, set_lock; simpl. by rewrite Hl. }
    simpl in *. rewrite E5. split_and!; try done; [by eapply ext_ok_take| |].
    + destruct Hok. rewrite Hfl in *. by inversion ok_free0.
    + intros held. by apply accounts_take.
Qed.
