(* ===== verification/ExtentOps.v ===== *)
(** * Extent maps: allocation of a given region, and freeing

    [alloc_outcome] is the contract that all allocations share: whether the call
    gets a descriptor is known from the freelist, the pool and the flags
    ([no_desc], [desc_sleeps]), and then whether it succeeds from the free
    numbers. *)

From S2P Require Export Prelude Extent ExtentSpec.

(** The descriptors held by the caller after a call: [rp] while it sleeps for
    space, none otherwise. *)
Definition verdict_held (v : verdict) : list Z :=
  match v with SleepsSpace rp => [rp] | _ => [] end.

(** What an allocation of [size] numbers that was handed the descriptors
    [held] does: on success the result [r] is [possible], and exactly the
    numbers from [r] to [r + size - 1] become allocated; on failure, or when
    the caller falls asleep, no region changes, and [full] says why.  [none]
    and [sleeps] tell whether the call is refused a descriptor or sleeps for
    one. *)
Definition alloc_outcome (none sleeps : bool) (ex ex' : extent) (v : verdict) (held : list Z)
    (possible : Z → Prop) (full : Prop) (size flags : Z) : Prop :=
  ext_ok ex' ∧ same_map ex ex' ∧ ex_lock ex' = false ∧
  (∀ more, accounts ex' (verdict_held v ++ more) = accounts ex (held ++ more)) ∧
  match v with
  | Returned 0 r =>
    none = false ∧ sleeps = false ∧ possible r ∧
    ∀ a, alloced (ex_regions ex') a ↔ alloced (ex_regions ex) a ∨ r ≤ a < r + size
  | Returned error _ =>
    ex_regions ex' = ex_regions ex ∧
    (error = EAGAIN ∧ none = false ∧ sleeps = false ∧ has flags EX_WAITSPACE = false ∧ full ∨
     error = ENOMEM ∧ none = true ∧ has flags EX_WAITOK = false)
  | SleepsDesc =>
    sleeps = true ∧
    ex_regions ex' = ex_regions ex ∧ ex_flwanted ex' = true ∧ has flags EX_WAITOK = true
  | SleepsSpace rp =>
    none = false ∧ sleeps = false ∧
    ex_regions ex' = ex_regions ex ∧ has flags EX_WAITSPACE = true ∧ desc_ok ex rp ∧ full
  end.

(** So an allocation succeeds exactly when it gets a descriptor and there is a
    possible result. *)
Lemma alloc_outcome_iff none sleeps ex ex' v held possible full size flags :
  alloc_outcome none sleeps ex ex' v held possible full size flags →
  (∀ r, full → ¬ possible r) →
  (∃ r, v = Returned 0 r) ↔ none = false ∧ sleeps = false ∧ ∃ r, possible r.
Proof.
  intros (_&_&_&_&Hv) Hfull. split.
  - intros [r ->]. destruct Hv as (?&?&?&_). eauto.
  - intros (Hn&Hs&r&Hr). destruct v as [[|e|e] r'| |rp]; [eauto|..].
    1-2: destruct Hv as (_&[(_&_&_&_&Hf)|(_&?&_)]); [by destruct (Hfull r Hf)|congruence].
    + destruct Hv. congruence.
    + destruct Hv as (_&_&_&_&_&Hf). by destruct (Hfull r Hf).
Qed.

(** The flags that an early extent must not be used with: there is no mutex to
    sleep with. *)
Definition flags_early_ok (ex : extent) (flags : Z) : Prop :=
  has (ex_flags ex) EXF_EARLY = true →
  has flags EX_WAITSPACE = false ∧
  (has flags EX_WAITOK = true → has flags EX_MALLOCOK = true).

(** The numbers of the request are free. *)
Definition range_free (ex : extent) (start size : Z) : Prop :=
  ∀ a, start ≤ a < start + size → ¬ alloced (ex_regions ex) a.

Lemma alloced_same ex ex' a :
  ex_regions ex' = ex_regions ex → alloced (ex_regions ex') a ↔ alloced (ex_regions ex) a.
Proof. by intros ->. Qed.

(** ** Scanning for a conflict *)

Lemma region_scan_spec g lo hi rs start end_ last :
  1 ≤ g → regions_in g lo rs hi → start ≤ end_ →
  match region_scan rs start end_ last with
  | Some n => ∃ pre post, rs = pre ++ post ∧ n = (last + length pre)%nat ∧
      (∀ r : extent_region, r ∈ pre → er_end r < start) ∧
      (∀ r : extent_region, r ∈ post → end_ < er_start r)
  | None => ∃ a, start ≤ a ≤ end_ ∧ alloced rs a
  end.
Proof.
  intros Hg. revert lo last. induction rs as [|r rs IH]; intros lo last Hr Hle; simpl.
  { exists [], []. split_and!; [done|simpl; lia|set_solver..]. }
  assert (Hall : ∀ x : extent_region, x ∈ r :: rs → er_start r ≤ er_start x).
  { intros x Hx. eapply regions_in_lo; [done| |done].
    destruct Hr as (?&?&?&?). simpl. split_and!; try done; lia. }
  destruct Hr as (Hlo&Hse&Hhi&Hrest).
  destruct (Z.gtb_spec (er_start r) end_) as [Hgt|Hgt].
  { exists [], (r :: rs). split_and!; [done|simpl; lia|set_solver|].
    intros x Hx. specialize (Hall x Hx). lia. }
  destruct (Z.geb_spec (er_end r) start) as [Hge|Hge].
  { exists (Z.max start (er_start r)). split; [lia|]. apply alloced_cons. left. lia. }
  specialize (IH _ (S last) Hrest Hle). destruct (region_scan _ _ _ _) as [n|].
  - destruct IH as (pre&post&->&->&Hp&Hq). exists (r :: pre), post.
    split_and!; [done|simpl; lia| |done]. intros x [->|Hx]%elem_of_cons; [lia|by apply Hp].
  - destruct IH as (a&?&?). exists a. split; [done|]. apply alloced_cons. by right.
Qed.

(** Nothing of the request is allocated when it fits between [pre] and [post]. *)
Lemma split_free pre post start size :
  (∀ r : extent_region, r ∈ pre → er_end r < start) →
  (∀ r : extent_region, r ∈ post → start + size - 1 < er_start r) →
  ∀ a, start ≤ a < start + size → ¬ alloced (pre ++ post) a.
Proof.
  intros Hpre Hpost a Ha (r&Hin&Hr). apply elem_of_app in Hin as [Hin|Hin].
  - specialize (Hpre _ Hin). lia.
  - specialize (Hpost _ Hin). lia.
Qed.

(** ** A given region *)

(** The extent of a thread that has taken the mutex, if there is one. *)
Definition entered (ex : extent) : extent :=
  if has (ex_flags ex) EXF_EARLY then ex else set_lock ex true.

Lemma entered_props ex :
  ex_lock ex = false →
  ex_regions (entered ex) = ex_regions ex ∧ same_map ex (entered ex) ∧
  (ext_ok ex → ext_ok (entered ex)) ∧ (∀ held, accounts (entered ex) held = accounts ex held) ∧
  (has (ex_flags (entered ex)) EXF_EARLY = false → ex_lock (entered ex) = true).
Proof.
  intros Hl. unfold entered. destruct (has (ex_flags ex) EXF_EARLY) eqn:E; [by rewrite E|].
  split_and!; try done. apply ext_ok_lock.
Qed.

(** Letting the mutex go. *)
Lemma leave_entered ex ex1 :
  same_map ex ex1 → (has (ex_flags ex1) EXF_EARLY = false → ex_lock ex1 = true) →
  (has (ex_flags ex1) EXF_EARLY = true → ex_lock ex1 = false) → ext_ok ex1 →
  ∃ ex2, leave ex1 = Ok ex2 ∧ ext_ok ex2 ∧ same_map ex ex2 ∧ ex_lock ex2 = false ∧
    ex_regions ex2 = ex_regions ex1 ∧ ∀ held, accounts ex2 held = accounts ex1 held.
Proof.
  intros Hm Hl He Hok. rewrite leave_spec by done. destruct (has (ex_flags ex1) EXF_EARLY).
  - exists ex1. split_and!; auto.
  - exists (set_lock ex1 false). split_and!; try done; [by apply ext_ok_lock].
Qed.

Lemma cv_sleep_entered ex :
  ext_ok ex → ex_lock ex = false → has (ex_flags ex) EXF_EARLY = false →
  cv_sleep (entered ex) = Ok ex.
Proof.
  intros Hok Hl He. unfold cv_sleep, mutex_exit, entered. rewrite He. simpl. rewrite He. simpl.
  unfold set_lock; simpl. destruct ex; simpl in *. by rewrite Hl.
Qed.

Lemma desc_ok_same ex ex' rp : same_map ex ex' → desc_ok ex rp ↔ desc_ok ex' rp.
Proof. intros H. unfold desc_ok. by rewrite (proj2 (has_ext_ok_same _ _ H)). Qed.

(** Insertion between two parts of the list, and release of the mutex. *)
Lemma insert_and_leave ex pre post start size rp :
  ext_ok ex → ex_lock ex = false → ex_regions ex = pre ++ post → 1 ≤ size →
  ex_start ex ≤ start → start + size - 1 ≤ ex_end ex → desc_ok ex rp →
  (∀ r : extent_region, r ∈ pre → er_end r < start) →
  (∀ r : extent_region, r ∈ post → start + size - 1 < er_start r) →
  ∃ ex', (ex1 ← extent_insert_and_optimize (entered ex) start size (length pre) rp; leave ex1)
      = Ok ex' ∧ ext_ok ex' ∧ same_map ex ex' ∧ ex_lock ex' = false ∧
    (∀ a, alloced (ex_regions ex') a ↔ alloced (ex_regions ex) a ∨ start ≤ a < start + size) ∧
    ∀ held, accounts ex' held = accounts ex (rp :: held).
Proof.
  intros Hok Hl Hrs Hsz Hlo Hhi Hrp Hpre Hpost.
  destruct (entered_props ex Hl) as (E1&E2&E3&E4&E5).
  destruct (insert_spec (entered ex) (E3 Hok) start size rp pre post)
    as (ex1&H1&Hok1&Hm1&Hl1&Ha1&Hc1); try done.
  - by rewrite E1.
  - by rewrite (proj1 E2).
  - by rewrite (proj1 (proj2 E2)).
  - by apply (desc_ok_same ex).
  - rewrite H1. simpl. rewrite E1 in Ha1.
    assert (Hf : ex_flags ex1 = ex_flags (entered ex)) by apply Hm1.
    destruct (leave_entered ex ex1) as (ex2&H2&Hok2&Hm2&Hl2&Hr2&Hc2); try done.
    + by etransitivity.
    + rewrite Hf, Hl1. done.
    + rewrite Hf, Hl1. unfold entered. by destruct (has (ex_flags ex) EXF_EARLY) eqn:Q; simpl; rewrite ?Q.
    + exists ex2. split_and!; try done; intros x; [by rewrite Hr2|]. by rewrite Hc2, Hc1, E4.
Qed.

(** Giving the descriptor back after the mutex was released. *)
Lemma leave_and_free ex rp :
  ext_ok ex → ex_lock ex = false → desc_ok ex rp →
  ∃ ex', leave (entered ex) = Ok ex ∧ extent_free_region_descriptor ex rp = ex' ∧
    ext_ok ex' ∧ same_map ex ex' ∧ ex_lock ex' = false ∧ ex_regions ex' = ex_regions ex ∧
    ∀ held, accounts ex' held = accounts ex (rp :: held).
Proof.
  intros Hok Hl Hrp. eexists. split; [|split; [done|]].
  - unfold entered, leave, mutex_exit. destruct (has (ex_flags ex) EXF_EARLY) eqn:Q.
    + by rewrite Q.
    + simpl. rewrite Q. unfold set_lock; simpl. destruct ex; simpl in *. by rewrite Hl.
  - destruct (becomes_free ex ex (ex_regions ex) [rp] rp []) as (?&?&?&?&Hacc); [|done|].
    + split_and!; done.
    + split_and!; try done. congruence.
Qed.

Lemma alloc_region_start_spec ex start size flags rp :
  ext_ok ex → ex_lock ex = false → 1 ≤ size → ex_start ex ≤ start →
  start + size - 1 ≤ ex_end ex → desc_ok ex rp → flags_early_ok ex flags →
  ∃ ex' v, (ex1 ← enter ex; alloc_region_start ex1 start size flags rp) = Ok (ex', v) ∧
    v ≠ SleepsDesc ∧
    alloc_outcome false false ex ex' v [rp] (λ r, r = start ∧ range_free ex start size)
      (¬ range_free ex start size) size flags.
Proof.
  intros Hok Hl Hsz Hlo Hhi Hrp Hearly. rewrite enter_spec by done. simpl.
  change (if has _ _ then ex else _) with (entered ex). unfold alloc_region_start.
  destruct (entered_props ex Hl) as (E1&E2&_&_&_). rewrite E1, (proj2 (proj2 E2)).
  assert (Hu : u64 (start + (size - 1)) = start + size - 1).
  { destruct Hok. rewrite u64_small; [|unfold is_u64]; lia. }
  rewrite Hu. pose proof (region_scan_spec (gap ex) _ _ _ start (start + size - 1) 0
    (gap_pos ex) (ok_regions _ Hok) ltac:(lia)) as Hscan.
  destruct (region_scan _ _ _ _) as [n|].
  - destruct Hscan as (pre&post&Hrs&->&Hpre&Hpost). simpl.
    destruct (insert_and_leave ex pre post start size rp) as (ex'&He&?&?&?&Ha&Hc); try done.
    apply bind_Ok in He as (ex1&Hi&Hlv). rewrite Hi. simpl. rewrite Hlv. simpl.
    exists ex', (Returned 0 start). split_and!; try done.
    split_and!; try done. unfold range_free. rewrite Hrs. by apply split_free.
  - destruct Hscan as (a&Ha&Hal).
    assert (Hfull : ¬ range_free ex start size) by (intros Hf; by apply (Hf a); [lia|]).
    destruct (leave_and_free ex rp) as (ex'&He&Hfree&?&?&?&?&?); try done.
    destruct (has flags EX_WAITSPACE) eqn:Hw.
    + destruct (has (ex_flags ex) EXF_EARLY) eqn:Q; [destruct (Hearly Q); congruence|].
      rewrite cv_sleep_entered by done. simpl. exists ex, (SleepsSpace rp). split_and!; [done..|]. by unfold alloc_outcome; split_and!.
    + rewrite He. simpl. rewrite Hfree. exists ex', (Returned EAGAIN 0). unfold alloc_outcome. simpl. split_and!; try done. by left.
Qed.

(** The contract of a call from the contract of the code that runs once it has
    a descriptor. *)
Lemma with_descriptor pool_ok ex flags (k : extent → Z → res (extent * verdict))
    possible full size :
  ext_ok ex → ex_lock ex = false → flags_early_ok ex flags →
  (∀ ex1 rp, ext_ok ex1 → ex_lock ex1 = false → same_map ex ex1 →
    ex_regions ex1 = ex_regions ex → desc_ok ex1 rp →
    ∃ ex' v, k ex1 rp = Ok (ex', v) ∧ v ≠ SleepsDesc ∧
      alloc_outcome false false ex1 ex' v [rp] possible full size flags) →
  ∃ ex' v,
    ('(ex1, g) ← extent_alloc_region_descriptor pool_ok ex flags;
     match g with
     | NoDesc => mret (ex1, Returned ENOMEM 0)
     | SleepDesc => mret (ex1, SleepsDesc)
     | GotDesc rp => k ex1 rp
     end) = Ok (ex', v) ∧
    alloc_outcome (no_desc pool_ok ex flags) (desc_sleeps ex flags) ex ex' v []
      possible full size flags.
Proof.
  intros Hok Hl Hearly Hk.
  destruct (alloc_descriptor_spec pool_ok ex flags Hok Hl) as (ex1&g&->&Hok1&Hl1&Hm1&Hr1&Hg).
  { intros He. by apply Hearly. }
  simpl. destruct g as [rp| |].
  - destruct Hg as ([-> ->]&Hrp&Hacc).
    destruct (Hk ex1 rp) as (ex'&v&->&Hv&Hok'&Hm'&Hl'&Hacc'&Hout); try done.
    { by apply (desc_ok_same ex). }
    exists ex', v. split; [done|]. split_and!; try done; [by etransitivity| |].
    + intros more. rewrite Hacc'. apply Hacc.
    + destruct v as [[] r| |rp']; rewrite ?Hr1 in *; try done.
      by rewrite (desc_ok_same ex ex1).
  - destruct Hg as (Hn&Hw&->). eexists _, _. split; [done|]. unfold alloc_outcome.
    split_and!; try done. simpl. split; [done|]. by right.
  - destruct Hg as (?&?&?&?&Hacc). eexists _, _. split; [done|]. by unfold alloc_outcome.
Qed.

Lemma region_iff none sleeps ex ex' v start size flags :
  alloc_outcome none sleeps ex ex' v [] (λ r, r = start ∧ range_free ex start size)
    (¬ range_free ex start size) size flags →
  v = Returned 0 start ↔ none = false ∧ sleeps = false ∧ range_free ex start size.
Proof.
  intros Hout. pose proof (alloc_outcome_iff _ _ _ _ _ _ _ _ _ _ Hout) as Hiff.
  split.
  - intros ->. destruct Hout as (_&_&_&_&?&?&[_ ?]&_). done.
  - intros (?&?&?). destruct (proj2 (Hiff ltac:(naive_solver))) as [r ->]; [by eauto|].
    by destruct Hout as (_&_&_&_&_&_&[-> _]&_).
Qed.

(** C12: [extent_alloc_region] on a region of the extent (an early extent is
    not used with the flags that make a thread sleep): it succeeds exactly when
    a descriptor can be had at once and nothing of the region is allocated; it
    fails with ENOMEM exactly when no descriptor can be had, sleeps for one
    exactly when the freelist is empty and the flags say so, and otherwise fails
    with EAGAIN or sleeps for space; the region list stays sorted, disjoint,
    inside the extent and fully coalesced, and no descriptor is lost. *)
Theorem extent_alloc_region_spec (DIAGNOSTIC pool_ok : bool) ex start size flags :
  ext_ok ex → ex_lock ex = false → 1 ≤ size →
  ex_start ex ≤ start → start + size - 1 ≤ ex_end ex → flags_early_ok ex flags →
  ∃ ex' v, extent_alloc_region DIAGNOSTIC pool_ok ex start size flags = Ok (ex', v) ∧
    alloc_outcome (no_desc pool_ok ex flags) (desc_sleeps ex flags) ex ex' v []
      (λ r, r = start ∧ range_free ex start size) (¬ range_free ex start size) size flags ∧
    (v = Returned 0 start ↔ no_desc pool_ok ex flags = false ∧ desc_sleeps ex flags = false ∧
       range_free ex start size).
Proof.
  intros Hok Hl Hsz Hlo Hhi Hearly. unfold extent_alloc_region, alloc_region_checks.
  assert (Hu : u64 (start + (size - 1)) = start + size - 1).
  { destruct Hok. rewrite u64_small; [|unfold is_u64]; lia. }
  rewrite Hu. replace (size <? 1) with false by lia.
  replace (start + size - 1 <? start) with false by lia.
  replace (start <? ex_start ex) with false by lia.
  replace (start + size - 1 >? ex_end ex) with false by lia.
  rewrite !andb_false_r. simpl.
  match goal with |- ∃ ex' v, ?call = _ ∧ _ => assert (Hd : ∃ ex' v, call = Ok (ex', v) ∧
    alloc_outcome (no_desc pool_ok ex flags) (desc_sleeps ex flags) ex ex' v []
      (λ r, r = start ∧ range_free ex start size) (¬ range_free ex start size) size flags) end;
    [|destruct Hd as (ex'&v&->&Hout); exists ex', v; split_and!; [done|done|by eapply region_iff]].
  apply with_descriptor; try done.
  intros ex1 rp Hok1 Hl1 Hm Hr Hrp. destruct (Hm) as (Hs&He&Hf).
  destruct (alloc_region_start_spec ex1 start size flags rp) as (ex'&v&?&?&Hout); try done; [lia..| |].
  - intros Q. apply Hearly. by rewrite <-Hf.
  - exists ex', v. split_and!; try done. unfold range_free in *. by rewrite Hr in Hout.
Qed.

(** A sleeper for space whose sleep is not interrupted tries again, one that is
    interrupted gives its descriptor back and returns the error. *)
Lemma alloc_region_wake_spec ex start size flags rp error :
  ext_ok ex → ex_lock ex = false → has (ex_flags ex) EXF_EARLY = false → 1 ≤ size →
  ex_start ex ≤ start → start + size - 1 ≤ ex_end ex → desc_ok ex rp →
  ∃ ex' v, alloc_region_wake ex start size flags rp error = Ok (ex', v) ∧
    if error =? 0 then
      alloc_outcome false false ex ex' v [rp] (λ r, r = start ∧ range_free ex start size)
        (¬ range_free ex start size) size flags
    else v = Returned error 0 ∧ ext_ok ex' ∧ same_map ex ex' ∧ ex_lock ex' = false ∧
      ex_regions ex' = ex_regions ex ∧ ∀ more, accounts ex' more = accounts ex (rp :: more).
Proof.
  intros Hok Hl He Hsz Hlo Hhi Hrp. unfold alloc_region_wake.
  assert (Hent : mutex_enter ex = enter ex) by (unfold enter; by rewrite He).
  rewrite Hent. destruct (Z.eqb_spec error 0) as [->|Hne].
  - destruct (alloc_region_start_spec ex start size flags rp) as (ex'&v&?&?&?); try done;
      [|by exists ex', v]. intros Q. congruence.
  - rewrite enter_spec by done. simpl. change (if has _ _ then ex else _) with (entered ex).
    destruct (leave_and_free ex rp) as (ex'&Hlv&Hfr&?&?&?&?&?); try done.
    assert (Hex : mutex_exit (entered ex) = leave (entered ex)).
    { unfold leave, entered. rewrite He. simpl. by rewrite He. }
    rewrite Hex, Hlv. simpl. rewrite Hfr. by exists ex', (Returned error 0).
Qed.

(** ** Freeing *)

(** The region that an [extent_free] of the numbers from [start] to [end_]
    takes them from. *)
Definition owner (coalesce : bool) (rs : list extent_region) (start end_ : Z) : Prop :=
  ∃ r : extent_region, r ∈ rs ∧ er_start r ≤ start ∧ end_ ≤ er_end r ∧
    (coalesce = false → er_start r = start ∧ er_end r = end_).

Lemma owner_cons coalesce r rs start end_ :
  owner coalesce (r :: rs) start end_ ↔
  (er_start r ≤ start ∧ end_ ≤ er_end r ∧
    (coalesce = false → er_start r = start ∧ er_end r = end_)) ∨ owner coalesce rs start end_.
Proof.
  unfold owner. split.
  - intros (x&[->|Hx]%elem_of_cons&?); [by left|right; eauto].
  - intros [?|(x&?&?)]; [exists r|exists x]; (split; [set_solver|done]).
Qed.

Definition free_step (coalesce : bool) (rs : list extent_region) (start end_ : Z)
    (nrp : option Z) (lo hi g : Z)
    (out : option (list extent_region * option Z * option Z)) : Prop :=
  match out with
  | Some (rs', gone, nrp') =>
    owner coalesce rs start end_ ∧ regions_in g lo rs' hi ∧
    (∀ a, alloced rs' a ↔ alloced rs a ∧ ¬ start ≤ a ≤ end_) ∧
    (er_flags <$> rs') ++ option_list gone ++ option_list nrp' ≡ₚ
      (er_flags <$> rs) ++ option_list nrp
  | None => ¬ owner coalesce rs start end_
  end.

Lemma alloced_ge g lo rs hi a : 1 ≤ g → regions_in g lo rs hi → alloced rs a → lo ≤ a ≤ hi.
Proof.
  intros Hg Hr (r&Hin&Ha). pose proof (regions_in_lo _ _ _ _ _ Hg Hr Hin). lia.
Qed.

(** No region from [lo] on owns a range that starts before [lo]. *)
Lemma owner_ge g coalesce lo hi rs start end_ :
  1 ≤ g → regions_in g lo rs hi → start < lo → ¬ owner coalesce rs start end_.
Proof.
  intros Hg Hr Hlt (x&Hin&?&_). pose proof (regions_in_lo _ _ _ _ _ Hg Hr Hin). lia.
Qed.

Section free_loop.
Context (coalesce : bool) (start end_ : Z) (nrp : option Z) (hi g : Z).
Context (Hg : g = if coalesce then 2 else 1) (Hhi : hi < 2 ^ 64) (Hle : start ≤ end_)
  (Hnrp : coalesce = true → is_Some nrp).

Lemma free_step_continue r rs lo out :
  lo ≤ er_start r → er_start r ≤ er_end r → er_end r ≤ hi →
  regions_in g (er_end r + g) rs hi →
  (er_end r < start ∨ coalesce = false ∧ ¬ (er_start r = start ∧ er_end r = end_) ∨
    ¬ (er_start r ≤ start ∧ end_ ≤ er_end r)) →
  free_step coalesce rs start end_ nrp (er_end r + g) hi g out →
  free_step coalesce (r :: rs) start end_ nrp lo hi g
    ('(rs', gone, nrp') ← out; mret (r :: rs', gone, nrp')).
Proof using All.
  intros H1 H2 H3 Hrs Hcase Hout. assert (1 ≤ g) by (destruct coalesce; lia).
  destruct out as [[[rs' gone] nrp']|]; simpl.
  - destruct Hout as (Hown&Hr'&Ha&Hp).
    assert (Hend : er_end r < start).
    { destruct (decide (er_end r < start)); [done|].
      by destruct (owner_ge _ coalesce _ _ _ start end_ ltac:(done) Hrs ltac:(lia)). }
    split_and!; try done; [apply owner_cons; by right| |by rewrite Hp].
    intros a. rewrite !alloced_cons, Ha. intuition lia.
  - rewrite owner_cons. simpl in Hout. naive_solver lia.
Qed.

(** The cases in which the region [r] is the owner. *)
Lemma free_step_owner r rs lo new gone nrp' :
  lo ≤ er_start r → regions_in g (er_end r + g) rs hi →
  er_start r ≤ start → end_ ≤ er_end r →
  (coalesce = false → er_start r = start ∧ er_end r = end_) →
  regions_in g lo (new ++ rs) hi →
  (∀ a, alloced new a ↔ er_start r ≤ a ≤ er_end r ∧ ¬ start ≤ a ≤ end_) →
  (er_flags <$> new) ++ option_list gone ++ option_list nrp' ≡ₚ er_flags r :: option_list nrp →
  free_step coalesce (r :: rs) start end_ nrp lo hi g (Some (new ++ rs, gone, nrp')).
Proof using All.
  intros H1 Hrs Hs He Hno Hnew Ha Hp. assert (1 ≤ g) by (destruct coalesce; lia).
  simpl. split_and!; [apply owner_cons; by left|done| |].
  - intros a. rewrite alloced_app, alloced_cons, Ha.
    assert (alloced rs a → er_end r < a)
      by (intros Hx; pose proof (alloced_ge _ _ _ _ _ ltac:(done) Hrs Hx); lia).
    intuition lia.
  - rewrite fmap_app. simpl. rewrite <-(assoc (++)).
    rewrite (Permutation_app_comm (er_flags <$> rs)), (assoc (++)), Hp.
    simpl. by rewrite Permutation_app_comm.
Qed.

Lemma free_loop_spec rs lo :
  0 ≤ lo → regions_in g lo rs hi →
  free_step coalesce rs start end_ nrp lo hi g (free_loop coalesce rs start end_ nrp).
Proof using All.
  revert lo. induction rs as [|r rs IH]; intros lo Hlo Hr; cbn [free_loop].
  { intros (x&Hx&_). set_solver. }
  destruct Hr as (H1&H2&H3&Hrs). assert (Hg1 : 1 ≤ g) by (destruct coalesce; lia).
  specialize (IH (er_end r + g) ltac:(lia) Hrs).
  assert (Hpm : er_start r < start → start ≤ er_end r → u64 (start - 1) = start - 1)
    by (intros; apply u64_small; unfold is_u64; lia).
  assert (Hpp : end_ < er_end r → er_start r ≤ end_ → u64 (end_ + 1) = end_ + 1)
    by (intros; apply u64_small; unfold is_u64; lia).
  destruct (Z.ltb_spec (er_end r) start); [apply free_step_continue; auto|].
  destruct (Z.gtb_spec (er_start r) end_).
  { intros Hx%owner_cons. destruct Hx as [?|Hx]; [lia|].
    apply (owner_ge _ coalesce _ _ _ start end_ ltac:(done) Hrs ltac:(lia) Hx). }
  destruct (decide (start = er_start r ∧ end_ = er_end r)) as [[Es Ee]|Hne].
  { replace ((start =? er_start r) && (end_ =? er_end r)) with true by lia.
    apply (free_step_owner r rs lo [] (Some (er_flags r))); try done; try lia; try congruence.
    - simpl. eapply regions_in_weaken; [done|lia].
    - intros a. rewrite alloced_nil. lia. }
  replace ((start =? er_start r) && (end_ =? er_end r)) with false by lia.
  destruct (negb coalesce) eqn:Eco.
  { apply negb_true_iff in Eco. apply free_step_continue; auto. right. left. split; [done|lia]. }
  apply negb_false_iff in Eco. assert (Hg2 : g = 2) by (by rewrite Hg, Eco).
  assert (Hn : ∃ n, nrp = Some n) by (by apply Hnrp). destruct Hn as [n Hn].
  destruct (Z.eqb_spec start (er_start r)) as [Hs|Hs]; cbn [andb].
  { destruct (Z.ltb_spec end_ (er_end r)).
    - rewrite Hpp by done. apply (free_step_owner r rs lo [_] None nrp); try done; try lia; try congruence.
      + simpl. split_and!; try done; lia.
      + intros a. rewrite alloced_cons, alloced_nil. simpl. lia.
    - replace (start >? er_start r) with false by lia. cbn [andb].
      apply free_step_continue; auto. lia. }
  destruct (Z.gtb_spec start (er_start r)) as [Hgt|]; cbn [andb].
  2:{ apply free_step_continue; auto. lia. }
  destruct (Z.eqb_spec end_ (er_end r)) as [He|He].
  { rewrite Hpm by done. apply (free_step_owner r rs lo [_] None nrp); try done; try lia; try congruence.
    - simpl. split_and!; try done; try lia. eapply regions_in_weaken; [done|lia].
    - intros a. rewrite alloced_cons, alloced_nil. simpl. lia. }
  destruct (Z.ltb_spec end_ (er_end r)).
  { rewrite Hn, Hpm, Hpp by done.
    assert (Hst := free_step_owner r rs lo
      [set_end r (start - 1); ExtentRegion (end_ + 1) (er_end r) n] None None).
    rewrite Hn in Hst. apply Hst; try done; try lia; try congruence.
    - simpl. split_and!; try done; lia.
    - intros a. rewrite !alloced_cons, alloced_nil. simpl. lia. }
  apply free_step_continue; auto. lia.
Qed.
End free_loop.

(** In a coalescing list a range has an owner exactly when all of it is
    allocated. *)
Lemma owner_all lo hi rs start end_ :
  regions_in 2 lo rs hi → start ≤ end_ →
  owner true rs start end_ ↔ ∀ a, start ≤ a ≤ end_ → alloced rs a.
Proof.
  intros Hr Hle. revert lo Hr. induction rs as [|r rs IH]; intros lo Hr.
  { split; [intros (x&Hx&_); set_solver|]. intros Ha. by destruct (Ha start ltac:(lia)) as (?&?%not_elem_of_nil&_). }
  destruct Hr as (H1&H2&H3&Hrs). specialize (IH _ Hrs). rewrite owner_cons. split.
  - intros [?|Ho] a Ha; apply alloced_cons; [left; lia|right; by apply IH].
  - intros Ha. assert (Hr : ∀ a, alloced rs a → er_end r + 2 ≤ a).
    { intros a Hx. by apply (alloced_ge 2 _ _ _ a ltac:(lia) Hrs Hx). }
    destruct (decide (start ≤ er_end r)) as [Hs|Hs].
    + left. assert (Hs' := Ha start ltac:(lia)). apply alloced_cons in Hs' as [Hs'|Hs'];
        [|specialize (Hr _ Hs'); lia].
      split_and!; [lia| |done]. apply Z.nlt_ge. intros Hlt.
      assert (He := Ha (er_end r + 1) ltac:(lia)). apply alloced_cons in He as [He|He]; [lia|].
      specialize (Hr _ He). lia.
    + right. apply IH. intros a Hx. specialize (Ha a Hx). apply alloced_cons in Ha as [?|?]; [lia|done].
Qed.

(** What [extent_free] can free: in an extent that coalesces any range that is
    allocated, otherwise exactly one region. *)
Definition freeable (ex : extent) (start size : Z) : Prop :=
  if has (ex_flags ex) EXF_NOCOALESCE then
    ∃ r : extent_region, r ∈ ex_regions ex ∧ er_start r = start ∧ er_end r = start + size - 1
  else ∀ a, start ≤ a < start + size → alloced (ex_regions ex) a.

Lemma freeable_owner ex start size :
  ext_ok ex → 1 ≤ size →
  freeable ex start size ↔
  owner (negb (has (ex_flags ex) EXF_NOCOALESCE)) (ex_regions ex) start (start + size - 1).
Proof.
  intros Hok Hsz. pose proof (ok_regions _ Hok) as Hr. unfold freeable, gap in *.
  destruct (has (ex_flags ex) EXF_NOCOALESCE); simpl.
  - unfold owner. split; [intros (r&?&?&?); exists r; naive_solver lia|].
    intros (r&?&?&?&Hx). destruct (Hx eq_refl). by exists r.
  - rewrite owner_all by (try done; lia). split; intros H a Ha; apply H; lia.
Qed.

Lemma free_option ex ex1 rs gained o lost :
  becomes ex ex1 rs gained (option_list o ++ lost) → Forall (desc_ok ex) (option_list o) →
  becomes ex (match o with Some rp => extent_free_region_descriptor ex1 rp | None => ex1 end)
    rs gained lost.
Proof.
  intros Hb Ho. destruct o as [rp|]; simpl in *; [|done].
  apply becomes_free; [done|]. by inversion Ho.
Qed.

(** What the freeing thread does with the mutex taken. *)
Lemma free_start_spec ex start size nrp :
  ext_ok ex → ex_lock ex = false → 1 ≤ size → ex_start ex ≤ start →
  start + size - 1 ≤ ex_end ex →
  (has (ex_flags ex) EXF_NOCOALESCE = false → is_Some nrp) →
  Forall (desc_ok ex) (option_list nrp) →
  match free_start ex start size nrp with
  | Ok (ex', v) => freeable ex start size ∧ v = Returned 0 0 ∧
      ext_ok ex' ∧ same_map ex ex' ∧ ex_lock ex' = false ∧
      (∀ a, alloced (ex_regions ex') a ↔
        alloced (ex_regions ex) a ∧ ¬ start ≤ a < start + size) ∧
      ∀ more, accounts ex' more = accounts ex (option_list nrp ++ more)
  | Fault f => f = Panic ∧ ¬ freeable ex start size
  end.
Proof.
  intros Hok Hl Hsz Hlo Hhi Hnrp Hd. pose proof (freeable_owner ex start size Hok Hsz) as Hfo.
  unfold free_start. rewrite enter_spec by done. simpl.
  change (if has _ _ then ex else _) with (entered ex).
  destruct (entered_props ex Hl) as (E1&E2&E3&E4&E5). rewrite E1, (proj2 (proj2 E2)).
  assert (Hu : u64 (start + (size - 1)) = start + size - 1).
  { destruct Hok. rewrite u64_small; [|unfold is_u64]; lia. }
  rewrite Hu. set (co := negb (has (ex_flags ex) EXF_NOCOALESCE)).
  assert (Hfl := free_loop_spec co start (start + size - 1) nrp (ex_end ex) (gap ex)).
  specialize (Hfl ltac:(unfold gap, co; by destruct (has _ _)) (ok_hi _ Hok) ltac:(lia)).
  specialize (Hfl ltac:(intros Hc; apply Hnrp; by apply negb_true_iff)).
  specialize (Hfl (ex_regions ex) (ex_start ex) (ok_lo _ Hok) (ok_regions _ Hok)).
  destruct (free_loop _ _ _ _ _) as [[[rs gone] nrp']|]; [|by split; [|rewrite Hfo; exact Hfl]].
  destruct Hfl as (Hown&Hrs&Ha&Hp).
  assert (Hall : Forall (desc_ok ex) (option_list gone ++ option_list nrp')).
  { apply (Forall_app _ (er_flags <$> rs)). rewrite Hp. apply Forall_app. split; [apply Hok|done]. }
  apply Forall_app in Hall as [Hgone Hnrp'].
  assert (Hdo : ∀ l, Forall (desc_ok ex) l → Forall (desc_ok (entered ex)) l).
  { intros l Hx. eapply Forall_impl; [exact Hx|]. intros f. by apply (desc_ok_same ex). }
  assert (Hb : becomes (entered ex) (set_regions (entered ex) rs) rs (option_list nrp)
    (option_list gone ++ option_list nrp')).
  { apply becomes_set; [auto| |auto|by rewrite E1].
    by rewrite (proj1 E2), (proj1 (proj2 E2)), (proj1 (has_ext_ok_same _ _ E2)). }
  apply free_option in Hb; [|auto]. rewrite <-(app_nil_r (option_list nrp')) in Hb.
  apply free_option in Hb; [|auto]. simpl.
  set (ex1 := match nrp' with Some _ => _ | None => _ end) in *.
  destruct Hb as (Hok1&Hr1&Hm1&Hl1&Hacc1).
  assert (Hf : ex_flags ex1 = ex_flags (entered ex)) by apply Hm1.
  destruct (leave_entered ex ex1) as (ex2&H2&Hok2&Hm2&Hl2&Hr2&Hc2); try done.
  + by etransitivity.
  + rewrite Hf, Hl1. done.
  + rewrite Hf, Hl1. unfold entered. by destruct (has (ex_flags ex) EXF_EARLY) eqn:Q; simpl; rewrite ?Q.
  + rewrite H2. simpl. split_and!; try done.
    * by apply Hfo.
    * intros a. rewrite Hr2, Hr1, Ha. intuition lia.
    * intros more. rewrite Hc2. specialize (Hacc1 more). simpl in Hacc1. by rewrite Hacc1, E4.
Qed.

(** C13: [extent_free] of a range inside the extent (an early extent is not used
    with the flags that make a thread sleep).  A range is freeable when it is
    wholly allocated or, in an extent made with EX_NOCOALESCE, when it is
    exactly one region.  The call returns 0 only for a freeable range, and then
    exactly its numbers become free and the list stays well formed; it fails
    with ENOMEM or sleeps only when the extent coalesces and no descriptor can
    be had at once; the only panic is for a range that is not freeable. *)
Theorem extent_free_spec (DIAGNOSTIC pool_ok : bool) ex start size flags :
  ext_ok ex → ex_lock ex = false → 1 ≤ size →
  ex_start ex ≤ start → start + size - 1 ≤ ex_end ex → flags_early_ok ex flags →
  match extent_free DIAGNOSTIC pool_ok ex start size flags with
  | Ok (ex', v) =>
    ext_ok ex' ∧ same_map ex ex' ∧ ex_lock ex' = false ∧
    (∀ more, accounts ex' more = accounts ex more) ∧
    match v with
    | Returned 0 _ => freeable ex start size ∧
        (has (ex_flags ex) EXF_NOCOALESCE = false →
           no_desc pool_ok ex flags = false ∧ desc_sleeps ex flags = false) ∧
        ∀ a, alloced (ex_regions ex') a ↔
          alloced (ex_regions ex) a ∧ ¬ start ≤ a < start + size
    | Returned error _ => error = ENOMEM ∧ no_desc pool_ok ex flags = true ∧
        has flags EX_WAITOK = false ∧
        has (ex_flags ex) EXF_NOCOALESCE = false ∧ ex' = ex
    | SleepsDesc => desc_sleeps ex flags = true ∧ has flags EX_WAITOK = true ∧
        has (ex_flags ex) EXF_NOCOALESCE = false ∧ ex_regions ex' = ex_regions ex
    | SleepsSpace _ => False
    end
  | Fault f => f = Panic ∧ ¬ freeable ex start size
  end.
Proof.
  intros Hok Hl Hsz Hlo Hhi Hearly. unfold extent_free, free_checks.
  assert (Hu : u64 (start + (size - 1)) = start + size - 1).
  { destruct Hok. rewrite u64_small; [|unfold is_u64]; lia. }
  rewrite Hu. replace (start + size - 1 <? start) with false by lia.
  replace (start <? ex_start ex) with false by lia.
  replace (start + size - 1 >? ex_end ex) with false by lia.
  rewrite !andb_false_r. simpl.
  destruct (has (ex_flags ex) EXF_NOCOALESCE) eqn:Hco; simpl.
  - assert (Hfs := free_start_spec ex start size None Hok Hl Hsz Hlo Hhi).
    rewrite Hco in Hfs. specialize (Hfs ltac:(done) ltac:(constructor)).
    destruct (free_start ex start size None) as [[ex' v]|]; [|done].
    destruct Hfs as (?&->&?&?&?&?&?). by split_and!.
  - destruct (alloc_descriptor_spec pool_ok ex flags Hok Hl) as (ex1&g&->&Hok1&Hl1&Hm1&Hr1&Hg).
    { intros He. by apply Hearly. }
    destruct (Hm1) as (Hs1&He1&Hf1). simpl. destruct g as [rp| |].
    + destruct Hg as (Hd&Hrp&Hacc).
      assert (Hfs := free_start_spec ex1 start size (Some rp) Hok1 Hl1 Hsz ltac:(lia) ltac:(lia)).
      specialize (Hfs ltac:(eauto)).
      assert (Hfr : freeable ex1 start size ↔ freeable ex start size)
        by (unfold freeable; by rewrite Hf1, Hr1).
      destruct (free_start ex1 start size (Some rp)) as [[ex' v]|].
      * destruct Hfs as (?&->&?&?&?&Ha&Hc).
        { constructor; [by apply (desc_ok_same ex)|constructor]. }
        rewrite Hr1 in Ha. split_and!; try done.
        { by etransitivity. } { intros more. rewrite Hc. apply Hacc. } { by apply Hfr. }
      * rewrite <-Hfr. apply Hfs. constructor; [by apply (desc_ok_same ex)|constructor].
    + destruct Hg as (?&?&->). by split_and!.
    + destruct Hg as (?&?&?&?&?). by split_and!.
Qed.

(** A fixed extent from 100 to 199 with one region, and two descriptors left. *)
Definition sample_ex : extent :=
  Extent false [ExtentRegion 120 129 0] 100 199 EXF_FIXED false [0; ER_ALLOC] 1.

Lemma sample_ex_ok : ext_ok sample_ex.
Proof.
  split; try done; unfold sample_ex; simpl; try lia; repeat constructor; try (by right); by left.
Qed.

Lemma extent_alloc_region_spec_witness :
  ∃ ex' v, extent_alloc_region true false sample_ex 130 10 EX_NOWAIT = Ok (ex', v) ∧
    alloc_outcome false false sample_ex ex' v [] (λ r, r = 130 ∧ range_free sample_ex 130 10)
      (¬ range_free sample_ex 130 10) 10 EX_NOWAIT ∧
    (v = Returned 0 130 ↔ false = false ∧ false = false ∧ range_free sample_ex 130 10).
Proof.
  apply (extent_alloc_region_spec true false sample_ex 130 10 EX_NOWAIT);
    [apply sample_ex_ok|reflexivity|lia|vm_compute; congruence..|discriminate].
Defined.

Lemma extent_free_spec_witness :
  match extent_free true false sample_ex 122 4 EX_NOWAIT with
  | Ok (ex', v) => v = Returned 0 0 ∧
      ∀ a, alloced (ex_regions ex') a ↔ alloced (ex_regions sample_ex) a ∧ ¬ 122 ≤ a < 122 + 4
  | Fault _ => False
  end.
Proof.
  assert (H := extent_free_spec true false sample_ex 122 4 EX_NOWAIT
    sample_ex_ok eq_refl ltac:(lia) ltac:(vm_compute; congruence) ltac:(vm_compute; congruence)
    ltac:(discriminate)).
  vm_compute extent_free in *. split; [reflexivity|]. apply H.
Defined.
