(* ===== verification/ExtentSearch.v ===== *)
(** * Extent maps: the search for a free region

    [extent_alloc_subregion1] finds an aligned region of the subregion that is
    free and crosses no boundary line, and without a boundary it finds one
    whenever there is one, provided that rounding up to the alignment cannot
    leave the range of [u_long].  A thread that slept for space waits for its own
    mutex when it is woken. *)

From S2P Require Export Prelude Extent ExtentSpec ExtentOps.

(** ** Rounding up *)

Definition align_up (x a k : Z) : Z := x + (k - x) mod a.

Lemma align_up_spec x a k :
  0 < a → x ≤ align_up x a k < x + a ∧ (align_up x a k - k) mod a = 0 ∧
  ∀ y, x ≤ y → (y - k) mod a = 0 → align_up x a k ≤ y.
Proof.
  intros Ha. unfold align_up. pose proof (Z.mod_pos_bound (k - x) a Ha) as Hb.
  split; [lia|]. pose proof (Z.div_mod (k - x) a ltac:(lia)) as Hq. split.
  - replace (x + (k - x) mod a - k) with ((- ((k - x) / a)) * a) by lia. apply Z.mod_mul. lia.
  - intros y Hy Hm. apply Z.mod_divide in Hm as [q Hm]; [|lia].
    set (d := (k - x) / a) in *. set (m := (k - x) mod a) in *.
    assert (Hx : y - x = (q + d) * a + m) by nia.
    assert (0 ≤ q + d) by nia. nia.
Qed.

Lemma land_top x n : 0 ≤ n ≤ 64 → is_u64 x → x .& u64 (- 2 ^ n) = x - x mod 2 ^ n.
Proof.
  intros Hn Hx. assert (Hp : 0 < 2 ^ n) by (apply Z.pow_pos_nonneg; lia).
  assert (Ht : u64 (- 2 ^ n) = Z.shiftl (Z.ones (64 - n)) n).
  { rewrite Z.shiftl_mul_pow2, Z.ones_equiv by lia. unfold u64.
    replace (Z.pred (2 ^ (64 - n)) * 2 ^ n) with (2 ^ 64 - 2 ^ n).
    - assert (2 ^ n ≤ 2 ^ 64) by (apply Z.pow_le_mono_r; lia).
      symmetry. apply Z.mod_unique with (-1); lia.
    - replace (2 ^ 64) with (2 ^ (64 - n) * 2 ^ n) by (rewrite <-Z.pow_add_r; f_equal; lia). lia. }
  rewrite Ht. replace (x - x mod 2 ^ n) with (Z.shiftl (Z.shiftr x n) n).
  - apply Z.bits_inj'. intros i Hi. rewrite Z.land_spec, !Z.shiftl_spec by done.
    destruct (decide (i < n)) as [Hlt|Hge].
    + rewrite !(Z.testbit_neg_r _ (i - n)) by lia. by rewrite andb_false_r.
    + rewrite Z.shiftr_spec by lia. replace (i - n + n) with i by lia.
      destruct (decide (i < 64)).
      * rewrite Z.ones_spec_low by lia. apply andb_true_r.
      * rewrite (proj1 (below_pow2_testbit 64 x ltac:(lia) ltac:(apply Hx))); [done|apply Hx|lia].
  - rewrite Z.shiftl_mul_pow2, Z.shiftr_div_pow2 by lia. pose proof (Z.div_mod x (2 ^ n)). lia.
Qed.

Lemma u64_mod_pow2 x n : 0 ≤ n ≤ 64 → u64 x mod 2 ^ n = x mod 2 ^ n.
Proof.
  intros Hn. unfold u64. apply Z.mod_mod_divide.
  exists (2 ^ (64 - n)). rewrite <-Z.pow_add_r by lia. f_equal. lia.
Qed.

(** The macro of the code, for a power of two. *)
Lemma EXTENT_ALIGN_spec s n k :
  0 ≤ n ≤ 64 → EXTENT_ALIGN s (2 ^ n) k = u64 (align_up s (2 ^ n) k).
Proof.
  intros Hn. assert (Ha : 0 < 2 ^ n) by (apply Z.pow_pos_nonneg; lia).
  unfold EXTENT_ALIGN. rewrite land_top by eauto with kern. rewrite u64_mod_pow2 by done.
  unfold align_up. set (a := 2 ^ n) in *. set (x := s - k + (a - 1)).
  pose proof (Z.mod_pos_bound (k - s) a Ha) as Hb.
  assert (Hx : x mod a = a - 1 - (k - s) mod a).
  { symmetry. apply Z.mod_unique with (- ((k - s) / a)); [lia|]. unfold x.
    pose proof (Z.div_mod (k - s) a). lia. }
  unfold u64. rewrite Hx.
  replace (x mod 2 ^ 64 - (a - 1 - (k - s) mod a) + k)
    with (x mod 2 ^ 64 + (k - (a - 1 - (k - s) mod a))) by lia.
  rewrite Z.add_mod_idemp_l by lia. f_equal. unfold x. lia.
Qed.

Lemma LE_OV_spec x y z :
  is_u64 x → 0 ≤ y < 2 ^ 64 → z < 2 ^ 64 → LE_OV x y z = (x + y <=? z).
Proof.
  intros Hx Hy Hz. unfold LE_OV, is_u64, u64 in *. Z.to_euclidean_division_equations. lia.
Qed.

(** ** What the search looks for *)

(** Where the boundary lines start. *)
Definition bound_base (ex : extent) (flags : Z) : Z :=
  if has flags EX_BOUNDZERO then 0 else ex_start ex.

(** [r] is [skew] modulo the alignment. *)
Definition aligned (alignment skew r : Z) : Prop := (r - skew) mod alignment = 0.

(** No boundary line lies inside the region; one may lie at its start. *)
Definition nocross (base boundary r size : Z) : Prop :=
  boundary = 0 ∨ ∀ L, r < L < r + size → (L - base) mod boundary ≠ 0.

(** [r] can be the start of a region for the request. *)
Definition placed (ex : extent) (substart subend size alignment skew boundary flags r : Z) : Prop :=
  substart ≤ r ∧ r + size - 1 ≤ subend ∧ aligned alignment skew r ∧
  nocross (bound_base ex flags) boundary r size ∧ range_free ex r size.

(** The requests the search is made for: the alignment and the boundary are
    powers of two, rounding up to the alignment stays within [u_long], and
    boundary lines are aligned. *)
Record request_ok (ex : extent) (substart subend size alignment skew boundary flags : Z) : Prop := {
  rq_lo : ex_start ex ≤ substart;
  rq_hi : subend ≤ ex_end ex;
  rq_size : 1 ≤ size;
  rq_room : substart + size - 1 ≤ subend;
  rq_align : ∃ n, 0 ≤ n < 64 ∧ alignment = 2 ^ n;
  rq_skew : is_u64 skew;
  rq_wrap : ex_end ex + alignment < 2 ^ 64;
  rq_bound : boundary = 0 ∨
    size ≤ boundary ∧ (∃ b, 0 ≤ b < 64 ∧ boundary = 2 ^ b) ∧ (alignment | boundary) ∧
    aligned alignment skew (bound_base ex flags);
}.

Section boundary.
Context (ex : extent) (substart subend size alignment skew boundary flags : Z).
Context (Hok : ext_ok ex)
  (Hrq : request_ok ex substart subend size alignment skew boundary flags).
#[local] Abbreviation base := (bound_base ex flags) (only parsing).

Lemma alignment_pos : 0 < alignment.
Proof using Hrq. destruct (rq_align _ _ _ _ _ _ _ _ Hrq) as (n&?&->). apply Z.pow_pos_nonneg; lia. Qed.

Lemma EXTENT_ALIGN_request x :
  0 ≤ x ≤ ex_end ex + 1 →
  EXTENT_ALIGN x alignment skew = align_up x alignment skew ∧
  x ≤ align_up x alignment skew < 2 ^ 64.
Proof using Hok Hrq.
  intros Hx. pose proof alignment_pos as Hp. pose proof (rq_wrap _ _ _ _ _ _ _ _ Hrq) as Hw.
  destruct (align_up_spec x alignment skew Hp) as (Hb&_&_).
  destruct (rq_align _ _ _ _ _ _ _ _ Hrq) as (n&?&E).
  split; [|lia]. rewrite E at 1. rewrite EXTENT_ALIGN_spec by lia. rewrite <-E.
  apply u64_small. unfold is_u64. lia.
Qed.

(** The least boundary line after [x]. *)
Definition next_line (x : Z) : Z := align_up (x + 1) boundary base.

Lemma next_line_nocross x :
  0 < boundary → x + size - 1 < next_line x → nocross base boundary x size.
Proof using Type.
  intros Hb Hx. right. intros L HL Hm.
  destruct (align_up_spec (x + 1) boundary base Hb) as (_&_&Hmin).
  specialize (Hmin L ltac:(lia) Hm). unfold next_line in Hx. lia.
Qed.

Lemma line_aligned L :
  0 < boundary → (L - base) mod boundary = 0 → aligned alignment skew L.
Proof using Hrq.
  intros Hb HL. destruct (rq_bound _ _ _ _ _ _ _ _ Hrq) as [|(_&_&Hd&Ha)]; [lia|].
  pose proof alignment_pos. unfold aligned in *.
  apply Z.mod_divide in HL; [|lia]. apply Z.mod_divide in Ha; [|lia].
  apply Z.mod_divide; [lia|]. replace (L - skew) with ((L - base) + (base - skew)) by lia.
  apply Z.divide_add_r; [|done]. by transitivity boundary.
Qed.

(** The value [dontcross] of the code: the number before the next line, or, when
    there is no line below [2^64], the largest number or one below the start of
    the extent. *)
Lemma dontcross_spec x :
  ex_start ex ≤ x ≤ ex_end ex → 0 < boundary →
  let d := u64 (EXTENT_ALIGN (u64 (x + 1)) boundary base - 1) in
  (next_line x < 2 ^ 64 ∧ d = next_line x - 1 ∧ x ≤ d) ∨
  (2 ^ 64 ≤ next_line x ∧ (d < ex_start ex ∨ d = 2 ^ 64 - 1)).
Proof using Hok Hrq.
  intros Hx Hb. pose proof (rq_wrap _ _ _ _ _ _ _ _ Hrq) as Hw. pose proof alignment_pos as Hap.
  assert (Hlo := ok_lo _ Hok).
  destruct (rq_bound _ _ _ _ _ _ _ _ Hrq) as [|(Hsz&(b&Hbb&Eb)&_&_)]; [lia|].
  destruct (align_up_spec (x + 1) boundary base Hb) as (HL&Hm&_). fold (next_line x) in *.
  assert (Hbig : boundary < 2 ^ 64) by (rewrite Eb; apply Z.pow_lt_mono_r; lia).
  cbv zeta. rewrite (u64_small (x + 1)) by (unfold is_u64; lia).
  assert (E : EXTENT_ALIGN (x + 1) boundary base = u64 (next_line x)).
  { unfold next_line. rewrite Eb. by rewrite EXTENT_ALIGN_spec by lia. }
  rewrite E.
  destruct (decide (next_line x < 2 ^ 64)) as [Hlt|Hge].
  - left. rewrite (u64_small (next_line x)), u64_small by (unfold is_u64; lia). lia.
  - right. split; [lia|].
    assert (Eu : u64 (next_line x) = next_line x - 2 ^ 64).
    { unfold u64. symmetry. apply Z.mod_unique with 1; lia. }
    rewrite Eu. set (d := next_line x - 2 ^ 64) in *.
    destruct (decide (d = 0)) as [->|Hd]; [by right|]. left.
    rewrite u64_small by (unfold is_u64; lia).
    assert (Hmd : d mod boundary = base mod boundary).
    { apply Z.mod_divide in Hm as [q Hq]; [|lia].
      replace d with (base + (q - 2 ^ (64 - b)) * boundary); [apply Z.mod_add; lia|].
      assert (2 ^ 64 = 2 ^ (64 - b) * boundary).
      { rewrite Eb, <-Z.pow_add_r by lia. by replace (64 - b + b) with 64 by lia. }
      rewrite Z.mul_sub_distr_r. unfold d. lia. }
    rewrite Z.mod_small in Hmd by lia. unfold bound_base in *.
    destruct (has flags EX_BOUNDZERO); [by rewrite Z.mod_0_l in Hmd by lia|].
    pose proof (Z.mod_le (ex_start ex) boundary). lia.
Qed.

(** A fit of the boundary check starts no earlier than the candidate, still has
    room, is aligned, and crosses no line. *)
Lemma boundary_check_spec room x :
  (∀ y, is_u64 y → room y = true → y + size - 1 ≤ ex_end ex) →
  ex_start ex ≤ x → is_u64 x → room x = true → aligned alignment skew x →
  match boundary_check ex room x size boundary flags with
  | Fits y => x ≤ y ∧ is_u64 y ∧ room y = true ∧ aligned alignment skew y ∧
      nocross base boundary y size ∧ (boundary = 0 → y = x)
  | Crosses | NoFit => boundary ≠ 0
  end.
Proof using Hok Hrq.
  intros Hroom Hx Hu Hr Ha. pose proof (Hroom x Hu Hr) as Hend.
  pose proof (rq_size _ _ _ _ _ _ _ _ Hrq). assert (Hhi := ok_hi _ Hok). assert (Hlo := ok_lo _ Hok).
  unfold boundary_check. destruct (Z.eqb_spec boundary 0) as [Hb0|Hb0].
  { split_and!; try done. by left. }
  assert (Hb : 0 < boundary).
  { destruct (rq_bound _ _ _ _ _ _ _ _ Hrq) as [|[? _]]; lia. }
  assert (Hszb : size ≤ boundary).
  { destruct (rq_bound _ _ _ _ _ _ _ _ Hrq) as [|[? _]]; lia. }
  pose proof (dontcross_spec x ltac:(lia) Hb) as Hd. cbv zeta in Hd |- *.
  fold (bound_base ex flags). set (d := u64 (EXTENT_ALIGN _ _ _ - 1)) in *.
  destruct (align_up_spec (x + 1) boundary base Hb) as (HL&Hm&_). fold (next_line x) in HL, Hm.
  rewrite (u64_small (x + (size - 1))) by (unfold is_u64; lia).
  destruct Hd as [(Hlt&Hde&Hxd)|(Hge&Hde)].
  - replace (d <? ex_start ex) with false by lia.
    destruct (Z.gtb_spec (x + (size - 1)) d) as [Hc|Hc].
    + replace (d + 1) with (next_line x) by lia.
      rewrite (u64_small (next_line x)) by (unfold is_u64; lia).
      destruct (room (next_line x)) eqn:Hr'; simpl; [|done].
      case_bool; [done|]. split_and!; try done; try lia.
      * unfold is_u64; lia.
      * by apply line_aligned.
      * right. intros L HL1 HL2. apply Z.mod_divide in Hm as [q Hq]; [|lia].
        apply Z.mod_divide in HL2 as [q' Hq']; [|lia].
        assert (0 < (q' - q) * boundary < boundary) by lia.
        destruct (decide (q' ≤ q)); nia.
    + case_bool; [done|]. split_and!; try done; try lia. apply next_line_nocross; lia.
  - assert (Hno : nocross base boundary x size) by (apply next_line_nocross; lia).
    destruct (Z.ltb_spec d (ex_start ex)).
    + case_bool; [done|]. by split_and!.
    + destruct Hde as [|Hde]; [lia|].
      replace (x + (size - 1) >? d) with false by lia. case_bool; [done|]. by split_and!.
Qed.
End boundary.

(** ** The loop over the gaps *)
Section gaps.
Context (ex : extent) (substart subend size alignment skew boundary flags : Z).
Context (Hok : ext_ok ex)
  (Hrq : request_ok ex substart subend size alignment skew boundary flags).
#[local] Abbreviation place := (placed ex substart subend size alignment skew boundary flags).

(** The start [r] fits after the first [last] regions. *)
Definition good (r : Z) (last : nat) : Prop :=
  place r ∧ ∃ pre post, ex_regions ex = pre ++ post ∧ length pre = last ∧
    (∀ x : extent_region, x ∈ pre → er_end x < r) ∧
    (∀ x : extent_region, x ∈ post → r + size - 1 < er_start x).

(** The best gap so far is one, and every placement below [x] has been seen. *)
Definition best_ok (b : best) : Prop := bestovh b = 0 ∨ good (beststart b) (bestlast b).
Definition seen (b : best) : Prop := has flags EX_FAST = false ∧ bestovh b ≠ 0.
Definition complete (x : Z) (b : best) : Prop := boundary = 0 → ∀ r, place r → r < x → seen b.

(** The state of the search before the regions [rest]. *)
Definition at_gap (pre rest : list extent_region) (newstart : Z) (last : nat) (b : best) : Prop :=
  ex_regions ex = pre ++ rest ∧ length pre = last ∧
  (∀ x : extent_region, x ∈ pre → er_end x < newstart) ∧
  (∀ x : extent_region, x ∈ rest → substart ≤ er_end x) ∧
  substart ≤ newstart < 2 ^ 64 ∧ aligned alignment skew newstart ∧
  best_ok b ∧ complete newstart b.

Definition exit_ok (out : gap_exit) : Prop :=
  match out with
  | GapFound r last => good r last ∧
      (has flags EX_FAST = true → boundary = 0 → ∀ r', place r' → r ≤ r')
  | GapFail b => best_ok b ∧ (boundary = 0 → ∀ r, place r → seen b)
  | GapTail exend newstart last b => ∃ pre post, at_gap pre post newstart last b ∧
      (∀ x : extent_region, x ∈ post → subend < er_start x) ∧ subend ≤ exend < 2 ^ 64
  end.

Lemma place_intro r pre post :
  ex_regions ex = pre ++ post → substart ≤ r → r + size - 1 ≤ subend →
  aligned alignment skew r → nocross (bound_base ex flags) boundary r size →
  (∀ x : extent_region, x ∈ pre → er_end x < r) →
  (∀ x : extent_region, x ∈ post → r + size - 1 < er_start x) →
  good r (length pre).
Proof using Type.
  intros Hrs ? ? ? ? Hpre Hpost. split; [|by exists pre, post].
  split_and!; try done. unfold range_free. rewrite Hrs. by apply split_free.
Qed.

Lemma best_ok_better b ovh r last : best_ok b → good r last → best_ok (better b ovh r last).
Proof using Type. intros Hb Hr. unfold better. case_match; [by right|done]. Qed.
Lemma seen_better b ovh r last :
  has flags EX_FAST = false → ovh ≠ 0 → seen (better b ovh r last).
Proof using Type.
  intros Hf Ho. split; [done|]. unfold better. destruct (Z.eqb_spec (bestovh b) 0); simpl; [done|].
  by case_bool.
Qed.
Lemma seen_better_old b ovh r last : ovh ≠ 0 → seen b → seen (better b ovh r last).
Proof using Type. intros Ho [Hf _]. by apply seen_better. Qed.

(** A placement that does not lie after the region [rp] ends before it. *)
Lemma place_before r rp :
  rp ∈ ex_regions ex → place r → r ≤ er_end rp → r + size ≤ er_start rp.
Proof using Hok Hrq.
  intros Hin (_&_&_&_&Hfree) Hr. pose proof (rq_size _ _ _ _ _ _ _ _ Hrq).
  pose proof (regions_in_lo _ _ _ _ _ (gap_pos ex) (ok_regions _ Hok) Hin).
  apply Z.nlt_ge. intros Hlt. apply (Hfree (Z.max r (er_start rp))); [lia|].
  exists rp. split; [done|]. lia.
Qed.

(** Moving past the region [rp]. *)
Lemma at_gap_skip pre rp rest newstart last b b' :
  at_gap pre (rp :: rest) newstart last b → best_ok b' →
  (seen b → seen b') →
  (boundary = 0 → newstart + size ≤ er_start rp → seen b') →
  let newstart' := EXTENT_ALIGN (u64 (er_end rp + 1)) alignment skew in
  er_end rp < newstart' ∧ at_gap (pre ++ [rp]) rest newstart' (S last) b'.
Proof using Hok Hrq.
  intros (Hrs&Hlen&Hpre&Hpost&Hns&Hal&_&Hc) Hb' Hseen Hgap. cbv zeta.
  assert (Hin : rp ∈ ex_regions ex) by (rewrite Hrs; set_solver).
  pose proof (regions_in_lo _ _ _ _ _ (gap_pos ex) (ok_regions _ Hok) Hin) as Hb.
  assert (Hlo := ok_lo _ Hok). assert (Hhi := ok_hi _ Hok).
  pose proof (alignment_pos _ _ _ _ _ _ _ _ Hrq) as Hap.
  pose proof (rq_wrap _ _ _ _ _ _ _ _ Hrq).
  rewrite (u64_small (er_end rp + 1)) by (unfold is_u64; lia).
  destruct (EXTENT_ALIGN_request _ _ _ _ _ _ _ _ Hok Hrq (er_end rp + 1) ltac:(lia)) as [-> Hup].
  destruct (align_up_spec (er_end rp + 1) alignment skew Hap) as (_&Hm&Hmin).
  assert (Hord : ∀ x : extent_region, x ∈ pre → er_end x < er_start rp).
  { intros x Hx. pose proof (ok_regions _ Hok) as Hr. rewrite Hrs in Hr.
    apply regions_in_app in Hr as [Hp [Hr _]].
    pose proof (regions_in_pre _ _ _ _ _ (gap_pos ex) Hp Hx). pose proof (gap_pos ex). lia. }
  split; [lia|]. split_and!; try done; try lia.
  - by rewrite Hrs, <-(assoc (++)).
  - rewrite length_app. simpl. lia.
  - intros x Hx. apply elem_of_app in Hx as [Hx| ->%list_elem_of_singleton]; [|lia].
    specialize (Hord _ Hx). lia.
  - intros x Hx. apply Hpost. set_solver.
  - specialize (Hpost rp ltac:(set_solver)). lia.
  - intros Hb0 r Hr Hlt. destruct (decide (r < newstart)) as [?|Hge].
    { apply Hseen. by eapply Hc. }
    apply Hgap; [done|]. destruct (decide (r ≤ er_end rp)) as [Hle|Hgt].
    { pose proof (place_before r rp Hin Hr Hle). lia. }
    destruct Hr as (_&_&Hra&_). specialize (Hmin r ltac:(lia) Hra). lia.
Qed.

Lemma gap_loop_spec rest : ∀ pre newstart last b,
  at_gap pre rest newstart last b →
  exit_ok (gap_loop ex subend size alignment skew boundary flags rest newstart last b).
Proof using Hok Hrq.
  induction rest as [|rp rest IH]; intros pre newstart last b Hat; simpl.
  { exists pre, []. split; [done|]. split; [set_solver|]. pose proof (ok_hi _ Hok).
    pose proof (rq_hi _ _ _ _ _ _ _ _ Hrq). lia. }
  assert (Hat' := Hat). destruct Hat' as (Hrs&Hlen&Hpre&Hpost&Hns&Hal&Hbest&Hc).
  assert (Hin : rp ∈ ex_regions ex) by (rewrite Hrs; set_solver).
  pose proof (regions_in_lo _ _ _ _ _ (gap_pos ex) (ok_regions _ Hok) Hin) as Hb.
  assert (Hlo := ok_lo _ Hok). assert (Hhi := ok_hi _ Hok).
  assert (Hsz := rq_size _ _ _ _ _ _ _ _ Hrq).
  assert (Hs0 := rq_lo _ _ _ _ _ _ _ _ Hrq). assert (Hs1 := rq_hi _ _ _ _ _ _ _ _ Hrq).
  assert (Hs2 := rq_room _ _ _ _ _ _ _ _ Hrq).
  assert (Hs3 := rq_wrap _ _ _ _ _ _ _ _ Hrq). assert (Hs4 := alignment_pos _ _ _ _ _ _ _ _ Hrq).
  assert (Hafter : ∀ x : extent_region, x ∈ rp :: rest → er_start rp ≤ er_start x).
  { intros x Hx. pose proof (ok_regions _ Hok) as Hr. rewrite Hrs in Hr.
    apply regions_in_app in Hr as [_ Hr]. apply elem_of_cons in Hx as [->|Hx]; [lia|].
    destruct Hr as (_&_&_&Hr). pose proof (regions_in_lo _ _ _ _ _ (gap_pos ex) Hr Hx).
    pose proof (gap_pos ex). lia. }
  destruct (Z.gtb_spec (er_start rp) subend) as [Hpast|Hin'].
  { exists pre, (rp :: rest). split; [done|]. split; [|lia]. intros x Hx.
    specialize (Hafter x Hx). lia. }
  set (skip b := if EXTENT_ALIGN (u64 (er_end rp + 1)) alignment skew <? er_end rp then GapFail b
    else gap_loop ex subend size alignment skew boundary flags rest
      (EXTENT_ALIGN (u64 (er_end rp + 1)) alignment skew) (S last) b).
  assert (Hskip : ∀ b', best_ok b' → (seen b → seen b') →
    (boundary = 0 → newstart + size ≤ er_start rp → seen b') → exit_ok (skip b')).
  { intros b' H1 H2 H3. destruct (at_gap_skip pre rp rest newstart last b b') as [Hlt Hat']; try done.
    unfold skip. case_bool; [zb; lia|]. by eapply IH. }
  change (exit_ok (if LE_OV newstart size (er_start rp) then
    match boundary_check ex (λ y, LE_OV y size (er_start rp)) newstart size boundary flags with
    | Fits y => if has flags EX_FAST || (u64 (er_start rp - y - size) =? 0) then GapFound y last
        else skip (better b (u64 (er_start rp - y - size)) y last)
    | Crosses => skip b | NoFit => GapFail b end else skip b)).
  assert (Hroom : ∀ y, is_u64 y → LE_OV y size (er_start rp) = (y + size <=? er_start rp)).
  { intros y Hy. apply LE_OV_spec; [done|lia..]. }
  rewrite Hroom by (unfold is_u64; lia).
  destruct (Z.leb_spec (newstart + size) (er_start rp)) as [Hfit|Hno].
  2:{ apply Hskip; [done..|]. intros _ ?. lia. }
  assert (Hchk := boundary_check_spec ex substart subend size alignment skew boundary flags Hok Hrq
    (λ y, LE_OV y size (er_start rp)) newstart).
  specialize (Hchk ltac:(intros y Hy; cbv beta; rewrite Hroom by done; lia) ltac:(lia)
    ltac:(unfold is_u64; lia) ltac:(cbv beta; rewrite Hroom by (unfold is_u64; lia); lia) Hal).
  destruct (boundary_check _ _ _ _ _ _) as [y| |]; [|by apply Hskip|].
  2:{ split; [done|]. by intros ?. }
  destruct Hchk as (Hy1&Hy2&Hy3&Hy4&Hy5&Hy6). rewrite Hroom in Hy3 by done.
  assert (Hgood : good y last).
  { rewrite <-Hlen. eapply place_intro; try done; try lia.
    - intros x Hx. specialize (Hpre x Hx). lia.
    - intros x Hx. specialize (Hafter x Hx). lia. }
  assert (Hovh : u64 (er_start rp - y - size) = er_start rp - y - size).
  { apply u64_small. unfold is_u64 in *. lia. }
  rewrite Hovh. destruct (has flags EX_FAST || _) eqn:Ef.
  - split; [done|]. intros Hf Hb0 r Hr. rewrite (Hy6 Hb0). apply Z.nlt_ge. intros Hlt.
    destruct (Hc Hb0 r Hr Hlt) as [? _]. congruence.
  - apply orb_false_iff in Ef as [Hf Ho]. apply Z.eqb_neq in Ho. apply Hskip.
    + by apply best_ok_better.
    + by apply seen_better_old.
    + intros _ _. by apply seen_better.
Qed.

(** The check of the space up to the end of the subregion. *)
Lemma tail_check_spec pre post exend newstart last b :
  at_gap pre post newstart last b → (∀ x : extent_region, x ∈ post → subend < er_start x) →
  subend ≤ exend < 2 ^ 64 →
  match tail_check ex subend size boundary flags exend newstart last b with
  | GapTail _ _ _ _ => False
  | out => exit_ok out
  end.
Proof using Hok Hrq.
  intros (Hrs&Hlen&Hpre&_&Hns&Hal&Hbest&Hc) Hpost Hex. unfold tail_check.
  assert (Hlo := ok_lo _ Hok). assert (Hhi := ok_hi _ Hok).
  assert (Hsz := rq_size _ _ _ _ _ _ _ _ Hrq).
  assert (Hs0 := rq_lo _ _ _ _ _ _ _ _ Hrq). assert (Hs1 := rq_hi _ _ _ _ _ _ _ _ Hrq).
  assert (Hs2 := rq_room _ _ _ _ _ _ _ _ Hrq).
  assert (Hroom : ∀ y, is_u64 y → LE_OV y (size - 1) subend = (y + (size - 1) <=? subend)).
  { intros y Hy. apply LE_OV_spec; [done|lia..]. }
  rewrite Hroom by (unfold is_u64; lia).
  destruct (Z.leb_spec (newstart + (size - 1)) subend) as [Hfit|Hno].
  2:{ split; [done|]. intros Hb0 r Hr. apply (Hc Hb0 r Hr). destruct Hr as (_&?&_). lia. }
  assert (Hchk := boundary_check_spec ex substart subend size alignment skew boundary flags Hok Hrq
    (λ y, LE_OV y (size - 1) subend) newstart).
  specialize (Hchk ltac:(intros y Hy; cbv beta; rewrite Hroom by done; lia) ltac:(lia)
    ltac:(unfold is_u64; lia) ltac:(cbv beta; rewrite Hroom by (unfold is_u64; lia); lia) Hal).
  destruct (boundary_check _ _ _ _ _ _) as [y| |];
    [|split; [done|]; by intros ?|split; [done|]; by intros ?].
  destruct Hchk as (Hy1&Hy2&Hy3&Hy4&Hy5&Hy6). rewrite Hroom in Hy3 by done.
  assert (Hgood : good y last).
  { rewrite <-Hlen. eapply place_intro; try done; try lia.
    - intros x Hx. specialize (Hpre x Hx). lia.
    - intros x Hx. specialize (Hpost x Hx). lia. }
  assert (Hovh : u64 (exend - y - (size - 1)) = exend - y - (size - 1)).
  { apply u64_small. unfold is_u64 in *. lia. }
  rewrite Hovh. destruct (has flags EX_FAST || _) eqn:Ef.
  - split; [done|]. intros Hf Hb0 r Hr. rewrite (Hy6 Hb0). apply Z.nlt_ge. intros Hlt.
    destruct (Hc Hb0 r Hr Hlt) as [? _]. congruence.
  - apply orb_false_iff in Ef as [Hf Ho]. apply Z.eqb_neq in Ho. split.
    + by apply best_ok_better.
    + intros _ r _. by apply seen_better.
Qed.

(** Skipping the regions that begin before the first candidate. *)
Lemma skip_before_spec rs newstart : ∀ pre lend,
  ex_regions ex = pre ++ rs → (∀ x : extent_region, x ∈ pre → er_start x < newstart) →
  lend = er_end <$> last pre →
  ∃ pre' rest, skip_before rs newstart (length pre) lend = (length pre', er_end <$> last pre', rest) ∧
    ex_regions ex = pre' ++ rest ∧ (∀ x : extent_region, x ∈ pre' → er_start x < newstart) ∧
    (∀ x : extent_region, x ∈ rest → newstart ≤ er_start x).
Proof using All.
  induction rs as [|rp rest IH]; intros pre lend Hrs Hpre ->; simpl.
  { exists pre, []. split_and!; try done. set_solver. }
  destruct (Z.geb_spec (er_start rp) newstart) as [Hge|Hlt].
  - exists pre, (rp :: rest). split_and!; try done. intros x Hx.
    pose proof (ok_regions _ Hok) as Hr. rewrite Hrs in Hr. apply regions_in_app in Hr as [_ Hr].
    apply elem_of_cons in Hx as [->|Hx]; [done|]. destruct Hr as (_&?&_&Hr).
    pose proof (regions_in_lo _ _ _ _ _ (gap_pos ex) Hr Hx). pose proof (gap_pos ex). lia.
  - destruct (IH (pre ++ [rp]) (Some (er_end rp))) as (pre'&rest'&E&?).
    + by rewrite Hrs, <-(assoc (++)).
    + intros x [Hx| ->%list_elem_of_singleton]%elem_of_app; [by apply Hpre|done].
    + by rewrite last_snoc.
    + exists pre', rest'. rewrite <-E. split; [|done].
      f_equal. rewrite length_app. simpl. lia.
Qed.

(** The state of the search when the loop starts. *)
Lemma at_gap_start pre rest newstart :
  ex_regions ex = pre ++ rest → (∀ x : extent_region, x ∈ pre → er_start x < newstart) →
  (∀ x : extent_region, x ∈ rest → newstart ≤ er_start x) →
  newstart = align_up substart alignment skew →
  at_gap pre rest
    (match er_end <$> last pre with
     | Some e => if e >=? newstart then EXTENT_ALIGN (u64 (e + 1)) alignment skew else newstart
     | None => newstart
     end) (length pre) (Best 0 0 0).
Proof using Hok Hrq.
  intros Hrs Hpre Hrest Hns.
  assert (Hlo := ok_lo _ Hok). assert (Hhi := ok_hi _ Hok).
  assert (Hsz := rq_size _ _ _ _ _ _ _ _ Hrq).
  assert (Hs0 := rq_lo _ _ _ _ _ _ _ _ Hrq). assert (Hs1 := rq_hi _ _ _ _ _ _ _ _ Hrq).
  assert (Hs2 := rq_room _ _ _ _ _ _ _ _ Hrq). assert (Hs3 := rq_wrap _ _ _ _ _ _ _ _ Hrq).
  pose proof (alignment_pos _ _ _ _ _ _ _ _ Hrq) as Hap.
  destruct (align_up_spec substart alignment skew Hap) as (Hb&Hm&Hmin). rewrite <-Hns in *.
  assert (Hseen : complete newstart (Best 0 0 0)).
  { intros _ r (Hr&_&Hra&_) Hlt. specialize (Hmin r Hr Hra). lia. }
  assert (Hbase : (∀ x : extent_region, x ∈ pre → er_end x < newstart) →
    at_gap pre rest newstart (length pre) (Best 0 0 0)).
  { intros Hp. split_and!; try done; try lia; [|by left].
    intros x Hx. specialize (Hrest x Hx).
    pose proof (regions_in_lo _ _ _ _ _ (gap_pos ex) (ok_regions _ Hok)
      (ltac:(rewrite Hrs; set_solver) : x ∈ ex_regions ex)). lia. }
  destruct pre as [|rp pre' _] using rev_ind; [apply Hbase; set_solver|].
  rewrite last_snoc. simpl.
  assert (Hin : rp ∈ ex_regions ex) by (rewrite Hrs; set_solver).
  pose proof (regions_in_lo _ _ _ _ _ (gap_pos ex) (ok_regions _ Hok) Hin) as Hrb.
  assert (Hord : ∀ x : extent_region, x ∈ pre' → er_end x < er_start rp).
  { intros x Hx. pose proof (ok_regions _ Hok) as Hr. rewrite Hrs, <-(assoc (++)) in Hr.
    apply regions_in_app in Hr as [Hp [Hr _]].
    pose proof (regions_in_pre _ _ _ _ _ (gap_pos ex) Hp Hx). pose proof (gap_pos ex). lia. }
  destruct (Z.geb_spec (er_end rp) newstart) as [Hge|Hlt].
  - assert (Hx : at_gap pre' (rp :: rest) newstart (length pre') (Best 0 0 0)).
    { split_and!; try done; try lia; [by rewrite Hrs, <-(assoc (++))|..|by left].
      - intros x Hx. specialize (Hord x Hx). specialize (Hpre rp ltac:(set_solver)). lia.
      - intros x [->|Hx]%elem_of_cons; [lia|]. specialize (Hrest x Hx).
        pose proof (regions_in_lo _ _ _ _ _ (gap_pos ex) (ok_regions _ Hok)
          (ltac:(rewrite Hrs; set_solver) : x ∈ ex_regions ex)). lia. }
    rewrite length_app, Nat.add_comm. eapply at_gap_skip; [done|by left|done|].
    intros _ ?. specialize (Hpre rp ltac:(set_solver)). lia.
  - apply Hbase. intros x [Hx| ->%list_elem_of_singleton]%elem_of_app; [|done].
    specialize (Hord x Hx). lia.
Qed.

(** The search finds a place, and without a boundary misses none: a first fit
    is the least one. *)
Lemma search_spec :
  match search ex subend size alignment skew boundary flags
    (align_up substart alignment skew) with
  | Some (r, last) => good r last ∧
      (has flags EX_FAST = true → boundary = 0 → ∀ r', place r' → r ≤ r')
  | None => boundary = 0 → ∀ r, ¬ place r
  end.
Proof using All.
  unfold search. set (ns := align_up substart alignment skew).
  destruct (skip_before_spec (ex_regions ex) ns [] None) as (pre&rest&E&Hrs&Hpre&Hrest);
    [done|set_solver|done|].
  simpl in E. rewrite E. pose proof (at_gap_start pre rest ns Hrs Hpre Hrest eq_refl) as Hat.
  set (ns' := match er_end <$> last pre with Some _ => _ | None => ns end) in *.
  pose proof (gap_loop_spec rest pre ns' (length pre) _ Hat) as Hg.
  assert (Hfail : ∀ b, exit_ok (GapFail b) →
    match (if negb (has flags EX_FAST) && negb (bestovh b =? 0)
      then Some (beststart b, bestlast b) else None) with
    | Some (r, last) => good r last ∧
        (has flags EX_FAST = true → boundary = 0 → ∀ r', place r' → r ≤ r')
    | None => boundary = 0 → ∀ r, ¬ place r
    end).
  { intros b [Hb Hc]. destruct (negb (has flags EX_FAST) && _) eqn:Ef.
    - apply andb_true_iff in Ef as [Hf Ho]. apply negb_true_iff in Hf, Ho. apply Z.eqb_neq in Ho.
      destruct Hb as [|Hb]; [done|]. split; [done|]. congruence.
    - intros Hb0 r Hr. destruct (Hc Hb0 r Hr) as [Hf Ho]. apply Z.eqb_neq in Ho.
      by rewrite Hf, Ho in Ef. }
  destruct (gap_loop _ _ _ _ _ _ _ _ _ _ _) as [r l|b|exend x l b]; [exact Hg|by apply Hfail|].
  destruct Hg as (p&q&H1&H2&H3). pose proof (tail_check_spec p q exend x l b H1 H2 H3) as Ht.
  destruct (tail_check _ _ _ _ _ _ _ _ _); [exact Ht|by apply Hfail|done].
Qed.
End gaps.

(** ** The call *)

Lemma alloc_subregion_start_spec DIAGNOSTIC ex substart subend size alignment skew boundary flags rp :
  ext_ok ex → ex_lock ex = false → has (ex_flags ex) EXF_EARLY = false → desc_ok ex rp →
  request_ok ex substart subend size alignment skew boundary flags →
  ∃ ex' v, alloc_subregion_start DIAGNOSTIC ex substart subend size alignment skew boundary flags rp
      = Ok (ex', v) ∧ v ≠ SleepsDesc ∧
    alloc_outcome false false ex ex' v [rp]
      (λ r, placed ex substart subend size alignment skew boundary flags r ∧
        (has flags EX_FAST = true → boundary = 0 →
          ∀ r', placed ex substart subend size alignment skew boundary flags r' → r ≤ r'))
      (boundary = 0 → ∀ r, ¬ placed ex substart subend size alignment skew boundary flags r)
      size flags.
Proof.
  intros Hok Hl He Hrp Hrq. unfold alloc_subregion_start.
  assert (Hen : mutex_enter ex = Ok (entered ex))
    by (unfold mutex_enter, entered; by rewrite He, Hl).
  rewrite Hen. simpl. assert (Hlo := ok_lo _ Hok).
  assert (Hs0 := rq_lo _ _ _ _ _ _ _ _ Hrq). assert (Hs1 := rq_hi _ _ _ _ _ _ _ _ Hrq).
  assert (Hs2 := rq_room _ _ _ _ _ _ _ _ Hrq). assert (Hs3 := rq_size _ _ _ _ _ _ _ _ Hrq).
  destruct (EXTENT_ALIGN_request _ _ _ _ _ _ _ _ Hok Hrq substart ltac:(lia)) as [-> Hup].
  destruct (entered_props ex Hl) as (E1&E2&E3&E4&E5). destruct E2 as (Es&Ee&Ef).
  rewrite Es. replace (_ <? ex_start ex) with false by lia.
  assert (Hent : entered ex = set_lock ex true) by (unfold entered; by rewrite He).
  assert (Hse : search (entered ex) subend size alignment skew boundary flags
    (align_up substart alignment skew) = search ex subend size alignment skew boundary flags
    (align_up substart alignment skew)).
  { rewrite Hent. done. }
  rewrite Hse. pose proof (search_spec ex substart subend size alignment skew boundary flags
    Hok Hrq) as Hs. clear Hse.
  destruct (search ex _ _ _ _ _ _ _) as [[r last]|].
  - destruct Hs as [[Hpl (pre&post&Hrs&<-&Hpre&Hpost)] Hmin].
    destruct (insert_and_leave ex pre post r size rp) as (ex'&Hi&?&?&?&Ha&Hc); try done.
    { destruct Hpl as (?&_). lia. } { destruct Hpl as (_&?&_). lia. }
    apply bind_Ok in Hi as (ex1&Hi&Hlv). rewrite Hi. simpl.
    assert (Hf1 : has (ex_flags ex1) EXF_EARLY = false).
    { apply not_true_is_false. intros Hf1. unfold leave in Hlv. rewrite Hf1 in Hlv.
      injection Hlv as ->. assert (Hf : ex_flags ex' = ex_flags ex) by apply H0. congruence. }
    assert (Hlv' : mutex_exit ex1 = Ok ex') by (unfold leave in Hlv; by rewrite Hf1 in Hlv).
    rewrite Hlv'. simpl. exists ex', (Returned 0 r). by split_and!.
  - destruct (leave_and_free ex rp) as (ex'&Hlv&Hfree&?&?&?&?&?); try done.
    destruct (has flags EX_WAITSPACE) eqn:Hw.
    + rewrite cv_sleep_entered by done. simpl. exists ex, (SleepsSpace rp).
      unfold alloc_outcome. by split_and!.
    + assert (Hlv' : mutex_exit (entered ex) = Ok ex)
        by (unfold leave in Hlv; by rewrite Ef, He in Hlv).
      rewrite Hlv'. simpl. rewrite Hfree. exists ex', (Returned EAGAIN 0).
      unfold alloc_outcome. simpl. split_and!; try done. by left.
Qed.

(** C11: [extent_alloc_subregion1] (and so [extent_alloc], [extent_alloc1] and
    [extent_alloc_subregion], its calls) for a request that is [request_ok]:
    the alignment is a power of two, the end of the extent plus the alignment is
    below 2^64, the subregion lies inside the extent and holds [size] numbers,
    and a boundary is a power of two, a multiple of the alignment, at least
    [size], with its lines aligned; the extent is not an early one.  A call
    fails with ENOMEM, or sleeps for a descriptor, exactly when none can be had
    at once.  One that gets a descriptor and succeeds allocates exactly [size]
    numbers inside the subregion that were free, that start at the skew modulo
    the alignment and cross no boundary line; without a boundary it fails with
    EAGAIN, or sleeps for space, only when there is no such place, and with
    EX_FAST it takes the least one.  No descriptor is lost.  Rounding up past
    2^64 is excluded because the result can then overlap an allocated region
    ([extent_alloc_subregion_wraps] below). *)
Theorem extent_alloc_subregion1_spec (DIAGNOSTIC pool_ok : bool) ex
    substart subend size alignment skew boundary flags :
  ext_ok ex → ex_lock ex = false → has (ex_flags ex) EXF_EARLY = false →
  request_ok ex substart subend size alignment skew boundary flags →
  ∃ ex' v, extent_alloc_subregion1 DIAGNOSTIC pool_ok ex substart subend size alignment skew
      boundary flags = Ok (ex', v) ∧
    alloc_outcome (no_desc pool_ok ex flags) (desc_sleeps ex flags) ex ex' v []
      (λ r, placed ex substart subend size alignment skew boundary flags r ∧
        (has flags EX_FAST = true → boundary = 0 →
          ∀ r', placed ex substart subend size alignment skew boundary flags r' → r ≤ r'))
      (boundary = 0 → ∀ r, ¬ placed ex substart subend size alignment skew boundary flags r)
      size flags.
Proof.
  intros Hok Hl He Hrq. unfold extent_alloc_subregion1, alloc_subregion_checks.
  assert (Hlo := ok_lo _ Hok). assert (Hhi := ok_hi _ Hok).
  assert (Hs0 := rq_lo _ _ _ _ _ _ _ _ Hrq). assert (Hs1 := rq_hi _ _ _ _ _ _ _ _ Hrq).
  assert (Hs2 := rq_room _ _ _ _ _ _ _ _ Hrq). assert (Hs3 := rq_size _ _ _ _ _ _ _ _ Hrq).
  pose proof (alignment_pos _ _ _ _ _ _ _ _ Hrq) as Hap.
  rewrite (u64_small (subend - substart)) by (unfold is_u64; lia).
  replace (substart <? ex_start ex) with false by lia.
  replace (substart >? ex_end ex) with false by lia.
  replace (subend >? ex_end ex) with false by lia.
  replace (subend <? ex_start ex) with false by lia.
  replace (size <? 1) with false by lia.
  replace (size - 1 >? subend - substart) with false by lia.
  replace (alignment =? 0) with false by lia.
  assert (Hb : negb (boundary =? 0) && (boundary <? size) = false).
  { destruct (rq_bound _ _ _ _ _ _ _ _ Hrq) as [->|[? _]]; lia. }
  rewrite Hb, !andb_false_r. simpl. apply with_descriptor; try done.
  { intros Q. congruence. }
  intros ex1 rp Hok1 Hl1 Hm Hr Hrp. destruct (Hm) as (Hs&Hen&Hf).
  assert (Hrq1 : request_ok ex1 substart subend size alignment skew boundary flags).
  { destruct Hrq. split; rewrite ?Hs, ?Hen; try done. unfold bound_base in *. by rewrite Hs. }
  destruct (alloc_subregion_start_spec DIAGNOSTIC ex1 substart subend size alignment skew boundary
    flags rp) as (ex'&v&?&?&Hout); try done; [by rewrite Hf|].
  exists ex', v. split_and!; try done.
  assert (Hpl : placed ex1 substart subend size alignment skew boundary flags
    = placed ex substart subend size alignment skew boundary flags).
  { unfold placed, bound_base, range_free. by rewrite Hs, Hr. }
  by rewrite Hpl in Hout.
Qed.

Lemma extent_alloc_subregion1_spec_witness :
  ∃ ex' v, extent_alloc_subregion1 true false sample_ex 100 199 16 4 0 32 EX_BOUNDZERO
      = Ok (ex', v) ∧
    alloc_outcome false false sample_ex ex' v []
      (λ r, placed sample_ex 100 199 16 4 0 32 EX_BOUNDZERO r ∧
        (has EX_BOUNDZERO EX_FAST = true → 32 = 0 →
          ∀ r', placed sample_ex 100 199 16 4 0 32 EX_BOUNDZERO r' → r ≤ r'))
      (32 = 0 → ∀ r, ¬ placed sample_ex 100 199 16 4 0 32 EX_BOUNDZERO r) 16 EX_BOUNDZERO.
Proof.
  apply (extent_alloc_subregion1_spec true false sample_ex 100 199 16 4 0 32 EX_BOUNDZERO);
    [apply sample_ex_ok|reflexivity|reflexivity|].
  split; try (vm_compute; congruence).
  - exists 2. split; [lia|reflexivity].
  - split; [lia|reflexivity].
  - right. split; [lia|]. split; [exists 5; split; [lia|reflexivity]|].
    split; [exists 8; reflexivity|reflexivity].
Defined.

(** A thread that slept for space in [extent_alloc_subregion1] and is woken
    without an error jumps back to the label before [mutex_enter] with the mutex
    held, and waits for itself. *)
Lemma subregion_wake_deadlocks DIAGNOSTIC ex substart subend size alignment skew boundary flags rp :
  ex_lock ex = false → has (ex_flags ex) EXF_EARLY = false →
  alloc_subregion_wake DIAGNOSTIC ex substart subend size alignment skew boundary flags rp 0
  = Fault Deadlock.
Proof.
  intros Hl He. unfold alloc_subregion_wake, mutex_enter. rewrite He, Hl. simpl.
  unfold alloc_subregion_start, mutex_enter. simpl. by rewrite He.
Qed.

(** An extent of all numbers with one region, from 16 up. *)
Definition whole_ex : extent :=
  Extent false [ExtentRegion 16 (2 ^ 64 - 1) ER_ALLOC] 0 (2 ^ 64 - 1) 0 false [] 1.

(** Without the condition on rounding up the result can overlap an
    allocated region: past the region that ends at the largest number the next
    candidate wraps to 0, and a request for 32 numbers from 20 on gets those
    from 0, while the region that started at 16 is cut down to end at 31. *)
Example extent_alloc_subregion_wraps :
  ext_ok whole_ex ∧
  extent_alloc_subregion true true whole_ex 20 (2 ^ 64 - 1) 32 EX_NOALIGN EX_NOBOUNDARY EX_FAST =
    Ok (Extent false [ExtentRegion 16 31 ER_ALLOC] 0 (2 ^ 64 - 1) 0 false [] 1, Returned 0 0).
Proof.
  split; [|reflexivity].
  split; try done; unfold whole_ex; simpl; try lia; repeat constructor; try lia; by left.
Qed.
