(* ===== verification/Bufq.v ===== *)
(** * Device buffer queues: the common part (kern/subr_bufq.c,
      sys/bufq_impl.h)

    A queueing strategy is an instance of the class [Strategy], which holds the
    operations of [struct bufq_state]; the laws that the strategies promise to
    the users of a queue are the class [StrategyLaws].  The functions that work
    on any queue ([bufq_drain], [bufq_move]) are proved against the laws;
    [delivers] is what a user gets from them, in terms of the operations alone. *)

From stdpp Require Export strings.
From S2P Require Export Prelude.

Definition BUFQ_SORT_RAWBLOCK : Z := 0x0001.
Definition BUFQ_SORT_CYLINDER : Z := 0x0002.
Definition BUFQ_SORT_MASK : Z := 0x000f.
Definition BUFQ_EXACT : Z := 0x0010.
Definition B_READ : Z := 0x00100000.
Definition BPRIO_TIMECRITICAL : Z := 2.
Definition BPRIO_TIMELIMITED : Z := 1.
Definition BPRIO_TIMENONCRITICAL : Z := 0.
Definition ENOENT : Z := 2.
Definition EIO : Z := 5.
Definition EBUSY : Z := 16.

(** ** Requests

    The fields of [struct buf] that the queues look at; [b_addr] is the address
    of the buffer, by which pointers to it are compared. *)
Record buf := Buf {
  b_addr : Z;
  b_rawblkno : Z;
  b_cylinder : Z;
  b_bcount : Z;
  b_flags : Z;
  b_prio : Z;
}.

#[export] Instance buf_eq_dec : EqDecision buf.
Proof. solve_decision. Defined.

(** [bp == bq] on pointers. *)
Definition same (bp bq : buf) : bool := b_addr bp =? b_addr bq.
Definition is_read (bp : buf) : bool := b_flags bp .& B_READ =? B_READ.

(** [buf_inorder] on two buffers, and with null pointers as the code has it. *)
Definition inorder (bp bq : buf) (sortby : Z) : bool :=
  if sortby =? BUFQ_SORT_CYLINDER then
    if negb (b_cylinder bp =? b_cylinder bq) then b_cylinder bp <? b_cylinder bq
    else b_rawblkno bp <? b_rawblkno bq
  else b_rawblkno bp <? b_rawblkno bq.

Definition buf_inorder (bp bq : option buf) (sortby : Z) : res bool :=
  match bp, bq with
  | None, None => Fault Panic
  | Some bp, Some bq => mret (inorder bp bq sortby)
  | _, bq => mret (match bq with None => true | Some _ => false end)
  end.

(** ** Queues as the list macros see them *)

(** [TAILQ_REMOVE] of the buffer with the address of [bp]. *)
Fixpoint remove_buf (bp : buf) (l : list buf) : list buf :=
  match l with
  | [] => []
  | x :: l => if same x bp then l else x :: remove_buf bp l
  end.
(** The search loop of a cancellation. *)
Fixpoint find_buf (bp : buf) (l : list buf) : option buf :=
  match l with
  | [] => None
  | x :: l => if same x bp then Some x else find_buf bp l
  end.

(** ** The interface of a strategy

    [bs_get true] takes the next request off the queue, [bs_get false] only
    looks at it. *)
Class Strategy (S : Type) := {
  bs_init : Z → S;
  bs_put : Z → S → buf → res S;
  bs_get : Z → S → bool → res (S * option buf);
  bs_cancel : S → buf → S * option buf;
}.

(** The addresses of the requests on a queue are different. *)
Definition fresh (bp : buf) (l : list buf) : Prop := b_addr bp ∉ b_addr <$> l.
Definition distinct (l : list buf) : Prop := NoDup (b_addr <$> l).

#[export] Instance distinct_dec l : Decision (distinct l).
Proof. unfold distinct. apply _. Defined.

(** A request that [bufq_put] accepts. *)
Definition valid_buf (bp : buf) : Prop := 0 ≤ b_prio bp ≤ 2.

(** What every strategy promises: requests are neither lost nor made up, a get
    fails only on an empty queue, and a peek shows what the next get takes. *)
Class StrategyLaws (S : Type) `{Strategy S} := {
  contents : S → list buf;
  queue_ok : Z → S → Prop;
  contents_distinct sortby s : queue_ok sortby s → distinct (contents s);
  init_ok sortby : queue_ok sortby (bs_init sortby) ∧ contents (bs_init sortby) = [];
  put_ok sortby s bp :
    queue_ok sortby s → valid_buf bp → fresh bp (contents s) →
    ∃ s', bs_put sortby s bp = Ok s' ∧ queue_ok sortby s' ∧ contents s' ≡ₚ bp :: contents s;
  get_ok sortby s :
    queue_ok sortby s →
    ∃ s' o, bs_get sortby s true = Ok (s', o) ∧ queue_ok sortby s' ∧
      match o with
      | Some bp => contents s ≡ₚ bp :: contents s'
      | None => contents s = [] ∧ contents s' = []
      end;
  peek_ok sortby s :
    queue_ok sortby s →
    ∃ s' o, bs_get sortby s false = Ok (s', o) ∧ queue_ok sortby s' ∧ contents s' = contents s ∧
      ∃ s'', bs_get sortby s' true = Ok (s'', o);
  cancel_ok sortby s bp :
    queue_ok sortby s →
    let '(s', o) := bs_cancel s bp in
    queue_ok sortby s' ∧
    match o with
    | Some bp' => b_addr bp' = b_addr bp ∧ contents s ≡ₚ bp' :: contents s'
    | None => s' = s ∧ fresh bp (contents s)
    end;
}.

(** ** Operations on any queue *)
Section queues.
Context {S : Type} `{Strategy S} (sortby : Z).

Definition bufq_put (s : S) (bp : buf) : res S := bs_put sortby s bp.
Definition bufq_get (s : S) : res (S * option buf) := bs_get sortby s true.
Definition bufq_peek (s : S) : res (S * option buf) := bs_get sortby s false.
Definition bufq_cancel (s : S) (bp : buf) : S * option buf := bs_cancel s bp.

(** A request that [biodone] is called on: the request, its [b_error] and its
    [b_resid]. *)
Definition done_with_error (bp : buf) : buf * Z * Z := (bp, EIO, b_bcount bp).

Fixpoint bufq_drain (fuel : nat) (s : S) : res (S * list (buf * Z * Z)) :=
  match fuel with
  | O => Fault NoFuel
  | Datatypes.S fuel =>
    '(s, o) ← bufq_get s;
    match o with
    | None => mret (s, [])
    | Some bp =>
      '(s, done) ← bufq_drain fuel s;
      mret (s, done_with_error bp :: done)
    end
  end.

End queues.

(** The queues of [bufq_move] may have different strategies. *)
Fixpoint bufq_move {S T : Type} `{Strategy S} `{Strategy T} (sort_src sort_dst : Z)
    (fuel : nat) (dst : T) (src : S) : res (T * S) :=
  match fuel with
  | O => Fault NoFuel
  | Datatypes.S fuel =>
    '(src, o) ← bufq_get sort_src src;
    match o with
    | None => mret (dst, src)
    | Some bp => dst ← bufq_put sort_dst dst bp; bufq_move sort_src sort_dst fuel dst src
    end
  end.

(** ** Histories of a queue *)
Inductive queue_op :=
  | OpPut (bp : buf)
  | OpGet
  | OpPeek
  | OpCancel (bp : buf).

Section history.
Context {S : Type} `{Strategy S} (sortby : Z).

(** One operation: the new state and the request it hands to the caller. *)
Definition queue_step (s : S) (op : queue_op) : res (S * option buf) :=
  match op with
  | OpPut bp => s ← bufq_put sortby s bp; mret (s, None)
  | OpGet => bufq_get sortby s
  | OpPeek => '(s, _) ← bufq_peek sortby s; mret (s, None)
  | OpCancel bp => mret (bufq_cancel s bp)
  end.

(** A run: the requests handed out, in order. *)
Fixpoint queue_run (s : S) (ops : list queue_op) : res (S * list buf) :=
  match ops with
  | [] => mret (s, [])
  | op :: ops =>
    '(s, o) ← queue_step s op;
    '(s, out) ← queue_run s ops;
    mret (s, option_list o ++ out)
  end.
End history.

Definition op_puts (op : queue_op) : list buf := match op with OpPut bp => [bp] | _ => [] end.

(** [l] without the request [o], compared as a whole. *)
Definition without (o : option buf) (l : list buf) : list buf :=
  match o with Some bp => list_difference l [bp] | None => l end.

(** What a user of a queue must respect, by its own account of the requests
    that it put and did not get back ([pending]): a request that is put is valid
    and its address is not that of a pending one. *)
Fixpoint caller_ok {S : Type} `{Strategy S} (sortby : Z) (s : S) (pending : list buf)
    (ops : list queue_op) : Prop :=
  match ops with
  | [] => True
  | op :: ops =>
    match op with OpPut bp => valid_buf bp ∧ fresh bp pending | _ => True end ∧
    match queue_step sortby s op with
    | Ok (s, o) => caller_ok sortby s (without o (op_puts op ++ pending)) ops
    | Fault _ => True
    end
  end.

#[export] Instance caller_ok_dec {S : Type} `{Strategy S} sortby (s : S) pending ops :
  Decision (caller_ok sortby s pending ops).
Proof.
  revert s pending. induction ops as [|op ops IH]; intros s pending; simpl; [apply _|].
  apply and_dec; [destruct op; unfold valid_buf, fresh; apply _|].
  destruct (queue_step sortby s op) as [[s' o]|]; [apply IH|apply _].
Defined.

(** What a strategy is for.  From the empty queue, every history of a careful
    user runs without a fault; a drain of the queue it ends in stops, and the
    requests handed out together with those the drain completes (each with EIO
    and all of its bytes residual) are those put; a peek shows what the next get
    takes. *)
Definition delivers (S : Type) `{Strategy S} (sortby : Z) : Prop :=
  ∀ ops, caller_ok sortby (bs_init sortby) [] ops →
  ∃ s out, queue_run sortby (bs_init sortby) ops = Ok (s, out) ∧
    (∃ s' rest, bufq_drain sortby (Datatypes.S (length (ops ≫= op_puts))) s =
        Ok (s', done_with_error <$> rest) ∧
      (ops ≫= op_puts) ≡ₚ out ++ rest) ∧
    ∃ s1 s2 o, bufq_peek sortby s = Ok (s1, o) ∧ bufq_get sortby s1 = Ok (s2, o).

(** ** Lemmas on the list operations *)

Lemma same_true bp bq : same bp bq = true ↔ b_addr bp = b_addr bq.
Proof. apply Z.eqb_eq. Qed.

Lemma find_buf_Some bp l x : find_buf bp l = Some x → x ∈ l ∧ b_addr x = b_addr bp.
Proof.
  induction l as [|y l IH]; simpl; [done|]. destruct (same y bp) eqn:E; intros Hx; simplify_eq.
  - split; [set_solver|by apply same_true].
  - destruct (IH Hx). split; [set_solver|done].
Qed.
Lemma find_buf_None bp l : find_buf bp l = None → fresh bp l.
Proof.
  unfold fresh. induction l as [|y l IH]; simpl; [set_solver|].
  destruct (same y bp) eqn:E; [done|]. intros Hx. apply not_elem_of_cons. split; [|by apply IH].
  intros Ha. assert (same y bp = true) by (by apply same_true). congruence.
Qed.

Lemma remove_buf_perm bp l x :
  find_buf bp l = Some x → l ≡ₚ x :: remove_buf bp l.
Proof.
  induction l as [|y l IH]; simpl; [done|]. destruct (same y bp) eqn:E; intros Hx; simplify_eq.
  - done.
  - rewrite (IH Hx) at 1. constructor.
Qed.

Lemma remove_buf_fresh bp l : fresh bp l → remove_buf bp l = l.
Proof.
  unfold fresh. induction l as [|y l IH]; simpl; [done|]. intros Hn.
  apply not_elem_of_cons in Hn as [Hne Hn]. destruct (same y bp) eqn:E.
  - by apply same_true in E.
  - by rewrite IH.
Qed.

Lemma distinct_perm l k : l ≡ₚ k → distinct l → distinct k.
Proof. unfold distinct. by intros ->. Qed.
#[export] Instance distinct_proper : Proper ((≡ₚ) ==> iff) distinct.
Proof. intros l k E. split; [by apply distinct_perm|]. apply distinct_perm. by symmetry. Qed.
#[export] Instance fresh_proper bp : Proper ((≡ₚ) ==> iff) (fresh bp).
Proof. intros l k E. unfold fresh. by rewrite E. Qed.

Lemma distinct_cons bp l : distinct (bp :: l) ↔ fresh bp l ∧ distinct l.
Proof. unfold distinct, fresh. rewrite fmap_cons. apply NoDup_cons. Qed.

(** The order of requests is a strict weak order. *)
Lemma inorder_irrefl bp sortby : inorder bp bp sortby = false.
Proof. unfold inorder. rewrite Z.eqb_refl. simpl. repeat case_match; lia. Qed.
Lemma inorder_trans bp bq br sortby :
  inorder bp bq sortby = true → inorder bq br sortby = true → inorder bp br sortby = true.
Proof. unfold inorder. repeat case_match; lia. Qed.
Lemma inorder_asym bp bq sortby : inorder bp bq sortby = true → inorder bq bp sortby = false.
Proof. unfold inorder. repeat case_match; lia. Qed.
Lemma inorder_neg_trans bp bq br sortby :
  inorder bp bq sortby = false → inorder bq br sortby = false → inorder bp br sortby = false.
Proof. unfold inorder. repeat case_match; lia. Qed.
Lemma inorder_le_lt bp bq br sortby :
  inorder bq bp sortby = false → inorder bq br sortby = true → inorder bp br sortby = true.
Proof. unfold inorder. repeat case_match; lia. Qed.
Lemma inorder_lt_le bp bq br sortby :
  inorder bp bq sortby = true → inorder br bq sortby = false → inorder bp br sortby = true.
Proof. unfold inorder. repeat case_match; lia. Qed.

(** ** Ascending lists of requests *)

Definition ascending (sortby : Z) (l : list buf) : Prop :=
  StronglySorted (λ x y, inorder y x sortby = false) l.

Section ascending.
Context (sortby : Z).

Lemma ascending_cons x l :
  ascending sortby (x :: l) ↔ ascending sortby l ∧ ∀ y, y ∈ l → inorder y x sortby = false.
Proof using Type.
  unfold ascending. split.
  - intros [? Hf]%StronglySorted_inv. split; [done|]. by apply Forall_forall.
  - intros [? Hf]. constructor; [done|]. by apply Forall_forall.
Qed.

#[export] Instance ascending_dec l : Decision (ascending sortby l).
Proof using Type.
  induction l as [|x l IH]; [left; constructor|].
  destruct IH as [Hl|Hl]; [|right; intros [? _]%ascending_cons; done].
  destruct (decide (Forall (λ y, inorder y x sortby = false) l)) as [Hf|Hf].
  - left. constructor; done.
  - right. intros [_ Hx]%ascending_cons. apply Hf. by apply Forall_forall.
Defined.

Lemma ascending_remove bp l : ascending sortby l → ascending sortby (remove_buf bp l).
Proof using Type.
  induction l as [|x l IH]; simpl; [done|]. intros [Hl Hx]%ascending_cons.
  case_match; [done|]. apply ascending_cons. split; [by apply IH|].
  intros y Hy. apply Hx. destruct (find_buf bp l) eqn:Ef.
  - rewrite (remove_buf_perm _ _ _ Ef). by right.
  - by rewrite remove_buf_fresh in Hy by (by apply find_buf_None).
Qed.
End ascending.

Lemma filter_keep (P : buf → Prop) `{∀ x, Decision (P x)} (l : list buf) :
  (∀ x, x ∈ l → P x) → filter P l = l.
Proof.
  induction l as [|x l IH]; intros HP; [done|].
  rewrite filter_cons_True by (apply HP; set_solver). f_equal. apply IH. set_solver.
Qed.
Lemma filter_drop (P : buf → Prop) `{∀ x, Decision (P x)} (l : list buf) :
  (∀ x, x ∈ l → ¬ P x) → filter P l = [].
Proof.
  induction l as [|x l IH]; intros HP; [done|].
  rewrite filter_cons_False by (apply HP; set_solver). apply IH. set_solver.
Qed.

Lemma remove_buf_app bp c n :
  remove_buf bp (c ++ n) =
    match find_buf bp c with Some _ => remove_buf bp c ++ n | None => c ++ remove_buf bp n end.
Proof.
  induction c as [|x c IH]; simpl; [done|]. destruct (same x bp); [done|].
  rewrite IH. by destruct (find_buf bp c).
Qed.
Lemma find_buf_app bp c n :
  find_buf bp (c ++ n) = match find_buf bp c with Some x => Some x | None => find_buf bp n end.
Proof. induction c as [|x c IH]; simpl; [done|]. by destruct (same x bp). Qed.

Lemma find_buf_fresh bp l : fresh bp l → find_buf bp l = None.
Proof.
  unfold fresh. induction l as [|y l IH]; simpl; [done|]. intros Hf.
  apply not_elem_of_cons in Hf as [Hne Hf]. destruct (same y bp) eqn:E; [|by apply IH].
  by apply same_true in E.
Qed.
(** The buffer that is found is the one asked for when it is on the list. *)
Lemma find_buf_elem bp l : distinct l → bp ∈ l → find_buf bp l = Some bp.
Proof.
  induction l as [|y l IH]; [set_solver|]. intros [Hf Hd]%distinct_cons Hin. simpl.
  apply elem_of_cons in Hin as [->|Hin].
  - by rewrite (proj2 (same_true y y)) by done.
  - destruct (same y bp) eqn:E; [|by apply IH]. apply same_true in E. exfalso. apply Hf.
    rewrite E. by apply list_elem_of_fmap_2.
Qed.
Lemma remove_buf_mid bp n c : fresh bp n → remove_buf bp (n ++ bp :: c) = n ++ c.
Proof.
  intros Hf. rewrite remove_buf_app, find_buf_fresh by done. simpl.
  by rewrite (proj2 (same_true bp bp)) by done.
Qed.
Lemma distinct_app l k :
  distinct (l ++ k) ↔ distinct l ∧ distinct k ∧ ∀ x, x ∈ l → fresh x k.
Proof.
  induction l as [|y l IH]; simpl.
  { split; [intros; split_and!; [constructor|done|set_solver]|naive_solver]. }
  rewrite !distinct_cons, IH. unfold fresh. rewrite fmap_app. setoid_rewrite elem_of_cons.
  set_solver.
Qed.

Lemma fresh_app bp l k : fresh bp (l ++ k) ↔ fresh bp l ∧ fresh bp k.
Proof. unfold fresh. rewrite fmap_app, not_elem_of_app. done. Qed.
Lemma distinct_mid l h k : distinct (l ++ h :: k) → fresh h l ∧ fresh h k ∧ distinct (l ++ k).
Proof. rewrite <-Permutation_middle, distinct_cons, fresh_app. naive_solver. Qed.

Lemma remove_buf_subset bp l (x : buf) : x ∈ remove_buf bp l → x ∈ l.
Proof.
  induction l as [|y l IH]; simpl; [done|]. case_match; [by right|].
  intros [->|?]%elem_of_cons; [by left|right; auto].
Qed.

Lemma distinct_remove bp l : distinct l → distinct (remove_buf bp l).
Proof.
  intros Hd. destruct (find_buf bp l) as [x|] eqn:E.
  - rewrite (remove_buf_perm _ _ _ E) in Hd. by apply distinct_cons in Hd as [_ ?].
  - by rewrite remove_buf_fresh by (by apply find_buf_None).
Qed.

(** ** What the laws give a user of a queue *)
Section users.
Context {S : Type} `{L : StrategyLaws S} (sortby : Z).

(** The puts of a history are of valid requests that are not on the queue. *)
Fixpoint history_ok (s : S) (ops : list queue_op) : Prop :=
  match ops with
  | [] => True
  | op :: ops =>
    match op with OpPut bp => valid_buf bp ∧ fresh bp (contents s) | _ => True end ∧
    match queue_step sortby s op with
    | Ok (s, _) => history_ok s ops
    | Fault _ => True
    end
  end.

Lemma queue_step_ok s op :
  queue_ok sortby s →
  match op with OpPut bp => valid_buf bp ∧ fresh bp (contents s) | _ => True end →
  ∃ s' o, queue_step sortby s op = Ok (s', o) ∧ queue_ok sortby s' ∧
    op_puts op ++ contents s ≡ₚ option_list o ++ contents s'.
Proof using Type.
  intros Hok Hop. destruct op as [bp| | |bp]; simpl.
  - destruct Hop as [Hv Hf]. destruct (put_ok sortby s bp Hok Hv Hf) as (s'&E&?&?).
    unfold bufq_put. rewrite E. simpl. by exists s', None.
  - destruct (get_ok sortby s Hok) as (s'&o&E&?&Hc). unfold bufq_get. rewrite E.
    exists s', o. split_and!; try done. destruct o; [done|]. by destruct Hc as [-> ->].
  - destruct (peek_ok sortby s Hok) as (s'&o&E&?&Hc&_). unfold bufq_peek. rewrite E. simpl.
    exists s', None. split_and!; try done. by rewrite Hc.
  - pose proof (cancel_ok sortby s bp Hok) as Hc. unfold bufq_cancel.
    destruct (bs_cancel s bp) as [s' o]. destruct Hc as [? Hc]. exists s', o.
    split_and!; try done. destruct o; [apply Hc|]. destruct Hc as [-> _]. done.
Qed.

Lemma queue_run_ok ops : ∀ s,
  queue_ok sortby s → history_ok s ops →
  ∃ s' out, queue_run sortby s ops = Ok (s', out) ∧ queue_ok sortby s' ∧
    contents s ++ (ops ≫= op_puts) ≡ₚ out ++ contents s'.
Proof using Type.
  induction ops as [|op ops IH]; intros s Hok Hh; simpl.
  { exists s, []. split_and!; try done. by rewrite app_nil_r. }
  destruct Hh as [Hop Hh]. destruct (queue_step_ok s op Hok Hop) as (s1&o&E&Hok1&Hp).
  rewrite E in Hh |- *. simpl. destruct (IH s1 Hok1 Hh) as (s2&out&E2&Hok2&Hp2).
  rewrite E2. simpl. exists s2, (option_list o ++ out). split_and!; try done.
  rewrite <-(assoc (++)), <-Hp2, (assoc (++)), (assoc (++)), <-Hp.
  f_equiv; [|done]. by rewrite Permutation_app_comm.
Qed.

Lemma without_perm o l k : distinct l → l ≡ₚ option_list o ++ k → without o l ≡ₚ k.
Proof using Type.
  intros Hd Hp. destruct o as [bp|]; simpl in *; [|done]. rewrite Hp in Hd.
  apply distinct_cons in Hd as [Hf Hd].
  assert (Hn : NoDup l).
  { rewrite Hp. apply NoDup_cons. split; [|by eapply NoDup_fmap_1].
    intros Hin. apply Hf. by apply list_elem_of_fmap_2. }
  apply NoDup_Permutation; [by apply NoDup_list_difference|by eapply NoDup_fmap_1|].
  intros x. rewrite list_elem_of_difference, Hp, elem_of_cons, list_elem_of_singleton.
  split; [intros [[?|?] ?]; done|]. intros Hx. split; [by right|]. intros ->.
  apply Hf. by apply list_elem_of_fmap_2.
Qed.

(** The user's account and the contents of the queue are the same requests. *)
Lemma caller_history ops : ∀ s pending,
  queue_ok sortby s → pending ≡ₚ contents s → caller_ok sortby s pending ops → history_ok s ops.
Proof using Type.
  induction ops as [|op ops IH]; intros s pending Hok Hp; simpl; [done|].
  intros [Hop Hh].
  assert (Hop' : match op with OpPut bp => valid_buf bp ∧ fresh bp (contents s) | _ => True end).
  { destruct op; try done. by rewrite <-Hp. }
  split; [done|]. destruct (queue_step_ok s op Hok Hop') as (s1&o&E&Hok1&Hc).
  rewrite E in Hh |- *. apply (IH s1 (without o (op_puts op ++ pending))); [done| |done].
  apply without_perm; [|by rewrite Hp].
  rewrite Hp. destruct op as [bp| | |bp]; simpl; [apply distinct_cons; split; [apply Hop'|]|..];
    by eapply contents_distinct.
Qed.

Lemma drain_ok fuel : ∀ s,
  queue_ok sortby s → (length (contents s) < fuel)%nat →
  ∃ s' l, bufq_drain sortby fuel s = Ok (s', done_with_error <$> l) ∧ queue_ok sortby s' ∧
    contents s' = [] ∧ l ≡ₚ contents s.
Proof using Type.
  induction fuel as [|fuel IH]; intros s Hok Hlt; [lia|]. simpl.
  destruct (get_ok sortby s Hok) as (s1&o&E&Hok1&Hc). unfold bufq_get at 1. rewrite E. simpl.
  destruct o as [bp|].
  - destruct (IH s1 Hok1) as (s2&l&E2&Hok2&He&Hl).
    { rewrite Hc in Hlt. simpl in Hlt. lia. }
    rewrite E2. simpl. exists s2, (bp :: l). split_and!; try done. by rewrite Hc, Hl.
  - destruct Hc as [Hc Hc1]. exists s1, []. split_and!; try done. by rewrite Hc.
Qed.

Lemma laws_deliver : delivers S sortby.
Proof using L.
  intros ops Hops. destruct (init_ok sortby) as [Hi Hc].
  apply (caller_history ops _ []) in Hops; [|done|by rewrite Hc].
  destruct (queue_run_ok ops _ Hi Hops) as (s&out&E&Hok&Hp). rewrite Hc in Hp. simpl in Hp.
  exists s, out. split; [done|]. split.
  - destruct (drain_ok (Datatypes.S (length (ops ≫= op_puts))) s Hok) as (s'&l&E2&_&_&Hl).
    { rewrite Hp, length_app. lia. }
    exists s', l. split; [done|]. by rewrite Hl.
  - destruct (peek_ok sortby s Hok) as (s1&o&E1&_&_&s2&E2). by exists s1, s2, o.
Qed.
End users.

(** [bufq_drain] ends with the queue empty, after it has completed every
    request on it once, with the error EIO and all of its bytes residual. *)
Lemma drain_completes {S : Type} `{L : StrategyLaws S} (sortby : Z) s :
  queue_ok sortby s →
  ∃ s' l, bufq_drain sortby (Datatypes.S (length (contents s))) s = Ok (s', done_with_error <$> l) ∧
    contents s' = [] ∧ l ≡ₚ contents s.
Proof.
  intros Hok. destruct (drain_ok sortby (Datatypes.S (length (contents s))) s Hok)
    as (s'&l&?&?&?&?); [lia|]. by exists s', l.
Qed.

(** [bufq_move] ends with the source empty and all of its requests on the
    other queue, whatever the two strategies are. *)
Lemma move_all {S T : Type} `{L : StrategyLaws S} `{K : StrategyLaws T}
    (sort_src sort_dst : Z) (dst : T) (src : S) :
  queue_ok sort_src src → queue_ok sort_dst dst → distinct (contents dst ++ contents src) →
  Forall valid_buf (contents src) →
  ∃ dst' src', bufq_move sort_src sort_dst (Datatypes.S (length (contents src))) dst src
      = Ok (dst', src') ∧
    queue_ok sort_dst dst' ∧ queue_ok sort_src src' ∧ contents src' = [] ∧
    contents dst' ≡ₚ contents dst ++ contents src.
Proof.
  remember (length (contents src)) as n eqn:En. revert dst src En.
  induction n as [|n IH]; intros dst src En Hs Hd Hdis Hv; simpl;
    destruct (get_ok sort_src src Hs) as (src1&o&E&Hs1&Hc); change (bs_get sort_src src true) with (bufq_get sort_src src) in E; rewrite E; simpl;
    (destruct o as [bp|];
      [|destruct Hc as [Hc Hc1]; exists dst, src1; split_and!; try done;
        by rewrite Hc, app_nil_r]).
  { apply Permutation_length in Hc. simpl in Hc. lia. }
  rewrite Hc in Hdis, Hv. inversion_clear Hv as [|? ? Hv1 Hv2].
  rewrite <-Permutation_middle in Hdis. apply distinct_cons in Hdis as [Hf Hdis].
  assert (Hfd : fresh bp (contents dst)).
  { unfold fresh in *. rewrite fmap_app in Hf. set_solver. }
  destruct (put_ok sort_dst dst bp Hd Hv1 Hfd) as (dst1&E1&Hd1&Hc1).
  change (bs_put sort_dst dst bp) with (bufq_put sort_dst dst bp) in E1. rewrite E1. simpl. destruct (IH dst1 src1) as (dst'&src'&E2&?&?&?&Hp); try done.
  - apply Permutation_length in Hc. simpl in Hc. lia.
  - rewrite Hc1. simpl. apply distinct_cons. done.
  - exists dst', src'. split_and!; try done. rewrite Hp, Hc1, Hc. simpl.
    by rewrite <-Permutation_middle.
Qed.

(** the two functions that empty a queue end, under any strategies.
    [bufq_drain] completes every request once, with the error EIO and all of its
    bytes residual; [bufq_move] puts every request on the other queue. *)
Lemma bufq_empties {S T : Type} `{L : StrategyLaws S} `{K : StrategyLaws T} (sort_src sort_dst : Z) (dst : T) (src : S) :
  queue_ok sort_src src →
  (∃ s' l, bufq_drain sort_src (Datatypes.S (length (contents src))) src = Ok (s', done_with_error <$> l) ∧
    contents s' = [] ∧ l ≡ₚ contents src) ∧
  (queue_ok sort_dst dst → distinct (contents dst ++ contents src) → Forall valid_buf (contents src) →
   ∃ dst' src', bufq_move sort_src sort_dst (Datatypes.S (length (contents src))) dst src = Ok (dst', src') ∧
     queue_ok sort_dst dst' ∧ queue_ok sort_src src' ∧ contents src' = [] ∧ contents dst' ≡ₚ contents dst ++ contents src).
Proof. intros Hs. split; [by apply drain_completes|]. intros. by apply move_all. Qed.

(** ** The registry of strategies *)
Record bufq_strat := BufqStrat {
  bs_name : string;
  bs_prio : Z;
  bs_refcnt : Z;
}.

Definition with_refcnt (bs : bufq_strat) (n : Z) : bufq_strat :=
  BufqStrat (bs_name bs) (bs_prio bs) n.

(** [bufq_strat_list]; a strategy is known by its name. *)
Definition registry := list bufq_strat.

Definition bufq_register (reg : registry) (name : string) (prio : Z) : registry :=
  BufqStrat name prio 0 :: reg.

Fixpoint find_strat (name : string) (reg : registry) : option bufq_strat :=
  match reg with
  | [] => None
  | it :: reg => if String.eqb name (bs_name it) then Some it else find_strat name reg
  end.
Fixpoint remove_strat (name : string) (reg : registry) : registry :=
  match reg with
  | [] => []
  | it :: reg => if String.eqb name (bs_name it) then reg else it :: remove_strat name reg
  end.
Fixpoint update_strat (name : string) (f : bufq_strat → bufq_strat) (reg : registry) : registry :=
  match reg with
  | [] => []
  | it :: reg => if String.eqb name (bs_name it) then f it :: reg else it :: update_strat name f reg
  end.

(** Unregistering a strategy that is not on the list follows a null pointer. *)
Definition bufq_unregister (reg : registry) (name : string) : res (registry * Z) :=
  match find_strat name reg with
  | None => Fault NullDeref
  | Some bs =>
    if negb (bs_refcnt bs =? 0) then mret (reg, EBUSY) else mret (remove_strat name reg, 0)
  end.

(** The loop over the list: the strategy chosen, and whether its name is the one
    asked for. *)
Fixpoint select (strategy : option string) (reg : registry) (bsp : option bufq_strat) :
    option bufq_strat * bool :=
  match reg with
  | [] => (bsp, false)
  | it :: reg =>
    if match strategy with Some name => String.eqb name (bs_name it) | None => false end then
      (Some it, true)
    else
      let better := match bsp with None => true | Some b => bs_prio it >? bs_prio b end in
      select strategy reg (if better then Some it else bsp)
  end.

(** The loop around it: [loads] are the registries found after each call of
    [module_autoload] that loaded a module, and so changed [module_gen]. *)
Fixpoint choose (strategy : option string) (reg : registry) (loads : list registry) :
    registry * option bufq_strat * bool :=
  let '(bsp, exact) := select strategy reg None in
  if match strategy with None => true | Some _ => exact end then (reg, bsp, exact)
  else
    match loads with
    | [] => (reg, bsp, exact)
    | reg :: loads => choose strategy reg loads
    end.

(** The sort order that is stored in the queue. *)
Definition sort_flags (flags : Z) : res Z :=
  let sort := flags .& BUFQ_SORT_MASK in
  if (sort =? BUFQ_SORT_RAWBLOCK) || (sort =? BUFQ_SORT_CYLINDER) then mret flags
  else if sort =? 0 then mret (flags .| BUFQ_SORT_RAWBLOCK)
  else Fault Panic.

(** The registry, the error, and the name of the strategy and the flags of the
    queue when there is no error. *)
Definition bufq_alloc (reg : registry) (strategy : option string) (flags : Z)
    (loads : list registry) : res (registry * Z * option (string * Z)) :=
  let want_exact := negb (flags .& BUFQ_EXACT =? 0) in
  if want_exact && bool_decide (strategy = None) then Fault Panic
  else
    flags ← sort_flags flags;
    let '(reg, bsp, exact) := choose strategy reg loads in
    match bsp with
    | None => Fault Panic
    | Some bs =>
      if bool_decide (strategy ≠ None) && negb exact && want_exact then mret (reg, ENOENT, None)
      else
        mret (update_strat (bs_name bs) (λ b, with_refcnt b (bs_refcnt b + 1)) reg, 0,
              Some (bs_name bs, flags))
    end.

(** [bufq_free] of an empty queue with the strategy [name]. *)
Definition bufq_free (reg : registry) (name : string) : registry :=
  update_strat name (λ b, with_refcnt b (bs_refcnt b - 1)) reg.

(** ** What the registry guarantees *)

Definition names (reg : registry) : list string := bs_name <$> reg.

Lemma elem_names name it reg : name ∈ names (it :: reg) ↔ name = bs_name it ∨ name ∈ names reg.
Proof. apply elem_of_cons. Qed.

Lemma find_strat_Some name reg bs : find_strat name reg = Some bs → bs ∈ reg ∧ bs_name bs = name.
Proof.
  induction reg as [|it reg IH]; simpl; [done|].
  destruct (String.eqb_spec name (bs_name it)); intros E; simplify_eq.
  - split; [set_solver|done].
  - destruct (IH E). split; [set_solver|done].
Qed.
Lemma find_strat_is_Some name reg : is_Some (find_strat name reg) ↔ name ∈ names reg.
Proof.
  induction reg as [|it reg IH]; [split; [by intros []|set_solver]|].
  cbn [find_strat]. rewrite elem_names.
  destruct (String.eqb_spec name (bs_name it)); [naive_solver|]. rewrite IH. naive_solver.
Qed.

Lemma find_update name name' f reg :
  (∀ b, bs_name (f b) = bs_name b) →
  find_strat name (update_strat name' f reg) =
    (if String.eqb name name' then f <$> find_strat name reg else find_strat name reg).
Proof.
  intros Hf. induction reg as [|it reg IH]; simpl; [by case_match|].
  destruct (String.eqb_spec name' (bs_name it)) as [->|Hne]; simpl; rewrite ?Hf.
  - by destruct (String.eqb_spec name (bs_name it)).
  - destruct (String.eqb_spec name (bs_name it)) as [->|]; [|apply IH].
    by destruct (String.eqb_spec (bs_name it) name').
Qed.

Lemma names_update name f reg :
  (∀ b, bs_name (f b) = bs_name b) → names (update_strat name f reg) = names reg.
Proof.
  intros Hf. unfold names. induction reg as [|it reg IH]; simpl; [done|].
  destruct (String.eqb_spec name (bs_name it)); simpl; [by rewrite Hf|]. f_equal. apply IH.
Qed.

Lemma find_remove name name' reg :
  name ≠ name' → find_strat name (remove_strat name' reg) = find_strat name reg.
Proof.
  intros Hne. induction reg as [|it reg IH]; simpl; [done|].
  destruct (String.eqb_spec name' (bs_name it)) as [->|]; simpl.
  - by destruct (String.eqb_spec name (bs_name it)).
  - by rewrite IH.
Qed.

(** The choice among the registered strategies. *)
Lemma select_spec strategy reg : ∀ bsp,
  match select strategy reg bsp with
  | (Some bs, true) => bs ∈ reg ∧ strategy = Some (bs_name bs)
  | (Some bs, false) =>
    (∀ name, strategy = Some name → name ∉ names reg) ∧ (bs ∈ reg ∨ bsp = Some bs) ∧
    (∀ it, it ∈ reg ∨ bsp = Some it → bs_prio it ≤ bs_prio bs)
  | (None, exact) => reg = [] ∧ bsp = None ∧ exact = false
  end.
Proof.
  induction reg as [|it reg IH]; intros bsp; cbn [select].
  { destruct bsp as [b|]; [|done]. split_and!; [set_solver|by right|].
    intros x [Hx|Hx]; [set_solver|]. by simplify_eq. }
  destruct (match strategy with Some name => _ | None => false end) eqn:Em.
  { destruct strategy as [name|]; [|done]. apply String.eqb_eq in Em as ->.
    split; [set_solver|done]. }
  set (bsp' := if match bsp with None => true | Some b => _ end then Some it else bsp).
  specialize (IH bsp'). destruct (select strategy reg bsp') as [[bs|] []].
  - destruct IH. split; [set_solver|done].
  - destruct IH as (H1&H2&H3). split_and!.
    + intros name ->. apply String.eqb_neq in Em. rewrite elem_names.
      intros [?|Hx]; [done|]. by apply (H1 name).
    + destruct H2 as [?|H2]; [left; set_solver|]. unfold bsp' in H2.
      destruct bsp as [b|]; [destruct (bs_prio it >? bs_prio b)|]; simplify_eq;
        [left; set_solver|by right|left; set_solver].
    + intros x Hx. unfold bsp' in *. destruct bsp as [b|].
      * destruct (Z.gtb_spec (bs_prio it) (bs_prio b)).
        -- assert (bs_prio it ≤ bs_prio bs) by (apply H3; by right).
           destruct Hx as [[->|Hx]%elem_of_cons|Hx]; [done|apply H3; by left|].
           simplify_eq. lia.
        -- assert (bs_prio b ≤ bs_prio bs) by (apply H3; by right).
           destruct Hx as [[->|Hx]%elem_of_cons|Hx]; [lia|apply H3; by left|by simplify_eq].
      * destruct Hx as [[->|Hx]%elem_of_cons|Hx]; [apply H3; by right|apply H3; by left|done].
  - destruct IH as (_&_&?). done.
  - destruct IH as (_&H2&_). unfold bsp' in H2. destruct bsp as [b|]; [|done]. by destruct (bs_prio it >? bs_prio b).
Qed.

Lemma choose_spec strategy loads : ∀ reg,
  let '(reg', bsp, exact) := choose strategy reg loads in
  reg' ∈ reg :: loads ∧ select strategy reg' None = (bsp, exact).
Proof.
  induction loads as [|r loads IH]; intros reg; simpl;
    destruct (select strategy reg None) as [bsp exact] eqn:E.
  - destruct (match strategy with None => true | Some _ => exact end); simpl;
      (split; [set_solver|done]).
  - destruct (match strategy with None => true | Some _ => exact end); simpl;
      [split; [set_solver|done]|]. specialize (IH r).
    destruct (choose strategy r loads) as [[reg' bsp'] exact']. destruct IH. split; [set_solver|done].
Qed.

(** [bufq_alloc] uses the strategy asked for when it is registered, at once
    or after an autoload; when it is not, it fails with ENOENT if the caller
    wants no other and else uses a strategy of the greatest priority, as it does
    for a caller that names none; it counts the new queue on that strategy only,
    and panics only for a bad sort order, an exact request without a name, or an
    empty registry. *)
Lemma bufq_alloc_spec reg strategy flags loads :
  Forall (λ r, r ≠ []) (reg :: loads) →
  (flags .& BUFQ_EXACT = 0 ∨ strategy ≠ None) →
  (flags .& BUFQ_SORT_MASK = 0 ∨ flags .& BUFQ_SORT_MASK = BUFQ_SORT_RAWBLOCK ∨
   flags .& BUFQ_SORT_MASK = BUFQ_SORT_CYLINDER) →
  ∃ reg1 reg' error q, reg1 ∈ reg :: loads ∧
    bufq_alloc reg strategy flags loads = Ok (reg', error, q) ∧
    match q with
    | None => error = ENOENT ∧ reg' = reg1 ∧ flags .& BUFQ_EXACT ≠ 0 ∧
        ∃ name, strategy = Some name ∧ name ∉ names reg1
    | Some (name, flags') => error = 0 ∧ flags' .& BUFQ_SORT_MASK ≠ 0 ∧
        (∃ bs, bs ∈ reg1 ∧ bs_name bs = name ∧
          (strategy = Some name ∨
           (∀ n, strategy = Some n → n ∉ names reg1 ∧ flags .& BUFQ_EXACT = 0) ∧
           ∀ it, it ∈ reg1 → bs_prio it ≤ bs_prio bs)) ∧
        ∀ n, find_strat n reg' = (λ b : bufq_strat,
          if String.eqb n name then with_refcnt b (bs_refcnt b + 1) else b) <$> find_strat n reg1
    end.
Proof.
  intros Hne Hex Hsort. unfold bufq_alloc.
  assert (Hg : negb (flags .& BUFQ_EXACT =? 0) && bool_decide (strategy = None) = false).
  { destruct Hex as [->|]; [done|]. rewrite bool_decide_false by done. apply andb_false_r. }
  rewrite Hg. assert (Hs : ∃ flags', sort_flags flags = Ok flags' ∧ flags' .& BUFQ_SORT_MASK ≠ 0).
  { unfold sort_flags. destruct Hsort as [E|[E|E]]; rewrite E; simpl;
      [|by exists flags; rewrite E..]. eexists. split; [done|].
    intros H. apply (f_equal (λ z, Z.testbit z 0)) in H. rewrite Z.land_spec, Z.lor_spec in H.
    simpl in H. by rewrite orb_true_r in H. }
  destruct Hs as (flags'&->&Hf). simpl. pose proof (choose_spec strategy loads reg) as Hc.
  destruct (choose strategy reg loads) as [[reg1 bsp] exact]. destruct Hc as [Hin Hsel].
  assert (Hne1 : reg1 ≠ []) by (by eapply (proj1 (Forall_forall _ _) Hne)).
  pose proof (select_spec strategy reg1 None) as Hspec. rewrite Hsel in Hspec.
  destruct bsp as [bs|]; [|by destruct Hspec].
  exists reg1. destruct exact.
  - destruct Hspec as [Hbs ->]. rewrite andb_false_r. simpl. eexists _, _, _. split; [done|].
    split; [done|]. split_and!; try done; [exists bs; by split_and!; [..|left]|].
    intros n. rewrite find_update by done. destruct (String.eqb_spec n (bs_name bs)); [done|].
    by destruct (find_strat n reg1).
  - destruct Hspec as (Hno&Hbs&Hmax). destruct Hbs as [Hbs|]; [|done]. rewrite andb_true_r.
    destruct (bool_decide (strategy ≠ None) && _) eqn:Ew.
    + apply andb_true_iff in Ew as [Hn Hw]. apply bool_decide_eq_true in Hn.
      destruct strategy as [name|]; [|done]. eexists _, _, _. split; [done|]. split; [done|].
      split_and!; try done; [|exists name; split; [done|by apply Hno]].
      by apply negb_true_iff, Z.eqb_neq in Hw.
    + eexists _, _, _. split; [done|]. split; [done|]. split_and!; try done.
      * exists bs. split_and!; try done. right. split; [|intros it Hit; apply Hmax; by left].
        intros n ->. split; [by apply Hno|]. rewrite bool_decide_true in Ew by done. simpl in Ew.
        by apply negb_false_iff, Z.eqb_eq in Ew.
      * intros n. rewrite find_update by done. destruct (String.eqb_spec n (bs_name bs)); [done|].
        by destruct (find_strat n reg1).
Qed.

(** ** Strategies and the queues that use them *)

(** How many of the queues [live] use the strategy [n]. *)
Definition users (n : string) (live : list string) : Z :=
  Z.of_nat (length (filter (λ m, m = n) live)).

(** What loading a module does to the registry. *)
Definition register_step (reg reg' : registry) : Prop :=
  ∃ name prio, name ∉ names reg ∧ reg' = bufq_register reg name prio.
Fixpoint loads_ok (reg : registry) (loads : list registry) : Prop :=
  match loads with
  | [] => True
  | r :: loads => rtc register_step reg r ∧ loads_ok r loads
  end.

(** The registry and the strategies of the queues in existence; a module is
    registered once, and only a queue that exists is freed. *)
Inductive reg_step : registry * list string → registry * list string → Prop :=
  | RegRegister reg reg' live :
      register_step reg reg' → reg_step (reg, live) (reg', live)
  | RegUnregister reg live name reg' error :
      bufq_unregister reg name = Ok (reg', error) → reg_step (reg, live) (reg', live)
  | RegAlloc reg live strategy flags loads reg' error q :
      loads_ok reg loads → bufq_alloc reg strategy flags loads = Ok (reg', error, q) →
      reg_step (reg, live) (reg', option_list (fst <$> q) ++ live)
  | RegFree reg l1 name l2 :
      reg_step (reg, l1 ++ name :: l2) (bufq_free reg name, l1 ++ l2).

Definition counted (s : registry * list string) : Prop :=
  NoDup (names s.1) ∧ ∀ n,
  match find_strat n s.1 with
  | Some b => bs_refcnt b = users n s.2
  | None => users n s.2 = 0
  end.

Lemma users_cons n m live : users n (m :: live) = (if String.eqb n m then 1 else 0) + users n live.
Proof.
  unfold users. rewrite filter_cons. destruct (String.eqb_spec n m) as [->|];
    [rewrite decide_True by done|rewrite decide_False by congruence]; simpl; lia.
Qed.
Lemma users_mid n m l1 l2 :
  users n (l1 ++ m :: l2) = (if String.eqb n m then 1 else 0) + users n (l1 ++ l2).
Proof.
  rewrite <-users_cons. unfold users. by rewrite <-Permutation_middle.
Qed.

Lemma counted_register reg reg' live :
  register_step reg reg' → counted (reg, live) → counted (reg', live).
Proof.
  intros (name&prio&Hn&->) [Hnd Hc]. split; [by constructor|]. intros n. specialize (Hc n). simpl in *.
  destruct (String.eqb_spec n name) as [->|]; [|done].
  destruct (find_strat name reg) eqn:E; [|done].
  exfalso. apply Hn, find_strat_is_Some. by rewrite E.
Qed.
Lemma counted_rtc reg reg' live :
  rtc register_step reg reg' → counted (reg, live) → counted (reg', live).
Proof. induction 1; eauto using counted_register. Qed.

Lemma counted_load reg loads live r :
  loads_ok reg loads → r ∈ reg :: loads → counted (reg, live) → counted (r, live).
Proof.
  revert reg. induction loads as [|r' loads IH]; intros reg Hl Hr Hc.
  { apply list_elem_of_singleton in Hr as ->. done. }
  destruct Hl as [Hr' Hl]. apply elem_of_cons in Hr as [->|Hr]; [done|].
  eapply IH; try done. by eapply counted_rtc.
Qed.

Lemma counted_update reg live live' name k :
  counted (reg, live) → name ∈ names reg →
  (∀ n, users n live' = (if String.eqb n name then k else 0) + users n live) →
  counted (update_strat name (λ b, with_refcnt b (bs_refcnt b + k)) reg, live').
Proof.
  intros [Hnd Hc] Hin Hu. split; simpl; [by rewrite names_update|]. intros n.
  specialize (Hc n). simpl in Hc. rewrite find_update, Hu by done.
  destruct (String.eqb_spec n name) as [->|].
  - apply find_strat_is_Some in Hin as [b Hb]. rewrite Hb in *. simpl. lia.
  - destruct (find_strat n reg); lia.
Qed.

(** The queue that [bufq_alloc] makes is counted. *)
Lemma counted_alloc reg live strategy flags loads reg' error q :
  loads_ok reg loads → bufq_alloc reg strategy flags loads = Ok (reg', error, q) →
  counted (reg, live) → counted (reg', option_list (fst <$> q) ++ live).
Proof.
  intros Hl Ha Hc. unfold bufq_alloc in Ha.
  destruct (_ && bool_decide (strategy = None)); [done|]. apply bind_Ok in Ha as (flags'&_&Ha).
  pose proof (choose_spec strategy loads reg) as Hch.
  destruct (choose strategy reg loads) as [[reg1 bsp] exact]. destruct Hch as [Hin Hsel].
  pose proof (counted_load reg loads live reg1 Hl Hin Hc) as Hc1.
  destruct bsp as [bs|]; [|done].
  destruct (bool_decide (strategy ≠ None) && negb exact && _); injection Ha as <- <- <-; [done|].
  apply (counted_update reg1 live _ (bs_name bs) 1 Hc1).
  - pose proof (select_spec strategy reg1 None) as Hs. rewrite Hsel in Hs.
    assert (Hb : bs ∈ reg1) by (destruct exact; [apply Hs|by destruct Hs as (_&[]&_)]).
    by apply list_elem_of_fmap_2.
  - intros n. apply users_cons.
Qed.

Lemma names_remove name reg n : n ∈ names (remove_strat name reg) → n ∈ names reg.
Proof.
  induction reg as [|it reg IH]; cbn [remove_strat]; [done|]. case_match; rewrite ?elem_names; naive_solver.
Qed.
Lemma NoDup_remove name reg : NoDup (names reg) → NoDup (names (remove_strat name reg)).
Proof.
  induction reg as [|it reg IH]; cbn [remove_strat]; [done|].
  intros [Hn Hd]%NoDup_cons. case_match; [done|].
  apply NoDup_cons. split; [|by apply IH]. intros Hx. by apply names_remove in Hx.
Qed.
Lemma find_remove_same name reg :
  NoDup (names reg) → find_strat name (remove_strat name reg) = None.
Proof.
  induction reg as [|it reg IH]; [done|]. intros [Hn Hd]%NoDup_cons. simpl.
  destruct (String.eqb_spec name (bs_name it)) as [->|Hne]; simpl.
  - apply eq_None_not_Some. by rewrite find_strat_is_Some.
  - apply String.eqb_neq in Hne as ->. by apply IH.
Qed.

Lemma reg_step_counted s s' : reg_step s s' → counted s → counted s'.
Proof.
  intros Hs Hc. destruct Hs as [reg reg' live Hr|reg live name reg' error Hu
    |reg live strategy flags loads reg' error q Hl Ha|reg l1 name l2].
  - by eapply counted_register.
  - unfold bufq_unregister in Hu. destruct (find_strat name reg) as [b|] eqn:E; [|done].
    destruct (Z.eqb_spec (bs_refcnt b) 0) as [H0|]; simpl in Hu; injection Hu as <- <-; [|done].
    destruct Hc as [Hnd Hc]. split; [by apply NoDup_remove|]. intros n. simpl.
    destruct (decide (n = name)) as [->|Hne].
    + rewrite find_remove_same by done. specialize (Hc name). simpl in Hc. rewrite E in Hc. lia.
    + rewrite find_remove by done. apply Hc.
  - by eapply counted_alloc.
  - change (counted (bufq_free reg name, l1 ++ l2)).
    apply (counted_update reg (l1 ++ name :: l2) (l1 ++ l2) name (-1)); [done| |].
    + apply find_strat_is_Some. destruct Hc as [_ Hc]. specialize (Hc name). simpl in Hc.
      rewrite users_mid, String.eqb_refl in Hc. destruct (find_strat name reg); [done|].
      unfold users in Hc. lia.
    + intros n. rewrite users_mid. case_match; lia.
Qed.

(** C16: in every history of registrations, unregistrations, creations and
    destructions of queues the count of a strategy is the number of queues that
    use it, and a strategy that a queue uses stays registered: an attempt to
    unregister it fails with EBUSY and changes nothing. *)
Theorem registry_keeps_used reg live :
  rtc reg_step ([], []) (reg, live) →
  ∀ name, name ∈ live → ∃ bs, find_strat name reg = Some bs ∧ bs_refcnt bs = users name live ∧
    bufq_unregister reg name = Ok (reg, EBUSY).
Proof.
  intros Hr. assert (Hc : counted (reg, live)).
  { assert (Hg : ∀ s s', rtc reg_step s s' → counted s → counted s')
      by (induction 1; eauto using reg_step_counted).
    eapply Hg; [done|]. split; [constructor|done]. }
  intros name Hin. destruct Hc as [_ Hc]. specialize (Hc name). simpl in Hc.
  assert (Hu : users name live ≠ 0).
  { apply list_elem_of_split in Hin as (l1&l2&->). rewrite users_mid, String.eqb_refl.
    unfold users. lia. }
  unfold bufq_unregister. destruct (find_strat name reg) as [bs|]; [|done].
  exists bs. split_and!; try done. destruct (Z.eqb_spec (bs_refcnt bs) 0); [lia|done].
Qed.

Lemma registry_keeps_used_witness :
  ∃ bs, find_strat "fcfs" [BufqStrat "fcfs" 10 1] = Some bs ∧ bs_refcnt bs = users "fcfs" ["fcfs"] ∧
    bufq_unregister [BufqStrat "fcfs" 10 1] "fcfs" = Ok ([BufqStrat "fcfs" 10 1], EBUSY).
Proof.
  apply (registry_keeps_used [BufqStrat "fcfs" 10 1] ["fcfs"]); [|by left].
  eapply rtc_l; [apply (RegRegister [] (bufq_register [] "fcfs" 10) [])|].
  { exists "fcfs", 10. split; [apply not_elem_of_nil|reflexivity]. }
  apply rtc_once. apply (RegAlloc _ _ (Some "fcfs") 0 [] _ 0 (Some ("fcfs", BUFQ_SORT_RAWBLOCK)));
    reflexivity || exact I.
Defined.

Lemma bufq_alloc_spec_witness :
  ∃ reg1 reg' error q, reg1 ∈ [[BufqStrat "fcfs" 10 0]] ∧
    bufq_alloc [BufqStrat "fcfs" 10 0] (Some "none") BUFQ_EXACT [] = Ok (reg', error, q) ∧
    match q with
    | None => error = ENOENT ∧ reg' = reg1 ∧ BUFQ_EXACT .& BUFQ_EXACT ≠ 0 ∧
        ∃ name, Some "none" = Some name ∧ name ∉ names reg1
    | Some (name, flags') => error = 0 ∧ flags' .& BUFQ_SORT_MASK ≠ 0 ∧
        (∃ bs, bs ∈ reg1 ∧ bs_name bs = name ∧
          (Some "none" = Some name ∨
           (∀ n, Some "none" = Some n → n ∉ names reg1 ∧ BUFQ_EXACT .& BUFQ_EXACT = 0) ∧
           ∀ it, it ∈ reg1 → bs_prio it ≤ bs_prio bs)) ∧
        ∀ n, find_strat n reg' = (λ b : bufq_strat,
          if String.eqb n name then with_refcnt b (bs_refcnt b + 1) else b) <$> find_strat n reg1
    end.
Proof.
  apply (bufq_alloc_spec [BufqStrat "fcfs" 10 0] (Some "none") BUFQ_EXACT []).
  - by repeat constructor.
  - by right.
  - by left.
Defined.
