(* ===== verification/BufqSort.v ===== *)
(** * Device buffer queues: the strategies fcfs and disksort
      (kern/bufq_fcfs.c, kern/bufq_disksort.c)

    A [TAILQ] is the list of its buffers.  For disksort, an abstract elevator
    with a list for the current sweep and one for the next is what the single
    list of the code implements. *)

From S2P Require Export Prelude Bufq.

(** ** First come, first served *)

Record bufq_fcfs := Fcfs { fcfs_head : list buf }.

Definition bufq_fcfs_init (sortby : Z) : bufq_fcfs := Fcfs [].
Definition bufq_fcfs_put (sortby : Z) (fcfs : bufq_fcfs) (bp : buf) : res bufq_fcfs :=
  mret (Fcfs (fcfs_head fcfs ++ [bp])).
Definition bufq_fcfs_get (sortby : Z) (fcfs : bufq_fcfs) (remove : bool) :
    res (bufq_fcfs * option buf) :=
  match fcfs_head fcfs with
  | [] => mret (fcfs, None)
  | bp :: l => mret (if remove then Fcfs l else fcfs, Some bp)
  end.
Definition bufq_fcfs_cancel (fcfs : bufq_fcfs) (bp : buf) : bufq_fcfs * option buf :=
  match find_buf bp (fcfs_head fcfs) with
  | Some bp' => (Fcfs (remove_buf bp (fcfs_head fcfs)), Some bp')
  | None => (fcfs, None)
  end.

#[export] Instance fcfs_strategy : Strategy bufq_fcfs := {|
  bs_init := bufq_fcfs_init;
  bs_put := bufq_fcfs_put;
  bs_get := bufq_fcfs_get;
  bs_cancel := bufq_fcfs_cancel;
|}.

(** ** Disksort *)

Record bufq_disksort := Disksort { ds_head : list buf }.

(** The [do] loop over the second request list: what follows [bq] once [bp] is
    on the list. *)
Fixpoint ds_second (sortby : Z) (bp : buf) (l : list buf) : list buf :=
  match l with
  | [] => [bp]
  | nbq :: rest => if inorder bp nbq sortby then bp :: l else nbq :: ds_second sortby bp rest
  end.

(** The search for the inversion that starts the second request list; [l] is
    what follows [bq]. *)
Fixpoint ds_inversion (sortby : Z) (bp bq : buf) (l : list buf) : list buf :=
  match l with
  | [] => [bp]
  | nbq :: rest =>
    if inorder nbq bq sortby then ds_second sortby bp l
    else nbq :: ds_inversion sortby bp nbq rest
  end.

(** The loop over the first request list. *)
Fixpoint ds_first (sortby : Z) (bp bq : buf) (l : list buf) : list buf :=
  match l with
  | [] => [bp]
  | nbq :: rest =>
    if inorder nbq bq sortby || inorder bp nbq sortby then bp :: l
    else nbq :: ds_first sortby bp nbq rest
  end.

Definition bufq_disksort_init (sortby : Z) : bufq_disksort := Disksort [].
Definition bufq_disksort_put (sortby : Z) (disksort : bufq_disksort) (bp : buf) :
    res bufq_disksort :=
  match ds_head disksort with
  | [] => mret (Disksort [bp])
  | bq :: l =>
    mret (Disksort (bq ::
      if inorder bp bq sortby then ds_inversion sortby bp bq l else ds_first sortby bp bq l))
  end.
Definition bufq_disksort_get (sortby : Z) (disksort : bufq_disksort) (remove : bool) :
    res (bufq_disksort * option buf) :=
  match ds_head disksort with
  | [] => mret (disksort, None)
  | bp :: l => mret (if remove then Disksort l else disksort, Some bp)
  end.
Definition bufq_disksort_cancel (disksort : bufq_disksort) (bp : buf) :
    bufq_disksort * option buf :=
  match find_buf bp (ds_head disksort) with
  | Some bp' => (Disksort (remove_buf bp (ds_head disksort)), Some bp')
  | None => (disksort, None)
  end.

#[export] Instance disksort_strategy : Strategy bufq_disksort := {|
  bs_init := bufq_disksort_init;
  bs_put := bufq_disksort_put;
  bs_get := bufq_disksort_get;
  bs_cancel := bufq_disksort_cancel;
|}.

(** ** The laws of fcfs *)

#[export] Program Instance fcfs_laws : StrategyLaws bufq_fcfs := {|
  contents := fcfs_head;
  queue_ok sortby s := distinct (fcfs_head s);
|}.
Next Obligation. done. Qed.
Next Obligation. split; [constructor|done]. Qed.
Next Obligation.
  intros sortby s bp Hd _ Hf. eexists. split; [done|]. simpl.
  rewrite <-Permutation_cons_append. split; [|done]. by apply distinct_cons.
Qed.
Next Obligation.
  intros sortby [l] Hd. simpl in *. unfold bufq_fcfs_get; simpl. destruct l as [|bp l].
  - by exists (Fcfs []), None.
  - apply distinct_cons in Hd as [_ Hd]. by exists (Fcfs l), (Some bp).
Qed.
Next Obligation.
  intros sortby [l] Hd. simpl in *. unfold bufq_fcfs_get; simpl. destruct l as [|bp l].
  - exists (Fcfs []), None. split_and!; try done. by exists (Fcfs []).
  - exists (Fcfs (bp :: l)), (Some bp). split_and!; try done. by exists (Fcfs l).
Qed.
Next Obligation.
  intros sortby [l] bp Hd. simpl in *. unfold bufq_fcfs_cancel; simpl.
  destruct (find_buf bp l) as [x|] eqn:E; simpl.
  - split; [by apply distinct_remove|]. split; [by apply (find_buf_Some _ _ _ E)|].
    by apply remove_buf_perm.
  - split_and!; [done..|by apply find_buf_None].
Qed.

(** fcfs serves in the order of arrival: a history of puts and gets hands
    out a prefix of the requests in the order they were on the queue and then
    put on it, and leaves the rest. *)
Lemma fcfs_order sortby l ops :
  Forall (λ op, match op with OpCancel _ => False | _ => True end) ops →
  ∃ l' out, queue_run sortby (Fcfs l) ops = Ok (Fcfs l', out) ∧
    l ++ (ops ≫= op_puts) = out ++ l'.
Proof.
  revert l. induction ops as [|op ops IH]; intros l Hops; simpl.
  { exists l, []. by rewrite app_nil_r. }
  inversion_clear Hops as [|? ? Hop Hops']. destruct op as [bp| | |bp]; simpl; [| | |done].
  - destruct (IH (l ++ [bp]) Hops') as (l'&out&E&Hp). unfold bufq_put. simpl. rewrite E. simpl.
    exists l', out. split; [done|]. rewrite <-Hp. by rewrite <-(assoc (++)).
  - unfold bufq_get. simpl. unfold bufq_fcfs_get. destruct l as [|bp l]; simpl.
    + destruct (IH [] Hops') as (l'&out&->&Hp). by exists l', out.
    + destruct (IH l Hops') as (l'&out&->&Hp). simpl. exists l', (bp :: out). split; [done|]. by apply (f_equal (cons bp)) in Hp.
  - unfold bufq_peek. simpl. unfold bufq_fcfs_get.
    assert (Hx : ∀ o : option buf, (match l with [] => mret (Fcfs l, None)
      | bp :: _ => mret (Fcfs l, Some bp) end : res (bufq_fcfs * option buf)) =
      Ok (Fcfs l, head l)) by (intros; by destruct l).
    simpl. rewrite (Hx None). simpl. destruct (IH l Hops') as (l'&out&->&Hp). by exists l', out.
Qed.

(** ** The elevator that disksort implements

    The requests of the current sweep and of the next one, each in ascending
    order; a request goes to the next sweep when it lies before the one that is
    served next. *)
Record elevator := Elevator { current : list buf; next : list buf }.

(** After all requests that are not greater, before all that are. *)
Definition insert_sorted (sortby : Z) (bp : buf) (l : list buf) : list buf :=
  filter (λ x, inorder bp x sortby = false) l ++ bp :: filter (λ x, inorder bp x sortby = true) l.

(** When the current sweep is over, the next one begins. *)
Definition turn (c n : list buf) : elevator :=
  match c with [] => Elevator n [] | _ => Elevator c n end.

Definition elevator_step (sortby : Z) (s : elevator) (op : queue_op) : elevator * option buf :=
  match op, current s with
  | OpPut bp, [] => (Elevator [bp] [], None)
  | OpPut bp, h :: _ =>
    (if inorder bp h sortby then Elevator (current s) (insert_sorted sortby bp (next s))
     else Elevator (insert_sorted sortby bp (current s)) (next s), None)
  | OpGet, [] => (s, None)
  | OpGet, h :: c => (turn c (next s), Some h)
  | OpPeek, _ => (s, None)
  | OpCancel bp, c =>
    (turn (remove_buf bp c)
      (match find_buf bp c with Some _ => next s | None => remove_buf bp (next s) end),
     match find_buf bp c with Some x => Some x | None => find_buf bp (next s) end)
  end.

Definition represents (sortby : Z) (q : list buf) (s : elevator) : Prop :=
  q = current s ++ next s ∧ ascending sortby (current s) ∧ ascending sortby (next s) ∧
  (current s = [] → next s = []) ∧
  ∀ h x, head (current s) = Some h → x ∈ next s → inorder x h sortby = true.

(** ** Ascending lists *)

Section ascending.
Context (sortby : Z).

Lemma ds_second_spec bp l : ascending sortby l → ds_second sortby bp l = insert_sorted sortby bp l.
Proof using Type.
  unfold insert_sorted. induction l as [|x l IH]; [done|]. intros [Hl Hx]%ascending_cons. simpl.
  rewrite !filter_cons. destruct (inorder bp x sortby) eqn:E; simpl.
  - assert (Hall : ∀ y, y ∈ l → inorder bp y sortby = true).
    { intros y Hy. eapply inorder_lt_le; [done|by apply Hx]. }
    rewrite filter_drop, filter_keep; try done. intros y Hy Hf. by rewrite (Hall y Hy) in Hf.
  - by rewrite IH.
Qed.

Lemma ds_second_perm bp l : ds_second sortby bp l ≡ₚ bp :: l.
Proof using Type.
  induction l as [|x l IH]; simpl; [done|]. case_match; [done|]. rewrite IH. constructor.
Qed.

Lemma ascending_insert bp l : ascending sortby l → ascending sortby (ds_second sortby bp l).
Proof using Type.
  induction l as [|x l IH]; simpl.
  { intros _. apply ascending_cons. split; [constructor|]. set_solver. }
  intros [Hl Hx]%ascending_cons. destruct (inorder bp x sortby) eqn:E; apply ascending_cons.
  - split; [by apply ascending_cons|]. intros y [->|Hy]%elem_of_cons; [by apply inorder_asym|].
    apply inorder_asym. eapply inorder_lt_le; [done|by apply Hx].
  - split; [by apply IH|]. intros y Hy. rewrite ds_second_perm in Hy.
    apply elem_of_cons in Hy as [->|Hy]; [done|by apply Hx].
Qed.

(** ** The loops of the code on the two lists *)

Lemma ds_inversion_spec bp bq c n :
  ascending sortby (bq :: c) → (∀ x, x ∈ n → inorder x bq sortby = true) →
  ds_inversion sortby bp bq (c ++ n) = c ++ ds_second sortby bp n.
Proof using Type.
  revert bq. induction c as [|x c IH]; intros bq [Hc Hbq]%ascending_cons Hn; simpl.
  { destruct n as [|y n]; [done|]. simpl. by rewrite Hn by set_solver. }
  rewrite Hbq by set_solver. f_equal. apply IH; [done|].
  intros y Hy. eapply inorder_lt_le; [by apply Hn|]. apply Hbq. set_solver.
Qed.

Lemma ds_first_spec bp bq c n :
  ascending sortby (bq :: c) → (∀ x, x ∈ n → inorder x bq sortby = true) →
  ds_first sortby bp bq (c ++ n) = ds_second sortby bp c ++ n.
Proof using Type.
  revert bq. induction c as [|x c IH]; intros bq [Hc Hbq]%ascending_cons Hn; simpl.
  { destruct n as [|y n]; [done|]. simpl. by rewrite Hn by set_solver. }
  rewrite Hbq by set_solver. simpl. destruct (inorder bp x sortby); [done|].
  simpl. f_equal. apply IH; [done|].
  intros y Hy. eapply inorder_lt_le; [by apply Hn|]. apply Hbq. set_solver.
Qed.
End ascending.

(** The queue of the code with the sweeps put together. *)
Lemma elevator_turn sortby c n :
  ascending sortby c → ascending sortby n →
  (∀ h x, head c = Some h → x ∈ n → inorder x h sortby = true) →
  represents sortby (c ++ n) (turn c n).
Proof.
  intros Hc Hn Hlt. destruct c as [|h c]; simpl; split_and!; simpl; try done.
  - by rewrite app_nil_r.
  - set_solver.
Qed.

(** A put on the two sweeps. *)
Lemma elevator_put sortby q s bp :
  represents sortby q s →
  ∃ q', bufq_disksort_put sortby (Disksort q) bp = Ok (Disksort q') ∧
    represents sortby q' (elevator_step sortby s (OpPut bp)).1.
Proof.
  intros (->&Hc&Hn&Hcn&Hlt). destruct s as [c n]. simpl in *.
  unfold bufq_disksort_put; simpl. destruct c as [|h c]; simpl.
  { rewrite Hcn by done. eexists. split; [done|]. split_and!; simpl; try done; [|set_solver].
    apply ascending_cons. split; [constructor|set_solver]. }
  assert (Hh : ∀ x, x ∈ n → inorder x h sortby = true) by (intros x; by apply Hlt).
  eexists. split; [done|]. destruct (inorder bp h sortby) eqn:E; simpl.
  - rewrite ds_inversion_spec, ds_second_spec by done. split_and!; simpl; try done.
    + rewrite <-ds_second_spec by done. by apply ascending_insert.
    + intros ? x [= <-]. rewrite <-ds_second_spec, ds_second_perm by done.
      intros [->|Hx]%elem_of_cons; [done|by apply Hh].
  - rewrite ds_first_spec by done. rewrite <-ds_second_spec by done. simpl. rewrite E.
    split_and!; simpl; try done.
    pose proof (ascending_insert sortby bp _ Hc) as Ha. simpl in Ha. by rewrite E in Ha.
Qed.

Lemma elevator_get sortby q s :
  represents sortby q s →
  ∃ q' o, bufq_disksort_get sortby (Disksort q) true = Ok (Disksort q', o) ∧
    (elevator_step sortby s OpGet).2 = o ∧
    represents sortby q' (elevator_step sortby s OpGet).1.
Proof.
  intros Hr. pose proof Hr as (->&Hc&Hn&Hcn&Hlt). destruct s as [c n]. simpl in *.
  unfold bufq_disksort_get; simpl. destruct c as [|h c]; simpl.
  { rewrite Hcn by done. eexists _, _. split; [done|]. split; [done|].
    by rewrite Hcn in Hr by done. }
  eexists _, _. split; [done|]. split; [done|]. apply ascending_cons in Hc as [Hc Hh].
  apply elevator_turn; [done..|]. intros x y Hx Hy.
  eapply inorder_lt_le; [by apply Hlt|]. apply Hh. destruct c; simplify_eq/=. by left.
Qed.

Lemma elevator_cancel sortby q s bp :
  represents sortby q s →
  ∃ q' o, bufq_disksort_cancel (Disksort q) bp = (Disksort q', o) ∧
    (elevator_step sortby s (OpCancel bp)).2 = o ∧
    represents sortby q' (elevator_step sortby s (OpCancel bp)).1.
Proof.
  intros (->&Hc&Hn&Hcn&Hlt). destruct s as [c n]. simpl in *.
  assert (Hdo : bufq_disksort_cancel (Disksort (c ++ n)) bp
    = (Disksort (remove_buf bp (c ++ n)), find_buf bp (c ++ n))).
  { unfold bufq_disksort_cancel. simpl. destruct (find_buf bp (c ++ n)) eqn:E; [done|].
    by rewrite remove_buf_fresh by (by apply find_buf_None). }
  rewrite Hdo. eexists _, _. split; [done|]. simpl.
  split; [by destruct c; rewrite find_buf_app|].
  assert (Hhead : ∀ h x, head (remove_buf bp c) = Some h → x ∈ n → inorder x h sortby = true).
  { intros h x Hh Hx. destruct c as [|h0 c]; [done|].
    eapply inorder_lt_le; [by apply Hlt|]. apply ascending_cons in Hc as [_ Hc].
    assert (Hin : h ∈ remove_buf bp (h0 :: c)) by (by apply head_Some_elem_of).
    apply remove_buf_subset, elem_of_cons in Hin as [->|Hin]; [apply inorder_irrefl|by apply Hc]. }
  assert (Hgoal : represents sortby (remove_buf bp (c ++ n)) (turn (remove_buf bp c)
    (match find_buf bp c with Some _ => n | None => remove_buf bp n end))).
  { rewrite remove_buf_app. destruct (find_buf bp c) eqn:E.
    - apply elevator_turn; [by apply ascending_remove|done|done].
    - rewrite (remove_buf_fresh bp c) in Hhead |- * by (by apply find_buf_None).
      apply elevator_turn; [done|by apply ascending_remove|].
      intros h x Hh Hx. eapply Hhead; [done|]. by eapply remove_buf_subset. }
  by destruct c.
Qed.

(** C17: disksort implements the elevator: its one list is the current sweep
    followed by the next one, both ascending and the next one before the current
    head, and every put, get, peek and cancel does and returns what the elevator
    does. *)
Theorem disksort_refines_elevator sortby q s op :
  represents sortby q s →
  ∃ q', queue_step sortby (Disksort q) op = Ok (Disksort q', (elevator_step sortby s op).2) ∧
    represents sortby q' (elevator_step sortby s op).1.
Proof.
  intros Hr. destruct op as [bp| | |bp]; simpl.
  - destruct (elevator_put sortby q s bp Hr) as (q'&E&?). unfold bufq_put. simpl. rewrite E.
    simpl. exists q'. split; [|done]. by destruct (current s).
  - destruct (elevator_get sortby q s Hr) as (q'&o&E&Es&?). unfold bufq_get. simpl. rewrite E.
    exists q'. split; [|done]. simpl in Es. by rewrite Es.
  - unfold bufq_peek. simpl. unfold bufq_disksort_get. simpl. exists q.
    destruct q; (split; [|done]); by destruct (current s).
  - destruct (elevator_cancel sortby q s bp Hr) as (q'&o&E&Es&?). unfold bufq_cancel. simpl.
    rewrite E. exists q'. split; [|done]. simpl in Es. by rewrite Es.
Qed.

Definition sample_buf (addr blk : Z) : buf := Buf addr blk 0 512 0 1.

Lemma disksort_refines_elevator_witness :
  ∃ q', queue_step BUFQ_SORT_RAWBLOCK
      (Disksort [sample_buf 1 50; sample_buf 2 60; sample_buf 3 20]) (OpPut (sample_buf 4 10)) =
    Ok (Disksort q', None) ∧
    represents BUFQ_SORT_RAWBLOCK q'
      (Elevator [sample_buf 1 50; sample_buf 2 60] [sample_buf 4 10; sample_buf 3 20]).
Proof.
  apply (disksort_refines_elevator BUFQ_SORT_RAWBLOCK
    [sample_buf 1 50; sample_buf 2 60; sample_buf 3 20]
    (Elevator [sample_buf 1 50; sample_buf 2 60] [sample_buf 3 20]) (OpPut (sample_buf 4 10))).
  split; [reflexivity|]. split; [repeat constructor|]. split; [repeat constructor|].
  split; [discriminate|]. intros h x [= <-] Hx. apply list_elem_of_singleton in Hx as ->. reflexivity.
Defined.

(** ** The laws of disksort *)

#[export] Program Instance disksort_laws : StrategyLaws bufq_disksort := {|
  contents := ds_head;
  queue_ok sortby s := distinct (ds_head s) ∧ ∃ e, represents sortby (ds_head s) e;
|}.
Next Obligation. intros ? ? []. done. Qed.
Next Obligation.
  split; [|done]. split; [constructor|]. exists (Elevator [] []).
  by repeat (constructor || split).
Qed.
Next Obligation.
  intros sortby [q] bp [Hd [e He]] _ Hf. simpl in *.
  destruct (elevator_put sortby q e bp He) as (q'&E&Hr). exists (Disksort q').
  split; [done|]. simpl. assert (Hp : q' ≡ₚ bp :: q).
  { unfold bufq_disksort_put in E. simpl in E. destruct q as [|bq l]; injection E as <-; [done|].
    assert (Hi : ∀ b, ds_inversion sortby bp b l ≡ₚ bp :: l).
    { clear. induction l as [|x l IH]; intros b; cbn [ds_inversion]; [done|].
      case_match; [apply ds_second_perm|]. rewrite IH. constructor. }
    assert (Hs : ∀ b, ds_first sortby bp b l ≡ₚ bp :: l).
    { clear. induction l as [|x l IH]; intros b; cbn [ds_first]; [done|].
      case_match; [done|]. rewrite IH. constructor. }
    case_match; [rewrite Hi|rewrite Hs]; constructor. }
  split; [|done]. split; [|by eexists]. rewrite Hp. by apply distinct_cons.
Qed.
Next Obligation.
  intros sortby [q] [Hd [e He]]. simpl in *.
  destruct (elevator_get sortby q e He) as (q'&o&E&_&Hr). exists (Disksort q'), o.
  split; [done|]. unfold bufq_disksort_get in E. simpl in *.
  destruct q as [|b l]; injection E as <- <-; [split_and!; try done; by eexists|].
  apply distinct_cons in Hd as [_ Hd]. split_and!; try done. by eexists.
Qed.
Next Obligation.
  intros sortby [q] [Hd [e He]]. simpl in *. exists (Disksort q), (head q).
  unfold bufq_disksort_get. simpl. destruct q as [|b l]; split_and!; simpl; try done;
    try (by eexists).
Qed.
Next Obligation.
  intros sortby [q] bp [Hd [e He]]. simpl in *.
  destruct (elevator_cancel sortby q e bp He) as (q'&o&E&_&Hr). rewrite E.
  unfold bufq_disksort_cancel in E. simpl in *.
  destruct (find_buf bp q) as [x|] eqn:Ef; injection E as <- <-; simpl.
  - split; [split; [by apply distinct_remove|by eexists]|].
    split; [by apply (find_buf_Some _ _ _ Ef)|by apply remove_buf_perm].
  - split_and!; try done; [by eexists|by apply find_buf_None].
Qed.

(** ** The theorems on any queue, at these strategies *)

Lemma bufq_empties_witness :
  (∃ s' l, bufq_drain BUFQ_SORT_RAWBLOCK 3 (Fcfs [sample_buf 1 50; sample_buf 2 20]) = Ok (s', done_with_error <$> l) ∧
    contents s' = [] ∧ l ≡ₚ [sample_buf 1 50; sample_buf 2 20]) ∧
  ∃ dst' src', bufq_move BUFQ_SORT_RAWBLOCK BUFQ_SORT_RAWBLOCK 3
      (Disksort [sample_buf 3 30]) (Fcfs [sample_buf 1 50; sample_buf 2 20]) = Ok (dst', src') ∧
    queue_ok BUFQ_SORT_RAWBLOCK dst' ∧ queue_ok BUFQ_SORT_RAWBLOCK src' ∧ contents src' = [] ∧
    contents dst' ≡ₚ [sample_buf 3 30] ++ [sample_buf 1 50; sample_buf 2 20].
Proof.
  assert (H := bufq_empties (L := fcfs_laws) (K := disksort_laws) BUFQ_SORT_RAWBLOCK BUFQ_SORT_RAWBLOCK (Disksort [sample_buf 3 30])
    (Fcfs [sample_buf 1 50; sample_buf 2 20])).
  destruct H as [H1 H2]; [change (distinct [sample_buf 1 50; sample_buf 2 20]); by_decide|].
  split; [exact H1|]. apply H2.
  - split; [change (distinct [sample_buf 3 30]); by_decide|]. exists (Elevator [sample_buf 3 30] []).
    split; [reflexivity|]. split; [repeat constructor|]. split; [repeat constructor|].
    split; [reflexivity|]. intros h x _ Hx. by apply not_elem_of_nil in Hx.
  - change (distinct [sample_buf 3 30; sample_buf 1 50; sample_buf 2 20]). by_decide.
  - repeat constructor; vm_compute; congruence.
Defined.

Lemma fcfs_order_witness :
  ∃ l' out, queue_run 0 (Fcfs [sample_buf 1 50]) [OpPut (sample_buf 2 20); OpGet] =
      Ok (Fcfs l', out) ∧
    [sample_buf 1 50] ++ ([OpPut (sample_buf 2 20); OpGet] ≫= op_puts) = out ++ l'.
Proof.
  apply (fcfs_order 0 [sample_buf 1 50] [OpPut (sample_buf 2 20); OpGet]). repeat constructor.
Defined.
