(* ===== verification/BufqPrio.v ===== *)
(** * Device buffer queues: the strategy readprio (kern/bufq_readprio.c)

    Reads are served first come first served, writes in a one-way scan from the
    position [bq_write_next]; the counter [bq_read_burst] decides between them
    when there are both. *)

From S2P Require Export Prelude Bufq.

Definition PRIO_READ_BURST : Z := 48.
Definition PRIO_WRITE_REQ : Z := 16.

Record bufq_prio := Prio {
  bq_read : list buf;
  bq_write : list buf;
  bq_write_next : option buf;   (** next request in [bq_write] *)
  bq_next : option buf;         (** current request *)
  bq_read_burst : Z;            (** number of consecutive reads *)
}.

(** [TAILQ_NEXT]. *)
Fixpoint next_of (bp : buf) (l : list buf) : option buf :=
  match l with
  | [] => None
  | x :: l => if same x bp then head l else next_of bp l
  end.

(** The search for the first request that is not smaller, and the insertion
    before it or at the end. *)
Fixpoint prio_insert (sortby : Z) (bp : buf) (l : list buf) : list buf :=
  match l with
  | [] => [bp]
  | bq :: rest => if inorder bq bp sortby then bq :: prio_insert sortby bp rest else bp :: l
  end.

(** The same, when the search starts at the request [start]. *)
Fixpoint prio_insert_from (sortby : Z) (start bp : buf) (l : list buf) : res (list buf) :=
  match l with
  | [] => Fault Corrupt
  | x :: rest =>
    if same x start then mret (prio_insert sortby bp l)
    else l ← prio_insert_from sortby start bp rest; mret (x :: l)
  end.

Definition bufq_readprio_init (sortby : Z) : bufq_prio := Prio [] [] None None 0.

Definition bufq_prio_put (sortby : Z) (prio : bufq_prio) (bp : buf) : res bufq_prio :=
  if is_read bp then
    mret (Prio (bq_read prio ++ [bp]) (bq_write prio) (bq_write_next prio) (bq_next prio)
      (bq_read_burst prio))
  else
    match bq_write prio with
    | [] =>
      mret (Prio (bq_read prio) [bp] (Some bp) (bq_next prio) (bq_read_burst prio))
    | bq :: _ =>
      after ← buf_inorder (bq_write_next prio) (Some bp) sortby;
      w ← match bq_write_next prio with
          | Some wn =>
            if after : bool then prio_insert_from sortby wn bp (bq_write prio)
            else mret (prio_insert sortby bp (bq_write prio))
          | None => mret (prio_insert sortby bp (bq_write prio))
          end;
      mret (Prio (bq_read prio) w (bq_write_next prio) (bq_next prio) (bq_read_burst prio))
    end.

(** The choice of the current request when there is none: the request and the
    counter. *)
Definition prio_select (prio : bufq_prio) : res (option buf * Z) :=
  match bq_read prio, bq_write_next prio with
  | [], wn => mret (wn, 0)
  | bp :: _, None => if is_read bp then mret (Some bp, 0) else Fault Panic
  | bp :: _, Some wn =>
    let burst := bq_read_burst prio in
    if burst <? PRIO_READ_BURST then mret (Some bp, burst + 1)
    else if burst + 1 <? PRIO_READ_BURST + PRIO_WRITE_REQ then mret (Some wn, burst + 1)
    else mret (Some bp, 0)
  end.

(** Taking [bp], which is [bq_write_next], off the write list. *)
Definition advance_write (prio : bufq_prio) (bp : buf) : list buf * option buf :=
  let wn := match bq_write_next prio with
            | Some w => next_of w (bq_write prio) | None => None end in
  let w := remove_buf bp (bq_write prio) in
  (w, match wn with None => head w | Some _ => wn end).

Definition bufq_prio_get (sortby : Z) (prio : bufq_prio) (remove : bool) :
    res (bufq_prio * option buf) :=
  '(next, burst) ← match bq_next prio with
                   | None => prio_select prio
                   | Some bp => mret (Some bp, bq_read_burst prio)
                   end;
  match next with
  | Some bp =>
    if remove then
      if is_read bp then
        mret (Prio (remove_buf bp (bq_read prio)) (bq_write prio) (bq_write_next prio) None burst,
              next)
      else
        match bq_write_next prio with
        | None => Fault NullDeref
        | Some _ =>
          let '(w, wn) := advance_write prio bp in
          mret (Prio (bq_read prio) w wn None burst, next)
        end
    else mret (Prio (bq_read prio) (bq_write prio) (bq_write_next prio) next burst, next)
  | None => mret (Prio (bq_read prio) (bq_write prio) (bq_write_next prio) None burst, None)
  end.

Definition bufq_prio_cancel (prio : bufq_prio) (bp : buf) : bufq_prio * option buf :=
  match find_buf bp (bq_read prio) with
  | Some x =>
    (Prio (remove_buf bp (bq_read prio)) (bq_write prio) (bq_write_next prio) None
      (bq_read_burst prio), Some x)
  | None =>
    match find_buf bp (bq_write prio) with
    | Some x =>
      let '(w, wn) :=
        if match bq_write_next prio with Some wn => same x wn | None => false end
        then advance_write prio x
        else (remove_buf bp (bq_write prio), bq_write_next prio) in
      (Prio (bq_read prio) w wn None (bq_read_burst prio), Some x)
    | None => (prio, None)
    end
  end.

#[export] Instance readprio_strategy : Strategy bufq_prio := {|
  bs_init := bufq_readprio_init;
  bs_put := bufq_prio_put;
  bs_get := bufq_prio_get;
  bs_cancel := bufq_prio_cancel;
|}.

(** ** The abstract queue that readprio implements

    A first-in first-out list of reads, the writes of the current scan and of
    the next one, the counter, and the side chosen by a look at the queue. *)
Inductive side := Reads | Writes.

#[export] Instance side_eq_dec : EqDecision side.
Proof. solve_decision. Defined.

Record scan := Scan {
  sc_reads : list buf;
  sc_cur : list buf;
  sc_next : list buf;
  sc_burst : Z;
  sc_choice : option side;
}.

(** Before the first request that is not smaller. *)
Definition insert_before (sortby : Z) (bp : buf) (l : list buf) : list buf :=
  filter (λ x, inorder x bp sortby = true) l ++ bp :: filter (λ x, inorder x bp sortby = false) l.

Definition sc_put (sortby : Z) (s : scan) (bp : buf) : scan :=
  if is_read bp then Scan (sc_reads s ++ [bp]) (sc_cur s) (sc_next s) (sc_burst s) (sc_choice s)
  else
    match sc_cur s with
    | [] => Scan (sc_reads s) [bp] [] (sc_burst s) (sc_choice s)
    | h :: _ =>
      if inorder h bp sortby then
        Scan (sc_reads s) (insert_before sortby bp (sc_cur s)) (sc_next s) (sc_burst s) (sc_choice s)
      else
        Scan (sc_reads s) (sc_cur s) (insert_before sortby bp (sc_next s)) (sc_burst s) (sc_choice s)
    end.

(** The counter decides when both sides have requests: 48 reads, 15 writes, and
    a read with which the counter starts again. *)
Definition sc_decide (burst : Z) : side * Z :=
  if burst <? 48 then (Reads, burst + 1)
  else if burst <? 63 then (Writes, burst + 1)
  else (Reads, 0).

Definition sc_choose (s : scan) : option side * Z :=
  match sc_choice s, sc_reads s, sc_cur s with
  | Some c, _, _ => (Some c, sc_burst s)
  | None, [], [] => (None, 0)
  | None, [], _ => (Some Writes, 0)
  | None, _, [] => (Some Reads, 0)
  | None, _, _ => let '(c, b) := sc_decide (sc_burst s) in (Some c, b)
  end.

(** A new scan begins when the current one is over. *)
Definition sc_turn (s : scan) (r c n : list buf) (b : Z) : scan :=
  match c with [] => Scan r n [] b None | _ => Scan r c n b None end.

Definition sc_get (s : scan) : scan * option buf :=
  match sc_choose s with
  | (Some Reads, b) => (Scan (tail (sc_reads s)) (sc_cur s) (sc_next s) b None, head (sc_reads s))
  | (Some Writes, b) => (sc_turn s (sc_reads s) (tail (sc_cur s)) (sc_next s) b, head (sc_cur s))
  | (None, b) => (Scan (sc_reads s) (sc_cur s) (sc_next s) b None, None)
  end.

Definition sc_cancel (s : scan) (bp : buf) : scan * option buf :=
  match find_buf bp (sc_reads s), find_buf bp (sc_next s), find_buf bp (sc_cur s) with
  | Some x, _, _ =>
    (Scan (remove_buf bp (sc_reads s)) (sc_cur s) (sc_next s) (sc_burst s) None, Some x)
  | None, Some x, _ =>
    (Scan (sc_reads s) (sc_cur s) (remove_buf bp (sc_next s)) (sc_burst s) None, Some x)
  | None, None, Some x =>
    (sc_turn s (sc_reads s) (remove_buf bp (sc_cur s)) (sc_next s) (sc_burst s), Some x)
  | None, None, None => (s, None)
  end.

Definition scan_step (sortby : Z) (s : scan) (op : queue_op) : scan * option buf :=
  match op with
  | OpPut bp => (sc_put sortby s bp, None)
  | OpGet => sc_get s
  | OpPeek =>
    let '(c, b) := sc_choose s in
    (Scan (sc_reads s) (sc_cur s) (sc_next s) b c, None)
  | OpCancel bp => sc_cancel s bp
  end.

(** The requests of the side that is chosen. *)
Definition side_list (s : scan) (c : side) : list buf :=
  match c with Reads => sc_reads s | Writes => sc_cur s end.

Record represents (sortby : Z) (p : bufq_prio) (s : scan) : Prop := {
  rp_read : bq_read p = sc_reads s;
  rp_write : bq_write p = sc_next s ++ sc_cur s;
  rp_wn : bq_write_next p = head (sc_cur s);
  rp_turn : sc_cur s = [] → sc_next s = [];
  rp_choice : match sc_choice s with
              | Some c => bq_next p = head (side_list s c) ∧ side_list s c ≠ []
              | None => bq_next p = None
              end;
  rp_burst : bq_read_burst p = sc_burst s;
  rp_asc : ascending sortby (sc_next s ++ sc_cur s);
  rp_reads : Forall (λ b, is_read b = true) (sc_reads s);
  rp_writes : Forall (λ b, is_read b = false) (sc_next s ++ sc_cur s);
  rp_distinct : distinct (sc_reads s ++ sc_next s ++ sc_cur s);
}.

(** ** Insertion *)

Lemma ascending_app sortby l1 l2 :
  ascending sortby (l1 ++ l2) ↔ ascending sortby l1 ∧ ascending sortby l2 ∧
    ∀ x y, x ∈ l1 → y ∈ l2 → inorder y x sortby = false.
Proof.
  induction l1 as [|z l1 IH]; simpl.
  { split; [intros; split_and!; [constructor|done|set_solver]|naive_solver]. }
  rewrite !ascending_cons, IH. setoid_rewrite elem_of_app. setoid_rewrite elem_of_cons.
  naive_solver.
Qed.

Lemma prio_insert_spec sortby bp l :
  ascending sortby l → prio_insert sortby bp l = insert_before sortby bp l.
Proof.
  unfold insert_before. induction l as [|x l IH]; [done|]. intros [Hl Hx]%ascending_cons. simpl.
  rewrite !filter_cons. destruct (inorder x bp sortby) eqn:E; simpl; [by rewrite IH|].
  assert (Hall : ∀ y, y ∈ l → inorder y bp sortby = false).
  { intros y Hy. eapply inorder_neg_trans; [by apply Hx|done]. }
  rewrite filter_drop, filter_keep; try done. intros y Hy Hf. by rewrite (Hall y Hy) in Hf.
Qed.

Lemma prio_insert_perm sortby bp l : prio_insert sortby bp l ≡ₚ bp :: l.
Proof. induction l as [|x l IH]; simpl; [done|]. case_match; [|done]. rewrite IH. constructor. Qed.

Lemma ascending_prio_insert sortby bp l :
  ascending sortby l → ascending sortby (prio_insert sortby bp l).
Proof.
  induction l as [|x l IH]; simpl.
  { intros _. apply ascending_cons. split; [constructor|]. set_solver. }
  intros [Hl Hx]%ascending_cons. destruct (inorder x bp sortby) eqn:E; apply ascending_cons.
  - split; [by apply IH|]. intros y Hy. rewrite prio_insert_perm in Hy.
    apply elem_of_cons in Hy as [->|Hy]; [by apply inorder_asym|by apply Hx].
  - split; [by apply ascending_cons|]. intros y [->|Hy]%elem_of_cons; [done|].
    eapply inorder_neg_trans; [by apply Hx|done].
Qed.

(** In front of a list whose head is not smaller the insertion stops. *)
Lemma prio_insert_app sortby bp n h c :
  inorder h bp sortby = false →
  prio_insert sortby bp (n ++ h :: c) = prio_insert sortby bp n ++ h :: c.
Proof.
  intros Hh. induction n as [|x n IH]; simpl; [by rewrite Hh|]. case_match; [by rewrite IH|done].
Qed.

Lemma prio_insert_from_spec sortby bp n h c :
  fresh h n → prio_insert_from sortby h bp (n ++ h :: c) = Ok (n ++ prio_insert sortby bp (h :: c)).
Proof.
  induction n as [|x n IH]; cbn [app prio_insert_from].
  { intros _. by rewrite (proj2 (same_true h h)) by done. }
  intros Hf. unfold fresh in Hf. apply not_elem_of_cons in Hf as [Hne Hf].
  destruct (same x h) eqn:E; [by apply same_true in E|]. by rewrite IH.
Qed.

(** ** Puts *)

Lemma next_of_mid h n c : fresh h n → next_of h (n ++ h :: c) = head c.
Proof.
  unfold fresh. induction n as [|x n IH]; simpl.
  { intros _. by rewrite (proj2 (same_true h h)) by done. }
  intros Hf. apply not_elem_of_cons in Hf as [Hne Hf].
  destruct (same x h) eqn:E; [by apply same_true in E|]. by apply IH.
Qed.

Lemma represents_put_read sortby p s bp :
  represents sortby p s → is_read bp = true →
  fresh bp (sc_reads s ++ sc_next s ++ sc_cur s) →
  represents sortby
    (Prio (bq_read p ++ [bp]) (bq_write p) (bq_write_next p) (bq_next p) (bq_read_burst p))
    (Scan (sc_reads s ++ [bp]) (sc_cur s) (sc_next s) (sc_burst s) (sc_choice s)).
Proof.
  intros [] Hr Hf. split; simpl; try done.
  - by rewrite rp_read0.
  - destruct (sc_choice s) as [[]|]; simpl in *; try done.
    destruct rp_choice0 as [-> Hne]. destruct (sc_reads s); [done|]. by simpl.
  - apply Forall_app. split; [done|]. by constructor.
  - rewrite <-(assoc (++)). simpl. rewrite <-Permutation_middle. by apply distinct_cons.
Qed.

(** A write keeps the writes ascending and moves no pointer. *)
Lemma represents_put_write sortby p s bp c n :
  represents sortby p s → is_read bp = false →
  fresh bp (sc_reads s ++ sc_next s ++ sc_cur s) →
  sc_cur s ≠ [] → head c = head (sc_cur s) → n ++ c ≡ₚ bp :: sc_next s ++ sc_cur s →
  ascending sortby (n ++ c) →
  represents sortby
    (Prio (bq_read p) (n ++ c) (bq_write_next p) (bq_next p) (bq_read_burst p))
    (Scan (sc_reads s) c n (sc_burst s) (sc_choice s)).
Proof.
  intros [] Hr Hf Hc Hh Hp Ha. split; simpl; try done.
  - by rewrite Hh.
  - intros ->. by destruct (sc_cur s).
  - destruct (sc_choice s) as [[]|]; simpl in *; try done.
    rewrite Hh. split; [by destruct rp_choice0|]. intros ->. by destruct (sc_cur s).
  - rewrite Hp. by constructor.
  - rewrite Hp. rewrite <-Permutation_middle. by apply distinct_cons.
Qed.

Lemma represents_put sortby p s bp :
  represents sortby p s → fresh bp (sc_reads s ++ sc_next s ++ sc_cur s) →
  ∃ p', bufq_prio_put sortby p bp = Ok p' ∧ represents sortby p' (sc_put sortby s bp).
Proof.
  intros Hr Hf. pose proof Hr as []. unfold bufq_prio_put, sc_put.
  destruct (is_read bp) eqn:Hrd; [eexists; split; [done|by apply represents_put_read]|].
  rewrite rp_write0, rp_wn0. destruct (sc_cur s) as [|h c] eqn:Ec.
  { rewrite rp_turn0 by done. simpl. eexists. split; [done|].
    rewrite ?Ec, ?rp_turn0 in * by done.
    split; simpl; try done.
    - destruct (sc_choice s) as [[]|]; simpl in *; try done. rewrite Ec in rp_choice0. by destruct rp_choice0.
    - apply ascending_cons. split; [constructor|set_solver].
    - by constructor.
    - rewrite app_nil_r in Hf. rewrite <-Permutation_cons_append. apply distinct_cons.
      by rewrite app_nil_r in rp_distinct0. }
  assert (Hm : ∀ {A} (a b : A), match sc_next s ++ h :: c with [] => a | _ :: _ => b end = b)
    by (intros; by destruct (sc_next s)).
  rewrite Hm. cbn [head buf_inorder]. assert (Hw : Some h = bq_write_next p) by done.
  apply ascending_app in rp_asc0 as (Han&Hac&Hx).
  destruct (inorder h bp sortby) eqn:Hin; simpl.
  - rewrite prio_insert_from_spec; simpl; rewrite ?Hin.
    + eexists. split; [done|].
      assert (Hi : insert_before sortby bp (h :: c) = h :: prio_insert sortby bp c).
      { rewrite <-prio_insert_spec by done. simpl. by rewrite Hin. }
      rewrite Hi, Hw. apply (represents_put_write _ _ s bp); rewrite ?Ec; try done.
      * rewrite prio_insert_perm. by rewrite <-!Permutation_middle, perm_swap.
      * apply ascending_app. assert (Hpi := ascending_prio_insert sortby bp (h :: c) Hac).
        simpl in Hpi. rewrite Hin in Hpi. split_and!; try done. intros x y Hxn Hy.
        apply elem_of_cons in Hy as [->|Hy]; [apply Hx; [done|by left]|].
        rewrite prio_insert_perm in Hy. apply elem_of_cons in Hy as [->|Hy]; [|apply Hx; [done|by right]].
        apply inorder_asym. eapply inorder_le_lt; [|done]. apply Hx; [done|by left].
    + rewrite (assoc (++)) in rp_distinct0.
      by apply distinct_mid in rp_distinct0 as ([_ ?]%fresh_app&_).
  - rewrite prio_insert_app by done. eexists. split; [done|].
    rewrite <-prio_insert_spec, Hw by done. apply (represents_put_write _ _ s bp); rewrite ?Ec; try done.
    + by rewrite prio_insert_perm.
    + apply ascending_app. split_and!; [by apply ascending_prio_insert|done|].
      intros x y Hxn Hy. rewrite prio_insert_perm in Hxn.
      apply elem_of_cons in Hxn as [->|Hxn]; [|by apply Hx].
      apply elem_of_cons in Hy as [->|Hy]; [done|].
      eapply inorder_neg_trans; [|done]. by apply ascending_cons in Hac as [_ Hac]; apply Hac.
Qed.

(** ** Gets *)

(** The request that the code picks, as the abstract choice of a side. *)
Lemma chosen sortby p s :
  represents sortby p s →
  match bq_next p with
  | None => prio_select p
  | Some bp => mret (Some bp, bq_read_burst p)
  end = Ok (match (sc_choose s).1 with Some c => head (side_list s c) | None => None end,
            (sc_choose s).2) ∧
  match (sc_choose s).1 with
  | Some c => side_list s c ≠ []
  | None => sc_reads s = [] ∧ sc_cur s = [] ∧ sc_choice s = None
  end.
Proof.
  intros []. unfold sc_choose. destruct (sc_choice s) as [c|]; simpl.
  - destruct rp_choice0 as [-> Hne]. destruct (side_list s c) as [|x l]; [done|].
    simpl. by rewrite rp_burst0.
  - rewrite rp_choice0. unfold prio_select. rewrite rp_read0, rp_wn0, rp_burst0.
    destruct (sc_reads s) as [|r rs] eqn:Er; destruct (sc_cur s) as [|w ws] eqn:Ew; simpl;
      rewrite ?Er, ?Ew; try done.
    + apply Forall_cons in rp_reads0 as [-> _]. done.
    + unfold sc_decide, PRIO_READ_BURST, PRIO_WRITE_REQ.
      destruct (Z.ltb_spec (sc_burst s) 48); simpl; [by rewrite Er|].
      replace (sc_burst s + 1 <? 48 + 16) with (sc_burst s <? 63) by lia.
      destruct (Z.ltb_spec (sc_burst s) 63); simpl; by rewrite ?Er, ?Ew.
Qed.

Lemma represents_turn sortby p s c n b :
  represents sortby p s → sc_next s ++ sc_cur s ≡ₚ n ++ c ∨ (∃ x, sc_next s ++ sc_cur s ≡ₚ x :: n ++ c) →
  ascending sortby (n ++ c) → (c = [] → ascending sortby n) →
  represents sortby (Prio (sc_reads s) (n ++ c) (head (match c with [] => n | _ => c end)) None b)
    (sc_turn s (sc_reads s) c n b).
Proof.
  intros [] Hp Ha _.
  assert (Hsub : Forall (λ b, is_read b = false) (n ++ c) ∧ distinct (sc_reads s ++ n ++ c)).
  { destruct Hp as [Hp|[x Hp]]; rewrite Hp in rp_writes0, rp_distinct0; [done|].
    apply Forall_cons in rp_writes0 as [_ ?]. split; [done|].
    by apply distinct_mid in rp_distinct0 as (_&_&?). }
  destruct Hsub as [Hw Hd]. destruct c as [|x c]; simpl.
  - rewrite app_nil_r in *. split; simpl; rewrite ?app_nil_r; done.
  - by split.
Qed.

Lemma represents_get sortby p s :
  represents sortby p s →
  ∃ p', bufq_prio_get sortby p true = Ok (p', (sc_get s).2) ∧ represents sortby p' (sc_get s).1.
Proof.
  intros Hr. unfold bufq_prio_get, sc_get. destruct (chosen sortby p s Hr) as [-> Hne].
  destruct (sc_choose s) as [c b]. pose proof Hr as []. simpl in *. destruct c as [[]|]; simpl in *.
  - destruct (sc_reads s) as [|r rs] eqn:Er; [done|]. simpl.
    pose proof rp_reads0 as [Hrd Hrds]%Forall_cons. rewrite Hrd. eexists. split; [done|].
    rewrite rp_read0. simpl. rewrite (proj2 (same_true r r)) by done.
    rewrite rp_write0, rp_wn0. apply distinct_cons in rp_distinct0 as [_ ?].
    split; simpl; try done.
  - destruct (sc_cur s) as [|h c] eqn:Ec; [done|]. simpl.
    assert (Hwr : is_read h = false).
    { apply (proj1 (Forall_forall _ _) rp_writes0). set_solver. }
    rewrite Hwr, rp_wn0, rp_write0. simpl. unfold advance_write. rewrite ?rp_wn0, ?rp_write0. simpl.
    rewrite (assoc (++)) in rp_distinct0.
    apply distinct_mid in rp_distinct0 as ([_ Hfn]%fresh_app&_&_).
    rewrite next_of_mid, remove_buf_mid by done.
    assert (Hhd : match head c with Some _ => head c | None => head (sc_next s ++ c) end =
      head (match c with [] => sc_next s | _ => c end)).
    { destruct c; simpl; [by rewrite app_nil_r|done]. }
    rewrite Hhd, rp_read0. eexists. split; [done|].
    apply ascending_app in rp_asc0 as (Han&[Hac _]%ascending_cons&Hx).
    apply (represents_turn _ p); [done| | |done].
    + right. exists h. by rewrite Ec, <-Permutation_middle.
    + apply ascending_app. split_and!; try done. intros x y ? ?. apply Hx; [done|by right].
  - destruct Hne as (Hn1&Hn2&Hn3). eexists. split; [done|].
    split; simpl; try done; congruence.
Qed.

Lemma represents_peek sortby p s :
  represents sortby p s →
  ∃ p', bufq_prio_get sortby p false = Ok (p', (sc_get s).2) ∧
    represents sortby p' (scan_step sortby s OpPeek).1.
Proof.
  intros Hr. unfold bufq_prio_get, sc_get. simpl. destruct (chosen sortby p s Hr) as [-> Hne].
  destruct (sc_choose s) as [c b]. pose proof Hr as []. simpl in *. destruct c as [c|]; simpl in *.
  - destruct (side_list s c) as [|h l] eqn:El; [done|]. simpl.
    exists (Prio (bq_read p) (bq_write p) (bq_write_next p) (Some h) b).
    split; [by destruct c; simpl in *; rewrite El|].
    split; simpl; try done.
    destruct c; simpl in *; by rewrite El.
  - destruct Hne as (Hn1&Hn2&Hn3). eexists. split; [done|].
    split; simpl; try done; congruence.
Qed.

(** ** Cancellation *)

Lemma represents_cancel_read sortby p s bp x :
  represents sortby p s → find_buf bp (sc_reads s) = Some x →
  represents sortby
    (Prio (remove_buf bp (bq_read p)) (bq_write p) (bq_write_next p) None (bq_read_burst p))
    (Scan (remove_buf bp (sc_reads s)) (sc_cur s) (sc_next s) (sc_burst s) None).
Proof.
  intros [] Hx. split; simpl; try done.
  - by rewrite rp_read0.
  - apply Forall_forall. intros y Hy%remove_buf_subset. by apply (proj1 (Forall_forall _ _) rp_reads0).
  - rewrite (remove_buf_perm _ _ _ Hx) in rp_distinct0. by apply distinct_cons in rp_distinct0 as [_ ?].
Qed.

Lemma represents_cancel sortby p s bp :
  represents sortby p s →
  ∃ p', bufq_prio_cancel p bp = (p', (sc_cancel s bp).2) ∧
    represents sortby p' (sc_cancel s bp).1.
Proof.
  intros Hr. pose proof Hr as []. unfold bufq_prio_cancel, sc_cancel.
  rewrite rp_read0, rp_write0, find_buf_app.
  destruct (find_buf bp (sc_reads s)) as [x|] eqn:Er.
  { eexists. split; [done|]. pose proof (represents_cancel_read _ _ _ _ _ Hr Er) as Hx.
    by rewrite rp_read0, rp_write0 in Hx. }
  destruct (find_buf bp (sc_next s)) as [x|] eqn:En.
  - destruct (find_buf_Some _ _ _ En) as [Hin Hax].
    destruct (sc_cur s) as [|h c] eqn:Ec; [rewrite rp_turn0 in Hin by done; set_solver|].
    assert (Hne : same x h = false).
    { rewrite (assoc (++)) in rp_distinct0. apply distinct_mid in rp_distinct0 as ([_ Hf]%fresh_app&_).
      apply not_true_is_false. intros Hs%same_true. apply Hf. rewrite <-Hs. by apply list_elem_of_fmap_2. }
    rewrite rp_wn0. simpl. rewrite Hne, remove_buf_app, En, rp_burst0. eexists. split; [done|].
    apply ascending_app in rp_asc0 as (Han&Hac&Hx).
    apply (represents_turn _ p s (h :: c) (remove_buf bp (sc_next s)) (sc_burst s)); try done.
    + right. exists x. rewrite Ec, (remove_buf_perm _ _ _ En) at 1. done.
    + apply ascending_app. split_and!; [by apply ascending_remove|done|].
      intros y z Hy%remove_buf_subset Hz. by apply Hx.
  - destruct (find_buf bp (sc_cur s)) as [x|] eqn:Ec; [|by exists p].
    destruct (sc_cur s) as [|h c] eqn:Ecur; [done|].
    destruct (find_buf_Some _ _ _ Ec) as [Hin Hax].
    rewrite (assoc (++)) in rp_distinct0.
    apply distinct_mid in rp_distinct0 as ([_ Hfn]%fresh_app&Hfc&_).
    apply ascending_app in rp_asc0 as (Han&[Hac Hah]%ascending_cons&Hx).
    rewrite rp_wn0. simpl in *. destruct (same h bp) eqn:Eh; [injection Ec as ->|].
    + rewrite (proj2 (same_true x x)) by done. unfold advance_write.
      rewrite rp_wn0, rp_write0. simpl. rewrite next_of_mid, remove_buf_mid by done.
      assert (Hhd : match head c with Some _ => head c | None => head (sc_next s ++ c) end =
        head (match c with [] => sc_next s | _ => c end)).
      { destruct c; simpl; [by rewrite app_nil_r|done]. }
      rewrite Hhd, rp_burst0. eexists. split; [done|].
      apply (represents_turn _ p); [done| | |done].
      * right. exists x. by rewrite Ecur, <-Permutation_middle.
      * apply ascending_app. split_and!; try done. intros y z ? ?. apply Hx; [done|by right].
    + assert (Hne : same x h = false).
      { apply not_true_is_false. intros Hs%same_true. apply find_buf_Some in Ec as [Hxc _].
        apply Hfc. rewrite <-Hs. by apply list_elem_of_fmap_2. }
      rewrite Hne, remove_buf_app, En, rp_burst0. simpl. rewrite Eh. eexists. split; [done|].
      apply (represents_turn _ p s (h :: remove_buf bp c) (sc_next s) (sc_burst s)); try done.
      * right. exists x. rewrite Ecur, (remove_buf_perm _ _ _ Ec) at 1.
        rewrite <-!Permutation_middle. by rewrite perm_swap.
      * apply ascending_app. split_and!; [done| |].
        -- apply ascending_cons. split; [by apply ascending_remove|].
           intros y Hy%remove_buf_subset. by apply Hah.
        -- intros y z Hy [->|Hz%remove_buf_subset]%elem_of_cons; apply Hx; try done; [by left|by right].
Qed.

(** C18: readprio implements the abstract queue: reads in the order of arrival,
    writes in ascending one-way scans in which a write that lies at or before
    the next one waits for the next scan, and the counter decides between the two
    when both are waiting; every put, get, peek and cancel does and returns what
    the abstract queue does. *)
Theorem readprio_refines_scan sortby p s op :
  represents sortby p s →
  match op with
  | OpPut bp => fresh bp (sc_reads s ++ sc_next s ++ sc_cur s)
  | _ => True
  end →
  ∃ p', queue_step sortby p op = Ok (p', (scan_step sortby s op).2) ∧
    represents sortby p' (scan_step sortby s op).1.
Proof.
  intros Hr Hop. destruct op as [bp| | |bp].
  - destruct (represents_put sortby p s bp Hr Hop) as (p'&E&?). simpl. unfold bufq_put. simpl.
    rewrite E. by exists p'.
  - by apply represents_get.
  - destruct (represents_peek sortby p s Hr) as (p'&E&Hp). cbn [queue_step]. unfold bufq_peek.
    simpl in *. rewrite E. simpl. exists p'. by destruct (sc_choose s).
  - destruct (represents_cancel sortby p s bp Hr) as (p'&E&?). simpl. unfold bufq_cancel. simpl.
    rewrite E. by exists p'.
Qed.

(** ** The laws of readprio *)

Definition sc_contents (s : scan) : list buf := sc_reads s ++ sc_next s ++ sc_cur s.

Lemma represents_contents sortby p s :
  represents sortby p s → bq_read p ++ bq_write p = sc_contents s.
Proof. intros []. unfold sc_contents. by rewrite rp_read0, rp_write0. Qed.

Lemma sc_put_contents sortby p s bp :
  represents sortby p s → sc_contents (sc_put sortby s bp) ≡ₚ bp :: sc_contents s.
Proof.
  intros []. unfold sc_put, sc_contents. destruct (is_read bp); simpl.
  { rewrite <-(assoc (++)). simpl. by rewrite <-Permutation_middle. }
  destruct (sc_cur s) as [|h c] eqn:Ec; simpl.
  { rewrite rp_turn0 by done. simpl. rewrite app_nil_r. by rewrite <-Permutation_cons_append. }
  apply ascending_app in rp_asc0 as (Han&Hac&_).
  destruct (inorder h bp sortby); simpl; rewrite <-prio_insert_spec, prio_insert_perm by done;
    simpl; by rewrite <-!Permutation_middle.
Qed.

Lemma sc_get_contents s :
  match (sc_choose s).1 with Some c => side_list s c ≠ []
    | None => sc_reads s = [] ∧ sc_cur s = [] ∧ sc_choice s = None end →
  (sc_cur s = [] → sc_next s = []) →
  match (sc_get s).2 with
  | Some bp => sc_contents s ≡ₚ bp :: sc_contents (sc_get s).1
  | None => sc_contents s = [] ∧ sc_contents (sc_get s).1 = []
  end.
Proof.
  unfold sc_get, sc_contents. destruct (sc_choose s) as [[[]|] b]; simpl.
  - destruct (sc_reads s); [done|]. intros _ _. simpl. done.
  - destruct (sc_cur s) as [|h c]; [done|]. intros _ _. simpl. unfold sc_turn.
    destruct c; simpl; by rewrite <-!Permutation_middle, ?app_nil_r.
  - intros (->&->&_) ->; done.
Qed.

Lemma sc_peek_get sortby s : (sc_get (scan_step sortby s OpPeek).1).2 = (sc_get s).2.
Proof.
  unfold sc_get. simpl. destruct (sc_choose s) as [[c|] b] eqn:E; simpl.
  - unfold sc_choose. simpl. by destruct c.
  - unfold sc_choose in *. simpl. destruct (sc_choice s); [done|].
    destruct (sc_reads s), (sc_cur s); simpl; try done. by destruct (sc_decide (sc_burst s)).
Qed.

Lemma sc_cancel_contents s bp :
  match (sc_cancel s bp).2 with
  | Some x => b_addr x = b_addr bp ∧ sc_contents s ≡ₚ x :: sc_contents (sc_cancel s bp).1
  | None => (sc_cancel s bp).1 = s ∧ fresh bp (sc_contents s)
  end.
Proof.
  unfold sc_cancel, sc_contents. destruct (find_buf bp (sc_reads s)) as [x|] eqn:Er; simpl.
  { split; [by apply (find_buf_Some _ _ _ Er)|]. by rewrite (remove_buf_perm _ _ _ Er) at 1. }
  destruct (find_buf bp (sc_next s)) as [x|] eqn:En; simpl.
  { split; [by apply (find_buf_Some _ _ _ En)|]. rewrite (remove_buf_perm _ _ _ En) at 1. simpl.
    by rewrite <-Permutation_middle. }
  destruct (find_buf bp (sc_cur s)) as [x|] eqn:Ec; simpl.
  - split; [by apply (find_buf_Some _ _ _ Ec)|]. rewrite (remove_buf_perm _ _ _ Ec) at 1.
    unfold sc_turn. destruct (remove_buf bp (sc_cur s)); simpl;
      by rewrite <-!Permutation_middle, ?app_nil_r.
  - split; [done|]. rewrite !fresh_app. split_and!; by apply find_buf_None.
Qed.

#[export] Program Instance readprio_laws : StrategyLaws bufq_prio := {|
  contents p := bq_read p ++ bq_write p;
  queue_ok sortby p := ∃ s, represents sortby p s;
|}.
Next Obligation. intros sortby p [s Hr]. rewrite (represents_contents _ _ _ Hr). apply Hr. Qed.
Next Obligation.
  intros sortby. split; [|done]. exists (Scan [] [] [] 0 None). split; simpl; try done; constructor.
Qed.
Next Obligation.
  intros sortby p bp [s Hr] _ Hf. rewrite (represents_contents _ _ _ Hr) in *.
  destruct (represents_put sortby p s bp Hr Hf) as (p'&E&Hr'). exists p'. split; [done|].
  split; [by eexists|]. rewrite (represents_contents _ _ _ Hr'). by eapply sc_put_contents.
Qed.
Next Obligation.
  intros sortby p [s Hr]. destruct (represents_get sortby p s Hr) as (p'&E&Hr').
  exists p', (sc_get s).2. split; [done|]. split; [by eexists|].
  rewrite (represents_contents _ _ _ Hr), (represents_contents _ _ _ Hr').
  apply sc_get_contents; [apply (chosen _ _ _ Hr)|apply Hr].
Qed.
Next Obligation.
  intros sortby p [s Hr]. destruct (represents_peek sortby p s Hr) as (p'&E&Hr').
  exists p', (sc_get s).2. split; [done|]. split; [by eexists|].
  rewrite (represents_contents _ _ _ Hr), (represents_contents _ _ _ Hr').
  split; [unfold sc_contents; simpl; by destruct (sc_choose s)|].
  destruct (represents_get sortby p' _ Hr') as (p''&E'&_). exists p''.
  by rewrite sc_peek_get in E'.
Qed.
Next Obligation.
  intros sortby p bp [s Hr]. destruct (represents_cancel sortby p s bp Hr) as (p'&E&Hr').
  simpl. rewrite E. split; [by eexists|].
  rewrite (represents_contents _ _ _ Hr), (represents_contents _ _ _ Hr').
  pose proof (sc_cancel_contents s bp) as Hc. destruct (sc_cancel s bp) as [s' [x|]] eqn:Es; [done|].
  simpl in *. destruct Hc as [-> Hf]. split; [|done].
  unfold bufq_prio_cancel in E. repeat (case_match; simplify_eq/=; try done).
Qed.

(** ** How the counter shares the disk *)

(** The sides that [k] gets in a row are served from, and the counter after
    them, when both sides have requests all the time. *)
Fixpoint pattern (k : nat) (burst : Z) : list side * Z :=
  match k with
  | O => ([], burst)
  | S k =>
    let '(c, b) := sc_decide burst in
    let '(l, b) := pattern k b in (c :: l, b)
  end.

Lemma run_pattern sortby k : ∀ p s,
  represents sortby p s → sc_choice s = None →
  (k < length (sc_reads s))%nat → (k < length (sc_next s ++ sc_cur s))%nat →
  ∃ p' s' out, queue_run sortby p (replicate k OpGet) = Ok (p', out) ∧ represents sortby p' s' ∧
    sc_choice s' = None ∧ sc_burst s' = (pattern k (sc_burst s)).2 ∧
    is_read <$> out = (λ c, bool_decide (c = Reads)) <$> (pattern k (sc_burst s)).1.
Proof.
  induction k as [|k IH]; intros p s Hr Hc Hlr Hlw; [by exists p, s, []|].
  destruct (represents_get sortby p s Hr) as (p1&E&Hr1).
  assert (Hcur : sc_cur s ≠ []).
  { intros Hn. pose proof (rp_turn _ _ _ Hr Hn) as Hn2. rewrite Hn, Hn2 in Hlw. simpl in Hlw. lia. }
  pose proof (rp_reads _ _ _ Hr) as Hrd. pose proof (rp_writes _ _ _ Hr) as Hwr.
  unfold sc_get, sc_choose in *. rewrite Hc in *.
  destruct (sc_reads s) as [|r rs] eqn:Er; [simpl in Hlr; lia|].
  destruct (sc_cur s) as [|w ws] eqn:Ew; [done|]. simpl pattern.
  destruct (sc_decide (sc_burst s)) as [c b]. simpl in E, Hr1, Hlr, Hlw.
  assert (Hnext : ∃ s1 o, represents sortby p1 s1 ∧ bufq_get sortby p = Ok (p1, Some o) ∧
    sc_choice s1 = None ∧ sc_burst s1 = b ∧ is_read o = bool_decide (c = Reads) ∧
    (k < length (sc_reads s1))%nat ∧ (k < length (sc_next s1 ++ sc_cur s1))%nat).
  { destruct c; simpl in *.
    - eexists _, r. split_and!; try done; simpl; [|lia|rewrite length_app in *; simpl in *; lia].
      by apply Forall_cons in Hrd as [-> _].
    - assert (Hw : is_read w = false) by (apply (proj1 (Forall_forall _ _) Hwr); set_solver).
      rewrite length_app in Hlw. simpl in Hlw.
      eexists _, w. split_and!; try done; unfold sc_turn; destruct ws; simpl in *;
        rewrite ?length_app; simpl; try done; lia. }
  destruct Hnext as (s1&o&Hr1'&E1&Hc1&Hb1&Ho&Hl1&Hl2).
  destruct (IH p1 s1 Hr1' Hc1 Hl1 Hl2) as (p2&s2&out&E2&Hr2&Hc2&Hb2&Hout).
  exists p2, s2, (o :: out). cbn [replicate queue_run queue_step]. rewrite E1. simpl. rewrite E2. simpl.
  rewrite <-Hb1. destruct (pattern k (sc_burst s1)) as [l b']. simpl in *.
  split_and!; try done. by apply (f_equal2 cons).
Qed.

(** C19: while there are both reads and writes, a cycle of 64 gets from a counter
    of 0 serves 48 reads, then 15 writes (not PRIO_WRITE_REQ, which is 16), then
    one read, and ends with a counter of 0. *)
Theorem readprio_cycle sortby p s :
  represents sortby p s → sc_choice s = None → bq_read_burst p = 0 →
  (64 < length (bq_read p))%nat → (64 < length (bq_write p))%nat →
  ∃ p' out, queue_run sortby p (replicate 64 OpGet) = Ok (p', out) ∧ bq_read_burst p' = 0 ∧
    is_read <$> out = replicate 48 true ++ replicate 15 false ++ [true].
Proof.
  intros Hr Hc Hb Hlr Hlw. rewrite (rp_read _ _ _ Hr) in Hlr. rewrite (rp_write _ _ _ Hr) in Hlw.
  destruct (run_pattern sortby 64 p s Hr Hc Hlr Hlw) as (p'&s'&out&E&Hr'&_&Hb'&Hout).
  rewrite <-(rp_burst _ _ _ Hr), Hb in Hb', Hout. exists p', out. split; [done|].
  split; [|by rewrite Hout]. by rewrite (rp_burst _ _ _ Hr'), Hb'.
Qed.

Definition sample_read (addr : Z) : buf := Buf addr 0 0 512 B_READ 1.
Definition sample_write (addr blk : Z) : buf := Buf addr blk 0 512 0 1.

Lemma readprio_refines_scan_witness :
  ∃ p', queue_step BUFQ_SORT_RAWBLOCK
      (Prio [sample_read 1] [sample_write 2 20; sample_write 3 40] (Some (sample_write 3 40))
        None 7) (OpPut (sample_write 4 30)) = Ok (p', None) ∧
    represents BUFQ_SORT_RAWBLOCK p'
      (scan_step BUFQ_SORT_RAWBLOCK
        (Scan [sample_read 1] [sample_write 3 40] [sample_write 2 20] 7 None)
        (OpPut (sample_write 4 30))).1.
Proof.
  apply (readprio_refines_scan BUFQ_SORT_RAWBLOCK
    (Prio [sample_read 1] [sample_write 2 20; sample_write 3 40] (Some (sample_write 3 40)) None 7)
    (Scan [sample_read 1] [sample_write 3 40] [sample_write 2 20] 7 None)
    (OpPut (sample_write 4 30))).
  - split; try reflexivity; by_decide || discriminate.
  - unfold fresh. by_decide.
Defined.

(** 65 reads and 65 writes. *)
Definition sample_reads : list buf := sample_read <$> seqZ 1 65.
Definition sample_writes : list buf := (λ a, sample_write a a) <$> seqZ 101 65.

Lemma readprio_cycle_witness :
  ∃ p' out, queue_run BUFQ_SORT_RAWBLOCK
      (Prio sample_reads sample_writes (head sample_writes) None 0) (replicate 64 OpGet) =
      Ok (p', out) ∧ bq_read_burst p' = 0 ∧
    is_read <$> out = replicate 48 true ++ replicate 15 false ++ [true].
Proof.
  apply (readprio_cycle BUFQ_SORT_RAWBLOCK
    (Prio sample_reads sample_writes (head sample_writes) None 0)
    (Scan sample_reads sample_writes [] 0 None)); try reflexivity; try by_decide.
  split; try reflexivity; by_decide.
Defined.
