(* ===== verification/RbTree.v ===== *)
(** * The interface of the ordered trees of rbtree(3) (sys/rbtree.h)

    The implementation of these trees is not among the sources, so they are a
    class: the operations that priocscan uses, and the laws that state their
    documented behaviour.  Ordered lists are an instance of both. *)

From S2P Require Export Prelude Bufq.

(** A comparison of nodes that rbtree(3) accepts: a total order. *)
Record node_order (cmp : buf → buf → Z) : Prop := {
  no_refl x : cmp x x = 0;
  no_antisym x y : cmp x y < 0 ↔ 0 < cmp y x;
  no_trans x y z : cmp x y < 0 → cmp y z < 0 → cmp x z < 0;
}.

(** A comparison of nodes with a key that agrees with it. *)
Definition key_order (cmp : buf → buf → Z) (ck : buf → Z) : Prop :=
  ∀ x y, cmp x y < 0 → ck x ≤ ck y.

(** [rb_tree_insert_node] returns the node that is on the tree;
    [rb_tree_min] is [rb_tree_iterate(t, NULL, RB_DIR_LEFT)], and
    [rb_tree_nodes] the traversal of [RB_TREE_FOREACH]. *)
Class RbTree (T : Type) := {
  rb_tree_init : T;
  rb_tree_insert_node : (buf → buf → Z) → T → buf → T * buf;
  rb_tree_find_node_geq : (buf → Z) → T → option buf;
  rb_tree_min : T → option buf;
  rb_tree_remove_node : T → buf → T;
  rb_tree_nodes : T → list buf;
}.

Class RbTreeLaws (T : Type) `{RbTree T} := {
  rb_ok : (buf → buf → Z) → T → Prop;
  rb_init_ok cmp : rb_ok cmp rb_tree_init ∧ rb_tree_nodes rb_tree_init = [];
  rb_insert_ok cmp t bp :
    node_order cmp → rb_ok cmp t → (∀ x, x ∈ rb_tree_nodes t → cmp x bp ≠ 0) →
    let '(t', r) := rb_tree_insert_node cmp t bp in
    r = bp ∧ rb_ok cmp t' ∧ rb_tree_nodes t' ≡ₚ bp :: rb_tree_nodes t;
  rb_geq_ok cmp ck t :
    node_order cmp → key_order cmp ck → rb_ok cmp t →
    match rb_tree_find_node_geq ck t with
    | Some x => x ∈ rb_tree_nodes t ∧ 0 ≤ ck x ∧
        (ck x = 0 ∨ ∀ y, y ∈ rb_tree_nodes t → 0 ≤ ck y → cmp x y ≤ 0)
    | None => ∀ y, y ∈ rb_tree_nodes t → ck y < 0
    end;
  rb_min_ok cmp t :
    node_order cmp → rb_ok cmp t →
    match rb_tree_min t with
    | Some x => x ∈ rb_tree_nodes t ∧ ∀ y, y ∈ rb_tree_nodes t → cmp x y ≤ 0
    | None => rb_tree_nodes t = []
    end;
  rb_remove_ok cmp t x :
    rb_ok cmp t → distinct (rb_tree_nodes t) → x ∈ rb_tree_nodes t →
    rb_ok cmp (rb_tree_remove_node t x) ∧
    rb_tree_nodes t ≡ₚ x :: rb_tree_nodes (rb_tree_remove_node t x);
}.

(** ** Ordered lists are such trees *)

Fixpoint list_insert_node (cmp : buf → buf → Z) (l : list buf) (bp : buf) : list buf * buf :=
  match l with
  | [] => ([bp], bp)
  | x :: rest =>
    if cmp x bp =? 0 then (l, x)
    else if 0 <? cmp x bp then (bp :: l, bp)
    else let '(rest, r) := list_insert_node cmp rest bp in (x :: rest, r)
  end.
Fixpoint list_find_geq (ck : buf → Z) (l : list buf) : option buf :=
  match l with
  | [] => None
  | x :: rest => if 0 <=? ck x then Some x else list_find_geq ck rest
  end.

#[export] Instance list_tree : RbTree (list buf) := {|
  rb_tree_init := [];
  rb_tree_insert_node := list_insert_node;
  rb_tree_find_node_geq := list_find_geq;
  rb_tree_min := head;
  rb_tree_remove_node l x := remove_buf x l;
  rb_tree_nodes l := l;
|}.

Definition node_sorted (cmp : buf → buf → Z) (l : list buf) : Prop :=
  StronglySorted (λ x y, cmp x y < 0) l.

Lemma node_sorted_cons cmp x l :
  node_sorted cmp (x :: l) ↔ node_sorted cmp l ∧ ∀ y, y ∈ l → cmp x y < 0.
Proof.
  unfold node_sorted. split.
  - intros [? Hf]%StronglySorted_inv. split; [done|]. by apply Forall_forall.
  - intros [? Hf]. constructor; [done|]. by apply Forall_forall.
Qed.

#[export] Instance node_sorted_dec cmp l : Decision (node_sorted cmp l).
Proof.
  induction l as [|x l IH]; [left; constructor|].
  destruct IH as [Hl|Hl]; [|right; intros [? _]%node_sorted_cons; done].
  destruct (decide (Forall (λ y, cmp x y < 0) l)) as [Hf|Hf].
  - left. constructor; done.
  - right. intros [_ Hx]%node_sorted_cons. apply Hf. by apply Forall_forall.
Defined.

Lemma list_insert_node_ok cmp l bp :
  node_order cmp → node_sorted cmp l → (∀ x, x ∈ l → cmp x bp ≠ 0) →
  ∃ l', list_insert_node cmp l bp = (l', bp) ∧ l' ≡ₚ bp :: l ∧ node_sorted cmp l'.
Proof.
  intros Ho. induction l as [|x l IH]; intros Hs Hne; simpl.
  { exists [bp]. split_and!; try done. apply node_sorted_cons. split; [done|set_solver]. }
  apply node_sorted_cons in Hs as [Hs Hx].
  destruct (Z.eqb_spec (cmp x bp) 0) as [E|E]; [by destruct (Hne x ltac:(set_solver))|].
  destruct (Z.ltb_spec 0 (cmp x bp)) as [Hlt|Hge].
  - exists (bp :: x :: l). split_and!; try done. apply (no_antisym _ Ho) in Hlt.
    apply node_sorted_cons. split; [by apply node_sorted_cons|].
    intros y [->|Hy]%elem_of_cons; [done|]. eapply (no_trans _ Ho); [done|by apply Hx].
  - destruct IH as (l'&->&Hp&Hs'); [done|set_solver|]. exists (x :: l'). split_and!; [done| |].
    + rewrite Hp. apply perm_swap.
    + apply node_sorted_cons. split; [done|]. intros y Hy. rewrite Hp in Hy.
      apply elem_of_cons in Hy as [->|Hy]; [lia|by apply Hx].
Qed.

Lemma list_find_geq_ok cmp ck l :
  node_order cmp → key_order cmp ck → node_sorted cmp l →
  match list_find_geq ck l with
  | Some x => x ∈ l ∧ 0 ≤ ck x ∧ (ck x = 0 ∨ ∀ y, y ∈ l → 0 ≤ ck y → cmp x y ≤ 0)
  | None => ∀ y, y ∈ l → ck y < 0
  end.
Proof.
  intros Ho Hk. induction l as [|x l IH]; intros Hs; simpl; [set_solver|].
  apply node_sorted_cons in Hs as [Hs Hx]. destruct (Z.leb_spec 0 (ck x)) as [Hle|Hlt].
  - split; [set_solver|]. split; [done|]. right.
    intros y [->|Hy]%elem_of_cons _; [rewrite (no_refl _ Ho); lia|]. specialize (Hx y Hy). lia.
  - specialize (IH Hs). destruct (list_find_geq ck l) as [z|].
    + destruct IH as (Hin&H1&H2). split; [set_solver|]. split; [done|].
      destruct H2 as [|H2]; [by left|right]. intros y [->|Hy]%elem_of_cons Hck; [lia|by apply H2].
    + intros y [->|Hy]%elem_of_cons; [done|by apply IH].
Qed.

Lemma node_sorted_remove cmp x l : node_sorted cmp l → node_sorted cmp (remove_buf x l).
Proof.
  induction l as [|y l IH]; simpl; [done|]. intros [Hs Hy]%node_sorted_cons.
  case_match; [done|]. apply node_sorted_cons. split; [by apply IH|].
  intros z Hz%remove_buf_subset. by apply Hy.
Qed.

#[export] Program Instance list_tree_laws : RbTreeLaws (list buf) := {|
  rb_ok := node_sorted;
|}.
Next Obligation. intros cmp. split; [constructor|done]. Qed.
Next Obligation.
  intros cmp l bp Ho Hs Hne. simpl. destruct (list_insert_node_ok cmp l bp Ho Hs Hne) as (l'&->&?&?).
  done.
Qed.
Next Obligation. intros. by apply list_find_geq_ok. Qed.
Next Obligation.
  intros cmp l Ho Hs. simpl. destruct l as [|x l]; [done|]. apply node_sorted_cons in Hs as [_ Hx].
  split; [set_solver|]. intros y [->|Hy]%elem_of_cons; [rewrite (no_refl _ Ho); lia|].
  specialize (Hx y Hy). lia.
Qed.
Next Obligation.
  intros cmp l x Hs Hd Hin. simpl in *. split; [by apply node_sorted_remove|].
  by apply remove_buf_perm, find_buf_elem.
Qed.
