(* ===== verification/BufqScan.v ===== *)
(** * Device buffer queues: the strategy priocscan (kern/bufq_priocscan.c)

    Three cyclical scans, one for each priority, with counters that bound how
    long a queue keeps the others waiting.  The scans keep their requests in a
    red-black tree, any implementation of the interface of RbTree.v.  The end of
    the file has what all four strategies give their users. *)

From S2P Require Export Prelude Bufq BufqSort BufqPrio RbTree.

Definition DEV_BSHIFT : Z := 9.
Definition PRIOCSCAN_NQUEUE : nat := 3.

(** ** Cyclical scan *)

Record cscan_key := CscanKey {
  k_rawblkno : Z;
  k_cylinder : Z;
}.

Record cscan_queue (T : Type) := Cscan {
  cq_buffers : T;
  cq_lastkey : cscan_key;
  cq_sortby : Z;
}.
Arguments Cscan {T} _ _ _.
Arguments cq_buffers {T} _.
Arguments cq_lastkey {T} _.
Arguments cq_sortby {T} _.

Definition buf_cmp (b1 b2 : buf) (sortby : Z) : Z :=
  if inorder b2 b1 sortby then 1 else if inorder b1 b2 sortby then -1 else 0.

Definition cscan_tree_compare_nodes (sortby : Z) (b1 b2 : buf) : Z :=
  let diff := buf_cmp b1 b2 sortby in
  if negb (diff =? 0) then diff
  else if b_addr b1 >? b_addr b2 then 1
  else if b_addr b1 <? b_addr b2 then -1
  else 0.

(** The buffer that stands for a key in a comparison. *)
Definition key_buf (key : cscan_key) : buf := Buf 0 (k_rawblkno key) (k_cylinder key) 0 0 0.
Definition cscan_tree_compare_key (sortby : Z) (b1 : buf) (key : cscan_key) : Z :=
  buf_cmp b1 (key_buf key) sortby.

Section cscan.
Context {T : Type} `{RbTree T}.

Definition cscan_empty (q : cscan_queue T) : bool :=
  match rb_tree_min (cq_buffers q) with None => true | Some _ => false end.

Definition cscan_put (q : cscan_queue T) (bp : buf) : res (cscan_queue T) :=
  let '(t, obp) := rb_tree_insert_node (cscan_tree_compare_nodes (cq_sortby q)) (cq_buffers q) bp in
  if same obp bp then mret (Cscan t (cq_lastkey q) (cq_sortby q)) else Fault Panic.

(** The head position after [bp] is served. *)
Definition head_position (bp : buf) : cscan_key :=
  CscanKey (s64 (b_rawblkno bp + Z.shiftr (b_bcount bp) DEV_BSHIFT)) (b_cylinder bp).

Definition cscan_get (q : cscan_queue T) (remove : bool) : cscan_queue T * option buf :=
  let bp :=
    match rb_tree_find_node_geq
            (λ b, cscan_tree_compare_key (cq_sortby q) b (cq_lastkey q)) (cq_buffers q) with
    | Some bp => Some bp
    | None => rb_tree_min (cq_buffers q)
    end in
  match bp with
  | Some bp =>
    (if remove then
       Cscan (rb_tree_remove_node (cq_buffers q) bp) (head_position bp) (cq_sortby q)
     else q, Some bp)
  | None => (q, None)
  end.

Definition cscan_init (sortby : Z) : cscan_queue T := Cscan rb_tree_init (CscanKey 0 0) sortby.
End cscan.

(** ** One scan per priority *)

Record priocscan_queue (T : Type) := PrioQueue {
  q_queue : cscan_queue T;
  q_burst : Z;
}.
Arguments PrioQueue {T} _ _.
Arguments q_queue {T} _.
Arguments q_burst {T} _.

Record bufq_priocscan (T : Type) := Priocscan { bq_queue : list (priocscan_queue T) }.
Arguments Priocscan {T} _.
Arguments bq_queue {T} _.

Definition priocscan_burst : list Z := [64; 16; 4].
Definition priocscan_priomap : list Z := [2; 1; 0].

Section priocscan.
Context {T : Type} `{RbTree T}.

Definition bufq_priocscan_init (sortby : Z) : bufq_priocscan T :=
  Priocscan (replicate PRIOCSCAN_NQUEUE (PrioQueue (cscan_init sortby) 0)).

(** The index of the queue of a request. *)
Definition bufq_priocscan_selectqueue (bp : buf) : res Z := get priocscan_priomap (b_prio bp).

Definition bufq_priocscan_put (sortby : Z) (q : bufq_priocscan T) (bp : buf) :
    res (bufq_priocscan T) :=
  i ← bufq_priocscan_selectqueue bp;
  pq ← get (bq_queue q) i;
  cq ← cscan_put (q_queue pq) bp;
  Priocscan <$> put (bq_queue q) i (PrioQueue cq (q_burst pq)).

(** The first loop: the highest priority non-empty queue, and those after it. *)
Fixpoint first_nonempty (q : list (priocscan_queue T)) (i : nat) :
    option (nat * priocscan_queue T * list (priocscan_queue T)) :=
  match q with
  | [] => None
  | pq :: rest =>
    if negb (cscan_empty (q_queue pq)) then Some (i, pq, rest) else first_nonempty rest (S i)
  end.

(** The second loop: the candidate [pq] with its burst count, and whether its
    queue is the only one with requests; [i] is the index of the next queue. *)
Fixpoint scan_rest (rest : list (priocscan_queue T)) (i pq : nat) (burst : Z) (single : bool) :
    nat * Z * bool :=
  match rest with
  | [] => (pq, burst, single)
  | npq :: rest =>
    if cscan_empty (q_queue npq) then scan_rest rest (S i) pq burst single
    else if burst >? 0 then (pq, burst, false)
    else scan_rest rest (S i) i (q_burst npq) false
  end.

(** The loop that resets the burst counts. *)
Fixpoint reset_bursts (q : list (priocscan_queue T)) (bursts : list Z) : list (priocscan_queue T) :=
  match q, bursts with
  | pq :: q, b :: bursts => PrioQueue (q_queue pq) b :: reset_bursts q bursts
  | q, _ => q
  end.

(** The queue to serve and the queues with the burst counts brought up to date. *)
Definition priocscan_select (q : list (priocscan_queue T)) (remove : bool) :
    res (option (nat * list (priocscan_queue T))) :=
  match first_nonempty q 0 with
  | None => mret None
  | Some (first, fpq, rest) =>
    let '(pq, burst, single) := scan_rest rest (S first) first (q_burst fpq) true in
    if single : bool then
      if negb (Nat.eqb pq first) then Fault Panic else mret (Some (pq, q))
    else
      let '(pq, q) :=
        if burst =? 0 then (first, if remove then reset_bursts q priocscan_burst else q)
        else (pq, q) in
      if remove then
        p ← get q (Z.of_nat pq);
        if negb (q_burst p >? 0) then Fault Panic
        else
          q ← put q (Z.of_nat pq) (PrioQueue (q_queue p) (q_burst p - 1));
          mret (Some (pq, q))
      else mret (Some (pq, q))
  end.

Definition bufq_priocscan_get (sortby : Z) (q : bufq_priocscan T) (remove : bool) :
    res (bufq_priocscan T * option buf) :=
  sel ← priocscan_select (bq_queue q) remove;
  match sel with
  | None => mret (q, None)
  | Some (pq, l) =>
    p ← get l (Z.of_nat pq);
    let '(cq, bp) := cscan_get (q_queue p) remove in
    l ← put l (Z.of_nat pq) (PrioQueue cq (q_burst p));
    mret (Priocscan l, bp)
  end.

(** The loop over the queues, each searched with [RB_TREE_FOREACH]. *)
Fixpoint cancel_loop (q : list (priocscan_queue T)) (bp : buf) :
    list (priocscan_queue T) * option buf :=
  match q with
  | [] => ([], None)
  | pq :: rest =>
    let cq := q_queue pq in
    match find_buf bp (rb_tree_nodes (cq_buffers cq)) with
    | Some x =>
      (PrioQueue (Cscan (rb_tree_remove_node (cq_buffers cq) x) (cq_lastkey cq) (cq_sortby cq))
         (q_burst pq) :: rest, Some x)
    | None => let '(rest, o) := cancel_loop rest bp in (pq :: rest, o)
    end
  end.
Definition bufq_priocscan_cancel (q : bufq_priocscan T) (bp : buf) :
    bufq_priocscan T * option buf :=
  let '(l, o) := cancel_loop (bq_queue q) bp in (Priocscan l, o).

#[export] Instance priocscan_strategy : Strategy (bufq_priocscan T) := {|
  bs_init := bufq_priocscan_init;
  bs_put := bufq_priocscan_put;
  bs_get := bufq_priocscan_get;
  bs_cancel := bufq_priocscan_cancel;
|}.
End priocscan.

(** ** Which queue is served *)
Section served.
Context {T : Type} `{RbTree T}.
Implicit Types q : list (priocscan_queue T).

(** The queues with requests: their indices and burst counts. *)
Fixpoint live_from q (i : nat) : list (nat * Z) :=
  match q with
  | [] => []
  | p :: q =>
    if cscan_empty (q_queue p) then live_from q (S i) else (i, q_burst p) :: live_from q (S i)
  end.

(** With at most one queue with requests that one; otherwise the first that has
    some of its burst left, or the first of all when none has. *)
Definition served q : option nat :=
  let live := live_from q 0 in
  match live, filter (λ x, 0 < x.2) live with
  | [], _ => None
  | [(i, _)], _ => Some i
  | _, x :: _ => Some x.1
  | (i, _) :: _, [] => Some i
  end.

(** The burst counts after a get: unchanged with a single queue, otherwise one
    less for the queue served, after a reset when all were used up. *)
Definition bursts_after q : list Z :=
  let live := live_from q 0 in
  match live, served q with
  | _ :: _ :: _, Some i =>
    let bs :=
      match filter (λ x, 0 < x.2) live with [] => priocscan_burst | _ => q_burst <$> q end in
    alter (λ b, b - 1) i bs
  | _, _ => q_burst <$> q
  end.

(** [q'] has the requests of [q] and the burst counts [bs]. *)
Definition with_bursts q (bs : list Z) : list (priocscan_queue T) :=
  zip_with (λ p b, PrioQueue (q_queue p) b) q bs.

Lemma priocscan_select_spec q remove :
  length q = 3%nat → Forall (λ p, 0 ≤ q_burst p) q →
  priocscan_select q remove =
    Ok (i ← served q; Some (i, if remove then with_bursts q (bursts_after q) else q)).
Proof.
  intros Hlen Hb. destruct q as [|[a ba] [|[b bb] [|[c bc] [|]]]]; try done. clear Hlen.
  apply Forall_cons in Hb as [Ha Hb]. apply Forall_cons in Hb as [Hb Hc].
  apply Forall_cons in Hc as [Hc _]. simpl in *.
  unfold priocscan_select, bursts_after, served. cbn [first_nonempty live_from q_queue q_burst].
  destruct (cscan_empty a) eqn:Ea; destruct (cscan_empty b) eqn:Eb; destruct (cscan_empty c) eqn:Ec;
    cbn [negb scan_rest q_queue q_burst]; rewrite ?Ea, ?Eb, ?Ec; cbn [scan_rest q_queue q_burst];
    try (by destruct remove).
  all: repeat match goal with
    | |- context [?x >? 0] => destruct (Z.gtb_spec x 0)
    | |- context [?x =? 0] => destruct (Z.eqb_spec x 0)
    end; try lia.
  all: rewrite ?filter_cons; simpl; repeat case_decide; simpl in *; try lia; try (by destruct remove).
  all: destruct remove; [|done].
  all: match goal with |- context [?x >? 0] => destruct (Z.gtb_spec x 0) end; [done|lia].
Qed.
End served.

(** ** The comparisons are orders *)

Section order.
Context (sortby : Z).

Lemma buf_cmp_neg b1 b2 : buf_cmp b1 b2 sortby < 0 ↔ inorder b1 b2 sortby = true.
Proof using Type.
  unfold buf_cmp. destruct (inorder b2 b1 sortby) eqn:E1, (inorder b1 b2 sortby) eqn:E2;
    try (by rewrite (inorder_asym _ _ _ E1) in E2); split; intros; (done || lia).
Qed.
Lemma buf_cmp_pos b1 b2 : 0 < buf_cmp b1 b2 sortby ↔ inorder b2 b1 sortby = true.
Proof using Type.
  unfold buf_cmp. destruct (inorder b2 b1 sortby), (inorder b1 b2 sortby); split; intros; (done || lia).
Qed.
Lemma cmp_neg b1 b2 :
  cscan_tree_compare_nodes sortby b1 b2 < 0 ↔
  inorder b1 b2 sortby = true ∨ (inorder b2 b1 sortby = false ∧ b_addr b1 < b_addr b2).
Proof using Type.
  pose proof (buf_cmp_neg b1 b2). pose proof (buf_cmp_pos b1 b2). unfold cscan_tree_compare_nodes.
  set (d := buf_cmp b1 b2 sortby) in *. clearbody d.
  destruct (Z.eqb_spec d 0); simpl; destruct (inorder b1 b2 sortby), (inorder b2 b1 sortby);
    repeat case_match; intuition (congruence || lia).
Qed.
Lemma cmp_swap b1 b2 :
  cscan_tree_compare_nodes sortby b1 b2 < 0 ↔ 0 < cscan_tree_compare_nodes sortby b2 b1.
Proof using Type.
  unfold cscan_tree_compare_nodes.
  assert (buf_cmp b2 b1 sortby = - buf_cmp b1 b2 sortby) as ->.
  { unfold buf_cmp. destruct (inorder b1 b2 sortby) eqn:E1, (inorder b2 b1 sortby) eqn:E2; try done.
    by rewrite (inorder_asym _ _ _ E1) in E2. }
  repeat case_match; lia.
Qed.
Lemma cmp_zero b1 b2 : cscan_tree_compare_nodes sortby b1 b2 = 0 → b_addr b1 = b_addr b2.
Proof using Type. unfold cscan_tree_compare_nodes. repeat case_match; lia. Qed.
Lemma cmp_le b1 b2 : cscan_tree_compare_nodes sortby b1 b2 ≤ 0 → inorder b2 b1 sortby = false.
Proof using Type.
  intros Hle. apply not_true_is_false. intros Hi. pose proof (proj1 (cmp_swap b2 b1)).
  rewrite cmp_neg in *. intuition lia.
Qed.

Lemma cscan_node_order : node_order (cscan_tree_compare_nodes sortby).
Proof using Type.
  split.
  - intros x. unfold cscan_tree_compare_nodes, buf_cmp. rewrite inorder_irrefl. simpl.
    by rewrite Z.gtb_ltb, Z.ltb_irrefl.
  - apply cmp_swap.
  - intros x y z. rewrite !cmp_neg. intros [Hxy|[Hxy Hxy']] [Hyz|[Hyz Hyz']].
    + left. by eapply inorder_trans.
    + left. by eapply inorder_lt_le.
    + left. by eapply inorder_le_lt.
    + right. split; [by eapply inorder_neg_trans|lia].
Qed.

Lemma cscan_key_order key :
  key_order (cscan_tree_compare_nodes sortby) (λ b, cscan_tree_compare_key sortby b key).
Proof using Type.
  intros x y. rewrite cmp_neg. intros Hc. unfold cscan_tree_compare_key, buf_cmp.
  assert (Hxy : inorder y x sortby = false).
  { destruct Hc as [Hc|[Hc _]]; [by apply inorder_asym|done]. }
  destruct (inorder (key_buf key) x sortby) eqn:E1.
  { by rewrite (inorder_lt_le _ _ _ _ E1 Hxy). }
  destruct (inorder x (key_buf key) sortby) eqn:E2; [repeat case_match; lia|].
  destruct (inorder (key_buf key) y sortby); [lia|].
  destruct (inorder y (key_buf key) sortby) eqn:E3; [|lia].
  by rewrite (inorder_neg_trans _ _ _ _ Hxy E2) in E3.
Qed.
End order.

(** ** The state of a scan *)
Section scan.
Context {T : Type} `{RbTreeLaws T} (sortby : Z).

Definition cscan_contents (q : cscan_queue T) : list buf := rb_tree_nodes (cq_buffers q).

(** [bp] is at or after the position [key]. *)
Definition at_or_after (key : cscan_key) (bp : buf) : Prop := inorder bp (key_buf key) sortby = false.

Record cscan_ok (q : cscan_queue T) : Prop := {
  co_sortby : cq_sortby q = sortby;
  co_tree : rb_ok (cscan_tree_compare_nodes sortby) (cq_buffers q);
  co_distinct : distinct (cscan_contents q);
}.

Lemma cscan_empty_spec q : cscan_ok q → cscan_empty q = bool_decide (cscan_contents q = []).
Proof using All.
  intros [Hs Ht Hd]. unfold cscan_empty, cscan_contents.
  pose proof (rb_min_ok _ _ (cscan_node_order sortby) Ht) as Hm.
  destruct (rb_tree_min (cq_buffers q)) as [x|].
  - destruct Hm as [Hin _]. by destruct (rb_tree_nodes (cq_buffers q)); [set_solver|].
  - by rewrite Hm.
Qed.

Lemma cscan_put_ok q bp :
  cscan_ok q → fresh bp (cscan_contents q) →
  ∃ q', cscan_put q bp = Ok q' ∧ cscan_ok q' ∧ cscan_contents q' ≡ₚ bp :: cscan_contents q ∧
    cq_lastkey q' = cq_lastkey q.
Proof using All.
  intros [Hs Ht Hd] Hf. unfold cscan_put. rewrite Hs.
  pose proof (rb_insert_ok _ _ bp (cscan_node_order sortby) Ht) as Hi.
  destruct (rb_tree_insert_node _ _ bp) as [t r]. destruct Hi as (->&Ht'&Hp).
  { intros x Hx Hc%cmp_zero. apply Hf. rewrite <-Hc. by apply list_elem_of_fmap_2. }
  rewrite (proj2 (same_true bp bp)) by done. eexists. split; [done|]. unfold cscan_contents.
  split_and!; try done. split; [done|done|]. unfold cscan_contents. simpl. rewrite Hp.
  by apply distinct_cons.
Qed.

Lemma cscan_remove_ok q bp key :
  cscan_ok q → bp ∈ cscan_contents q →
  let q' := Cscan (rb_tree_remove_node (cq_buffers q) bp) key (cq_sortby q) in
  cscan_ok q' ∧ cscan_contents q ≡ₚ bp :: cscan_contents q'.
Proof using All.
  intros [Hs Ht Hd] Hin. destruct (rb_remove_ok _ _ bp Ht Hd Hin) as [Ht' Hp].
  split; [|done]. split; [done|done|]. unfold cscan_contents in *. simpl. rewrite Hp in Hd.
  by apply distinct_cons in Hd as [_ ?].
Qed.

(** The request that a scan serves next: of those at or after the last position
    the first, or else the first of all. *)
Definition next_of_scan (q : cscan_queue T) (bp : buf) : Prop :=
  bp ∈ cscan_contents q ∧
  ((at_or_after (cq_lastkey q) bp ∧
    ∀ y, y ∈ cscan_contents q → at_or_after (cq_lastkey q) y → inorder y bp sortby = false) ∨
   ((∀ y, y ∈ cscan_contents q → ¬ at_or_after (cq_lastkey q) y) ∧
    ∀ y, y ∈ cscan_contents q → inorder y bp sortby = false)).

Lemma compare_key_pos bp key : 0 ≤ cscan_tree_compare_key sortby bp key ↔ at_or_after key bp.
Proof using Type.
  unfold at_or_after, cscan_tree_compare_key. pose proof (buf_cmp_neg sortby bp (key_buf key)).
  destruct (inorder bp (key_buf key) sortby); intuition (congruence || lia).
Qed.

Lemma cscan_get_ok q :
  cscan_ok q →
  match (cscan_get q false).2 with
  | Some bp => next_of_scan q bp
  | None => cscan_contents q = []
  end.
Proof using All.
  intros Hok. pose proof Hok as [Hs Ht Hd]. unfold cscan_get, cscan_contents in *. rewrite Hs.
  pose proof (rb_geq_ok _ _ _ (cscan_node_order sortby)
    (cscan_key_order sortby (cq_lastkey q)) Ht) as Hg.
  destruct (rb_tree_find_node_geq _ _) as [x|]; simpl.
  - destruct Hg as (Hin&Hx&Hg). split; [done|]. left. split; [by apply compare_key_pos|].
    intros y Hy Hky. destruct Hg as [E|Hg]; [|by apply cmp_le, Hg; [|apply compare_key_pos]].
    eapply inorder_neg_trans; [done|]. pose proof (buf_cmp_pos sortby x (key_buf (cq_lastkey q))).
    unfold cscan_tree_compare_key in *. destruct (inorder _ x sortby); intuition (congruence || lia).
  - pose proof (rb_min_ok _ _ (cscan_node_order sortby) Ht) as Hm.
    destruct (rb_tree_min _) as [x|]; [|done]. destruct Hm as [Hin Hm]. split; [done|]. right.
    split; [intros y Hy Hk%compare_key_pos; specialize (Hg y Hy); lia|].
    intros y Hy. by apply cmp_le, Hm.
Qed.

(** A get that removes. *)
Lemma cscan_get_remove q :
  cscan_ok q →
  ∃ q', cscan_get q true = (q', (cscan_get q false).2) ∧ cscan_ok q' ∧
    match (cscan_get q false).2 with
    | Some bp => cscan_contents q ≡ₚ bp :: cscan_contents q' ∧ cq_lastkey q' = head_position bp
    | None => q' = q
    end.
Proof using All.
  intros Hok. pose proof (cscan_get_ok q Hok) as Hg. unfold cscan_get in *.
  destruct (rb_tree_find_node_geq _ _) as [x|]; simpl in *.
  - destruct (cscan_remove_ok q x (head_position x) Hok) as [? ?]; [apply Hg|]. by eexists.
  - destruct (rb_tree_min _) as [x|]; simpl in *; [|by exists q].
    destruct (cscan_remove_ok q x (head_position x) Hok) as [? ?]; [apply Hg|]. by eexists.
Qed.

Lemma cscan_get_false q : (cscan_get q false).1 = q.
Proof using Type. unfold cscan_get. by repeat case_match. Qed.
End scan.

(** ** The laws of priocscan *)
Section scans.
Context {T : Type} `{RbTreeLaws T} (sortby : Z).
Implicit Types q : list (priocscan_queue T).

Definition scans_contents q : list buf := q ≫= λ p, cscan_contents (q_queue p).

(** Three scans, each with the requests of its priority. *)
Record scans_ok q : Prop := {
  so_length : length q = PRIOCSCAN_NQUEUE;
  so_scans : Forall (λ p, cscan_ok sortby (q_queue p) ∧ 0 ≤ q_burst p) q;
  so_prio i p bp : q !! i = Some p → bp ∈ cscan_contents (q_queue p) →
    get priocscan_priomap (b_prio bp) = Ok (Z.of_nat i);
  so_distinct : distinct (scans_contents q);
}.

Lemma delete_insert_list {A} (l : list A) i x : delete i (<[i := x]> l) = delete i l.
Proof using Type. revert i. induction l as [|y l IH]; intros [|i]; simpl; by rewrite ?IH. Qed.
Lemma alter_insert_list {A} (l : list A) f i x : l !! i = Some x → alter f i l = <[i := f x]> l.
Proof using Type.
  revert i. induction l as [|y l IH]; intros [|i]; simpl; try done; intros Hi; simplify_eq; [done|].
  f_equal. by apply IH.
Qed.
Lemma scans_delete q i p :
  q !! i = Some p → scans_contents q ≡ₚ cscan_contents (q_queue p) ++ scans_contents (delete i q).
Proof using Type. intros Hi. unfold scans_contents. by rewrite (delete_Permutation q i p Hi) at 1. Qed.
Lemma scans_insert q i p p' :
  q !! i = Some p →
  scans_contents (<[i := p']> q) ≡ₚ cscan_contents (q_queue p') ++ scans_contents (delete i q).
Proof using Type.
  intros Hi. rewrite (scans_delete (<[i:=p']> q) i p'), delete_insert_list; [done|].
  by eapply list_lookup_insert_eq, lookup_lt_Some.
Qed.

Lemma scans_update q i p p' :
  scans_ok q → q !! i = Some p → cscan_ok sortby (q_queue p') → 0 ≤ q_burst p' →
  (∀ bp, bp ∈ cscan_contents (q_queue p') → get priocscan_priomap (b_prio bp) = Ok (Z.of_nat i)) →
  distinct (cscan_contents (q_queue p') ++ scans_contents (delete i q)) →
  scans_ok (<[i := p']> q).
Proof using Type.
  intros [] Hi Hok Hb Hp Hd. split.
  - by rewrite length_insert.
  - by apply Forall_insert.
  - intros j pj bp [(<-&<-&_)|(Hne&Hj)]%list_lookup_insert_Some Hin; [by apply Hp|by eapply so_prio0].
  - by rewrite scans_insert.
Qed.

(** The shapes of [served]. *)
Lemma served_spec q :
  length q = 3%nat → Forall (λ p, 0 ≤ q_burst p) q →
  match served q with
  | Some i => ∃ p, q !! i = Some p ∧ cscan_empty (q_queue p) = false
  | None => Forall (λ p, cscan_empty (q_queue p) = true) q
  end ∧ length (bursts_after q) = 3%nat ∧ Forall (λ b, 0 ≤ b) (bursts_after q).
Proof using Type.
  intros Hlen Hb. destruct q as [|[a ba] [|[b bb] [|[c bc] [|]]]]; try done. clear Hlen.
  apply Forall_cons in Hb as [Ha Hb]. apply Forall_cons in Hb as [Hb Hc].
  apply Forall_cons in Hc as [Hc _]. simpl in *. unfold bursts_after, served.
  cbn [live_from q_queue q_burst].
  destruct (cscan_empty a) eqn:Ea, (cscan_empty b) eqn:Eb, (cscan_empty c) eqn:Ec;
    rewrite ?filter_cons; simpl; repeat case_decide; simpl in *;
    (split; [by eauto|split; [done|repeat constructor; simpl; lia]]).
Qed.

Lemma with_bursts_contents q bs :
  length bs = length q → scans_contents (with_bursts q bs) = scans_contents q.
Proof using Type.
  revert bs. induction q as [|p q IH]; intros [|b bs]; try done. intros [= Hl]. simpl.
  f_equal. by apply IH.
Qed.
Lemma with_bursts_ok q bs :
  length bs = length q → Forall (λ b, 0 ≤ b) bs → scans_ok q → scans_ok (with_bursts q bs).
Proof using Type.
  intros Hl Hb []. split.
  - unfold with_bursts. by rewrite length_zip_with, Hl, Nat.min_id.
  - apply Forall_lookup. intros i p (p0&b&->&Hp&Hbi)%lookup_zip_with_Some. simpl.
    split; [by apply (Forall_lookup_1 _ _ _ _ so_scans0 Hp)|by apply (Forall_lookup_1 _ _ _ _ Hb Hbi)].
  - intros i p bp (p0&b&->&Hp&Hbi)%lookup_zip_with_Some Hin.
    by apply (so_prio0 i p0).
  - by rewrite with_bursts_contents.
Qed.

Lemma scans_bursts q : scans_ok q → Forall (λ p, 0 ≤ q_burst p) q.
Proof using Type. intros []. eapply Forall_impl; [done|]. naive_solver. Qed.

(** What a get does, with and without removal. *)
Lemma priocscan_get_ok q remove :
  scans_ok q →
  let q1 := if remove : bool then with_bursts q (bursts_after q) else q in
  match served q with
  | None => scans_contents q = [] ∧
      bufq_priocscan_get sortby (Priocscan q) remove = Ok (Priocscan q, None)
  | Some i => ∃ p bp, q !! i = Some p ∧ next_of_scan sortby (q_queue p) bp ∧
      (cscan_get (q_queue p) false).2 = Some bp ∧ (∃ b, q1 !! i = Some (PrioQueue (q_queue p) b)) ∧
      scans_ok q1 ∧
      bufq_priocscan_get sortby (Priocscan q) remove =
        Ok (Priocscan (alter (λ p, PrioQueue (cscan_get (q_queue p) remove).1 (q_burst p)) i q1),
            Some bp)
  end.
Proof using Type.
  intros Hok q1. pose proof (scans_bursts q Hok) as Hb. pose proof (so_length q Hok) as Hl.
  unfold PRIOCSCAN_NQUEUE in Hl. destruct (served_spec q Hl Hb) as (Hs&Hl2&Hb2).
  unfold bufq_priocscan_get. cbn [bq_queue]. rewrite priocscan_select_spec by done.
  destruct (served q) as [i|]; simpl.
  - destruct Hs as (p&Hi&He). exists p.
    pose proof (Forall_lookup_1 _ _ _ _ (so_scans q Hok) Hi) as [Hp _].
    pose proof (cscan_get_ok sortby (q_queue p) Hp) as Hg.
    rewrite (cscan_empty_spec sortby) in He by done. apply bool_decide_eq_false in He.
    destruct (cscan_get_remove sortby (q_queue p) Hp) as (c'&Er&_).
    destruct (cscan_get (q_queue p) false) as [c0 [bp|]] eqn:Ef; [|done]. exists bp. simpl in *.
    assert (Hg2 : (cscan_get (q_queue p) remove).2 = Some bp) by (destruct remove; rewrite ?Er, ?Ef; done).
    destruct (cscan_get (q_queue p) remove) as [c ?] eqn:Ec. simpl in *. subst.
    assert (Hq1 : ∃ b, q1 !! i = Some (PrioQueue (q_queue p) b)).
    { unfold q1. destruct remove; [|exists (q_burst p); by destruct p].
      destruct (lookup_lt_is_Some_2 (bursts_after q) i) as [b Hbi].
      { rewrite Hl2, <-Hl. by eapply lookup_lt_Some. }
      exists b. apply lookup_zip_with_Some. by eauto. }
    split_and!; try done.
    + unfold q1. destruct remove; [|done]. apply with_bursts_ok; [by rewrite Hl2, Hl|done..].
    + fold q1. destruct Hq1 as [b Hq1]. rewrite (proj2 (get_Ok q1 (Z.of_nat i) _)) by (split; [lia|by rewrite Nat2Z.id]).
      simpl. rewrite Ec, put_total by (pose proof (lookup_lt_Some _ _ _ Hq1); lia). simpl.
      rewrite Nat2Z.id. do 3 f_equal. apply list_eq. intros j.
      destruct (decide (i = j)) as [<-|Hne].
      * rewrite list_lookup_insert_eq by (by eapply lookup_lt_Some).
        rewrite list_lookup_alter_eq, Hq1. simpl. by rewrite Ec.
      * by rewrite list_lookup_insert_ne, list_lookup_alter_ne.
  - split; [|done]. unfold scans_contents. clear -Hs Hok.
    pose proof (so_scans q Hok) as Hf. clear Hok. induction q as [|p q IH]; [done|].
    apply Forall_cons in Hs as [Hp Hs], Hf as [[Hf _] Hfs]. simpl.
    rewrite (cscan_empty_spec sortby) in Hp by done. apply bool_decide_eq_true in Hp as ->.
    by apply IH.
Qed.

Lemma priocscan_put_ok q bp :
  scans_ok q → valid_buf bp → fresh bp (scans_contents q) →
  ∃ q', bufq_priocscan_put sortby (Priocscan q) bp = Ok (Priocscan q') ∧ scans_ok q' ∧
    scans_contents q' ≡ₚ bp :: scans_contents q.
Proof using All.
  intros Hok Hv Hf. unfold bufq_priocscan_put, bufq_priocscan_selectqueue. simpl.
  assert (Hi : ∃ i, get priocscan_priomap (b_prio bp) = Ok (Z.of_nat i) ∧ (i < 3)%nat).
  { unfold valid_buf in Hv.
    assert (b_prio bp = 0 ∨ b_prio bp = 1 ∨ b_prio bp = 2) as [E|[E|E]] by lia; rewrite E.
    - by exists 2%nat; split; [|lia].
    - by exists 1%nat; split; [|lia].
    - by exists 0%nat; split; [|lia]. }
  destruct Hi as (i&Hm&Hlt). rewrite Hm. simpl.
  destruct (lookup_lt_is_Some_2 q i) as [p Hp]; [by rewrite (so_length q Hok)|].
  rewrite (proj2 (get_Ok q (Z.of_nat i) p)) by (split; [lia|by rewrite Nat2Z.id]). simpl.
  pose proof (Forall_lookup_1 _ _ _ _ (so_scans q Hok) Hp) as [Hc Hb].
  rewrite (scans_delete _ _ _ Hp) in Hf. apply fresh_app in Hf as [Hf1 Hf2].
  destruct (cscan_put_ok sortby (q_queue p) bp Hc Hf1) as (c&Ec&Hc'&Hpc&_). rewrite Ec. simpl.
  rewrite put_total by (rewrite (so_length q Hok); unfold PRIOCSCAN_NQUEUE; lia). simpl.
  eexists. split; [done|]. rewrite Nat2Z.id. split.
  - apply (scans_update _ _ p); try done; simpl.
    + intros x Hx. rewrite Hpc in Hx. apply elem_of_cons in Hx as [->|Hx]; [done|].
      by apply (so_prio q Hok i p).
    + rewrite Hpc. simpl. rewrite distinct_cons, fresh_app, <-(scans_delete _ _ _ Hp).
      split; [done|]. apply (so_distinct q Hok).
  - by rewrite (scans_insert _ _ _ _ Hp), (scans_delete _ _ _ Hp), Hpc.
Qed.

Lemma scans_remove q i p bp c b :
  scans_ok q → q !! i = Some p → cscan_ok sortby c → 0 ≤ b →
  cscan_contents (q_queue p) ≡ₚ bp :: cscan_contents c →
  scans_ok (<[i := PrioQueue c b]> q) ∧
  scans_contents q ≡ₚ bp :: scans_contents (<[i := PrioQueue c b]> q).
Proof using Type.
  intros Hok Hp Hc Hb Hpc. split.
  - apply (scans_update _ _ p); try done; simpl.
    + intros x Hx. apply (so_prio q Hok i p); [done|]. rewrite Hpc. by right.
    + pose proof (so_distinct q Hok) as Hd. rewrite (scans_delete _ _ _ Hp), Hpc in Hd.
      by apply distinct_cons in Hd as [_ ?].
  - by rewrite (scans_insert _ _ _ _ Hp), (scans_delete _ _ _ Hp), Hpc.
Qed.

Lemma priocscan_get_remove q :
  scans_ok q →
  ∃ q' o, bufq_priocscan_get sortby (Priocscan q) true = Ok (Priocscan q', o) ∧ scans_ok q' ∧
    q_burst <$> q' = bursts_after q ∧
    match served q, o with
    | Some i, Some bp => scans_contents q ≡ₚ bp :: scans_contents q' ∧
        ∃ p p', q !! i = Some p ∧ q' !! i = Some p' ∧ next_of_scan sortby (q_queue p) bp ∧
          cscan_contents (q_queue p) ≡ₚ bp :: cscan_contents (q_queue p') ∧
          cq_lastkey (q_queue p') = head_position bp ∧
          ∀ j, j ≠ i → q_queue <$> q' !! j = q_queue <$> q !! j
    | None, None => scans_contents q = [] ∧ q' = q
    | _, _ => False
    end.
Proof using All.
  intros Hok. pose proof (priocscan_get_ok q true Hok) as Hg. simpl in Hg.
  assert (Hlb : length (bursts_after q) = length q).
  { rewrite (so_length q Hok). apply served_spec; [apply Hok|by apply scans_bursts]. }
  destruct (served q) as [i|] eqn:Es.
  - destruct Hg as (p&bp&Hp&Hn&Hget&(b&Hb)&Hok1&E). rewrite E. eexists _, _. split; [done|].
    pose proof (Forall_lookup_1 _ _ _ _ (so_scans q Hok) Hp) as [Hc _].
    destruct (cscan_get_remove sortby (q_queue p) Hc) as (c&Ec&Hc'&Hpc). rewrite Hget in *.
    destruct Hpc as [Hpc Hkey].
    rewrite (alter_insert_list _ _ _ _ Hb). simpl. rewrite Ec. simpl.
    pose proof (Forall_lookup_1 _ _ _ _ (scans_bursts _ Hok1) Hb) as Hbb. simpl in Hbb.
    destruct (scans_remove _ i _ bp c b Hok1 Hb Hc' Hbb Hpc) as [Hok2 Hp2].
    rewrite with_bursts_contents in Hp2 by done. split_and!; try done.
    + rewrite list_fmap_insert. simpl.
      rewrite list_insert_id by (by rewrite list_lookup_fmap, Hb).
      unfold with_bursts. rewrite fmap_zip_with_r; [done|done|lia].
    + exists p, (PrioQueue c b). split_and!; try done.
      * apply list_lookup_insert_eq. by eapply lookup_lt_Some.
      * intros j Hj. rewrite list_lookup_insert_ne by done. unfold with_bursts.
        rewrite lookup_zip_with. destruct (q !! j) as [pj|] eqn:Ej; [|done]. simpl.
        destruct (lookup_lt_is_Some_2 (bursts_after q) j) as [bj ->]; [|done].
        rewrite Hlb. by eapply lookup_lt_Some.
  - destruct Hg as [Hnil E]. rewrite E. exists q, None. split_and!; try done.
    unfold bursts_after. rewrite Es. by repeat case_match.
Qed.
End scans.

Section laws.
Context {T : Type} `{RbTreeLaws T}.
Implicit Types q : list (priocscan_queue T).

Lemma cancel_loop_spec q bp :
  match cancel_loop q bp with
  | (q', Some x) => ∃ i p, q !! i = Some p ∧ x ∈ cscan_contents (q_queue p) ∧ b_addr x = b_addr bp ∧
      let cq := q_queue p in
      q' = <[i := PrioQueue (Cscan (rb_tree_remove_node (cq_buffers cq) x) (cq_lastkey cq)
                              (cq_sortby cq)) (q_burst p)]> q
  | (q', None) => q' = q ∧ fresh bp (scans_contents q)
  end.
Proof using Type.
  induction q as [|p q IH]; [split; [done|]; unfold fresh; set_solver|]. cbn [cancel_loop].
  destruct (find_buf bp _) as [x|] eqn:Ef.
  - apply find_buf_Some in Ef as [? ?]. by exists 0%nat, p.
  - apply find_buf_None in Ef. destruct (cancel_loop q bp) as [q' [x|]].
    + destruct IH as (i&p'&?&?&?&->). by exists (S i), p'.
    + destruct IH as [-> ?]. split; [done|]. unfold scans_contents. simpl. by apply fresh_app.
Qed.

Lemma so_nonempty sortby q : scans_ok sortby q → (0 < length q)%nat.
Proof using Type. intros Hok. rewrite (so_length _ q Hok). unfold PRIOCSCAN_NQUEUE. lia. Qed.

#[export] Program Instance priocscan_laws : StrategyLaws (bufq_priocscan T) := {|
  contents s := scans_contents (bq_queue s);
  queue_ok sortby s := scans_ok sortby (bq_queue s);
|}.
Next Obligation. intros sortby s Hok. apply (so_distinct _ _ Hok). Qed.
Next Obligation.
  intros sortby.
  assert (Hi : rb_tree_nodes (rb_tree_init : T) = []) by apply (rb_init_ok (λ _ _, 0)).
  assert (Hnil : scans_contents (bq_queue (bufq_priocscan_init (T := T) sortby)) = []).
  { unfold scans_contents, cscan_contents. simpl. by rewrite Hi. }
  assert (Hd : distinct (scans_contents (bq_queue (bufq_priocscan_init (T := T) sortby)))).
  { rewrite Hnil. constructor. }
  split; [|done]. split; [done| | |done].
  - apply Forall_replicate. split; [|done]. split; [done|by apply rb_init_ok|].
    unfold cscan_contents. simpl. rewrite Hi. constructor.
  - intros i p bp [-> _]%lookup_replicate_1 Hin. unfold cscan_contents in Hin. simpl in Hin.
    rewrite Hi in Hin. set_solver.
Qed.
Next Obligation.
  intros sortby [q] bp Hok Hv Hf.
  destruct (priocscan_put_ok sortby q bp Hok Hv Hf) as (q'&?&?&?). by exists (Priocscan q').
Qed.
Next Obligation.
  intros sortby [q] Hok.
  destruct (priocscan_get_remove sortby q Hok) as (q'&o&E&Hok'&_&Ho). exists (Priocscan q'), o.
  split_and!; [done|done|]. simpl in *. destruct (served q), o; try done; [apply Ho|].
  destruct Ho as [Hnil ->]. done.
Qed.
Next Obligation.
  intros sortby [q] Hok. pose proof (priocscan_get_ok sortby q false Hok) as Hg.
  pose proof (priocscan_get_ok sortby q true Hok) as Hg2. simpl in *.
  destruct (served q) as [i|].
  - destruct Hg as (p&bp&Hp&_&Hget&(b&Hb)&_&E), Hg2 as (p2&bp2&Hp2&_&Hget2&_&_&E2).
    rewrite Hp in Hp2. injection Hp2 as <-. rewrite Hget in Hget2. injection Hget2 as <-.
    rewrite E. eexists _, (Some bp).
    assert (Hsame : alter (λ p, PrioQueue (cscan_get (q_queue p) false).1 (q_burst p)) i q = q).
    { rewrite (alter_insert_list _ _ _ _ Hp), cscan_get_false. destruct p. by apply list_insert_id. }
    rewrite Hsame, E2. split_and!; try done. by eexists.
  - destruct Hg as [Hnil E], Hg2 as [_ E2]. rewrite E. eexists _, _.
    split_and!; try done. rewrite E2. by eexists.
Qed.
Next Obligation.
  intros sortby [q] bp Hok. simpl in *. unfold bufq_priocscan_cancel. simpl.
  pose proof (cancel_loop_spec q bp) as Hc. destruct (cancel_loop q bp) as [q' [x|]]; simpl.
  - destruct Hc as (i&p&Hp&Hin&Ha&->).
    pose proof (Forall_lookup_1 _ _ _ _ (so_scans _ q Hok) Hp) as [Hcp Hb].
    destruct (cscan_remove_ok sortby _ _ (cq_lastkey (q_queue p)) Hcp Hin) as [Hc' Hpc].
    destruct (scans_remove sortby q i p x _ (q_burst p) Hok Hp Hc' Hb Hpc) as [? ?]. done.
  - destruct Hc as [-> Hf]. done.
Qed.
End laws.

(** ** How the burst counts share the disk *)
Section cycle.
Context {T : Type} `{RbTreeLaws T} (sortby : Z).
Implicit Types q : list (priocscan_queue T).

(** The queue served, and the burst counts after it, when all have requests. *)
Definition turn (bs : list Z) : option nat * list Z :=
  match bs with
  | [b0; b1; b2] =>
    if 0 <? b0 then (Some 0%nat, [b0 - 1; b1; b2])
    else if 0 <? b1 then (Some 1%nat, [b0; b1 - 1; b2])
    else if 0 <? b2 then (Some 2%nat, [b0; b1; b2 - 1])
    else (Some 0%nat, [63; 16; 4])
  | _ => (None, bs)
  end.
Fixpoint turns (k : nat) (bs : list Z) : list nat * list Z :=
  match k with
  | O => ([], bs)
  | S k =>
    let '(o, bs) := turn bs in
    let '(l, bs) := turns k bs in (option_list o ++ l, bs)
  end.

Lemma served_live q :
  length q = 3%nat → Forall (λ p, 0 ≤ q_burst p) q → Forall (λ p, cscan_empty (q_queue p) = false) q →
  served q = (turn (q_burst <$> q)).1 ∧ bursts_after q = (turn (q_burst <$> q)).2 ∧
  is_Some (served q).
Proof using Type.
  intros Hlen Hb He. destruct q as [|[a ba] [|[b bb] [|[c bc] [|]]]]; try done. clear Hlen.
  apply Forall_cons in Hb as [Ha Hb]. apply Forall_cons in Hb as [Hb Hc].
  apply Forall_cons in Hc as [Hc _]. apply Forall_cons in He as [Ea He].
  apply Forall_cons in He as [Eb He]. apply Forall_cons in He as [Ec _].
  unfold bursts_after, served. cbn [live_from q_queue q_burst] in *. rewrite Ea, Eb, Ec.
  rewrite !filter_cons. simpl in *.
  destruct (Z.ltb_spec 0 ba), (Z.ltb_spec 0 bb), (Z.ltb_spec 0 bc); repeat case_decide; simpl in *;
    try lia; by eauto.
Qed.

Lemma prio_of_index bp i : get priocscan_priomap (b_prio bp) = Ok (Z.of_nat i) → b_prio bp = 2 - Z.of_nat i.
Proof using Type.
  intros [H1 H2]%get_Ok. destruct (Z.to_nat (b_prio bp)) as [|[|[|]]] eqn:E; simplify_eq/=; lia.
Qed.

Lemma run_turns k : ∀ q,
  scans_ok sortby q → Forall (λ p, (k ≤ length (cscan_contents (q_queue p)))%nat) q →
  ∃ q' out, queue_run sortby (Priocscan q) (replicate k OpGet) = Ok (Priocscan q', out) ∧
    q_burst <$> q' = (turns k (q_burst <$> q)).2 ∧
    b_prio <$> out = (λ i : nat, 2 - Z.of_nat i) <$> (turns k (q_burst <$> q)).1.
Proof using All.
  induction k as [|k IH]; intros q Hok Hlen; [by exists q, []|].
  destruct (served_live q) as (Es&Eb&[i Hi]); [apply (so_length sortby q Hok)|by eapply scans_bursts| |].
  { apply Forall_forall. intros p Hp. pose proof (so_scans sortby q Hok) as Hf.
    rewrite Forall_forall in Hf, Hlen. specialize (Hlen p Hp). rewrite (cscan_empty_spec sortby) by (by apply Hf).
    apply bool_decide_eq_false. by destruct (cscan_contents (q_queue p)); [simpl in Hlen; lia|]. }
  destruct (priocscan_get_remove sortby q Hok) as (q1&o&E&Hok1&Hb1&Ho).
  rewrite Hi in Ho, Es. destruct o as [bp|]; [|done].
  destruct Ho as (_&p&p1&Hp&Hp1&_&Hpc&_&Hother). rewrite Eb in Hb1.
  assert (Hprio : b_prio bp = 2 - Z.of_nat i).
  { apply prio_of_index. apply (so_prio sortby q Hok i p); [done|]. rewrite Hpc. by left. }
  assert (Hlen1 : Forall (λ p, (k ≤ length (cscan_contents (q_queue p)))%nat) q1).
  { apply Forall_lookup. intros j pj Hj. rewrite Forall_lookup in Hlen.
    destruct (decide (j = i)) as [->|Hne].
    - simplify_eq. specialize (Hlen _ _ Hp). rewrite Hpc in Hlen. simpl in Hlen. lia.
    - specialize (Hother j Hne). rewrite Hj in Hother. simpl in Hother.
      destruct (q !! j) as [pj0|] eqn:Ej; [|done]. specialize (Hlen _ _ Ej).
      injection Hother as ->. lia. }
  destruct (IH q1 Hok1 Hlen1) as (q2&out&E2&Hb2&Hout). exists q2, (bp :: out).
  cbn [replicate queue_run queue_step turns]. unfold bufq_get at 1. simpl bs_get. rewrite E.
  cbn [mbind res_bind]. rewrite E2. rewrite Hb1 in Hb2, Hout.
  destruct (turn (q_burst <$> q)) as [oi bs]. simpl in Es, Hb2, Hout. subst oi.
  destruct (turns k bs) as [l bs']. simpl in *. split_and!; [done|done|]. by f_equal.
Qed.
End cycle.

(** C20: a get from a priocscan queue never faults, serves the queue that
    [served] names (the only one with requests, or else the highest priority one
    that has some of its burst left, or else the highest priority one after a
    reset of all counts), leaves the burst counts that [bursts_after] gives and
    the other queues alone, and takes from it the first request at or after the
    head position, or the first of all when there is none; the head position is
    then the end of that request. *)
Theorem priocscan_get_serves {T : Type} `{L : RbTreeLaws T} sortby (q : list (priocscan_queue T)) :
  scans_ok sortby q →
  ∃ q' o, bufq_priocscan_get sortby (Priocscan q) true = Ok (Priocscan q', o) ∧ scans_ok sortby q' ∧
    q_burst <$> q' = bursts_after q ∧
    match served q, o with
    | Some i, Some bp => scans_contents q ≡ₚ bp :: scans_contents q' ∧
        ∃ p p', q !! i = Some p ∧ q' !! i = Some p' ∧ next_of_scan sortby (q_queue p) bp ∧
          cscan_contents (q_queue p) ≡ₚ bp :: cscan_contents (q_queue p') ∧
          cq_lastkey (q_queue p') = head_position bp ∧
          ∀ j, j ≠ i → q_queue <$> q' !! j = q_queue <$> q !! j
    | None, None => scans_contents q = [] ∧ q' = q
    | _, _ => False
    end.
Proof. apply priocscan_get_remove. Qed.

(** C15: while all three queues of priocscan have requests, 84 at least each, 84
    gets from counts of 0 serve 64 time critical requests, then 16 time limited
    and then 4 other requests, and end with counts of 0: no queue is starved. *)
Theorem priocscan_cycle {T : Type} `{L : RbTreeLaws T} sortby (q : list (priocscan_queue T)) :
  scans_ok sortby q → q_burst <$> q = [0; 0; 0] →
  Forall (λ p, (84 ≤ length (cscan_contents (q_queue p)))%nat) q →
  ∃ q' out, queue_run sortby (Priocscan q) (replicate 84 OpGet) = Ok (Priocscan q', out) ∧
    q_burst <$> q' = [0; 0; 0] ∧
    b_prio <$> out = replicate 64 BPRIO_TIMECRITICAL ++ replicate 16 BPRIO_TIMELIMITED ++
      replicate 4 BPRIO_TIMENONCRITICAL.
Proof.
  intros Hok Hb Hlen. destruct (run_turns sortby 84 q Hok Hlen) as (q'&out&E&Hb'&Hout).
  rewrite Hb in Hb', Hout. by exists q', out.
Qed.

(** C14: each of the four strategies delivers, whatever the order it sorts by,
    and priocscan over any red-black tree with the documented laws: from the
    empty queue no history of puts, gets, peeks and cancellations faults, as
    long as a request that is put has a priority of 0, 1 or 2 and an address
    that is not that of a request still on the queue; every request put is
    handed out exactly once, by a get or a cancellation of the history or by the
    [bufq_drain] that follows it, which stops; and a peek shows what the next
    get takes. *)
Theorem queues_deliver {T : Type} `{L : RbTreeLaws T} sortby :
  delivers bufq_fcfs sortby ∧ delivers bufq_disksort sortby ∧
  delivers bufq_prio sortby ∧ delivers (bufq_priocscan T) sortby.
Proof. split_and!; apply laws_deliver. Qed.

(** Three queues of [n] requests, the blocks ascending from 100. *)
Definition sample_bufs (n : nat) (prio base : Z) : list buf :=
  (λ a, Buf (base + a) (100 + a) 0 512 0 prio) <$> seqZ 0 (Z.of_nat n).
Definition sample_scan (n : nat) (prio : Z) (burst : Z) : priocscan_queue (list buf) :=
  PrioQueue (Cscan (sample_bufs n prio (1000 * (1 + prio))) (CscanKey 101 0) BUFQ_SORT_RAWBLOCK) burst.
Definition sample_scans (n : nat) (b0 b1 b2 : Z) : list (priocscan_queue (list buf)) :=
  [sample_scan n 2 b0; sample_scan n 1 b1; sample_scan n 0 b2].

(** A check of [scans_ok] that computes, for queues on ordered lists. *)
Definition scans_check sortby (q : list (priocscan_queue (list buf))) : bool :=
  bool_decide (length q = PRIOCSCAN_NQUEUE) &&
  forallb (λ p, bool_decide (cq_sortby (q_queue p) = sortby ∧
    node_sorted (cscan_tree_compare_nodes sortby) (cq_buffers (q_queue p)) ∧
    distinct (cq_buffers (q_queue p)) ∧ 0 ≤ q_burst p)) q &&
  forallb (λ x, forallb (λ bp,
    match get priocscan_priomap (b_prio bp) with Ok i => i =? Z.of_nat x.1 | Fault _ => false end)
    (cq_buffers (q_queue x.2))) (imap pair q) &&
  bool_decide (distinct (scans_contents q)).
Lemma scans_check_ok sortby q : scans_check sortby q = true → scans_ok sortby q.
Proof.
  unfold scans_check. intros [[[H1%bool_decide_eq_true H2]%andb_true_iff H3]%andb_true_iff
    H4%bool_decide_eq_true]%andb_true_iff. rewrite !forallb_forall in *. split; [done| | |done].
  - apply Forall_forall. intros p Hp. apply list_elem_of_In in Hp.
    specialize (H2 p Hp). apply bool_decide_eq_true in H2 as (?&?&?&?). by split; [split|].
  - intros i p bp Hp Hbp. specialize (H3 (i, p)). rewrite forallb_forall in H3.
    apply list_elem_of_In in Hbp. assert (Hin : In (i, p) (imap pair q)).
    { apply list_elem_of_In, (list_elem_of_lookup_2 _ i). by rewrite list_lookup_imap, Hp. }
    specialize (H3 Hin bp Hbp). simpl in H3. destruct (get _ _) as [z|]; [|done]. by apply Z.eqb_eq in H3 as ->.
Qed.

Lemma priocscan_get_serves_witness :
  ∃ q' o, bufq_priocscan_get BUFQ_SORT_RAWBLOCK (Priocscan (sample_scans 3 0 0 2)) true =
      Ok (Priocscan q', o) ∧ scans_ok BUFQ_SORT_RAWBLOCK q' ∧
    q_burst <$> q' = bursts_after (sample_scans 3 0 0 2) ∧
    match served (sample_scans 3 0 0 2), o with
    | Some i, Some bp => scans_contents (sample_scans 3 0 0 2) ≡ₚ bp :: scans_contents q' ∧
        ∃ p p', sample_scans 3 0 0 2 !! i = Some p ∧ q' !! i = Some p' ∧
          next_of_scan BUFQ_SORT_RAWBLOCK (q_queue p) bp ∧
          cscan_contents (q_queue p) ≡ₚ bp :: cscan_contents (q_queue p') ∧
          cq_lastkey (q_queue p') = head_position bp ∧
          ∀ j, j ≠ i → q_queue <$> q' !! j = q_queue <$> sample_scans 3 0 0 2 !! j
    | None, None => scans_contents (sample_scans 3 0 0 2) = [] ∧ q' = sample_scans 3 0 0 2
    | _, _ => False
    end.
Proof.
  apply (priocscan_get_serves (L := list_tree_laws)). apply scans_check_ok. vm_compute. reflexivity.
Defined.

Lemma priocscan_cycle_witness :
  ∃ q' out, queue_run BUFQ_SORT_RAWBLOCK (Priocscan (sample_scans 84 0 0 0)) (replicate 84 OpGet) =
      Ok (Priocscan q', out) ∧
    q_burst <$> q' = [0; 0; 0] ∧
    b_prio <$> out = replicate 64 BPRIO_TIMECRITICAL ++ replicate 16 BPRIO_TIMELIMITED ++
      replicate 4 BPRIO_TIMENONCRITICAL.
Proof.
  apply (priocscan_cycle (L := list_tree_laws)).
  - apply scans_check_ok. vm_compute. reflexivity.
  - reflexivity.
  - by_decide.
Defined.

(** Reads, writes and a cancellation, with an address used again after its
    request was handed out. *)
Definition sample_history : list queue_op :=
  [OpPut (sample_write 1 50); OpPut (sample_read 2); OpPut (sample_write 3 20); OpPeek; OpGet;
   OpCancel (sample_write 1 50); OpPut (sample_write 1 70); OpGet; OpPut (sample_write 5 60)].

Lemma queues_deliver_witness : ∃ s out,
  queue_run BUFQ_SORT_RAWBLOCK (bs_init BUFQ_SORT_RAWBLOCK) sample_history = Ok (s, out) ∧
  (∃ s' rest, bufq_drain (S := bufq_priocscan (list buf)) BUFQ_SORT_RAWBLOCK 6 s =
      Ok (s', done_with_error <$> rest) ∧ (sample_history ≫= op_puts) ≡ₚ out ++ rest) ∧
  ∃ s1 s2 o, bufq_peek BUFQ_SORT_RAWBLOCK s = Ok (s1, o) ∧ bufq_get BUFQ_SORT_RAWBLOCK s1 = Ok (s2, o).
Proof.
  apply (queues_deliver (L := list_tree_laws) BUFQ_SORT_RAWBLOCK). by_decide.
Defined.
