(* ===== verification/Blist.v ===== *)
(** * Radix tree block lists (kern/subr_blist.c, sys/blist.h)

    The free blocks of a swap device: a tree of nodes laid out in one array.  A
    leaf holds a bitmap of 32 blocks; a meta node holds the number of free
    blocks below it, and its sixteen children are brought up to date only while
    that number is neither zero nor all of them. *)

From S2P Require Export Prelude.

Definition BLIST_NONE : Z := 2 ^ 32 - 1.
Definition BLIST_BMAP_RADIX : Z := 32.
Definition BLIST_META_RADIX : Z := 16.

(** The all-ones word, [(blist_bitmap_t)-1]. *)
Definition ONES : Z := 2 ^ 32 - 1.

(** A node: the union [u], whose members are both 32 bits wide, and the hint. *)
Record blmeta := Blmeta {
  bmu : Z;
  bm_bighint : Z;
}.

(** A list: [bl_root] is the array of nodes. *)
Record blist := Blist {
  bl_blocks : Z;
  bl_radix : Z;
  bl_skip : Z;
  bl_free : Z;
  bl_root : list blmeta;
  bl_rootblks : Z;
}.

Definition with_bl_root (bl : blist) (root : list blmeta) : blist :=
  Blist (bl_blocks bl) (bl_radix bl) (bl_skip bl) (bl_free bl) root (bl_rootblks bl).
Definition with_bl_free (bl : blist) (n : Z) : blist :=
  Blist (bl_blocks bl) (bl_radix bl) (bl_skip bl) n (bl_root bl) (bl_rootblks bl).

(** Stores to the two members of a node. *)
Definition set_bmu (mem : list blmeta) (i v : Z) : res (list blmeta) :=
  m ← get mem i; put mem i (Blmeta v (bm_bighint m)).
Definition set_hint (mem : list blmeta) (i v : Z) : res (list blmeta) :=
  m ← get mem i; put mem i (Blmeta (bmu m) v).

(** Shifts of a 32-bit word; a shift by 32 or more is undefined. *)
Definition shl (x n : Z) : res Z :=
  if (0 <=? n) && (n <? 32) then mret (u32 (Z.shiftl x n)) else Fault ShiftRange.
Definition shr (x n : Z) : res Z :=
  if (0 <=? n) && (n <? 32) then mret (Z.shiftr x n) else Fault ShiftRange.

(** ** Leaves *)

(** The search of one bit that is set. *)
Fixpoint bit_loop (fuel : nat) (j r orig mask : Z) : res Z :=
  if j =? 0 then mret r
  else
    match fuel with
    | O => Fault NoFuel
    | S fuel =>
      '(r, orig) ← (if orig .& mask =? 0 then orig ← shr orig j; mret (r + j, orig)
                    else mret (r, orig));
      let j := Z.shiftr j 1 in
      mask ← shr mask j;
      bit_loop fuel j r orig mask
    end.

(** The search of a run: its position and its mask. *)
Fixpoint run_loop (fuel : nat) (j n orig mask : Z) : res (option (Z * Z)) :=
  if j <=? n then
    match fuel with
    | O => Fault NoFuel
    | S fuel =>
      if orig .& mask =? mask then mret (Some (j, mask))
      else mask ← shl mask 1; run_loop fuel (j + 1) n orig mask
    end
  else mret None.

(** [count] is an [int], compared with the unsigned [BLIST_BMAP_RADIX]. *)
Definition blst_leaf_alloc (mem : list blmeta) (scan blk count : Z) : res (list blmeta * Z) :=
  m ← get mem scan;
  let orig := bmu m in
  if orig =? 0 then mem ← set_hint mem scan 0; mret (mem, BLIST_NONE)
  else if count =? 1 then
    mask ← shr ONES (BLIST_BMAP_RADIX / 2);
    r ← bit_loop 6 (BLIST_BMAP_RADIX / 2) 0 orig mask;
    bit ← shl 1 r;
    mem ← set_bmu mem scan (Z.ldiff orig bit);
    mret (mem, u32 (blk + r))
  else
    found ← (if u64 count <=? BLIST_BMAP_RADIX then
               let n := BLIST_BMAP_RADIX - count in
               mask ← shr ONES n;
               run_loop 34 0 n orig mask
             else mret None);
    match found with
    | Some (j, mask) =>
      mem ← set_bmu mem scan (Z.ldiff orig mask);
      mret (mem, u32 (blk + j))
    | None => mem ← set_hint mem scan (u32 (count - 1)); mret (mem, BLIST_NONE)
    end.

(** The mask of [count] bits from the place of [blk] in its leaf. *)
Definition leaf_mask (blk count : Z) : res Z :=
  let n := blk .& (BLIST_BMAP_RADIX - 1) in
  lo ← shl ONES n;
  hi ← shr ONES (u64 (BLIST_BMAP_RADIX - count - n));
  mret (lo .& hi).

Definition blst_leaf_free (mem : list blmeta) (scan blk count : Z) : res (list blmeta) :=
  mask ← leaf_mask blk count;
  m ← get mem scan;
  if negb (bmu m .& mask =? 0) then Fault Panic
  else
    mem ← set_bmu mem scan (bmu m .| mask);
    set_hint mem scan BLIST_BMAP_RADIX.

(** The loop that counts the bits of a word. *)
Fixpoint count_loop (fuel : nat) (bitmap nblks : Z) : res Z :=
  if bitmap =? 0 then mret nblks
  else
    match fuel with
    | O => Fault NoFuel
    | S fuel => count_loop fuel (bitmap .& (bitmap - 1)) (nblks + 1)
    end.

Definition blst_leaf_fill (mem : list blmeta) (scan blk count : Z) : res (list blmeta * Z) :=
  mask ← leaf_mask blk count;
  m ← get mem scan;
  nblks ← count_loop 33 (bmu m .& mask) 0;
  mem ← set_bmu mem scan (Z.ldiff (bmu m) mask);
  mret (mem, nblks).

(** ** Meta nodes

    The children of the node at [scan] are at [scan + i] for [i] from 1 to
    [skip] in steps of [next_skip], up to a child with the hint -1.  The number
    of levels is the fuel of the recursive functions, and a loop over the
    children takes at most sixteen turns.  Indices are not wrapped: [skip] is
    less than the number of blocks. *)
Definition CHILDREN : nat := 17.

(** The loop that brings the children of a node up to date. *)
Fixpoint init_loop (fuel : nat) (mem : list blmeta) (scan i skip next_skip : Z)
    (leaf meta : blmeta) : res (list blmeta) :=
  if i <=? skip then
    match fuel with
    | O => Fault NoFuel
    | S fuel =>
      c ← get mem (scan + i);
      if bm_bighint c =? BLIST_NONE then mret mem
      else
        mem ← put mem (scan + i) (if next_skip =? 1 then leaf else meta);
        init_loop fuel mem scan (i + next_skip) skip next_skip leaf meta
    end
  else mret mem.

(** The loop over the children; [child] allocates from one of them. *)
Fixpoint alloc_loop (child : list blmeta → Z → Z → res (list blmeta * Z)) (fuel : nat)
    (mem : list blmeta) (scan i blk count radix skip next_skip : Z) : res (list blmeta * Z) :=
  if i <=? skip then
    match fuel with
    | O => Fault NoFuel
    | S fuel =>
      let next mem := alloc_loop child fuel mem scan (i + next_skip) (u32 (blk + radix)) count radix
                        skip next_skip in
      c ← get mem (scan + i);
      if bm_bighint c =? BLIST_NONE then mret (mem, BLIST_NONE)
      else if count <=? bm_bighint c then
        '(mem, r) ← child mem (scan + i) blk;
        if negb (r =? BLIST_NONE) then
          m ← get mem scan;
          let avail := u32 (bmu m - count) in
          mem ← set_bmu mem scan avail;
          mem ← (if bm_bighint m >? avail then set_hint mem scan avail else mret mem);
          mret (mem, r)
        else next mem
      else if count >? radix then Fault Panic
      else next mem
    end
  else mret (mem, BLIST_NONE).

Fixpoint blst_meta_alloc (levels : nat) (mem : list blmeta) (scan blk count radix skip : Z) :
    res (list blmeta * Z) :=
  match levels with
  | O => Fault NoFuel
  | S levels =>
    let next_skip := skip / BLIST_META_RADIX in
    m ← get mem scan;
    if bmu m =? 0 then mem ← set_hint mem scan count; mret (mem, BLIST_NONE)
    else
      let sub := radix / BLIST_META_RADIX in
      mem ← (if bmu m =? radix then
               init_loop CHILDREN mem scan 1 skip next_skip (Blmeta ONES BLIST_BMAP_RADIX)
                 (Blmeta sub sub)
             else mret mem);
      '(mem, r) ← alloc_loop (λ mem scan blk,
          if next_skip =? 1 then blst_leaf_alloc mem scan blk (s32 count)
          else blst_meta_alloc levels mem scan blk count sub (next_skip - 1))
        CHILDREN mem scan 1 blk count sub skip next_skip;
      if negb (r =? BLIST_NONE) then mret (mem, r)
      else
        m ← get mem scan;
        mem ← (if bm_bighint m >=? count then set_hint mem scan (u32 (count - 1)) else mret mem);
        mret (mem, BLIST_NONE)
  end.

(** The loop of a free and of a fill over the children that the range
    [from, from + count) touches; [child mem scan from v blk] treats the part of
    the range in one child and returns a number of blocks. *)
Fixpoint range_loop (child : list blmeta → Z → Z → Z → Z → res (list blmeta * Z)) (fuel : nat)
    (mem : list blmeta) (scan i blk from count radix skip next_skip nblks : Z) :
    res (list blmeta * Z) :=
  if (i <=? skip) && (blk <? u32 (from + count)) then
    match fuel with
    | O => Fault NoFuel
    | S fuel =>
      let v := u32 (blk + radix - from) in
      let v := if v >? count then count else v in
      m ← get mem scan;
      if bm_bighint m =? BLIST_NONE then Fault Panic
      else
        '(mem, k) ← child mem (scan + i) from v blk;
        range_loop child fuel mem scan (i + next_skip) (u32 (blk + radix)) (u32 (from + v))
          (u32 (count - v)) radix skip next_skip (u32 (nblks + k))
    end
  else mret (mem, nblks).

(** The hint of a node is raised to that of a child. *)
Definition raise_hint (mem : list blmeta) (scan child : Z) : res (list blmeta) :=
  m ← get mem scan;
  c ← get mem child;
  if bm_bighint m <? bm_bighint c then set_hint mem scan (bm_bighint c) else mret mem.

Fixpoint blst_meta_free (levels : nat) (mem : list blmeta) (scan freeBlk count radix skip blk : Z) :
    res (list blmeta) :=
  match levels with
  | O => Fault NoFuel
  | S levels =>
    let next_skip := skip / BLIST_META_RADIX in
    m ← get mem scan;
    mem ← (if bmu m =? 0 then
             mem ← put mem scan (Blmeta count count);
             if negb (count =? radix) then
               init_loop CHILDREN mem scan 1 skip next_skip (Blmeta 0 0) (Blmeta 0 0)
             else mret mem
           else set_bmu mem scan (u32 (bmu m + count)));
    m ← get mem scan;
    if bmu m =? radix then mret mem
    else if bmu m >? radix then Fault Panic
    else
      let sub := radix / BLIST_META_RADIX in
      let i := u32 (freeBlk - blk) / sub in
      '(mem, _) ← range_loop (λ mem child from v blk,
          mem ← (if next_skip =? 1 then blst_leaf_free mem child from (s32 v)
                 else blst_meta_free levels mem child from v sub (next_skip - 1) blk);
          mem ← raise_hint mem scan child;
          mret (mem, 0))
        CHILDREN mem scan (i * next_skip + 1) (u32 (blk + i * sub)) freeBlk count sub skip
        next_skip 0;
      mret mem
  end.

Fixpoint blst_meta_fill (levels : nat) (mem : list blmeta) (scan allocBlk count radix skip blk : Z) :
    res (list blmeta * Z) :=
  match levels with
  | O => Fault NoFuel
  | S levels =>
    let next_skip := skip / BLIST_META_RADIX in
    m ← get mem scan;
    if (count =? radix) || (bmu m =? 0) then
      mem ← put mem scan (Blmeta 0 count);
      mret (mem, bmu m)
    else if count >? radix then Fault Panic
    else
      let sub := radix / BLIST_META_RADIX in
      mem ← (if bmu m =? radix then
               init_loop CHILDREN mem scan 1 skip next_skip (Blmeta ONES BLIST_BMAP_RADIX)
                 (Blmeta sub sub)
             else mret mem);
      let i := u32 (allocBlk - blk) / sub in
      '(mem, nblks) ← range_loop (λ mem child from v blk,
          if next_skip =? 1 then blst_leaf_fill mem child from (s32 v)
          else blst_meta_fill levels mem child from v sub (next_skip - 1) blk)
        CHILDREN mem scan (i * next_skip + 1) (u32 (blk + i * sub)) allocBlk count sub skip
        next_skip 0;
      m ← get mem scan;
      mem ← set_bmu mem scan (u32 (bmu m - nblks));
      mret (mem, nblks)
  end.

(** The layout of the tree for [count] blocks: the index of the last node
    relative to this one, and the array with its nodes set up when there is one
    ([scan] is [None] in the pass that only counts the nodes). *)
Fixpoint radix_init_loop
    (child : option (list blmeta * Z) → Z → res (option (list blmeta) * Z)) (fuel : nat)
    (scan : option (list blmeta * Z)) (i radix skip next_skip count memindex : Z) :
    res (option (list blmeta) * Z * Z) :=
  if i <=? skip then
    match fuel with
    | O => Fault NoFuel
    | S fuel =>
      let at_child := (λ x, (x.1, x.2 + i)) <$> scan in
      let next count :=
        '(mem, k) ← child at_child (if count >=? radix then radix else count);
        radix_init_loop child fuel (m ← mem; x ← scan; Some (m, x.2)) (i + next_skip) radix skip
          next_skip (if count >=? radix then count - radix else 0) (i + k) in
      if count >=? radix then next count
      else if count >? 0 then next count
      else
        mem ← match scan with
              | Some (mem, s) => mem ← set_hint mem (s + i) BLIST_NONE; mret (Some mem)
              | None => mret None
              end;
        mret (mem, i, memindex)
    end
  else mret (fst <$> scan, i, memindex).

Fixpoint blst_radix_init (levels : nat) (scan : option (list blmeta * Z)) (radix skip count : Z) :
    res (option (list blmeta) * Z) :=
  match levels with
  | O => Fault NoFuel
  | S levels =>
    scan ← match scan with
           | Some (mem, s) => mem ← put mem s (Blmeta 0 0); mret (Some (mem, s))
           | None => mret None
           end;
    if radix =? BLIST_BMAP_RADIX then mret (fst <$> scan, 0)
    else
      let sub := radix / BLIST_META_RADIX in
      let next_skip := skip / BLIST_META_RADIX in
      '(mem, i, memindex) ← radix_init_loop (λ scan count,
          blst_radix_init levels scan sub (next_skip - 1) count)
        CHILDREN scan 1 sub skip next_skip count 0;
      mret (mem, if memindex <? i then i else memindex)
  end.

(** ** The exported operations

    A list pointer may be null.  A tree for 32-bit block numbers has at most
    [LEVELS] levels. *)
Definition LEVELS : nat := 8.

(** The loop that finds the radix and the skip of the root. *)
Fixpoint radix_loop (fuel : nat) (radix skip blocks : Z) : res (Z * Z) :=
  if radix <? blocks then
    match fuel with
    | O => Fault NoFuel
    | S fuel =>
      radix_loop fuel (u32 (radix * BLIST_META_RADIX)) (u32 ((skip + 1) * BLIST_META_RADIX)) blocks
    end
  else mret (radix, skip).

(** [junk] is what the memory for the nodes holds when it is allocated. *)
Definition blist_create (junk : Z → list blmeta) (blocks : Z) : res blist :=
  '(radix, skip) ← radix_loop LEVELS BLIST_BMAP_RADIX 0 blocks;
  '(_, k) ← blst_radix_init LEVELS None radix skip blocks;
  let rootblks := u32 (1 + k) in
  '(mem, _) ← blst_radix_init LEVELS (Some (junk rootblks, 0)) radix skip blocks;
  root ← match mem with Some mem => mret mem | None => Fault NullDeref end;
  mret (Blist blocks radix skip 0 root rootblks).

Definition blist_alloc (bl : option blist) (count : Z) : res (option blist * Z) :=
  match bl with
  | None => mret (None, BLIST_NONE)
  | Some bl =>
    '(mem, blk) ← (if bl_radix bl =? BLIST_BMAP_RADIX
                   then blst_leaf_alloc (bl_root bl) 0 0 (s32 count)
                   else blst_meta_alloc LEVELS (bl_root bl) 0 0 count (bl_radix bl) (bl_skip bl));
    let bl := with_bl_root bl mem in
    mret (Some (if negb (blk =? BLIST_NONE) then with_bl_free bl (u32 (bl_free bl - count)) else bl),
          blk)
  end.

Definition blist_free (bl : option blist) (blkno count : Z) : res (option blist) :=
  match bl with
  | None => mret None
  | Some bl =>
    mem ← (if bl_radix bl =? BLIST_BMAP_RADIX then blst_leaf_free (bl_root bl) 0 blkno (s32 count)
           else blst_meta_free LEVELS (bl_root bl) 0 blkno count (bl_radix bl) (bl_skip bl) 0);
    mret (Some (with_bl_free (with_bl_root bl mem) (u32 (bl_free bl + count))))
  end.

Definition blist_fill (bl : option blist) (blkno count : Z) : res (option blist * Z) :=
  match bl with
  | None => mret (None, 0)
  | Some bl =>
    '(mem, filled) ← (if bl_radix bl =? BLIST_BMAP_RADIX
                      then blst_leaf_fill (bl_root bl) 0 blkno (s32 count)
                      else blst_meta_fill LEVELS (bl_root bl) 0 blkno count (bl_radix bl)
                             (bl_skip bl) 0);
    mret (Some (with_bl_free (with_bl_root bl mem) (u32 (bl_free bl - filled))), filled)
  end.

(** ** Copying and resizing *)

(** The loop over the bits of a leaf; [1 << 31] is computed in 32 bits. *)
Fixpoint copy_bits (fuel : nat) (v blk j count : Z) (dest : option blist) : res (option blist) :=
  if (j <? BLIST_BMAP_RADIX) && (j <? count) then
    match fuel with
    | O => Fault NoFuel
    | S fuel =>
      bit ← shl 1 j;
      dest ← (if negb (v .& bit =? 0) then blist_free dest (u32 (blk + j)) 1 else mret dest);
      copy_bits fuel v blk (j + 1) count dest
    end
  else mret dest.

Fixpoint copy_loop (child : Z → Z → Z → option blist → res (option blist)) (fuel : nat)
    (mem : list blmeta) (scan i blk radix skip next_skip count : Z) (dest : option blist) :
    res (option blist) :=
  if negb (count =? 0) && (i <=? skip) then
    match fuel with
    | O => Fault NoFuel
    | S fuel =>
      c ← get mem (scan + i);
      if bm_bighint c =? BLIST_NONE then mret dest
      else
        dest ← child (scan + i) blk (if count >=? radix then radix else count) dest;
        copy_loop child fuel mem scan (i + next_skip) (u32 (blk + radix)) radix skip next_skip
          (if count >=? radix then count - radix else 0) dest
    end
  else mret dest.

Fixpoint blst_copy (levels : nat) (mem : list blmeta) (scan blk radix skip : Z)
    (dest : option blist) (count : Z) : res (option blist) :=
  match levels with
  | O => Fault NoFuel
  | S levels =>
    m ← get mem scan;
    if radix =? BLIST_BMAP_RADIX then
      let v := bmu m in
      if v =? ONES then blist_free dest blk count
      else if negb (v =? 0) then copy_bits 33 v blk 0 count dest
      else mret dest
    else if bmu m =? 0 then mret dest
    else if bmu m =? radix then blist_free dest blk (if count <? radix then count else radix)
    else
      let sub := radix / BLIST_META_RADIX in
      let next_skip := skip / BLIST_META_RADIX in
      copy_loop (λ scan blk count dest,
          blst_copy levels mem scan blk sub (next_skip - 1) dest count)
        CHILDREN mem scan 1 blk sub skip next_skip count dest
  end.

Definition blist_resize (junk : Z → list blmeta) (save : blist) (count : Z) (freenew : bool) :
    res blist :=
  newbl ← blist_create junk count;
  let count := if count >? bl_blocks save then bl_blocks save else count in
  dest ← blst_copy LEVELS (bl_root save) 0 0 (bl_radix save) (bl_skip save) (Some newbl) count;
  dest ← (if freenew && (count <? bl_blocks newbl)
          then blist_free dest count (bl_blocks newbl - count) else mret dest);
  match dest with Some bl => mret bl | None => Fault NullDeref end.
