(* ===== verification/BlistSpec.v ===== *)
(** * Block lists: what the nodes of a tree say

    The blocks that a node has free, the shape of the tree in the array, the
    consistency of its counters, and the lemmas by which a node is opened (its
    children brought up to date) and closed again. *)

From S2P Require Export Prelude Blist.

(** ** Counting *)

Definition in_run (a c x : Z) : bool := (a <=? x) && (x <? a + c).
(** [f] with the value [b] on the run of [c] places from [a]. *)
Definition fupd (b : bool) (a c : Z) (f : Z → bool) (x : Z) : bool := if in_run a c x then b else f x.

Definition cnt (f : Z → bool) (a n : Z) : Z := Z.of_nat (length (filter (λ k, f k = true) (seqZ a n))).

Lemma in_run_true a c x : in_run a c x = true ↔ a ≤ x < a + c.
Proof. unfold in_run. lia. Qed.
Lemma fupd_in b a c f x : a ≤ x < a + c → fupd b a c f x = b.
Proof. intros Hx. unfold fupd. by rewrite (proj2 (in_run_true a c x) Hx). Qed.
Lemma fupd_out b a c f x : ¬ (a ≤ x < a + c) → fupd b a c f x = f x.
Proof.
  intros Hx. unfold fupd. destruct (in_run a c x) eqn:E; [|done]. by apply in_run_true in E.
Qed.

Lemma cnt_nil f a n : n ≤ 0 → cnt f a n = 0.
Proof. intros Hn. unfold cnt. by rewrite seqZ_nil. Qed.
Lemma cnt_split f a n m : 0 ≤ n → 0 ≤ m → cnt f a (n + m) = cnt f a n + cnt f (a + n) m.
Proof. intros Hn Hm. unfold cnt. rewrite seqZ_app, filter_app, length_app by done. lia. Qed.
Lemma cnt_one f a : cnt f a 1 = if f a then 1 else 0.
Proof.
  unfold cnt. rewrite seqZ_cons by lia. change (Z.pred 1) with 0. rewrite seqZ_nil by lia.
  rewrite filter_cons. destruct (f a); by repeat case_decide.
Qed.
Lemma cnt_ext f g a n : (∀ x, a ≤ x < a + n → f x = g x) → cnt f a n = cnt g a n.
Proof.
  intros He. unfold cnt. f_equal. assert (H : Forall (λ x, f x = g x) (seqZ a n)).
  { apply Forall_forall. intros x Hx. apply elem_of_seqZ in Hx. by apply He. }
  induction H as [|x l Hx H IH]; [done|]. rewrite !filter_cons, Hx. case_decide; simpl; lia.
Qed.
Lemma cnt_bounds f a n : 0 ≤ n → 0 ≤ cnt f a n ≤ n.
Proof.
  intros Hn. unfold cnt. split; [lia|].
  pose proof (length_filter (λ k, f k = true) (seqZ a n)) as Hl. rewrite length_seqZ in Hl. lia.
Qed.
Lemma cnt_zero f a n : cnt f a n = 0 ↔ ∀ x, a ≤ x < a + n → f x = false.
Proof.
  unfold cnt. split.
  - intros H0 x Hx. apply not_true_is_false. intros Ht.
    assert (Hin : x ∈ filter (λ k, f k = true) (seqZ a n)).
    { apply list_elem_of_filter. split; [done|]. by apply elem_of_seqZ. }
    destruct (filter _ _); [set_solver|]. simpl in H0. lia.
  - intros He. assert (filter (λ k, f k = true) (seqZ a n) = []) as ->; [|done].
    destruct (filter (λ k, f k = true) (seqZ a n)) as [|x l] eqn:E; [done|].
    assert (Hin : x ∈ filter (λ k, f k = true) (seqZ a n)) by (rewrite E; set_solver).
    apply list_elem_of_filter in Hin as [Ht Hin]. apply elem_of_seqZ in Hin.
    rewrite He in Ht; done.
Qed.
Lemma cnt_negb f a n : 0 ≤ n → cnt f a n + cnt (λ x, negb (f x)) a n = n.
Proof.
  intros Hn. rewrite <-(Z2Nat.id n) by done. induction (Z.to_nat n) as [|k IH].
  - by rewrite !cnt_nil.
  - rewrite Nat2Z.inj_succ, <-Z.add_1_r, !cnt_split, !cnt_one by lia. destruct (f (a + _)); simpl; lia.
Qed.
Lemma cnt_full f a n : 0 ≤ n → (cnt f a n = n ↔ ∀ x, a ≤ x < a + n → f x = true).
Proof.
  intros Hn. pose proof (cnt_negb f a n Hn). split.
  - intros Hc x Hx. assert (H0 : cnt (λ x, negb (f x)) a n = 0) by lia.
    rewrite cnt_zero in H0. specialize (H0 x Hx). by apply negb_false_iff in H0.
  - intros Hf. assert (cnt (λ x, negb (f x)) a n = 0); [|lia].
    apply cnt_zero. intros x Hx. by rewrite Hf.
Qed.
Lemma cnt_const (b : bool) a n : 0 ≤ n → cnt (λ _, b) a n = if b then n else 0.
Proof. intros Hn. destruct b; [by apply cnt_full|by apply cnt_zero]. Qed.

Lemma cnt_fupd b f a c n :
  0 ≤ a → 0 ≤ c → a + c ≤ n →
  cnt (fupd b a c f) 0 n = cnt f 0 n - cnt f a c + (if b then c else 0).
Proof.
  intros Ha Hc Hn. replace n with (a + (c + (n - a - c))) by lia.
  rewrite !cnt_split, !Z.add_0_l by lia.
  rewrite (cnt_ext (fupd b a c f) f 0 a) by (intros; apply fupd_out; lia).
  rewrite (cnt_ext (fupd b a c f) (λ _, b) a c) by (intros; apply fupd_in; lia).
  rewrite (cnt_ext (fupd b a c f) f (a + c)) by (intros; apply fupd_out; lia).
  rewrite cnt_const by done. lia.
Qed.

(** ** The array of nodes *)

Definition peek (mem : list blmeta) (i : Z) : blmeta := default (Blmeta 0 0) (mem !! Z.to_nat i).
Definition avail (mem : list blmeta) (i : Z) : Z := bmu (peek mem i).
Definition hint (mem : list blmeta) (i : Z) : Z := bm_bighint (peek mem i).
Definition inside (mem : list blmeta) (i : Z) : Prop := 0 ≤ i < Z.of_nat (length mem).

Lemma get_peek mem i : inside mem i → get mem i = Ok (peek mem i).
Proof.
  intros Hi. destruct (get_total mem i Hi) as (a&->&Ha). unfold peek. by rewrite Ha.
Qed.

(** [mem'] is [mem] with the node [v] at [i]. *)
Definition stored (mem : list blmeta) (i : Z) (v : blmeta) (mem' : list blmeta) : Prop :=
  length mem' = length mem ∧ peek mem' i = v ∧ ∀ j, 0 ≤ j → j ≠ i → peek mem' j = peek mem j.

Lemma put_stored mem i v : inside mem i → ∃ mem', put mem i v = Ok mem' ∧ stored mem i v mem'.
Proof.
  intros Hi. rewrite put_total by done. eexists. split; [done|]. split; [apply length_insert|].
  unfold inside in Hi. unfold peek. split.
  - by rewrite list_lookup_insert_eq by lia.
  - intros j Hj Hne. by rewrite list_lookup_insert_ne by lia.
Qed.
Lemma set_bmu_stored mem i v :
  inside mem i → ∃ mem', set_bmu mem i v = Ok mem' ∧ stored mem i (Blmeta v (hint mem i)) mem'.
Proof. intros Hi. unfold set_bmu. rewrite get_peek by done. by apply put_stored. Qed.
Lemma set_hint_stored mem i v :
  inside mem i → ∃ mem', set_hint mem i v = Ok mem' ∧ stored mem i (Blmeta (avail mem i) v) mem'.
Proof. intros Hi. unfold set_hint. rewrite get_peek by done. by apply put_stored. Qed.

(** The same places are marked as the end of the children. *)
Definition same_marks (mem mem' : list blmeta) : Prop :=
  length mem' = length mem ∧
  ∀ i, 0 ≤ i → (hint mem' i = BLIST_NONE ↔ hint mem i = BLIST_NONE).
(** Only nodes from [s] on, [sz] of them, have changed. *)
Definition frame (mem mem' : list blmeta) (s sz : Z) : Prop :=
  same_marks mem mem' ∧ ∀ i, 0 ≤ i → ¬ (s ≤ i < s + sz) → peek mem' i = peek mem i.

#[export] Instance same_marks_refl : Reflexive same_marks.
Proof. by intros mem. Qed.
#[export] Instance same_marks_trans : Transitive same_marks.
Proof.
  intros m1 m2 m3 [L1 H1] [L2 H2]. split; [congruence|]. intros i Hi. by rewrite H2, H1.
Qed.

Lemma frame_refl mem s sz : frame mem mem s sz.
Proof. by split. Qed.
Lemma frame_trans m1 m2 m3 s sz : frame m1 m2 s sz → frame m2 m3 s sz → frame m1 m3 s sz.
Proof. intros [M1 F1] [M2 F2]. split; [by etrans|]. intros i Hi Hn. by rewrite F2, F1. Qed.
Lemma frame_sub m1 m2 s sz s' sz' : s' ≤ s → s + sz ≤ s' + sz' → frame m1 m2 s sz → frame m1 m2 s' sz'.
Proof. intros ? ? [M F]. split; [done|]. intros i Hi Hn. apply F; lia. Qed.
Lemma frame_inside m1 m2 s sz i : frame m1 m2 s sz → inside m1 i → inside m2 i.
Proof. intros [[L _] _]. unfold inside. by rewrite L. Qed.

Lemma stored_frame mem i v mem' :
  stored mem i v mem' → 0 ≤ i → hint mem i ≠ BLIST_NONE → bm_bighint v ≠ BLIST_NONE →
  frame mem mem' i 1.
Proof.
  intros (L&Hv&Ho) Hi H1 H2. split; [split; [done|]|].
  - intros j Hj. unfold hint. destruct (decide (j = i)) as [->|Hne].
    + rewrite Hv. by split; intros.
    + by rewrite Ho.
  - intros j Hj Hn. apply Ho; lia.
Qed.

(** ** The layout of a tree

    A node [d] levels above the leaves covers [radix d] blocks and takes
    [nodes d] places of the array; its child [j] is at [child s d j]. *)
Fixpoint radix (d : nat) : Z := match d with O => 32 | S d => 16 * radix d end.
Fixpoint nodes (d : nat) : Z := match d with O => 1 | S d => 1 + 16 * nodes d end.
Definition child (s : Z) (d : nat) (j : Z) : Z := s + 1 + j * nodes d.
(** The number of the [n] blocks of a node that are below child [j]. *)
Definition below (n : Z) (d : nat) (j : Z) : Z := Z.min (n - j * radix d) (radix d).
(** Child [j] exists. *)
Definition live (n : Z) (d : nat) (j : Z) : Prop := 0 ≤ j < 16 ∧ j * radix d < n.

Lemma radix_pos d : 32 ≤ radix d.
Proof. induction d as [|d IH]; cbn [radix]; lia. Qed.
Lemma nodes_pos d : 1 ≤ nodes d.
Proof. induction d as [|d IH]; cbn [nodes]; lia. Qed.
Lemma nodes_radix d : nodes d < radix d.
Proof. induction d as [|d IH]; [done|]. cbn [radix]. cbn [nodes]. pose proof (radix_pos d). lia. Qed.
Lemma nodes_one d : nodes d =? 1 = bool_decide (d = O).
Proof.
  destruct d as [|d]; [done|]. pose proof (nodes_pos d).
  rewrite bool_decide_false by done. apply Z.eqb_neq. cbn [nodes radix]. lia.
Qed.
Lemma radix_leaf d : radix d =? BLIST_BMAP_RADIX = bool_decide (d = O).
Proof.
  destruct d as [|d]; [done|]. pose proof (radix_pos d).
  rewrite bool_decide_false by done. apply Z.eqb_neq. unfold BLIST_BMAP_RADIX. cbn [radix]. lia.
Qed.
Lemma radix_32 d : (32 | radix d).
Proof. induction d as [|d [k IH]]; [by exists 1|]. exists (16 * k). cbn [radix]. lia. Qed.
Lemma next_skip_eq d : (nodes (S d) - 1) / BLIST_META_RADIX = nodes d.
Proof.
  unfold BLIST_META_RADIX. cbn [nodes]. replace (1 + 16 * nodes d - 1) with (nodes d * 16) by lia.
  by rewrite Z.div_mul.
Qed.
Lemma sub_radix_eq d : radix (S d) / BLIST_META_RADIX = radix d.
Proof. unfold BLIST_META_RADIX. cbn [radix]. rewrite Z.mul_comm. by rewrite Z.div_mul. Qed.
Lemma radix_mono d e : (d ≤ e)%nat → radix d ≤ radix e.
Proof.
  induction 1 as [|e Hle IH]; [done|]. cbn [radix]. pose proof (radix_pos e). lia.
Qed.

Lemma below_bounds n d j : live n d j → 1 ≤ below n d j ≤ radix d.
Proof. unfold live, below. pose proof (radix_pos d). lia. Qed.
Lemma child_in s d j : 0 ≤ j < 16 → s + 1 ≤ child s d j ∧ child s d j + nodes d ≤ s + nodes (S d).
Proof. unfold child. cbn [nodes]. pose proof (nodes_pos d). nia. Qed.
Lemma child_apart s d i j : i < j → child s d i + nodes d ≤ child s d j.
Proof. unfold child. pose proof (nodes_pos d). nia. Qed.
Lemma child_inj s d i j : child s d i = child s d j → i = j.
Proof. unfold child. pose proof (nodes_pos d). nia. Qed.
(** The child in which a block lies. *)
Lemma place n d k : 0 ≤ k < n → n ≤ radix (S d) →
  ∃ j x, k = j * radix d + x ∧ live n d j ∧ 0 ≤ x < below n d j ∧
    k / radix d = j ∧ k mod radix d = x.
Proof.
  intros Hk Hn. pose proof (radix_pos d). cbn [radix] in Hn.
  exists (k / radix d), (k mod radix d).
  pose proof (Z.div_mod k (radix d)). pose proof (Z.mod_pos_bound k (radix d)).
  unfold live, below. assert (0 ≤ k / radix d) by (apply Z.div_pos; lia).
  assert (k / radix d < 16) by (apply Z.div_lt_upper_bound; lia). lia.
Qed.

(** The node and its live children exist, and the first child that does not is
    marked. *)
Fixpoint shape (d : nat) (mem : list blmeta) (s n : Z) : Prop :=
  inside mem s ∧ hint mem s ≠ BLIST_NONE ∧
  match d with
  | O => True
  | S d =>
    (∀ j, live n d j → shape d mem (child s d j) (below n d j)) ∧
    (∀ j, 0 ≤ j < 16 → n ≤ j * radix d < n + radix d →
      inside mem (child s d j) ∧ hint mem (child s d j) = BLIST_NONE)
  end.

(** Block [k] of a node is free. *)
Fixpoint node_free (d : nat) (mem : list blmeta) (s k : Z) : bool :=
  match d with
  | O => Z.testbit (avail mem s) k
  | S d' =>
    if avail mem s =? 0 then false
    else if avail mem s =? radix d then true
    else node_free d' mem (child s d' (k / radix d')) (k mod radix d')
  end.

(** The counters and bitmaps of a node with [n] blocks agree; a node with a free
    block has a hint that is not 0. *)
Fixpoint tree_ok (d : nat) (mem : list blmeta) (s n : Z) : Prop :=
  (avail mem s ≠ 0 → 1 ≤ hint mem s) ∧
  match d with
  | O => 0 ≤ avail mem s < 2 ^ 32 ∧ ∀ k, n ≤ k → Z.testbit (avail mem s) k = false
  | S d' =>
    avail mem s = cnt (node_free d mem s) 0 n ∧
    (0 < avail mem s < radix d → ∀ j, live n d' j → tree_ok d' mem (child s d' j) (below n d' j))
  end.

(** Same nodes in [s, s + sz). *)
Definition same_at (mem mem' : list blmeta) (s sz : Z) : Prop :=
  ∀ i, s ≤ i < s + sz → peek mem' i = peek mem i.

Lemma same_at_sub mem mem' s sz s' sz' :
  same_at mem mem' s sz → s ≤ s' → s' + sz' ≤ s + sz → same_at mem mem' s' sz'.
Proof. intros H ? ? i Hi. apply H. lia. Qed.
Lemma same_at_child mem mem' s d j :
  same_at mem mem' s (nodes (S d)) → 0 ≤ j < 16 → same_at mem mem' (child s d j) (nodes d).
Proof. intros H Hj. destruct (child_in s d j Hj). eapply same_at_sub; [done|lia|lia]. Qed.
Lemma same_at_self mem mem' s d : same_at mem mem' s (nodes d) → peek mem' s = peek mem s.
Proof. intros H. apply H. pose proof (nodes_pos d). lia. Qed.
Lemma frame_same_at mem mem' s sz s' sz' :
  frame mem mem' s sz → 0 ≤ s' → s' + sz' ≤ s ∨ s + sz ≤ s' → same_at mem mem' s' sz'.
Proof. intros [_ F] Hs Hd i Hi. apply F; lia. Qed.

Lemma shape_marks d mem mem' s n : 0 ≤ s → same_marks mem mem' → shape d mem s n → shape d mem' s n.
Proof.
  intros Hs [L M]. revert s n Hs. induction d as [|d IH]; intros s n Hs (Hi&Hh&Hc); simpl;
    (split; [by unfold inside in *; rewrite L|]); (split; [by rewrite M|]); [done|].
  destruct Hc as [Hl Ht]. split.
  - intros j Hj. destruct (child_in s d j) as [? ?]; [by destruct Hj|]. apply IH; [lia|by apply Hl].
  - intros j Hj Hn. destruct (child_in s d j Hj). destruct (Ht j Hj Hn) as [? ?].
    split; [by unfold inside in *; rewrite L|by apply M; [lia|]].
Qed.

Lemma node_free_same d mem mem' s n k :
  same_at mem mem' s (nodes d) → 0 ≤ k < n → n ≤ radix d → node_free d mem' s k = node_free d mem s k.
Proof.
  revert s n k. induction d as [|d IH]; intros s n k Hs Hk Hn;
    pose proof (same_at_self _ _ _ _ Hs) as Hp; cbn [node_free]; unfold avail in *; rewrite Hp; [done|].
  destruct (place n d k Hk Hn) as (j&x&_&Hj&Hx&->&->). pose proof (below_bounds n d j Hj).
  rewrite (IH _ (below n d j)); [done| |done|lia]. apply same_at_child; [done|by destruct Hj].
Qed.
Lemma tree_ok_same d mem mem' s n :
  same_at mem mem' s (nodes d) → n ≤ radix d → tree_ok d mem s n → tree_ok d mem' s n.
Proof.
  revert s n. induction d as [|d IH]; intros s n Hs Hn (Hh&Ha);
    pose proof (same_at_self _ _ _ _ Hs) as Hp; cbn [tree_ok]; unfold avail, hint in *; rewrite Hp; [done|].
  destruct Ha as [Ha Hc]. split; [done|]. split.
  - rewrite Ha. apply cnt_ext. intros x Hx. symmetry. by apply (node_free_same _ _ _ _ n).
  - intros Hr j Hj. pose proof (below_bounds n d j Hj).
    apply IH; [apply same_at_child; [done|by destruct Hj]|lia|by apply Hc].
Qed.

(** ** Opening and closing a node *)

(** The children are up to date and hold the blocks that [f] says are free. *)
Definition opened (d : nat) (mem : list blmeta) (s n : Z) (f : Z → bool) : Prop :=
  ∀ j, live n d j →
    tree_ok d mem (child s d j) (below n d j) ∧
    ∀ x, 0 ≤ x < below n d j → node_free d mem (child s d j) x = f (j * radix d + x).

Lemma opened_ext d mem s n f g :
  (∀ x, 0 ≤ x < n → f x = g x) → opened d mem s n f → opened d mem s n g.
Proof.
  intros He Ho j Hj. destruct (Ho j Hj) as [Ht Hf]. split; [done|]. intros x Hx.
  rewrite Hf by done. apply He. pose proof (radix_pos d). unfold live, below in *. nia.
Qed.
Lemma opened_same d mem mem' s n f :
  same_at mem mem' (s + 1) (nodes (S d) - 1) → opened d mem s n f → opened d mem' s n f.
Proof.
  intros Hs Ho j Hj. destruct (Ho j Hj) as [Ht Hf]. pose proof (below_bounds n d j Hj).
  assert (Hc : same_at mem mem' (child s d j) (nodes d)).
  { destruct (child_in s d j) as [? ?]; [by destruct Hj|]. eapply same_at_sub; [done|lia|lia]. }
  split; [by eapply tree_ok_same; [done|lia|]|]. intros x Hx.
  rewrite (node_free_same _ _ _ _ (below n d j)) by (done || lia). by apply Hf.
Qed.
Lemma opened_child d mem mem' s n f g j :
  0 ≤ s → opened d mem s n f → live n d j → frame mem mem' (child s d j) (nodes d) →
  tree_ok d mem' (child s d j) (below n d j) →
  (∀ x, 0 ≤ x < below n d j → node_free d mem' (child s d j) x = g (j * radix d + x)) →
  (∀ x, 0 ≤ x < n → ¬ (j * radix d ≤ x < j * radix d + radix d) → g x = f x) →
  opened d mem' s n g.
Proof.
  intros H0 Ho Hj Hfr Ht Hf Hg i Hi. destruct (decide (i = j)) as [->|Hne]; [done|].
  destruct (Ho i Hi) as [Hti Hfi]. pose proof (below_bounds n d i Hi).
  assert (Hc : same_at mem mem' (child s d i) (nodes d)).
  { destruct (child_in s d i) as [? ?]; [by destruct Hi|]. eapply frame_same_at; [done|lia|].
    destruct (Z.lt_total i j) as [?|[?|?]]; [left; by apply child_apart|done|right; by apply child_apart]. }
  split; [by eapply tree_ok_same; [done|lia|]|]. intros x Hx.
  rewrite (node_free_same _ _ _ _ (below n d i)) by (done || lia). rewrite Hfi by done.
  symmetry. pose proof (radix_pos d). unfold live, below in *. apply Hg; nia.
Qed.

Lemma close_node d mem s n g :
  1 ≤ n ≤ radix (S d) → avail mem s = cnt g 0 n → (avail mem s ≠ 0 → 1 ≤ hint mem s) →
  (0 < avail mem s < radix (S d) → opened d mem s n g) →
  tree_ok (S d) mem s n ∧ ∀ x, 0 ≤ x < n → node_free (S d) mem s x = g x.
Proof.
  intros Hn Ha Hh Ho. pose proof (cnt_bounds g 0 n) as Hb.
  assert (Hf : ∀ x, 0 ≤ x < n → node_free (S d) mem s x = g x).
  { intros x Hx. cbn [node_free]. destruct (Z.eqb_spec (avail mem s) 0) as [E|E].
    { symmetry. rewrite E in Ha. symmetry in Ha. rewrite cnt_zero in Ha. apply Ha. lia. }
    destruct (Z.eqb_spec (avail mem s) (radix (S d))) as [E2|E2].
    { symmetry. assert (Hc : cnt g 0 n = n) by lia. rewrite cnt_full in Hc by lia. apply Hc. lia. }
    destruct (place n d x Hx) as (j&y&->&Hj&Hy&->&->); [lia|].
    apply Ho; [lia|done|done]. }
  split; [|done]. cbn [tree_ok]. split; [done|]. split.
  - rewrite Ha. apply cnt_ext. intros x Hx. symmetry. apply Hf. lia.
  - intros Hr j Hj. by apply Ho.
Qed.

Lemma tree_avail d mem s n :
  tree_ok (S d) mem s n → avail mem s = cnt (node_free (S d) mem s) 0 n.
Proof. by intros (_&?&_). Qed.

(** Nodes that are all free, or all allocated. *)
Definition node_full (d : nat) : blmeta :=
  if nodes d =? 1 then Blmeta ONES BLIST_BMAP_RADIX else Blmeta (radix d) (radix d).

Lemma testbit_ones_32 k : 0 ≤ k → Z.testbit ONES k = (k <? 32).
Proof.
  intros Hk. unfold ONES. change (2 ^ 32 - 1) with (Z.ones 32).
  destruct (Z.ltb_spec k 32); [by apply Z.ones_spec_low|apply Z.ones_spec_high; lia].
Qed.

Lemma tree_full d mem s :
  peek mem s = node_full d →
  tree_ok d mem s (radix d) ∧ ∀ x, 0 ≤ x < radix d → node_free d mem s x = true.
Proof.
  unfold node_full. rewrite nodes_one. destruct d as [|d].
  - rewrite bool_decide_true by done. intros Hp. cbn [tree_ok node_free radix]. unfold avail, hint. rewrite Hp. simpl bmu. simpl bm_bighint.
    split_and!; try done.
    + intros k Hk. rewrite testbit_ones_32; lia.
    + intros x Hx. rewrite testbit_ones_32; lia.
  - rewrite bool_decide_false by done. intros Hp. assert (Hf : ∀ x, node_free (S d) mem s x = true).
    { intros x. cbn [node_free]. unfold avail. rewrite Hp. cbn [bmu]. rewrite Z.eqb_refl.
      destruct (Z.eqb_spec (radix (S d)) 0); [|done]. pose proof (radix_pos (S d)). lia. }
    split; [|done]. cbn [tree_ok]. pose proof (radix_pos (S d)).
    rewrite (proj2 (cnt_full (node_free (S d) mem s) 0 (radix (S d)) ltac:(lia))) by done.
    unfold avail, hint. rewrite Hp. cbn [bmu bm_bighint]. split; [lia|]. split; [done|lia].
Qed.
Lemma tree_empty d mem s n :
  bmu (peek mem s) = 0 → 1 ≤ n →
  tree_ok d mem s n ∧ ∀ x, node_free d mem s x = false.
Proof.
  intros Hp Hn. assert (Hf : ∀ x, node_free d mem s x = false).
  { intros x. destruct d; cbn [node_free]; unfold avail; rewrite Hp; [apply Z.testbit_0_l|done]. }
  split; [|done]. destruct d as [|d]; cbn [tree_ok]; unfold avail; rewrite Hp.
  - split; [done|]. split; [done|]. intros. apply Z.testbit_0_l.
  - split; [done|]. split; [symmetry; by apply cnt_zero|lia].
Qed.

Section init.
Context (d : nat) (s n : Z) (leaf meta : blmeta) (Hs : 0 ≤ s) (Hn : 1 ≤ n).
Context (Hleaf : bm_bighint leaf ≠ BLIST_NONE) (Hmeta : bm_bighint meta ≠ BLIST_NONE).

Lemma live_or_marked mem j :
  shape (S d) mem s n → 0 ≤ j < 16 → j * radix d < n + radix d →
  inside mem (child s d j) ∧
  ((live n d j ∧ hint mem (child s d j) ≠ BLIST_NONE ∧ j * radix d + radix d < n + radix d) ∨
   (¬ live n d j ∧ hint mem (child s d j) = BLIST_NONE ∧ ∀ k, j ≤ k → ¬ live n d k)).
Proof using Type.
  intros (_&_&Hl&Ht) Hj Hjn. pose proof (radix_pos d).
  destruct (decide (j * radix d < n)) as [Hlt|Hge].
  - assert (Hlive : live n d j) by done. pose proof (Hl j Hlive) as Hc.
    assert (Hih : inside mem (child s d j) ∧ hint mem (child s d j) ≠ BLIST_NONE)
      by (destruct d; destruct Hc as (?&?&?); done).
    split; [apply Hih|]. left. split; [done|]. split; [apply Hih|lia].
  - destruct (Ht j Hj) as [? ?]; [lia|]. split; [done|]. right. unfold live.
    split_and!; [lia|done|]. intros k Hk. nia.
Qed.

Lemma init_loop_spec fuel : ∀ j mem,
  shape (S d) mem s n → 0 ≤ j ≤ 16 → j * radix d < n + radix d → 17 - j ≤ Z.of_nat fuel →
  ∃ mem', init_loop fuel mem s (1 + j * nodes d) (16 * nodes d) (nodes d) leaf meta = Ok mem' ∧
    same_marks mem mem' ∧
    (∀ k, j ≤ k → live n d k → peek mem' (child s d k) = if nodes d =? 1 then leaf else meta) ∧
    (∀ i, 0 ≤ i → (∀ k, j ≤ k → live n d k → i ≠ child s d k) → peek mem' i = peek mem i).
Proof using All.
  induction fuel as [|fuel IH]; intros j mem Hsh Hj Hjn Hfuel; [lia|]. cbn [init_loop].
  pose proof (nodes_pos d). destruct (Z.leb_spec (1 + j * nodes d) (16 * nodes d)) as [Hle|Hgt].
  - assert (Hj16 : 0 ≤ j < 16) by nia.
    destruct (live_or_marked mem j Hsh Hj16 Hjn) as [Hin Hcase].
    replace (s + (1 + j * nodes d)) with (child s d j) by (unfold child; lia).
    rewrite get_peek by done. cbn [mbind res_bind]. fold (hint mem (child s d j)).
    destruct Hcase as [(Hlive&Hh&Hnext)|(Hnl&->&Hdead)].
    + rewrite (proj2 (Z.eqb_neq _ _) Hh). set (v := if nodes d =? 1 then leaf else meta).
      destruct (put_stored mem (child s d j) v Hin) as (mem1&->&Hst). cbn [mbind res_bind].
      assert (Hc0 : 0 ≤ child s d j) by (destruct Hin; lia).
      assert (Hf : frame mem mem1 (child s d j) 1).
      { apply (stored_frame _ _ v); try done. unfold v. by destruct (nodes d =? 1). }
      destruct (IH (j + 1) mem1) as (mem2&E&Hm2&Hv2&Ho2).
      { eapply shape_marks; [done|apply Hf|done]. }
      { lia. }
      { lia. }
      { lia. }
      replace (1 + (j + 1) * nodes d) with (1 + j * nodes d + nodes d) in E by lia.
      rewrite E. exists mem2. split; [done|]. split; [etrans; [apply Hf|done]|]. split.
      * intros k Hk Hlk. destruct (decide (k = j)) as [->|Hne]; [|apply Hv2; [lia|done]].
        rewrite Ho2; [apply Hst|done|]. intros k' Hk' _ E'. apply child_inj in E'. lia.
      * intros i Hi Hno. rewrite Ho2; [|done|intros k Hk; apply Hno; lia].
        apply Hst; [done|]. apply Hno; [lia|done].
    + rewrite Z.eqb_refl. exists mem. split; [done|]. split; [done|].
      split; [intros k Hk Hlk; by destruct (Hdead k Hk)|done].
  - exists mem. split; [done|]. split; [done|]. split; [|done].
    intros k Hk [Hk16 _]. assert (j = 16) by nia. lia.
Qed.

(** The whole loop touches the children only. *)
Lemma init_children mem :
  shape (S d) mem s n →
  ∃ mem', init_loop CHILDREN mem s 1 (16 * nodes d) (nodes d) leaf meta = Ok mem' ∧
    frame mem mem' (s + 1) (nodes (S d) - 1) ∧
    ∀ k, live n d k → peek mem' (child s d k) = if nodes d =? 1 then leaf else meta.
Proof using All.
  intros Hsh. pose proof (radix_pos d).
  destruct (init_loop_spec CHILDREN 0 mem Hsh) as (mem'&E&Hm&Hv&Ho); [lia|lia|done|].
  replace (1 + 0 * nodes d) with 1 in E by lia. exists mem'. split; [done|]. split.
  - split; [done|]. intros i Hi Hno. apply Ho; [done|]. intros k Hk Hl ->. apply Hno.
    destruct (child_in s d k) as [? ?]; [by destruct Hl|]. pose proof (nodes_pos d). lia.
  - intros k Hl. apply Hv; [|done]. destruct Hl. lia.
Qed.
End init.

(** A node that is partly free is open; opening one that is all free. *)
Lemma open_full d mem s n :
  0 ≤ s → radix (S d) ≤ 2 ^ 29 → 1 ≤ n ≤ radix (S d) → shape (S d) mem s n → tree_ok (S d) mem s n → avail mem s ≠ 0 →
  ∃ mem', (if avail mem s =? radix (S d) then
             init_loop CHILDREN mem s 1 (16 * nodes d) (nodes d) (Blmeta ONES BLIST_BMAP_RADIX)
               (Blmeta (radix d) (radix d))
           else mret mem) = Ok mem' ∧
    frame mem mem' (s + 1) (nodes (S d) - 1) ∧ opened d mem' s n (node_free (S d) mem s).
Proof.
  intros Hs Hr29 Hn Hsh Ht Ha. pose proof (tree_avail _ _ _ _ Ht) as Hc.
  pose proof (cnt_bounds (node_free (S d) mem s) 0 n) as Hb.
  destruct (Z.eqb_spec (avail mem s) (radix (S d))) as [E|E].
  - assert (Hnr : n = radix (S d)) by lia.
    destruct (init_children d s n (Blmeta ONES BLIST_BMAP_RADIX) (Blmeta (radix d) (radix d)))
      with (mem := mem) as (mem'&Ei&Hf&Hv); try done; [lia| |].
    { cbn [bm_bighint radix] in *. unfold BLIST_NONE. pose proof (radix_pos d). lia. }
    exists mem'. split; [done|]. split; [done|]. intros j Hj.
    assert (Hbj : below n d j = radix d).
    { unfold below, live in *. cbn [radix] in Hnr. pose proof (radix_pos d). nia. }
    rewrite Hbj. destruct (tree_full d mem' (child s d j)) as [Htf Hff]; [by apply Hv|].
    split; [done|]. intros x Hx. rewrite Hff by done. symmetry.
    rewrite Hc, Hnr in E. rewrite cnt_full in E by lia. apply E.
    unfold live in Hj. cbn [radix]. nia.
  - exists mem. split; [done|]. split; [apply frame_refl|].
    destruct Ht as (_&_&Hch). specialize (Hch ltac:(lia)). intros j Hj. split; [by apply Hch|].
    intros x Hx. cbn [node_free]. rewrite (proj2 (Z.eqb_neq _ _) Ha), (proj2 (Z.eqb_neq _ _) E).
    pose proof (below_bounds n d j Hj). unfold below in Hx.
    rewrite Z.div_add_l, Z.div_small, Z.add_0_r by lia.
    by rewrite Z.add_comm, Z.mod_add, Z.mod_small by lia.
Qed.
Lemma tree_hint d mem s n : tree_ok d mem s n → avail mem s ≠ 0 → 1 ≤ hint mem s.
Proof. destruct d; by intros [? _]. Qed.
