(* ===== verification/BlistOps.v ===== *)
(** * Block lists: the operations on the nodes

    An allocation, a free and a fill of a part of a leaf or of a meta node
    change the blocks that the node has free as they should, and keep its
    counters right. *)

From S2P Require Export Prelude Blist BlistSpec.

(** ** Bits of a word *)

Lemma shl_Ok x n : 0 ≤ n < 32 → shl x n = Ok (u32 (Z.shiftl x n)).
Proof. intros Hn. unfold shl. by rewrite (proj2 (andb_true_iff _ _)) by lia. Qed.
Lemma shr_Ok x n : 0 ≤ n < 32 → shr x n = Ok (Z.shiftr x n).
Proof. intros Hn. unfold shr. by rewrite (proj2 (andb_true_iff _ _)) by lia. Qed.

Lemma ones_shiftr m n : 0 ≤ m ≤ n → Z.shiftr (Z.ones n) m = Z.ones (n - m).
Proof. intros Hm. rewrite Z.shiftr_div_pow2 by lia. by apply Z.ones_div_pow2. Qed.

Lemma testbit_u32 x k : 0 ≤ k → Z.testbit (u32 x) k = (k <? 32) && Z.testbit x k.
Proof.
  intros Hk. unfold u32. destruct (Z.ltb_spec k 32); simpl.
  - by apply Z.mod_pow2_bits_low.
  - by apply Z.mod_pow2_bits_high.
Qed.

(** [mask] is the word with the bits of a run. *)
Definition is_mask (mask a c : Z) : Prop :=
  0 ≤ mask < 2 ^ 32 ∧ ∀ k, 0 ≤ k → Z.testbit mask k = in_run a c k.

Lemma mask_shift c a : 0 ≤ c → 0 ≤ a → a + c ≤ 32 → is_mask (Z.shiftl (Z.ones c) a) a c.
Proof.
  intros Hc Ha Hac. split.
  - rewrite Z.shiftl_mul_pow2, Z.ones_equiv by lia.
    assert (1 ≤ 2 ^ c) by (apply (Z.pow_le_mono_r 2 0 c); lia).
    assert (2 ^ c * 2 ^ a ≤ 2 ^ 32) by (rewrite <-Z.pow_add_r by lia; apply Z.pow_le_mono_r; lia).
    assert (0 < 2 ^ a) by (apply Z.pow_pos_nonneg; lia). nia.
  - intros k Hk. rewrite Z.shiftl_spec by lia. destruct (Z.ltb_spec k a).
    + rewrite Z.testbit_neg_r by lia. symmetry. apply not_true_iff_false. rewrite in_run_true. lia.
    + destruct (Z.ltb_spec (k - a) c).
      * rewrite Z.ones_spec_low by lia. symmetry. apply in_run_true. lia.
      * rewrite Z.ones_spec_high by lia. symmetry. apply not_true_iff_false. rewrite in_run_true. lia.
Qed.

Lemma mask_eq m m' a c : is_mask m a c → is_mask m' a c → m = m'.
Proof.
  intros [_ H] [_ H']. apply Z.bits_inj'. intros k Hk. by rewrite H, H'.
Qed.

(** Clearing and setting the bits of a mask. *)
Lemma mask_clear x mask a c k :
  is_mask mask a c → 0 ≤ k → Z.testbit (Z.ldiff x mask) k = fupd false a c (Z.testbit x) k.
Proof.
  intros [_ Hm] Hk. rewrite Z.ldiff_spec, Hm by done. unfold fupd.
  by destruct (in_run a c k), (Z.testbit x k).
Qed.
Lemma mask_set x mask a c k :
  is_mask mask a c → 0 ≤ k → Z.testbit (x .| mask) k = fupd true a c (Z.testbit x) k.
Proof.
  intros [_ Hm] Hk. rewrite Z.lor_spec, Hm by done. unfold fupd.
  by destruct (in_run a c k), (Z.testbit x k).
Qed.
Lemma ldiff_bounds x m : 0 ≤ x < 2 ^ 32 → 0 ≤ Z.ldiff x m < 2 ^ 32.
Proof.
  intros Hx. assert (0 ≤ Z.ldiff x m) by (apply Z.ldiff_nonneg; lia). split; [done|].
  apply below_pow2_testbit; [done..|]. intros i Hi.
  rewrite Z.ldiff_spec, (proj1 (below_pow2_testbit 32 x ltac:(lia) ltac:(lia))); [done|lia|done].
Qed.
Lemma land_mask_zero x mask a c :
  is_mask mask a c → 0 ≤ a → (∀ k, a ≤ k < a + c → Z.testbit x k = false) → x .& mask = 0.
Proof.
  intros [_ Hm] Ha Hx. apply Z.bits_inj'. intros k Hk. rewrite Z.land_spec, Z.testbit_0_l, Hm by done.
  destruct (in_run a c k) eqn:E; [|apply andb_false_r]. apply in_run_true in E. by rewrite Hx.
Qed.
Lemma land_mask_all x mask a c :
  is_mask mask a c → 0 ≤ a → (x .& mask = mask ↔ ∀ k, a ≤ k < a + c → Z.testbit x k = true).
Proof.
  intros [_ Hm] Ha. split.
  - intros E k Hk. assert (Hb : Z.testbit (x .& mask) k = Z.testbit mask k) by by rewrite E.
    rewrite Z.land_spec, Hm in Hb by lia. rewrite (proj2 (in_run_true a c k) Hk) in Hb.
    by destruct (Z.testbit x k).
  - intros Hx. apply Z.bits_inj'. intros k Hk. rewrite Z.land_spec, Hm by done.
    destruct (in_run a c k) eqn:E; [|by rewrite andb_false_r]. apply in_run_true in E. by rewrite Hx.
Qed.

(** The place of a block in its leaf, and the mask of a run there. *)
Lemma land_31 base x : (32 | base) → 0 ≤ x < 32 → (base + x) .& (BLIST_BMAP_RADIX - 1) = x.
Proof.
  intros [k ->] Hx. change (BLIST_BMAP_RADIX - 1) with (Z.ones 5). rewrite Z.land_ones by done.
  change (2 ^ 5) with 32. by rewrite Z.add_comm, Z.mod_add, Z.mod_small.
Qed.
Lemma leaf_mask_spec base x c :
  (32 | base) → 0 ≤ x → 1 ≤ c → x + c ≤ 32 → ∃ mask, leaf_mask (base + x) c = Ok mask ∧ is_mask mask x c.
Proof.
  intros Hb Hx Hc Hxc. unfold leaf_mask. rewrite land_31 by (done || lia).
  rewrite shl_Ok by lia. cbn [mbind res_bind]. unfold BLIST_BMAP_RADIX.
  rewrite u64_small by (unfold is_u64; lia). rewrite shr_Ok by lia. cbn [mbind res_bind].
  eexists. split; [done|]. unfold ONES. change (2 ^ 32 - 1) with (Z.ones 32).
  rewrite ones_shiftr by lia. split.
  - apply land_bounds; [done|apply u32_bounds|]. rewrite Z.ones_equiv.
    pose proof (Z.pow_pos_nonneg 2 (32 - (32 - c - x))). lia.
  - intros k Hk. rewrite Z.land_spec, testbit_u32, Z.shiftl_spec by lia.
    unfold in_run. destruct (Z.ltb_spec k (x + c)).
    + rewrite (Z.ones_spec_low _ k) by lia. rewrite andb_true_r.
      destruct (Z.leb_spec x k); [rewrite Z.ones_spec_low by lia|rewrite Z.testbit_neg_r by lia]; lia.
    + rewrite (Z.ones_spec_high _ k) by lia. by rewrite !andb_false_r.
Qed.

(** ** The search loops *)

Lemma bit_loop_spec e : ∀ fuel r o,
  (e ≤ 4)%nat → (e < fuel)%nat → 0 ≤ o → o mod 2 ^ (2 * 2 ^ Z.of_nat e) ≠ 0 →
  ∃ t, bit_loop fuel (2 ^ Z.of_nat e) r o (Z.ones (2 ^ Z.of_nat e)) = Ok (r + t) ∧
    0 ≤ t < 2 * 2 ^ Z.of_nat e ∧ Z.testbit o t = true.
Proof.
  induction e as [|e IH]; intros [|fuel] r o He Hfuel Ho Hne; try lia; cbn [bit_loop].
  - change (2 ^ Z.of_nat 0) with 1 in *. change (2 * 1) with 2 in *. change (1 =? 0) with false.
    change (Z.ones 1) with 1. change (Z.shiftr 1 1) with 0. cbn iota.
    assert (Hb : ∀ k, 0 ≤ k < 2 → Z.testbit (o mod 2 ^ 2) k = Z.testbit o k).
    { intros k Hk. apply Z.mod_pow2_bits_low. lia. }
    assert (Hor : Z.testbit o 0 = true ∨ Z.testbit o 1 = true).
    { destruct (Z.testbit o 0) eqn:E0; [by left|]. destruct (Z.testbit o 1) eqn:E1; [by right|].
      destruct Hne. apply Z.bits_inj'. intros k Hk. rewrite Z.testbit_0_l.
      destruct (decide (k < 2)); [|apply Z.mod_pow2_bits_high; lia]. rewrite Hb by lia.
      by assert (k = 0 ∨ k = 1) as [->| ->] by lia. }
    assert (Hl : (o .& 1 =? 0) = negb (Z.testbit o 0)).
    { change 1 with (Z.ones 1). rewrite Z.land_ones by done. change (2 ^ 1) with 2.
      rewrite <-Z.bit0_mod. by destruct (Z.testbit o 0). }
    rewrite Hl, !shr_Ok by done. cbn [mbind res_bind].
    destruct (Z.testbit o 0) eqn:E0; cbn [negb mbind res_bind mret res_ret];
      destruct fuel; cbn [bit_loop].
    1,2: by exists 0; rewrite Z.add_0_r.
    1,2: destruct Hor; [done|]; by exists 1.
  - rewrite Nat2Z.inj_succ in *. set (m := 2 ^ Z.of_nat e) in *.
    assert (Hm : 2 ^ Z.succ (Z.of_nat e) = 2 * m) by (rewrite Z.pow_succ_r by lia; done).
    rewrite Hm in *.
    assert (Hm0 : 1 ≤ m ≤ 8).
    { split; [apply (Z.pow_le_mono_r 2 0); lia|]. change 8 with (2 ^ 3). apply Z.pow_le_mono_r; lia. }
    rewrite (proj2 (Z.eqb_neq (2 * m) 0)) by lia.
    assert (Hs : Z.shiftr (2 * m) 1 = m).
    { rewrite Z.shiftr_div_pow2 by done. change (2 ^ 1) with 2. by rewrite Z.mul_comm, Z.div_mul. }
    rewrite Hs. rewrite Z.land_ones by lia.
    rewrite !shr_Ok by lia. cbn [mbind res_bind]. rewrite ones_shiftr by lia.
    replace (2 * m - m) with m by lia.
    destruct (Z.eqb_spec (o mod 2 ^ (2 * m)) 0) as [E|E]; cbn [mbind res_bind mret res_ret].
    + destruct (IH fuel (r + 2 * m) (Z.shiftr o (2 * m))) as (t&Eq&Ht&Hb); [lia|lia|by apply Z.shiftr_nonneg| |].
      { intros H0. apply Hne. rewrite Z.shiftr_div_pow2 in H0 by lia.
        replace (2 * (2 * m)) with (2 * m + 2 * m) by lia. rewrite Z.pow_add_r by lia.
        assert (0 < 2 ^ (2 * m)) by (apply Z.pow_pos_nonneg; lia).
        rewrite Z.rem_mul_r by lia. by rewrite E, H0, Z.mul_0_r. }
      rewrite Eq. exists (2 * m + t). split; [f_equal; lia|]. split; [lia|].
      rewrite Z.shiftr_spec in Hb by lia. by rewrite Z.add_comm.
    + destruct (IH fuel r o) as (t&Eq&Ht&Hb); [lia|lia|done|done|]. rewrite Eq. exists t.
      split; [done|]. split; [lia|done].
Qed.

Lemma bit_loop_word o :
  0 < o < 2 ^ 32 →
  ∃ t, bit_loop 6 (BLIST_BMAP_RADIX / 2) 0 o (Z.shiftr ONES (BLIST_BMAP_RADIX / 2)) = Ok t ∧
    0 ≤ t < 32 ∧ Z.testbit o t = true.
Proof.
  intros Ho. destruct (bit_loop_spec 4 6 0 o) as (t&E&Ht&Hb); [lia|lia|lia| |].
  - change (2 * 2 ^ Z.of_nat 4) with 32. rewrite Z.mod_small; lia.
  - exists t. split; [|done]. exact E.
Qed.

Lemma is_mask_next mask j c :
  is_mask mask j c → 0 ≤ j → 0 ≤ c → j + 1 + c ≤ 32 → is_mask (u32 (Z.shiftl mask 1)) (j + 1) c.
Proof.
  intros [_ Hm] Hj Hc Hjc. split; [apply u32_bounds|]. intros k Hk.
  rewrite testbit_u32, Z.shiftl_spec by done. destruct (Z.ltb_spec k 1).
  - rewrite Z.testbit_neg_r, andb_false_r by lia. unfold in_run. lia.
  - rewrite Hm by lia. unfold in_run. lia.
Qed.

Lemma run_loop_spec o c fuel : ∀ j mask,
  1 ≤ c → 0 ≤ j → (j + c ≤ 32 → is_mask mask j c) → 33 - c - j < Z.of_nat fuel →
  ∃ found, run_loop fuel j (32 - c) o mask = Ok found ∧
    match found with
    | Some (j', mask') => is_mask mask' j' c ∧ 0 ≤ j' ∧ j' + c ≤ 32 ∧
        ∀ k, j' ≤ k < j' + c → Z.testbit o k = true
    | None => True
    end.
Proof.
  induction fuel as [|fuel IH]; intros j mask Hc Hj Hm Hfuel; cbn [run_loop];
    (destruct (Z.leb_spec j (32 - c)); [|by exists None]); [lia|].
  specialize (Hm ltac:(lia)). destruct (Z.eqb_spec (o .& mask) mask) as [E|E].
  - exists (Some (j, mask)). split; [done|]. rewrite (land_mask_all _ _ _ _ Hm Hj) in E.
    split_and!; [done|lia|lia|done].
  - rewrite shl_Ok by lia. cbn [mbind res_bind]. apply IH; try lia. intros Hj'.
    apply is_mask_next; try done; lia.
Qed.

(** The loop that counts bits. *)
Lemma land_pred_odd m : (2 * m + 1) .& (2 * m + 1 - 1) = 2 * m.
Proof.
  replace (2 * m + 1 - 1) with (2 * m) by lia. apply Z.bits_inj'. intros k Hk. rewrite Z.land_spec.
  destruct (decide (k = 0)) as [->|Hne].
  - by rewrite Z.testbit_even_0, andb_false_r.
  - replace k with (Z.succ (k - 1)) by lia. rewrite Z.testbit_odd_succ, Z.testbit_even_succ by lia.
    apply andb_diag.
Qed.
Lemma land_pred_even m : (2 * m) .& (2 * m - 1) = 2 * (m .& (m - 1)).
Proof.
  replace (2 * m - 1) with (2 * (m - 1) + 1) by lia. apply Z.bits_inj'. intros k Hk.
  rewrite Z.land_spec. destruct (decide (k = 0)) as [->|Hne].
  - by rewrite !Z.testbit_even_0.
  - replace k with (Z.succ (k - 1)) by lia.
    by rewrite Z.testbit_odd_succ, !Z.testbit_even_succ, Z.land_spec by lia.
Qed.
Lemma cnt_shift f g a n : (∀ x, a ≤ x < a + n → f (x + 1) = g x) → cnt f (a + 1) n = cnt g a n.
Proof.
  intros Hfg. destruct (decide (n ≤ 0)); [by rewrite !cnt_nil|].
  rewrite <-(Z2Nat.id n) in * by lia. induction (Z.to_nat n) as [|k IH]; [by rewrite !cnt_nil|].
  rewrite Nat2Z.inj_succ, <-Z.add_1_r in *. rewrite !cnt_split, !cnt_one by lia.
  replace (a + 1 + Z.of_nat k) with (a + Z.of_nat k + 1) by lia. rewrite Hfg by lia.
  destruct (decide (k = O)) as [->|]; [by rewrite !cnt_nil|]. rewrite IH; [done| |lia].
  intros x Hx. apply Hfg. lia.
Qed.
(** The bits of [2 m + b]. *)
Lemma cnt_bits_double m (b : bool) w :
  0 ≤ w → cnt (Z.testbit (2 * m + Z.b2z b)) 0 (1 + w) = Z.b2z b + cnt (Z.testbit m) 0 w.
Proof.
  intros Hw. rewrite cnt_split, cnt_one by lia. rewrite (cnt_shift _ (Z.testbit m) 0).
  - rewrite Z.testbit_0_r. by destruct b.
  - intros x Hx. rewrite Z.add_1_r, Z.testbit_succ_r by lia. done.
Qed.
Lemma clear_low_bit (w : nat) : ∀ x,
  0 < x < 2 ^ Z.of_nat w →
  0 ≤ x .& (x - 1) < 2 ^ Z.of_nat w ∧
  cnt (Z.testbit (x .& (x - 1))) 0 (Z.of_nat w) = cnt (Z.testbit x) 0 (Z.of_nat w) - 1.
Proof.
  induction w as [|w IH]; intros x Hx; [simpl in Hx; lia|].
  rewrite Nat2Z.inj_succ in *. rewrite Z.pow_succ_r in * by lia.
  assert (Hxm : ∃ m (b : bool), x = 2 * m + Z.b2z b).
  { exists (x / 2), (negb (x mod 2 =? 0)). pose proof (Z.div_mod x 2). pose proof (Z.mod_pos_bound x 2).
    destruct (Z.eqb_spec (x mod 2) 0); simpl; lia. }
  destruct Hxm as (m&b&->). rewrite <-Z.add_1_l, !cnt_bits_double by lia. destruct b; simpl Z.b2z in *.
  - rewrite land_pred_odd. split; [lia|].
    pose proof (cnt_bits_double m false (Z.of_nat w)) as Ha. simpl Z.b2z in Ha.
    rewrite Z.add_0_r in Ha. rewrite Ha by lia. lia.
  - rewrite Z.add_0_r in *. rewrite land_pred_even. destruct (IH m) as [H1 H2]; [lia|]. split; [lia|].
    pose proof (cnt_bits_double (m .& (m - 1)) false (Z.of_nat w)) as Ha. simpl Z.b2z in Ha.
    rewrite Z.add_0_r in Ha. rewrite Ha by lia. lia.
Qed.

Lemma count_loop_spec fuel : ∀ x k,
  0 ≤ x < 2 ^ 32 → cnt (Z.testbit x) 0 32 < Z.of_nat fuel →
  count_loop fuel x k = Ok (k + cnt (Z.testbit x) 0 32).
Proof.
  induction fuel as [|fuel IH]; intros x k Hx Hfuel.
  { pose proof (cnt_bounds (Z.testbit x) 0 32). lia. }
  cbn [count_loop]. destruct (Z.eqb_spec x 0) as [->|Hne].
  - rewrite (proj2 (cnt_zero (Z.testbit 0) 0 32)); [by rewrite Z.add_0_r|].
    intros. apply Z.testbit_0_l.
  - destruct (clear_low_bit 32 x) as [H1 H2]; [lia|]. change (Z.of_nat 32) with 32 in *.
    rewrite IH by lia. f_equal. lia.
Qed.

(** ** What an operation does to a node *)

(** Only the node has changed, and [g] says which of its blocks are free. *)
Definition changed (d : nat) (mem mem' : list blmeta) (s n : Z) (g : Z → bool) : Prop :=
  frame mem mem' s (nodes d) ∧ tree_ok d mem' s n ∧ ∀ x, 0 ≤ x < n → node_free d mem' s x = g x.

(** An allocation of [count] blocks from a node whose first block is [blk]. *)
Definition alloc_post d mem mem' s n blk count r : Prop :=
  ∃ a c, changed d mem mem' s n (fupd false a c (node_free d mem s)) ∧
    ((r = BLIST_NONE ∧ c = 0 ∧ (count = 1 → ∀ x, 0 ≤ x < n → node_free d mem s x = false)) ∨
     (r = blk + a ∧ c = count ∧ 0 ≤ a ∧ a + count ≤ n ∧
      ∀ x, a ≤ x < a + count → node_free d mem s x = true)).

Lemma changed_ext d mem mem' s n g h :
  changed d mem mem' s n g → (∀ x, 0 ≤ x < n → g x = h x) → changed d mem mem' s n h.
Proof. intros (?&?&Hg) He. split_and!; [done|done|]. intros x Hx. by rewrite Hg, He. Qed.

Lemma fupd_nil b a c f x : c ≤ 0 → fupd b a c f x = f x.
Proof. intros Hc. apply fupd_out. lia. Qed.

Lemma leaf_changed mem mem' s n v h g :
  0 ≤ s → stored mem s (Blmeta v h) mem' → hint mem s ≠ BLIST_NONE → h ≠ BLIST_NONE →
  0 ≤ v < 2 ^ 32 → (v ≠ 0 → 1 ≤ h) → 0 ≤ n → (∀ k, 0 ≤ k → Z.testbit v k = g k) →
  (∀ k, n ≤ k → g k = false) → changed 0 mem mem' s n g.
Proof.
  intros Hs Hst H1 H2 Hv Hh Hn Hg Hgn. split; [by eapply stored_frame|].
  destruct Hst as (_&Hp&_). cbn [tree_ok node_free]. unfold avail, hint. rewrite Hp. simpl.
  split; [|intros x Hx; apply Hg; lia]. split; [done|]. split; [done|].
  intros k Hk. rewrite Hg by lia. by apply Hgn.
Qed.

Lemma shape_self d mem s n : shape d mem s n → inside mem s ∧ hint mem s ≠ BLIST_NONE.
Proof. destruct d; by intros (?&?&_). Qed.

Lemma leaf_alloc_spec mem s n blk count :
  shape 0 mem s n → tree_ok 0 mem s n → 1 ≤ n ≤ 32 → 1 ≤ count ≤ 32 →
  0 ≤ blk → blk + 32 ≤ 2 ^ 29 →
  ∃ mem' r, blst_leaf_alloc mem s blk count = Ok (mem', r) ∧ alloc_post 0 mem mem' s n blk count r.
Proof.
  intros [Hin Hh]%shape_self (Hhint&Ha&Hn) Hn1 Hc Hblk Hblk2. unfold blst_leaf_alloc.
  rewrite get_peek by done. cbn [mbind res_bind]. fold (avail mem s).
  assert (Hs : 0 ≤ s) by (destruct Hin; lia). set (o := avail mem s) in *.
  destruct (Z.eqb_spec o 0) as [E|E].
  { destruct (set_hint_stored mem s 0 Hin) as (mem'&->&Hst). cbn [mbind res_bind].
    eexists _, _. split; [done|]. exists 0, 0. split.
    - eapply leaf_changed; try done; try lia.
      + intros k Hk. rewrite fupd_nil; [done|lia].
      + intros k Hk. rewrite fupd_nil by lia. by apply Hn.
    - left. split_and!; try done. intros _ x _. cbn [node_free]. fold o. rewrite E. apply Z.testbit_0_l. }
  assert (Hclear : ∀ mask a c, is_mask mask a c → ∃ mem',
    set_bmu mem s (Z.ldiff o mask) = Ok mem' ∧
    changed 0 mem mem' s n (fupd false a c (node_free 0 mem s))).
  { intros mask a c Hm. destruct (set_bmu_stored mem s (Z.ldiff o mask) Hin) as (mem'&E'&Hst).
    exists mem'. split; [done|]. eapply leaf_changed; try done; try lia; [by apply ldiff_bounds| |].
    - intros k Hk. by apply mask_clear.
    - intros k Hk. unfold fupd. destruct (in_run a c k); [done|by apply Hn]. }
  destruct (Z.eqb_spec count 1) as [->|Hne].
  - rewrite shr_Ok by done. cbn [mbind res_bind].
    destruct (bit_loop_word o) as (t&->&Ht&Hb); [lia|]. cbn [mbind res_bind].
    rewrite shl_Ok by lia. cbn [mbind res_bind].
    assert (Hm : is_mask (u32 (Z.shiftl 1 t)) t 1).
    { destruct (mask_shift 1 t) as [H1 H2]; [lia..|]. change (Z.ones 1) with 1 in *.
      by rewrite u32_small. }
    destruct (Hclear _ _ _ Hm) as (mem'&->&Hch). cbn [mbind res_bind].
    eexists _, _. split; [done|]. exists t, 1. split; [done|]. right.
    assert (Htn : t < n). { apply Z.nle_gt. intros Hle. by rewrite Hn in Hb. }
    split; [apply u32_small; unfold is_u32; lia|]. split_and!; try lia.
    intros x Hx. by replace x with t by lia.
  - assert (Hfound : ∃ found, (if u64 count <=? BLIST_BMAP_RADIX then
        mask ← shr ONES (BLIST_BMAP_RADIX - count); run_loop 34 0 (BLIST_BMAP_RADIX - count) o mask
      else mret None) = Ok found ∧
      match found with
      | Some (j, mask) => is_mask mask j count ∧ 0 ≤ j ∧ j + count ≤ 32 ∧
          ∀ k, j ≤ k < j + count → Z.testbit o k = true
      | None => True
      end).
    { unfold BLIST_BMAP_RADIX. rewrite u64_small by (unfold is_u64; lia).
      rewrite (proj2 (Z.leb_le count 32)) by lia. rewrite shr_Ok by lia. cbn [mbind res_bind].
      apply run_loop_spec; try lia. intros _. unfold ONES. change (2 ^ 32 - 1) with (Z.ones 32).
      rewrite ones_shiftr by lia. replace (32 - (32 - count)) with count by lia.
      rewrite <-(Z.shiftl_0_r (Z.ones count)). apply mask_shift; lia. }
    cbv zeta. destruct Hfound as (found&->&Hf). cbn [mbind res_bind].
    destruct found as [[j mask]|].
    + destruct Hf as (Hm&Hj&Hj2&Hb). destruct (Hclear _ _ _ Hm) as (mem'&->&Hch).
      cbn [mbind res_bind]. eexists _, _. split; [done|]. exists j, count. split; [done|]. right.
      assert (Hjn : j + count ≤ n).
      { apply Z.nlt_ge. intros Hlt. specialize (Hb (j + count - 1) ltac:(lia)).
        by rewrite Hn in Hb by lia. }
      split; [apply u32_small; unfold is_u32; lia|]. by split_and!.
    + destruct (set_hint_stored mem s (u32 (count - 1)) Hin) as (mem'&->&Hst).
      cbn [mbind res_bind]. rewrite u32_small in Hst by (unfold is_u32; lia).
      eexists _, _. split; [done|]. exists 0, 0. split; [|by left].
      eapply leaf_changed; try done; try (unfold BLIST_NONE; lia).
      * intros k Hk. rewrite fupd_nil; [done|lia].
      * intros k Hk. rewrite fupd_nil by lia. by apply Hn.
Qed.

Lemma leaf_free_spec mem s n base x c :
  shape 0 mem s n → tree_ok 0 mem s n → 1 ≤ n ≤ 32 → (32 | base) → 0 ≤ x → 1 ≤ c → x + c ≤ n →
  (∀ k, x ≤ k < x + c → node_free 0 mem s k = false) →
  ∃ mem', blst_leaf_free mem s (base + x) c = Ok mem' ∧
    changed 0 mem mem' s n (fupd true x c (node_free 0 mem s)).
Proof.
  intros [Hin Hh]%shape_self (_&Ha&Hn) Hn1 Hb Hx Hc Hxc Hf. unfold blst_leaf_free.
  destruct (leaf_mask_spec base x c) as (mask&->&Hm); [done|lia..|]. cbn [mbind res_bind].
  rewrite get_peek by done. cbn [mbind res_bind]. fold (avail mem s).
  assert (Hs : 0 ≤ s) by (destruct Hin; lia). set (o := avail mem s) in *.
  rewrite (land_mask_zero o mask x c Hm Hx Hf). simpl.
  destruct (set_bmu_stored mem s (o .| mask) Hin) as (m1&->&Hst1). cbn [mbind res_bind].
  assert (Hin1 : inside m1 s) by (unfold inside in *; destruct Hst1 as [-> _]; lia).
  destruct (set_hint_stored m1 s BLIST_BMAP_RADIX Hin1) as (m2&->&Hst2). exists m2. split; [done|].
  assert (Hst : stored mem s (Blmeta (o .| mask) BLIST_BMAP_RADIX) m2).
  { destruct Hst1 as (L1&P1&O1), Hst2 as (L2&P2&O2). split; [congruence|]. unfold avail in P2.
    rewrite P1 in P2. split; [done|]. intros j Hj Hne. by rewrite O2, O1. }
  eapply leaf_changed; try done; [|lia| |].
  - apply lor_bounds; [done..|apply Hm].
  - intros k Hk. by apply mask_set.
  - intros k Hk. rewrite fupd_out by lia. by apply Hn.
Qed.

Lemma cnt_run f x c n :
  0 ≤ x → 0 ≤ c → x + c ≤ n → cnt (λ k, f k && in_run x c k) 0 n = cnt f x c.
Proof.
  intros Hx Hc Hn. replace n with (x + (c + (n - x - c))) by lia. rewrite !cnt_split, !Z.add_0_l by lia.
  rewrite (proj2 (cnt_zero _ 0 x)), (proj2 (cnt_zero _ (x + c) _)).
  - rewrite (cnt_ext _ f x c); [lia|]. intros k Hk.
    by rewrite (proj2 (in_run_true x c k) Hk), andb_true_r.
  - intros k Hk. apply andb_false_iff. right. apply not_true_iff_false. rewrite in_run_true. lia.
  - intros k Hk. apply andb_false_iff. right. apply not_true_iff_false. rewrite in_run_true. lia.
Qed.

Lemma count_mask o mask x c n :
  0 ≤ o < 2 ^ 32 → is_mask mask x c → 0 ≤ x → 1 ≤ c → x + c ≤ n → n ≤ 32 →
  count_loop 33 (o .& mask) 0 = Ok (cnt (Z.testbit o) x c).
Proof.
  intros Ha Hm Hx Hc Hxc Hn.
  rewrite count_loop_spec; [| |pose proof (cnt_bounds (Z.testbit (o .& mask)) 0 32); lia].
  - f_equal. rewrite Z.add_0_l.
    rewrite (cnt_ext _ (λ k, Z.testbit o k && in_run x c k) 0 32); [apply cnt_run; lia|].
    intros k Hk. rewrite Z.land_spec. f_equal. apply Hm. lia.
  - apply land_bounds; [lia|done|]. destruct Hm as [[? _] _]. done.
Qed.

Lemma leaf_fill_spec mem s n base x c :
  shape 0 mem s n → tree_ok 0 mem s n → 1 ≤ n ≤ 32 → (32 | base) → 0 ≤ x → 1 ≤ c → x + c ≤ n →
  ∃ mem', blst_leaf_fill mem s (base + x) c = Ok (mem', cnt (node_free 0 mem s) x c) ∧
    changed 0 mem mem' s n (fupd false x c (node_free 0 mem s)).
Proof.
  intros [Hin Hh]%shape_self (Hhint&Ha&Hn) Hn1 Hb Hx Hc Hxc. unfold blst_leaf_fill.
  destruct (leaf_mask_spec base x c) as (mask&->&Hm); [done|lia..|]. rewrite Ok_bind.
  rewrite get_peek by done. rewrite Ok_bind.
  assert (Ho : bmu (peek mem s) = avail mem s) by done. rewrite Ho.
  assert (Hs : 0 ≤ s) by (destruct Hin; lia).
  rewrite (count_mask (avail mem s) mask x c n Ha Hm Hx Hc Hxc (proj2 Hn1)). rewrite Ok_bind.
  assert (Hcnt : cnt (Z.testbit (avail mem s)) x c = cnt (node_free 0 mem s) x c).
  { apply cnt_ext. intros k _. by cbn [node_free]. }
  rewrite <-Hcnt. clear Hcnt.
  destruct (set_bmu_stored mem s (Z.ldiff (avail mem s) mask) Hin) as (m1&->&Hst). rewrite Ok_bind.
  exists m1. split; [done|]. eapply leaf_changed; try done; [by apply ldiff_bounds| |lia| |].
  - intros Hne. apply Hhint. intros E. by rewrite E, Z.ldiff_0_l in Hne.
  - intros k Hk. by apply mask_clear.
  - intros k Hk. rewrite fupd_out by lia. by apply Hn.
Qed.

(** ** Allocation from a meta node *)

Lemma same_marks_shape d mem mem' s n : 0 ≤ s → frame mem mem' s (nodes d) → shape d mem s n → shape d mem' s n.
Proof. intros Hs [M _]. by apply shape_marks. Qed.

(** A change of one child keeps the others open. *)
Lemma opened_step d mem mem' s n f g j :
  0 ≤ s → opened d mem s n f → live n d j →
  changed d mem mem' (child s d j) (below n d j) g →
  opened d mem' s n (λ x, if in_run (j * radix d) (radix d) x then g (x - j * radix d) else f x).
Proof.
  intros Hs Ho Hj (Hfr&Ht&Hg). eapply opened_child; try done.
  - intros x Hx. rewrite Hg by done. pose proof (below_bounds n d j Hj).
    rewrite (proj2 (in_run_true (j * radix d) (radix d) (j * radix d + x))) by lia.
    f_equal. lia.
  - intros x Hx Hno. destruct (in_run (j * radix d) (radix d) x) eqn:E; [|done].
    apply in_run_true in E. lia.
Qed.

Lemma child_frame d mem mem' s n j :
  live n d j → frame mem mem' (child s d j) (nodes d) → frame mem mem' (s + 1) (nodes (S d) - 1).
Proof.
  intros [Hj _] Hf. destruct (child_in s d j Hj). eapply frame_sub; [| |exact Hf]; lia.
Qed.
Lemma frame_self mem mem' s sz : 0 ≤ s → frame mem mem' (s + 1) sz → peek mem' s = peek mem s.
Proof. intros Hs [_ F]. apply F; lia. Qed.
Lemma frame_own mem mem' d s : frame mem mem' s 1 → frame mem mem' s (nodes d).
Proof. pose proof (nodes_pos d). apply frame_sub; lia. Qed.
Lemma frame_below mem mem' d s : frame mem mem' (s + 1) (nodes (S d) - 1) → frame mem mem' s (nodes (S d)).
Proof. apply frame_sub; lia. Qed.

(** Storing the counter and the hint of a node. *)
Lemma own_stored mem mem' d s n f v :
  0 ≤ s → stored mem s v mem' → hint mem s ≠ BLIST_NONE → bm_bighint v ≠ BLIST_NONE →
  opened d mem s n f → frame mem mem' s (nodes (S d)) ∧ opened d mem' s n f ∧ peek mem' s = v.
Proof.
  intros Hs Hst H1 H2 Ho. assert (Hf : frame mem mem' s 1) by (by eapply stored_frame).
  split; [by apply frame_own|]. split; [|apply Hst]. eapply opened_same; [|done].
  eapply frame_same_at; [done|lia|right; lia].
Qed.

Section alloc_loop.
Context (d : nat) (s n blk count : Z) (Hs : 0 ≤ s) (Hn : 1 ≤ n ≤ radix (S d)).
Context (Hcount : 1 ≤ count ≤ 32) (Hblk : 0 ≤ blk) (Hblk2 : blk + radix (S d) ≤ 2 ^ 29).
Context (ch : list blmeta → Z → Z → res (list blmeta * Z)).
Context (Hch : ∀ mem j, live n d j → shape d mem (child s d j) (below n d j) →
  tree_ok d mem (child s d j) (below n d j) →
  ∃ mem' r, ch mem (child s d j) (blk + j * radix d) = Ok (mem', r) ∧
    alloc_post d mem mem' (child s d j) (below n d j) (blk + j * radix d) count r).

(** What the loop leaves: no change but in hints, or a run taken. *)
Definition loop_post mem mem' (f : Z → bool) (j r : Z) : Prop :=
  frame mem mem' s (nodes (S d)) ∧
  ((r = BLIST_NONE ∧ opened d mem' s n f ∧ peek mem' s = peek mem s ∧
    (count = 1 → ∀ x, j * radix d ≤ x < n → f x = false)) ∨
   (∃ a, r = blk + a ∧ 0 ≤ a ∧ a + count ≤ n ∧ (∀ x, a ≤ x < a + count → f x = true) ∧
      opened d mem' s n (fupd false a count f) ∧ avail mem' s = avail mem s - count ∧
      hint mem' s = Z.min (hint mem s) (avail mem' s))).

(** After a child has given a run. *)
Lemma take_spec mem f :
  shape (S d) mem s n → opened d mem s n f → 0 ≤ avail mem s - count < 2 ^ 29 →
  ∃ mem', (m ← get mem s;
           mem ← set_bmu mem s (u32 (bmu m - count));
           (if bm_bighint m >? u32 (bmu m - count) then set_hint mem s (u32 (bmu m - count))
            else mret mem)) = Ok mem' ∧
    frame mem mem' s (nodes (S d)) ∧ opened d mem' s n f ∧ avail mem' s = avail mem s - count ∧
    hint mem' s = Z.min (hint mem s) (avail mem' s).
Proof using All.
  intros [Hin Hh]%shape_self Ho Ha. rewrite get_peek by done. rewrite Ok_bind.
  fold (avail mem s) (hint mem s). rewrite u32_small by (unfold is_u32; lia).
  destruct (set_bmu_stored mem s (avail mem s - count) Hin) as (m1&->&Hst1). rewrite Ok_bind.
  destruct (own_stored _ _ d _ n f _ Hs Hst1 Hh Hh Ho) as (Hf1&Ho1&Hp1).
  destruct (Z.gtb_spec (hint mem s) (avail mem s - count)).
  - destruct (set_hint_stored m1 s (avail mem s - count)) as (m2&->&Hst2).
    { by eapply frame_inside. }
    assert (Hh1 : hint m1 s ≠ BLIST_NONE) by (unfold hint; by rewrite Hp1).
    destruct (own_stored _ _ d _ n f _ Hs Hst2 Hh1) as (Hf2&Ho2&Hp2);
      [simpl; unfold BLIST_NONE; lia|done|].
    assert (Ha1 : avail m1 s = avail mem s - count) by (unfold avail; by rewrite Hp1).
    assert (Ha2 : avail m2 s = avail mem s - count) by (unfold avail at 1; by rewrite Hp2).
    assert (Hh2 : hint m2 s = avail mem s - count) by (unfold hint; by rewrite Hp2).
    exists m2. split; [done|]. split; [by eapply frame_trans|]. split; [done|]. lia.
  - assert (Ha1 : avail m1 s = avail mem s - count) by (unfold avail; by rewrite Hp1).
    assert (Hh1 : hint m1 s = hint mem s) by (unfold hint; by rewrite Hp1).
    exists m1. split; [done|]. split; [done|]. split; [done|]. lia.
Qed.

Lemma alloc_loop_spec fuel : ∀ j mem f,
  shape (S d) mem s n → opened d mem s n f → avail mem s = cnt f 0 n →
  0 ≤ j ≤ 16 → j * radix d < n + radix d → 17 - j ≤ Z.of_nat fuel →
  ∃ mem' r, alloc_loop ch fuel mem s (1 + j * nodes d) (blk + j * radix d) count (radix d)
      (16 * nodes d) (nodes d) = Ok (mem', r) ∧ loop_post mem mem' f j r.
Proof using All.
  induction fuel as [|fuel IH]; intros j mem f Hsh Ho Ha Hj Hjn Hfuel; [lia|]. cbn [alloc_loop].
  pose proof (nodes_pos d). pose proof (radix_pos d).
  destruct (Z.leb_spec (1 + j * nodes d) (16 * nodes d)) as [Hle|Hgt].
  2:{ assert (j = 16) as -> by nia. exists mem, BLIST_NONE. split; [done|].
      split; [apply frame_refl|]. left. split_and!; try done. intros _ x Hx.
      cbn [radix] in Hn. lia. }
  assert (Hj16 : 0 ≤ j < 16) by nia.
  destruct (live_or_marked d s n mem j Hsh Hj16 Hjn) as [Hin Hcase].
  replace (s + (1 + j * nodes d)) with (child s d j) by (unfold child; lia).
  rewrite get_peek by done. rewrite Ok_bind. fold (hint mem (child s d j)).
  destruct Hcase as [(Hlive&Hh&Hnext)|(Hnl&->&Hdead)].
  2:{ rewrite Z.eqb_refl. exists mem, BLIST_NONE. split; [done|]. split; [apply frame_refl|].
      left. split_and!; try done. intros _ x Hx. unfold live in Hnl. lia. }
  rewrite (proj2 (Z.eqb_neq _ _) Hh).
  assert (Hblk' : u32 (blk + j * radix d + radix d) = blk + (j + 1) * radix d).
  { cbn [radix] in Hblk2. rewrite u32_small; [lia|]. unfold is_u32. nia. }
  rewrite Hblk'. replace (1 + j * nodes d + nodes d) with (1 + (j + 1) * nodes d) by lia.
  destruct (Ho j Hlive) as [Htj Hfj]. pose proof (below_bounds n d j Hlive) as Hbj.
  destruct (Z.leb_spec count (hint mem (child s d j))) as [Hfit|Hnofit].
  - assert (Hshj : shape d mem (child s d j) (below n d j)) by (by apply Hsh).
    destruct (Hch mem j Hlive Hshj Htj) as (m1&r&->&a&c&Hc&Hr). rewrite Ok_bind. cbv beta iota.
    pose proof (child_frame _ _ _ _ _ _ Hlive (proj1 Hc)) as Hf1.
    pose proof (frame_self _ _ _ _ Hs Hf1) as Hself. apply frame_below in Hf1.
    pose proof (opened_step _ _ _ _ _ _ _ _ Hs Ho Hlive Hc) as Ho1.
    assert (Hsh1 : shape (S d) m1 s n) by (by eapply same_marks_shape).
    destruct Hr as [(->&->&Hnone)|(->&->&Ha0&Hac&Hrun)].
    + rewrite Z.eqb_refl. cbn [negb].
      assert (Ho1' : opened d m1 s n f).
      { eapply opened_ext; [|done]. intros x Hx. cbv beta.
        destruct (in_run (j * radix d) (radix d) x) eqn:E; [|done]. apply in_run_true in E.
        rewrite fupd_nil by lia. unfold below in *. rewrite Hfj by (unfold below; lia). f_equal. lia. }
      destruct (IH (j + 1) m1 f) as (m2&r2&E2&Hf2&Hr2); try done; try lia.
      { unfold avail. by rewrite Hself. }
      rewrite E2. exists m2, r2. split; [done|]. split; [by eapply frame_trans|].
      unfold avail, hint in *. rewrite Hself in Hr2. destruct Hr2 as [(->&?&?&Hall)|Hr2]; [left|by right].
      split_and!; try done. intros Hc1 x Hx.
      destruct (decide (x < (j + 1) * radix d)); [|apply Hall; [done|lia]].
      replace x with (j * radix d + (x - j * radix d)) by lia. unfold below in Hfj, Hnone.
      rewrite <-Hfj by lia. apply Hnone; [done|lia].
    + set (a' := j * radix d + a).
      assert (Hra : blk + j * radix d + a = blk + a') by (unfold a'; lia). rewrite Hra.
      assert (Han : 0 ≤ a' ∧ a' + count ≤ n). { unfold a', below in *. nia. }
      assert (Hnone : (blk + a' =? BLIST_NONE) = false).
      { apply Z.eqb_neq. unfold BLIST_NONE. lia. }
      rewrite Hnone. cbn [negb].
      assert (Hrun' : ∀ x, a' ≤ x < a' + count → f x = true).
      { intros x Hx. unfold a' in Hx. replace x with (j * radix d + (x - j * radix d)) by lia.
        rewrite <-Hfj by lia. apply Hrun. lia. }
      assert (Ho1' : opened d m1 s n (fupd false a' count f)).
      { eapply opened_ext; [|done]. intros x Hx. cbv beta. unfold a'.
        destruct (in_run (j * radix d) (radix d) x) eqn:E.
        - apply in_run_true in E. unfold fupd, in_run.
          replace (j * radix d + a <=? x) with (a <=? x - j * radix d) by lia.
          replace (x <? j * radix d + a + count) with (x - j * radix d <? a + count) by lia.
          destruct ((a <=? x - j * radix d) && (x - j * radix d <? a + count)); [done|].
          unfold below in *. rewrite Hfj by (unfold below; lia). f_equal. lia.
        - apply not_true_iff_false in E. rewrite in_run_true in E. symmetry. apply fupd_out. lia. }
      assert (Hcnt : cnt f 0 n = count + cnt (fupd false a' count f) 0 n).
      { rewrite cnt_fupd by lia. rewrite (proj2 (cnt_full f a' count ltac:(lia))) by done. lia. }
      assert (Hav : avail m1 s = avail mem s) by (unfold avail; by rewrite Hself).
      pose proof (cnt_bounds f 0 n). pose proof (cnt_bounds (fupd false a' count f) 0 n).
      destruct (take_spec m1 (fupd false a' count f) Hsh1 Ho1') as (m2&E2&Hf2&Ho2&Ha2&Hh2); [lia|].
      exists m2, (blk + a'). split.
      { apply bind_Ok in E2 as (m&Em&E2). apply bind_Ok in E2 as (m3&Em3&E2).
        rewrite Em, Ok_bind. cbv zeta. by rewrite Em3, Ok_bind, E2, Ok_bind. }
      split; [by eapply frame_trans|]. right. exists a'. rewrite Hav in Ha2.
      assert (Hhint : hint m1 s = hint mem s) by (unfold hint; by rewrite Hself).
      rewrite Hhint in Hh2. destruct Han. by split_and!.
  - destruct (Z.gtb_spec count (radix d)); [lia|].
    destruct (IH (j + 1) mem f) as (m2&r2&E2&Hf2&Hr2); try done; try lia.
    rewrite E2. exists m2, r2. split; [done|]. split; [done|].
    destruct Hr2 as [(->&?&?&Hall)|Hr2]; [left|by right]. split_and!; try done. intros Hc1 x Hx.
    destruct (decide (x < (j + 1) * radix d)); [|apply Hall; [done|lia]].
    replace x with (j * radix d + (x - j * radix d)) by lia. rewrite <-Hfj by (unfold below; lia).
    assert (Hz : avail mem (child s d j) = 0).
    { destruct (decide (avail mem (child s d j) = 0)); [done|].
      pose proof (tree_hint _ _ _ _ Htj). lia. }
    by apply (tree_empty d mem (child s d j) (below n d j) Hz); unfold below; lia.
Qed.
End alloc_loop.

Lemma skip_eq d : nodes (S d) - 1 = 16 * nodes d.
Proof. cbn [nodes]. lia. Qed.
Lemma child_blk d (blk j : Z) : live (radix (S d)) d j → 0 ≤ blk → blk + radix (S d) ≤ 2 ^ 29 →
  0 ≤ blk + j * radix d ∧ blk + j * radix d + radix d ≤ 2 ^ 29.
Proof. unfold live. cbn [radix]. pose proof (radix_pos d). nia. Qed.
Lemma live_weaken n d j : live n d j → n ≤ radix (S d) → live (radix (S d)) d j.
Proof. unfold live. lia. Qed.

(** Only hints, or nothing, changed. *)
Lemma changed_same d mem mem' s n :
  frame mem mem' s (nodes (S d)) → 1 ≤ n ≤ radix (S d) → tree_ok (S d) mem s n →
  opened d mem' s n (node_free (S d) mem s) → avail mem' s = avail mem s →
  (avail mem' s ≠ 0 → 1 ≤ hint mem' s) →
  changed (S d) mem mem' s n (fupd false 0 0 (node_free (S d) mem s)).
Proof.
  intros Hf Hn Ht Ho Ha Hh. split; [done|]. pose proof (tree_avail _ _ _ _ Ht) as Hc.
  destruct (close_node d mem' s n (node_free (S d) mem s)) as [? Hfree]; [done|congruence|done|done|].
  split; [done|]. intros x Hx. rewrite fupd_nil by lia. by apply Hfree.
Qed.

Lemma meta_alloc_spec d : ∀ levels mem s n blk count,
  (d < levels)%nat → 0 ≤ s → shape (S d) mem s n → tree_ok (S d) mem s n → 1 ≤ n ≤ radix (S d) →
  1 ≤ count ≤ 32 → 0 ≤ blk → blk + radix (S d) ≤ 2 ^ 29 →
  ∃ mem' r, blst_meta_alloc levels mem s blk count (radix (S d)) (nodes (S d) - 1) = Ok (mem', r) ∧
    alloc_post (S d) mem mem' s n blk count r.
Proof.
  induction d as [d IH] using lt_wf_ind.
  intros [|levels] mem s n blk count Hlev Hs Hsh Ht Hn Hcount Hblk Hblk2; [lia|].
  cbn [blst_meta_alloc]. rewrite next_skip_eq, sub_radix_eq, skip_eq. cbv zeta.
  destruct (shape_self _ _ _ _ Hsh) as [Hin Hh]. rewrite get_peek by done. rewrite Ok_bind.
  fold (avail mem s). pose proof (radix_pos d) as Hrad.
  destruct (Z.eqb_spec (avail mem s) 0) as [E|E].
  { destruct (set_hint_stored mem s count Hin) as (mem'&->&Hst). rewrite Ok_bind.
    eexists _, _. split; [done|]. exists 0, 0.
    assert (Hp : bmu (peek mem' s) = 0) by (destruct Hst as (_&->&_); done).
    assert (Hold : ∀ x, node_free (S d) mem s x = false).
    { intros x. cbn [node_free]. by rewrite E. }
    destruct (tree_empty (S d) mem' s n Hp (proj1 Hn)) as [Ht' Hfree]. split; [|by left].
    split; [|split; [done|]].
    - apply frame_own. eapply stored_frame; [done..|]. simpl. unfold BLIST_NONE. lia.
    - intros x Hx. rewrite fupd_nil, Hold by lia. apply Hfree. }
  assert (Hr29 : radix (S d) ≤ 2 ^ 29) by lia.
  destruct (open_full d mem s n Hs Hr29 Hn Hsh Ht E) as (m1&->&Hf1&Ho1). rewrite Ok_bind.
  set (f := node_free (S d) mem s) in *. pose proof (tree_avail _ _ _ _ Ht) as Hcnt. fold f in Hcnt.
  pose proof (frame_self _ _ _ _ Hs Hf1) as Hself. apply frame_below in Hf1.
  assert (Hsh1 : shape (S d) m1 s n) by (by eapply same_marks_shape).
  assert (Ha1 : avail m1 s = avail mem s) by (unfold avail; by rewrite Hself).
  assert (Hh1 : hint m1 s = hint mem s) by (unfold hint; by rewrite Hself).
  destruct (alloc_loop_spec d s n blk count Hs Hn Hcount Hblk Hblk2 (λ mem scan blk,
      if nodes d =? 1 then blst_leaf_alloc mem scan blk (s32 count)
      else blst_meta_alloc levels mem scan blk count (radix d) (nodes d - 1))) with
    (fuel := CHILDREN) (j := 0) (mem := m1) (f := f) as (m2&r&E2&Hf2&Hr); try done; try lia.
  { intros mem0 j Hj Hshj Htj. rewrite nodes_one. pose proof (below_bounds n d j Hj).
    destruct (child_blk d blk j) as [? ?]; [apply (live_weaken n); [done|lia]|done|done|].
    destruct (child_in s d j) as [? _]; [by destruct Hj|].
    destruct d as [|d'].
    - rewrite bool_decide_true, s32_small by (done || lia). by apply leaf_alloc_spec.
    - rewrite bool_decide_false by done. apply IH; try done; lia. }
  replace (blk + 0 * radix d) with blk in E2 by lia. replace (1 + 0 * nodes d) with 1 in E2 by lia.
  rewrite E2, Ok_bind. cbv beta iota.
  pose proof (tree_hint _ _ _ _ Ht E) as Hhint.
  destruct Hr as [(->&Ho2&Hp2&Hall)|(a&->&Ha0&Han&Hrun&Ho2&Ha2&Hh2)].
  - rewrite Z.eqb_refl. cbn [negb].
    assert (Hin2 : inside m2 s) by (eapply frame_inside; [done|]; by eapply frame_inside).
    rewrite get_peek by done. rewrite Ok_bind. fold (hint m2 s).
    assert (Hh2 : hint m2 s = hint mem s) by (unfold hint; by rewrite Hp2, Hself).
    assert (Ha2 : avail m2 s = avail mem s) by (unfold avail; by rewrite Hp2, Hself).
    assert (Hne1 : count ≠ 1).
    { intros H1. apply E. rewrite Hcnt. apply cnt_zero. intros x Hx. apply Hall; [done|lia]. }
    destruct (Z.geb_spec (hint m2 s) count).
    + destruct (set_hint_stored m2 s (u32 (count - 1)) Hin2) as (m3&->&Hst). rewrite Ok_bind.
      rewrite u32_small in Hst by (unfold is_u32; lia).
      destruct (own_stored _ _ d _ n f _ Hs Hst) as (Hf3&Ho3&Hp3);
        [congruence|simpl; unfold BLIST_NONE; lia|done|].
      eexists _, _. split; [done|]. exists 0, 0. split; [|by left].
      apply changed_same; try done.
      * eapply frame_trans; [done|]. by eapply frame_trans.
      * unfold avail at 1. by rewrite Hp3.
      * intros _. unfold hint. rewrite Hp3. simpl. lia.
    + rewrite Ok_bind. eexists _, _. split; [done|]. exists 0, 0. split; [|by left].
      apply changed_same; try done; [by eapply frame_trans|]. intros _. lia.
  - assert (Hnone : (blk + a =? BLIST_NONE) = false).
    { apply Z.eqb_neq. unfold BLIST_NONE. lia. }
    rewrite Hnone. cbn [negb]. eexists _, _. split; [done|]. exists a, count.
    split; [|right; by split_and!]. split; [by eapply frame_trans|].
    assert (Hc2 : avail m2 s = cnt (fupd false a count f) 0 n).
    { rewrite cnt_fupd by lia. rewrite (proj2 (cnt_full f a count ltac:(lia))) by done. lia. }
    apply close_node; try done. intros Hne. pose proof (cnt_bounds (fupd false a count f) 0 n). lia.
Qed.

(** ** Frees and fills of a range *)

(** The node at [s] has the same counter and perhaps a larger hint. *)
Definition raised (mem mem' : list blmeta) (s : Z) : Prop :=
  frame mem mem' s 1 ∧ avail mem' s = avail mem s ∧ hint mem s ≤ hint mem' s.

Lemma raised_refl mem s : raised mem mem s.
Proof. split; [apply frame_refl|]. split; [done|lia]. Qed.

Lemma raise_hint_spec mem s c :
  inside mem s → inside mem c → hint mem s ≠ BLIST_NONE → hint mem c ≠ BLIST_NONE →
  ∃ mem', raise_hint mem s c = Ok mem' ∧ raised mem mem' s.
Proof.
  intros Hs Hc H1 H2. unfold raise_hint. rewrite !get_peek by done. rewrite !Ok_bind.
  fold (hint mem s) (hint mem c). destruct (Z.ltb_spec (hint mem s) (hint mem c)).
  - destruct (set_hint_stored mem s (hint mem c) Hs) as (mem'&->&Hst). exists mem'. split; [done|].
    assert (Hs0 : 0 ≤ s) by (destruct Hs; lia). split; [by eapply stored_frame|].
    destruct Hst as (_&Hp&_). unfold avail, hint in *. rewrite Hp. simpl. split; [done|lia].
  - exists mem. split; [done|]. apply raised_refl.
Qed.

Section range_loop.
Context (b : bool) (d : nat) (s n base : Z) (Hs : 0 ≤ s) (Hn : 1 ≤ n ≤ radix (S d)).
Context (Hbase : 0 ≤ base) (Hbase2 : base + radix (S d) ≤ 2 ^ 29).
Context (ch : list blmeta → Z → Z → Z → Z → res (list blmeta * Z)).

(** The number that a fill of a run returns. *)
Definition filled (f : Z → bool) (x c : Z) : Z := if b then 0 else cnt f x c.

Definition range_child : Prop := ∀ mem j x v,
  live n d j → shape (S d) mem s n → tree_ok d mem (child s d j) (below n d j) →
  0 ≤ x → 1 ≤ v → x + v ≤ below n d j →
  (b = true → ∀ k, x ≤ k < x + v → node_free d mem (child s d j) k = false) →
  ∃ m1 mem', ch mem (child s d j) (base + j * radix d + x) v (base + j * radix d) =
      Ok (mem', filled (node_free d mem (child s d j)) x v) ∧
    changed d mem m1 (child s d j) (below n d j) (fupd b x v (node_free d mem (child s d j))) ∧
    raised m1 mem' s.
Context (Hch : range_child).

Lemma filled_bounds f x c : 0 ≤ c → 0 ≤ filled f x c ≤ c.
Proof using Type. intros Hc. unfold filled. destruct b; [lia|]. by apply cnt_bounds. Qed.

(** One turn of the loop. *)
Lemma range_step mem f j x v :
  shape (S d) mem s n → opened d mem s n f → live n d j → 0 ≤ x → 1 ≤ v → x + v ≤ below n d j →
  (b = true → ∀ k, x ≤ k < x + v → f (j * radix d + k) = false) →
  ∃ mem', ch mem (child s d j) (base + j * radix d + x) v (base + j * radix d) =
      Ok (mem', filled f (j * radix d + x) v) ∧
    frame mem mem' s (nodes (S d)) ∧ opened d mem' s n (fupd b (j * radix d + x) v f) ∧
    avail mem' s = avail mem s ∧ hint mem s ≤ hint mem' s.
Proof using All.
  intros Hsh Ho Hj Hx Hv Hxv Hb. destruct (Ho j Hj) as [Ht Hf].
  destruct (Hch mem j x v Hj Hsh Ht Hx Hv Hxv) as (m1&mem'&E&Hc&Hr1&Hr2&Hr3).
  { intros Hbt k Hk. rewrite Hf by lia. by apply Hb. }
  rewrite E. exists mem'. split.
  { do 2 f_equal. unfold filled. destruct b; [done|].
    rewrite (cnt_ext _ (λ k, f (j * radix d + k)) x v) by (intros; apply Hf; lia).
    clear -Hv. rewrite <-(Z2Nat.id v) by lia. induction (Z.to_nat v) as [|k IHk]; [by rewrite !cnt_nil|].
    rewrite Nat2Z.inj_succ, <-Z.add_1_r, !cnt_split, !cnt_one, IHk by lia.
    by rewrite Z.add_assoc. }
  pose proof (child_frame _ _ _ _ _ _ Hj (proj1 Hc)) as Hf1.
  pose proof (frame_self _ _ _ _ Hs Hf1) as Hself. apply frame_below in Hf1.
  pose proof (opened_step _ _ _ _ _ _ _ _ Hs Ho Hj Hc) as Ho1.
  assert (Ha : avail m1 s = avail mem s) by (unfold avail; by rewrite Hself).
  assert (Hh : hint m1 s = hint mem s) by (unfold hint; by rewrite Hself).
  split; [eapply frame_trans; [done|by apply frame_own]|]. split; [|split; [congruence|lia]].
  eapply opened_same; [eapply frame_same_at; [exact Hr1|lia|right; lia]|].
  eapply opened_ext; [|exact Ho1]. intros y Hy. cbv beta. pose proof (below_bounds n d j Hj).
  destruct (in_run (j * radix d) (radix d) y) eqn:Ey.
  - apply in_run_true in Ey. unfold fupd, in_run.
    replace (x <=? y - j * radix d) with (j * radix d + x <=? y) by lia.
    replace (y - j * radix d <? x + v) with (y <? j * radix d + x + v) by lia.
    destruct ((j * radix d + x <=? y) && (y <? j * radix d + x + v)); [done|].
    unfold below in *. rewrite Hf by (unfold below; lia). f_equal. lia.
  - apply not_true_iff_false in Ey. rewrite in_run_true in Ey. symmetry.
    apply fupd_out. unfold below in *. lia.
Qed.

Lemma range_loop_spec fuel : ∀ j x c mem f k,
  shape (S d) mem s n → opened d mem s n f → 0 ≤ j → 0 ≤ x →
  (c = 0 ∧ x ≤ j * radix d ∨ 1 ≤ c ∧ j * radix d ≤ x < j * radix d + radix d) →
  x + c ≤ n → j ≤ 16 →
  (b = true → ∀ y, x ≤ y < x + c → f y = false) →
  17 - j ≤ Z.of_nat fuel → 0 ≤ k → k + c ≤ 2 ^ 29 →
  ∃ mem', range_loop ch fuel mem s (1 + j * nodes d) (base + j * radix d) (base + x) c (radix d)
      (16 * nodes d) (nodes d) k = Ok (mem', k + filled f x c) ∧
    frame mem mem' s (nodes (S d)) ∧ opened d mem' s n (fupd b x c f) ∧
    avail mem' s = avail mem s ∧ hint mem s ≤ hint mem' s.
Proof using All.
  induction fuel as [|fuel IH]; intros j x c mem f k Hsh Ho Hj Hx Hcase Hxc Hj16 Hb Hfuel Hk Hkc; [lia|].
  cbn [range_loop]. pose proof (nodes_pos d). pose proof (radix_pos d) as Hrad.
  cbn [radix] in Hn, Hbase2.
  assert (Hc0 : 0 ≤ c) by lia. rewrite (u32_small (base + x + c)) by (unfold is_u32; lia).
  destruct Hcase as [[-> Hxj]|[Hc Hxj]].
  { rewrite (proj2 (Z.ltb_ge _ _)), andb_false_r by lia. exists mem.
    unfold filled. rewrite cnt_nil by lia. split; [destruct b; do 2 f_equal; lia|].
    split; [apply frame_refl|]. split; [|split; [done|lia]].
    eapply opened_ext; [|done]. intros y Hy. by rewrite fupd_nil. }
  assert (Hj15 : j < 16) by nia.
  rewrite (proj2 (Z.leb_le _ _)), (proj2 (Z.ltb_lt _ _)) by nia. cbn [andb].
  assert (Hjr : 0 ≤ j * radix d ∧ j * radix d + radix d ≤ 16 * radix d) by nia.
  rewrite (u32_small (base + j * radix d + radix d - (base + x))) by (unfold is_u32; lia).
  set (v := if base + j * radix d + radix d - (base + x) >? c then c
            else base + j * radix d + radix d - (base + x)).
  assert (Hv : v = Z.min c (j * radix d + radix d - x)).
  { unfold v. destruct (Z.gtb_spec (base + j * radix d + radix d - (base + x)) c); lia. }
  clearbody v. destruct (shape_self _ _ _ _ Hsh) as [Hin Hh]. rewrite get_peek by done.
  rewrite Ok_bind. fold (hint mem s). rewrite (proj2 (Z.eqb_neq _ _) Hh).
  replace (s + (1 + j * nodes d)) with (child s d j) by (unfold child; lia).
  assert (Hlive : live n d j) by (unfold live; lia).
  destruct (range_step mem f j (x - j * radix d) v Hsh Ho Hlive) as (m1&E&Hf1&Ho1&Ha1&Hh1);
    [lia|lia|unfold below; lia|intros Hbt y Hy; apply Hb; [done|lia]|].
  replace (base + j * radix d + (x - j * radix d)) with (base + x) in E by lia.
  replace (j * radix d + (x - j * radix d)) with x in * by lia.
  rewrite E, Ok_bind. cbv beta iota. pose proof (filled_bounds f x v ltac:(lia)).
  rewrite !u32_small by (unfold is_u32; lia).
  destruct (IH (j + 1) (x + v) (c - v) m1 (fupd b x v f) (k + filled f x v))
    as (m2&E2&Hf2&Ho2&Ha2&Hh2); try done; try lia.
  { by eapply same_marks_shape. }
  { intros Hbt y Hy. rewrite fupd_out by lia. apply Hb; [done|lia]. }
  replace (1 + (j + 1) * nodes d) with (1 + j * nodes d + nodes d) in E2 by lia.
  replace (base + (j + 1) * radix d) with (base + j * radix d + radix d) in E2 by lia.
  replace (base + (x + v)) with (base + x + v) in E2 by lia. rewrite E2.
  exists m2. split.
  { do 2 f_equal. unfold filled. destruct b; [lia|]. replace c with (v + (c - v)) at 2 by lia.
    rewrite cnt_split by lia. rewrite (cnt_ext (fupd false x v f) f (x + v)); [lia|].
    intros y Hy. apply fupd_out. lia. }
  split; [by eapply frame_trans|]. split; [|split; [congruence|lia]].
  eapply opened_ext; [|done]. intros y Hy. unfold fupd, in_run. repeat case_match; try done; lia.
Qed.
End range_loop.

Lemma divide_child base d j : (32 | base) → (32 | base + j * radix d).
Proof. intros H. apply Z.divide_add_r; [done|]. apply Z.divide_mul_r, radix_32. Qed.

(** A node that is all free after an operation. *)
Lemma changed_full d mem mem' s n g :
  frame mem mem' s (nodes (S d)) → 1 ≤ n ≤ radix (S d) → avail mem' s = cnt g 0 n →
  (avail mem' s = 0 ∨ avail mem' s = radix (S d)) → (avail mem' s ≠ 0 → 1 ≤ hint mem' s) →
  changed (S d) mem mem' s n g.
Proof. intros Hf Hn Ha Hor Hh. split; [done|]. apply close_node; try done. lia. Qed.

Lemma marks_child d mem mem' s j n :
  0 ≤ s → live n d j → same_marks mem mem' → shape (S d) mem s n →
  inside mem' (child s d j) ∧ hint mem' (child s d j) ≠ BLIST_NONE.
Proof.
  intros Hs Hj [L M] (_&_&Hl&_). specialize (Hl j Hj). apply shape_self in Hl as [Hin Hh].
  unfold inside in *. split; [by rewrite L|]. rewrite M; [done|lia].
Qed.

Lemma free_child d levels s n base :
  0 ≤ s → 1 ≤ n ≤ radix (S d) → 0 ≤ base → base + radix (S d) ≤ 2 ^ 29 → (32 | base) →
  (∀ mem s n base x c, (d ≠ 0)%nat → 0 ≤ s → shape d mem s n → tree_ok d mem s n →
    1 ≤ n ≤ radix d → 0 ≤ base → base + radix d ≤ 2 ^ 29 → (32 | base) → 0 ≤ x → 1 ≤ c →
    x + c ≤ n → (∀ y, x ≤ y < x + c → node_free d mem s y = false) →
    ∃ mem', blst_meta_free levels mem s (base + x) c (radix d) (nodes d - 1) base = Ok mem' ∧
      changed d mem mem' s n (fupd true x c (node_free d mem s))) →
  range_child true d s n base (λ mem child from v blk,
    mem ← (if nodes d =? 1 then blst_leaf_free mem child from (s32 v)
           else blst_meta_free levels mem child from v (radix d) (nodes d - 1) blk);
    mem ← raise_hint mem s child;
    mret (mem, 0)).
Proof.
  intros Hs Hn Hbase Hbase2 Hdiv IH mem j x v Hj Hsh Ht Hx Hv Hxv Hfree.
  pose proof (below_bounds n d j Hj) as Hbj. destruct (child_in s d j) as [Hc _]; [by destruct Hj|].
  destruct (child_blk d base j) as [Hb1 Hb2]; [apply (live_weaken n); [done|lia]|done|done|].
  specialize (Hfree eq_refl). assert (Hshj : shape d mem (child s d j) (below n d j)) by (by apply Hsh).
  assert (Hop : ∃ m1, (if nodes d =? 1
      then blst_leaf_free mem (child s d j) (base + j * radix d + x) (s32 v)
      else blst_meta_free levels mem (child s d j) (base + j * radix d + x) v (radix d) (nodes d - 1)
             (base + j * radix d)) = Ok m1 ∧
    changed d mem m1 (child s d j) (below n d j) (fupd true x v (node_free d mem (child s d j)))).
  { rewrite nodes_one. pose proof (divide_child base d j Hdiv). destruct d as [|d'].
    - rewrite bool_decide_true by done. cbn [radix] in Hbj. rewrite s32_small by lia.
      by apply leaf_free_spec.
    - rewrite bool_decide_false by done. apply IH; try done. lia. }
  destruct Hop as (m1&E&Hch). rewrite E, Ok_bind. exists m1.
  pose proof (frame_self _ _ _ _ Hs (child_frame _ _ _ _ _ _ Hj (proj1 Hch))) as Hself.
  destruct (shape_self _ _ _ _ Hsh) as [Hin Hh].
  destruct (marks_child d mem m1 s j n Hs Hj (proj1 (proj1 Hch)) Hsh) as [Hin1 Hh1].
  destruct (raise_hint_spec m1 s (child s d j)) as (m2&E2&Hr); try done.
  { eapply frame_inside; [apply Hch|done]. }
  { unfold hint. by rewrite Hself. }
  exists m2. rewrite E2, Ok_bind. by split_and!.
Qed.

Lemma meta_free_spec d : ∀ levels mem s n base x c,
  (d < levels)%nat → 0 ≤ s → shape (S d) mem s n → tree_ok (S d) mem s n → 1 ≤ n ≤ radix (S d) →
  0 ≤ base → base + radix (S d) ≤ 2 ^ 29 → (32 | base) → 0 ≤ x → 1 ≤ c → x + c ≤ n →
  (∀ y, x ≤ y < x + c → node_free (S d) mem s y = false) →
  ∃ mem', blst_meta_free levels mem s (base + x) c (radix (S d)) (nodes (S d) - 1) base = Ok mem' ∧
    changed (S d) mem mem' s n (fupd true x c (node_free (S d) mem s)).
Proof.
  induction d as [d IH] using lt_wf_ind.
  intros [|levels] mem s n base x c Hlev Hs Hsh Ht Hn Hbase Hbase2 Hdiv Hx Hc Hxc Hfree; [lia|].
  cbn [blst_meta_free]. rewrite next_skip_eq, sub_radix_eq, skip_eq. cbv zeta.
  destruct (shape_self _ _ _ _ Hsh) as [Hin Hh]. rewrite get_peek by done. rewrite Ok_bind.
  fold (avail mem s). pose proof (radix_pos d) as Hrad. set (f := node_free (S d) mem s) in *.
  pose proof (tree_avail _ _ _ _ Ht) as Hcnt. fold f in Hcnt.
  set (g := fupd true x c f). assert (Hg : cnt g 0 n = avail mem s + c).
  { unfold g. rewrite cnt_fupd by lia. rewrite (proj2 (cnt_zero f x c)) by done. lia. }
  pose proof (cnt_bounds g 0 n) as Hgb. pose proof (cnt_bounds f 0 n) as Hfb.
  (* the counter, and the children when the node was all allocated *)
  assert (Hopen : ∃ m1, (if avail mem s =? 0 then
        mem ← put mem s (Blmeta c c);
        (if negb (c =? radix (S d)) then
           init_loop CHILDREN mem s 1 (16 * nodes d) (nodes d) (Blmeta 0 0) (Blmeta 0 0)
         else mret mem)
      else set_bmu mem s (u32 (avail mem s + c))) = Ok m1 ∧
    frame mem m1 s (nodes (S d)) ∧ avail m1 s = avail mem s + c ∧ 1 ≤ hint m1 s ∧
    (avail m1 s ≠ radix (S d) → opened d m1 s n f)).
  { destruct (Z.eqb_spec (avail mem s) 0) as [E|E].
    - destruct (put_stored mem s (Blmeta c c) Hin) as (m0&->&Hst). rewrite Ok_bind.
      assert (Hf0 : frame mem m0 s (nodes (S d))).
      { apply frame_own. eapply stored_frame; [done..|]. simpl. unfold BLIST_NONE. lia. }
      assert (Hp0 : peek m0 s = Blmeta c c) by apply Hst.
      destruct (Z.eqb_spec c (radix (S d))) as [Ec|Ec]; cbn [negb].
      + exists m0. unfold avail, hint. rewrite Hp0. cbn [bmu bm_bighint].
        fold (avail mem s). split_and!; try done; lia.
      + assert (Hsh0 : shape (S d) m0 s n) by (by eapply same_marks_shape).
        destruct (init_children d s n (Blmeta 0 0) (Blmeta 0 0)) with (mem := m0)
          as (m1&->&Hf1&Hv); try done; [lia|]. exists m1.
        pose proof (frame_self _ _ _ _ Hs Hf1) as Hself. apply frame_below in Hf1.
        unfold avail, hint. rewrite Hself, Hp0. cbn [bmu bm_bighint]. fold (avail mem s).
        split; [done|]. split; [by eapply frame_trans|]. split; [lia|]. split; [lia|].
        intros _ j Hj. pose proof (below_bounds n d j Hj).
        destruct (tree_empty d m1 (child s d j) (below n d j)) as [Htj Hfj]; [|lia|].
        { rewrite Hv by done. by destruct (nodes d =? 1). }
        split; [done|]. intros y Hy. rewrite Hfj. symmetry.
        assert (H0 : cnt f 0 n = 0) by lia. rewrite cnt_zero in H0. apply H0.
        unfold live, below in *. nia.
    - rewrite u32_small by (unfold is_u32; lia).
      destruct (set_bmu_stored mem s (avail mem s + c) Hin) as (m1&->&Hst). exists m1.
      assert (Hp : peek m1 s = Blmeta (avail mem s + c) (hint mem s)) by apply Hst.
      assert (Hf1 : frame mem m1 s 1) by (by eapply stored_frame).
      unfold avail at 1 3, hint at 1. rewrite Hp. cbn [bmu bm_bighint].
      split; [done|]. split; [by apply frame_own|]. split; [done|].
      split; [by eapply tree_hint|]. intros Hne.
      eapply opened_same; [eapply frame_same_at; [exact Hf1|lia|right; lia]|].
      assert (Hr29 : radix (S d) ≤ 2 ^ 29) by lia.
      destruct (open_full d mem s n Hs Hr29 Hn Hsh Ht E) as (m2&E2&_&Ho).
      destruct (Z.eqb_spec (avail mem s) (radix (S d))); [lia|]. injection E2 as <-. exact Ho. }
  destruct Hopen as (m1&->&Hf1&Ha1&Hh1&Ho1). rewrite Ok_bind.
  assert (Hin1 : inside m1 s) by (by eapply frame_inside).
  rewrite get_peek by done. rewrite Ok_bind. fold (avail m1 s).
  destruct (Z.eqb_spec (avail m1 s) (radix (S d))) as [Efull|Efull].
  { exists m1. split; [done|]. apply changed_full; try done; [congruence|by right]. }
  destruct (Z.gtb_spec (avail m1 s) (radix (S d))); [lia|].
  specialize (Ho1 Efull). rewrite u32_small by (unfold is_u32; lia).
  replace (base + x - base) with x by lia.
  destruct (place n d x) as (j&y&Exy&Hj&Hy&Ej&_); [lia|lia|]. rewrite Ej.
  assert (Hjr : 0 ≤ j * radix d ≤ x) by (unfold live in Hj; nia).
  rewrite u32_small by (unfold is_u32; lia).
  assert (Hsh1 : shape (S d) m1 s n) by (by eapply same_marks_shape).
  destruct (range_loop_spec true d s n base Hs Hn Hbase Hbase2 _
    (free_child d levels s n base Hs Hn Hbase Hbase2 Hdiv ltac:(
      intros mem0 s0 n0 base0 x0 c0 Hd0; intros; destruct d as [|d']; [done|]; by apply IH; try lia))
    CHILDREN j x c m1 f 0) as (m2&E2&Hf2&Ho2&Ha2&Hh2); try done; try lia.
  { right. unfold below in Hy. lia. }
  { destruct Hj. lia. }
  { destruct Hj. unfold CHILDREN. lia. }
  replace (1 + j * nodes d) with (j * nodes d + 1) in E2 by lia. rewrite E2, Ok_bind.
  exists m2. split; [done|]. split; [by eapply frame_trans|].
  apply close_node; [done|unfold g in *; lia|lia|]. intros _. done.
Qed.

Lemma fill_child d levels s n base :
  0 ≤ s → 1 ≤ n ≤ radix (S d) → 0 ≤ base → base + radix (S d) ≤ 2 ^ 29 → (32 | base) →
  (∀ mem s n base x c, (d ≠ 0)%nat → 0 ≤ s → shape d mem s n → tree_ok d mem s n →
    1 ≤ n ≤ radix d → 0 ≤ base → base + radix d ≤ 2 ^ 29 → (32 | base) → 0 ≤ x → 1 ≤ c →
    x + c ≤ n →
    ∃ mem', blst_meta_fill levels mem s (base + x) c (radix d) (nodes d - 1) base =
        Ok (mem', cnt (node_free d mem s) x c) ∧
      changed d mem mem' s n (fupd false x c (node_free d mem s))) →
  range_child false d s n base (λ mem child from v blk,
    if nodes d =? 1 then blst_leaf_fill mem child from (s32 v)
    else blst_meta_fill levels mem child from v (radix d) (nodes d - 1) blk).
Proof.
  intros Hs Hn Hbase Hbase2 Hdiv IH mem j x v Hj Hsh Ht Hx Hv Hxv _.
  pose proof (below_bounds n d j Hj) as Hbj. destruct (child_in s d j) as [Hc _]; [by destruct Hj|].
  destruct (child_blk d base j) as [Hb1 Hb2]; [apply (live_weaken n); [done|lia]|done|done|].
  assert (Hshj : shape d mem (child s d j) (below n d j)) by (by apply Hsh).
  assert (Hop : ∃ m1, (if nodes d =? 1
      then blst_leaf_fill mem (child s d j) (base + j * radix d + x) (s32 v)
      else blst_meta_fill levels mem (child s d j) (base + j * radix d + x) v (radix d) (nodes d - 1)
             (base + j * radix d)) = Ok (m1, cnt (node_free d mem (child s d j)) x v) ∧
    changed d mem m1 (child s d j) (below n d j) (fupd false x v (node_free d mem (child s d j)))).
  { rewrite nodes_one. pose proof (divide_child base d j Hdiv). destruct d as [|d'].
    - rewrite bool_decide_true by done. cbn [radix] in Hbj. rewrite s32_small by lia.
      by apply leaf_fill_spec.
    - rewrite bool_decide_false by done. apply IH; try done. lia. }
  destruct Hop as (m1&E&Hch). exists m1, m1. split; [exact E|]. split; [done|]. apply raised_refl.
Qed.

Lemma meta_fill_spec d : ∀ levels mem s n base x c,
  (d < levels)%nat → 0 ≤ s → shape (S d) mem s n → tree_ok (S d) mem s n → 1 ≤ n ≤ radix (S d) →
  0 ≤ base → base + radix (S d) ≤ 2 ^ 29 → (32 | base) → 0 ≤ x → 1 ≤ c → x + c ≤ n →
  ∃ mem', blst_meta_fill levels mem s (base + x) c (radix (S d)) (nodes (S d) - 1) base =
      Ok (mem', cnt (node_free (S d) mem s) x c) ∧
    changed (S d) mem mem' s n (fupd false x c (node_free (S d) mem s)).
Proof.
  induction d as [d IH] using lt_wf_ind.
  intros [|levels] mem s n base x c Hlev Hs Hsh Ht Hn Hbase Hbase2 Hdiv Hx Hc Hxc; [lia|].
  cbn [blst_meta_fill]. rewrite next_skip_eq, sub_radix_eq, skip_eq. cbv zeta.
  destruct (shape_self _ _ _ _ Hsh) as [Hin Hh]. rewrite get_peek by done. rewrite Ok_bind.
  fold (avail mem s). pose proof (radix_pos d) as Hrad.
  pose proof (tree_avail _ _ _ _ Ht) as Hcnt. set (f := node_free (S d) mem s) in *.
  set (g := fupd false x c f).
  assert (Hg : cnt g 0 n = avail mem s - cnt f x c) by (unfold g; rewrite cnt_fupd by lia; lia).
  pose proof (cnt_bounds g 0 n) as Hgb. pose proof (cnt_bounds f 0 n) as Hfb.
  pose proof (cnt_bounds f x c) as Hfc.
  destruct ((c =? radix (S d)) || (avail mem s =? 0)) eqn:Eall.
  { (* all of the node is allocated *)
    assert (Hall : cnt f x c = avail mem s).
    { apply orb_true_iff in Eall as [E%Z.eqb_eq|E%Z.eqb_eq]; [|lia].
      assert (x = 0 ∧ c = n) as [-> ->] by lia. done. }
    destruct (put_stored mem s (Blmeta 0 c) Hin) as (m1&->&Hst). rewrite Ok_bind.
    exists m1. split; [by rewrite Hall|].
    assert (Hp : peek m1 s = Blmeta 0 c) by apply Hst.
    apply changed_full; try done; unfold avail, hint; rewrite ?Hp; cbn [bmu bm_bighint]; try lia.
    apply frame_own. eapply stored_frame; [done..|]. simpl. unfold BLIST_NONE. lia. }
  apply orb_false_iff in Eall as [Ec%Z.eqb_neq Ea%Z.eqb_neq].
  destruct (Z.gtb_spec c (radix (S d))); [lia|].
  assert (Hr29 : radix (S d) ≤ 2 ^ 29) by lia.
  destruct (open_full d mem s n Hs Hr29 Hn Hsh Ht Ea) as (m1&->&Hf1&Ho1). rewrite Ok_bind.
  fold f in Ho1. pose proof (frame_self _ _ _ _ Hs Hf1) as Hself. apply frame_below in Hf1.
  assert (Ha1 : avail m1 s = avail mem s) by (unfold avail; by rewrite Hself).
  assert (Hh1 : hint m1 s = hint mem s) by (unfold hint; by rewrite Hself).
  rewrite u32_small by (unfold is_u32; lia). replace (base + x - base) with x by lia.
  destruct (place n d x) as (j&y&Exy&Hj&Hy&Ej&_); [lia|lia|]. rewrite Ej.
  assert (Hjr : 0 ≤ j * radix d ≤ x) by (unfold live in Hj; nia).
  rewrite u32_small by (unfold is_u32; lia).
  assert (Hsh1 : shape (S d) m1 s n) by (by eapply same_marks_shape).
  destruct (range_loop_spec false d s n base Hs Hn Hbase Hbase2 _
    (fill_child d levels s n base Hs Hn Hbase Hbase2 Hdiv ltac:(
      intros mem0 s0 n0 base0 x0 c0 Hd0; intros; destruct d as [|d']; [done|]; by apply IH; try lia))
    CHILDREN j x c m1 f 0) as (m2&E2&Hf2&Ho2&Ha2&Hh2); try done; try lia.
  { right. unfold below in Hy. lia. }
  { destruct Hj. lia. }
  { destruct Hj. unfold CHILDREN. lia. }
  replace (1 + j * nodes d) with (j * nodes d + 1) in E2 by lia. rewrite E2, Ok_bind.
  cbv beta iota. rewrite Z.add_0_l. unfold filled.
  assert (Hin2 : inside m2 s) by (eapply frame_inside; [done|]; by eapply frame_inside).
  rewrite get_peek by done. rewrite Ok_bind. fold (avail m2 s).
  rewrite u32_small by (unfold is_u32; lia).
  destruct (set_bmu_stored m2 s (avail m2 s - cnt f x c) Hin2) as (m3&->&Hst). rewrite Ok_bind.
  assert (Hhn : hint m2 s ≠ BLIST_NONE).
  { destruct Hf2 as [[_ M2] _], Hf1 as [[_ M1] _]. by rewrite M2, M1. }
  destruct (own_stored _ _ d _ n g _ Hs Hst Hhn Hhn Ho2) as (Hf3&Ho3&Hp3).
  exists m3. split; [done|]. split; [by eapply frame_trans; [|eapply frame_trans]|].
  assert (Ha3 : avail m3 s = avail m2 s - cnt f x c) by (unfold avail at 1; by rewrite Hp3).
  assert (Hh3 : hint m3 s = hint m2 s) by (unfold hint at 1; by rewrite Hp3).
  pose proof (tree_hint _ _ _ _ Ht Ea). apply close_node; [done|lia|lia|]. done.
Qed.
