(* ===== verification/BlistSys.v ===== *)
(** * Block lists: the exported operations

    [blist_create], [blist_alloc], [blist_free], [blist_fill] and [blist_resize]
    against a set of free blocks. *)

From S2P Require Export Prelude Blist BlistSpec BlistOps.

(** ** The layout made by [blst_radix_init] *)

Lemma shape_same d mem mem' s n :
  0 ≤ s → length mem' = length mem → same_at mem mem' s (nodes d) → n ≤ radix d → shape d mem s n →
  shape d mem' s n.
Proof.
  intros Hs L. revert s n Hs. induction d as [|d IH]; intros s n Hs Hsame Hn (Hi&Hh&Hc);
    pose proof (same_at_self _ _ _ _ Hsame) as Hp; cbn [shape];
    (split; [by unfold inside in *; rewrite L|]); (split; [unfold hint in *; by rewrite Hp|]); [done|].
  destruct Hc as [Hl Ht]. split.
  - intros j Hj. destruct (child_in s d j) as [? ?]; [by destruct Hj|]. pose proof (below_bounds n d j Hj).
    apply IH; [lia|apply same_at_child; [done|by destruct Hj]|lia|by apply Hl].
  - intros j Hj Hjn. destruct (Ht j Hj Hjn) as [? ?]. split; [unfold inside in *; by rewrite L|].
    unfold hint in *. by rewrite (same_at_self _ _ _ _ (same_at_child _ _ _ _ _ Hsame Hj)).
Qed.

(** Only places from [a] on and below [b] have changed. *)
Definition writes (mem mem' : list blmeta) (a b : Z) : Prop :=
  length mem' = length mem ∧ ∀ i, 0 ≤ i → ¬ (a ≤ i < b) → peek mem' i = peek mem i.

Lemma writes_trans m1 m2 m3 a b : writes m1 m2 a b → writes m2 m3 a b → writes m1 m3 a b.
Proof. intros [L1 H1] [L2 H2]. split; [congruence|]. intros i Hi Hn. by rewrite H2, H1. Qed.
Lemma writes_sub m1 m2 a b a' b' : writes m1 m2 a b → a' ≤ a → b ≤ b' → writes m1 m2 a' b'.
Proof. intros [L H] ? ?. split; [done|]. intros i Hi Hn. apply H; lia. Qed.
Lemma stored_writes mem i v mem' : stored mem i v mem' → writes mem mem' i (i + 1).
Proof. intros (L&_&H). split; [done|]. intros j Hj Hn. apply H; lia. Qed.

(** The pass that counts and the pass that writes agree: [k] is the index of the
    last node, and the node is all allocated. *)
Definition init_spec (init : option (list blmeta * Z) → res (option (list blmeta) * Z)) (d : nat)
    (n k : Z) : Prop :=
  init None = Ok (None, k) ∧ 0 ≤ k ≤ nodes d ∧
  ∀ mem s, 0 ≤ s → s + k < Z.of_nat (length mem) →
    ∃ mem', init (Some (mem, s)) = Ok (Some mem', k) ∧ writes mem mem' s (s + nodes d) ∧
      shape d mem' s n ∧ avail mem' s = 0.

Section init_loop.
Context (d : nat) (n : Z) (Hn : 1 ≤ n ≤ radix (S d)).
Context (ch : option (list blmeta * Z) → Z → res (option (list blmeta) * Z)).
Context (Hch : ∀ m, 1 ≤ m ≤ radix d → ∃ k, init_spec (λ scan, ch scan m) d m k).

Lemma radix_init_loop_spec fuel : ∀ j m,
  0 ≤ j ≤ 16 → j * radix d < n + radix d → 17 - j ≤ Z.of_nat fuel → 0 ≤ m ≤ 1 + j * nodes d →
  let count := Z.max 0 (n - j * radix d) in
  ∃ i' m', radix_init_loop ch fuel None (1 + j * nodes d) (radix d) (16 * nodes d) (nodes d) count m =
      Ok (None, i', m') ∧ 1 + j * nodes d ≤ i' ≤ nodes (S d) ∧ 0 ≤ m' ≤ nodes (S d) ∧
    ∀ mem s, 0 ≤ s → s + Z.max i' m' < Z.of_nat (length mem) →
      ∃ mem', radix_init_loop ch fuel (Some (mem, s)) (1 + j * nodes d) (radix d) (16 * nodes d)
          (nodes d) count m = Ok (Some mem', i', m') ∧
        writes mem mem' (child s d j) (s + nodes (S d)) ∧
        (∀ k, j ≤ k → live n d k → shape d mem' (child s d k) (below n d k)) ∧
        (∀ k, j ≤ k < 16 → n ≤ k * radix d < n + radix d →
          inside mem' (child s d k) ∧ hint mem' (child s d k) = BLIST_NONE).
Proof using All.
  induction fuel as [|fuel IH]; intros j m Hj Hjn Hfuel Hm; [lia|]. cbn [radix_init_loop]. cbv zeta.
  pose proof (nodes_pos d). pose proof (radix_pos d). cbn [radix] in Hn. cbn [nodes].
  destruct (Z.leb_spec (1 + j * nodes d) (16 * nodes d)) as [Hle|Hgt].
  2:{ assert (j = 16) as -> by nia. exists (1 + 16 * nodes d), m. split; [done|].
      split; [lia|]. split; [lia|]. intros mem s Hs Hlen. exists mem. split; [done|].
      split; [by split|]. split; [intros k Hk [? _]; lia|lia]. }
  assert (Hj16 : 0 ≤ j < 16) by nia. set (count := Z.max 0 (n - j * radix d)).
  assert (Hnext : j * radix d < n → ∃ k i' m', init_spec (λ scan, ch scan (below n d j)) d (below n d j) k ∧
    radix_init_loop ch fuel None (1 + (j + 1) * nodes d) (radix d) (16 * nodes d) (nodes d)
      (Z.max 0 (n - (j + 1) * radix d)) (1 + j * nodes d + k) = Ok (None, i', m') ∧
    1 + (j + 1) * nodes d ≤ i' ≤ nodes (S d) ∧ 0 ≤ m' ≤ nodes (S d) ∧
    ∀ mem s, 0 ≤ s → s + Z.max i' m' < Z.of_nat (length mem) →
      ∃ mem', radix_init_loop ch fuel (Some (mem, s)) (1 + (j + 1) * nodes d) (radix d) (16 * nodes d)
          (nodes d) (Z.max 0 (n - (j + 1) * radix d)) (1 + j * nodes d + k) = Ok (Some mem', i', m') ∧
        writes mem mem' (child s d (j + 1)) (s + nodes (S d)) ∧
        (∀ k, j + 1 ≤ k → live n d k → shape d mem' (child s d k) (below n d k)) ∧
        (∀ k, j + 1 ≤ k < 16 → n ≤ k * radix d < n + radix d →
          inside mem' (child s d k) ∧ hint mem' (child s d k) = BLIST_NONE)).
  { intros Hlt. destruct (Hch (below n d j)) as [k Hk]; [apply below_bounds; by split|].
    pose proof Hk as (Hk1&Hk2&Hk3).
    destruct (IH (j + 1) (1 + j * nodes d + k)) as (i'&m'&E&?&?&Hsome); [lia..|].
    exists k, i', m'. split; [done|]. by split; [|split; [|split]]. }
  assert (Hlive : j * radix d < n →
    ∃ k, ch None (below n d j) = Ok (None, k) ∧ ∃ i' m',
    radix_init_loop ch fuel None (1 + j * nodes d + nodes d) (radix d) (16 * nodes d) (nodes d)
      (Z.max 0 (n - (j + 1) * radix d)) (1 + j * nodes d + k) = Ok (None, i', m') ∧
    1 + j * nodes d ≤ i' ≤ 1 + 16 * nodes d ∧ 0 ≤ m' ≤ 1 + 16 * nodes d ∧
    ∀ mem s, 0 ≤ s → s + Z.max i' m' < Z.of_nat (length mem) →
      ∃ m1, ch (Some (mem, s + (1 + j * nodes d))) (below n d j) = Ok (Some m1, k) ∧ ∃ mem',
      radix_init_loop ch fuel (Some (m1, s)) (1 + j * nodes d + nodes d) (radix d) (16 * nodes d)
          (nodes d) (Z.max 0 (n - (j + 1) * radix d)) (1 + j * nodes d + k) = Ok (Some mem', i', m') ∧
        writes mem mem' (child s d j) (s + (1 + 16 * nodes d)) ∧
        (∀ k, j ≤ k → live n d k → shape d mem' (child s d k) (below n d k)) ∧
        (∀ k, j ≤ k < 16 → n ≤ k * radix d < n + radix d →
          inside mem' (child s d k) ∧ hint mem' (child s d k) = BLIST_NONE)).
  { intros Hlt. destruct (Hnext Hlt) as (k&i'&m'&(Hk1&Hk2&Hk3)&E&Hi'&Hm'&Hsome).
    replace (1 + (j + 1) * nodes d) with (1 + j * nodes d + nodes d) in * by lia. cbn [nodes] in *.
    exists k. split; [done|]. exists i', m'. split; [done|]. split; [lia|]. split; [lia|].
    intros mem s Hs Hlen. assert (Hlj : live n d j) by (split; lia).
    destruct (Hk3 mem (child s d j)) as (m1&Em&Hw1&Hsh1&_); [unfold child; lia|unfold child; lia|].
    replace (s + (1 + j * nodes d)) with (child s d j) by (unfold child; lia).
    exists m1. split; [done|]. destruct (Hsome m1 s) as (m2&E2&Hw2&Hsh2&Ht2); [done|by rewrite (proj1 Hw1)|].
    exists m2. split; [done|]. destruct (child_in s d j Hj16) as [Hc1 Hc2]. cbn [nodes] in Hc2.
    pose proof (below_bounds n d j Hlj).
    split.
    { eapply writes_trans; [eapply writes_sub; [done|lia|lia]|].
      eapply writes_sub; [done|unfold child; lia|lia]. }
    split.
    - intros k' Hk' Hlk. destruct (decide (k' = j)) as [->|Hne]; [|apply Hsh2; [lia|done]].
      eapply shape_same; [|apply Hw2| |apply H1|exact Hsh1]; [lia|]. intros i Hi. apply Hw2; [lia|].
      unfold child in *. lia.
    - intros k' Hk' Hkn. apply Ht2; nia. }
  clear Hnext. destruct (Z.geb_spec count (radix d)) as [Hge|Hlt].
  - assert (Hb : radix d = below n d j) by (unfold below, count in *; lia).
    assert (Hc : count - radix d = Z.max 0 (n - (j + 1) * radix d)) by (unfold count in *; lia).
    rewrite Hc. destruct Hlive as (k&E1&i'&m'&E2&Hi&Hm'&Hsome); [unfold count in *; lia|].
    cbn [fmap option_fmap option_map fst snd].
    rewrite <-Hb in E1. rewrite E1, Ok_bind. cbn [mbind option_bind]. exists i', m'. split; [done|].
    split; [done|]. split; [done|]. intros mem s Hs Hlen.
    destruct (Hsome mem s Hs Hlen) as (m1&Em&mem'&E3&?&?&?).
    rewrite <-Hb in Em. rewrite Em, Ok_bind. exists mem'. by split_and!.
  - destruct (Z.gtb_spec count 0) as [Hpos|Hzero].
    + assert (Hb : count = below n d j) by (unfold below, count in *; lia).
      assert (Hc : Z.max 0 (n - (j + 1) * radix d) = 0) by (unfold count in *; lia).
      destruct Hlive as (k&E1&i'&m'&E2&Hi&Hm'&Hsome); [unfold count in *; lia|]. rewrite Hc in *.
      cbn [fmap option_fmap option_map fst snd].
    rewrite <-Hb in E1. rewrite E1, Ok_bind. cbn [mbind option_bind]. exists i', m'. split; [done|].
      split; [done|]. split; [done|]. intros mem s Hs Hlen.
      destruct (Hsome mem s Hs Hlen) as (m1&Em&mem'&E3&?&?&?).
      rewrite <-Hb in Em. rewrite Em, Ok_bind. exists mem'. by split_and!.
    + exists (1 + j * nodes d), m. split; [done|]. split; [lia|]. split; [lia|].
      intros mem s Hs Hlen. assert (Hin : inside mem (s + (1 + j * nodes d))) by (unfold inside; lia).
      destruct (set_hint_stored mem _ BLIST_NONE Hin) as (mem'&->&Hst). rewrite !Ok_bind.
      replace (s + (1 + j * nodes d)) with (child s d j) in * by (unfold child; lia).
      exists mem'. split; [done|]. split.
      { eapply writes_sub; [by eapply stored_writes|lia|]. pose proof (child_in s d j Hj16). cbn [nodes] in *. lia. }
      split; [intros k Hk [? ?]; unfold count in *; nia|].
      intros k Hk Hkn. assert (k = j) as -> by (unfold count in *; nia).
      destruct Hst as (L&Hp&_). unfold inside, hint in *. by rewrite L, Hp.
Qed.
End init_loop.

Lemma radix_init_spec d : ∀ levels n,
  (d < levels)%nat → 1 ≤ n ≤ radix d →
  ∃ k, init_spec (λ scan, blst_radix_init levels scan (radix d) (nodes d - 1) n) d n k.
Proof.
  induction d as [d IH] using lt_wf_ind. intros [|levels] n Hlev Hn; [lia|].
  destruct d as [|d].
  - exists 0. split; [done|]. split; [done|]. intros mem s Hs Hlen. cbn [blst_radix_init].
    assert (Hin : inside mem s) by (unfold inside; lia).
    destruct (put_stored mem s (Blmeta 0 0) Hin) as (mem'&->&Hst). rewrite !Ok_bind.
    exists mem'. split; [done|]. split; [by eapply stored_writes|]. cbn [shape].
    destruct Hst as (L&Hp&_). unfold inside, avail, hint in *. by rewrite L, Hp.
  - pose proof (radix_pos d). pose proof (nodes_pos d).
    destruct (radix_init_loop_spec d n Hn (λ scan m, blst_radix_init levels scan (radix d) (nodes d - 1) m)
      ltac:(intros m Hm; apply IH; [lia|lia|done]) CHILDREN 0 0)
      as (i'&m'&E&Hi'&Hm'&Hsome); [lia|lia|done|lia|].
    replace (1 + 0 * nodes d) with 1 in * by lia.
    replace (Z.max 0 (n - 0 * radix d)) with n in * by lia.
    exists (if m' <? i' then i' else m'). unfold init_spec. cbn [blst_radix_init].
    rewrite radix_leaf, next_skip_eq, sub_radix_eq, skip_eq, bool_decide_false by done. cbv zeta.
    rewrite Ok_bind, E, Ok_bind. split; [done|].
    assert (Hk : (if m' <? i' then i' else m') = Z.max i' m') by (destruct (Z.ltb_spec m' i'); lia).
    rewrite Hk. split; [lia|]. intros mem s Hs Hlen.
    assert (Hin : inside mem s) by (unfold inside; lia).
    destruct (put_stored mem s (Blmeta 0 0) Hin) as (m1&->&Hst). rewrite !Ok_bind.
    destruct (Hsome m1 s Hs) as (m2&E2&Hw&Hsh&Ht); [destruct Hst as [-> _]; lia|].
    rewrite E2, Ok_bind. exists m2. split; [by rewrite Hk|].
    assert (Hp : peek m2 s = Blmeta 0 0).
    { destruct Hw as [_ Hw]. rewrite Hw; [apply Hst|done|unfold child; lia]. }
    split.
    { eapply writes_trans; [eapply writes_sub; [by eapply stored_writes|lia|pose proof (nodes_pos (S d)); lia]|].
      eapply writes_sub; [done|unfold child; lia|lia]. }
    split; [|unfold avail; by rewrite Hp]. cbn [shape]. split.
    { unfold inside in *. destruct Hw as [-> _], Hst as [-> _]. done. }
    split; [unfold hint; by rewrite Hp|]. split; [intros j Hj; apply Hsh; [destruct Hj; lia|done]|].
    intros j Hj Hjn. by apply Ht.
Qed.

(** ** Sets of blocks *)

Definition set_of (f : Z → bool) (n : Z) : gset Z :=
  list_to_set (filter (λ k, f k = true) (seqZ 0 n)).
Definition run (a c : Z) : gset Z := list_to_set (seqZ a c).

Lemma elem_of_run a c x : x ∈ run a c ↔ a ≤ x < a + c.
Proof. unfold run. rewrite elem_of_list_to_set. apply elem_of_seqZ. Qed.
Lemma elem_of_set_of f n x : x ∈ set_of f n ↔ 0 ≤ x < n ∧ f x = true.
Proof.
  unfold set_of. rewrite elem_of_list_to_set, list_elem_of_filter, elem_of_seqZ. intuition lia.
Qed.
Lemma size_filter_seqZ f a n :
  Z.of_nat (size (list_to_set (filter (λ k, f k = true) (seqZ a n)) : gset Z)) = cnt f a n.
Proof. unfold cnt. rewrite size_list_to_set; [done|]. apply NoDup_filter, NoDup_seqZ. Qed.
Lemma size_set_of f n : Z.of_nat (size (set_of f n)) = cnt f 0 n.
Proof. apply size_filter_seqZ. Qed.
Lemma set_of_ext f g n : (∀ x, 0 ≤ x < n → f x = g x) → set_of f n = set_of g n.
Proof. intros He. apply set_eq. intros x. rewrite !elem_of_set_of. naive_solver. Qed.
Lemma set_of_clear f n a c : set_of (fupd false a c f) n = set_of f n ∖ run a c.
Proof.
  apply set_eq. intros x. rewrite elem_of_difference, !elem_of_set_of, elem_of_run. unfold fupd.
  destruct (in_run a c x) eqn:E.
  - apply in_run_true in E. naive_solver.
  - apply not_true_iff_false in E. rewrite in_run_true in E. naive_solver.
Qed.
Lemma set_of_set f n a c : 0 ≤ a → a + c ≤ n → set_of (fupd true a c f) n = set_of f n ∪ run a c.
Proof.
  intros Ha Hc. apply set_eq. intros x. rewrite elem_of_union, !elem_of_set_of, elem_of_run.
  unfold fupd. destruct (in_run a c x) eqn:E.
  - apply in_run_true in E. intuition lia.
  - apply not_true_iff_false in E. rewrite in_run_true in E. naive_solver.
Qed.
Lemma size_inter_run f n a c : 0 ≤ a → a + c ≤ n → Z.of_nat (size (set_of f n ∩ run a c)) = cnt f a c.
Proof.
  intros Ha Hc. rewrite <-size_filter_seqZ. do 2 f_equal. apply set_eq. intros x.
  rewrite elem_of_intersection, elem_of_set_of, elem_of_run, elem_of_list_to_set,
    list_elem_of_filter, elem_of_seqZ. intuition lia.
Qed.

(** ** The contract *)

(** The list manages the blocks below [bl_blocks], and [F] are the free ones. *)
Definition represents (bl : blist) (F : gset Z) : Prop :=
  ∃ d, (d ≤ 6)%nat ∧ bl_radix bl = radix d ∧ bl_skip bl = nodes d - 1 ∧
    1 ≤ bl_blocks bl ≤ radix d ∧ shape d (bl_root bl) 0 (bl_blocks bl) ∧
    tree_ok d (bl_root bl) 0 (bl_blocks bl) ∧ F = set_of (node_free d (bl_root bl) 0) (bl_blocks bl) ∧
    bl_free bl = Z.of_nat (size F) ∧ Z.of_nat (length (bl_root bl)) = bl_rootblks bl.

Inductive blist_op :=
  | BAlloc (count : Z)
  | BFree (blkno count : Z)
  | BFill (blkno count : Z).

Definition blist_do (bl : option blist) (op : blist_op) : res (option blist * Z) :=
  match op with
  | BAlloc count => blist_alloc bl count
  | BFree blkno count => bl ← blist_free bl blkno count; mret (bl, 0)
  | BFill blkno count => blist_fill bl blkno count
  end.

(** What a caller must respect: an allocation is of at most BLIST_MAX_ALLOC
    blocks, a range lies inside the list, and only allocated blocks are freed. *)
Definition op_ok (blocks : Z) (F : gset Z) (op : blist_op) : Prop :=
  match op with
  | BAlloc count => 1 ≤ count ≤ BLIST_BMAP_RADIX
  | BFree blkno count => 0 ≤ blkno ∧ 1 ≤ count ∧ blkno + count ≤ blocks ∧ run blkno count ## F
  | BFill blkno count => 0 ≤ blkno ∧ 1 ≤ count ∧ blkno + count ≤ blocks
  end.

(** What the operations do to the set of free blocks. *)
Definition op_spec (F : gset Z) (op : blist_op) (r : Z) (F' : gset Z) : Prop :=
  match op with
  | BAlloc count =>
    (r = BLIST_NONE ∧ F' = F ∧ (count = 1 → F = ∅)) ∨ (run r count ⊆ F ∧ F' = F ∖ run r count)
  | BFree blkno count => F' = F ∪ run blkno count
  | BFill blkno count => F' = F ∖ run blkno count ∧ r = Z.of_nat (size (F ∩ run blkno count))
  end.

(** The root is a leaf or a meta node. *)
Definition root_bounds d n : Prop := (d ≤ 6)%nat ∧ 1 ≤ n ≤ radix d.
Lemma root_radix d : (d ≤ 6)%nat → radix d ≤ 2 ^ 29.
Proof. intros Hd. etrans; [by apply (radix_mono d 6)|done]. Qed.

Lemma root_alloc d mem n count :
  root_bounds d n → shape d mem 0 n → tree_ok d mem 0 n → 1 ≤ count ≤ 32 →
  ∃ mem' r, (if radix d =? BLIST_BMAP_RADIX then blst_leaf_alloc mem 0 0 (s32 count)
      else blst_meta_alloc LEVELS mem 0 0 count (radix d) (nodes d - 1)) = Ok (mem', r) ∧
    alloc_post d mem mem' 0 n 0 count r.
Proof.
  intros [Hd Hn] Hsh Ht Hc. rewrite radix_leaf. pose proof (root_radix d Hd). destruct d as [|d].
  - rewrite bool_decide_true, s32_small by (done || lia). by apply leaf_alloc_spec.
  - rewrite bool_decide_false by done. apply meta_alloc_spec; try done; unfold LEVELS; lia.
Qed.
Lemma root_free d mem n a c :
  root_bounds d n → shape d mem 0 n → tree_ok d mem 0 n → 0 ≤ a → 1 ≤ c → a + c ≤ n →
  (∀ y, a ≤ y < a + c → node_free d mem 0 y = false) →
  ∃ mem', (if radix d =? BLIST_BMAP_RADIX then blst_leaf_free mem 0 a (s32 c)
      else blst_meta_free LEVELS mem 0 a c (radix d) (nodes d - 1) 0) = Ok mem' ∧
    changed d mem mem' 0 n (fupd true a c (node_free d mem 0)).
Proof.
  intros [Hd Hn] Hsh Ht Ha Hc Hac Hf. rewrite radix_leaf. pose proof (root_radix d Hd).
  destruct d as [|d].
  - rewrite bool_decide_true, s32_small by (done || (cbn [radix] in Hn; lia)).
    apply (leaf_free_spec mem 0 n 0); try done. apply Z.divide_0_r.
  - rewrite bool_decide_false by done. apply (meta_free_spec d LEVELS mem 0 n 0); try done; [|apply Z.divide_0_r].
    unfold LEVELS. lia.
Qed.
Lemma root_fill d mem n a c :
  root_bounds d n → shape d mem 0 n → tree_ok d mem 0 n → 0 ≤ a → 1 ≤ c → a + c ≤ n →
  ∃ mem', (if radix d =? BLIST_BMAP_RADIX then blst_leaf_fill mem 0 a (s32 c)
      else blst_meta_fill LEVELS mem 0 a c (radix d) (nodes d - 1) 0) =
        Ok (mem', cnt (node_free d mem 0) a c) ∧
    changed d mem mem' 0 n (fupd false a c (node_free d mem 0)).
Proof.
  intros [Hd Hn] Hsh Ht Ha Hc Hac. rewrite radix_leaf. pose proof (root_radix d Hd).
  destruct d as [|d].
  - rewrite bool_decide_true, s32_small by (done || (cbn [radix] in Hn; lia)).
    apply (leaf_fill_spec mem 0 n 0); try done. apply Z.divide_0_r.
  - rewrite bool_decide_false by done. apply (meta_fill_spec d LEVELS mem 0 n 0); try done; [|apply Z.divide_0_r].
    unfold LEVELS. lia.
Qed.

(** The list with a changed tree and a new count. *)
Lemma represents_changed bl d mem' g k :
  (d ≤ 6)%nat → bl_radix bl = radix d → bl_skip bl = nodes d - 1 → 1 ≤ bl_blocks bl ≤ radix d →
  shape d (bl_root bl) 0 (bl_blocks bl) →
  Z.of_nat (length (bl_root bl)) = bl_rootblks bl →
  changed d (bl_root bl) mem' 0 (bl_blocks bl) g → k = cnt g 0 (bl_blocks bl) →
  represents (with_bl_free (with_bl_root bl mem') k) (set_of g (bl_blocks bl)).
Proof.
  intros Hd Hr Hs Hn Hsh Hl (Hf&Ht&Hg) ->. exists d. simpl. split_and!; try done; try lia.
  - by eapply same_marks_shape.
  - apply set_of_ext. intros x Hx. symmetry. by apply Hg.
  - by rewrite size_set_of.
  - destruct Hf as [[L _] _]. congruence.
Qed.

Lemma do_refines bl F op :
  represents bl F → op_ok (bl_blocks bl) F op →
  ∃ bl' r F', blist_do (Some bl) op = Ok (Some bl', r) ∧ bl_blocks bl' = bl_blocks bl ∧
    represents bl' F' ∧ op_spec F op r F'.
Proof.
  intros (d&Hd&Hr&Hs&Hn&Hsh&Ht&->&Hfree&Hl) Hop. set (f := node_free d (bl_root bl) 0) in *.
  set (n := bl_blocks bl) in *. pose proof (root_radix d Hd).
  assert (Hcnt : bl_free bl = cnt f 0 n) by (by rewrite Hfree, size_set_of).
  assert (Hrb : root_bounds d n) by done. assert (Hn0 : 0 ≤ n) by lia.
  pose proof (cnt_bounds f 0 n Hn0) as Hb.
  destruct op as [count|a c|a c]; simpl in Hop; cbn [blist_do blist_alloc blist_free blist_fill];
    rewrite Hr, Hs.
  - destruct (root_alloc d (bl_root bl) n count) as (mem'&r&->&a&c&Hch&Hpost); try done.
    rewrite Ok_bind. fold f in Hch, Hpost. eexists _, r, (set_of (fupd false a c f) n). split; [done|].
    destruct Hpost as [(->&->&Hone)|(->&->&Ha0&Han&Hrun)].
    + rewrite Z.eqb_refl. cbn [negb]. split; [done|]. split.
      * replace (with_bl_root bl mem') with (with_bl_free (with_bl_root bl mem') (bl_free bl))
          by (by destruct bl).
        apply (represents_changed bl d mem'); try done.
        rewrite Hcnt. apply cnt_ext. intros. by rewrite fupd_nil.
      * left. split; [done|]. split.
        -- apply set_of_ext. intros. by rewrite fupd_nil.
        -- intros Hc1. apply set_eq. intros x. rewrite elem_of_set_of. split; [|set_solver].
           intros [Hx Hfx]. by rewrite Hone in Hfx.
    + assert (Hcf : cnt (fupd false a count f) 0 n = cnt f 0 n - count).
      { rewrite cnt_fupd by lia. rewrite (proj2 (cnt_full f a count ltac:(lia))) by done. lia. }
      pose proof (cnt_bounds (fupd false a count f) 0 n Hn0).
      assert (Hnone : (0 + a =? BLIST_NONE) = false).
      { apply Z.eqb_neq. unfold BLIST_NONE. lia. }
      rewrite Hnone. cbn [negb]. split; [done|]. split.
      * apply (represents_changed bl d mem'); try done. cbn [with_bl_root bl_free]. fold n.
        rewrite u32_small by (unfold is_u32; lia). lia.
      * right. split; [|apply set_of_clear]. intros x. rewrite elem_of_run, elem_of_set_of.
        intros Hx. split; [lia|]. apply Hrun. lia.
  - destruct Hop as (Ha&Hc&Hac&Hdis).
    assert (Hff : ∀ y, a ≤ y < a + c → f y = false).
    { intros y Hy. apply not_true_is_false. intros Hfy. apply (Hdis y).
      - by apply elem_of_run.
      - apply elem_of_set_of. split; [lia|done]. }
    destruct (root_free d (bl_root bl) n a c) as (mem'&->&Hch); try done. rewrite !Ok_bind.
    fold f in Hch.
    eexists _, 0, (set_of (fupd true a c f) n). split; [done|]. split; [done|].
    assert (Hcf : cnt (fupd true a c f) 0 n = cnt f 0 n + c).
    { rewrite cnt_fupd by lia. rewrite (proj2 (cnt_zero f a c)) by done. lia. }
    pose proof (cnt_bounds (fupd true a c f) 0 n Hn0). split; [|by apply set_of_set].
    apply (represents_changed bl d mem'); try done. cbn [with_bl_root bl_free]. fold n.
    rewrite u32_small by (unfold is_u32; lia). lia.
  - destruct Hop as (Ha&Hc&Hac).
    destruct (root_fill d (bl_root bl) n a c) as (mem'&->&Hch); try done. rewrite Ok_bind.
    fold f in Hch |- *.
    eexists _, _, (set_of (fupd false a c f) n). split; [done|]. split; [done|].
    assert (Hcf : cnt (fupd false a c f) 0 n = cnt f 0 n - cnt f a c) by (rewrite cnt_fupd by lia; lia).
    pose proof (cnt_bounds (fupd false a c f) 0 n Hn0). split; [|split; [apply set_of_clear|]].
    + apply (represents_changed bl d mem'); try done. cbn [with_bl_root bl_free]. fold n.
      pose proof (cnt_bounds f a c). rewrite u32_small by (unfold is_u32; lia). lia.
    + by rewrite size_inter_run.
Qed.

(** ** Creation *)

Lemma radix_loop_spec fuel : ∀ e blocks,
  (e ≤ 6)%nat → blocks ≤ 2 ^ 29 → (6 - e < fuel)%nat →
  ∃ d, radix_loop fuel (radix e) (nodes e - 1) blocks = Ok (radix d, nodes d - 1) ∧
    (d ≤ 6)%nat ∧ blocks ≤ radix d.
Proof.
  induction fuel as [|fuel IH]; intros e blocks He Hb Hfuel; [lia|]. cbn [radix_loop].
  destruct (Z.ltb_spec (radix e) blocks); [|by exists e].
  assert (He6 : (e ≤ 5)%nat).
  { destruct (decide (e = 6)%nat) as [->|]; [|lia]. change (radix 6) with (2 ^ 29) in *. lia. }
  pose proof (radix_mono (S e) 6 ltac:(lia)) as Hm. change (radix 6) with (2 ^ 29) in Hm.
  pose proof (nodes_radix e). pose proof (radix_pos e). pose proof (nodes_pos e). cbn [radix] in Hm.
  rewrite !u32_small by (unfold is_u32, BLIST_META_RADIX; lia).
  replace (radix e * BLIST_META_RADIX) with (radix (S e)) by (unfold BLIST_META_RADIX; cbn [radix]; lia).
  replace ((nodes e - 1 + 1) * BLIST_META_RADIX) with (nodes (S e) - 1)
    by (unfold BLIST_META_RADIX; cbn [nodes]; lia).
  apply IH; lia.
Qed.

(** The loop that never ends: the radix has wrapped to 0. *)
Lemma radix_loop_zero fuel : ∀ skip blocks, 0 < blocks → radix_loop fuel 0 skip blocks = Fault NoFuel.
Proof.
  induction fuel as [|fuel IH]; intros skip blocks Hb; cbn [radix_loop];
    rewrite (proj2 (Z.ltb_lt 0 blocks)) by done; [done|]. by apply IH.
Qed.
Lemma radix_loop_hangs fuel blocks :
  2 ^ 29 < blocks → radix_loop fuel BLIST_BMAP_RADIX 0 blocks = Fault NoFuel.
Proof.
  intros Hb. unfold BLIST_BMAP_RADIX.
  do 7 (destruct fuel as [|fuel]; cbn [radix_loop];
    [by rewrite (proj2 (Z.ltb_lt _ _)) by lia|rewrite (proj2 (Z.ltb_lt _ _)) by lia];
    match goal with |- context [u32 (?a * BLIST_META_RADIX)] =>
      let b := eval vm_compute in (u32 (a * BLIST_META_RADIX)) in
      change (u32 (a * BLIST_META_RADIX)) with b end).
  apply radix_loop_zero. lia.
Qed.

Section junk.
Context (junk : Z → list blmeta) (Hjunk : ∀ k, 0 ≤ k → Z.of_nat (length (junk k)) = k).

Lemma create_spec blocks :
  1 ≤ blocks ≤ 2 ^ 29 →
  ∃ bl, blist_create junk blocks = Ok bl ∧ bl_blocks bl = blocks ∧ represents bl ∅.
Proof using All.
  intros Hb. unfold blist_create. destruct (radix_loop_spec LEVELS 0 blocks) as (d&E&Hd&Hle);
    [lia|lia|unfold LEVELS; lia|]. change (radix 0) with BLIST_BMAP_RADIX in E.
  change (nodes 0 - 1) with 0 in E. rewrite E, Ok_bind. clear E. cbv beta iota.
  destruct (radix_init_spec d LEVELS blocks) as (k&Hk1&Hk2&Hk3); [unfold LEVELS; lia|lia|].
  rewrite Hk1, Ok_bind. cbv beta iota zeta. pose proof (nodes_radix d). pose proof (root_radix d Hd).
  rewrite u32_small by (unfold is_u32; lia).
  destruct (Hk3 (junk (1 + k)) 0) as (mem&->&Hw&Hsh&Ha); [done|rewrite Hjunk; lia|].
  rewrite !Ok_bind. eexists. split; [done|]. split; [done|]. exists d. cbn [bl_radix bl_skip bl_blocks bl_root bl_free bl_rootblks].
  destruct (tree_empty d mem 0 blocks Ha) as [Ht Hf]; [lia|].
  split_and!; try done; try lia.
  - symmetry. apply set_eq. intros x. rewrite elem_of_set_of, Hf, elem_of_empty.
    split; [by intros [_ ?]|done].
  - destruct Hw as [-> _]. by rewrite Hjunk by lia.
Qed.

(** ** Copying a tree *)

(** A free of blocks that are all allocated. *)
Lemma free_refines bl F a c :
  represents bl F → 0 ≤ a → 1 ≤ c → a + c ≤ bl_blocks bl → run a c ## F →
  ∃ bl', blist_free (Some bl) a c = Ok (Some bl') ∧ bl_blocks bl' = bl_blocks bl ∧
    represents bl' (F ∪ run a c).
Proof using Type.
  intros Hr Ha Hc Hac Hd. destruct (do_refines bl F (BFree a c) Hr) as (bl'&r&F'&E&Hb&Hr'&->); [done|].
  cbn [blist_do] in E. apply bind_Ok in E as (o&->&E). injection E as -> _. by exists bl'.
Qed.

(** [dest] has got the free blocks of [f] on [blk, blk + c) in addition. *)
Definition copied (G G' : gset Z) (f : Z → bool) (blk c : Z) : Prop :=
  ∀ y, y ∈ G' ↔ y ∈ G ∨ (blk ≤ y < blk + c ∧ f (y - blk) = true).

Definition copy_spec (copy : option blist → res (option blist)) (f : Z → bool) (blk c : Z) : Prop :=
  ∀ bl G, represents bl G → blk + c ≤ bl_blocks bl → (∀ y, blk ≤ y < blk + c → y ∉ G) →
  ∃ bl' G', copy (Some bl) = Ok (Some bl') ∧ bl_blocks bl' = bl_blocks bl ∧ represents bl' G' ∧
    copied G G' f blk c.

Lemma copy_none f blk c : (∀ x, 0 ≤ x < c → f x = false) → copy_spec (λ dest, mret dest) f blk c.
Proof using Type.
  intros Hf bl G Hr _ _. exists bl, G. split_and!; try done. intros y. split; [by left|].
  intros [?|[Hy Hfy]]; [done|]. rewrite Hf in Hfy; [done|lia].
Qed.
Lemma copy_all f blk c :
  0 ≤ blk → 1 ≤ c → (∀ x, 0 ≤ x < c → f x = true) → copy_spec (λ dest, blist_free dest blk c) f blk c.
Proof using Type.
  intros Hblk Hc Hf bl G Hr Hle Hno. destruct (free_refines bl G blk c) as (bl'&->&?&?); try done.
  { intros y Hy%elem_of_run. by apply Hno. }
  exists bl', (G ∪ run blk c). split_and!; try done. intros y. rewrite elem_of_union, elem_of_run.
  split; [intros [?|?]; [by left|right; split; [done|apply Hf; lia]]|intros [?|[? _]]; [by left|by right]].
Qed.
(** One part after the other. *)
Lemma copied_app G G1 G2 f g h blk c e :
  0 ≤ c → copied G G1 f blk c → copied G1 G2 g (blk + c) e →
  (∀ x, 0 ≤ x < c → h x = f x) → (∀ x, 0 ≤ x < e → h (c + x) = g x) → 0 ≤ e →
  copied G G2 h blk (c + e).
Proof using Type.
  intros Hc H1 H2 Hf Hg He y. rewrite (H2 y), (H1 y). split.
  - intros [[?|[Hy Hfy]]|[Hy Hgy]]; [by left| |]; right; (split; [lia|]).
    + by rewrite Hf by lia.
    + replace (y - blk) with (c + (y - (blk + c))) by lia. by rewrite Hg by lia.
  - intros [?|[Hy Hh]]; [by left; left|]. destruct (decide (y < blk + c)).
    + left. right. split; [lia|]. by rewrite <-Hf by lia.
    + right. split; [lia|]. rewrite <-Hg by lia. by replace (c + (y - (blk + c))) with (y - blk) by lia.
Qed.
End junk.

Lemma land_bit v j : 0 ≤ j < 32 → (v .& u32 (Z.shiftl 1 j) =? 0) = negb (Z.testbit v j).
Proof.
  intros Hj. destruct (mask_shift 1 j) as [H1 H2]; [lia..|]. change (Z.ones 1) with 1 in *.
  rewrite u32_small by done. destruct (Z.testbit v j) eqn:E; simpl.
  - apply Z.eqb_neq. intros H0. assert (Hb : Z.testbit (v .& Z.shiftl 1 j) j = false) by by rewrite H0, Z.testbit_0_l.
    rewrite Z.land_spec, E, H2 in Hb by lia. unfold in_run in Hb. lia.
  - apply Z.eqb_eq. apply (land_mask_zero v _ j 1); [done|lia|]. intros k Hk. by replace k with j by lia.
Qed.

Lemma represents_bound bl F : represents bl F → bl_blocks bl ≤ 2 ^ 29.
Proof. intros (d&Hd&_&_&Hn&_). pose proof (root_radix d Hd). lia. Qed.

Lemma copy_bits_spec v blk count fuel : ∀ j,
  0 ≤ blk → 0 ≤ j ≤ Z.min 32 count → 33 - j ≤ Z.of_nat fuel →
  copy_spec (copy_bits fuel v blk j count) (λ x, Z.testbit v (j + x)) (blk + j) (Z.min 32 count - j).
Proof.
  induction fuel as [|fuel IH]; intros j Hblk Hj Hfuel; [lia|]. intros bl G Hr Hle Hno.
  cbn [copy_bits]. unfold BLIST_BMAP_RADIX. pose proof (represents_bound bl G Hr).
  destruct ((j <? 32) && (j <? count)) eqn:E; zb.
  2:{ apply copy_none; try done. intros; lia. }
  rewrite shl_Ok by lia. rewrite Ok_bind, land_bit, negb_involutive by lia.
  assert (Hstep : copy_spec (λ dest, if Z.testbit v j then blist_free dest (blk + j) 1 else mret dest)
    (λ x, Z.testbit v (j + x)) (blk + j) 1).
  { destruct (Z.testbit v j) eqn:Ej.
    - apply copy_all; [lia|done|]. intros x Hx. by replace (j + x) with j by lia.
    - apply copy_none. intros x Hx. by replace (j + x) with j by lia. }
  rewrite u32_small by (unfold is_u32; lia).
  destruct (Hstep bl G Hr) as (b1&G1&E1&Hb1&Hr1&Hc1); [lia|intros; apply Hno; lia|].
  cbv beta in E1. rewrite E1, Ok_bind.
  destruct (IH (j + 1)) with (bl := b1) (G := G1) as (b2&G2&E2&Hb2&Hr2&Hc2); try done; try lia.
  { intros y Hy Hin. apply Hc1 in Hin as [Hin|[? _]]; [|lia]. apply (Hno y); [lia|done]. }
  exists b2, G2. rewrite E2. split_and!; [done|congruence|done|].
  replace (Z.min 32 count - j) with (1 + (Z.min 32 count - (j + 1))) by lia.
  eapply copied_app; [lia|exact Hc1| | | |lia].
  - replace (blk + j + 1) with (blk + (j + 1)) by lia. exact Hc2.
  - done.
  - intros x Hx. cbv beta. f_equal. lia.
Qed.

Section copy_loop.
Context (d : nat) (mem : list blmeta) (s n blk : Z) (f : Z → bool).
Context (Hblk : 0 ≤ blk) (Hn : 1 ≤ n ≤ radix (S d)).
Context (Hsh : shape (S d) mem s n) (Ho : opened d mem s n f).
Context (ch : Z → Z → Z → option blist → res (option blist)).
Context (Hch : ∀ j c, live n d j → 1 ≤ c ≤ below n d j →
  copy_spec (ch (child s d j) (blk + j * radix d) c) (node_free d mem (child s d j)) (blk + j * radix d) c).

Lemma copy_loop_done fuel i b c dest :
  c = 0 → copy_loop ch fuel mem s i b (radix d) (16 * nodes d) (nodes d) c dest = Ok dest.
Proof using Type. intros ->. by destruct fuel. Qed.

Lemma copy_loop_spec fuel : ∀ j c,
  0 ≤ j → 0 ≤ c → j * radix d + c ≤ n → 17 - j ≤ Z.of_nat fuel → j ≤ 16 →
  copy_spec (copy_loop ch fuel mem s (1 + j * nodes d) (blk + j * radix d) (radix d) (16 * nodes d)
    (nodes d) c) (λ x, f (j * radix d + x)) (blk + j * radix d) c.
Proof using All.
  induction fuel as [|fuel IH]; intros j c Hj Hc Hjc Hfuel Hj16 bl G Hr Hle Hno; [lia|].
  destruct (decide (c = 0)) as [->|Hc0].
  { rewrite copy_loop_done by done. apply (copy_none (λ x, f (j * radix d + x))); try done. intros; lia. }
  cbn [copy_loop]. pose proof (nodes_pos d). pose proof (radix_pos d). cbn [radix] in Hn.
  rewrite (proj2 (Z.eqb_neq c 0)) by done. assert (Hj15 : j < 16) by nia.
  rewrite (proj2 (Z.leb_le _ _)) by nia. cbn [negb andb].
  destruct (live_or_marked d s n mem j Hsh) as [Hin Hcase]; [lia|lia|].
  destruct Hcase as [(Hlive&Hh&_)|(Hnl&_)]; [|unfold live in Hnl; lia].
  replace (s + (1 + j * nodes d)) with (child s d j) by (unfold child; lia).
  rewrite get_peek by done. rewrite Ok_bind. fold (hint mem (child s d j)).
  rewrite (proj2 (Z.eqb_neq _ _) Hh). destruct (Ho j Hlive) as [_ Hf].
  pose proof (represents_bound bl G Hr). assert (Hjr : 0 ≤ j * radix d) by nia.
  set (e := if c >=? radix d then radix d else c).
  assert (He : e = Z.min c (radix d)).
  { unfold e. destruct (Z.geb_spec c (radix d)); lia. }
  assert (Hce : (if c >=? radix d then c - radix d else 0) = c - e).
  { unfold e. destruct (Z.geb_spec c (radix d)); lia. }
  rewrite Hce. clearbody e. clear Hce.
  destruct (Hch j e Hlive) with (bl := bl) (G := G) as (b1&G1&->&Hb1&Hr1&Hc1); try done.
  { unfold below. lia. }
  { lia. }
  { intros y Hy. apply Hno. lia. }
  rewrite Ok_bind.
  assert (Hrest : ∃ b2 G2, copy_loop ch fuel mem s (1 + j * nodes d + nodes d)
      (u32 (blk + j * radix d + radix d)) (radix d) (16 * nodes d) (nodes d) (c - e) (Some b1) =
      Ok (Some b2) ∧ bl_blocks b2 = bl_blocks b1 ∧ represents b2 G2 ∧
    copied G1 G2 (λ x, f (j * radix d + (e + x))) (blk + j * radix d + e) (c - e)).
  { destruct (decide (c - e = 0)) as [E0|E0].
    - rewrite copy_loop_done by done. exists b1, G1. split_and!; try done.
      intros y. split; [by left|intros [?|[? _]]; [done|lia]].
    - rewrite u32_small by (unfold is_u32; lia).
      destruct (IH (j + 1) (c - e)) with (bl := b1) (G := G1) as (b2&G2&E2&Hb2&Hr2&Hc2); try lia; try done.
      { intros y Hy Hin'. apply Hc1 in Hin' as [Hin'|[? _]]; [|lia]. apply (Hno y); [lia|done]. }
      replace (1 + (j + 1) * nodes d) with (1 + j * nodes d + nodes d) in E2 by lia.
      replace (blk + (j + 1) * radix d) with (blk + j * radix d + radix d) in * by lia.
      exists b2, G2. split_and!; try done.
      assert (Ee : e = radix d) by lia. rewrite Ee. intros y. rewrite (Hc2 y). rewrite <-Ee.
      split; (intros [?|[? Hfy]]; [by left|right; split; [lia|]]); rewrite <-Hfy; f_equal; lia. }
  destruct Hrest as (b2&G2&->&Hb2&Hr2&Hc2). exists b2, G2. split_and!; [done|congruence|done|].
  replace c with (e + (c - e)) by lia.
  eapply copied_app; [lia|exact Hc1|exact Hc2| |done|lia].
  intros x Hx. symmetry. apply Hf. unfold below. lia.
Qed.
End copy_loop.

Lemma blst_copy_spec d : ∀ levels mem s n blk c,
  (d < levels)%nat → 0 ≤ s → 0 ≤ blk → shape d mem s n → tree_ok d mem s n → 1 ≤ n ≤ radix d →
  1 ≤ c ≤ n → radix d ≤ 2 ^ 29 →
  copy_spec (λ dest, blst_copy levels mem s blk (radix d) (nodes d - 1) dest c) (node_free d mem s) blk c.
Proof.
  induction d as [d IH] using lt_wf_ind.
  intros [|levels] mem s n blk c Hlev Hs Hblk Hsh Ht Hn Hc Hr29 bl G Hr Hle Hno; [lia|].
  cbn [blst_copy]. destruct (shape_self _ _ _ _ Hsh) as [Hin Hh]. rewrite get_peek by done.
  rewrite Ok_bind, radix_leaf. fold (avail mem s). destruct d as [|d].
  - rewrite bool_decide_true by done. destruct Ht as (_&Ha&Hbits). cbv zeta. cbn [radix] in Hn.
    destruct (Z.eqb_spec (avail mem s) ONES) as [E|E].
    { apply copy_all; try done; [lia|]. intros x Hx. cbn [node_free]. rewrite E, testbit_ones_32 by lia.
      apply Z.ltb_lt. lia. }
    destruct (Z.eqb_spec (avail mem s) 0) as [E0|E0]; cbn [negb].
    { apply (copy_none (node_free 0 mem s)); try done. intros x Hx. cbn [node_free].
      by rewrite E0, Z.testbit_0_l. }
    pose proof (copy_bits_spec (avail mem s) blk c 33 0 Hblk) as Hb.
    rewrite Z.min_r, Z.add_0_r in Hb by lia. replace (c - 0) with c in Hb by lia.
    destruct (Hb ltac:(lia) ltac:(lia) bl G Hr Hle Hno) as (b'&G'&?&?&?&?). by exists b', G'.
  - rewrite bool_decide_false by done. rewrite next_skip_eq, sub_radix_eq, skip_eq.
    destruct (Z.eqb_spec (avail mem s) 0) as [E0|E0].
    { apply (copy_none (node_free (S d) mem s)); try done. intros x Hx. cbn [node_free]. by rewrite E0. }
    destruct (Z.eqb_spec (avail mem s) (radix (S d))) as [E|E].
    { assert (Hmin : (if c <? radix (S d) then c else radix (S d)) = c)
        by (destruct (Z.ltb_spec c (radix (S d))); lia). rewrite Hmin.
      apply copy_all; try done; [lia|]. intros x Hx. cbn [node_free].
      by rewrite (proj2 (Z.eqb_neq _ _) E0), (proj2 (Z.eqb_eq _ _) E). }
    cbv zeta. destruct (open_full d mem s n Hs Hr29 Hn Hsh Ht E0) as (m1&E1&_&Ho).
    rewrite (proj2 (Z.eqb_neq _ _) E) in E1. injection E1 as <-.
    assert (Hch : ∀ j c0, live n d j → 1 ≤ c0 ≤ below n d j →
      copy_spec (λ dest, blst_copy levels mem (child s d j) (blk + j * radix d) (radix d) (nodes d - 1) dest c0)
        (node_free d mem (child s d j)) (blk + j * radix d) c0).
    { intros j c0 Hj Hc0. pose proof (below_bounds n d j Hj). pose proof (radix_pos d).
      cbn [radix] in Hr29. destruct (child_in s d j) as [? _]; [by destruct Hj|].
      apply (IH d ltac:(lia) levels mem (child s d j) (below n d j)); try done; try lia.
      - destruct Hj. nia.
      - by apply Hsh.
      - by apply Ho. }
    pose proof (copy_loop_spec d mem s n blk _ Hblk Hn Hsh Ho
      (λ scan blk count dest, blst_copy levels mem scan blk (radix d) (nodes d - 1) dest count) Hch
      CHILDREN 0 c) as Hl.
    replace (1 + 0 * nodes d) with 1 in Hl by lia. replace (blk + 0 * radix d) with blk in Hl by lia.
    destruct (Hl ltac:(lia) ltac:(lia) ltac:(lia) ltac:(done) ltac:(lia) bl G Hr Hle Hno)
      as (b'&G'&E'&?&?&Hc'). exists b', G'. split_and!; try done.
Qed.

(** ** The properties *)

(** C23: for up to 2^29 blocks [blist_create] returns a list with all of its blocks
    allocated; for more the loop that finds the radix of the root never ends,
    since the radix wraps to 0. *)
Theorem blist_create_total (junk : Z → list blmeta) (blocks : Z) :
  (∀ k, 0 ≤ k → Z.of_nat (length (junk k)) = k) → 1 ≤ blocks →
  (blocks ≤ 2 ^ 29 → ∃ bl, blist_create junk blocks = Ok bl ∧ bl_blocks bl = blocks ∧ represents bl ∅) ∧
  (2 ^ 29 < blocks → ∀ fuel, radix_loop fuel BLIST_BMAP_RADIX 0 blocks = Fault NoFuel).
Proof.
  intros Hj Hb. split; [|intros Hlt fuel; by apply radix_loop_hangs].
  intros Hle. by apply create_spec.
Qed.

(** C21: allocations, frees and fills do to the tree what they should do to the set
    of free blocks: an allocation takes a run of blocks that were all free, or
    fails and changes nothing, and one of a single block fails only when no block
    is free; a free and a fill of a range free and allocate exactly that range; a
    fill returns the number of blocks that were free; and [bl_free] counts the
    free blocks.  No operation faults, so no array access is out of bounds, no
    shift is undefined, no loop runs on and no panic is reached. *)
Theorem blist_refines bl F op :
  represents bl F → op_ok (bl_blocks bl) F op →
  ∃ bl' r F', blist_do (Some bl) op = Ok (Some bl', r) ∧ bl_blocks bl' = bl_blocks bl ∧
    represents bl' F' ∧ op_spec F op r F'.
Proof. apply do_refines. Qed.

(** C22: [blist_resize] returns a list of the new number of blocks whose free blocks
    are those of the old list that are left, and with [freenew] all new ones. *)
Theorem blist_resize_keeps (junk : Z → list blmeta) save F count freenew :
  (∀ k, 0 ≤ k → Z.of_nat (length (junk k)) = k) → represents save F → 1 ≤ count ≤ 2 ^ 29 →
  ∃ bl F', blist_resize junk save count freenew = Ok bl ∧ bl_blocks bl = count ∧ represents bl F' ∧
    ∀ x, x ∈ F' ↔ x < count ∧ (x ∈ F ∨ (freenew = true ∧ bl_blocks save ≤ x)).
Proof.
  intros Hj Hsave Hcount. unfold blist_resize.
  destruct (create_spec junk Hj count Hcount) as (nb&->&Hnb&Hrep). rewrite Ok_bind.
  pose proof Hsave as (d&Hd&Hr&Hsk&Hn&Hsh&Ht&->&_). set (n := bl_blocks save) in *.
  set (c := if count >? n then n else count).
  assert (Hc : c = Z.min count n) by (unfold c; destruct (Z.gtb_spec count n); lia). clearbody c.
  rewrite Hr, Hsk.
  destruct (blst_copy_spec d LEVELS (bl_root save) 0 n 0 c) with (bl := nb) (G := (∅ : gset Z))
    as (b1&G1&->&Hb1&Hr1&Hc1); try done; try lia; [unfold LEVELS; lia|by apply root_radix|].
  rewrite Ok_bind.
  assert (Hin : ∀ x, x ∈ G1 ↔ 0 ≤ x < c ∧ node_free d (bl_root save) 0 x = true).
  { intros x. rewrite (Hc1 x). rewrite Z.add_0_l, Z.sub_0_r. split; [intros [?|?]; [set_solver|done]|by right]. }
  rewrite Hnb. destruct (freenew && (c <? count)) eqn:Efree.
  - apply andb_true_iff in Efree as [-> Hlt%Z.ltb_lt].
    destruct (free_refines b1 G1 c (count - c) Hr1) as (b2&->&Hb2&Hr2); [lia|lia|lia| |].
    { intros x Hx%elem_of_run [? _]%Hin. lia. }
    rewrite Ok_bind. exists b2, (G1 ∪ run c (count - c)). split; [done|]. split; [congruence|].
    split; [done|]. intros x. rewrite elem_of_union, Hin, elem_of_run, elem_of_set_of.
    assert (c = n) as -> by lia. intuition lia.
  - rewrite Ok_bind. exists b1, G1. split; [done|]. split; [congruence|]. split; [done|].
    intros x. rewrite Hin, elem_of_set_of. apply andb_false_iff in Efree.
    destruct Efree as [->|Hge%Z.ltb_ge]; intuition (lia || congruence).
Qed.

(** Memory that holds zeroes. *)
Definition sample_junk (k : Z) : list blmeta := replicate (Z.to_nat k) (Blmeta 0 0).

(** A list of 1024 blocks in which block 0 and block 511 were freed, 3 blocks asked
    for, and then blocks 1 to 510 freed. *)
Definition sample_history : res (option blist * Z) :=
  bl ← blist_create sample_junk 1024;
  bl ← blist_free (Some bl) 0 1;
  bl ← blist_free bl 511 1;
  '(bl, _) ← blist_alloc bl 3;
  bl ← blist_free bl 1 510;
  blist_alloc bl 3.

(** The hint of a node is not raised when a free makes it all free: blocks 0 to
    511 of a list of 1024 are free and yet a request for 3 blocks fails, since the
    failed request before the last free had lowered the hint to 2. *)
Example blist_alloc_misses_free_node :
  ∃ bl, sample_history = Ok (Some bl, BLIST_NONE) ∧ bl_free bl = 512 ∧
    (∀ x, 0 ≤ x < 512 → node_free 2 (bl_root bl) 0 x = true).
Proof.
  eexists. split; [vm_compute; reflexivity|]. split; [done|]. intros x Hx.
  cbn [node_free radix]. change (avail _ 0 =? 0) with false. change (avail _ 0 =? 8192) with false.
  rewrite Z.div_small by lia. cbn iota. change (16 * 32) with 512.
  reflexivity.
Qed.

Lemma sample_junk_length k : 0 ≤ k → Z.of_nat (length (sample_junk k)) = k.
Proof. intros Hk. unfold sample_junk. rewrite length_replicate. lia. Qed.

Lemma blist_create_total_witness :
  (1000 ≤ 2 ^ 29 → ∃ bl, blist_create sample_junk 1000 = Ok bl ∧ bl_blocks bl = 1000 ∧ represents bl ∅) ∧
  (2 ^ 29 < 1000 → ∀ fuel, radix_loop fuel BLIST_BMAP_RADIX 0 1000 = Fault NoFuel).
Proof. apply (blist_create_total sample_junk 1000); [exact sample_junk_length|lia]. Defined.

Lemma blist_refines_witness :
  ∃ bl, blist_create sample_junk 1000 = Ok bl ∧
    ∃ bl' r F', blist_do (Some bl) (BFree 3 600) = Ok (Some bl', r) ∧ bl_blocks bl' = bl_blocks bl ∧
      represents bl' F' ∧ op_spec ∅ (BFree 3 600) r F'.
Proof.
  destruct (create_spec sample_junk sample_junk_length 1000 ltac:(lia)) as (bl&E&Hb&Hr).
  exists bl. split; [exact E|]. apply (blist_refines bl ∅ (BFree 3 600) Hr).
  rewrite Hb. simpl. split_and!; [lia|lia|lia|]. intros x _ Hx. by apply elem_of_empty in Hx.
Defined.

Lemma blist_resize_keeps_witness :
  ∃ save, blist_create sample_junk 1000 = Ok save ∧
    ∃ bl F', blist_resize sample_junk save 2000 true = Ok bl ∧ bl_blocks bl = 2000 ∧ represents bl F' ∧
      ∀ x, x ∈ F' ↔ x < 2000 ∧ (x ∈ (∅ : gset Z) ∨ (true = true ∧ bl_blocks save ≤ x)).
Proof.
  destruct (create_spec sample_junk sample_junk_length 1000 ltac:(lia)) as (save&E&_&Hr).
  exists save. split; [exact E|].
  apply (blist_resize_keeps sample_junk save ∅ 2000 true sample_junk_length Hr). lia.
Defined.
