(* ===== verification/Clock.v ===== *)
(** * Dates and seconds since the epoch (dev/clock_subr.c, dev/clock_subr.h,
      sys/clock.h)

    The conversions between a date and a number of seconds, against a calendar
    that adds up the lengths of the years and months. *)

From S2P Require Export Prelude.

Definition EINVAL : Z := 22.
Definition SECS_PER_MINUTE : Z := 60.
Definition SECS_PER_HOUR : Z := 3600.
Definition SECS_PER_DAY : Z := 86400.
Definition DAYS_PER_COMMON_YEAR : Z := 365.
Definition DAYS_PER_LEAP_YEAR : Z := 366.
Definition POSIX_BASE_YEAR : Z := 1970.
Definition FEBRUARY : Z := 2.
Definition DAYSTO2001 : Z := 365 * 31 + 8.
Definition DAYS4YEARS : Z := 365 * 4 + 1.
Definition DAYS100YEARS : Z := 365 * 100 + 24.
Definition DAYS400YEARS : Z := 365 * 400 + 97.

(** The year is 64 bits wide, the other fields 8 bits. *)
Record clock_ymdhms := Ymdhms {
  dt_year : Z;
  dt_mon : Z;
  dt_day : Z;
  dt_wday : Z;
  dt_hour : Z;
  dt_min : Z;
  dt_sec : Z;
}.

Definition days_in_month (m : Z) : Z :=
  if m =? 2 then 28
  else if (m =? 4) || (m =? 6) || (m =? 9) || (m =? 11) then 30
  else if (m =? 1) || (m =? 3) || (m =? 5) || (m =? 7) || (m =? 8) || (m =? 10) || (m =? 12) then 31
  else -1.

Definition is_leap_year (year : Z) : bool :=
  if negb (year .& 3 =? 0) then false
  else if negb (year mod 100 =? 0) then true
  else year mod 400 =? 0.

Definition days_per_year (year : Z) : Z :=
  if is_leap_year year then DAYS_PER_LEAP_YEAR else DAYS_PER_COMMON_YEAR.

(** ** From a date to seconds *)

(** [for (; i < year; i++) days += days_per_year(i)] *)
Fixpoint add_years (fuel : nat) (i year days : Z) : res Z :=
  if i <? year then
    match fuel with
    | O => Fault NoFuel
    | S fuel => add_years fuel (u64 (i + 1)) year (u64 (days + days_per_year i))
    end
  else mret days.
Fixpoint add_months (fuel : nat) (i mon days : Z) : res Z :=
  if i <? mon then
    match fuel with
    | O => Fault NoFuel
    | S fuel => add_months fuel (i + 1) mon (u64 (days + days_in_month i))
    end
  else mret days.

(** The early loop takes 31 turns, the one for later years at most 3; a month
    is less than 256. *)
Definition clock_ymdhms_to_secs (dt : clock_ymdhms) : res Z :=
  let year := dt_year dt in
  if year <? POSIX_BASE_YEAR then mret (-1)
  else
    let days := if is_leap_year year && (dt_mon dt >? FEBRUARY) then 1 else 0 in
    days ← (if year <? 2001 then add_years 31 POSIX_BASE_YEAR year days
            else
              let days := days + DAYSTO2001 in
              let year := year - 2001 in
              let i := year / 400 in
              let days := u64 (days + i * DAYS400YEARS) in
              let year := year - i * 400 in
              let i := year / 100 in
              let days := u64 (days + i * DAYS100YEARS) in
              let year := year - i * 100 in
              let i := year / 4 in
              let days := u64 (days + i * DAYS4YEARS) in
              let year := year - i * 4 in
              add_years 4 (dt_year dt - year) (dt_year dt) days);
    days ← add_months 256 1 (dt_mon dt) days;
    let days := u64 (days + (dt_day dt - 1)) in
    let secs := u64 (((days * 24 + dt_hour dt) * 60 + dt_min dt) * 60 + dt_sec dt) in
    if (s64 secs <? 0) || (secs >? 2 ^ 63 - 1) then mret (-1) else mret secs.

(** ** From seconds to a date *)

(** [for (; days >= days_per_year(i); i++) days -= days_per_year(i)] *)
Fixpoint sub_years (fuel : nat) (i days : Z) : res (Z * Z) :=
  if days >=? days_per_year i then
    match fuel with
    | O => Fault NoFuel
    | S fuel => sub_years fuel (u64 (i + 1)) (s64 (days - days_per_year i))
    end
  else mret (i, days).
Fixpoint sub_months (fuel : nat) (year leap i days : Z) : res (Z * Z) :=
  if days >=? days_in_month i + leap then
    match fuel with
    | O => Fault NoFuel
    | S fuel =>
      sub_months fuel year (if (i =? 1) && is_leap_year year then 1 else 0) (u64 (i + 1))
        (s64 (days - (days_in_month i + leap)))
    end
  else mret (i, days).

(** The error, or the date. *)
Definition clock_secs_to_ymdhms (secs : Z) : res (Z + clock_ymdhms) :=
  if secs <? 0 then mret (inl EINVAL)
  else
    let days := secs / SECS_PER_DAY in
    let rsec := secs mod SECS_PER_DAY in
    let wday := u8 ((days + 4) mod 7) in
    '(year, days) ← (if days >=? DAYSTO2001 then
                       let days := days - DAYSTO2001 in
                       let year := 2001 in
                       let i := days / DAYS400YEARS in
                       let days := s64 (days - i * DAYS400YEARS) in
                       let year := u64 (year + i * 400) in
                       let i := days / DAYS100YEARS in
                       let days := s64 (days - i * DAYS100YEARS) in
                       let year := u64 (year + i * 100) in
                       let i := days / DAYS4YEARS in
                       let days := s64 (days - i * DAYS4YEARS) in
                       let year := u64 (year + i * 4) in
                       sub_years 4 year days
                     else sub_years 31 POSIX_BASE_YEAR days);
    '(mon, days) ← sub_months 12 year 0 1 days;
    let hour := u8 (rsec / SECS_PER_HOUR) in
    let rsec := rsec mod SECS_PER_HOUR in
    let min := u8 (rsec / SECS_PER_MINUTE) in
    let rsec := rsec mod SECS_PER_MINUTE in
    mret (inr (Ymdhms year (u8 mon) (u8 (days + 1)) wday hour min (u8 rsec))).

(** ** Binary coded decimal *)
Definition bcdtobin (bcd : Z) : Z := u32 ((Z.shiftr bcd 4 .& 0x0f) * 10 + (bcd .& 0x0f)).
Definition bintobcd (bin : Z) : Z := (u32 (Z.shiftl (bin / 10) 4) .& 0xf0) .| (bin mod 10).

(** ** The calendar *)

(** The Gregorian calendar, for itself. *)
Definition gregorian_leap (year : Z) : bool :=
  (year mod 4 =? 0) && (negb (year mod 100 =? 0) || (year mod 400 =? 0)).
Definition year_length (year : Z) : Z := if gregorian_leap year then 366 else 365.
Definition month_length (year m : Z) : Z :=
  let february := if gregorian_leap year then 29 else 28 in
  nth (Z.to_nat (m - 1)) [31; february; 31; 30; 31; 30; 31; 31; 30; 31; 30; 31] 0.

(** The days from the start of 1970 to the start of a year, and from the start
    of a year to the start of a month of it, by adding up. *)
Fixpoint sum_years (k : nat) : Z :=
  match k with O => 0 | S k => sum_years k + year_length (1970 + Z.of_nat k) end.
Definition year_start (year : Z) : Z := sum_years (Z.to_nat (year - 1970)).
Fixpoint sum_months (year : Z) (k : nat) : Z :=
  match k with O => 0 | S k => sum_months year k + month_length year (Z.of_nat k + 1) end.
Definition month_start (year m : Z) : Z := sum_months year (Z.to_nat (m - 1)).

Definition day_number (dt : clock_ymdhms) : Z :=
  year_start (dt_year dt) + month_start (dt_year dt) (dt_mon dt) + (dt_day dt - 1).
(** The seconds since the epoch of a date. *)
Definition posix_secs (dt : clock_ymdhms) : Z :=
  ((day_number dt * 24 + dt_hour dt) * 60 + dt_min dt) * 60 + dt_sec dt.

Definition valid_date (dt : clock_ymdhms) : Prop :=
  1970 ≤ dt_year dt ∧ 1 ≤ dt_mon dt ≤ 12 ∧ 1 ≤ dt_day dt ≤ month_length (dt_year dt) (dt_mon dt) ∧
  0 ≤ dt_hour dt < 24 ∧ 0 ≤ dt_min dt < 60 ∧ 0 ≤ dt_sec dt < 60.

#[export] Instance valid_date_dec dt : Decision (valid_date dt).
Proof. unfold valid_date. apply _. Defined.
