(* ===== verification/ClockSpec.v ===== *)
(** * Dates and seconds: the conversions are inverse to each other

    Closed forms of the loops of both conversions, against the calendar of
    Clock.v; the round trip, and the days on which it fails. *)

From S2P Require Export Prelude Clock.

#[local] Ltac div_lia := Z.div_mod_to_equations; lia.

(** ** Years *)

Lemma leap_spec y : is_leap_year y = gregorian_leap y.
Proof.
  unfold is_leap_year, gregorian_leap. change 3 with (Z.ones 2). rewrite Z.land_ones by done.
  change (2 ^ 2) with 4. by destruct (y mod 4 =? 0), (y mod 100 =? 0), (y mod 400 =? 0).
Qed.
Lemma days_per_year_spec y : days_per_year y = year_length y.
Proof. unfold days_per_year, year_length. by rewrite leap_spec. Qed.

(** The leap years before [y], counted from the year 1. *)
Definition leaps (y : Z) : Z := (y - 1) / 4 - (y - 1) / 100 + (y - 1) / 400.

Lemma leaps_next y : 0 ≤ y → leaps (y + 1) = leaps y + (if is_leap_year y then 1 else 0).
Proof.
  intros Hy. rewrite leap_spec. unfold gregorian_leap, leaps.
  destruct (Z.eqb_spec (y mod 4) 0), (Z.eqb_spec (y mod 100) 0), (Z.eqb_spec (y mod 400) 0);
    simpl; div_lia.
Qed.

Lemma year_start_closed y : 1970 ≤ y → year_start y = 365 * (y - 1970) + leaps y - 477.
Proof.
  intros Hy. unfold year_start. remember (Z.to_nat (y - 1970)) as k eqn:Ek.
  assert (y = 1970 + Z.of_nat k) as -> by lia. clear. induction k as [|k IH]; [done|].
  cbn [sum_years]. rewrite <- days_per_year_spec. rewrite IH. replace (1970 + Z.of_nat (S k)) with (1970 + Z.of_nat k + 1) by lia.
  rewrite leaps_next by lia. unfold days_per_year, DAYS_PER_LEAP_YEAR, DAYS_PER_COMMON_YEAR.
  destruct (is_leap_year _); lia.
Qed.
Lemma year_start_next y : 1970 ≤ y → year_start (y + 1) = year_start y + days_per_year y.
Proof.
  intros Hy. rewrite !year_start_closed, leaps_next by lia.
  unfold days_per_year, DAYS_PER_LEAP_YEAR, DAYS_PER_COMMON_YEAR. destruct (is_leap_year y); lia.
Qed.
Lemma days_per_year_bounds y : 365 ≤ days_per_year y ≤ 366.
Proof. unfold days_per_year. by destruct (is_leap_year y). Qed.

(** ** Months *)

(** The loops agree with the calendar on each month of a common or leap year;
    there are only twelve of them. *)
Lemma month_cases m : 1 ≤ m ≤ 12 →
  m = 1 ∨ m = 2 ∨ m = 3 ∨ m = 4 ∨ m = 5 ∨ m = 6 ∨ m = 7 ∨ m = 8 ∨ m = 9 ∨ m = 10 ∨ m = 11 ∨ m = 12.
Proof. lia. Qed.

Definition feb (y : Z) : Z := if is_leap_year y then 1 else 0.

Lemma month_length_spec y m :
  1 ≤ m ≤ 12 → month_length y m = days_in_month m + (if is_leap_year y && (m =? 2) then 1 else 0).
Proof.
  intros Hm. unfold month_length. rewrite leap_spec.
  destruct (month_cases m Hm) as [->|[->|[->|[->|[->|[->|[->|[->|[->|[->|[->| ->]]]]]]]]]]];
    by destruct (gregorian_leap y).
Qed.

Lemma month_start_feb y m :
  1 ≤ m ≤ 12 →
  month_start y m = (if m >? 2 then feb y else 0) +
    match m with 1 => 0 | 2 => 31 | 3 => 59 | 4 => 90 | 5 => 120 | 6 => 151 | 7 => 181 | 8 => 212
    | 9 => 243 | 10 => 273 | 11 => 304 | _ => 334 end.
Proof.
  intros Hm. unfold month_start, feb.
  destruct (month_cases m Hm) as [->|[->|[->|[->|[->|[->|[->|[->|[->|[->|[->| ->]]]]]]]]]]];
    (match goal with |- context [Z.to_nat ?k] =>
       let n := eval vm_compute in (Z.to_nat k) in change (Z.to_nat k) with n end);
    cbn [sum_months]; rewrite ?month_length_spec by done; destruct (is_leap_year y); reflexivity.
Qed.

Lemma month_start_bounds y m : 1 ≤ m ≤ 12 → 0 ≤ month_start y m ≤ 335.
Proof.
  intros Hm. rewrite month_start_feb by done. unfold feb.
  destruct (month_cases m Hm) as [->|[->|[->|[->|[->|[->|[->|[->|[->|[->|[->| ->]]]]]]]]]]];
    destruct (is_leap_year y); simpl; lia.
Qed.

Lemma month_start_next y m : 1 ≤ m → month_start y (m + 1) = month_start y m + month_length y m.
Proof.
  intros Hm. unfold month_start. replace (Z.to_nat (m + 1 - 1)) with (S (Z.to_nat (m - 1))) by lia.
  cbn [sum_months]. do 2 f_equal. lia.
Qed.
Lemma days_in_month_bounds m : 1 ≤ m ≤ 12 → 28 ≤ days_in_month m ≤ 31.
Proof.
  intros Hm.
  by destruct (month_cases m Hm) as [->|[->|[->|[->|[->|[->|[->|[->|[->|[->|[->| ->]]]]]]]]]]].
Qed.

(** The start of a month in a common year. *)
Definition plain_start (y m : Z) : Z := month_start y m - (if m >? 2 then feb y else 0).

Lemma plain_start_next y m : 1 ≤ m ≤ 12 → plain_start y (m + 1) = plain_start y m + days_in_month m.
Proof.
  intros Hm. unfold plain_start. rewrite month_start_next by lia. rewrite month_length_spec by done. unfold feb.
  destruct (Z.gtb_spec (m + 1) 2), (Z.gtb_spec m 2), (Z.eqb_spec m 2), (is_leap_year y); simpl; lia.
Qed.

Lemma add_months_from y fuel : ∀ i m days,
  1 ≤ i ≤ m → m ≤ 12 → m - i ≤ Z.of_nat fuel → 0 ≤ days → days + (m - i) * 31 < 2 ^ 62 →
  add_months fuel i m days = Ok (days + plain_start y m - plain_start y i).
Proof.
  induction fuel as [|fuel IH]; intros i m days Hi Hm Hfuel Hd Hb; cbn [add_months];
    (destruct (Z.ltb_spec i m); [|assert (i = m) as -> by lia; f_equal; lia]); [lia|].
  pose proof (days_in_month_bounds i). rewrite u64_small by (unfold is_u64; lia).
  rewrite IH by lia. f_equal. rewrite (plain_start_next y i) by lia. lia.
Qed.
Lemma add_months_spec y m days :
  1 ≤ m ≤ 12 → 0 ≤ days < 2 ^ 61 → add_months 256 1 m days = Ok (days + plain_start y m).
Proof.
  intros Hm Hd. rewrite (add_months_from y) by lia. f_equal.
  change (plain_start y 1) with (0 - 0). lia.
Qed.

(** ** From a date to seconds *)

Lemma add_years_spec fuel : ∀ i year days,
  1970 ≤ i ≤ year → year - i ≤ Z.of_nat fuel → year < 2 ^ 62 → 0 ≤ days →
  days + (year - i) * 366 < 2 ^ 62 →
  add_years fuel i year days = Ok (days + year_start year - year_start i).
Proof.
  induction fuel as [|fuel IH]; intros i year days Hi Hfuel Hy Hd Hb; cbn [add_years];
    (destruct (Z.ltb_spec i year); [|assert (i = year) as -> by lia; f_equal; lia]); [lia|].
  pose proof (days_per_year_bounds i). rewrite !u64_small by (unfold is_u64; lia).
  rewrite IH by lia. f_equal. rewrite (year_start_next i) by lia. lia.
Qed.

Lemma year_start_2001 y :
  2001 ≤ y →
  let z := y - 2001 in let a := z / 400 in let z1 := z - a * 400 in let b := z1 / 100 in
  let z2 := z1 - b * 100 in let c := z2 / 4 in let r := z2 - c * 4 in
  0 ≤ r ≤ 3 ∧
  year_start (y - r) = DAYSTO2001 + a * DAYS400YEARS + b * DAYS100YEARS + c * DAYS4YEARS.
Proof.
  intros Hy. cbv zeta. split; [div_lia|]. rewrite year_start_closed by div_lia.
  unfold DAYSTO2001, DAYS400YEARS, DAYS100YEARS, DAYS4YEARS, leaps. div_lia.
Qed.

Lemma year_parts y :
  2001 ≤ y →
  let z := y - 2001 in let a := z / 400 in let z1 := z - a * 400 in let b := z1 / 100 in
  let z2 := z1 - b * 100 in let c := z2 / 4 in
  0 ≤ 400 * a ≤ y ∧ 0 ≤ b ≤ 3 ∧ 0 ≤ c ≤ 24.
Proof. intros Hy. cbv zeta. split_and!; div_lia. Qed.

Lemma years_spec y leap :
  1970 ≤ y < 2 ^ 52 → 0 ≤ leap ≤ 1 →
  (if y <? 2001 then add_years 31 POSIX_BASE_YEAR y leap
   else
     let days := leap + DAYSTO2001 in
     let year := y - 2001 in
     let i := year / 400 in
     let days := u64 (days + i * DAYS400YEARS) in
     let year := year - i * 400 in
     let i := year / 100 in
     let days := u64 (days + i * DAYS100YEARS) in
     let year := year - i * 100 in
     let i := year / 4 in
     let days := u64 (days + i * DAYS4YEARS) in
     let year := year - i * 4 in
     add_years 4 (y - year) y days) = Ok (leap + year_start y).
Proof.
  intros Hy Hl. destruct (Z.ltb_spec y 2001).
  - unfold POSIX_BASE_YEAR. rewrite add_years_spec by lia. f_equal.
    change (year_start 1970) with 0. lia.
  - cbv zeta. destruct (year_start_2001 y) as [Hr Hs]; [lia|].
    destruct (year_parts y) as (Ha&Hb&Hc); [lia|].
    set (a := (y - 2001) / 400) in *. set (z1 := y - 2001 - a * 400) in *.
    set (b := z1 / 100) in *. set (z2 := z1 - b * 100) in *. set (c := z2 / 4) in *.
    set (r := z2 - c * 4) in *. clearbody r c z2 b z1 a.
    unfold DAYSTO2001, DAYS400YEARS, DAYS100YEARS, DAYS4YEARS in *.
    rewrite (u64_small (leap + _ + _)) by (unfold is_u64; lia).
    rewrite (u64_small (leap + _ + _ + _)) by (unfold is_u64; lia).
    rewrite (u64_small (leap + _ + _ + _ + _)) by (unfold is_u64; lia).
    rewrite add_years_spec by lia. f_equal. lia.
Qed.

Lemma year_start_lower y : 1970 ≤ y → 365 * (y - 1970) ≤ year_start y.
Proof.
  intros Hy. unfold year_start. remember (Z.to_nat (y - 1970)) as k eqn:Ek.
  assert (y = 1970 + Z.of_nat k) as -> by lia. clear. induction k as [|k IH]; [done|].
  cbn [sum_years]. rewrite <- days_per_year_spec. pose proof (days_per_year_bounds (1970 + Z.of_nat k)). lia.
Qed.
Lemma year_start_upper y : 1970 ≤ y → year_start y ≤ 366 * (y - 1970).
Proof.
  intros Hy. unfold year_start. remember (Z.to_nat (y - 1970)) as k eqn:Ek.
  assert (y = 1970 + Z.of_nat k) as -> by lia. clear. induction k as [|k IH]; [done|].
  cbn [sum_years]. rewrite <- days_per_year_spec. pose proof (days_per_year_bounds (1970 + Z.of_nat k)). lia.
Qed.

Lemma month_length_bounds y m : 1 ≤ m ≤ 12 → 28 ≤ month_length y m ≤ 32.
Proof.
  intros Hm. pose proof (days_in_month_bounds m Hm). rewrite month_length_spec by done. case_match; lia.
Qed.

Lemma s64_small z : - 2 ^ 63 ≤ z < 2 ^ 63 → s64 z = z.
Proof. intros Hz. unfold s64. rewrite Z.mod_small; lia. Qed.
Lemma s64_high z : 2 ^ 63 ≤ z < 2 ^ 64 → s64 z < 0.
Proof. intros Hz. unfold s64. div_lia. Qed.

(** The seconds of the date modulo 2^64, where they fit [time_t]. *)
Lemma to_secs_spec dt :
  valid_date dt → dt_year dt < 2 ^ 52 →
  clock_ymdhms_to_secs dt =
  Ok (if u64 (posix_secs dt) <? 2 ^ 63 then u64 (posix_secs dt) else -1).
Proof.
  intros (Hy&Hm&Hd&Hh&Hmin&Hs) Hlt. unfold clock_ymdhms_to_secs.
  pose proof (year_start_lower _ Hy) as Hlow. pose proof (year_start_upper _ Hy) as Hup.
  pose proof (month_start_bounds (dt_year dt) _ Hm) as Hms.
  pose proof (month_length_bounds (dt_year dt) _ Hm) as Hml.
  unfold POSIX_BASE_YEAR at 1. rewrite (proj2 (Z.ltb_ge _ _)) by lia. cbv zeta.
  set (leap := if is_leap_year (dt_year dt) && (dt_mon dt >? FEBRUARY) then 1 else 0).
  assert (Hleap : leap = if dt_mon dt >? 2 then feb (dt_year dt) else 0).
  { unfold leap, feb, FEBRUARY. by destruct (is_leap_year (dt_year dt)), (dt_mon dt >? 2). }
  assert (Hl01 : 0 ≤ leap ≤ 1) by (unfold leap; by destruct (_ && _)). clearbody leap.
  pose proof (years_spec (dt_year dt) leap) as Hyears. cbv zeta in Hyears.
  rewrite Hyears by lia. clear Hyears. rewrite Ok_bind.
  rewrite (add_months_spec (dt_year dt)) by lia. rewrite Ok_bind.
  assert (Hdays : leap + year_start (dt_year dt) + plain_start (dt_year dt) (dt_mon dt) =
    year_start (dt_year dt) + month_start (dt_year dt) (dt_mon dt)).
  { unfold plain_start. rewrite Hleap. lia. }
  rewrite Hdays. rewrite (u64_small (_ + (dt_day dt - 1))) by (unfold is_u64; lia).
  fold (day_number dt). fold (posix_secs dt).
  pose proof (u64_bounds (posix_secs dt)) as Hu. unfold is_u64 in Hu.
  generalize dependent (u64 (posix_secs dt)). intros s Hs'. destruct (Z.ltb_spec s (2 ^ 63)).
  - rewrite s64_small by lia. destruct (Z.ltb_spec s 0), (Z.gtb_spec s (2 ^ 63 - 1)); lia || done.
  - pose proof (s64_high s). destruct (Z.ltb_spec (s64 s) 0); lia || done.
Qed.

(** ** From seconds to a date *)

(** The loop over the years stops in the year of the day. *)
Lemma sub_years_spec fuel : ∀ i days,
  1970 ≤ i → i + Z.of_nat fuel < 2 ^ 62 → 0 ≤ days < 365 * Z.of_nat fuel + 365 → days < 2 ^ 62 →
  ∃ year rest, sub_years fuel i days = Ok (year, rest) ∧ i ≤ year ∧
    0 ≤ rest < days_per_year year ∧ year_start i + days = year_start year + rest.
Proof.
  induction fuel as [|fuel IH]; intros i days Hi Hif Hd Hb; cbn [sub_years];
    pose proof (days_per_year_bounds i);
    (destruct (Z.geb_spec days (days_per_year i)); [|by exists i, days; split_and!; lia || done]); [lia|].
  rewrite s64_small, u64_small by (unfold is_u64; lia).
  destruct (IH (i + 1) (days - days_per_year i)) as (year&rest&->&?&?&E); [lia..|].
  exists year, rest. split_and!; try done; try lia. rewrite year_start_next in E by lia. lia.
Qed.

Lemma year_end y : month_start y 12 + month_length y 12 = days_per_year y.
Proof.
  rewrite month_start_feb by lia. rewrite month_length_spec by done. unfold days_per_year, feb.
  by destruct (is_leap_year y).
Qed.

(** The loop over the months of the year: at month [i] it adds a day to February
    of a leap year. *)
Lemma sub_months_spec year fuel : ∀ i days,
  1 ≤ i ≤ 12 → 12 - i ≤ Z.of_nat fuel → 0 ≤ days →
  month_start year i + days < days_per_year year →
  ∃ mon rest, sub_months fuel year (if i =? 2 then feb year else 0) i days = Ok (mon, rest) ∧
    i ≤ mon ≤ 12 ∧ 0 ≤ rest < month_length year mon ∧
    month_start year i + days = month_start year mon + rest.
Proof.
  induction fuel as [|fuel IH]; intros i days Hi Hfuel Hd Hlt; cbn [sub_months];
    assert (Hlen : days_in_month i + (if i =? 2 then feb year else 0) = month_length year i)
      by (rewrite month_length_spec by done; unfold feb; destruct (is_leap_year year), (i =? 2); done);
    rewrite Hlen;
    (destruct (Z.geb_spec days (month_length year i)) as [Hge|];
      [|by exists i, days; split_and!; lia || done]).
  all: assert (H12 : i ≠ 12) by (intros ->; pose proof (year_end year); lia).
  { lia. }
  pose proof (month_length_bounds year i Hi). pose proof (days_per_year_bounds year).
  pose proof (month_start_bounds year i Hi).
  rewrite s64_small, u64_small by (unfold is_u64; lia).
  assert (Hleap : (if (i =? 1) && is_leap_year year then 1 else 0) = if i + 1 =? 2 then feb year else 0).
  { unfold feb. destruct (Z.eqb_spec i 1), (Z.eqb_spec (i + 1) 2), (is_leap_year year); simpl; done || lia. }
  rewrite Hleap. destruct (IH (i + 1) (days - month_length year i)) as (mon&rest&->&?&?&E);
    [lia|lia|lia|rewrite month_start_next by lia; lia|].
  exists mon, rest. rewrite month_start_next in E by lia. split_and!; try done; lia.
Qed.

(** The last day of a 400-year cycle: 31 December of 2400, 2800, ... *)
Definition last_of_cycle (day : Z) : bool :=
  (DAYSTO2001 <=? day) && ((day - DAYSTO2001) mod DAYS400YEARS =? DAYS400YEARS - 1).

(** The years part of [clock_secs_to_ymdhms]. *)
Lemma from_years_spec days :
  0 ≤ days < 2 ^ 50 → last_of_cycle days = false →
  ∃ year rest,
  (if days >=? DAYSTO2001 then
     let days := days - DAYSTO2001 in
     let year := 2001 in
     let i := days / DAYS400YEARS in
     let days := s64 (days - i * DAYS400YEARS) in
     let year := u64 (year + i * 400) in
     let i := days / DAYS100YEARS in
     let days := s64 (days - i * DAYS100YEARS) in
     let year := u64 (year + i * 100) in
     let i := days / DAYS4YEARS in
     let days := s64 (days - i * DAYS4YEARS) in
     let year := u64 (year + i * 4) in
     sub_years 4 year days
   else sub_years 31 POSIX_BASE_YEAR days) = Ok (year, rest) ∧
  1970 ≤ year < 2 ^ 51 ∧ 0 ≤ rest < days_per_year year ∧ days = year_start year + rest.
Proof.
  intros Hd Hlast. destruct (Z.geb_spec days DAYSTO2001) as [Hge|Hlt].
  - unfold last_of_cycle in Hlast. rewrite (proj2 (Z.leb_le _ _)) in Hlast by lia.
    apply Z.eqb_neq in Hlast. unfold DAYS400YEARS in Hlast.
    cbv zeta. unfold DAYS400YEARS, DAYS100YEARS, DAYS4YEARS.
    set (z := days - DAYSTO2001) in *. assert (Hz : 0 ≤ z < 2 ^ 50) by (unfold DAYSTO2001 in *; lia).
    set (a := z / (365 * 400 + 97)). set (z1 := z - a * (365 * 400 + 97)).
    assert (H1 : 0 ≤ z1 < 146096 ∧ 0 ≤ a < 2 ^ 40) by (unfold z1, a; div_lia).
    rewrite (s64_small z1) by lia. set (b := z1 / (365 * 100 + 24)).
    set (z2 := z1 - b * (365 * 100 + 24)).
    assert (H2 : 0 ≤ z2 < 36524 ∧ 0 ≤ b ≤ 3) by (unfold z2, b; clearbody z1; div_lia).
    rewrite (s64_small z2) by lia. set (c := z2 / (365 * 4 + 1)).
    set (r := z2 - c * (365 * 4 + 1)).
    assert (H3 : 0 ≤ r < 1461 ∧ 0 ≤ c ≤ 24) by (unfold r, c; clearbody z2; div_lia).
    rewrite (s64_small r) by lia. assert (Hday : days = DAYSTO2001 + a * (365 * 400 + 97) +
      b * (365 * 100 + 24) + c * (365 * 4 + 1) + r) by (unfold r, z2, z1, z; lia).
    clearbody r c z2 b z1 a z.
    rewrite (u64_small (2001 + _)), (u64_small (2001 + _ + _)), (u64_small (2001 + _ + _ + _))
      by (unfold is_u64; lia).
    destruct (sub_years_spec 4 (2001 + a * 400 + b * 100 + c * 4) r)
      as (year&rest&->&?&?&E); [lia..|].
    exists year, rest. rewrite year_start_closed in E by lia.
    assert (El : leaps (2001 + a * 400 + b * 100 + c * 4) = 485 + 97 * a + 24 * b + c)
      by (unfold leaps; div_lia).
    rewrite El in E. pose proof (year_start_lower year ltac:(lia)). unfold DAYSTO2001 in Hday. split_and!; lia || done.
  - destruct (sub_years_spec 31 1970 days) as (year&rest&Hs&?&?&E); [unfold DAYSTO2001 in *; lia..|].
    exists year, rest. split; [exact Hs|]. change (year_start 1970) with 0 in E.
    pose proof (year_start_lower year ltac:(lia)). split_and!; lia.
Qed.

(** The time of the day. *)
Lemma time_fields secs :
  let rsec := secs mod SECS_PER_DAY in
  let hour := u8 (rsec / SECS_PER_HOUR) in
  let min := u8 (rsec mod SECS_PER_HOUR / SECS_PER_MINUTE) in
  let sec := u8 ((rsec mod SECS_PER_HOUR) mod SECS_PER_MINUTE) in
  0 ≤ hour < 24 ∧ 0 ≤ min < 60 ∧ 0 ≤ sec < 60 ∧
  secs = (((secs / SECS_PER_DAY) * 24 + hour) * 60 + min) * 60 + sec.
Proof.
  cbv zeta. unfold SECS_PER_DAY, SECS_PER_HOUR, SECS_PER_MINUTE.
  assert (H : 0 ≤ secs mod 86400 < 86400 ∧ secs = secs / 86400 * 86400 + secs mod 86400) by div_lia.
  destruct H as [Hr Hs]. set (d := secs / 86400) in *. set (r := secs mod 86400) in *. clearbody d r.
  rewrite (u8_small (r / 3600)), (u8_small (r mod 3600 / 60)), (u8_small ((r mod 3600) mod 60))
    by (unfold is_u8; div_lia).
  div_lia.
Qed.

Lemma from_secs_spec secs :
  0 ≤ secs < 2 ^ 63 → last_of_cycle (secs / SECS_PER_DAY) = false →
  ∃ dt, clock_secs_to_ymdhms secs = Ok (inr dt) ∧ valid_date dt ∧ posix_secs dt = secs ∧
    dt_wday dt = (day_number dt + 4) mod 7.
Proof.
  intros Hs Hlast. unfold clock_secs_to_ymdhms. rewrite (proj2 (Z.ltb_ge _ _)) by lia. cbv zeta.
  assert (Hd : 0 ≤ secs / SECS_PER_DAY < 2 ^ 50) by (unfold SECS_PER_DAY; div_lia).
  destruct (from_years_spec _ Hd Hlast) as (year&rest&Hy&?&?&E). cbv zeta in Hy.
  rewrite Hy, Ok_bind. destruct (sub_months_spec year 12 1 rest) as (mon&day&Hm&?&?&E');
    [lia|lia|lia|change (month_start year 1) with 0; lia|].
  change (if 1 =? 2 then _ else _) with 0 in Hm. rewrite Hm, Ok_bind.
  change (month_start year 1) with 0 in E'.
  pose proof (month_length_bounds year mon). pose proof (days_in_month_bounds mon).
  destruct (time_fields secs) as (Hh&Hmi&Hse&Hsum).
  assert (Hw : 0 ≤ (secs / SECS_PER_DAY + 4) mod 7 < 7) by (apply Z.mod_pos_bound; lia).
  eexists. split; [done|].
  unfold valid_date, posix_secs, day_number; cbn [dt_year dt_mon dt_day dt_wday dt_hour dt_min dt_sec].
  rewrite (u8_small mon), (u8_small (_ + 1)), (u8_small (_ mod 7)) by (unfold is_u8; lia).
  split_and!; try lia. do 2 f_equal. lia.
Qed.

(** ** A second belongs to one date *)

Section chain.
Context (f l : Z → Z) (lo hi : Z).
Hypothesis step : ∀ i, lo ≤ i < hi → f (i + 1) = f i + l i ∧ 0 ≤ l i.

Lemma chain_mono i j : lo ≤ i ≤ j → j ≤ hi → f i ≤ f j.
Proof using All.
  intros Hij. replace j with (i + Z.of_nat (Z.to_nat (j - i))) by lia.
  generalize (Z.to_nat (j - i)) as k. intros k. induction k as [|k IH]; intros Hhi.
  - by rewrite Z.add_0_r.
  - rewrite Nat2Z.inj_succ in *. unfold Z.succ. rewrite Z.add_assoc.
      destruct (step (i + Z.of_nat k)) as [-> ?]; [lia|]. lia.
Qed.
Lemma chain_unique i j a b :
  lo ≤ i ≤ hi → lo ≤ j ≤ hi → 0 ≤ a < l i → 0 ≤ b < l j → f i + a = f j + b → i = j ∧ a = b.
Proof using All.
  intros Hi Hj Ha Hb E. assert (i = j) as ->; [|lia].
  destruct (Z.lt_trichotomy i j) as [Hlt|[?|Hlt]]; [exfalso|done|exfalso].
  - destruct (step i) as [Hs _]; [lia|]. pose proof (chain_mono (i + 1) j). lia.
  - destruct (step j) as [Hs _]; [lia|]. pose proof (chain_mono (j + 1) i). lia.
Qed.
End chain.

Lemma year_unique y1 y2 a b :
  1970 ≤ y1 → 1970 ≤ y2 → 0 ≤ a < days_per_year y1 → 0 ≤ b < days_per_year y2 →
  year_start y1 + a = year_start y2 + b → y1 = y2 ∧ a = b.
Proof.
  intros. apply (chain_unique year_start days_per_year 1970 (Z.max y1 y2)); try lia; try done.
  intros i Hi. rewrite year_start_next by lia. pose proof (days_per_year_bounds i). lia.
Qed.
Lemma month_unique y m1 m2 a b :
  1 ≤ m1 ≤ 12 → 1 ≤ m2 ≤ 12 → 0 ≤ a < month_length y m1 → 0 ≤ b < month_length y m2 →
  month_start y m1 + a = month_start y m2 + b → m1 = m2 ∧ a = b.
Proof.
  intros. apply (chain_unique (month_start y) (month_length y) 1 12); try lia; try done.
  intros i Hi. rewrite month_start_next by lia. pose proof (month_length_bounds y i). lia.
Qed.
Lemma day_of_year_bound dt :
  valid_date dt → 0 ≤ month_start (dt_year dt) (dt_mon dt) + (dt_day dt - 1) < days_per_year (dt_year dt).
Proof.
  intros (Hy&Hm&Hd&_). pose proof (month_start_bounds (dt_year dt) _ Hm). split; [lia|].
  pose proof (year_end (dt_year dt)). destruct (decide (dt_mon dt = 12)) as [E|]; [rewrite E in *; lia|].
  enough (month_start (dt_year dt) (dt_mon dt + 1) ≤ month_start (dt_year dt) 12).
  { rewrite month_start_next in * by lia. pose proof (month_length_bounds (dt_year dt) 12). lia. }
  apply (chain_mono _ (month_length (dt_year dt)) 1 12); try lia. intros i Hi.
  rewrite month_start_next by lia. pose proof (month_length_bounds (dt_year dt) i). lia.
Qed.

Lemma date_unique dt1 dt2 :
  valid_date dt1 → valid_date dt2 → posix_secs dt1 = posix_secs dt2 → dt_wday dt1 = dt_wday dt2 →
  dt1 = dt2.
Proof.
  intros H1 H2 E Ew. pose proof (day_of_year_bound _ H1). pose proof (day_of_year_bound _ H2).
  destruct H1 as (?&?&?&?&?&?), H2 as (?&?&?&?&?&?). unfold posix_secs in E.
  assert (Ed : day_number dt1 = day_number dt2) by lia.
  assert (dt_hour dt1 = dt_hour dt2 ∧ dt_min dt1 = dt_min dt2 ∧ dt_sec dt1 = dt_sec dt2) as (?&?&?) by lia.
  unfold day_number in Ed.
  destruct (year_unique (dt_year dt1) (dt_year dt2) (month_start (dt_year dt1) (dt_mon dt1) + (dt_day dt1 - 1))
    (month_start (dt_year dt2) (dt_mon dt2) + (dt_day dt2 - 1))) as [Ey Em]; [lia..|].
  rewrite Ey in Em. destruct (month_unique (dt_year dt2) (dt_mon dt1) (dt_mon dt2) (dt_day dt1 - 1) (dt_day dt2 - 1));
    [lia..|rewrite <- Ey; lia|lia|lia|].
  destruct dt1, dt2; simpl in *. f_equal; lia.
Qed.

Lemma posix_secs_nonneg dt : valid_date dt → 0 ≤ posix_secs dt.
Proof.
  intros H. pose proof (day_of_year_bound _ H). destruct H as (?&?&?&?&?&?).
  pose proof (year_start_lower (dt_year dt)). unfold posix_secs, day_number. lia.
Qed.
Lemma posix_secs_year dt : valid_date dt → (dt_year dt - 1970) * 365 * 86400 ≤ posix_secs dt.
Proof.
  intros H. pose proof (day_of_year_bound _ H). destruct H as (?&?&?&?&?&?).
  pose proof (year_start_lower (dt_year dt)). unfold posix_secs, day_number. lia.
Qed.
Lemma posix_secs_small dt : valid_date dt → dt_year dt < 2 ^ 38 → posix_secs dt < 2 ^ 64.
Proof.
  intros H. pose proof (day_of_year_bound _ H). destruct H as (?&?&?&?&?&?).
  pose proof (days_per_year_bounds (dt_year dt)).
  pose proof (year_start_upper (dt_year dt)). unfold posix_secs, day_number. lia.
Qed.

(** The years part on a last day of the cycle counts four centuries. *)
Lemma last_day_years days :
  DAYSTO2001 ≤ days < 2 ^ 50 → (days - DAYSTO2001) mod DAYS400YEARS = DAYS400YEARS - 1 →
  let a := (days - DAYSTO2001) / DAYS400YEARS in
  let d1 := s64 (days - DAYSTO2001 - a * DAYS400YEARS) in
  let b := d1 / DAYS100YEARS in
  let d2 := s64 (d1 - b * DAYS100YEARS) in
  let c := d2 / DAYS4YEARS in
  u64 (u64 (u64 (2001 + a * 400) + b * 100) + c * 4) = 2001 + a * 400 + 400 ∧
  s64 (d2 - c * DAYS4YEARS) = 0.
Proof.
  intros Hd Hmod. cbv zeta.
  assert (Ha : 0 ≤ (days - DAYSTO2001) / DAYS400YEARS < 2 ^ 40) by (unfold DAYS400YEARS, DAYSTO2001 in *; div_lia).
  assert (E : days - DAYSTO2001 - (days - DAYSTO2001) / DAYS400YEARS * DAYS400YEARS = 146096)
    by (unfold DAYS400YEARS in *; div_lia).
  rewrite E. change (s64 146096) with 146096. change (146096 / DAYS100YEARS) with 4.
  change (s64 (146096 - 4 * DAYS100YEARS)) with 0. split; [|done].
  change (0 / DAYS4YEARS * 4) with 0. rewrite (u64_small (2001 + _)) by (unfold is_u64; lia).
  rewrite u64_small; rewrite u64_small; unfold is_u64; lia.
Qed.

(** ** What the conversions compute *)

(** C25: [clock_ymdhms_to_secs] adds up, for a valid date of a year that is not
    astronomically far away, the seconds of the calendar's years and months
    since 1970, as a 64-bit number, and answers -1 where that number does not
    fit a [time_t]; a year before 1970 is always answered by -1. *)
Theorem clock_to_secs_calendar dt :
  valid_date dt ∨ dt_year dt < POSIX_BASE_YEAR → dt_year dt < 2 ^ 52 →
  clock_ymdhms_to_secs dt =
  Ok (if dt_year dt <? POSIX_BASE_YEAR then -1
      else if posix_secs dt mod 2 ^ 64 <? 2 ^ 63 then posix_secs dt mod 2 ^ 64 else -1).
Proof.
  intros [Hv|Hlt] Hy.
  - rewrite to_secs_spec by done. destruct Hv as [? _]. unfold POSIX_BASE_YEAR.
    by destruct (Z.ltb_spec (dt_year dt) 1970); [lia|].
  - unfold clock_ymdhms_to_secs. by rewrite (proj2 (Z.ltb_lt _ _)).
Qed.
Lemma clock_to_secs_calendar_witness :
  clock_ymdhms_to_secs (Ymdhms 2024 2 29 4 23 59 59) = Ok 1709251199 ∧
  clock_ymdhms_to_secs (Ymdhms 2038 1 19 2 3 14 8) = Ok (2 ^ 31) ∧
  clock_ymdhms_to_secs (Ymdhms 1969 12 31 3 0 0 0) = Ok (-1).
Proof.
  split_and!; (etransitivity; [apply clock_to_secs_calendar; [vm_compute; intuition congruence|vm_compute; reflexivity]|]);
    vm_compute; reflexivity.
Defined.

(** C24: round trip. A second from 1970 to the end of [time_t] turns into a
    valid date of that second, with the day of the week counted from Thursday,
    1 January 1970, and that date turns back into the second; a valid date
    turns into a second that turns back into the same date. The last day of
    each 400-year cycle of the calendar (31 December of 2400, 2800, ...) is
    the exception. *)
Theorem clock_roundtrip secs dt :
  0 ≤ secs < 2 ^ 63 → last_of_cycle (secs / SECS_PER_DAY) = false →
  (∃ dt', clock_secs_to_ymdhms secs = Ok (inr dt') ∧ valid_date dt' ∧ posix_secs dt' = secs ∧
     dt_wday dt' = (day_number dt' + 4) mod 7 ∧ clock_ymdhms_to_secs dt' = Ok secs) ∧
  (valid_date dt → dt_wday dt = (day_number dt + 4) mod 7 → clock_ymdhms_to_secs dt = Ok secs →
   dt_year dt < 2 ^ 38 → clock_secs_to_ymdhms secs = Ok (inr dt)).
Proof.
  intros Hs Hlast. destruct (from_secs_spec _ Hs Hlast) as (dt'&Hc&Hv&Hp&Hw).
  pose proof (posix_secs_year _ Hv).
  assert (Hu : u64 (posix_secs dt') = secs) by (rewrite u64_small; [done|unfold is_u64; lia]).
  assert (Hback : clock_ymdhms_to_secs dt' = Ok secs).
  { rewrite to_secs_spec, Hu by (done || lia). by rewrite (proj2 (Z.ltb_lt _ _)) by lia. }
  split; [by exists dt'|]. intros Hv' Hw' Hto Hyr. rewrite Hc. do 2 f_equal.
  pose proof (posix_secs_nonneg _ Hv'). pose proof (posix_secs_small _ Hv' Hyr).
  rewrite to_secs_spec, u64_small in Hto by (done || lia || unfold is_u64; lia).
  assert (posix_secs dt = secs) by (destruct (Z.ltb_spec (posix_secs dt) (2 ^ 63)); simplify_eq; lia).
  apply date_unique; [done|done|congruence|]. rewrite Hw, Hw'.
  assert (day_number dt' = day_number dt) as ->; [|done].
  destruct Hv as (?&?&?&?&?&?), Hv' as (?&?&?&?&?&?). unfold posix_secs in *. lia.
Qed.
Lemma clock_roundtrip_witness :
  (0 ≤ 951868799 < 2 ^ 63 ∧ last_of_cycle (951868799 / SECS_PER_DAY) = false) ∧
  (∃ dt, clock_secs_to_ymdhms 951868799 = Ok (inr dt) ∧ clock_ymdhms_to_secs dt = Ok 951868799) ∧
  clock_secs_to_ymdhms 951868799 = Ok (inr (Ymdhms 2000 2 29 2 23 59 59)).
Proof.
  assert (H1 : 0 ≤ 951868799 < 2 ^ 63) by lia.
  assert (H2 : last_of_cycle (951868799 / SECS_PER_DAY) = false) by (vm_compute; reflexivity).
  destruct (clock_roundtrip _ (Ymdhms 2000 2 29 2 23 59 59) H1 H2) as [(dt&Hc&_&_&_&Hb) Hd].
  split; [exact (conj H1 H2)|]. split; [exists dt; exact (conj Hc Hb)|].
  apply Hd; [vm_compute; intuition congruence|vm_compute; reflexivity..].
Defined.

(** The days [clock_secs_to_ymdhms] gets wrong. A second of 31 December of
    2400, 2800, ... comes out as the same time of the 1st of January of the
    following year, a whole day late: the last day of a 400-year cycle is day
    146096 of the cycle, and dividing it by the length of a plain century
    gives 4 centuries. *)
Lemma clock_last_day_of_cycle secs :
  0 ≤ secs < 2 ^ 63 → last_of_cycle (secs / SECS_PER_DAY) = true →
  ∃ dt, clock_secs_to_ymdhms secs = Ok (inr dt) ∧ valid_date dt ∧
    dt_year dt mod 400 = 1 ∧ dt_mon dt = 1 ∧ dt_day dt = 1 ∧
    posix_secs dt = secs + SECS_PER_DAY.
Proof.
  intros Hs Hlast. unfold clock_secs_to_ymdhms. rewrite (proj2 (Z.ltb_ge _ _)) by lia. cbv zeta.
  apply andb_true_iff in Hlast as [Hge%Z.leb_le Hmod%Z.eqb_eq].
  assert (Hd : 0 ≤ secs / SECS_PER_DAY < 2 ^ 50) by (unfold SECS_PER_DAY; div_lia).
  rewrite (proj2 (Z.geb_le _ _)) by done.
  destruct (last_day_years (secs / SECS_PER_DAY)) as [Hyear Hrest]; [lia|done|]. cbv zeta in Hyear, Hrest.
  rewrite Hyear, Hrest. set (a := (secs / SECS_PER_DAY - DAYSTO2001) / DAYS400YEARS) in *.
  assert (Ha : 0 ≤ a < 2 ^ 40) by (unfold a, DAYS400YEARS, DAYSTO2001 in *; div_lia).
  assert (Hday : secs / SECS_PER_DAY + 1 = year_start (2001 + a * 400 + 400)).
  { rewrite year_start_closed by lia. unfold leaps, a, DAYSTO2001, DAYS400YEARS in *. div_lia. }
  assert (Hy : sub_years 4 (2001 + a * 400 + 400) 0 = Ok (2001 + a * 400 + 400, 0)).
  { cbn [sub_years]. pose proof (days_per_year_bounds (2001 + a * 400 + 400)).
    by destruct (Z.geb_spec 0 (days_per_year (2001 + a * 400 + 400))); [lia|]. }
  rewrite Hy, Ok_bind. change (sub_months 12 _ 0 1 0) with (Ok (1, 0)). rewrite Ok_bind.
  destruct (time_fields secs) as (Hh&Hmi&Hse&Hsum). eexists. split; [done|].
  unfold valid_date, posix_secs, day_number; cbn [dt_year dt_mon dt_day dt_wday dt_hour dt_min dt_sec].
  change (u8 1) with 1. change (u8 (0 + 1)) with 1.
  rewrite <- Hday. change (month_start (2001 + a * 400 + 400) 1) with 0.
  change (month_length (2001 + a * 400 + 400) 1) with 31.
  unfold SECS_PER_DAY in *. clear Hmod Hge Hd Hday Hyear Hrest Hy.
  clearbody a. assert (Hmod : (2001 + a * 400 + 400) mod 400 = 1) by (clear - Ha; div_lia).
  repeat match goal with H : context [u8 ?x] |- _ => generalize dependent (u8 x); intros end.
  generalize dependent (secs / 86400). intros day Hday.
  split_and!; lia.
Qed.
Lemma clock_last_day_of_cycle_witness :
  posix_secs (Ymdhms 2400 12 31 0 12 0 0) = 13601044800 ∧
  last_of_cycle (13601044800 / SECS_PER_DAY) = true ∧
  (∃ dt, clock_secs_to_ymdhms 13601044800 = Ok (inr dt) ∧ posix_secs dt = 13601044800 + SECS_PER_DAY) ∧
  clock_secs_to_ymdhms 13601044800 = Ok (inr (Ymdhms 2401 1 1 0 12 0 0)).
Proof.
  assert (H1 : 0 ≤ 13601044800 < 2 ^ 63) by lia.
  assert (H2 : last_of_cycle (13601044800 / SECS_PER_DAY) = true) by (vm_compute; reflexivity).
  destruct (clock_last_day_of_cycle _ H1 H2) as (dt&Hc&_&_&_&_&Hp).
  split; [vm_compute; reflexivity|]. split; [exact H2|]. split; [exists dt; exact (conj Hc Hp)|].
  vm_compute. reflexivity.
Defined.

(** The check against overflow looks at a number that has wrapped already: a
    year far enough away is answered by a second close to 1970. *)
Lemma clock_to_secs_wraps : clock_ymdhms_to_secs (Ymdhms 584554051224 1 1 0 0 0 0) = Ok 4553984.
Proof. vm_compute. reflexivity. Qed.

(** Two decimal digits survive the way to binary coded decimal and back. *)
Lemma bcd_roundtrip bin : 0 ≤ bin < 100 → bcdtobin (bintobcd bin) = bin.
Proof.
  intros H. assert (Hall : forallb (λ n, bcdtobin (bintobcd (Z.of_nat n)) =? Z.of_nat n) (seq 0 100) = true)
    by (vm_compute; reflexivity).
  rewrite forallb_forall in Hall. specialize (Hall (Z.to_nat bin)).
  rewrite Z2Nat.id in Hall by lia. apply Z.eqb_eq, Hall, in_seq. lia.
Qed.
