(* ===== verification/Pcq.v ===== *)
(** * The lockless producer/consumer queue (kern/subr_pcq.c)

    The operations as threads that take one access to shared memory per step:
    many producers, and the one consumer that the interface asks for. Memory is
    sequentially consistent; the barriers of the code are there to make it so. *)

From S2P Require Export Prelude.

Definition NULL : Z := 0.
Definition PCQ_MAXLEN : Z := 0xffff.

(** [pcq_items] has the cells that were allocated. *)
Record pcq := Pcq { pcq_nitems : Z; pcq_pc : Z; pcq_items : list Z }.

Definition pcq_split (v : Z) : Z * Z := (v .& 0xffff, Z.shiftr v 16).
Definition pcq_combine (p c : Z) : Z := p .| u32 (Z.shiftl c 16).
Definition pcq_advance (q : pcq) (pc : Z) : Z :=
  let pc := u32 (pc + 1) in if pc =? pcq_nitems q then 0 else pc.

(** [atomic_cas_32(&pcq->pcq_pc, v, nv)]: the old value, and the new one stored
    if the old one was [v]. *)
Definition atomic_cas_32 (q : pcq) (v nv : Z) : pcq * Z :=
  (if pcq_pc q =? v then Pcq (pcq_nitems q) nv (pcq_items q) else q, pcq_pc q).

Definition set_items (q : pcq) (items : list Z) : pcq := Pcq (pcq_nitems q) (pcq_pc q) items.

(** ** Producers *)

(** Where a producer stands: it has returned (if it was called at all), is about
    to read [pcq_pc], to swap it, or to store the item. *)
Inductive producer :=
  | PDone (ret : option bool)
  | PRead (item : Z)
  | PCas (item v op nv : Z)
  | PStore (item op : Z).

Definition put_call (item : Z) : res producer :=
  if item =? NULL then Fault Panic else mret (PRead item).

Definition put_step (q : pcq) (t : producer) : res (pcq * producer) :=
  match t with
  | PDone ret => mret (q, PDone ret)
  | PRead item =>
    let v := pcq_pc q in
    let '(op, c) := pcq_split v in
    let p := pcq_advance q op in
    if p =? c then mret (q, PDone (Some false)) else mret (q, PCas item v op (pcq_combine p c))
  | PCas item v op nv =>
    let '(q, old) := atomic_cas_32 q v nv in
    if negb (old =? v) then mret (q, PRead item) else mret (q, PStore item op)
  | PStore item op =>
    items ← put (pcq_items q) op item;
    mret (set_items q items, PDone (Some true))
  end.

(** ** The consumer *)

(** [CRead] to [CReread] are the points of [pcq_get], [KRead] and [KItem] those
    of [pcq_peek]. *)
Inductive consumer :=
  | CDone (ret : Z)
  | CRead
  | CItem (v p c : Z)
  | CClear (item v p c : Z)
  | CCas (item v nv : Z)
  | CReread (item : Z)
  | KRead
  | KItem (c : Z).

Definition get_step (q : pcq) (t : consumer) : res (pcq * consumer) :=
  match t with
  | CDone ret => mret (q, CDone ret)
  | CRead =>
    let v := pcq_pc q in
    let '(p, c) := pcq_split v in
    if p =? c then mret (q, CDone NULL) else mret (q, CItem v p c)
  | CItem v p c =>
    item ← get (pcq_items q) c;
    if item =? NULL then mret (q, CDone NULL) else mret (q, CClear item v p c)
  | CClear item v p c =>
    items ← put (pcq_items q) c NULL;
    let c := pcq_advance q c in
    let nv := pcq_combine p c in
    mret (set_items q items, CCas item v nv)
  | CCas item v nv =>
    let '(q, old) := atomic_cas_32 q v nv in
    if negb (old =? v) then mret (q, CReread item) else mret (q, CDone item)
  | CReread item =>
    let v := pcq_pc q in
    let '(p, c) := pcq_split v in
    let c := pcq_advance q c in
    let nv := pcq_combine p c in
    mret (q, CCas item v nv)
  | KRead =>
    let v := pcq_pc q in
    let '(p, c) := pcq_split v in
    if p =? c then mret (q, CDone NULL) else mret (q, KItem c)
  | KItem c =>
    item ← get (pcq_items q) c;
    mret (q, CDone item)
  end.

(** ** The calls, where nobody interferes *)

Fixpoint put_run (fuel : nat) (q : pcq) (t : producer) : res (pcq * bool) :=
  match t with
  | PDone (Some ret) => mret (q, ret)
  | _ => match fuel with
         | O => Fault NoFuel
         | S fuel => '(q, t) ← put_step q t; put_run fuel q t
         end
  end.
Fixpoint get_run (fuel : nat) (q : pcq) (t : consumer) : res (pcq * Z) :=
  match t with
  | CDone ret => mret (q, ret)
  | _ => match fuel with
         | O => Fault NoFuel
         | S fuel => '(q, t) ← get_step q t; get_run fuel q t
         end
  end.

Definition pcq_put (q : pcq) (item : Z) : res (pcq * bool) := t ← put_call item; put_run 3 q t.
Definition pcq_get (q : pcq) : res (pcq * Z) := get_run 4 q CRead.
Definition pcq_peek (q : pcq) : res (pcq * Z) := get_run 2 q KRead.

(** [mem]: whether the allocator has memory to give. *)
Definition pcq_create (mem : bool) (nitems : Z) : res (option pcq) :=
  if negb ((nitems >? 0) || (nitems <=? PCQ_MAXLEN)) then Fault Panic
  else if mem then mret (Some (Pcq (u32 nitems) 0 (replicate (Z.to_nat nitems) NULL)))
  else mret None.
Definition pcq_maxitems (q : pcq) : Z := pcq_nitems q.

(** ** The threads together *)

Record sys := Sys { queue : pcq; producers : list producer; reader : consumer }.

(** What becomes visible at a step: a put that took a place or found none, and
    the results of gets and peeks. *)
Inductive event :=
  | EvPut (item : Z)
  | EvFull
  | EvGet (item : Z)
  | EvEmpty
  | EvRaced
  | EvPeek (item : Z).

Definition put_event (t t' : producer) : option event :=
  match t, t' with
  | PCas item _ _ _, PStore _ _ => Some (EvPut item)
  | PRead _, PDone _ => Some EvFull
  | _, _ => None
  end.
Definition get_event (t t' : consumer) : option event :=
  match t, t' with
  | CCas item _ _, CDone _ => Some (EvGet item)
  | CRead, CDone _ => Some EvEmpty
  | CItem _ _ _, CDone _ => Some EvRaced
  | (KRead | KItem _), CDone item => Some (EvPeek item)
  | _, _ => None
  end.

Inductive step : sys → option event → sys → Prop :=
  | StepCallPut q ps t i ret item t' :
      ps !! i = Some (PDone ret) → put_call item = Ok t' →
      step (Sys q ps t) None (Sys q (<[i := t']> ps) t)
  | StepPut q ps t i p q' p' :
      ps !! i = Some p → put_step q p = Ok (q', p') →
      step (Sys q ps t) (put_event p p') (Sys q' (<[i := p']> ps) t)
  | StepCallGet q ps ret : step (Sys q ps (CDone ret)) None (Sys q ps CRead)
  | StepCallPeek q ps ret : step (Sys q ps (CDone ret)) None (Sys q ps KRead)
  | StepGet q ps t q' t' :
      get_step q t = Ok (q', t') → step (Sys q ps t) (get_event t t') (Sys q' ps t').

Inductive run : sys → list event → sys → Prop :=
  | run_nil s : run s [] s
  | run_snoc s1 tr s2 e s3 : run s1 tr s2 → step s2 e s3 → run s1 (tr ++ option_list e) s3.

(** A queue that was just created, and threads that have not called yet. *)
Definition sys_init (q : pcq) (threads : nat) : sys :=
  Sys q (replicate threads (PDone None)) (CDone NULL).

(** ** What it should be: a bounded queue *)

(** The queue of [n] cells holds one item less. *)
Inductive bq_step (n : Z) : list Z → event → list Z → Prop :=
  | bq_put l x : Z.of_nat (length l) + 1 < n → bq_step n l (EvPut x) (l ++ [x])
  | bq_full l : Z.of_nat (length l) + 1 = n → bq_step n l EvFull l
  | bq_get l x : bq_step n (x :: l) (EvGet x) l
  | bq_empty : bq_step n [] EvEmpty []
  | bq_raced x l : bq_step n (x :: l) EvRaced (x :: l)
  | bq_peek l x : x = NULL ∨ head l = Some x → bq_step n l (EvPeek x) l.

Inductive bq_run (n : Z) : list Z → list event → list Z → Prop :=
  | bq_run_nil l : bq_run n l [] l
  | bq_run_snoc l1 tr l2 e l3 : bq_run n l1 tr l2 → bq_step n l2 e l3 → bq_run n l1 (tr ++ [e]) l3.

Definition puts (tr : list event) : list Z :=
  omap (λ e, match e with EvPut x => Some x | _ => None end) tr.
Definition gets (tr : list event) : list Z :=
  omap (λ e, match e with EvGet x => Some x | _ => None end) tr.
