(* ===== verification/PcqSpec.v ===== *)
(** * The producer/consumer queue: an invariant of all interleavings, and the
      bounded queue it implements

    The invariant [inv] says of each cell of the array whether it holds its
    item, waits for a producer to store it, or is free.  Each step of a thread
    keeps it and is a step of the bounded queue, or none. *)

From S2P Require Export Prelude Pcq.

(** ** Indices in one word *)

Lemma split_combine p c : 0 ≤ p < 2 ^ 16 → 0 ≤ c < 2 ^ 16 → pcq_split (pcq_combine p c) = (p, c).
Proof.
  intros Hp Hc. unfold pcq_split, pcq_combine.
  rewrite Z.shiftl_mul_pow2 by done. rewrite u32_small by (unfold is_u32; lia).
  rewrite <- Z.shiftl_mul_pow2 by done. f_equal.
  - change 0xffff with (Z.ones 16). rewrite Z.land_ones, <- Z.land_ones by done.
    rewrite Z.land_lor_distr_l, !Z.land_ones by done.
    rewrite Z.shiftl_mul_pow2, Z.mod_mul, Z.lor_0_r by done. apply Z.mod_small. lia.
  - rewrite Z.shiftr_lor, Z.shiftr_shiftl_l, Z.sub_diag, Z.shiftl_0_r by done.
    rewrite Z.shiftr_div_pow2, Z.div_small by lia. done.
Qed.

Section queue.
Context (n : Z) (Hn : 1 ≤ n ≤ PCQ_MAXLEN).

Lemma nbound : 1 ≤ n < 2 ^ 16.
Proof using Hn. unfold PCQ_MAXLEN in Hn. lia. Qed.

(** The next index, and the distance of a cell from the consumer's index. *)
Definition adv (i : Z) : Z := if i + 1 =? n then 0 else i + 1.
Definition dist (c z : Z) : Z := if c <=? z then z - c else z - c + n.

Lemma advance_adv q i : pcq_nitems q = n → 0 ≤ i < n → pcq_advance q i = adv i.
Proof using Hn.
  pose proof nbound. intros Hq Hi. unfold pcq_advance, adv. rewrite Hq, u32_small; [done|].
  unfold is_u32. lia.
Qed.
Lemma adv_range i : 0 ≤ i < n → 0 ≤ adv i < n.
Proof using Hn. pose proof nbound. unfold adv. case_match; lia. Qed.
Lemma dist_range c z : 0 ≤ c < n → 0 ≤ z < n → 0 ≤ dist c z < n.
Proof using Hn. unfold dist. case_match; lia. Qed.
Lemma dist_inj c z z' : 0 ≤ c < n → 0 ≤ z < n → 0 ≤ z' < n → dist c z = dist c z' → z = z'.
Proof using Hn. unfold dist. repeat case_match; lia. Qed.
Lemma dist_adv_producer c p : 0 ≤ c < n → 0 ≤ p < n → adv p ≠ c → dist c (adv p) = dist c p + 1.
Proof using Hn. pose proof nbound. unfold dist, adv. repeat case_match; lia. Qed.
Lemma dist_full c p : 0 ≤ c < n → 0 ≤ p < n → adv p = c ↔ dist c p + 1 = n.
Proof using Hn. pose proof nbound. unfold dist, adv. repeat case_match; lia. Qed.
Lemma dist_adv_consumer c z :
  0 ≤ c < n → 0 ≤ z < n → dist (adv c) z = if z =? c then n - 1 else dist c z - 1.
Proof using Hn. pose proof nbound. unfold dist, adv. repeat case_match; lia. Qed.

(** ** The invariant *)

(** A producer that has its place and has not stored its item. *)
Definition pending (ps : list producer) (z : Z) (i : nat) (x : Z) : Prop := ps !! i = Some (PStore x z).

(** A cell that holds nothing: no producer will store into it. *)
Definition free_cell (items : list Z) (ps : list producer) (z : Z) : Prop :=
  items !! Z.to_nat z = Some NULL ∧ ∀ i x, ¬ pending ps z i x.
(** A cell of the queue that is to hold [x]: it does, or one producer will store it. *)
Definition full_cell (items : list Z) (ps : list producer) (z x : Z) : Prop :=
  (items !! Z.to_nat z = Some x ∧ ∀ i y, ¬ pending ps z i y) ∨
  (items !! Z.to_nat z = Some NULL ∧
   ∃ i, pending ps z i x ∧ ∀ j y, pending ps z j y → j = i).

(** The consumer has cleared the cell of the first item. *)
Definition cleared (t : consumer) : bool :=
  match t with CCas _ _ _ | CReread _ => true | _ => false end.

Definition cell_ok (t : consumer) (items : list Z) (ps : list producer) (c : Z) (l : list Z) (z : Z) : Prop :=
  match l !! Z.to_nat (dist c z) with
  | None => free_cell items ps z
  | Some x => if cleared t && (z =? c) then free_cell items ps z else full_cell items ps z x
  end.

Definition producer_ok (t : producer) : Prop :=
  match t with
  | PDone _ => True
  | PRead item => item ≠ NULL
  | PCas item v op nv =>
    item ≠ NULL ∧ ∀ p c, 0 ≤ p < n → 0 ≤ c < n → v = pcq_combine p c →
      op = p ∧ adv p ≠ c ∧ nv = pcq_combine (adv p) c
  | PStore item op => item ≠ NULL ∧ 0 ≤ op < n
  end.

Definition consumer_ok (t : consumer) (items : list Z) (c0 : Z) (l : list Z) : Prop :=
  match t with
  | CDone _ | CRead | KRead => True
  | CItem v p c => c = c0 ∧ 0 ≤ p < n ∧ v = pcq_combine p c ∧ l ≠ []
  | CClear item v p c =>
    c = c0 ∧ 0 ≤ p < n ∧ v = pcq_combine p c ∧ head l = Some item ∧
    items !! Z.to_nat c = Some item ∧ item ≠ NULL
  | CCas item v nv =>
    head l = Some item ∧ ∃ p, 0 ≤ p < n ∧ v = pcq_combine p c0 ∧ nv = pcq_combine p (adv c0)
  | CReread item => head l = Some item
  | KItem c => c = c0
  end.

Record inv (s : sys) (l : list Z) : Prop := {
  inv_nitems : pcq_nitems (queue s) = n;
  inv_length : Z.of_nat (length (pcq_items (queue s))) = n;
  inv_items : Forall (λ x, x ≠ NULL) l;
  inv_producers : Forall producer_ok (producers s);
  inv_cells : ∃ p c, 0 ≤ p < n ∧ 0 ≤ c < n ∧ pcq_pc (queue s) = pcq_combine p c ∧
    Z.of_nat (length l) = dist c p ∧
    consumer_ok (reader s) (pcq_items (queue s)) c l ∧
    ∀ z, 0 ≤ z < n → cell_ok (reader s) (pcq_items (queue s)) (producers s) c l z
}.

(** ** Producers keep it *)

Definition storing (t : producer) : bool := match t with PStore _ _ => true | _ => false end.

Lemma pending_quiet ps i p p' z j x :
  ps !! i = Some p → storing p = false → storing p' = false →
  pending (<[i := p']> ps) z j x ↔ pending ps z j x.
Proof.
  intros Hi Hp Hp'. unfold pending. destruct (decide (j = i)) as [->|Hj].
  - rewrite list_lookup_insert_eq by (by eapply lookup_lt_Some). rewrite Hi.
    split; intros E; simplify_eq; by destruct p, p'.
  - by rewrite list_lookup_insert_ne.
Qed.
Lemma cell_ok_ext t t' items items' ps ps' c l l' z :
  cleared t' && (z =? c) = cleared t && (z =? c) → l' !! Z.to_nat (dist c z) = l !! Z.to_nat (dist c z) →
  items' !! Z.to_nat z = items !! Z.to_nat z → (∀ j x, pending ps' z j x ↔ pending ps z j x) →
  cell_ok t items ps c l z → cell_ok t' items' ps' c l' z.
Proof.
  intros Ht Hl Hi Hp. unfold cell_ok, full_cell, free_cell. rewrite Ht, Hl, Hi.
  repeat case_match; setoid_rewrite Hp; done.
Qed.

Lemma inv_quiet q ps t l i p p' :
  inv (Sys q ps t) l → ps !! i = Some p → storing p = false → storing p' = false →
  producer_ok p' → inv (Sys q (<[i := p']> ps) t) l.
Proof.
  intros [H1 H2 H3 H4 (pp&c&Hp&Hc&Hpc&Hl&Hco&Hcells)] Hi Hq Hq' Hok. simpl in *.
  split; simpl; [done|done|done|by apply Forall_insert|].
  exists pp, c. split_and!; try done; try lia. intros z Hz.
  eapply cell_ok_ext; [done..| |by apply Hcells]. intros. by eapply pending_quiet.
Qed.

Lemma pending_store ps i p item z j y :
  (i < length ps)%nat → pending (<[i := PStore item p]> ps) z j y ↔
  (j = i ∧ z = p ∧ y = item) ∨ (j ≠ i ∧ pending ps z j y).
Proof.
  intros Hi. unfold pending. destruct (decide (j = i)) as [->|].
  - rewrite list_lookup_insert_eq by done. naive_solver.
  - rewrite list_lookup_insert_ne by done. naive_solver.
Qed.

(** A put takes the free cell after the last. *)
Lemma cells_put t items ps i p c l z item old :
  cell_ok t items ps c l z → ps !! i = Some old → storing old = false →
  0 ≤ c < n → 0 ≤ p < n → 0 ≤ z < n → Z.of_nat (length l) = dist c p → (cleared t = true → l ≠ []) →
  cell_ok t items (<[i := PStore item p]> ps) c (l ++ [item]) z.
Proof using Hn.
  intros Hcell Hi Hold Hc Hp Hz Hl Hclr. assert (Hlt : (i < length ps)%nat) by (by eapply lookup_lt_Some).
  assert (Hnot : ∀ z' y, ¬ pending ps z' i y).
  { intros z' y E. unfold pending in E. rewrite Hi in E. by simplify_eq. }
  pose proof (λ z j y, pending_store ps i p item z j y Hlt) as Hnew.
  pose proof (dist_range c z Hc Hz). unfold cell_ok in *. destruct (decide (z = p)) as [->|Hne].
  - rewrite <- Hl, Nat2Z.id in *. rewrite lookup_ge_None_2 in Hcell by lia.
    rewrite lookup_app_r, Nat.sub_diag by lia. simpl. destruct Hcell as [Hnull Hfree].
    rewrite (proj2 (andb_false_iff _ _)).
    + right. split; [done|]. exists i. split; [apply Hnew; auto|]. intros j y [?|[_ ?]]%Hnew; naive_solver.
    + destruct (cleared t); [right|by left]. apply Z.eqb_neq. intros ->.
      destruct l; [by apply Hclr|]. unfold dist in Hl. rewrite Z.leb_refl in Hl. simpl in Hl. lia.
  - assert (Hd : dist c z ≠ dist c p) by (intros E; by apply Hne, (dist_inj c)).
    eapply cell_ok_ext; [done| |done| |exact Hcell].
    + destruct (decide (dist c z < dist c p)); [by rewrite lookup_app_l by lia|].
      rewrite !lookup_ge_None_2; [done|lia|rewrite length_app; simpl; lia].
    + intros j y. rewrite Hnew. split; [naive_solver|]. intros Hj. right. split; [|done]. by intros ->; apply Hnot in Hj.
Qed.

(** The item arrives in its cell. *)
Lemma cells_store t items ps i c l z item op :
  (∀ z, 0 ≤ z < n → cell_ok t items ps c l z) → ps !! i = Some (PStore item op) →
  Z.of_nat (length items) = n → 0 ≤ c < n → 0 ≤ op < n → 0 ≤ z < n →
  cell_ok t (<[Z.to_nat op := item]> items) (<[i := PDone (Some true)]> ps) c l z.
Proof using Hn.
  intros Hcells Hi Hlen Hc Hop Hz. pose proof (Hcells z Hz) as Hcell. pose proof (Hcells op Hop) as Hcop.
  assert (Hlt : (i < length ps)%nat) by (by eapply lookup_lt_Some).
  assert (Hp : pending ps op i item) by done.
  assert (Hnew : ∀ z j y, pending (<[i := PDone (Some true)]> ps) z j y ↔ j ≠ i ∧ pending ps z j y).
  { intros z' j y. unfold pending. destruct (decide (j = i)) as [->|].
    - rewrite list_lookup_insert_eq by done. naive_solver.
    - rewrite list_lookup_insert_ne by done. naive_solver. }
  unfold cell_ok in *. destruct (decide (z = op)) as [->|Hne].
  - destruct (l !! _) as [x|]; [|by destruct Hcop as [_ Hno]; destruct (Hno _ _ Hp)].
    destruct (cleared t && _); [by destruct Hcop as [_ Hno]; destruct (Hno _ _ Hp)|].
    destruct Hcop as [[_ Hno]|(_&i'&Hx&Huniq)]; [by destruct (Hno _ _ Hp)|]. assert (i = i') as <- by by eapply Huniq.
    unfold pending in Hx. rewrite Hi in Hx. simplify_eq. left.
    rewrite list_lookup_insert_eq by lia. split; [done|]. intros j y [Hj Hy]%Hnew. by apply Hj, (Huniq j y).
  - eapply cell_ok_ext; [done..|by rewrite list_lookup_insert_ne by lia| |exact Hcell].
    intros j y. rewrite Hnew. split; [naive_solver|]. intros Hj. split; [|done]. intros ->.
    unfold pending in Hj. rewrite Hi in Hj. by simplify_eq.
Qed.

(** Outside the critical points a consumer's view does not depend on the end of
    the queue. *)
Lemma consumer_ok_put t items c l item :
  consumer_ok t items c l → consumer_ok t items c (l ++ [item]).
Proof. destruct t; simpl; try done; destruct l; naive_solver. Qed.

Lemma combine_inj p c p' c' :
  0 ≤ p < n → 0 ≤ c < n → 0 ≤ p' < n → 0 ≤ c' < n → pcq_combine p c = pcq_combine p' c' → p = p' ∧ c = c'.
Proof using Hn.
  pose proof nbound. intros Hp Hc Hp' Hc' E%(f_equal pcq_split).
  rewrite !split_combine in E by lia. by simplify_eq.
Qed.

(** What a step does to the queue. *)
Definition effect (l : list Z) (e : option event) (l' : list Z) : Prop :=
  match e with Some e => bq_step n l e l' | None => l' = l end.

Lemma put_step_ok q ps t l i p :
  inv (Sys q ps t) l → ps !! i = Some p →
  ∃ q' p' l', put_step q p = Ok (q', p') ∧ inv (Sys q' (<[i := p']> ps) t) l' ∧ effect l (put_event p p') l'.
Proof using Hn.
  intros Hinv Hi. pose proof nbound. pose proof Hinv as [H1 H2 H3 H4 (pp&c&Hp&Hc&Hpc&Hl&Hco&Hcells)]; simpl in *.
  assert (Hpok : producer_ok p) by by eapply Forall_lookup_1.
  destruct p as [ret|item|item v op nv|item op]; cbn [put_step].
  - exists q, (PDone ret), l. split_and!; [done| |done]. by eapply inv_quiet.
  - rewrite Hpc, split_combine by lia. rewrite advance_adv by done.
    destruct (Z.eqb_spec (adv pp) c) as [E|E].
    + exists q, (PDone (Some false)), l. split_and!; [done|by eapply inv_quiet|].
      apply bq_full. apply dist_full in E; lia.
    + eexists _, _, l. split_and!; [done| |done]. eapply inv_quiet; try done. split; [done|].
      intros p' c' Hp' Hc' [-> ->]%combine_inj; done.
  - destruct Hpok as [Hitem Hv]. unfold atomic_cas_32. destruct (Z.eqb_spec (pcq_pc q) v) as [E|E]; simpl.
    + destruct (Hv pp c) as (->&Hadv&->); [done|done|by rewrite <- E|].
      assert (Hadv' : 0 ≤ adv pp < n) by by apply adv_range.
      assert (Hdist : dist c (adv pp) = dist c pp + 1) by by apply dist_adv_producer.
      pose proof (dist_range c (adv pp)).
      eexists _, _, (l ++ [item]). split_and!; [done| |apply bq_put; lia].
      split; simpl; [done|done|by apply Forall_app; auto|by apply Forall_insert|].
      exists (adv pp), c. split_and!; try done; try lia.
      * rewrite length_app; simpl; lia.
      * by apply consumer_ok_put.
      * intros z Hz. eapply cells_put; try done; [by apply Hcells|].
        intros Hclr ->. by destruct t; try done; simpl in Hco; naive_solver.
    + eexists _, _, l. split_and!; [done|by eapply inv_quiet|done].
  - destruct Hpok as [Hitem Hop]. rewrite put_total by lia.
    eexists _, _, l. split_and!; [done| |done].
    split; simpl; [done|by rewrite length_insert|done|by apply Forall_insert|].
    exists pp, c. split_and!; try done; try lia.
    + destruct t; try done. simpl in *. destruct Hco as (->&?&?&?&Hit&?). split_and!; try done; try lia.
      rewrite list_lookup_insert_ne; [done|]. intros E. assert (op = c) as -> by lia.
      specialize (Hcells c Hc). unfold cell_ok, full_cell, free_cell, pending in Hcells.
      simpl in Hcells. repeat case_match; naive_solver.
    + intros z Hz. by apply cells_store.
Qed.

(** ** The consumer keeps it *)

Lemma cell_first t items ps c l :
  0 ≤ c < n → (∀ z, 0 ≤ z < n → cell_ok t items ps c l z) →
  match head l with
  | None => free_cell items ps c
  | Some x => if cleared t then free_cell items ps c else full_cell items ps c x
  end.
Proof using Hn.
  intros Hc Hcells. specialize (Hcells c Hc). unfold cell_ok, dist in Hcells.
  rewrite Z.leb_refl, Z.sub_diag, Z.eqb_refl, andb_true_r in Hcells. by destruct l.
Qed.
Lemma dist_nil c p (l : list Z) : 0 ≤ c < n → 0 ≤ p < n → Z.of_nat (length l) = dist c p → p = c ↔ l = [].
Proof using Hn.
  intros Hc Hp Hl. rewrite <- length_zero_iff_nil. unfold dist in Hl. case_match; lia.
Qed.

(** A step that leaves the queue alone and does not cross the clearing of a cell. *)
Lemma inv_reader q ps t t' l :
  inv (Sys q ps t) l → cleared t' = cleared t →
  (∀ p c, 0 ≤ p < n → 0 ≤ c < n → pcq_pc q = pcq_combine p c → Z.of_nat (length l) = dist c p →
     consumer_ok t (pcq_items q) c l → (∀ z, 0 ≤ z < n → cell_ok t (pcq_items q) ps c l z) →
     consumer_ok t' (pcq_items q) c l) →
  inv (Sys q ps t') l.
Proof.
  intros [H1 H2 H3 H4 (p&c&Hp&Hc&Hpc&Hl&Hco&Hcells)] Hclr Hok; simpl in *.
  split; simpl; [done..|]. exists p, c. split_and!; try done; try lia; [by apply (Hok p c)|].
  intros z Hz. eapply cell_ok_ext; [by rewrite Hclr|done..|by apply Hcells].
Qed.

(** The consumer clears the cell of the first item. *)
Lemma cells_clear t items ps c x l item v nv z :
  (∀ z, 0 ≤ z < n → cell_ok t items ps c (x :: l) z) → cleared t = false →
  Z.of_nat (length items) = n → 0 ≤ c < n → 0 ≤ z < n →
  items !! Z.to_nat c = Some x → x ≠ NULL →
  cell_ok (CCas item v nv) (<[Z.to_nat c := NULL]> items) ps c (x :: l) z.
Proof using Hn.
  intros Hcells Hclr Hlen Hc Hz Hx Hnull. destruct (Z.eqb_spec z c) as [->|Hne].
  - pose proof (cell_first _ _ _ _ _ Hc Hcells) as Hf. simpl in Hf. rewrite Hclr in Hf.
    unfold cell_ok, dist. rewrite Z.leb_refl, Z.sub_diag, Z.eqb_refl. simpl.
    split; [by rewrite list_lookup_insert_eq by lia|].
    destruct Hf as [[_ Hno]|[Hn' _]]; [done|]. rewrite Hx in Hn'. by simplify_eq.
  - eapply cell_ok_ext; [|done|by rewrite list_lookup_insert_ne by lia|done|by apply Hcells].
    simpl. rewrite Hclr. by destruct (Z.eqb_spec z c).
Qed.

(** The consumer moves on to the next cell. *)
Lemma cells_get t items ps c x l z r :
  (∀ z, 0 ≤ z < n → cell_ok t items ps c (x :: l) z) → cleared t = true →
  0 ≤ c < n → 0 ≤ z < n → Z.of_nat (length (x :: l)) < n →
  cell_ok (CDone r) items ps (adv c) l z.
Proof using Hn.
  intros Hcells Hclr Hc Hz Hl. pose proof (dist_range c z Hc Hz). simpl in Hl.
  pose proof (dist_adv_consumer c z Hc Hz) as Hd. unfold cell_ok. rewrite Hd.
  destruct (Z.eqb_spec z c) as [->|Hne].
  - pose proof (cell_first _ _ _ _ _ Hc Hcells) as Hf. simpl in Hf. rewrite Hclr in Hf.
    by rewrite lookup_ge_None_2 by lia.
  - specialize (Hcells z Hz). unfold cell_ok in Hcells. rewrite (proj2 (Z.eqb_neq z c)) in Hcells by done.
    rewrite andb_false_r in Hcells.
    assert (dist c z ≠ 0) by (unfold dist; destruct (Z.leb_spec c z); lia).
    replace (Z.to_nat (dist c z)) with (S (Z.to_nat (dist c z - 1))) in Hcells by lia.
    exact Hcells.
Qed.

Lemma get_step_ok q ps t l :
  inv (Sys q ps t) l →
  ∃ q' t' l', get_step q t = Ok (q', t') ∧ inv (Sys q' ps t') l' ∧ effect l (get_event t t') l'.
Proof using Hn.
  intros Hinv. pose proof nbound. pose proof Hinv as [H1 H2 H3 H4 (p&c&Hp&Hc&Hpc&Hl&Hco&Hcells)]; simpl in *.
  pose proof (cell_first _ _ _ _ _ Hc Hcells) as Hf. pose proof (dist_nil c p l Hc Hp Hl) as Hnil.
  pose proof (dist_range c p Hc Hp) as Hlen.
  destruct t as [r| |v p' c'|item v p' c'|item v nv|item| |c']; cbn [get_step]; simpl in Hco.
  - eexists _, _, l. by split_and!.
  - rewrite Hpc, split_combine by lia. destruct (Z.eqb_spec p c) as [E|E].
    + eexists _, _, l. split_and!; [done|by eapply inv_reader|]. apply Hnil in E as ->. constructor.
    + eexists _, _, l. split_and!; [done| |done]. eapply inv_reader; [done..|]. intros p' c' ?? E' _ _ _.
      rewrite Hpc in E'. apply combine_inj in E' as [-> ->]; try done. simpl. naive_solver.
  - destruct Hco as (->&Hp'&->&Hne). destruct l as [|x l]; [done|]. simpl in Hf.
    destruct (get_total (pcq_items q) c) as (item&->&Hit); [lia|]. rewrite Ok_bind.
    destruct (Z.eqb_spec item NULL) as [->|Hitem].
    + eexists _, _, _. split_and!; [done|by eapply inv_reader|constructor].
    + eexists _, _, _. split_and!; [done| |done]. eapply inv_reader; [done..|].
      intros p0 c0 ?? E' _ (->&_) _. simpl. destruct Hf as [[Hx _]|[Hx _]]; rewrite Hit in Hx; by simplify_eq.
  - destruct Hco as (->&Hp'&->&Hhd&Hit&Hitem). destruct l as [|x l]; [done|]. simpl in Hhd. simplify_eq.
    rewrite put_total by lia. rewrite Ok_bind, advance_adv by done.
    eexists _, _, _. split_and!; [done| |done]. split; simpl; [done|by rewrite length_insert|done|done|].
    exists p, c. split_and!; try done; try lia.
    + by exists p'.
    + intros z Hz. by eapply cells_clear.
  - destruct Hco as (Hhd&p'&Hp'&->&->). destruct l as [|x l]; [done|]. simpl in Hhd. simplify_eq.
    unfold atomic_cas_32. rewrite Hpc. destruct (Z.eqb_spec (pcq_combine p c) (pcq_combine p' c)) as [E|E]; simpl.
    + apply combine_inj in E as [<- _]; try done. pose proof (adv_range c Hc).
      eexists _, _, l. split_and!; [done| |constructor].
      split; simpl; [done|done|by inv H3|done|]. exists p, (adv c). split_and!; try done; try lia.
      * rewrite dist_adv_consumer by done. simpl in Hl. destruct (Z.eqb_spec p c) as [E|E]; [by apply Hnil in E|lia].
      * intros z Hz. eapply cells_get; [exact Hcells|done|done|done|lia].
    + eexists _, _, _. split_and!; [done| |done]. eapply inv_reader; [done..|]. naive_solver.
  - rewrite Hpc, split_combine, advance_adv by (done || lia).
    eexists _, _, l. split_and!; [done| |done]. eapply inv_reader; [done..|].
    intros p' c' ?? E' _ ? _. rewrite Hpc in E'. apply combine_inj in E' as [-> ->]; try done. simpl. naive_solver.
  - rewrite Hpc, split_combine by lia. destruct (Z.eqb_spec p c) as [E|E].
    + eexists _, _, l. split_and!; [done|by eapply inv_reader|]. constructor. by left.
    + eexists _, _, l. split_and!; [done| |done]. eapply inv_reader; [done..|]. intros p' c' ?? E' _ _ _.
      rewrite Hpc in E'. by apply combine_inj in E' as [-> ->].
  - destruct (get_total (pcq_items q) c) as (item&Hg&Hit); [lia|]. subst c'. rewrite Hg, Ok_bind.
    eexists _, _, l. split_and!; [done|by eapply inv_reader|]. constructor.
    destruct l as [|x l]; simpl in *; [destruct Hf as [Hx _]|destruct Hf as [[Hx _]|[Hx _]]];
      rewrite Hit in Hx; simplify_eq; auto.
Qed.

(** ** Every history *)

Lemma call_put_ok q ps t l i ret item t' :
  inv (Sys q ps t) l → ps !! i = Some (PDone ret) → put_call item = Ok t' →
  inv (Sys q (<[i := t']> ps) t) l.
Proof.
  intros Hinv Hi. unfold put_call. destruct (Z.eqb_spec item NULL); [done|]. intros [= <-].
  by eapply inv_quiet.
Qed.

Lemma sys_step_ok s e s' l : inv s l → step s e s' → ∃ l', inv s' l' ∧ effect l e l'.
Proof using Hn.
  intros Hinv Hstep. destruct Hstep as [q ps t i ret item t' Hi Hc|q ps t i p q' p' Hi Hs|q ps ret|q ps ret|q ps t q' t' Hs].
  - exists l. split; [by eapply call_put_ok|done].
  - destruct (put_step_ok _ _ _ _ _ _ Hinv Hi) as (?&?&l'&Hs'&?&?). rewrite Hs in Hs'. simplify_eq. eauto.
  - exists l. split; [by eapply inv_reader|done].
  - exists l. split; [by eapply inv_reader|done].
  - destruct (get_step_ok _ _ _ _ Hinv) as (?&?&l'&Hs'&?&?). rewrite Hs in Hs'. simplify_eq. eauto.
Qed.

Lemma init_ok q k : pcq_nitems q = n → pcq_pc q = 0 → pcq_items q = replicate (Z.to_nat n) NULL →
  inv (sys_init q k) [].
Proof using Hn.
  pose proof nbound. intros H1 H2 H3. split; simpl; [done|rewrite H3, length_replicate; lia|done| |].
  - by apply Forall_replicate.
  - exists 0, 0. split_and!; try done; try lia.
    intros z Hz. unfold cell_ok. rewrite lookup_nil. split.
    + rewrite H3. apply lookup_replicate_2. lia.
    + intros i x Hi. unfold pending in Hi. by apply lookup_replicate in Hi as [? _].
Qed.

Lemma run_ok s0 tr s l0 : inv s0 l0 → run s0 tr s → ∃ l, inv s l ∧ bq_run n l0 tr l.
Proof using Hn.
  intros Hinv. induction 1 as [|s1 tr s2 e s3 _ IH Hstep]; [exists l0; split; [done|constructor]|].
  destruct (IH Hinv) as (l&Hinv2&Hrun). destruct (sys_step_ok _ _ _ _ Hinv2 Hstep) as (l'&?&He).
  exists l'. split; [done|]. destruct e as [e|]; simpl in *.
  - by eapply bq_run_snoc.
  - by rewrite app_nil_r, He.
Qed.
End queue.

Lemma bq_fifo n l0 tr l : bq_run n l0 tr l → l0 ++ puts tr = gets tr ++ l.
Proof.
  induction 1 as [l|l1 tr l2 e l3 _ IH Hstep]; [by rewrite app_nil_r|].
  unfold puts, gets in *. rewrite !omap_app, app_assoc, IH, <- !app_assoc.
  destruct Hstep; simpl; by rewrite ?app_nil_r.
Qed.

(** ** A schedule, to run the threads *)

Inductive action := APut (i : nat) (item : Z) | AProducer (i : nat) | AGet | APeek | AReader.

Definition exec1 (s : sys) (a : action) : option (option event * sys) :=
  match a with
  | APut i item =>
    match producers s !! i, put_call item with
    | Some (PDone _), Ok t' => Some (None, Sys (queue s) (<[i := t']> (producers s)) (reader s))
    | _, _ => None
    end
  | AProducer i =>
    p ← producers s !! i;
    match put_step (queue s) p with
    | Ok (q', p') => Some (put_event p p', Sys q' (<[i := p']> (producers s)) (reader s))
    | Fault _ => None
    end
  | AGet => match reader s with CDone _ => Some (None, Sys (queue s) (producers s) CRead) | _ => None end
  | APeek => match reader s with CDone _ => Some (None, Sys (queue s) (producers s) KRead) | _ => None end
  | AReader =>
    match get_step (queue s) (reader s) with
    | Ok (q', t') => Some (get_event (reader s) t', Sys q' (producers s) t')
    | Fault _ => None
    end
  end.
Fixpoint exec (s : sys) (tr : list event) (acts : list action) : option (list event * sys) :=
  match acts with
  | [] => Some (tr, s)
  | a :: acts => '(e, s) ← exec1 s a; exec s (tr ++ option_list e) acts
  end.

Lemma exec1_step s a e s' : exec1 s a = Some (e, s') → step s e s'.
Proof.
  destruct s as [q ps t], a as [i item|i| | |]; simpl; intros H.
  - destruct (ps !! i) as [[ret| | |]|] eqn:Hi; try done. destruct (put_call item) eqn:Hc; simplify_eq.
    by eapply StepCallPut.
  - destruct (ps !! i) as [p|] eqn:Hi; simplify_eq/=. destruct (put_step q p) as [[q' p']|] eqn:Hs; simplify_eq.
    by eapply StepPut.
  - destruct t; simplify_eq. constructor.
  - destruct t; simplify_eq. constructor.
  - destruct (get_step q t) as [[q' t']|] eqn:Hs; simplify_eq. by apply StepGet.
Qed.
Lemma exec_run acts : ∀ s0 s tr tr' s', run s0 tr s → exec s tr acts = Some (tr', s') → run s0 tr' s'.
Proof.
  induction acts as [|a acts IH]; intros s0 s tr tr' s' Hrun H; simpl in H; [by simplify_eq|].
  destruct (exec1 s a) as [[e s1]|] eqn:Ha; simplify_eq/=.
  eapply IH; [|done]. eapply run_snoc; [done|]. by eapply exec1_step.
Qed.

(** ** What holds of every history *)

Lemma create_ok n q : 1 ≤ n ≤ PCQ_MAXLEN → pcq_create true n = Ok (Some q) →
  pcq_nitems q = n ∧ pcq_pc q = 0 ∧ pcq_items q = replicate (Z.to_nat n) NULL.
Proof.
  intros Hn H. unfold pcq_create in H. destruct (negb _); [done|]. injection H as <-. split_and!; [|done..].
  apply u32_small. unfold is_u32, PCQ_MAXLEN in *. lia.
Qed.

(** C26: the queue is a bounded queue. In every interleaving of any number of
    producers with one consumer, on a queue of 1 to PCQ_MAXLEN cells, each call
    takes effect at one step as the operation of a bounded first-in first-out
    queue that holds one item less than it has cells: nothing is lost,
    duplicated, reordered or overwritten, a put is refused only when the queue
    is full and a get finds it empty only when it is. No step of any thread
    goes wrong. *)
Theorem pcq_refines n threads q tr s :
  1 ≤ n ≤ PCQ_MAXLEN → pcq_create true n = Ok (Some q) → run (sys_init q threads) tr s →
  (∃ l, bq_run n [] tr l ∧ puts tr = gets tr ++ l ∧ Z.of_nat (length l) < n) ∧
  (∀ i p, producers s !! i = Some p → ∃ r, put_step (queue s) p = Ok r) ∧
  (∃ r, get_step (queue s) (reader s) = Ok r).
Proof.
  intros Hn Hq Hrun. destruct (create_ok n q Hn Hq) as (H1&H2&H3).
  destruct (run_ok n Hn _ _ _ _ (init_ok n Hn q threads H1 H2 H3) Hrun) as (l&Hinv&Hbq).
  destruct s as [q' ps t]. split_and!.
  - exists l. split_and!; [done|by apply (bq_fifo n [])|].
    destruct Hinv as [_ _ _ _ (p&c&Hp&Hc&_&Hl&_)]. pose proof (dist_range n Hn c p Hc Hp). lia.
  - intros i p Hi. destruct (put_step_ok n Hn _ _ _ _ _ _ Hinv Hi) as (?&?&?&?&_). by eexists.
  - destruct (get_step_ok n Hn _ _ _ _ Hinv) as (?&?&?&?&_). by eexists.
Qed.

(** Two producers that meet at the same place: the second, which takes the
    later place, stores first; the consumer finds nothing yet, and then both in
    order; a third item does not fit. *)
Definition race : list action :=
  [APut 0 7; APut 1 8; AProducer 0; AProducer 1; AProducer 0; AProducer 1; AProducer 1; AProducer 1; AProducer 1;
   AGet; AReader; AReader; AProducer 0; APut 1 9; AProducer 1; AGet; AReader; AReader; AReader; AReader;
   AGet; AReader; AReader; AReader; AReader].

Lemma pcq_refines_witness :
  ∃ tr s, tr = [EvPut 7; EvPut 8; EvRaced; EvFull; EvGet 7; EvGet 8] ∧
    ∃ l, bq_run 3 [] tr l ∧ puts tr = gets tr ++ l ∧ reader s = CDone 8.
Proof.
  destruct (exec (sys_init (Pcq 3 0 [0; 0; 0]) 2) [] race) as [[tr s]|] eqn:E; [|exfalso; vm_compute in E; discriminate E].
  assert (Hq : pcq_create true 3 = Ok (Some (Pcq 3 0 [0; 0; 0]))) by (vm_compute; reflexivity).
  assert (Hn : 1 ≤ 3 ≤ PCQ_MAXLEN) by (unfold PCQ_MAXLEN; lia).
  destruct (pcq_refines 3 2 _ tr s Hn Hq) as [(l&Hbq&Hf&_) _]; [eapply exec_run; [apply run_nil|exact E]|].
  exists tr, s. vm_compute in E. injection E as <- <-. split; [reflexivity|].
  exists l. split; [exact Hbq|]. split; [exact Hf|]. vm_compute. reflexivity.
Defined.

(** ** Calls that run alone *)

Lemma run_quiet s1 tr s2 s3 : run s1 tr s2 → step s2 None s3 → run s1 tr s3.
Proof. intros Hr Hs. rewrite <- (app_nil_r tr). by eapply (run_snoc _ _ _ None). Qed.

Section alone.
Context (n : Z) (Hn : 1 ≤ n ≤ PCQ_MAXLEN) (q : pcq) (ps : list producer) (ret : Z).
Hypothesis idle : ∀ i p, ps !! i = Some p → storing p = false.

Lemma idle_cell t c l x items :
  (∀ z, 0 ≤ z < n → cell_ok n t items ps c l z) → 0 ≤ c < n → cleared t = false → head l = Some x →
  items !! Z.to_nat c = Some x.
Proof using All.
  intros Hcells Hc Hclr Hhd. pose proof (cell_first n Hn _ _ _ _ _ Hc Hcells) as Hf.
  rewrite Hhd, Hclr in Hf. destruct Hf as [[? _]|(_&i&Hi&_)]; [done|]. by specialize (idle _ _ Hi).
Qed.

Lemma get_alone x l :
  inv n (Sys q ps (CDone ret)) (x :: l) →
  ∃ q', pcq_get q = Ok (q', x) ∧ pcq_peek q = Ok (q, x) ∧
    ∀ s0 tr, run s0 tr (Sys q ps (CDone ret)) → run s0 (tr ++ [EvGet x]) (Sys q' ps (CDone x)).
Proof using All.
  intros Hinv. pose proof (nbound n Hn).
  destruct Hinv as [H1 H2 H3 H4 (p&c&Hp&Hc&Hpc&Hl&_&Hcells)]; simpl in *.
  pose proof (idle_cell _ _ _ _ _ Hcells Hc eq_refl eq_refl) as Hx. apply Forall_cons in H3 as [Hx0 _].
  assert (Hpne : p ≠ c) by (intros ->; unfold dist in Hl; rewrite Z.leb_refl in Hl; lia).
  assert (Hget : get (pcq_items q) c = Ok x) by (apply get_Ok; split; [lia|done]).
  set (items' := <[Z.to_nat c := NULL]> (pcq_items q)). set (nv := pcq_combine p (adv n c)).
  assert (S1 : get_step q CRead = Ok (q, CItem (pcq_pc q) p c)).
  { cbn [get_step put_step]. rewrite Hpc, split_combine by lia. by destruct (Z.eqb_spec p c). }
  assert (S2 : get_step q (CItem (pcq_pc q) p c) = Ok (q, CClear x (pcq_pc q) p c)).
  { simpl. rewrite Hget, Ok_bind. by destruct (Z.eqb_spec x NULL). }
  assert (S3 : get_step q (CClear x (pcq_pc q) p c) = Ok (set_items q items', CCas x (pcq_pc q) nv)).
  { simpl. rewrite put_total, Ok_bind, (advance_adv n Hn) by (done || lia). done. }
  assert (S4 : get_step (set_items q items') (CCas x (pcq_pc q) nv) = Ok (Pcq (pcq_nitems q) nv items', CDone x)).
  { simpl. by rewrite !Z.eqb_refl. }
  assert (P2 : get_step q (KItem c) = Ok (q, CDone x)) by (simpl; by rewrite Hget).
  assert (P1 : get_step q KRead = Ok (q, KItem c)).
  { cbn [get_step put_step]. rewrite Hpc, split_combine by lia. by destruct (Z.eqb_spec p c). }
  exists (Pcq (pcq_nitems q) nv items'). split_and!.
  - unfold pcq_get. cbn [get_run]. rewrite S1, Ok_bind, S2, Ok_bind, S3, Ok_bind, S4, Ok_bind. done.
  - unfold pcq_peek. cbn [get_run]. rewrite P1, Ok_bind, P2, Ok_bind. done.
  - intros s0 tr Hr. eapply (run_snoc _ _ _ (Some (EvGet x))); [|exact (StepGet _ _ _ _ _ S4)].
    eapply run_quiet; [|exact (StepGet _ _ _ _ _ S3)]. eapply run_quiet; [|exact (StepGet _ _ _ _ _ S2)].
    eapply run_quiet; [|exact (StepGet _ _ _ _ _ S1)]. eapply run_quiet; [done|constructor].
Qed.

Lemma get_alone_empty :
  inv n (Sys q ps (CDone ret)) [] → pcq_get q = Ok (q, NULL) ∧ pcq_peek q = Ok (q, NULL).
Proof using Hn.
  intros Hinv. pose proof (nbound n Hn).
  destruct Hinv as [H1 H2 H3 H4 (p&c&Hp&Hc&Hpc&Hl&_&_)]; simpl in *.
  assert (p = c) as -> by by apply (dist_nil n Hn c p []).
  unfold pcq_get, pcq_peek. cbn [get_run get_step].
  rewrite Hpc, split_combine by lia. by rewrite Z.eqb_refl.
Qed.

Lemma put_alone i r item l t :
  inv n (Sys q ps t) l → ps !! i = Some (PDone r) → item ≠ NULL → 
  ∃ q' b, pcq_put q item = Ok (q', b) ∧ b = bool_decide (Z.of_nat (length l) + 1 < n) ∧
    ∀ s0 tr, run s0 tr (Sys q ps t) →
      run s0 (tr ++ [if b then EvPut item else EvFull]) (Sys q' (<[i := PDone (Some b)]> ps) t).
Proof using Hn.
  intros Hinv Hi Hitem. pose proof (nbound n Hn).
  destruct Hinv as [H1 H2 H3 H4 (p&c&Hp&Hc&Hpc&Hl&_&_)]; simpl in *.
  pose proof (dist_full n Hn c p Hc Hp) as Hfull.
  assert (Hi' : ∀ t', <[i:=t']> ps !! i = Some t').
  { intros t'. apply list_lookup_insert_eq. by eapply lookup_lt_Some. }
  assert (Hcall : put_call item = Ok (PRead item)) by (unfold put_call; by destruct (Z.eqb_spec item NULL)).
  unfold pcq_put. rewrite Hcall, Ok_bind. cbn [put_run].
  assert (Hr0 : ∀ s0 tr, run s0 tr (Sys q ps t) → run s0 tr (Sys q (<[i := PRead item]> ps) t)).
  { intros s0 tr Hr. eapply run_quiet; [done|]. by eapply StepCallPut. }
  destruct (decide (adv n p = c)) as [E|E].
  - assert (S1 : put_step q (PRead item) = Ok (q, PDone (Some false))).
    { cbn [get_step put_step]. rewrite Hpc, split_combine by lia. rewrite (advance_adv n Hn), E by done. by rewrite Z.eqb_refl. }
    exists q, false. rewrite S1, Ok_bind. split_and!; [done|symmetry; apply bool_decide_eq_false; lia|].
    intros s0 tr Hr%Hr0. rewrite <- (list_insert_insert_eq ps i (PDone (Some false)) (PRead item)).
    eapply (run_snoc _ _ _ (Some EvFull)); [done|]. exact (StepPut _ _ _ _ _ _ _ (Hi' _) S1).
  - set (v := pcq_pc q). set (nv := pcq_combine (adv n p) c). set (q1 := Pcq (pcq_nitems q) nv (pcq_items q)).
    set (q2 := set_items q1 (<[Z.to_nat p := item]> (pcq_items q))).
    assert (S1 : put_step q (PRead item) = Ok (q, PCas item v p nv)).
    { cbn [get_step put_step]. rewrite Hpc, split_combine by lia. rewrite (advance_adv n Hn) by done.
      destruct (Z.eqb_spec (adv n p) c); [done|]. unfold v. by rewrite Hpc. }
    assert (S2 : put_step q (PCas item v p nv) = Ok (q1, PStore item p)).
    { simpl. unfold v. by rewrite !Z.eqb_refl. }
    assert (S3 : put_step q1 (PStore item p) = Ok (q2, PDone (Some true))).
    { simpl. by rewrite put_total by lia. }
    exists q2, true. rewrite S1, Ok_bind, S2, Ok_bind, S3, Ok_bind.
    assert (0 ≤ dist n c p < n) by by apply dist_range.
    split_and!; [done|symmetry; apply bool_decide_eq_true; lia|].
    intros s0 tr Hr%Hr0.
    eapply run_quiet in Hr; [|exact (StepPut _ _ _ _ _ _ _ (Hi' _) S1)]. rewrite list_insert_insert_eq in Hr.
    eapply (run_snoc _ _ _ (Some (EvPut item))) in Hr; [|exact (StepPut _ _ _ _ _ _ _ (Hi' _) S2)].
    rewrite list_insert_insert_eq in Hr.
    eapply run_quiet in Hr; [|exact (StepPut _ _ _ _ _ _ _ (Hi' _) S3)]. by rewrite list_insert_insert_eq in Hr.
Qed.
End alone.

(** calls that nobody disturbs. After any history, when no thread is in the
    middle of a call, [pcq_get] returns the first item put and not yet got, and
    removes it, [pcq_peek] returns it and leaves the queue alone, both return
    NULL when there is none, and [pcq_put] succeeds exactly when fewer than
    nitems - 1 items are there. Each returns after at most four steps. *)
Lemma pcq_sequential n threads q tr s r :
  1 ≤ n ≤ PCQ_MAXLEN → pcq_create true n = Ok (Some q) → run (sys_init q threads) tr s →
  reader s = CDone r → (∀ i p, producers s !! i = Some p → ∃ b, p = PDone b) →
  ∃ l, puts tr = gets tr ++ l ∧
    match l with
    | [] => pcq_get (queue s) = Ok (queue s, NULL) ∧ pcq_peek (queue s) = Ok (queue s, NULL)
    | x :: _ => ∃ q', pcq_get (queue s) = Ok (q', x) ∧ pcq_peek (queue s) = Ok (queue s, x) ∧
        run (sys_init q threads) (tr ++ [EvGet x]) (Sys q' (producers s) (CDone x))
    end ∧
    ∀ i item, is_Some (producers s !! i) → item ≠ NULL →
      let b := bool_decide (Z.of_nat (length l) + 1 < n) in
      ∃ q', pcq_put (queue s) item = Ok (q', b) ∧
        run (sys_init q threads) (tr ++ [if b then EvPut item else EvFull])
          (Sys q' (<[i := PDone (Some b)]> (producers s)) (reader s)).
Proof.
  intros Hn Hq Hrun Hr Hps. destruct (create_ok n q Hn Hq) as (H1&H2&H3).
  destruct (run_ok n Hn _ _ _ _ (init_ok n Hn q threads H1 H2 H3) Hrun) as (l&Hinv&Hbq).
  destruct s as [q' ps t]. simpl in *. subst t. exists l. split_and!.
  - by apply (bq_fifo n []).
  - assert (Hidle : ∀ i p, ps !! i = Some p → storing p = false).
    { intros i p Hi. by destruct (Hps _ _ Hi) as [b ->]. }
    destruct l as [|x l]; [by eapply get_alone_empty|].
    destruct (get_alone n Hn q' ps r Hidle x l Hinv) as (q2&?&?&Hnext). exists q2. auto.
  - intros i item [p Hi] Hitem. destruct (Hps _ _ Hi) as [b ->].
    destruct (put_alone n Hn q' ps i b item l _ Hinv Hi Hitem) as (q2&b'&?&->&Hnext). exists q2. auto.
Qed.
Lemma pcq_sequential_witness :
  ∃ s, run (sys_init (Pcq 3 0 [0; 0; 0]) 2) [EvPut 7] s ∧
    ∃ l, [7] = l ∧ match l with [] => False | x :: _ => ∃ q', pcq_get (queue s) = Ok (q', x) end.
Proof.
  destruct (exec (sys_init (Pcq 3 0 [0; 0; 0]) 2) [] [APut 0 7; AProducer 0; AProducer 0; AProducer 0]) as [[tr s]|] eqn:E;
    [|exfalso; vm_compute in E; discriminate E].
  assert (Hq : pcq_create true 3 = Ok (Some (Pcq 3 0 [0; 0; 0]))) by (vm_compute; reflexivity).
  assert (Hn : 1 ≤ 3 ≤ PCQ_MAXLEN) by (unfold PCQ_MAXLEN; lia).
  assert (Hrun : run (sys_init (Pcq 3 0 [0; 0; 0]) 2) tr s) by (eapply exec_run; [apply run_nil|exact E]).
  vm_compute in E. injection E as <- <-. eexists. split; [exact Hrun|].
  destruct (pcq_sequential 3 2 _ _ _ 0 Hn Hq Hrun) as (l&Hl&Hget&_); [reflexivity| |].
  { intros i p Hi. destruct i as [|[|i]]; simpl in Hi; simplify_eq; by eexists. }
  exists l. split; [exact Hl|]. cbv in Hl. subst l. destruct Hget as (q'&Hg&_). by exists q'.
Defined.

(** The assertion of [pcq_create] holds of every size. A queue of no cells is
    written out of its bounds by the first put, and in one of more than 65536
    cells the producer's index runs into the consumer's. *)
Lemma pcq_create_unchecked :
  (∀ mem nitems, 0 ≤ nitems → ∃ r, pcq_create mem nitems = Ok r) ∧
  (∀ q, pcq_create true 0 = Ok (Some q) → pcq_put q 1 = Fault OutOfBounds) ∧
  pcq_split (pcq_combine (pcq_advance (Pcq 70000 0 []) 65535) 0) = (0, 1).
Proof.
  split_and!; [|intros q [= <-]; by vm_compute|by vm_compute].
  intros mem nitems H. unfold pcq_create.
  assert ((nitems >? 0) || (nitems <=? PCQ_MAXLEN) = true) as ->; [|destruct mem; by eexists].
  unfold PCQ_MAXLEN. destruct (Z.gtb_spec nitems 0); [done|]. apply Z.leb_le. lia.
Qed.
