(* ===== verification/Turnstile.v ===== *)
(** * Turnstiles: the sleep queues of kernel locks (kern/kern_turnstile.c,
      sys/sleepq.h)

    Turnstiles are cells of a heap with addresses. A thread that is not asleep
    owns one; a thread that goes to sleep on a lock lends it: the first sleeper's
    turnstile becomes the one of the lock, the others wait on its free list
    until their threads are woken. A thread (lwp) and a lock are addresses. The
    chain mutex is held by the callers. Priority inheritance is left out; the
    priorities that order a sleep queue are an argument. *)

From S2P Require Export Prelude.

(** The two sleep queues of a turnstile. *)
Inductive tsq := TS_READER_Q | TS_WRITER_Q.
#[export] Instance tsq_eq_dec : EqDecision tsq.
Proof. solve_decision. Defined.

Definition sel {A} (q : tsq) (p : A * A) : A := match q with TS_READER_Q => p.1 | TS_WRITER_Q => p.2 end.
Definition upd {A} (q : tsq) (f : A → A) (p : A * A) : A * A :=
  match q with TS_READER_Q => (f p.1, p.2) | TS_WRITER_Q => (p.1, f p.2) end.

(** The interface that the locks use, for the turnstile of one lock: [T] is the
    state of all turnstiles and [P] their addresses. *)
Class TurnstileOps (T P : Type) := {
  ts_lookup : T → res (option P);
  ts_count : T → P → tsq → res Z;
  ts_first : T → P → tsq → res (option Z);
  ts_block : (Z → Z) → T → option P → tsq → Z → res T;
  ts_wakeup : T → P → tsq → Z → option Z → res (T * list Z);
}.

(** What the locks rely on. [ts_queue] are the threads asleep on the lock, and
    [ts_awake] those asleep on no lock. *)
Class TurnstileLaws (T P : Type) `{TurnstileOps T P} := {
  ts_ok : T → Prop;
  ts_queue : T → tsq → list Z;
  ts_awake : T → Z → Prop;
  ts_lookup_law t : ts_ok t →
    ∃ p, ts_lookup t = Ok p ∧ (p = None ↔ ∀ q, ts_queue t q = []);
  ts_nodup t : ts_ok t → NoDup (ts_queue t TS_READER_Q ++ ts_queue t TS_WRITER_Q);
  ts_count_law t p q : ts_ok t → ts_lookup t = Ok (Some p) →
    ts_count t p q = Ok (Z.of_nat (length (ts_queue t q)));
  ts_first_law t p q : ts_ok t → ts_lookup t = Ok (Some p) →
    ts_first t p q = Ok (head (ts_queue t q));
  ts_block_law eprio t p q l : ts_ok t → ts_lookup t = Ok p → ts_awake t l →
    ∃ t', ts_block eprio t p q l = Ok t' ∧ ts_ok t' ∧
      (∀ q', ts_queue t' q' ≡ₚ if decide (q' = q) then l :: ts_queue t q else ts_queue t q') ∧
      (∀ k, ts_awake t' k ↔ ts_awake t k ∧ k ≠ l);
  ts_wakeup_law t p q count nl : ts_ok t → ts_lookup t = Ok (Some p) →
    0 < count ≤ Z.of_nat (length (ts_queue t q)) → (∀ l, nl = Some l → l ∈ ts_queue t q) →
    let woken := match nl with Some l => [l] | None => take (Z.to_nat count) (ts_queue t q) end in
    ∃ t', ts_wakeup t p q count nl = Ok (t', woken) ∧ ts_ok t' ∧
      (∀ q', ts_queue t' q' =
        if decide (q' = q) then filter (λ l, l ∉ woken) (ts_queue t q) else ts_queue t q') ∧
      (∀ k, ts_awake t' k ↔ ts_awake t k ∨ k ∈ woken);
}.

(** ** The data *)

Definition TS_HASH_MASK : Z := 63.
Definition TS_HASH (obj : Z) : Z := Z.shiftr obj 3 .& TS_HASH_MASK.

Record turnstile := Tstile {
  ts_free : option nat;
  ts_obj : Z;
  ts_waiters : Z * Z;
  ts_sleepq : list Z * list Z;
}.

Definition with_free (ts : turnstile) (f : option nat) : turnstile :=
  Tstile f (ts_obj ts) (ts_waiters ts) (ts_sleepq ts).
Definition with_obj (ts : turnstile) (obj : Z) : turnstile :=
  Tstile (ts_free ts) obj (ts_waiters ts) (ts_sleepq ts).
Definition with_queue (ts : turnstile) (q : tsq) (count : Z → Z) (f : list Z → list Z) : turnstile :=
  Tstile (ts_free ts) (ts_obj ts) (upd q count (ts_waiters ts)) (upd q f (ts_sleepq ts)).

(** [turnstile_tab], the turnstiles by address, and [l_ts] of each thread. *)
Record tstiles := TS {
  turnstile_tab : gmap Z (list nat);
  ts_heap : gmap nat turnstile;
  l_ts : gmap Z nat;
}.

Definition chain (st : tstiles) (h : Z) : list nat := default [] (turnstile_tab st !! h).

Definition deref (st : tstiles) (ts : nat) : res turnstile :=
  match ts_heap st !! ts with Some r => Ok r | None => Fault UseAfterFree end.
Definition store (st : tstiles) (ts : nat) (r : turnstile) : tstiles :=
  TS (turnstile_tab st) (<[ts := r]> (ts_heap st)) (l_ts st).
Definition set_lts (st : tstiles) (l : Z) (ts : nat) : tstiles :=
  TS (turnstile_tab st) (ts_heap st) (<[l := ts]> (l_ts st)).
Definition set_chain (st : tstiles) (h : Z) (c : list nat) : tstiles :=
  TS (<[h := c]> (turnstile_tab st)) (ts_heap st) (l_ts st).
Definition lwp_ts (st : tstiles) (l : Z) : res nat :=
  match l_ts st !! l with Some ts => Ok ts | None => Fault NullDeref end.

Definition kassert (b : bool) : res unit := if b then mret () else Fault Panic.

Definition TS_ALL_WAITERS (ts : turnstile) : Z :=
  u32 (sel TS_READER_Q (ts_waiters ts) + sel TS_WRITER_Q (ts_waiters ts)).
Definition TS_WAITERS (st : tstiles) (ts : nat) (q : tsq) : res Z :=
  r ← deref st ts; mret (sel q (ts_waiters r)).
Definition TS_FIRST (st : tstiles) (ts : nat) (q : tsq) : res (option Z) :=
  r ← deref st ts; mret (head (sel q (ts_sleepq r))).

Definition turnstile_ctor : turnstile := Tstile None 0 (0, 0) ([], []).

(** The turnstiles when the given threads have been created. *)
Definition turnstile_init (lwps : list Z) : tstiles :=
  TS ∅ (list_to_map (imap (λ i _, (i, turnstile_ctor)) lwps)) (list_to_map (imap (λ i l, (l, i)) lwps)).

(** ** Sleep queues *)

(** [rw_syncobj] has SOBJ_SLEEPQ_SORTED. *)
Fixpoint sleepq_insert (eprio : Z → Z) (l : Z) (sq : list Z) : list Z :=
  match sq with
  | [] => [l]
  | l2 :: tl => if eprio l2 <? eprio l then l :: sq else l2 :: sleepq_insert eprio l tl
  end.

(** ** The operations *)

Fixpoint chain_find (st : tstiles) (obj : Z) (c : list nat) : res (option nat) :=
  match c with
  | [] => mret None
  | ts :: c => r ← deref st ts; if ts_obj r =? obj then mret (Some ts) else chain_find st obj c
  end.
Definition turnstile_lookup (st : tstiles) (obj : Z) : res (option nat) :=
  chain_find st obj (chain st (TS_HASH obj)).

Definition empty {A} (l : list A) : bool := match l with [] => true | _ => false end.

Definition turnstile_block (eprio : Z → Z) (st : tstiles) (ts : option nat) (q : tsq) (obj l : Z) : res tstiles :=
  ots ← lwp_ts st l;
  '(st, ts) ← match ts with
    | None =>
      r ← deref st ots;
      kassert (TS_ALL_WAITERS r =? 0);;
      kassert (empty (sel TS_READER_Q (ts_sleepq r)) && empty (sel TS_WRITER_Q (ts_sleepq r)));;
      let st := store st ots (with_obj r obj) in
      mret (set_chain st (TS_HASH obj) (ots :: chain st (TS_HASH obj)), ots)
    | Some ts =>
      o ← deref st ots;
      kassert (bool_decide (ts_free o = None));;
      r ← deref st ts;
      let st := store st ots (with_free o (ts_free r)) in
      r ← deref st ts;
      let st := store st ts (with_free r (Some ots)) in
      let st := set_lts st l ts in
      r ← deref st ts;
      kassert (ts_obj r =? obj);;
      kassert (negb (TS_ALL_WAITERS r =? 0));;
      kassert (negb (empty (sel TS_READER_Q (ts_sleepq r))) || negb (empty (sel TS_WRITER_Q (ts_sleepq r))));;
      mret (st, ts)
    end;
  r ← deref st ts;
  mret (store st ts (with_queue r q (λ n, u32 (n + 1)) (sleepq_insert eprio l))).

(** [TAILQ_REMOVE] of a thread that is not on the queue would break the lists. *)
Definition sleepq_remove (sq : list Z) (l : Z) : res (list Z) :=
  if decide (l ∈ sq) then mret (filter (λ k, k ≠ l) sq) else Fault Corrupt.

Definition turnstile_remove (st : tstiles) (ts : nat) (l : Z) (q : tsq) : res tstiles :=
  lts ← lwp_ts st l;
  kassert (bool_decide (lts = ts));;
  r ← deref st ts;
  st ← match ts_free r with
    | Some nts =>
      kassert (TS_ALL_WAITERS r >? 1);;
      let st := set_lts st l nts in
      n ← deref st nts;
      let st := store st ts (with_free r (ts_free n)) in
      n ← deref st nts;
      mret (store st nts (with_free n None))
    | None =>
      kassert (TS_ALL_WAITERS r =? 1);;
      mret (set_chain st (TS_HASH (ts_obj r)) (filter (λ t, t ≠ ts) (chain st (TS_HASH (ts_obj r)))))
    end;
  r ← deref st ts;
  sq ← sleepq_remove (sel q (ts_sleepq r)) l;
  mret (store st ts (with_queue r q (λ n, u32 (n - 1)) (λ _, sq))).

Fixpoint wakeup_loop (count : nat) (st : tstiles) (ts : nat) (q : tsq) : res (tstiles * list Z) :=
  match count with
  | O => mret (st, [])
  | S count =>
    first ← TS_FIRST st ts q;
    match first with
    | None => Fault Panic
    | Some l =>
      st ← turnstile_remove st ts l q;
      '(st, woken) ← wakeup_loop count st ts q;
      mret (st, l :: woken)
    end
  end.

(** The threads that are woken are part of the result. *)
Definition turnstile_wakeup (st : tstiles) (ts : nat) (q : tsq) (count : Z) (nl : option Z) : res (tstiles * list Z) :=
  n ← TS_WAITERS st ts q;
  kassert ((0 <? count) && (count <=? n));;
  match nl with
  | Some l => st ← turnstile_remove st ts l q; mret (st, [l])
  | None => wakeup_loop (Z.to_nat count) st ts q
  end.

(** The turnstile of the lock at [obj]. *)
Definition turnstiles_of (obj : Z) : TurnstileOps tstiles nat := {|
  ts_lookup st := turnstile_lookup st obj;
  ts_count := TS_WAITERS;
  ts_first := TS_FIRST;
  ts_block eprio st ts q l := turnstile_block eprio st ts q obj l;
  ts_wakeup := turnstile_wakeup;
|}.
