(* ===== verification/TurnstileSpec.v ===== *)
(** * Turnstiles: what the heap of turnstiles says

    Abstractly a lock has two queues of sleeping threads, or none. In the heap
    every turnstile has one role: it belongs to a thread that is awake, it is the
    turnstile of a lock, or it waits on the free list of a lock. The operations
    keep the roles apart, and update the queues of one lock only. A sleeper takes
    its place by priority, which [placed] says without the loop of the code. *)

From S2P Require Export Prelude Turnstile.

(** The turnstile of a lock, its free list and its queues. *)
Record entry := Ent { e_ts : nat; e_free : list nat; e_rq : list Z; e_wq : list Z }.
Definition sleepers (e : entry) : list Z := e_rq e ++ e_wq e.

(** The role of a turnstile; one on a free list is counted from the end. *)
Inductive role := RLwp (l : Z) | RLock (obj : Z) | RFree (obj : Z) (k : nat).
Definition about (obj : Z) (r : role) : Prop := r = RLock obj ∨ ∃ k, r = RFree obj k.

Definition unused (r : turnstile) : Prop := ts_waiters r = (0, 0) ∧ ts_sleepq r = ([], []).

Fixpoint free_list (heap : gmap nat turnstile) (p : option nat) (fl : list nat) : Prop :=
  match fl with
  | [] => p = None
  | f :: fl => p = Some f ∧ ∃ r, heap !! f = Some r ∧ unused r ∧ free_list heap (ts_free r) fl
  end.
Fixpoint free_roles (R : nat → role) (obj : Z) (fl : list nat) : Prop :=
  match fl with [] => True | f :: fl => R f = RFree obj (length fl) ∧ free_roles R obj fl end.

Record lock_ok (st : tstiles) (R : nat → role) (obj : Z) (e : entry) : Prop := {
  lk_heap : ∃ r, ts_heap st !! e_ts e = Some r ∧ ts_obj r = obj ∧ ts_sleepq r = (e_rq e, e_wq e) ∧
    ts_waiters r = (Z.of_nat (length (e_rq e)), Z.of_nat (length (e_wq e))) ∧
    free_list (ts_heap st) (ts_free r) (e_free e);
  lk_count : (length (e_free e) + 1)%nat = length (sleepers e);
  lk_nodup : NoDup (sleepers e);
  lk_lts l : l ∈ sleepers e → l_ts st !! l = Some (e_ts e);
  lk_role : R (e_ts e) = RLock obj;
  lk_free : free_roles R obj (e_free e);
}.
Definition lwp_ok (st : tstiles) (R : nat → role) (l : Z) : Prop :=
  ∃ ts r, l_ts st !! l = Some ts ∧ R ts = RLwp l ∧ ts_heap st !! ts = Some r ∧ unused r ∧ ts_free r = None.
Definition asleep_on (A : gmap Z entry) (l obj : Z) : Prop := ∃ e, A !! obj = Some e ∧ l ∈ sleepers e.

Record tiles_ok (st : tstiles) (A : gmap Z entry) (R : nat → role) : Prop := {
  tk_lock obj e : A !! obj = Some e → lock_ok st R obj e;
  tk_lwp l : is_Some (l_ts st !! l) → (∀ obj, ¬ asleep_on A l obj) → lwp_ok st R l;
  tk_uniq l o1 o2 : asleep_on A l o1 → asleep_on A l o2 → o1 = o2;
  tk_chain h ts : ts ∈ chain st h ↔ ∃ obj e, A !! obj = Some e ∧ e_ts e = ts ∧ TS_HASH obj = h;
  tk_nodup h : NoDup (chain st h);
  tk_size : Z.of_nat (size (l_ts st)) < 2 ^ 32;
}.

(** ** What a change leaves alone *)

Lemma free_list_frame heap heap' fl : ∀ p,
  (∀ f, f ∈ fl → heap' !! f = heap !! f) → free_list heap p fl → free_list heap' p fl.
Proof.
  induction fl as [|f fl IH]; intros p Hf; simpl; [done|]. intros (->&r&Hr&?&?). split; [done|].
  exists r. rewrite Hf by (by left). split_and!; [done..|]. apply IH; [|done]. intros g Hg. apply Hf. by right.
Qed.
Lemma free_roles_elem R obj fl f : free_roles R obj fl → f ∈ fl → about obj (R f).
Proof.
  induction fl as [|g fl IH]; [set_solver|]. intros [Hg Hfl] [->|Hf]%elem_of_cons; [right; by eexists|auto].
Qed.
Lemma free_roles_frame R R' obj fl : (∀ f, f ∈ fl → R' f = R f) → free_roles R obj fl → free_roles R' obj fl.
Proof.
  induction fl as [|f fl IH]; intros Hf; simpl; [done|]. intros [Hr ?]. rewrite Hf by (by left).
  split; [done|]. apply IH; [|done]. intros g Hg. apply Hf. by right.
Qed.
Lemma lock_ok_frame st st' R R' obj e :
  lock_ok st R obj e → (∀ f, about obj (R f) → ts_heap st' !! f = ts_heap st !! f ∧ R' f = R f) →
  (∀ l, l ∈ sleepers e → l_ts st' !! l = l_ts st !! l) → lock_ok st' R' obj e.
Proof.
  intros [(r&Hr&Hobj&Hsq&Hw&Hfl) Hc Hnd Hl Hro Hfr] Hf Hlts.
  assert (Hts : about obj (R (e_ts e))) by (left; done). destruct (Hf _ Hts) as [Eh ER].
  assert (Hfree : ∀ f, f ∈ e_free e → ts_heap st' !! f = ts_heap st !! f ∧ R' f = R f).
  { intros f Hin. apply Hf. by eapply free_roles_elem. }
  split; try done.
  - exists r. rewrite Eh. split_and!; try done. eapply free_list_frame; [|done]. intros f Hin. by apply Hfree.
  - intros l Hin. rewrite Hlts by done. by apply Hl.
  - by rewrite ER.
  - eapply free_roles_frame; [|done]. intros f Hin. by apply Hfree.
Qed.
Lemma lwp_ok_frame st st' R R' l :
  lwp_ok st R l → (∀ f, R f = RLwp l → ts_heap st' !! f = ts_heap st !! f ∧ R' f = R f) →
  l_ts st' !! l = l_ts st !! l → lwp_ok st' R' l.
Proof.
  intros (ts&r&Hl&Hr&Hh&Hu&Hf) HR Hlts. destruct (HR _ Hr) as [Eh ER]. exists ts, r. by rewrite Hlts, ER, Eh.
Qed.

Lemma sleepers_bound st A R obj e : tiles_ok st A R → A !! obj = Some e → Z.of_nat (length (sleepers e)) < 2 ^ 32.
Proof.
  intros Hok He. destruct (tk_lock _ _ _ Hok _ _ He) as [_ _ Hnd Hl _ _].
  assert (Hs : list_to_set (sleepers e) ⊆@{gset Z} dom (l_ts st)).
  { intros l Hin%elem_of_list_to_set. apply elem_of_dom. rewrite Hl by done. by eexists. }
  apply subseteq_size in Hs. rewrite size_list_to_set, size_dom in Hs by done. pose proof (tk_size _ _ _ Hok). lia.
Qed.

(** ** Finding the turnstile of a lock *)

Definition found (A : gmap Z entry) (obj : Z) : option nat := e_ts <$> A !! obj.

Lemma chain_find_spec st A R obj c :
  tiles_ok st A R → (∀ ts, ts ∈ c → ∃ o e, A !! o = Some e ∧ e_ts e = ts) →
  (∀ e, A !! obj = Some e → e_ts e ∈ c) → chain_find st obj c = Ok (found A obj).
Proof.
  intros Hok Hc Hin. induction c as [|ts c IH]; simpl.
  - unfold found. destruct (A !! obj) as [e|] eqn:E; [|done]. specialize (Hin _ eq_refl). set_solver.
  - destruct (Hc ts) as (o&e&He&<-); [by left|]. pose proof (tk_lock _ _ _ Hok _ _ He) as [(r&Hr&Ho&_) _ _ _ Hro _].
    unfold deref. rewrite Hr, Ok_bind. destruct (Z.eqb_spec (ts_obj r) obj) as [E|E].
    + assert (o = obj) as -> by congruence. unfold found. by rewrite He.
    + apply IH; [intros ts' ?; apply Hc; by right|]. intros e' He'. specialize (Hin _ He').
      apply elem_of_cons in Hin as [E'|?]; [|done]. pose proof (tk_lock _ _ _ Hok _ _ He') as [_ _ _ _ Hro' _].
      rewrite E', Hro in Hro'. injection Hro' as ->. by destruct E.
Qed.
Lemma lookup_spec st A R obj : tiles_ok st A R → turnstile_lookup st obj = Ok (found A obj).
Proof.
  intros Hok. unfold turnstile_lookup. eapply chain_find_spec; [done| |].
  - intros ts Hts. apply (tk_chain _ _ _ Hok) in Hts as (o&e&?&?&_). eauto.
  - intros e He. apply (tk_chain _ _ _ Hok). eauto.
Qed.

(** ** Going to sleep *)

Lemma sleepq_insert_perm eprio l sq : sleepq_insert eprio l sq ≡ₚ l :: sq.
Proof.
  induction sq as [|k sq IH]; simpl; [done|]. case_match; [done|]. rewrite IH. apply Permutation_swap.
Qed.

Lemma deref_lookup st ts r : ts_heap st !! ts = Some r → deref st ts = Ok r.
Proof. unfold deref. by intros ->. Qed.
Lemma deref_store st ts r : deref (store st ts r) ts = Ok r.
Proof. apply deref_lookup. simpl. apply lookup_insert_eq. Qed.
Lemma deref_store_ne st ts u r : u ≠ ts → deref (store st ts r) u = deref st u.
Proof. intros Hne. unfold deref. simpl. by rewrite lookup_insert_ne. Qed.
Lemma deref_set_lts st l ts u : deref (set_lts st l ts) u = deref st u.
Proof. done. Qed.
Lemma deref_set_chain st h c u : deref (set_chain st h c) u = deref st u.
Proof. done. Qed.
Lemma kassert_true (k : unit → res tstiles) b : b = true → (kassert b ≫= k) = k ().
Proof. by intros ->. Qed.

Definition slept (eprio : Z → Z) (l : Z) (q : tsq) (r : turnstile) : turnstile :=
  with_queue r q (λ n, u32 (n + 1)) (sleepq_insert eprio l).

Lemma block_none eprio st q obj l ots r :
  l_ts st !! l = Some ots → ts_heap st !! ots = Some r → unused r →
  turnstile_block eprio st None q obj l =
  Ok (TS (<[TS_HASH obj := ots :: chain st (TS_HASH obj)]> (turnstile_tab st))
        (<[ots := slept eprio l q (with_obj r obj)]> (ts_heap st)) (l_ts st)).
Proof.
  intros Hl Hr [Hw Hq]. unfold turnstile_block, lwp_ts. rewrite Hl, Ok_bind, (deref_lookup _ _ _ Hr), Ok_bind.
  unfold TS_ALL_WAITERS. rewrite Hw, Hq. cbv zeta. cbn [sel fst snd empty andb]. change (u32 (0 + 0) =? 0) with true.
  unfold kassert. rewrite !Ok_bind, deref_set_chain, deref_store, Ok_bind. unfold store, set_chain; simpl.
  by rewrite insert_insert_eq.
Qed.
Lemma block_some eprio st q obj l ots o ts r :
  l_ts st !! l = Some ots → ts_heap st !! ots = Some o → ts_free o = None → ots ≠ ts →
  ts_heap st !! ts = Some r → ts_obj r = obj → u32 ((ts_waiters r).1 + (ts_waiters r).2) ≠ 0 →
  ts_sleepq r ≠ ([], []) →
  turnstile_block eprio st (Some ts) q obj l =
  Ok (TS (turnstile_tab st)
        (<[ts := slept eprio l q (with_free r (Some ots))]> (<[ots := with_free o (ts_free r)]> (ts_heap st)))
        (<[l := ts]> (l_ts st))).
Proof.
  intros Hl Ho Hof Hne Hr Hobj Hw Hq. unfold turnstile_block, lwp_ts. rewrite Hl, Ok_bind, (deref_lookup _ _ _ Ho), Ok_bind.
  unfold kassert. rewrite bool_decide_true by done. cbn iota. rewrite Ok_bind, (deref_lookup _ _ _ Hr), Ok_bind. cbv zeta.
  rewrite deref_store_ne, (deref_lookup _ _ _ Hr), Ok_bind by done.
  rewrite deref_set_lts, deref_store, Ok_bind. change (ts_obj (with_free r (Some ots))) with (ts_obj r).
  rewrite Hobj, Z.eqb_refl. unfold TS_ALL_WAITERS. cbn [sel with_free ts_waiters ts_sleepq]. rewrite Ok_bind.
  rewrite (proj2 (Z.eqb_neq _ _) Hw). cbn [negb]. rewrite Ok_bind.
  assert (negb (empty (ts_sleepq r).1) || negb (empty (ts_sleepq r).2) = true) as ->.
  { destruct (ts_sleepq r) as [[|? ?] [|? ?]]; done. }
  rewrite !Ok_bind, deref_set_lts, deref_store, Ok_bind. unfold store, set_lts; simpl. by rewrite insert_insert_eq.
Qed.

Definition queue (A : gmap Z entry) (obj : Z) (q : tsq) : list Z :=
  match A !! obj with Some e => sel q (e_rq e, e_wq e) | None => [] end.
Definition push (eprio : Z → Z) (l : Z) (q : tsq) (e : entry) (ts : nat) (fl : list nat) : entry :=
  match q with
  | TS_READER_Q => Ent ts fl (sleepq_insert eprio l (e_rq e)) (e_wq e)
  | TS_WRITER_Q => Ent ts fl (e_rq e) (sleepq_insert eprio l (e_wq e))
  end.
Lemma push_sleepers eprio l q e ts fl : sleepers (push eprio l q e ts fl) ≡ₚ l :: sleepers e.
Proof.
  destruct q; unfold sleepers; simpl; rewrite sleepq_insert_perm; [done|]. symmetry. apply Permutation_middle.
Qed.
Lemma slept_sleepq eprio l q r e ts fl :
  ts_sleepq r = (e_rq e, e_wq e) → ts_waiters r = (Z.of_nat (length (e_rq e)), Z.of_nat (length (e_wq e))) →
  Z.of_nat (length (sleepers e)) + 1 < 2 ^ 32 →
  ts_sleepq (slept eprio l q r) = (e_rq (push eprio l q e ts fl), e_wq (push eprio l q e ts fl)) ∧
  ts_waiters (slept eprio l q r) =
    (Z.of_nat (length (e_rq (push eprio l q e ts fl))), Z.of_nat (length (e_wq (push eprio l q e ts fl)))).
Proof.
  intros Hq Hw Hb. unfold slept, with_queue, sleepers in *. rewrite length_app in Hb. simpl. rewrite Hq, Hw.
  destruct q; simpl; (split; [done|]); rewrite sleepq_insert_perm, u32_small by (unfold is_u32; lia); simpl; f_equal; lia.
Qed.

Lemma asleep_on_insert A obj e l o :
  asleep_on (<[obj := e]> A) l o ↔ (o = obj ∧ l ∈ sleepers e) ∨ (o ≠ obj ∧ asleep_on A l o).
Proof.
  unfold asleep_on. destruct (decide (o = obj)) as [->|Hne].
  - rewrite lookup_insert_eq. naive_solver.
  - rewrite lookup_insert_ne by done. naive_solver.
Qed.

(** ** A change that concerns one lock and one thread *)

Definition role_eq_dec (r1 r2 : role) : {r1 = r2} + {r1 ≠ r2}.
Proof. solve_decision. Defined.
#[export] Instance role_dec : EqDecision role := role_eq_dec.

Lemma about_inj o1 o2 r : about o1 r → about o2 r → o1 = o2.
Proof. intros [->|[? ->]] [E|[? E]]; congruence. Qed.
Lemma about_lwp o l : ¬ about o (RLwp l).
Proof. intros [?|[? ?]]; done. Qed.

Lemma tiles_change st A R obj l st' A' R' :
  tiles_ok st A R →
  (∀ o, o ≠ obj → A' !! o = A !! o) →
  (∀ f, ¬ about obj (R f) → R f ≠ RLwp l → ts_heap st' !! f = ts_heap st !! f ∧ R' f = R f) →
  (∀ k, k ≠ l → l_ts st' !! k = l_ts st !! k) → size (l_ts st') = size (l_ts st) →
  (∀ o, o ≠ obj → ¬ asleep_on A l o) → (∀ k, k ≠ l → asleep_on A' k obj ↔ asleep_on A k obj) →
  (∀ e, A' !! obj = Some e → lock_ok st' R' obj e) →
  (¬ asleep_on A' l obj → lwp_ok st' R' l) →
  (∀ h ts, ts ∈ chain st' h ↔ ∃ o e, A' !! o = Some e ∧ e_ts e = ts ∧ TS_HASH o = h) →
  (∀ h, NoDup (chain st' h)) →
  tiles_ok st' A' R'.
Proof.
  intros Hok HA Hf Hlts Hsz Hl Hk Hlock Hlwp Hch Hnd.
  assert (Has : ∀ k o, o ≠ obj → asleep_on A' k o ↔ asleep_on A k o) by (intros k o Ho; unfold asleep_on; by rewrite HA).
  split; [| | |done|done|rewrite Hsz; apply Hok].
  - intros o e He. destruct (decide (o = obj)) as [->|Hne]; [by apply Hlock|]. rewrite HA in He by done.
    eapply lock_ok_frame; [by apply (tk_lock _ _ _ Hok)| |].
    + intros f Hab. apply Hf; [|intros E; rewrite E in Hab; by eapply about_lwp].
      intros Hab'. by destruct Hne; eapply about_inj.
    + intros k Hin. apply Hlts. intros ->. apply (Hl _ Hne). by exists e.
  - intros k Hs Hno. destruct (decide (k = l)) as [->|Hne]; [by apply Hlwp|]. rewrite Hlts in Hs by done.
    eapply lwp_ok_frame; [apply (tk_lwp _ _ _ Hok); [done|]| |by apply Hlts].
    + intros o. destruct (decide (o = obj)) as [->|Ho]; [rewrite <- Hk by done|rewrite <- Has by done]; apply Hno.
    + intros f E. apply Hf; rewrite E; [apply about_lwp|congruence].
  - intros k o1 o2 H1 H2. destruct (decide (k = l)) as [->|Hne].
    { destruct (decide (o1 = obj)) as [->|Ho1]; [|by rewrite Has in H1 by done; edestruct Hl].
      destruct (decide (o2 = obj)) as [->|Ho2]; [done|]. by rewrite Has in H2 by done; edestruct Hl. }
    apply (tk_uniq _ _ _ Hok k).
    + destruct (decide (o1 = obj)) as [->|?]; [by apply Hk|by apply Has].
    + destruct (decide (o2 = obj)) as [->|?]; [by apply Hk|by apply Has].
Qed.

Lemma size_insert_present {V} (m : gmap Z V) k v : is_Some (m !! k) → size (<[k := v]> m) = size m.
Proof. intros Hs. rewrite <- !size_dom. by rewrite dom_insert_lookup_L. Qed.

Lemma chain_set st h c h' heap lts :
  chain (TS (<[h := c]> (turnstile_tab st)) heap lts) h' = if decide (h' = h) then c else chain st h'.
Proof.
  unfold chain; simpl. destruct (decide (h' = h)) as [->|?]; [by rewrite lookup_insert_eq|by rewrite lookup_insert_ne].
Qed.

(** ** Going to sleep keeps the roles *)

Definition with_role (R : nat → role) (ts : nat) (r : role) : nat → role := λ f, if decide (f = ts) then r else R f.
Lemma with_role_eq R ts r : with_role R ts r ts = r.
Proof. unfold with_role. by rewrite decide_True. Qed.
Lemma with_role_ne R ts r f : f ≠ ts → with_role R ts r f = R f.
Proof. intros. unfold with_role. by rewrite decide_False. Qed.

Lemma not_free_role R obj fl f : free_roles R obj fl → ¬ about obj (R f) → f ∉ fl.
Proof. intros Hfr Hab Hin. by eapply Hab, free_roles_elem. Qed.

Lemma block_first eprio st A R q obj l ots r :
  tiles_ok st A R → A !! obj = None → l_ts st !! l = Some ots → R ots = RLwp l →
  ts_heap st !! ots = Some r → unused r → ts_free r = None → (∀ o, ¬ asleep_on A l o) →
  ∃ st', turnstile_block eprio st None q obj l = Ok st' ∧ dom (l_ts st') = dom (l_ts st) ∧
    tiles_ok st' (<[obj := push eprio l q (Ent ots [] [] []) ots []]> A) (with_role R ots (RLock obj)).
Proof.
  intros Hok HA Hl HR Hr Hu Hf Has. rewrite (block_none _ _ _ _ _ ots r) by done. eexists; split; [done|]; split; [done|].
  set (e := push _ _ _ _ _ _). assert (Hs : sleepers e ≡ₚ [l]) by (subst e; by rewrite push_sleepers).
  assert (He : e_ts e = ots ∧ e_free e = []) by (by subst e; destruct q). destruct He as [Hets Hef].
  assert (Hnk : ∀ o e', A !! o = Some e' → e_ts e' ≠ ots).
  { intros o e' Ho E. pose proof (lk_role _ _ _ _ (tk_lock _ _ _ Hok _ _ Ho)). congruence. }
  eapply (tiles_change st A R obj l); try done.
  - intros o Ho. by rewrite lookup_insert_ne.
  - intros f _ Hne. assert (f ≠ ots) by congruence. simpl. by rewrite lookup_insert_ne, with_role_ne.
  - intros k Hk. rewrite asleep_on_insert. split.
    + intros [[_ Hin]|[? _]]; [|done]. rewrite Hs in Hin. set_solver.
    + intros (e'&E&_). congruence.
  - intros e' E. rewrite lookup_insert_eq in E. injection E as <-.
    destruct (slept_sleepq eprio l q (with_obj r obj) (Ent ots [] [] []) ots []) as [Hq Hw].
    { simpl. by destruct Hu as [_ ->]. } { simpl. by destruct Hu as [-> _]. } { simpl. lia. }
    split; rewrite ?Hets, ?Hef; simpl.
    + rewrite lookup_insert_eq. eexists. split_and!; [done|done|done|done|by simpl].
    + by rewrite Hs.
    + rewrite Hs. apply NoDup_singleton.
    + intros k Hk. rewrite Hs in Hk. apply list_elem_of_singleton in Hk as ->. done.
    + apply with_role_eq.
    + done.
  - intros Hno. destruct Hno. exists e. rewrite lookup_insert_eq, Hs. split; [done|by left].
  - intros h ts. rewrite chain_set. split.
    + destruct (decide (h = TS_HASH obj)) as [->|Hh].
      * intros [->|Hin]%elem_of_cons; [exists obj, e; by rewrite lookup_insert_eq|].
        apply (tk_chain _ _ _ Hok) in Hin as (o&e'&Ho&?&?). exists o, e'.
        by rewrite lookup_insert_ne by congruence.
      * intros Hin. apply (tk_chain _ _ _ Hok) in Hin as (o&e'&Ho&?&?). exists o, e'.
        by rewrite lookup_insert_ne by congruence.
    + intros (o&e'&Ho&<-&<-). destruct (decide (o = obj)) as [->|Hne].
      * rewrite lookup_insert_eq in Ho. injection Ho as <-. rewrite decide_True, Hets by done. by left.
      * rewrite lookup_insert_ne in Ho by done.
        assert (e_ts e' ∈ chain st (TS_HASH o)) by (apply (tk_chain _ _ _ Hok); by exists o, e').
        case_decide as E; [|done]. right. by rewrite <- E.
  - intros h. rewrite chain_set. case_decide; [|apply Hok]. constructor; [|apply Hok].
    intros Hin. apply (tk_chain _ _ _ Hok) in Hin as (o&e'&Ho&E&_). by eapply Hnk.
Qed.

Lemma block_more eprio st A R q obj l ots o e :
  tiles_ok st A R → A !! obj = Some e → l_ts st !! l = Some ots → R ots = RLwp l →
  ts_heap st !! ots = Some o → unused o → ts_free o = None → (∀ b, ¬ asleep_on A l b) →
  ∃ st', turnstile_block eprio st (Some (e_ts e)) q obj l = Ok st' ∧ dom (l_ts st') = dom (l_ts st) ∧
    tiles_ok st' (<[obj := push eprio l q e (e_ts e) (ots :: e_free e)]> A)
      (with_role R ots (RFree obj (length (e_free e)))).
Proof.
  intros Hok HA Hl HR Ho Hu Hf Has.
  destruct (tk_lock _ _ _ Hok _ _ HA) as [(r&Hr&Hobj&Hsq&Hw&Hfl) Hc Hnd Hlts Hro Hfr].
  pose proof (sleepers_bound _ _ _ _ _ Hok HA) as Hb.
  assert (Hne : ots ≠ e_ts e) by congruence.
  assert (Hb' : Z.of_nat (length (sleepers e)) + 1 < 2 ^ 32).
  { assert (Hs : list_to_set (l :: sleepers e) ⊆@{gset Z} dom (l_ts st)).
    { intros k [->|Hin]%elem_of_list_to_set%elem_of_cons; apply elem_of_dom; [by rewrite Hl|].
      rewrite Hlts by done. by eexists. }
    apply subseteq_size in Hs. rewrite size_list_to_set, size_dom in Hs.
    - pose proof (tk_size _ _ _ Hok). simpl in Hs. lia.
    - constructor; [|done]. intros Hin. apply (Has obj). by exists e. }
  assert (Hl1 : (1 ≤ length (sleepers e))%nat) by lia. unfold sleepers in Hl1, Hb, Hb'. rewrite length_app in *.
  rewrite (block_some _ _ _ _ _ ots o _ r); [|done..| |].
  2: { rewrite Hw. simpl. rewrite u32_small by (unfold is_u32; lia). lia. }
  2: { rewrite Hsq. intros [= E1 E2]. rewrite E1, E2 in Hl1. simpl in Hl1. lia. }
  eexists; split; [done|]; split; [simpl; by rewrite dom_insert_lookup_L; [|rewrite Hl]|]. set (e' := push _ _ _ _ _ _).
  assert (Hs : sleepers e' ≡ₚ l :: sleepers e) by apply push_sleepers.
  assert (He' : e_ts e' = e_ts e ∧ e_free e' = ots :: e_free e) by (by subst e'; destruct q). destruct He' as [Hets Hef].
  assert (Hnf : ots ∉ e_free e).
  { eapply not_free_role; [done|]. rewrite HR. apply about_lwp. }
  assert (Htf : e_ts e ∉ e_free e).
  { intros Hin. clear -Hro Hfr Hin. revert Hfr. induction (e_free e) as [|g fl IH]; [set_solver|].
    intros [Hg Hfl]. apply elem_of_cons in Hin as [Hin|Hin]; [congruence|by apply IH]. }
  eapply (tiles_change st A R obj l); try done.
  - intros b Hb0. by rewrite lookup_insert_ne.
  - intros f Hab Hnl. assert (f ≠ ots) by congruence.
    assert (f ≠ e_ts e) by (intros ->; apply Hab; by left). simpl. by rewrite !lookup_insert_ne, with_role_ne.
  - intros k Hk. simpl. by rewrite lookup_insert_ne.
  - simpl. apply size_insert_present. by rewrite Hl.
  - intros k Hk. rewrite asleep_on_insert. unfold asleep_on. rewrite Hs, HA. set_solver.
  - intros e2 E. rewrite lookup_insert_eq in E. injection E as <-.
    destruct (slept_sleepq eprio l q (with_free r (Some ots)) e (e_ts e) (ots :: e_free e)) as [Hq' Hw'];
      [done|done|unfold sleepers; rewrite length_app; lia|].
    split; rewrite ?Hets, ?Hef; simpl.
    + rewrite lookup_insert_eq. eexists. split_and!; [done|done|done|done|done|].
      exists (with_free o (ts_free r)). rewrite lookup_insert_ne, lookup_insert_eq by done. split_and!; [done|apply Hu..|].
      eapply free_list_frame; [|apply Hfl]. intros f Hin. rewrite !lookup_insert_ne; [done|set_solver..].
    + rewrite Hs. simpl. lia.
    + rewrite Hs. constructor; [|done]. intros Hin. apply (Has obj). by exists e.
    + intros k Hk. rewrite Hs in Hk. apply elem_of_cons in Hk as [->|Hk]; [by rewrite lookup_insert_eq|].
      rewrite lookup_insert_ne; [by apply Hlts|]. intros ->. apply (Has obj). by exists e.
    + by rewrite with_role_ne.
    + rewrite with_role_eq. split; [done|]. eapply free_roles_frame; [|done].
      intros f Hin. apply with_role_ne. set_solver.
  - intros Hno. destruct Hno. exists e'. rewrite lookup_insert_eq, Hs. split; [done|by left].
  - intros h ts. change (chain (TS _ _ _) h) with (chain st h). rewrite (tk_chain _ _ _ Hok). split.
    + intros (b&e2&Hb2&?&?). destruct (decide (b = obj)) as [->|?].
      * exists obj, e'. rewrite lookup_insert_eq. split_and!; congruence.
      * exists b, e2. by rewrite lookup_insert_ne.
    + intros (b&e2&Hb2&?&?). destruct (decide (b = obj)) as [->|?].
      * rewrite lookup_insert_eq in Hb2. exists obj, e. split_and!; congruence.
      * exists b, e2. by rewrite lookup_insert_ne in Hb2.
  - intros h. apply (tk_nodup _ _ _ Hok).
Qed.

(** ** Waking a thread *)

(** The queues of a lock without one thread. *)
Definition without (l : Z) (e : entry) (fl : list nat) : entry :=
  Ent (e_ts e) fl (filter (λ k, k ≠ l) (e_rq e)) (filter (λ k, k ≠ l) (e_wq e)).

Lemma without_sleepers l e fl : sleepers (without l e fl) = filter (λ k, k ≠ l) (sleepers e).
Proof. unfold sleepers, without; simpl. by rewrite filter_app. Qed.

Lemma remove_more st ts l q r nts n :
  l_ts st !! l = Some ts → ts_heap st !! ts = Some r → ts_free r = Some nts → nts ≠ ts →
  ts_heap st !! nts = Some n → TS_ALL_WAITERS r > 1 → l ∈ sel q (ts_sleepq r) →
  turnstile_remove st ts l q =
  Ok (TS (turnstile_tab st)
    (<[ts := with_queue (with_free r (ts_free n)) q (λ n, u32 (n - 1)) (λ sq, filter (λ k, k ≠ l) (sel q (ts_sleepq r)))]>
       (<[nts := with_free n None]> (<[ts := with_free r (ts_free n)]> (ts_heap st))))
    (<[l := nts]> (l_ts st))).
Proof.
  intros Hl Hr Hf Hne Hn Hw Hin. unfold turnstile_remove, lwp_ts. rewrite Hl, Ok_bind.
  rewrite kassert_true, (deref_lookup _ _ _ Hr), Ok_bind, Hf by (by rewrite bool_decide_true).
  rewrite kassert_true by lia. cbv zeta.
  rewrite deref_set_lts, (deref_lookup _ _ _ Hn), Ok_bind.
  rewrite deref_store_ne, deref_set_lts, (deref_lookup _ _ _ Hn), !Ok_bind by done.
  rewrite deref_store_ne, deref_store, Ok_bind by congruence. unfold sleepq_remove.
  change (ts_sleepq (with_free r (ts_free n))) with (ts_sleepq r). rewrite decide_True by done. done.
Qed.
Lemma remove_last st ts l q r :
  l_ts st !! l = Some ts → ts_heap st !! ts = Some r → ts_free r = None →
  TS_ALL_WAITERS r = 1 → l ∈ sel q (ts_sleepq r) →
  turnstile_remove st ts l q =
  Ok (TS (<[TS_HASH (ts_obj r) := filter (λ t, t ≠ ts) (chain st (TS_HASH (ts_obj r)))]> (turnstile_tab st))
    (<[ts := with_queue r q (λ n, u32 (n - 1)) (λ sq, filter (λ k, k ≠ l) (sel q (ts_sleepq r)))]> (ts_heap st))
    (l_ts st)).
Proof.
  intros Hl Hr Hf Hw Hin. unfold turnstile_remove, lwp_ts. rewrite Hl, Ok_bind.
  rewrite kassert_true, (deref_lookup _ _ _ Hr), Ok_bind, Hf by (by rewrite bool_decide_true).
  rewrite kassert_true by lia. rewrite !Ok_bind, deref_set_chain, (deref_lookup _ _ _ Hr), Ok_bind. unfold sleepq_remove.
  by rewrite decide_True.
Qed.

Definition shrunk (l : Z) (q : tsq) (r : turnstile) : turnstile :=
  with_queue r q (λ n, u32 (n - 1)) (λ _, filter (λ k, k ≠ l) (sel q (ts_sleepq r))).

Lemma shrunk_queues l q r e fl :
  ts_sleepq r = (e_rq e, e_wq e) → ts_waiters r = (Z.of_nat (length (e_rq e)), Z.of_nat (length (e_wq e))) →
  NoDup (sleepers e) → l ∈ sel q (e_rq e, e_wq e) → Z.of_nat (length (sleepers e)) < 2 ^ 32 →
  ts_sleepq (shrunk l q r) = (e_rq (without l e fl), e_wq (without l e fl)) ∧
  ts_waiters (shrunk l q r) = (Z.of_nat (length (e_rq (without l e fl))), Z.of_nat (length (e_wq (without l e fl)))).
Proof.
  intros Hq Hw Hnd Hin Hb. unfold sleepers in Hnd, Hb. rewrite length_app in Hb.
  apply NoDup_app in Hnd as (Hr&Hd&Hwq). unfold shrunk, with_queue, without. rewrite Hq, Hw.
  destruct q; cbn [sel upd fst snd ts_sleepq ts_waiters e_rq e_wq] in *.
  - assert (Hno : l ∉ e_wq e) by auto. rewrite (filter_ne_notin l (e_wq e)) by done. split; [done|]. f_equal.
    pose proof (Permutation_length (filter_ne_perm _ _ Hr Hin)) as E. simpl in E.
    rewrite u32_small by (unfold is_u32; lia). lia.
  - assert (Hno : l ∉ e_rq e) by (intros ?; by eapply Hd). rewrite (filter_ne_notin l (e_rq e)) by done.
    split; [done|]. f_equal. pose proof (Permutation_length (filter_ne_perm _ _ Hwq Hin)) as E. simpl in E.
    rewrite u32_small by (unfold is_u32; lia). lia.
Qed.

Lemma asleep_without A A' obj e fl l k :
  A !! obj = Some e → A' !! obj = Some (without l e fl) → k ≠ l → asleep_on A' k obj ↔ asleep_on A k obj.
Proof.
  intros HA HA' Hk. unfold asleep_on. rewrite HA, HA'. split; intros (e'&[= <-]&Hin); eexists; (split; [done|]).
  - rewrite without_sleepers, list_elem_of_filter in Hin. tauto.
  - rewrite without_sleepers, list_elem_of_filter. tauto.
Qed.

Lemma wake_more st A R l q obj e nts fl :
  tiles_ok st A R → A !! obj = Some e → e_free e = nts :: fl → l ∈ sel q (e_rq e, e_wq e) →
  ∃ st', turnstile_remove st (e_ts e) l q = Ok st' ∧ dom (l_ts st') = dom (l_ts st) ∧
    tiles_ok st' (<[obj := without l e fl]> A) (with_role R nts (RLwp l)).
Proof.
  intros Hok HA Hef Hin. pose proof (sleepers_bound _ _ _ _ _ Hok HA) as Hb.
  destruct (tk_lock _ _ _ Hok _ _ HA) as [(r&Hr&Hobj&Hsq&Hw&Hfl) Hc Hnd Hlts Hro Hfr].
  rewrite Hef in Hfl, Hfr, Hc. destruct Hfl as (Hrf&n&Hn&Hu&Hfl), Hfr as [HRn Hfr].
  assert (Hne : nts ≠ e_ts e) by congruence.
  assert (Hls : l ∈ sleepers e) by (unfold sleepers; destruct q; set_solver).
  assert (Hall : TS_ALL_WAITERS r = Z.of_nat (length (sleepers e))).
  { unfold TS_ALL_WAITERS. rewrite Hw. unfold sleepers in *. rewrite length_app in *. simpl.
    rewrite u32_small by (unfold is_u32; lia). lia. }
  rewrite (remove_more _ _ _ _ r nts n); [|by apply Hlts|done..|simpl in Hc; lia|by rewrite Hsq].
  eexists; split; [done|]; split; [simpl; by rewrite dom_insert_lookup_L; [|rewrite Hlts by done]|].
  destruct (shrunk_queues l q (with_free r (ts_free n)) e fl) as [Hq' Hw']; [done..|].
  assert (Hnots : ∀ f, f ∈ fl → f ≠ e_ts e ∧ f ≠ nts).
  { intros f Hf. split; intros ->.
    - clear -Hro Hfr Hf. revert Hfr. induction fl as [|g fl IH]; [set_solver|].
      intros [Hg Hfl]. apply elem_of_cons in Hf as [Hf|Hf]; [congruence|by apply IH].
    - assert (Hk : ∀ m, (length fl ≤ m)%nat → R nts ≠ RFree obj m); [|by eapply Hk].
      clear -Hfr Hf. revert Hfr. induction fl as [|g fl IH]; [set_solver|]. intros [Hg Hfl] m Hm.
      apply elem_of_cons in Hf as [->|Hf]; [rewrite Hg; simpl in *; intros [= E]; lia|]. apply IH; [done..|simpl in Hm; lia]. }
  eapply (tiles_change st A R obj l); try done.
  - intros b Hb0. by rewrite lookup_insert_ne.
  - intros f Hab Hnl. assert (f ≠ nts) by (intros ->; apply Hab; right; by eexists).
    assert (f ≠ e_ts e) by (intros ->; apply Hab; by left). simpl. by rewrite !lookup_insert_ne, with_role_ne.
  - intros k Hk. simpl. by rewrite lookup_insert_ne.
  - simpl. apply size_insert_present. by rewrite Hlts.
  - intros b Hb0 Has. apply Hb0. apply (tk_uniq _ _ _ Hok l); [done|by exists e].
  - intros k Hk. eapply asleep_without; [done| |done]. apply lookup_insert_eq.
  - intros e2 E. rewrite lookup_insert_eq in E. injection E as <-. split; simpl.
    + rewrite lookup_insert_eq. eexists. split_and!; [done|done|done|done|].
      eapply free_list_frame; [|done]. intros f Hf. destruct (Hnots _ Hf). by rewrite !lookup_insert_ne.
    + rewrite without_sleepers. pose proof (Permutation_length (filter_ne_perm _ _ Hnd Hls)) as E. simpl in E, Hc. lia.
    + rewrite without_sleepers. by apply NoDup_filter.
    + intros k Hk. rewrite without_sleepers, list_elem_of_filter in Hk. destruct Hk as [Hk ?].
      rewrite lookup_insert_ne by done. by apply Hlts.
    + by rewrite with_role_ne.
    + eapply free_roles_frame; [|done]. intros f Hf. apply with_role_ne. by apply Hnots.
  - intros _. exists nts, (with_free n None). simpl. rewrite !lookup_insert_eq, lookup_insert_ne, lookup_insert_eq by done.
    split_and!; [done|apply with_role_eq|done|apply Hu..|done].
  - intros h ts. change (chain (TS _ _ _) h) with (chain st h). rewrite (tk_chain _ _ _ Hok). split.
    + intros (b&e2&Hb2&?&?). destruct (decide (b = obj)) as [->|?].
      * exists obj, (without l e fl). rewrite lookup_insert_eq. split_and!; simpl; congruence.
      * exists b, e2. by rewrite lookup_insert_ne.
    + intros (b&e2&Hb2&?&?). destruct (decide (b = obj)) as [->|?].
      * rewrite lookup_insert_eq in Hb2. injection Hb2 as <-. exists obj, e. split_and!; simpl in *; congruence.
      * exists b, e2. by rewrite lookup_insert_ne in Hb2.
  - intros h. apply (tk_nodup _ _ _ Hok).
Qed.

Lemma wake_last st A R l q obj e :
  tiles_ok st A R → A !! obj = Some e → e_free e = [] → l ∈ sel q (e_rq e, e_wq e) →
  ∃ st', turnstile_remove st (e_ts e) l q = Ok st' ∧ dom (l_ts st') = dom (l_ts st) ∧
    tiles_ok st' (delete obj A) (with_role R (e_ts e) (RLwp l)).
Proof.
  intros Hok HA Hef Hin. pose proof (sleepers_bound _ _ _ _ _ Hok HA) as Hb.
  destruct (tk_lock _ _ _ Hok _ _ HA) as [(r&Hr&Hobj&Hsq&Hw&Hfl) Hc Hnd Hlts Hro Hfr].
  rewrite Hef in Hfl, Hc. simpl in Hfl, Hc.
  assert (Hls : sleepers e = [l]).
  { assert (H : l ∈ sleepers e) by (unfold sleepers; destruct q; set_solver).
    destruct (sleepers e) as [|k [|? ?]]; simpl in Hc; [lia| |lia]. apply list_elem_of_singleton in H. by subst. }
  assert (Hall : TS_ALL_WAITERS r = 1).
  { unfold TS_ALL_WAITERS. rewrite Hw. unfold sleepers in *. rewrite length_app in Hc. simpl.
    rewrite u32_small by (unfold is_u32; lia). lia. }
  rewrite (remove_last _ _ _ _ r); [|apply Hlts; rewrite Hls; by left|done..|by rewrite Hsq].
  eexists; split; [done|]; split; [done|].
  destruct (shrunk_queues l q r e []) as [Hq' Hw']; [done..|].
  assert (Hdrop : e_rq (without l e []) = [] ∧ e_wq (without l e []) = []).
  { assert (E : sleepers (without l e []) = []) by (rewrite without_sleepers, Hls, filter_cons, decide_False; auto).
    unfold sleepers in E. by apply app_eq_nil in E. }
  destruct Hdrop as [Hdr Hdw]. rewrite Hdr, Hdw in Hq', Hw'.
  eapply (tiles_change st A R obj l); try done.
  - intros b Hb0. by rewrite lookup_delete_ne.
  - intros f Hab Hnl. assert (f ≠ e_ts e) by (intros ->; apply Hab; by left). simpl. by rewrite lookup_insert_ne, with_role_ne.
  - intros b Hb0 Has. apply Hb0. apply (tk_uniq _ _ _ Hok l); [done|]. exists e. rewrite Hls. split; [done|by left].
  - intros k Hk. unfold asleep_on. rewrite lookup_delete_eq, HA. split; [naive_solver|].
    intros (?&[= <-]&Hin'). rewrite Hls in Hin'. set_solver.
  - intros e2 E. by rewrite lookup_delete_eq in E.
  - intros _. exists (e_ts e), (shrunk l q r). simpl. rewrite lookup_insert_eq.
    split_and!; [apply Hlts; rewrite Hls; by left|apply with_role_eq|done|by split|done].
  - intros h ts. rewrite chain_set, Hobj. split.
    + intros Hts. assert (ts ∈ chain st h ∧ (h = TS_HASH obj → ts ≠ e_ts e)) as [Hch Hne].
      { case_decide as E; [|done]. apply list_elem_of_filter in Hts as [? ?]. by subst. }
      apply (tk_chain _ _ _ Hok) in Hch as (b&e2&Hb2&<-&<-). exists b, e2. split_and!; try done.
      rewrite lookup_delete_ne; [done|]. intros <-. by apply Hne; [done|]; simplify_eq.
    + intros (b&e2&Hb2&<-&<-). apply lookup_delete_Some in Hb2 as [Hne Hb2].
      assert (e_ts e2 ∈ chain st (TS_HASH b)) by (apply (tk_chain _ _ _ Hok); eauto).
      case_decide as E; [|done]. apply list_elem_of_filter. rewrite <- E. split; [|done]. intros Et.
      pose proof (lk_role _ _ _ _ (tk_lock _ _ _ Hok _ _ Hb2)) as HR. rewrite Et, Hro in HR. congruence.
  - intros h. rewrite chain_set. case_decide; [|apply Hok]. apply NoDup_filter, Hok.
Qed.

(** What one wake-up does to the abstract lock. *)
Definition wake_one (l : Z) (e : entry) : option entry :=
  match e_free e with [] => None | _ :: fl => Some (without l e fl) end.
Definition set_entry (A : gmap Z entry) (obj : Z) (e : option entry) : gmap Z entry := partial_alter (λ _, e) obj A.

Lemma remove_spec st A R l q obj e :
  tiles_ok st A R → A !! obj = Some e → l ∈ sel q (e_rq e, e_wq e) →
  ∃ st' R', turnstile_remove st (e_ts e) l q = Ok st' ∧ dom (l_ts st') = dom (l_ts st) ∧
    tiles_ok st' (set_entry A obj (wake_one l e)) R'.
Proof.
  intros Hok HA Hin. unfold wake_one. destruct (e_free e) as [|nts fl] eqn:E.
  - destruct (wake_last _ _ _ _ _ _ _ Hok HA E Hin) as (st'&?&?&?). by eexists _, _.
  - destruct (wake_more _ _ _ _ _ _ _ _ _ Hok HA E Hin) as (st'&?&?&?). by eexists _, _.
Qed.

Lemma queue_set A obj e b q :
  queue (set_entry A obj e) b q =
  if decide (b = obj) then match e with Some e => sel q (e_rq e, e_wq e) | None => [] end else queue A b q.
Proof.
  unfold queue, set_entry. case_decide as E; [subst; by rewrite lookup_partial_alter_eq|by rewrite lookup_partial_alter_ne].
Qed.
Lemma queue_wake_one st A R obj e l q :
  tiles_ok st A R → A !! obj = Some e → l ∈ sleepers e →
  match wake_one l e with Some e => sel q (e_rq e, e_wq e) | None => [] end = filter (λ k, k ≠ l) (sel q (e_rq e, e_wq e)).
Proof.
  intros Hok HA Hin. unfold wake_one. destruct (e_free e) as [|nts fl] eqn:E; [|by destruct q].
  pose proof (lk_count _ _ _ _ (tk_lock _ _ _ Hok _ _ HA)) as Hc. rewrite E in Hc. simpl in Hc.
  assert (Hs : sleepers e = [l]).
  { destruct (sleepers e) as [|k [|? ?]]; simpl in Hc; [lia| |lia]. apply list_elem_of_singleton in Hin. by subst. }
  unfold sleepers in Hs. symmetry. destruct (e_rq e) as [|k [|? ?]], (e_wq e) as [|? [|? ?]]; simplify_eq/=;
    destruct q; simpl; rewrite ?filter_nil, ?filter_cons, ?decide_False by tauto; done.
Qed.

Lemma filter_ne_tail (l : Z) sq : NoDup (l :: sq) → filter (λ k, k ≠ l) (l :: sq) = sq.
Proof.
  intros [Hl _]%NoDup_cons. rewrite filter_cons, decide_False by tauto. by apply filter_ne_notin.
Qed.
Lemma queue_nodup st A R obj e q : tiles_ok st A R → A !! obj = Some e → NoDup (sel q (e_rq e, e_wq e)).
Proof.
  intros Hok HA. pose proof (lk_nodup _ _ _ _ (tk_lock _ _ _ Hok _ _ HA)) as Hnd.
  unfold sleepers in Hnd. apply NoDup_app in Hnd as (?&_&?). by destruct q.
Qed.
Lemma deref_sleepq st A R obj e : tiles_ok st A R → A !! obj = Some e →
  ∃ r, deref st (e_ts e) = Ok r ∧ ts_sleepq r = (e_rq e, e_wq e) ∧
    ts_waiters r = (Z.of_nat (length (e_rq e)), Z.of_nat (length (e_wq e))).
Proof.
  intros Hok HA. destruct (lk_heap _ _ _ _ (tk_lock _ _ _ Hok _ _ HA)) as (r&Hr&?&?&?&?).
  exists r. by rewrite (deref_lookup _ _ _ Hr).
Qed.

Lemma wakeup_loop_spec obj q count : ∀ st A R e,
  tiles_ok st A R → A !! obj = Some e → (count ≤ length (queue A obj q))%nat →
  ∃ st' A' R', wakeup_loop count st (e_ts e) q = Ok (st', take count (queue A obj q)) ∧
    dom (l_ts st') = dom (l_ts st) ∧ tiles_ok st' A' R' ∧ (∀ o, o ≠ obj → A' !! o = A !! o) ∧
    (∀ q', queue A' obj q' = if decide (q' = q) then drop count (queue A obj q) else queue A obj q').
Proof.
  induction count as [|count IH]; intros st A R e Hok HA Hc.
  { exists st, A, R. split_and!; try done. intros q'. case_decide; by subst. }
  assert (Hq : ∀ q', queue A obj q' = sel q' (e_rq e, e_wq e)) by (intros q'; unfold queue; by rewrite HA).
  destruct (deref_sleepq _ _ _ _ _ Hok HA) as (r&Hr&Hsq&_).
  pose proof (queue_nodup _ _ _ _ _ q Hok HA) as Hnd. rewrite Hq in *.
  destruct (sel q (e_rq e, e_wq e)) as [|l sq] eqn:Esq; [simpl in Hc; lia|].
  assert (Hin : l ∈ sel q (e_rq e, e_wq e)) by (rewrite Esq; by left).
  destruct (remove_spec _ _ _ _ _ _ _ Hok HA Hin) as (st1&R1&Hrem&Hdom&Hok1).
  assert (Hls : l ∈ sleepers e) by (unfold sleepers; destruct q; set_solver).
  assert (Hq1 : ∀ q', queue (set_entry A obj (wake_one l e)) obj q' = filter (λ k, k ≠ l) (sel q' (e_rq e, e_wq e))).
  { intros q'. rewrite queue_set, decide_True by done. by apply (queue_wake_one st A R obj). }
  assert (Hoth : ∀ q', q' ≠ q → filter (λ k, k ≠ l) (sel q' (e_rq e, e_wq e)) = sel q' (e_rq e, e_wq e)).
  { intros q' Hne. apply filter_ne_notin. pose proof (lk_nodup _ _ _ _ (tk_lock _ _ _ Hok _ _ HA)) as Hnd'.
    unfold sleepers in Hnd'. apply NoDup_app in Hnd' as (_&Hd&_). destruct q, q'; set_solver. }
  assert (Hq1q : queue (set_entry A obj (wake_one l e)) obj q = sq) by (rewrite Hq1, Esq; by apply filter_ne_tail).
  simpl. unfold TS_FIRST. rewrite Hr, !Ok_bind, Hsq, Esq. simpl. rewrite Hrem, Ok_bind.
  destruct count as [|count].
  - exists st1, (set_entry A obj (wake_one l e)), R1. split_and!; try done.
    + intros o Ho. unfold set_entry. by rewrite lookup_partial_alter_ne.
    + intros q'. rewrite Hq1. case_decide as Eq; [|rewrite Hq; by apply Hoth]. subst q'. rewrite Esq. by apply filter_ne_tail.
  - destruct (set_entry A obj (wake_one l e) !! obj) as [e1|] eqn:E1.
    2: { unfold queue in Hq1q. rewrite E1 in Hq1q. subst sq. simpl in Hc. lia. }
    assert (Ets : e_ts e1 = e_ts e).
    { unfold set_entry in E1. rewrite lookup_partial_alter_eq in E1. unfold wake_one in E1. by destruct (e_free e); simplify_eq. }
    destruct (IH _ _ _ _ Hok1 E1) as (st2&A2&R2&Hw&Hdom2&Hok2&Ho2&Hq2); [rewrite Hq1q; simpl in Hc; lia|].
    rewrite Ets in Hw. exists st2, A2, R2. rewrite Hw, Ok_bind, Hq1q. split_and!; [done|congruence|done| |].
    + intros o Ho. rewrite Ho2 by done. unfold set_entry. by rewrite lookup_partial_alter_ne.
    + intros q'. rewrite Hq2. case_decide as Eq; [by rewrite Hq1q|]. rewrite Hq1, Hq. by apply Hoth.
Qed.

(** ** The two operations on the turnstile of a lock *)

Lemma block_spec eprio st A R q obj l :
  tiles_ok st A R → is_Some (l_ts st !! l) → (∀ o, ¬ asleep_on A l o) →
  ∃ st' e' R', turnstile_block eprio st (found A obj) q obj l = Ok st' ∧ dom (l_ts st') = dom (l_ts st) ∧
    tiles_ok st' (<[obj := e']> A) R' ∧ sleepers e' ≡ₚ l :: queue A obj TS_READER_Q ++ queue A obj TS_WRITER_Q ∧
    (∀ q', sel q' (e_rq e', e_wq e') =
      if decide (q' = q) then sleepq_insert eprio l (queue A obj q) else queue A obj q').
Proof.
  intros Hok Hl Has. destruct (tk_lwp _ _ _ Hok _ Hl Has) as (ots&r&Hlts&HR&Hr&Hu&Hf). unfold found, queue.
  destruct (A !! obj) as [e|] eqn:HA; simpl.
  - destruct (block_more eprio _ _ _ q _ _ _ _ _ Hok HA Hlts HR Hr Hu Hf Has) as (st'&?&?&?).
    eexists st', _, _. split_and!; [done..|apply push_sleepers|]. intros q'. by destruct q, q'.
  - destruct (block_first eprio _ _ _ q _ _ _ _ Hok HA Hlts HR Hr Hu Hf Has) as (st'&?&?&?).
    eexists st', _, _. split_and!; [done..|by rewrite push_sleepers|]. intros q'. by destruct q, q'.
Qed.

Lemma filter_not_take (sq : list Z) n : NoDup sq → filter (λ l, l ∉ take n sq) sq = drop n sq.
Proof.
  intros Hnd. rewrite <- (take_drop n sq) in Hnd. apply NoDup_app in Hnd as (_&Hd&_).
  trans (filter (λ l, l ∉ take n sq) (take n sq ++ drop n sq)); [by rewrite take_drop|]. rewrite filter_app.
  assert (filter (λ l, l ∉ take n sq) (take n sq) = []) as ->.
  { apply elem_of_nil_inv. intros x Hx%list_elem_of_filter. tauto. }
  assert (∀ xs, (∀ x, x ∈ xs → x ∉ take n sq) → filter (λ l, l ∉ take n sq) xs = xs) as ->; [|done|set_solver].
  induction xs as [|x xs IH]; [done|]. intros Hx. rewrite filter_cons, decide_True by (apply Hx; by left).
  f_equal. apply IH. set_solver.
Qed.
Lemma wakeup_spec st A R obj e q count nl :
  tiles_ok st A R → A !! obj = Some e → 0 < count ≤ Z.of_nat (length (queue A obj q)) →
  (∀ l, nl = Some l → l ∈ queue A obj q) →
  let woken := match nl with Some l => [l] | None => take (Z.to_nat count) (queue A obj q) end in
  ∃ st' A' R', turnstile_wakeup st (e_ts e) q count nl = Ok (st', woken) ∧
    dom (l_ts st') = dom (l_ts st) ∧ tiles_ok st' A' R' ∧ (∀ o, o ≠ obj → A' !! o = A !! o) ∧
    (∀ q', queue A' obj q' = if decide (q' = q) then filter (λ l, l ∉ woken) (queue A obj q) else queue A obj q').
Proof.
  intros Hok HA Hc Hnl woken. destruct (deref_sleepq _ _ _ _ _ Hok HA) as (r&Hr&Hsq&Hw).
  assert (Hq : ∀ q', queue A obj q' = sel q' (e_rq e, e_wq e)) by (intros q'; unfold queue; by rewrite HA).
  pose proof (queue_nodup _ _ _ _ _ q Hok HA) as Hnd. rewrite <- Hq in Hnd.
  unfold turnstile_wakeup, TS_WAITERS. rewrite Hr, !Ok_bind.
  assert ((0 <? count) && (count <=? sel q (ts_waiters r)) = true) as ->.
  { rewrite Hw. rewrite Hq in Hc. destruct q; simpl in *; lia. }
  unfold kassert. rewrite Ok_bind. destruct nl as [l|].
  - destruct (remove_spec st A R l q obj e) as (st'&R'&Hrem&Hdom&Hok'); [done|done|rewrite <- Hq; by apply Hnl|].
    specialize (Hnl _ eq_refl). assert (Hls : l ∈ sleepers e) by (unfold sleepers; rewrite Hq in Hnl; destruct q; set_solver).
    rewrite Hrem, Ok_bind. eexists st', _, R'. split_and!; [done..| |].
    + intros o Ho. unfold set_entry. by rewrite lookup_partial_alter_ne.
    + intros q'. rewrite queue_set, decide_True, (queue_wake_one st A R obj), !Hq by done.
      case_decide as Eq; [subst; apply list_filter_iff; unfold woken; set_solver|].
      apply filter_ne_notin. pose proof (lk_nodup _ _ _ _ (tk_lock _ _ _ Hok _ _ HA)) as Hnd'.
      unfold sleepers in Hnd'. apply NoDup_app in Hnd' as (_&Hd&_). rewrite Hq in Hnl. destruct q, q'; set_solver.
  - destruct (wakeup_loop_spec obj q (Z.to_nat count) st A R e) as (st'&A'&R'&Hw'&Hdom&Hok'&Ho&Hq'); [done|done|lia|].
    eexists st', A', R'. split_and!; [done..|]. intros q'. rewrite Hq'. case_decide as Eq; [|done].
    symmetry. by apply filter_not_take.
Qed.

(** ** The interface of the locks *)

Definition queue_in (obj : Z) (st : tstiles) (q : tsq) : list Z :=
  match turnstile_lookup st obj with
  | Ok (Some ts) => match ts_heap st !! ts with Some r => sel q (ts_sleepq r) | None => [] end
  | _ => []
  end.
Definition awake (st : tstiles) (l : Z) : Prop :=
  is_Some (l_ts st !! l) ∧ ∀ h ts r q, ts ∈ chain st h → ts_heap st !! ts = Some r → l ∉ sel q (ts_sleepq r).

Lemma queue_in_spec st A R obj q : tiles_ok st A R → queue_in obj st q = queue A obj q.
Proof.
  intros Hok. unfold queue_in, queue. rewrite (lookup_spec _ _ _ _ Hok). unfold found.
  destruct (A !! obj) as [e|] eqn:HA; simpl; [|done].
  destruct (lk_heap _ _ _ _ (tk_lock _ _ _ Hok _ _ HA)) as (r&->&_&->&_). done.
Qed.
Lemma awake_spec st A R l : tiles_ok st A R → awake st l ↔ is_Some (l_ts st !! l) ∧ ∀ o, ¬ asleep_on A l o.
Proof.
  intros Hok. unfold awake. apply and_iff_compat_l. split.
  - intros Hno o (e&He&Hin). destruct (lk_heap _ _ _ _ (tk_lock _ _ _ Hok _ _ He)) as (r&Hr&_&Hsq&_).
    assert (Hch : e_ts e ∈ chain st (TS_HASH o)) by (apply (tk_chain _ _ _ Hok); eauto).
    unfold sleepers in Hin. apply elem_of_app in Hin as [Hin|Hin];
      [apply (Hno _ _ _ TS_READER_Q Hch Hr)|apply (Hno _ _ _ TS_WRITER_Q Hch Hr)]; by rewrite Hsq.
  - intros Hno h ts r q Hch Hr Hin. apply (tk_chain _ _ _ Hok) in Hch as (o&e&He&<-&_). apply (Hno o). exists e. split; [done|].
    destruct (lk_heap _ _ _ _ (tk_lock _ _ _ Hok _ _ He)) as (r'&Hr'&_&Hsq&_). simplify_eq.
    rewrite Hsq in Hin. unfold sleepers. destruct q; set_solver.
Qed.
Lemma asleep_on_queue A l o : asleep_on A l o ↔ ∃ q, l ∈ queue A o q.
Proof.
  unfold asleep_on, queue. split.
  - intros (e&->&Hin). unfold sleepers in Hin. apply elem_of_app in Hin as [?|?]; [by exists TS_READER_Q|by exists TS_WRITER_Q].
  - destruct (A !! o) as [e|]; [|set_solver]. intros [q Hin]. exists e. split; [done|]. unfold sleepers. destruct q; set_solver.
Qed.
Lemma is_some_dom (m m' : gmap Z nat) k : dom m' = dom m → is_Some (m' !! k) ↔ is_Some (m !! k).
Proof. intros E. by rewrite <- !elem_of_dom, E. Qed.

Lemma queue_first A obj e : A !! obj = Some e → ∀ q, queue A obj q = sel q (e_rq e, e_wq e).
Proof. intros He q. unfold queue. by rewrite He. Qed.

Section laws.
  Variable obj : Z.
  Existing Instance turnstiles_of | 0.

#[export] Program Instance turnstile_laws : TurnstileLaws tstiles nat (H := turnstiles_of obj) := {|
  ts_ok st := ∃ A R, tiles_ok st A R;
  ts_queue := queue_in obj;
  ts_awake := awake;
|}.
Next Obligation.
  intros st (A&R&Hok). exists (found A obj). split; [by eapply lookup_spec|].
  setoid_rewrite (queue_in_spec _ _ _ obj _ Hok). unfold found, queue.
  destruct (A !! obj) as [e|] eqn:He; simpl; [|done]. split; [done|]. intros Hq.
  pose proof (lk_count _ _ _ _ (tk_lock _ _ _ Hok _ _ He)) as Hc. unfold sleepers in Hc.
  specialize (Hq TS_READER_Q) as H1. specialize (Hq TS_WRITER_Q) as H2. simpl in *. rewrite H1, H2 in Hc. simpl in Hc. lia.
Qed.
Next Obligation.
  intros st (A&R&Hok). rewrite !(queue_in_spec _ _ _ obj _ Hok). unfold queue.
  destruct (A !! obj) as [e|] eqn:He; [|constructor]. apply (lk_nodup _ _ _ _ (tk_lock _ _ _ Hok _ _ He)).
Qed.
Next Obligation.
  intros st p q (A&R&Hok) Hl. simpl in Hl. rewrite (lookup_spec _ _ _ _ Hok) in Hl. unfold found in Hl.
  destruct (A !! obj) as [e|] eqn:He; simplify_eq/=. rewrite (queue_in_spec _ _ _ obj _ Hok), (queue_first _ _ _ He).
  destruct (deref_sleepq _ _ _ _ _ Hok He) as (r&Hr&_&Hw). unfold TS_WAITERS. rewrite Hr, Ok_bind, Hw. by destruct q.
Qed.
Next Obligation.
  intros st p q (A&R&Hok) Hl. simpl in Hl. rewrite (lookup_spec _ _ _ _ Hok) in Hl. unfold found in Hl.
  destruct (A !! obj) as [e|] eqn:He; simplify_eq/=. rewrite (queue_in_spec _ _ _ obj _ Hok), (queue_first _ _ _ He).
  destruct (deref_sleepq _ _ _ _ _ Hok He) as (r&Hr&Hsq&_). unfold TS_FIRST. by rewrite Hr, Ok_bind, Hsq.
Qed.
Next Obligation.
  intros eprio st p q l (A&R&Hok) Hl Haw. simpl in *. rewrite (lookup_spec _ _ _ _ Hok) in Hl. injection Hl as <-.
  apply (awake_spec _ _ _ _ Hok) in Haw as [Hls Has].
  destruct (block_spec eprio _ _ _ q obj l Hok Hls Has) as (st'&e&R'&Hb&Hdom&Hok'&Hsl&Hq).
  exists st'. split_and!; [done|by eexists _, _| |].
  - intros q'. rewrite !(queue_in_spec _ _ _ obj _ Hok'), (queue_first _ obj e) by apply lookup_insert_eq.
    rewrite Hq, !(queue_in_spec _ _ _ obj _ Hok). case_decide; [apply sleepq_insert_perm|done].
  - intros k. rewrite (awake_spec _ _ _ _ Hok), (awake_spec _ _ _ _ Hok'), (is_some_dom _ _ _ Hdom).
    setoid_rewrite asleep_on_insert. setoid_rewrite Hsl. split.
    + intros [Hk Hno]. split_and!; [done| |intros ->; by destruct (Hno obj); left; split; [|left]].
      intros o Ho. destruct (decide (o = obj)) as [->|Hne]; [|by destruct (Hno o); right].
      destruct (Hno obj). left. split; [done|]. apply asleep_on_queue in Ho as [q' Hq']. right.
      destruct q'; set_solver.
    + intros [[Hk Hno] Hne]. split; [done|]. intros o [[-> Hin]|[_ Ho]]; [|by destruct (Hno o)].
      apply elem_of_cons in Hin as [?|Hin]; [done|]. apply (Hno obj), asleep_on_queue.
      apply elem_of_app in Hin as [?|?]; [by exists TS_READER_Q|by exists TS_WRITER_Q].
Qed.
Next Obligation.
  intros st p q count nl (A&R&Hok) Hl Hc Hnl woken. simpl in *. rewrite (lookup_spec _ _ _ _ Hok) in Hl. unfold found in Hl.
  destruct (A !! obj) as [e|] eqn:He; simplify_eq/=. subst woken.
  rewrite !(queue_in_spec _ _ _ obj _ Hok) in *.
  destruct (wakeup_spec _ _ _ _ _ q count nl Hok He Hc Hnl) as (st'&A'&R'&Hw&Hdom&Hok'&Ho&Hq).
  set (woken := match nl with Some l => [l] | None => take (Z.to_nat count) (queue A obj q) end) in *.
  exists st'. split_and!; [done|by eexists _, _| |].
  - intros q'. rewrite !(queue_in_spec _ _ _ obj _ Hok'), Hq. case_decide; [done|]. by rewrite (queue_in_spec _ _ _ obj _ Hok).
  - intros k. rewrite (awake_spec _ _ _ _ Hok), (awake_spec _ _ _ _ Hok'), (is_some_dom _ _ _ Hdom).
    assert (Hwq : ∀ x, x ∈ woken → x ∈ queue A obj q).
    { intros x. unfold woken. destruct nl as [l|]; [intros ->%list_elem_of_singleton; by apply Hnl|].
      intros Hx. rewrite <- (take_drop (Z.to_nat count) (queue A obj q)). apply elem_of_app. by left. }
    split.
    + intros [Hk Hno]. destruct (decide (k ∈ woken)) as [?|Hnw]; [by right|left]. split; [done|]. intros o Hko.
      apply (Hno o). apply asleep_on_queue in Hko as [q' Hin]. apply asleep_on_queue. exists q'.
      destruct (decide (o = obj)) as [->|Hne]; [|unfold queue in *; by rewrite Ho].
      rewrite Hq. case_decide; subst; [|done]. by apply list_elem_of_filter.
    + intros [[Hk Hno]|Hkw].
      * split; [done|]. intros o Hko. apply (Hno o). apply asleep_on_queue in Hko as [q' Hin]. apply asleep_on_queue. exists q'.
        destruct (decide (o = obj)) as [->|Hne]; [|unfold queue in *; by rewrite <- Ho].
        rewrite Hq in Hin. case_decide; subst; [|done]. by apply list_elem_of_filter in Hin as [_ ?].
      * assert (Hkq : asleep_on A k obj) by (apply asleep_on_queue; exists q; auto).
        split.
        { destruct Hkq as (e0&He0&Hin). rewrite (lk_lts _ _ _ _ (tk_lock _ _ _ Hok _ _ He0) _ Hin). by eexists. }
        intros o Hko. assert (o = obj) as ->.
        { destruct (decide (o = obj)) as [|Hne]; [done|]. apply (tk_uniq _ _ _ Hok k); [|done].
          unfold asleep_on in *. by rewrite <- Ho. }
        apply asleep_on_queue in Hko as [q' Hin]. rewrite Hq in Hin. case_decide; [by apply list_elem_of_filter in Hin as [? _]|].
        assert (Hnd : NoDup (queue A obj TS_READER_Q ++ queue A obj TS_WRITER_Q)).
        { unfold queue. rewrite He. apply (lk_nodup _ _ _ _ (tk_lock _ _ _ Hok _ _ He)). }
        apply NoDup_app in Hnd as (_&Hd&_). specialize (Hwq _ Hkw). destruct q, q'; try done; by eapply Hd.
Qed.
End laws.

(** ** The turnstiles of new threads *)

Lemma init_spec lwps : NoDup lwps → Z.of_nat (length lwps) < 2 ^ 32 →
  ∃ R, tiles_ok (turnstile_init lwps) ∅ R ∧ dom (l_ts (turnstile_init lwps)) = list_to_set lwps.
Proof.
  intros Hnd Hlen. exists (λ i, RLwp (default 0 (lwps !! i))).
  assert (Hfst : (imap (λ i l, (l, i)) lwps).*1 = lwps).
  { rewrite fmap_imap. clear. assert (∀ f : nat → Z → Z, (∀ i x, f i x = x) → imap f lwps = lwps) as H; [|by apply H].
    induction lwps as [|l lwps IH]; intros f Hf; [done|]. simpl. rewrite Hf. f_equal. apply IH. intros; apply Hf. }
  assert (Hdom : dom (l_ts (turnstile_init lwps)) = list_to_set lwps).
  { unfold turnstile_init; simpl. by rewrite dom_list_to_map_L, Hfst. }
  assert (Hfst2 : (imap (λ i (_ : Z), (i, turnstile_ctor)) lwps).*1 = seq 0 (length lwps)).
  { rewrite fmap_imap. unfold compose; simpl. clear.
    assert (∀ k, imap (λ i (_ : Z), (k + i)%nat) lwps = seq k (length lwps)) as H; [|by apply (H 0%nat)].
    induction lwps as [|l lwps IH]; intros k; [done|]. simpl. f_equal; [lia|]. rewrite <- IH. apply imap_ext. intros; simpl; lia. }
  split; [|done]. split.
  - intros obj e. by rewrite lookup_empty.
  - intros l [i Hi] _. simpl in Hi. apply elem_of_list_to_map in Hi; [|by rewrite Hfst].
    apply elem_of_lookup_imap in Hi as (j&l'&[= <- <-]&Hl). exists i, turnstile_ctor. split_and!.
    + simpl. apply elem_of_list_to_map; [by rewrite Hfst|]. apply elem_of_lookup_imap. eauto.
    + by rewrite Hl.
    + simpl. apply elem_of_list_to_map; [rewrite Hfst2; apply NoDup_seq|]. apply elem_of_lookup_imap. eauto.
    + by split.
    + done.
  - intros l o1 o2 (e&He&_). by rewrite lookup_empty in He.
  - intros h ts. unfold chain, turnstile_init; simpl. rewrite lookup_empty. simpl. split; [set_solver|].
    intros (o&e&He&_). by rewrite lookup_empty in He.
  - intros h. unfold chain, turnstile_init; simpl. rewrite lookup_empty. constructor.
  - rewrite <- size_dom, Hdom, size_list_to_set by done. lia.
Qed.

(** ** Any sequence of operations on any locks *)

Inductive ts_op :=
  | Sleep (eprio : Z → Z) (q : tsq) (obj l : Z)
  | Wake (q : tsq) (obj count : Z) (nl : option Z).

(** The operation as a lock calls it: it has looked its turnstile up. *)
Definition ts_step (st : tstiles) (op : ts_op) : res (tstiles * list Z) :=
  match op with
  | Sleep eprio q obj l =>
    ts ← turnstile_lookup st obj; st ← turnstile_block eprio st ts q obj l; mret (st, [])
  | Wake q obj count nl =>
    ts ← turnstile_lookup st obj;
    match ts with Some ts => turnstile_wakeup st ts q count nl | None => Fault NullDeref end
  end.
Fixpoint ts_run (st : tstiles) (ops : list ts_op) : res (tstiles * list (list Z)) :=
  match ops with
  | [] => mret (st, [])
  | op :: ops => '(st, w) ← ts_step st op; '(st, ws) ← ts_run st ops; mret (st, w :: ws)
  end.

(** The specification: two queues for each lock, and no turnstiles.

    A thread [l] that joins the queue [old] stands behind those of the same or
    a higher priority that are in front of everybody else, that is right before
    the first thread of a lower priority. *)
Definition placed (eprio : Z → Z) (l : Z) (old new : list Z) : Prop :=
  ∃ pre post, old = pre ++ post ∧ new = pre ++ l :: post ∧
    (∀ k, k ∈ pre → eprio l ≤ eprio k) ∧ (∀ k, head post = Some k → eprio k < eprio l).

Definition set_q (S : Z → tsq → list Z) (obj : Z) (q : tsq) (sq : list Z) : Z → tsq → list Z :=
  λ o q', if decide (o = obj ∧ q' = q) then sq else S o q'.
Inductive spec_run (lwps : list Z) (S : Z → tsq → list Z) : list ts_op → list (list Z) → (Z → tsq → list Z) → Prop :=
  | spec_done : spec_run lwps S [] [] S
  | spec_sleep eprio q obj l sq ops ws S' :
    l ∈ lwps → (∀ o q, l ∉ S o q) → placed eprio l (S obj q) sq →
    spec_run lwps (set_q S obj q sq) ops ws S' →
    spec_run lwps S (Sleep eprio q obj l :: ops) ([] :: ws) S'
  | spec_wake q obj count nl woken ops ws S' :
    0 < count ≤ Z.of_nat (length (S obj q)) → (∀ l, nl = Some l → l ∈ S obj q) →
    woken = match nl with Some l => [l] | None => take (Z.to_nat count) (S obj q) end →
    spec_run lwps (set_q S obj q (filter (λ l, l ∉ woken) (S obj q))) ops ws S' →
    spec_run lwps S (Wake q obj count nl :: ops) (woken :: ws) S'.

Lemma placed_sleepq_insert eprio l old new : placed eprio l old new ↔ new = sleepq_insert eprio l old.
Proof.
  split.
  - intros (pre&post&->&->&Hpre&Hpost). induction pre as [|k pre IH]; simpl.
    + destruct post as [|k post]; simpl; [done|]. specialize (Hpost k eq_refl).
      by rewrite (proj2 (Z.ltb_lt _ _)).
    + specialize (Hpre k ltac:(by left)) as Hk. rewrite (proj2 (Z.ltb_ge _ _)) by done.
      f_equal. apply IH. intros x Hx. apply Hpre. by right.
  - intros ->. induction old as [|k old IH]; simpl.
    { exists [], []. by split_and!; [| |set_solver|]. }
    destruct (Z.ltb_spec (eprio k) (eprio l)).
    + exists [], (k :: old). split_and!; [done|done|set_solver|]. by intros ? [= <-].
    + destruct IH as (pre&post&->&->&Hpre&Hpost). exists (k :: pre), post.
      split_and!; [done|done| |done]. intros x [->|Hx]%elem_of_cons; [done|by apply Hpre].
Qed.

(** Descending priorities. *)
Definition by_priority (p : Z → Z) (sq : list Z) : Prop := StronglySorted (λ a b, p b ≤ p a) sq.

Lemma by_priority_cons p a sq :
  by_priority p (a :: sq) ↔ by_priority p sq ∧ ∀ b, b ∈ sq → p b ≤ p a.
Proof.
  unfold by_priority. split.
  - intros [? H]%StronglySorted_inv. split; [done|]. by apply Forall_forall.
  - intros [? H]. constructor; [done|]. by apply Forall_forall.
Qed.
Lemma by_priority_insert p l sq : by_priority p sq → by_priority p (sleepq_insert p l sq).
Proof.
  induction sq as [|k sq IH]; simpl.
  { intros _. apply by_priority_cons. split; [constructor|set_solver]. }
  intros Hks. pose proof Hks as [Hs Hk]%by_priority_cons.
  destruct (Z.ltb_spec (p k) (p l)).
  - apply by_priority_cons. split; [done|].
    intros b [->|Hb]%elem_of_cons; [lia|]. specialize (Hk _ Hb). lia.
  - apply by_priority_cons. split; [by apply IH|]. intros b. rewrite sleepq_insert_perm.
    intros [->|?]%elem_of_cons; auto.
Qed.
Lemma by_priority_filter p (P : Z → Prop) `{∀ x, Decision (P x)} sq :
  by_priority p sq → by_priority p (filter P sq).
Proof.
  induction sq as [|k sq IH]; [done|]. intros [Hs Hk]%by_priority_cons.
  rewrite filter_cons. case_decide; [|by apply IH]. apply by_priority_cons. split; [by apply IH|].
  intros b [_ Hb]%list_elem_of_filter. by apply Hk.
Qed.

(** Every sleep of the run uses the priorities [p]. *)
Definition same_prio (p : Z → Z) (ops : list ts_op) : Prop :=
  ∀ e q obj l, Sleep e q obj l ∈ ops → e = p.

Lemma spec_sorted p lwps ops : ∀ S ws S', spec_run lwps S ops ws S' → same_prio p ops →
  (∀ o q, by_priority p (S o q)) → ∀ o q, by_priority p (S' o q).
Proof.
  induction ops as [|op ops IH]; intros S ws S' Hrun Hp HS; inversion Hrun; subst; [done|..].
  all: eapply IH; [eassumption|intros ????; intros Hin; eapply Hp; right; exact Hin|].
  all: intros o q'; unfold set_q; case_decide; [|apply HS].
  - match goal with H : placed _ _ _ _ |- _ => apply placed_sleepq_insert in H as -> end.
    rewrite (Hp _ _ _ _ (list_elem_of_here _ _)). apply by_priority_insert, HS.
  - apply by_priority_filter, HS.
Qed.

Lemma run_refines lwps ops : ∀ S ws S' st A R,
  spec_run lwps S ops ws S' → tiles_ok st A R → dom (l_ts st) = list_to_set lwps → (∀ o q, queue A o q = S o q) →
  ∃ st' A' R', ts_run st ops = Ok (st', ws) ∧ tiles_ok st' A' R' ∧ ∀ o q, queue A' o q = S' o q.
Proof.
  induction ops as [|op ops IH]; intros S ws S' st A R Hrun Hok Hdom HS; inversion Hrun as [|eprio q obj l sq ops' ws' S'' Hin Hno Hpl Hrest|q obj count nl woken ops' ws' S'' Hc Hnl Hw0 Hrest]; subst; simpl.
  { by exists st, A, R. }
  - apply placed_sleepq_insert in Hpl as ->.
    assert (Hl : is_Some (l_ts st !! l)) by (apply elem_of_dom; rewrite Hdom; by apply elem_of_list_to_set).
    destruct (block_spec eprio _ _ _ q obj l Hok Hl) as (st'&e&R'&Hb&Hd&Hok'&_&Hq).
    { intros o [q' Hin']%asleep_on_queue. rewrite HS in Hin'. by eapply Hno. }
    destruct (IH _ _ _ _ _ _ Hrest Hok') as (st2&A2&R2&Hr2&?&?); [congruence| |].
    { intros o q'. unfold set_q. unfold queue at 1. destruct (decide (o = obj)) as [->|Hne].
      - rewrite lookup_insert_eq, Hq, !HS. repeat case_decide; naive_solver.
      - rewrite lookup_insert_ne, decide_False by naive_solver. apply HS. }
    exists st2, A2, R2. rewrite (lookup_spec _ _ _ _ Hok), Ok_bind, Hb, !Ok_bind, Hr2. done.
  - rewrite (lookup_spec _ _ _ _ Hok), Ok_bind. unfold found. destruct (A !! obj) as [e|] eqn:He.
    2: { rewrite <- HS in Hc. unfold queue in Hc. rewrite He in Hc. simpl in Hc. lia. }
    rewrite <- HS in *. destruct (wakeup_spec _ _ _ _ _ q count nl Hok He Hc Hnl) as (st'&A'&R'&Hw&Hd&Hok'&Ho&Hq).
    destruct (IH _ _ _ _ _ _ Hrest Hok') as (st2&A2&R2&Hr2&?&?); [congruence| |].
    { intros o q'. unfold set_q. destruct (decide (o = obj)) as [->|Hne].
      - rewrite Hq, !HS. repeat case_decide; naive_solver.
      - rewrite decide_False by naive_solver. rewrite <- HS. unfold queue. by rewrite Ho. }
    exists st2, A2, R2. simpl. rewrite Hw, !Ok_bind, Hr2. done.
Qed.

(** C29: from the turnstiles of the threads [lwps], any sequence of sleeps and
    wake-ups on any locks in which a thread sleeps on one lock at a time and no
    more threads are woken than sleep runs without an assertion failing or a
    bad pointer being followed: the lent turnstiles, the free lists, the
    counters and the hash chains implement two queues for each lock, in which a
    thread that goes to sleep is [placed] behind those of the same or a higher
    priority and before the first of a lower one; the threads woken are those of
    the specification, and what [turnstile_lookup] finds are its queues.  When
    the priorities are the same function for all sleeps, every queue is in
    descending order of priority. *)
Theorem turnstiles_refine lwps ops ws S' :
  NoDup lwps → Z.of_nat (length lwps) < 2 ^ 32 → spec_run lwps (λ _ _, []) ops ws S' →
  ∃ st', ts_run (turnstile_init lwps) ops = Ok (st', ws) ∧
    (∀ obj q, queue_in obj st' q = S' obj q) ∧
    ∀ p, same_prio p ops → ∀ obj q, by_priority p (queue_in obj st' q).
Proof.
  intros Hnd Hlen Hrun. destruct (init_spec lwps Hnd Hlen) as (R&Hok&Hdom).
  destruct (run_refines lwps ops _ _ _ _ _ _ Hrun Hok Hdom) as (st'&A'&R'&Hr&Hok'&Hq).
  { intros o q. unfold queue. by rewrite lookup_empty. }
  assert (HS : ∀ obj q, queue_in obj st' q = S' obj q).
  { intros obj q. by rewrite (queue_in_spec _ _ _ obj _ Hok'). }
  exists st'. split_and!; [done|done|]. intros p Hp obj q. rewrite HS.
  eapply spec_sorted; [done|done|]. intros. constructor.
Qed.

(** Two locks of one hash chain. *)
Definition demo_ops : list ts_op :=
  [Sleep id TS_WRITER_Q 8 1024; Sleep id TS_READER_Q 520 2048; Sleep id TS_READER_Q 8 3072;
   Sleep id TS_WRITER_Q 8 4096; Wake TS_WRITER_Q 8 1 None; Wake TS_READER_Q 8 1 (Some 3072); Wake TS_READER_Q 520 1 None].
Lemma turnstiles_refine_witness : ∃ st' S', TS_HASH 8 = TS_HASH 520 ∧
  ts_run (turnstile_init [1024; 2048; 3072; 4096]) demo_ops = Ok (st', [[]; []; []; []; [4096]; [3072]; [2048]]) ∧
  (∀ obj q, queue_in obj st' q = S' obj q) ∧ S' 8 TS_WRITER_Q = [1024].
Proof.
  edestruct (turnstiles_refine [1024; 2048; 3072; 4096] demo_ops) as (st'&Hr&Hq&_).
  - apply (bool_decide_unpack _). vm_compute. reflexivity.
  - vm_compute. reflexivity.
  - unfold demo_ops. do 4 (eapply spec_sleep;
      [set_solver|intros o q; unfold set_q; repeat case_decide; vm_compute; set_solver
      |apply placed_sleepq_insert; reflexivity|]).
    do 3 (eapply spec_wake; [vm_compute; done|by intros ? [= <-]; vm_compute; left|reflexivity|]).
    apply spec_done.
  - exists st'. eexists. split; [reflexivity|]. split; [exact Hr|]. split; [exact Hq|]. vm_compute. reflexivity.
Defined.
