(* ===== verification/Rwlock.v ===== *)
(** * Reader/writer locks (kern/kern_rwlock.c, sys/rwlock.h)

    The kernel is compiled with DIAGNOSTIC and without LOCKDEBUG, on several
    processors. Each function is a sequence of steps with at most one access to
    the lock word each; the points between two steps are the type [pc]. A thread
    is the address of its lwp. The turnstile of the lock is any implementation of
    the interface of Turnstile.v. Memory is sequentially consistent. *)

From S2P Require Export Prelude Turnstile.

Inductive krw_t := RW_READER | RW_WRITER.
#[export] Instance krw_eq_dec : EqDecision krw_t.
Proof. solve_decision. Defined.

Definition RW_HAS_WAITERS : Z := 0x01.
Definition RW_WRITE_WANTED : Z := 0x02.
Definition RW_WRITE_LOCKED : Z := 0x04.
Definition RW_READ_COUNT_SHIFT : Z := 4.
Definition RW_READ_INCR : Z := Z.shiftl 1 RW_READ_COUNT_SHIFT.
Definition RW_THREAD : Z := u64 (- RW_READ_INCR).

(** [~x] of a [uintptr_t]. *)
Definition compl (x : Z) : Z := 2 ^ 64 - 1 - x.

(** What [rw_vector_enter] and [rw_vector_tryenter] derive from the kind of
    request. *)
Definition incr (cur : Z) (op : krw_t) : Z :=
  match op with RW_READER => RW_READ_INCR | RW_WRITER => cur .| RW_WRITE_LOCKED end.
Definition set_wait (op : krw_t) : Z :=
  match op with RW_READER => RW_HAS_WAITERS | RW_WRITER => RW_HAS_WAITERS .| RW_WRITE_WANTED end.
Definition need_wait (op : krw_t) : Z :=
  match op with RW_READER => RW_WRITE_LOCKED .| RW_WRITE_WANTED | RW_WRITER => RW_WRITE_LOCKED .| RW_THREAD end.
Definition queue_of (op : krw_t) : tsq :=
  match op with RW_READER => TS_READER_Q | RW_WRITER => TS_WRITER_Q end.

(** The [int] count shifted, as a [uintptr_t]. *)
Definition read_count (rcnt : Z) : Z := u64 (s32 (Z.shiftl rcnt RW_READ_COUNT_SHIFT)).

(** Whether the owner is running on a processor (and not waiting for the big
    lock) is up to the scheduler: [oncpu]. *)
Definition rw_oncpu (oncpu : bool) (owner : Z) : bool :=
  if negb (owner .& (RW_WRITE_LOCKED .| RW_HAS_WAITERS) =? RW_WRITE_LOCKED) then false else oncpu.

(** The points between the steps. [Idle] is a thread outside the functions, with
    the hold it got from them. *)
Inductive pc {P : Type} :=
  | Idle (h : option krw_t)
  | EnterRead (op : krw_t)
  | EnterLoop (op : krw_t) (owner : Z)
  | EnterOncpu (op : krw_t) (owner : Z)
  | EnterSpin (op : krw_t)
  | EnterSpun (op : krw_t) (owner : Z)
  | EnterLookup (op : krw_t)
  | EnterLocked (op : krw_t) (ts : option P)
  | EnterMark (op : krw_t) (ts : option P) (owner : Z)
  | EnterAbort (op : krw_t) (owner : Z)
  | EnterBlock (op : krw_t) (ts : option P)
  | EnterAsleep (op : krw_t)
  | EnterWoken (op : krw_t)
  | ExitRead
  | ExitAssert (write : bool) (decr owner : Z)
  | ExitLoop (decr owner : Z)
  | ExitLookup (decr : Z)
  | ExitGive (decr : Z) (ts : option P)
  | ExitWake (ts : P) (q : tsq) (count : Z) (nl : option Z)
  | TryRead (op : krw_t)
  | TryCas (op : krw_t) (owner : Z)
  | DownAssert
  | DownRead
  | DownCas (owner : Z)
  | DownLookup (owner : Z)
  | DownLocked (ts : option P) (owner : Z)
  | DownExit (next : option Z)
  | DownWake (ts : P) (rcnt : Z)
  | UpAssert
  | UpRead
  | UpLoop (owner : Z).
Arguments pc : clear implicits.

(** The lock word, the holder of the chain mutex, and the turnstiles. *)
Record shared {T : Type} := Shared { rw_owner : Z; tc_mutex : option Z; tstile : T }.
Arguments shared : clear implicits.
Arguments Shared {T}.

(** The outcome of a step: the thread has to wait for the mutex or for a
    wake-up, or goes on, with the threads it wakes. *)
Inductive outcome {T P : Type} :=
  | Blocked
  | Next (s : shared T) (p : pc P) (woken : list Z).
Arguments outcome : clear implicits.

Section rwlock.
Context {T P : Type} `{TurnstileOps T P}.

Definition go (s : shared T) (p : pc P) : res (outcome T P) := mret (Next s p []).

(** [rw_cas] continues with the value found. *)
Definition rw_cas (s : shared T) (o n : Z) (k : shared T → Z → res (outcome T P)) : res (outcome T P) :=
  k (if rw_owner s =? o then Shared n (tc_mutex s) (tstile s) else s) (rw_owner s).
Definition rw_swap (s : shared T) (n : Z) : shared T := Shared n (tc_mutex s) (tstile s).

(** [turnstile_lookup] takes the chain mutex, [turnstile_exit] gives it back. *)
Definition lookup_step (cur : Z) (s : shared T) (k : option P → pc P) : res (outcome T P) :=
  match tc_mutex s with
  | Some _ => mret Blocked
  | None => ts ← ts_lookup (tstile s); go (Shared (rw_owner s) (Some cur) (tstile s)) (k ts)
  end.
Definition unlock (s : shared T) : shared T := Shared (rw_owner s) None (tstile s).

Definition null_check (ts : option P) : res P := match ts with Some ts => Ok ts | None => Fault NullDeref end.

Definition wake_step (s : shared T) (ts : P) (q : tsq) (count : Z) (nl : option Z) (p : pc P) : res (outcome T P) :=
  '(t, woken) ← ts_wakeup (tstile s) ts q count nl;
  mret (Next (Shared (rw_owner s) None t) p woken).

(** One step of [rw_vector_enter]. *)
Definition enter_step (cur : Z) (oncpu : bool) (eprio : Z → Z) (s : shared T) (p : pc P) : res (outcome T P) :=
  match p with
  | EnterRead op => go s (EnterLoop op (rw_owner s))
  | EnterLoop op owner =>
    if owner .& need_wait op =? 0 then
      rw_cas s owner (u64 (owner + incr cur op) .& compl RW_WRITE_WANTED) (λ s next,
        if next =? owner then go s (Idle (Some op)) else go s (EnterLoop op next))
    else if rw_owner s .& RW_THREAD =? cur then Fault Panic
    else go s (EnterOncpu op owner)
  | EnterOncpu op owner => go s (if rw_oncpu oncpu owner then EnterSpin op else EnterLookup op)
  | EnterSpin op => go s (EnterSpun op (rw_owner s))
  | EnterSpun op owner =>
    go s (if rw_oncpu oncpu owner then EnterSpin op
          else if owner .& need_wait op =? 0 then EnterLoop op owner
          else EnterLookup op)
  | EnterLookup op => lookup_step cur s (EnterLocked op)
  | EnterLocked op ts =>
    let owner := rw_owner s in
    go s (if (owner .& need_wait op =? 0) || rw_oncpu oncpu owner then EnterAbort op owner
          else EnterMark op ts owner)
  | EnterAbort op owner => go (unlock s) (EnterLoop op owner)
  | EnterMark op ts owner =>
    rw_cas s owner (owner .| set_wait op) (λ s next,
      if negb (next =? owner) then go s (EnterAbort op next) else go s (EnterBlock op ts))
  | EnterBlock op ts =>
    t ← ts_block eprio (tstile s) ts (queue_of op) cur;
    go (Shared (rw_owner s) None t) (EnterAsleep op)
  | EnterWoken op =>
    match op with
    | RW_READER => go s (Idle (Some op))
    | RW_WRITER => go s (if rw_owner s .& RW_THREAD =? cur then Idle (Some op) else EnterRead op)
    end
  | _ => mret Blocked
  end.

(** One step of [rw_vector_exit]. *)
Definition exit_step (cur : Z) (s : shared T) (p : pc P) : res (outcome T P) :=
  match p with
  | ExitRead =>
    let owner := rw_owner s in
    go s (if negb (owner .& RW_WRITE_LOCKED =? 0) then ExitAssert true (cur .| RW_WRITE_LOCKED) owner
          else ExitAssert false RW_READ_INCR owner)
  | ExitAssert write decr owner =>
    if (if write then rw_owner s .& RW_THREAD =? cur else negb (rw_owner s .& RW_THREAD =? 0))
    then go s (ExitLoop decr owner) else Fault Panic
  | ExitLoop decr owner =>
    let newown := u64 (owner - decr) in
    if newown .& (RW_THREAD .| RW_HAS_WAITERS) =? RW_HAS_WAITERS then go s (ExitLookup decr)
    else rw_cas s owner newown (λ s next,
      if next =? owner then go s (Idle None) else go s (ExitLoop decr next))
  | ExitLookup decr => lookup_step cur s (ExitGive decr)
  | ExitGive decr ts =>
    ts ← null_check ts;
    wcnt ← ts_count (tstile s) ts TS_WRITER_Q;
    rcnt ← ts_count (tstile s) ts TS_READER_Q;
    if (rcnt =? 0) || (decr =? RW_READ_INCR) then
      if negb (rcnt =? 0) then
        l ← ts_first (tstile s) ts TS_WRITER_Q;
        l ← match l with Some l => Ok l | None => Fault NullDeref end;
        let newown := l .| RW_WRITE_LOCKED .| RW_HAS_WAITERS in
        let newown := if wcnt >? 1 then newown .| RW_WRITE_WANTED else newown in
        go (rw_swap s newown) (ExitWake ts TS_WRITER_Q 1 (Some l))
      else go (rw_swap s RW_WRITE_WANTED) (ExitWake ts TS_WRITER_Q wcnt None)
    else
      let newown := read_count rcnt in
      let newown := if negb (wcnt =? 0) then newown .| (RW_HAS_WAITERS .| RW_WRITE_WANTED) else newown in
      go (rw_swap s newown) (ExitWake ts TS_READER_Q rcnt None)
  | ExitWake ts q count nl => wake_step s ts q count nl (Idle None)
  | _ => mret Blocked
  end.

(** One step of [rw_vector_tryenter]. *)
Definition try_step (cur : Z) (s : shared T) (p : pc P) : res (outcome T P) :=
  match p with
  | TryRead op =>
    let owner := rw_owner s in
    go s (if negb (owner .& need_wait op =? 0) then Idle None else TryCas op owner)
  | TryCas op owner =>
    rw_cas s owner (u64 (owner + incr cur op)) (λ s next,
      if next =? owner then go s (Idle (Some op)) else go s (TryRead op))
  | _ => mret Blocked
  end.

(** One step of [rw_downgrade]. *)
Definition down_step (cur : Z) (s : shared T) (p : pc P) : res (outcome T P) :=
  match p with
  | DownAssert => if rw_owner s .& RW_THREAD =? cur then go s DownRead else Fault Panic
  | DownRead =>
    let owner := rw_owner s in
    go s (if owner .& RW_HAS_WAITERS =? 0 then DownCas owner else DownLookup owner)
  | DownCas owner =>
    rw_cas s owner RW_READ_INCR (λ s next,
      if next =? owner then go s (Idle (Some RW_READER)) else go s (DownLookup next))
  | DownLookup owner => lookup_step cur s (λ ts, DownLocked ts owner)
  | DownLocked ts owner =>
    ts ← null_check ts;
    rcnt ← ts_count (tstile s) ts TS_READER_Q;
    wcnt ← ts_count (tstile s) ts TS_WRITER_Q;
    if rcnt =? 0 then
      let newown := RW_READ_INCR .| RW_HAS_WAITERS .| RW_WRITE_WANTED in
      rw_cas s owner newown (λ s next, go s (DownExit (if next =? owner then None else Some next)))
    else
      let newown := u64 (read_count rcnt + RW_READ_INCR) in
      let newown := if negb (wcnt =? 0) then newown .| (RW_HAS_WAITERS .| RW_WRITE_WANTED) else newown in
      rw_cas s owner newown (λ s next,
        if next =? owner then go s (DownWake ts rcnt) else go s (DownExit (Some next)))
  | DownExit next =>
    go (unlock s) (match next with None => Idle (Some RW_READER) | Some next => DownLookup next end)
  | DownWake ts rcnt => wake_step s ts TS_READER_Q rcnt None (Idle (Some RW_READER))
  | _ => mret Blocked
  end.

(** [rw_read_held], and one step of [rw_tryupgrade]. *)
Definition rw_read_held (owner : Z) : bool :=
  (owner .& RW_WRITE_LOCKED =? 0) && negb (owner .& RW_THREAD =? 0).
Definition up_step (cur : Z) (s : shared T) (p : pc P) : res (outcome T P) :=
  match p with
  | UpAssert => if rw_read_held (rw_owner s) then go s UpRead else Fault Panic
  | UpRead => go s (UpLoop (rw_owner s))
  | UpLoop owner =>
    if negb (owner .& RW_WRITE_LOCKED =? 0) then Fault Panic
    else if negb (owner .& RW_THREAD =? RW_READ_INCR) then
      if owner .& RW_THREAD =? 0 then Fault Panic else go s (Idle (Some RW_READER))
    else
      let newown := cur .| RW_WRITE_LOCKED .| (owner .& compl RW_THREAD) in
      rw_cas s owner newown (λ s next,
        if next =? owner then go s (Idle (Some RW_WRITER)) else go s (UpLoop next))
  | _ => mret Blocked
  end.

Definition thread_step (cur : Z) (oncpu : bool) (eprio : Z → Z) (s : shared T) (p : pc P) : res (outcome T P) :=
  match p with
  | Idle _ | EnterAsleep _ => mret Blocked
  | EnterRead _ | EnterLoop _ _ | EnterOncpu _ _ | EnterSpin _ | EnterSpun _ _ | EnterLookup _
  | EnterLocked _ _ | EnterMark _ _ _ | EnterAbort _ _ | EnterBlock _ _ | EnterWoken _ =>
    enter_step cur oncpu eprio s p
  | ExitRead | ExitAssert _ _ _ | ExitLoop _ _ | ExitLookup _ | ExitGive _ _ | ExitWake _ _ _ _ => exit_step cur s p
  | TryRead _ | TryCas _ _ => try_step cur s p
  | DownAssert | DownRead | DownCas _ | DownLookup _ | DownLocked _ _ | DownExit _ | DownWake _ _ => down_step cur s p
  | UpAssert | UpRead | UpLoop _ => up_step cur s p
  end.

(** ** The threads *)

Record sys := Sys { lock : shared T; threads : gmap Z (pc P) }.

(** The calls a thread may make: one hold at a time. *)
Inductive call : option krw_t → pc P → Prop :=
  | call_enter op : call None (EnterRead op)
  | call_tryenter op : call None (TryRead op)
  | call_exit op : call (Some op) ExitRead
  | call_downgrade : call (Some RW_WRITER) DownAssert
  | call_tryupgrade : call (Some RW_READER) UpAssert.

(** A thread that is woken goes on after [turnstile_block]. *)
Definition wake_pc (p : pc P) : pc P := match p with EnterAsleep op => EnterWoken op | _ => p end.
Definition wake_all (woken : list Z) (m : gmap Z (pc P)) : gmap Z (pc P) :=
  foldr (alter wake_pc) m woken.

Inductive step : sys → sys → Prop :=
  | StepCall s m t h p : m !! t = Some (Idle h) → call h p → step (Sys s m) (Sys s (<[t := p]> m))
  | StepThread s m t p oncpu eprio s' p' woken :
      m !! t = Some p → thread_step t oncpu eprio s p = Ok (Next s' p' woken) →
      step (Sys s m) (Sys s' (wake_all woken (<[t := p']> m))).

(** [rw_init], and threads that have not called yet. *)
Definition sys_init (t : T) (lwps : list Z) : sys :=
  Sys (Shared 0 None t) (list_to_map ((λ l, (l, Idle None)) <$> lwps)).

Definition reachable (t : T) (lwps : list Z) (s : sys) : Prop := rtc step (sys_init t lwps) s.
End rwlock.
Arguments sys : clear implicits.
