(* ===== verification/RwlockSpec.v ===== *)
(** * Reader/writer locks: exclusion, and no lost wake-ups

    The invariant of all interleavings. Its ghost part is the map [ow] of the
    threads that own the lock, those included to whom it was handed and who do
    not know yet; the lock word and the turnstile are tied to it. *)

From S2P Require Export Prelude Turnstile TurnstileSpec Rwlock.

(** ** The lock word *)

Lemma bit_16 a b i :
  0 ≤ i → 0 ≤ b < 16 → Z.testbit (16 * a + b) i = if i <? 4 then Z.testbit b i else Z.testbit a (i - 4).
Proof.
  intros Hi Hb. replace (16 * a + b) with (b + a * 2 ^ 4) by lia. destruct (Z.ltb_spec i 4).
  - by rewrite <- (Z.mod_pow2_bits_low _ 4), Z_mod_plus_full, Z.mod_small by lia.
  - replace i with (i - 4 + 4) at 1 by lia. rewrite <- Z.div_pow2_bits by lia.
    rewrite Z.div_add, Z.div_small by lia. done.
Qed.
Lemma land_16 k j f g :
  0 ≤ f < 16 → 0 ≤ g < 16 → (16 * k + f) .& (16 * j + g) = 16 * (k .& j) + (f .& g).
Proof.
  intros Hf Hg. assert (Hb : 0 ≤ f .& g < 2 ^ 4) by (apply land_bounds; lia).
  apply Z.bits_inj'. intros i Hi.
  rewrite Z.land_spec, !bit_16, Z.land_spec by lia. case_match; [done|by rewrite Z.land_spec].
Qed.
Lemma lor_16 k j f g :
  0 ≤ f < 16 → 0 ≤ g < 16 → (16 * k + f) .| (16 * j + g) = 16 * (k .| j) + (f .| g).
Proof.
  intros Hf Hg. assert (Hb : 0 ≤ f .| g < 2 ^ 4) by (apply lor_bounds; lia).
  apply Z.bits_inj'. intros i Hi.
  rewrite Z.lor_spec, !bit_16, Z.lor_spec by lia. case_match; [done|by rewrite Z.lor_spec].
Qed.

(** The flags, and the word: 16 times the upper part [k], plus the flags. *)
Definition flags (wl want wait : bool) : Z :=
  (if wl then 4 else 0) + (if want then 2 else 0) + (if wait then 1 else 0).
Definition enc (k : Z) (wl want wait : bool) : Z := 16 * k + flags wl want wait.

Lemma flags_range wl want wait : 0 ≤ flags wl want wait < 8.
Proof. by destruct wl, want, wait. Qed.
Lemma land_thread k : 0 ≤ k < 2 ^ 60 → k .& (2 ^ 60 - 1) = k.
Proof. intros Hk. change (2 ^ 60 - 1) with (Z.ones 60). rewrite Z.land_ones by lia. apply Z.mod_small. lia. Qed.

(** Compute the flags, and decide what is left about the upper part. *)
Ltac flag_cases :=
  repeat match goal with b : bool |- _ => destruct b end;
  repeat match goal with |- context [flags ?a ?b ?c .& ?g] =>
    let v := eval vm_compute in (flags a b c .& g) in change (flags a b c .& g) with v end;
  repeat match goal with |- context [?a =? ?b] => destruct (Z.eqb_spec a b) end; simpl; lia || done.

Section word.
Context (k : Z) (Hk : 0 ≤ k < 2 ^ 60).
Lemma enc_mask wl want wait j g :
  0 ≤ g < 16 → enc k wl want wait .& (16 * j + g) = 16 * (k .& j) + (flags wl want wait .& g).
Proof using Hk. intros Hg. unfold enc. pose proof (flags_range wl want wait). apply land_16; lia. Qed.
Lemma enc_low wl want wait g : 0 ≤ g < 16 → enc k wl want wait .& g = flags wl want wait .& g.
Proof using Hk.
  intros Hg. replace g with (16 * 0 + g) at 1 by lia. rewrite enc_mask by done. rewrite Z.land_0_r. lia.
Qed.
Lemma enc_high wl want wait g :
  0 ≤ g < 16 → enc k wl want wait .& (RW_THREAD + g) = 16 * k + (flags wl want wait .& g).
Proof using Hk.
  intros Hg. change (RW_THREAD + g) with (16 * (2 ^ 60 - 1) + g). rewrite enc_mask by done.
  by rewrite land_thread.
Qed.
Lemma enc_thread wl want wait : enc k wl want wait .& RW_THREAD = 16 * k.
Proof using Hk. rewrite <- (Z.add_0_r RW_THREAD), enc_high by lia. rewrite Z.land_0_r. lia. Qed.
Lemma enc_wl wl want wait : enc k wl want wait .& RW_WRITE_LOCKED = if wl then 4 else 0.
Proof using Hk. unfold RW_WRITE_LOCKED. rewrite enc_low by lia. by destruct wl, want, wait. Qed.
Lemma enc_wait wl want wait : enc k wl want wait .& RW_HAS_WAITERS = if wait then 1 else 0.
Proof using Hk. unfold RW_HAS_WAITERS. rewrite enc_low by lia. by destruct wl, want, wait. Qed.

Lemma enc_need wl want wait op :
  (enc k wl want wait .& need_wait op =? 0) =
  match op with RW_READER => negb wl && negb want | RW_WRITER => negb wl && (k =? 0) end.
Proof using Hk.
  destruct op; unfold need_wait.
  - change (RW_WRITE_LOCKED .| RW_WRITE_WANTED) with 6. rewrite enc_low by lia. by destruct wl, want, wait.
  - change (RW_WRITE_LOCKED .| RW_THREAD) with (RW_THREAD + 4). rewrite enc_high by lia.
    flag_cases.
Qed.
Lemma enc_oncpu wl want wait b : rw_oncpu b (enc k wl want wait) = wl && negb wait && b.
Proof using Hk.
  unfold rw_oncpu. change (RW_WRITE_LOCKED .| RW_HAS_WAITERS) with 5. rewrite enc_low by lia.
  by destruct wl, want, wait.
Qed.
Lemma enc_last wl want wait :
  (enc k wl want wait .& (RW_THREAD .| RW_HAS_WAITERS) =? RW_HAS_WAITERS) = (k =? 0) && wait.
Proof using Hk.
  change (RW_THREAD .| RW_HAS_WAITERS) with (RW_THREAD + 1). rewrite enc_high by lia. unfold RW_HAS_WAITERS.
  flag_cases.
Qed.
Lemma enc_set_wait wl want wait op :
  enc k wl want wait .| set_wait op = enc k wl (want || bool_decide (op = RW_WRITER)) true.
Proof using Hk.
  pose proof (flags_range wl want wait). destruct op; unfold set_wait, enc.
  - change RW_HAS_WAITERS with (16 * 0 + 1). rewrite lor_16, Z.lor_0_r by lia. by destruct wl, want, wait.
  - change (RW_HAS_WAITERS .| RW_WRITE_WANTED) with (16 * 0 + 3). rewrite lor_16, Z.lor_0_r by lia. by destruct wl, want, wait.
Qed.
Lemma enc_unwant wl want wait : enc k wl want wait .& compl RW_WRITE_WANTED = enc k wl false wait.
Proof using Hk.
  change (compl RW_WRITE_WANTED) with (16 * (2 ^ 60 - 1) + 13). rewrite enc_mask, land_thread by lia.
  by destruct wl, want, wait.
Qed.
Lemma enc_flags wl want wait : enc k wl want wait .& compl RW_THREAD = flags wl want wait.
Proof using Hk. change (compl RW_THREAD) with 15. rewrite enc_low by lia. by destruct wl, want, wait. Qed.
Lemma enc_owner wl want wait : 16 * k .| RW_WRITE_LOCKED .| flags wl want wait = enc k true want wait.
Proof using Hk.
  assert (E : 16 * k .| 4 = 16 * k + 4).
  { pose proof (lor_16 k 0 0 4) as E. rewrite Z.lor_0_r, Z.add_0_r in E. apply E; lia. }
  unfold RW_WRITE_LOCKED. rewrite E. pose proof (flags_range wl want wait).
  pose proof (lor_16 k 0 4 (flags wl want wait)) as E'. rewrite Z.lor_0_r in E'.
  replace (16 * 0 + flags wl want wait) with (flags wl want wait) in E' by lia. rewrite E' by lia.
  unfold enc. by destruct wl, want, wait.
Qed.
Lemma enc_u64 wl want wait : u64 (enc k wl want wait) = enc k wl want wait.
Proof using Hk. pose proof (flags_range wl want wait). apply u64_small. unfold is_u64, enc. lia. Qed.
Lemma incr_writer : incr (16 * k) RW_WRITER = 16 * k + 4.
Proof using Hk.
  pose proof (enc_owner false false false) as E. change (flags false false false) with 0 in E.
  rewrite Z.lor_0_r in E. unfold incr. rewrite E. by unfold enc.
Qed.
End word.

Lemma enc_inj k wl want wait k' wl' want' wait' :
  enc k wl want wait = enc k' wl' want' wait' → k = k' ∧ wl = wl' ∧ want = want' ∧ wait = wait'.
Proof. unfold enc, flags. intros E. destruct wl, want, wait, wl', want', wait'; split_and!; try done; lia. Qed.

(** ** What a point of a function says *)

Section spec.
Context {T P : Type} `{TurnstileLaws T P}.
Implicit Types (s : shared T) (m : gmap Z (pc P)) (p : pc P) (t : Z) (ow : gmap Z krw_t).

(** Between the acquisition of the chain mutex and its release. *)
Definition locked p : bool :=
  match p with
  | EnterLocked _ _ | EnterMark _ _ _ | EnterAbort _ _ | EnterBlock _ _ | ExitGive _ _ | ExitWake _ _ _ _
  | DownLocked _ _ | DownExit _ | DownWake _ _ => true
  | _ => false
  end.
Definition asleep p : option krw_t := match p with EnterAsleep op => Some op | _ => None end.
(** The wake-up that is under way, and the request that is about to sleep. *)
Definition pc_wake p : option (tsq * option Z) :=
  match p with ExitWake _ q _ nl => Some (q, nl) | DownWake _ _ => Some (TS_READER_Q, None) | _ => None end.
Definition pc_mark p : option krw_t := match p with EnterBlock op _ => Some op | _ => None end.

Definition waking s m : option (tsq * option Z) := t ← tc_mutex s; p ← m !! t; pc_wake p.
Definition marking s m : option krw_t := t ← tc_mutex s; p ← m !! t; pc_mark p.

(** The sleepers that the wake-up under way leaves asleep. *)
Definition stay (g : option (tsq * option Z)) (q : tsq) (l : list Z) : list Z :=
  match g with
  | Some (q', nl) =>
    if decide (q = q') then match nl with Some k => filter (λ x, x ≠ k) l | None => [] end else l
  | None => l
  end.
(** The sleepers to whom it hands the lock. *)
Definition granted (g : option (tsq * option Z)) (op : krw_t) t : option krw_t :=
  match g, op with
  | Some (TS_READER_Q, None), RW_READER => Some RW_READER
  | Some (TS_WRITER_Q, Some l), RW_WRITER => if decide (t = l) then Some RW_WRITER else None
  | _, _ => None
  end.

(** A writer in [rw_vector_enter]. *)
Definition entering p : bool :=
  match p with
  | EnterRead RW_WRITER | EnterLoop RW_WRITER _ | EnterOncpu RW_WRITER _ | EnterSpin RW_WRITER
  | EnterSpun RW_WRITER _ | EnterLookup RW_WRITER | EnterLocked RW_WRITER _ | EnterMark RW_WRITER _ _
  | EnterAbort RW_WRITER _ | EnterBlock RW_WRITER _ | EnterAsleep RW_WRITER | EnterWoken RW_WRITER => true
  | _ => false
  end.

(** The owner is the only one, and there are waiters. *)
Definition last ow (wait : bool) t (op : krw_t) : Prop := ow = {[t := op]} ∧ wait = true.

(** The test of [rw_vector_exit] for a hand-over. *)
Definition hand_over (newown : Z) : bool := newown .& (RW_THREAD .| RW_HAS_WAITERS) =? RW_HAS_WAITERS.

(** What a thread at [p] knows: the hold it has, and facts that no other thread
    can change. *)
Definition knows ow (wait : bool) s m t p : Prop :=
  let own := ow !! t in
  let at_ ts := ts_lookup (tstile s) = Ok ts in
  match p with
  | Idle h => own = h
  | EnterRead _ | EnterLoop _ _ | EnterOncpu _ _ | EnterSpin _ | EnterSpun _ _ | EnterLookup _
  | EnterAbort _ _ | TryRead _ => own = None
  | EnterLocked _ ts | EnterBlock _ ts => own = None ∧ at_ ts
  | EnterMark op ts owner => own = None ∧ at_ ts ∧ (owner .& need_wait op =? 0) = false
  | EnterAsleep op => own = granted (waking s m) op t ∧ t ∈ ts_queue (tstile s) (queue_of op)
  | EnterWoken op => own = Some op ∨ (op = RW_WRITER ∧ own = None)
  | ExitRead => is_Some own
  | ExitAssert write decr owner =>
    ∃ op, own = Some op ∧ decr = incr t op ∧ write = bool_decide (op = RW_WRITER) ∧
      (hand_over (u64 (owner - decr)) = true → last ow wait t op)
  | ExitLoop decr owner =>
    ∃ op, own = Some op ∧ decr = incr t op ∧
      (hand_over (u64 (owner - decr)) = true → last ow wait t op)
  | ExitLookup decr => ∃ op, decr = incr t op ∧ last ow wait t op
  | ExitGive decr ts => at_ ts ∧ ∃ op, decr = incr t op ∧ last ow wait t op
  | ExitWake ts q count nl =>
    own = None ∧ at_ (Some ts) ∧
    match nl with
    | Some l => q = TS_WRITER_Q ∧ count = 1 ∧ l ∈ ts_queue (tstile s) q
    | None => 0 < count ∧ count = Z.of_nat (length (ts_queue (tstile s) q))
    end
  | TryCas op owner => own = None ∧ (owner .& need_wait op =? 0) = true
  | DownAssert | DownRead => own = Some RW_WRITER
  | DownCas owner =>
    own = Some RW_WRITER ∧ owner .& RW_HAS_WAITERS = 0 ∧ (owner = rw_owner s ∨ last ow wait t RW_WRITER)
  | DownLookup _ => last ow wait t RW_WRITER
  | DownLocked ts _ => at_ ts ∧ last ow wait t RW_WRITER
  | DownExit None => own = Some RW_READER
  | DownExit (Some _) => last ow wait t RW_WRITER
  | DownWake ts rcnt =>
    own = Some RW_READER ∧ at_ (Some ts) ∧ 0 < rcnt ∧ rcnt = Z.of_nat (length (ts_queue (tstile s) TS_READER_Q))
  | UpAssert | UpRead => own = Some RW_READER
  | UpLoop owner => own = Some RW_READER ∧ owner .& RW_WRITE_LOCKED = 0 ∧ owner .& RW_THREAD ≠ 0
  end.

Definition thread_ok ow (wait : bool) s m t p : Prop :=
  knows ow wait s m t p ∧
  (tc_mutex s = Some t ↔ locked p = true) ∧
  (asleep p = None → ts_awake (tstile s) t).

(** ** What the word says *)

(** The upper part and the flag of a write lock. *)
Inductive owned ow : Z → bool → Prop :=
  | owned_write t k : ow = {[t := RW_WRITER]} → t = 16 * k → owned ow k true
  | owned_read : (∀ t op, ow !! t = Some op → op = RW_READER) → owned ow (Z.of_nat (size ow)) false.

Record word_ok ow (want wait : bool) s m : Prop := {
  wk_owned : ∃ k wl, owned ow k wl ∧ rw_owner s = enc k wl want wait ∧ (wait = true → wl = false → want = true);
  wk_dom : dom ow ⊆ dom m;
  (** there are waiters, and what is known where there are writers among them *)
  wk_wait : wait = true ↔ (∃ q, stay (waking s m) q (ts_queue (tstile s) q) ≠ []) ∨ marking s m ≠ None;
  wk_writers : stay (waking s m) TS_WRITER_Q (ts_queue (tstile s) TS_WRITER_Q) ≠ [] ∨ marking s m = Some RW_WRITER →
    want = true ∧ ow ≠ ∅;
  wk_read : (∃ t, ow !! t = Some RW_READER) → want = true →
    stay (waking s m) TS_WRITER_Q (ts_queue (tstile s) TS_WRITER_Q) ≠ [] ∨ marking s m = Some RW_WRITER;
  (** somebody is there who wants to write *)
  wk_want : want = true → ∃ t p, m !! t = Some p ∧ entering p = true ∧ ow !! t = None;
}.

(** Threads are aligned addresses, far from the numbers that count readers, and
    an [int] holds the count of all of them in its place in the word. *)
Definition lwps_ok m : Prop :=
  ∀ t, is_Some (m !! t) → ∃ k, t = 16 * k ∧ Z.of_nat (size m) < k < 2 ^ 60 ∧ Z.of_nat (size m) < 2 ^ 27.

Record inv_with ow (want wait : bool) (s : sys T P) : Prop := {
  iv_ts : ts_ok (tstile (lock s));
  iv_lwps : lwps_ok (threads s);
  iv_threads t p : threads s !! t = Some p → thread_ok ow wait (lock s) (threads s) t p;
  iv_mutex t : tc_mutex (lock s) = Some t → is_Some (threads s !! t);
  iv_sleepers t q : t ∈ ts_queue (tstile (lock s)) q →
    ∃ op, threads s !! t = Some (EnterAsleep op) ∧ queue_of op = q;
  iv_word : word_ok ow want wait (lock s) (threads s);
}.
Definition inv (s : sys T P) : Prop := ∃ ow want wait, inv_with ow want wait s.

(** ** What the steps of a thread leave to the others *)

Lemma knows_frame ow ow' wait wait' s s' m m' t p :
  ow' !! t = ow !! t → (∀ op, last ow wait t op → last ow' wait' t op) →
  (ow !! t = Some RW_WRITER → rw_owner s' = rw_owner s ∨ last ow' wait' t RW_WRITER) →
  (locked p = true → tstile s' = tstile s) → asleep p = None →
  knows ow wait s m t p → knows ow' wait' s' m' t p.
Proof.
  intros Ho Hl Hw Hts Ha Hk. destruct p; simpl in *; rewrite ?Ho; try rewrite Hts by done; try done.
  all: repeat case_match; rewrite ?Ho; naive_solver.
Qed.

Definition to_mutex s s' t : Prop := ∀ t', t' ≠ t → tc_mutex s' = Some t' ↔ tc_mutex s = Some t'.

Lemma frame_step ow want wait ow' want' wait' s m t p s' p' :
  inv_with ow want wait (Sys s m) → m !! t = Some p → asleep p = None → asleep p' = None →
  tstile s' = tstile s → to_mutex s s' t → (tc_mutex s' = Some t ↔ locked p' = true) →
  (∀ t' q, t' ≠ t → m !! t' = Some q →
     match asleep q with
     | Some op => ow' !! t' = granted (waking s' (<[t:=p']> m)) op t'
     | None => ow' !! t' = ow !! t' ∧ (∀ op, last ow wait t' op → last ow' wait' t' op) ∧
         (ow !! t' = Some RW_WRITER → rw_owner s' = rw_owner s ∨ last ow' wait' t' RW_WRITER)
     end) →
  knows ow' wait' s' (<[t:=p']> m) t p' → word_ok ow' want' wait' s' (<[t:=p']> m) →
  inv_with ow' want' wait' (Sys s' (<[t:=p']> m)).
Proof.
  intros [H1 H2 H3 H4 H5 H6] Hp Ha Ha' Hts Hmu Hlk Hoth Hk Hw; simpl in *. split; simpl; try done.
  - by rewrite Hts.
  - intros t' Ht'. rewrite map_size_insert_Some by by eexists. apply H2.
    destruct (decide (t' = t)) as [->|]; [by eexists|by rewrite lookup_insert_ne in Ht'].
  - intros t' q Hq. destruct (decide (t' = t)) as [->|Hne].
    + rewrite lookup_insert_eq in Hq. simplify_eq. split_and!; [done|done|]. intros _. rewrite Hts. by eapply H3.
    + rewrite lookup_insert_ne in Hq by done. destruct (H3 _ _ Hq) as (Hkq&Hlq&Haq).
      specialize (Hoth _ _ Hne Hq). split_and!; [|by rewrite (Hmu t' Hne)|by rewrite Hts].
      destruct (asleep q) as [op|] eqn:E.
      * destruct q; simplify_eq/=. rewrite Hts. by destruct Hkq as [_ ?].
      * destruct Hoth as (?&?&?). by eapply knows_frame.
  - intros t' Ht'. rewrite lookup_insert_is_Some. destruct (decide (t = t')); [by left|right].
    split; [done|]. apply H4. by apply (Hmu t' (not_eq_sym n)).
  - intros t' q Hq. rewrite Hts in Hq. destruct (H5 _ _ Hq) as (op&Hop&?). exists op. split; [|done].
    rewrite lookup_insert_ne; [done|]. intros ->. rewrite Hp in Hop. by simplify_eq.
Qed.

Lemma mutex_pc_same {A} (f : pc P → option A) s s' m t p p' :
  (∀ q, locked q = false → f q = None) → to_mutex s s' t → m !! t = Some p →
  (tc_mutex s = Some t ↔ locked p = true) → (tc_mutex s' = Some t ↔ locked p' = true) → f p' = f p →
  (u ← tc_mutex s'; q ← <[t:=p']> m !! u; f q) = (u ← tc_mutex s; q ← m !! u; f q).
Proof.
  intros Hf Hmu Hp Hl Hl' Hfp. destruct (decide (tc_mutex s' = Some t)) as [E'|E'].
  - rewrite E'. simpl. rewrite lookup_insert_eq. simpl. rewrite Hfp. destruct (tc_mutex s) as [t2|] eqn:E; simpl.
    + destruct (decide (t2 = t)) as [->|Hne]; [by rewrite Hp|]. apply (Hmu t2 Hne) in E. congruence.
    + apply Hf. destruct (locked p); [|done]. by discriminate (proj2 Hl eq_refl).
  - destruct (decide (tc_mutex s = Some t)) as [E|E].
    + rewrite E. simpl. rewrite Hp. simpl. rewrite <- Hfp.
      rewrite (Hf p') by (destruct (locked p'); [by destruct E'; apply Hl'|done]).
      destruct (tc_mutex s') as [t2|] eqn:E2; [|done]. destruct (decide (t2 = t)) as [->|Hne]; [done|].
      apply (Hmu t2 Hne) in E2. congruence.
    + destruct (tc_mutex s') as [t2|] eqn:E2.
      * assert (Hne : t2 ≠ t) by congruence. rewrite (proj1 (Hmu t2 Hne) E2). simpl. by rewrite lookup_insert_ne.
      * destruct (tc_mutex s) as [t2|] eqn:E3; [|done]. assert (Hne : t2 ≠ t) by congruence.
        apply (Hmu t2 Hne) in E3. congruence.
Qed.
Lemma waking_same s s' m t p p' :
  to_mutex s s' t → m !! t = Some p → (tc_mutex s = Some t ↔ locked p = true) →
  (tc_mutex s' = Some t ↔ locked p' = true) → pc_wake p' = pc_wake p → waking s' (<[t:=p']> m) = waking s m.
Proof. intros. apply (mutex_pc_same _ _ _ _ _ p); try done. by intros []. Qed.
Lemma marking_same s s' m t p p' :
  to_mutex s s' t → m !! t = Some p → (tc_mutex s = Some t ↔ locked p = true) →
  (tc_mutex s' = Some t ↔ locked p' = true) → pc_mark p' = pc_mark p → marking s' (<[t:=p']> m) = marking s m.
Proof. intros. apply (mutex_pc_same _ _ _ _ _ p); try done. by intros []. Qed.

(** The writers that want the lock stay the same but for the thread that moves. *)
Lemma want_frame ow ow' m t p p' :
  m !! t = Some p → (∀ t', t' ≠ t → ow !! t' = None → ow' !! t' = None) →
  (entering p = true → ow !! t = None → entering p' = true ∧ ow' !! t = None) →
  (∃ t q, m !! t = Some q ∧ entering q = true ∧ ow !! t = None) →
  ∃ t' q, <[t:=p']> m !! t' = Some q ∧ entering q = true ∧ ow' !! t' = None.
Proof.
  intros Hp Hoth He (t'&q&Hq&Hen&Hown). exists t'. destruct (decide (t' = t)) as [->|Hne].
  - simplify_eq. destruct (He Hen Hown). exists p'. by rewrite lookup_insert_eq.
  - exists q. rewrite lookup_insert_ne by done. auto.
Qed.

Lemma dom_insert_some m t p p' : m !! t = Some p → dom (<[t:=p']> m) = dom m.
Proof. intros Hp. apply dom_insert_lookup_L. by eexists. Qed.

(** A step that leaves the word and the turnstiles alone. *)
Lemma local_step ow want wait s m t p s' p' :
  inv_with ow want wait (Sys s m) → m !! t = Some p → asleep p = None → asleep p' = None →
  rw_owner s' = rw_owner s → tstile s' = tstile s → to_mutex s s' t →
  (tc_mutex s' = Some t ↔ locked p' = true) → pc_wake p' = pc_wake p → pc_mark p' = pc_mark p →
  (entering p = true → ow !! t = None → entering p' = true) →
  knows ow wait s' (<[t:=p']> m) t p' → inv_with ow want wait (Sys s' (<[t:=p']> m)).
Proof.
  intros Hinv Hp Ha Ha' Hword Hts Hmu Hlk Hwk Hmk Hen Hk. pose proof Hinv as [_ _ H3 _ _ H6]; simpl in *.
  destruct (H3 _ _ Hp) as (_&Hlkp&_).
  assert (Ewk : waking s' (<[t:=p']> m) = waking s m) by by eapply waking_same.
  assert (Emk : marking s' (<[t:=p']> m) = marking s m) by by eapply marking_same.
  eapply frame_step; try done.
  - intros t' q Hne Hq. destruct (H3 _ _ Hq) as (Hkq&_). destruct (asleep q) as [op|] eqn:E.
    + rewrite Ewk. destruct q; simplify_eq/=. by destruct Hkq.
    + rewrite Hword. auto.
  - destruct H6 as [(k&wl&Hown&Hw&Hd) Hdom Hwait Hwr Hrd Hwant]. split.
    + exists k, wl. by rewrite Hword.
    + by rewrite (dom_insert_some _ _ p).
    + by rewrite Ewk, Emk, Hts.
    + by rewrite Ewk, Emk, Hts.
    + by rewrite Ewk, Emk, Hts.
    + intros Hwt. eapply want_frame; [done|done| |by apply Hwant]. auto.
Qed.

(** ** What the word says to a thread *)

Lemma word_view ow want wait s m t p :
  inv_with ow want wait (Sys s m) → m !! t = Some p →
  ∃ k wl kt, owned ow k wl ∧ rw_owner s = enc k wl want wait ∧ 0 ≤ k < 2 ^ 60 ∧ t = 16 * kt ∧ 0 < kt < 2 ^ 60 ∧
    (wl = false → k < kt) ∧ (wait = true → wl = false → want = true).
Proof.
  intros [H1 H2 H3 H4 H5 [(k&wl&Hown&Hw&Hd) Hdom Hwait Hwr Hrd Hwant]] Hp; simpl in *.
  destruct (H2 t) as (kt&->&Hkt); [by eexists|].
  assert (Hsize : Z.of_nat (size ow) ≤ Z.of_nat (size m)).
  { rewrite <- !size_dom. apply inj_le, subseteq_size. done. }
  exists k, wl, kt. split_and!; try done; try lia.
  - destruct Hown as [t' k' -> ->|]; [|lia]. rewrite dom_singleton_L in Hdom.
    destruct (H2 (16 * k')) as (k2&?&?); [apply elem_of_dom; set_solver|]. lia.
  - destruct Hown as [t' k' -> ->|]; [|lia]. rewrite dom_singleton_L in Hdom.
    destruct (H2 (16 * k')) as (k2&?&?); [apply elem_of_dom; set_solver|]. lia.
  - intros ->. inv Hown. lia.
Qed.

Lemma owned_W ow k wl t : owned ow k wl → ow !! t = Some RW_WRITER → ow = {[t := RW_WRITER]} ∧ t = 16 * k ∧ wl = true.
Proof.
  intros [t' k' -> ->|Hr] Hown.
  - apply lookup_singleton_Some in Hown as [-> _]. done.
  - by specialize (Hr _ _ Hown).
Qed.
Lemma owned_R ow k wl t :
  owned ow k wl → ow !! t = Some RW_READER → wl = false ∧ k = Z.of_nat (size ow) ∧ 1 ≤ k.
Proof.
  intros [t' k' -> ->|Hr] Hown.
  - by apply lookup_singleton_Some in Hown as [_ ?].
  - split_and!; [done..|]. assert (size ow ≠ 0%nat); [|lia]. intros E%map_size_empty_iff. by subst.
Qed.
Lemma owned_one ow k wl t op :
  owned ow k wl → ow !! t = Some op → (wl = false → k = 1) → ow = {[t := op]}.
Proof.
  intros [t' k' -> ->|Hr] Hown Hk.
  - apply lookup_singleton_Some in Hown as [-> ->]. done.
  - rewrite <- (insert_delete_id ow t op) by done.
    assert (delete t ow = ∅) as ->; [|done]. apply map_size_empty_iff.
    rewrite map_size_delete_Some by by eexists. lia.
Qed.

(** Releasing the hold of [t]: the word, and when the lock must be handed over. *)
Lemma release_word ow want wait s m t p op :
  inv_with ow want wait (Sys s m) → m !! t = Some p → ow !! t = Some op →
  u64 (rw_owner s - incr t op) = enc (Z.of_nat (size (delete t ow))) false want wait ∧
  0 ≤ Z.of_nat (size (delete t ow)) < 2 ^ 60 ∧ owned (delete t ow) (Z.of_nat (size (delete t ow))) false.
Proof.
  intros Hinv Hp Hop. destruct (word_view _ _ _ _ _ _ _ Hinv Hp) as (k&wl&kt&Hown&Hw&Hk&Et&Hkt&_&_).
  assert (Hsz : size (delete t ow) = Nat.pred (size ow)) by by (apply map_size_delete_Some; eexists).
  destruct op.
  - destruct (owned_R _ _ _ _ Hown Hop) as (->&->&?). rewrite Hsz. split_and!; try lia.
    + rewrite Hw. replace (_ - _) with (enc (Z.of_nat (Nat.pred (size ow))) false want wait); [apply enc_u64; lia|].
      unfold enc. change (incr t RW_READER) with 16. lia.
    + rewrite <- Hsz. constructor. intros t' op [_ Ho]%lookup_delete_Some. inv Hown. eauto.
  - destruct (owned_W _ _ _ _ Hown Hop) as (->&->&->). rewrite delete_singleton_eq. split_and!; [|done..|].
    + rewrite Hw, incr_writer by lia.
      replace (_ - _) with (enc 0 false want wait) by (unfold enc; destruct want, wait; cbn [flags]; unfold flags; lia).
      by apply enc_u64.
    + constructor. by intros ?? ?%lookup_empty_Some.
Qed.
Lemma hand_over_last ow want wait s m t p op :
  inv_with ow want wait (Sys s m) → m !! t = Some p → ow !! t = Some op →
  hand_over (u64 (rw_owner s - incr t op)) = true ↔ last ow wait t op.
Proof.
  intros Hinv Hp Hop. destruct (release_word _ _ _ _ _ _ _ _ Hinv Hp Hop) as (->&Hr&_).
  unfold hand_over. rewrite enc_last by done. rewrite andb_true_iff, Z.eqb_eq. unfold last. split.
  - intros [Hz ->]. split; [|done]. rewrite <- (insert_delete_id ow t op) by done.
    assert (delete t ow = ∅) as ->; [|done]. apply map_size_empty_iff. lia.
  - intros [-> ->]. by rewrite delete_singleton_eq.
Qed.

Lemma release_step ow want wait s m t p op s' :
  inv_with ow want wait (Sys s m) → m !! t = Some p → ow !! t = Some op →
  asleep p = None → locked p = false → entering p = false →
  hand_over (u64 (rw_owner s - incr t op)) = false →
  s' = Shared (u64 (rw_owner s - incr t op)) (tc_mutex s) (tstile s) →
  inv_with (delete t ow) want wait (Sys s' (<[t:=Idle None]> m)).
Proof.
  intros Hinv Hp Hop Ha Hlk Hen Hh ->. pose proof Hinv as [_ _ H3 _ _ Hw]; simpl in *.
  destruct (H3 _ _ Hp) as (_&Hlkp&_). rewrite Hlk in Hlkp.
  destruct (release_word _ _ _ _ _ _ _ _ Hinv Hp Hop) as (Ew&Hr&Hown').
  set (s' := Shared _ _ _). assert (Hmu : to_mutex s s' t) by done.
  assert (Ewk : waking s' (<[t:=Idle None]> m) = waking s m) by (eapply waking_same; try done; by destruct p).
  assert (Emk : marking s' (<[t:=Idle None]> m) = marking s m) by (eapply marking_same; try done; by destruct p).
  assert (Hnl : ¬ last ow wait t op).
  { rewrite <- (hand_over_last _ _ _ _ _ _ _ _ Hinv Hp Hop), Hh. done. }
  assert (Hothers : ∀ t' op', t' ≠ t → ow = {[t' := op']} → False).
  { intros t' op' Hne ->. by apply lookup_singleton_Some in Hop as [? _]. }
  destruct Hw as [(k&wl&Hown&Hwd&Hd) Hdom Hwait Hwr Hrd Hwant].
  eapply frame_step; try done.
  - intros t' q Hne Hq. rewrite lookup_delete_ne by done. destruct (H3 _ _ Hq) as (Hkq&_).
    destruct (asleep q) as [op'|] eqn:E.
    + rewrite Ewk. destruct q; simplify_eq/=. by destruct Hkq.
    + split_and!; [done|by intros op'' [?%(Hothers _ _ Hne) _]|]. intros HW.
      destruct (owned_W _ _ _ _ Hown HW) as (?&_). by exfalso; eapply (Hothers _ _ Hne).
  - simpl. by rewrite lookup_delete_eq.
  - split.
    + eexists _, _. split_and!; [exact Hown'|exact Ew|]. intros Hwt _. destruct op.
      * apply Hd; [done|]. by destruct (owned_R _ _ _ _ Hown Hop).
      * destruct (owned_W _ _ _ _ Hown Hop) as (->&_). by destruct Hnl.
    + rewrite (dom_insert_some _ _ p) by done. rewrite dom_delete_L. set_solver.
    + rewrite Ewk, Emk. exact Hwait.
    + rewrite Ewk, Emk. intros Hq. destruct (Hwr Hq) as [-> Hne]. split; [done|]. intros He.
      apply Hnl. split; [|apply Hwait; destruct Hq as [Hq'|Hq']; [left; by exists TS_WRITER_Q|right; by rewrite Hq']]. by rewrite <- (insert_delete_id ow t op), He.
    + rewrite Ewk, Emk. intros (t'&[_ Ht']%lookup_delete_Some). apply Hrd. by exists t'.
    + intros Hwt. eapply want_frame; [done| | |by apply Hwant].
      * intros t' Hne Hn. by rewrite lookup_delete_ne.
      * by rewrite Hen.
Qed.

(** Acquiring by compare-and-swap: [rw_vector_enter] clears RW_WRITE_WANTED,
    [rw_vector_tryenter] does not. *)
Lemma acquire_word ow want wait s m t p op :
  inv_with ow want wait (Sys s m) → m !! t = Some p → ow !! t = None →
  (rw_owner s .& need_wait op =? 0) = true →
  ∃ k wl, owned (<[t:=op]> ow) k wl ∧ 0 ≤ k < 2 ^ 60 ∧ u64 (rw_owner s + incr t op) = enc k wl want wait ∧
    (wl = false → want = false ∧ wait = false) ∧ (op = RW_WRITER → ow = ∅) ∧ ¬ (∃ t', ow !! t' = Some RW_WRITER).
Proof.
  intros Hinv Hp Hop Hn. destruct (word_view _ _ _ _ _ _ _ Hinv Hp) as (k&wl&kt&Hown&Hw&Hk&Et&Hkt&Hlt&Hd).
  rewrite Hw, enc_need in Hn by done. destruct op.
  - apply andb_true_iff in Hn as [->%negb_true_iff ->%negb_true_iff]. specialize (Hlt eq_refl). clear Et. inv Hown.
    assert (Hk' : 0 ≤ Z.of_nat (size ow) + 1 < 2 ^ 60) by lia.
    exists (Z.of_nat (size ow) + 1), false. split_and!; try done; try lia.
    + replace (Z.of_nat (size ow) + 1) with (Z.of_nat (size (<[t:=RW_READER]> ow))) by (rewrite map_size_insert_None by done; lia).
      constructor. intros t' op' [[_ ?]|[_ ?]]%lookup_insert_Some; eauto.
    + rewrite Hw. change (incr t RW_READER) with 16. rewrite <- (enc_u64 _ Hk'). f_equal. unfold enc. lia.
    + intros [t' Ht']. naive_solver.
  - apply andb_true_iff in Hn as [->%negb_true_iff ->%Z.eqb_eq]. inv Hown.
    assert (ow = ∅) as -> by (apply map_size_empty_iff; lia).
    exists kt, true. split_and!; try done; try lia.
    + by apply (owned_write _ (16 * kt)).
    + rewrite Hw, incr_writer by lia. rewrite <- (enc_u64 kt) by lia. f_equal. unfold enc.
      destruct want, wait; unfold flags; lia.
    + by intros [? []%lookup_empty_Some].
Qed.

Lemma acquire_step ow want wait s m t p op want' w' :
  inv_with ow want wait (Sys s m) → m !! t = Some p → ow !! t = None →
  asleep p = None → locked p = false → (rw_owner s .& need_wait op =? 0) = true →
  (want' = false ∧ w' = u64 (rw_owner s + incr t op) .& compl RW_WRITE_WANTED ∨
   want' = want ∧ w' = u64 (rw_owner s + incr t op) ∧ entering p = false) →
  inv_with (<[t:=op]> ow) want' wait (Sys (Shared w' (tc_mutex s) (tstile s)) (<[t:=Idle (Some op)]> m)).
Proof.
  intros Hinv Hp Hop Ha Hlk Hn Hcase. pose proof Hinv as [_ _ H3 _ _ Hw]; simpl in *.
  destruct (H3 _ _ Hp) as (_&Hlkp&_). rewrite Hlk in Hlkp.
  destruct (acquire_word _ _ _ _ _ _ _ _ Hinv Hp Hop Hn) as (k&wl&Hown'&Hk&Ew&Hr&Hempty&HnoW).
  set (s' := Shared _ _ _). assert (Hmu : to_mutex s s' t) by done.
  assert (Ewk : waking s' (<[t:=Idle (Some op)]> m) = waking s m) by (eapply waking_same; try done; by destruct p).
  assert (Emk : marking s' (<[t:=Idle (Some op)]> m) = marking s m) by (eapply marking_same; try done; by destruct p).
  destruct Hw as [(k0&wl0&Hown&Hwd&Hd) Hdom Hwait Hwr Hrd Hwant].
  eapply frame_step; try done.
  - intros t' q Hne Hq. rewrite lookup_insert_ne by done. destruct (H3 _ _ Hq) as (Hkq&_).
    destruct (asleep q) as [op'|] eqn:E.
    + rewrite Ewk. destruct q; simplify_eq/=. by destruct Hkq.
    + split_and!; [done| |by intros HW; destruct HnoW; eexists].
      intros op' [Hs Hwt]. exfalso. destruct wl; [|by rewrite (proj2 (Hr eq_refl)) in Hwt].
      inv Hown'. assert (op = RW_WRITER) as ->.
      { assert (Ht : <[t:=op]> {[t' := op']} !! t = Some op) by apply lookup_insert_eq.
        match goal with E : _ = {[_ := RW_WRITER]} |- _ => rewrite E in Ht end.
        by apply lookup_singleton_Some in Ht as [_ ?]. }
      specialize (Hempty eq_refl). by apply (f_equal (λ m : gmap Z krw_t, m !! t')) in Hempty; rewrite lookup_singleton_eq in Hempty.
  - simpl. by rewrite lookup_insert_eq.
  - split.
    + exists k, wl. split_and!; [done| |].
      * destruct Hcase as [[-> ->]|(->&->&_)]; simpl; rewrite Ew; [by apply enc_unwant|done].
      * intros Hwt ->. destruct (Hr eq_refl) as [_ ?]. congruence.
    + rewrite (dom_insert_some _ _ p) by done. rewrite dom_insert_L.
      assert (t ∈ dom m) by (apply elem_of_dom; by eexists). set_solver.
    + rewrite Ewk, Emk. exact Hwait.
    + rewrite Ewk, Emk. intros Hq. exfalso. destruct (Hwr Hq) as [-> Hne]. destruct wl; [|by destruct (Hr eq_refl)].
      inv Hown'. apply Hne, Hempty.
      assert (Ht : <[t:=op]> ow !! t = Some op) by apply lookup_insert_eq.
      match goal with E : _ = {[_ := RW_WRITER]} |- _ => rewrite E in Ht end.
      by apply lookup_singleton_Some in Ht as [_ ?].
    + intros (t'&Ht') Hwt. exfalso. destruct wl; [|destruct (Hr eq_refl) as [-> _]; by destruct Hcase as [[-> _]|(->&_)]].
      inv Hown'. match goal with E : _ = {[_ := RW_WRITER]} |- _ => rewrite E in Ht' end.
      by apply lookup_singleton_Some in Ht' as [_ ?].
    + intros Hwt. destruct Hcase as [[-> _]|(->&_&Hen)]; [done|]. eapply want_frame; [done| | |by apply Hwant].
      * intros t' Hne Hn'. by rewrite lookup_insert_ne.
      * by rewrite Hen.
Qed.

(** A request marks the word before it sleeps. *)
Lemma mark_step ow want wait s m t op ts owner :
  inv_with ow want wait (Sys s m) → m !! t = Some (EnterMark op ts owner) → rw_owner s = owner →
  inv_with ow (want || bool_decide (op = RW_WRITER)) true
    (Sys (Shared (owner .| set_wait op) (tc_mutex s) (tstile s)) (<[t:=EnterBlock op ts]> m)).
Proof.
  intros Hinv Hp <-. pose proof Hinv as [_ _ H3 _ _ Hw]; simpl in *.
  destruct (H3 _ _ Hp) as ((Hnone&Hat&Hneed)&Hlkp&_).
  destruct (word_view _ _ _ _ _ _ _ Hinv Hp) as (k&wl&kt&Hown&Hwd&Hk&_&_&_&Hd).
  set (s' := Shared _ _ _). assert (Hmu : to_mutex s s' t) by done.
  assert (Ewk : waking s' (<[t:=EnterBlock op ts]> m) = waking s m) by by eapply waking_same.
  assert (Emk : marking s' (<[t:=EnterBlock op ts]> m) = Some op).
  { unfold marking. assert (tc_mutex s' = Some t) as -> by by apply Hlkp. simpl. by rewrite lookup_insert_eq. }
  destruct Hw as [_ Hdom Hwait Hwr Hrd Hwant]. rewrite Hwd, enc_need in Hneed by done.
  eapply frame_step; try done.
  - intros t' q Hne Hq. destruct (H3 _ _ Hq) as (Hkq&_). destruct (asleep q) as [op'|] eqn:E.
    + rewrite Ewk. destruct q; simplify_eq/=. by destruct Hkq.
    + split_and!; [done|by intros op' [? _]|]. intros HW. right. by destruct (owned_W _ _ _ _ Hown HW) as (?&_).
  - split.
    + exists k, wl. split_and!; [done| |].
      * simpl. rewrite Hwd. by apply enc_set_wait.
      * intros _ ->. destruct op; [destruct want; [done|by rewrite andb_true_r in Hneed]|apply orb_true_r].
    + by rewrite (dom_insert_some _ _ (EnterMark op ts (rw_owner s))).
    + rewrite Emk. split; [by right|done].
    + rewrite Ewk, Emk. intros [Hq|[= ->]].
      * destruct Hwr as [-> ?]; [by left|]. done.
      * split; [apply orb_true_r|]. intros ->. by inv Hown.
    + rewrite Ewk, Emk. intros HR Hwt. destruct op; [left|by right].
      destruct HR as [t' HR]. destruct (owned_R _ _ _ _ Hown HR) as (->&_).
      destruct (Hrd (ex_intro _ t' HR)) as [?|Hm]; [by destruct want|done|].
      exfalso. unfold marking in Hm. rewrite (proj2 Hlkp eq_refl) in Hm. simpl in Hm. by rewrite Hp in Hm.
    + intros Hwt. destruct want eqn:Ewant.
      * eapply want_frame; [done|done| |by apply Hwant]. intros Hen _. split; [by destruct op|done].
      * exists t, (EnterBlock op ts). rewrite lookup_insert_eq. split_and!; [done| |done].
        by destruct op.
Qed.

(** The only owner changes its kind of hold. *)
Lemma swap_step ow want wait s m t p op op' want' k wl w' p' :
  inv_with ow want wait (Sys s m) → m !! t = Some p → ow = {[t := op]} →
  asleep p = None → asleep p' = None → locked p' = locked p → entering p = false →
  pc_wake p' = pc_wake p → pc_mark p' = pc_mark p →
  owned {[t := op']} k wl → w' = enc k wl want' wait → (wait = true → wl = false → want' = true) →
  (want' = want ∨ want' = false ∧ wait = false) →
  (op' = RW_READER → want' = true →
     stay (waking s m) TS_WRITER_Q (ts_queue (tstile s) TS_WRITER_Q) ≠ [] ∨ marking s m = Some RW_WRITER) →
  (∀ s', rw_owner s' = w' → tstile s' = tstile s → knows {[t := op']} wait s' (<[t:=p']> m) t p') →
  inv_with {[t := op']} want' wait (Sys (Shared w' (tc_mutex s) (tstile s)) (<[t:=p']> m)).
Proof.
  intros Hinv Hp Eow Ha Ha' Hlk Hen Hwk Hmk Hown' Ew' Hd' Hwc Hrd' Hk. pose proof Hinv as [_ _ H3 _ _ Hw]; simpl in *.
  destruct (H3 _ _ Hp) as (_&Hlkp&_).
  set (s' := Shared _ _ _). assert (Hmu : to_mutex s s' t) by done.
  assert (Ewk : waking s' (<[t:=p']> m) = waking s m) by (eapply waking_same; try done; by rewrite Hlk).
  assert (Emk : marking s' (<[t:=p']> m) = marking s m) by (eapply marking_same; try done; by rewrite Hlk).
  destruct Hw as [_ Hdom Hwait Hwr Hrd Hwant].
  assert (Hne' : ∀ t' o, t' ≠ t → ({[t := o]} : gmap Z krw_t) !! t' = None).
  { intros. by apply lookup_singleton_ne. }
  eapply frame_step; try done.
  - by rewrite Hlk.
  - intros t' r Hne Hr. rewrite Eow, !Hne' by done. destruct (H3 _ _ Hr) as (Hkr&_).
    destruct (asleep r) as [o|] eqn:E.
    + rewrite Ewk. destruct r; simplify_eq/=. destruct Hkr as [Hg _]. by rewrite Hne' in Hg.
    + split_and!; [done| |done]. intros o [E' _]. exfalso.
      assert (({[t := op]} : gmap Z krw_t) !! t' = Some o) by (rewrite E'; apply lookup_singleton_eq).
      by rewrite Hne' in *.
  - by apply Hk.
  - split.
    + exists k, wl. by split_and!.
    + rewrite (dom_insert_some _ _ p) by done. rewrite Eow in Hdom. by rewrite !dom_singleton_L in *.
    + rewrite Ewk, Emk. exact Hwait.
    + rewrite Ewk, Emk. intros Hq. destruct (Hwr Hq) as [-> _]. split; [|apply map_non_empty_singleton].
      destruct Hwc as [->|[-> Hf]]; [done|]. rewrite <- Hf. apply Hwait. destruct Hq as [Hq'|Hq']; [left; by exists TS_WRITER_Q|right; by rewrite Hq'].
    + rewrite Ewk, Emk. intros (t'&[_ ->]%lookup_singleton_Some). auto.
    + intros Hwt. destruct Hwc as [->|[-> _]]; [|done]. eapply want_frame; [done| | |by apply Hwant].
      * intros t' Hne _. by apply Hne'.
      * by rewrite Hen.
Qed.

(** The last owner hands the lock over, and is about to wake the new owners. *)
Lemma give_step ow want wait s m t p op ow' want' wait' w' p' q nl k wl :
  inv_with ow want wait (Sys s m) → m !! t = Some p → last ow wait t op →
  asleep p = None → asleep p' = None → locked p = true → locked p' = true →
  pc_wake p' = Some (q, nl) → pc_mark p' = None →
  (∀ t' o, m !! t' = Some (EnterAsleep o) → ow' !! t' = granted (Some (q, nl)) o t') →
  (∀ t' r, t' ≠ t → m !! t' = Some r → asleep r = None → ow' !! t' = None) →
  owned ow' k wl → w' = enc k wl want' wait' → (wait' = true → wl = false → want' = true) →
  dom ow' ⊆ dom m →
  (wait' = true ↔ ∃ q', stay (Some (q, nl)) q' (ts_queue (tstile s) q') ≠ []) →
  (stay (Some (q, nl)) TS_WRITER_Q (ts_queue (tstile s) TS_WRITER_Q) ≠ [] → want' = true ∧ ow' ≠ ∅) →
  (want' = true → ∃ l, l ∈ ts_queue (tstile s) TS_WRITER_Q ∧ ow' !! l = None) →
  ((∃ t', ow' !! t' = Some RW_READER) → want' = true →
     stay (Some (q, nl)) TS_WRITER_Q (ts_queue (tstile s) TS_WRITER_Q) ≠ []) →
  (∀ s', tstile s' = tstile s → knows ow' wait' s' (<[t:=p']> m) t p') →
  inv_with ow' want' wait' (Sys (Shared w' (tc_mutex s) (tstile s)) (<[t:=p']> m)).
Proof.
  intros Hinv Hp [Eow _] Ha Ha' Hlk Hlk' Hwk Hmk Hsl Hot Hown Ew Hd Hdom Hwait Hwr Hwant Hrd Hk.
  pose proof Hinv as [_ _ H3 _ H5 _]; simpl in *. destruct (H3 _ _ Hp) as (_&Hlkp&_).
  set (s' := Shared _ _ _). assert (Emu : tc_mutex s = Some t) by by apply Hlkp.
  assert (Ewk : waking s' (<[t:=p']> m) = Some (q, nl)).
  { unfold waking. simpl. rewrite Emu. simpl. by rewrite lookup_insert_eq. }
  assert (Emk : marking s' (<[t:=p']> m) = None).
  { unfold marking. simpl. rewrite Emu. simpl. by rewrite lookup_insert_eq. }
  eapply frame_step; try done.
  - intros t' r Hne Hr. destruct (asleep r) as [o|] eqn:E.
    + rewrite Ewk. destruct r; simplify_eq/=. by apply Hsl.
    + rewrite (Hot _ _ Hne Hr E), Eow, lookup_singleton_ne by done. split_and!; [done| |done].
      intros o [E' _]. exfalso.
      assert (({[t := op]} : gmap Z krw_t) !! t' = Some o) as Hl by (rewrite E'; apply lookup_singleton_eq).
      by rewrite lookup_singleton_ne in Hl.
  - by apply Hk.
  - split; rewrite ?Ewk, ?Emk.
    + exists k, wl. by split_and!.
    + by rewrite (dom_insert_some _ _ p).
    + rewrite Hwait. split; [by left|]. by intros [?|?].
    + intros [Hq|?]; [auto|done].
    + auto.
    + intros Hwt. destruct (Hwant Hwt) as (l&Hl&Hnone). destruct (H5 _ _ Hl) as (o&Ho&Eo).
      exists l, (EnterAsleep o). rewrite lookup_insert_ne; [|intros ->; rewrite Hp in Ho; by simplify_eq].
      destruct o; [done|]. auto.
Qed.

Lemma lookup_wake_all woken m t :
  wake_all woken m !! t = if decide (t ∈ woken) then wake_pc <$> m !! t else m !! t.
Proof.
  unfold wake_all. induction woken as [|u woken IH]; simpl; [done|]. destruct (decide (t = u)) as [->|Hne].
  - rewrite lookup_alter_eq, IH. rewrite (decide_True (P := u ∈ u :: woken)) by set_solver.
    case_decide; [|done]. rewrite <- option_fmap_compose. apply option_fmap_ext. by intros [].
  - rewrite lookup_alter_ne, IH by done. do 2 case_decide; set_solver.
Qed.
Lemma wake_all_dom woken m : dom (wake_all woken m) = dom m.
Proof.
  apply set_eq. intros t. rewrite !elem_of_dom, lookup_wake_all. case_decide; [|done]. by rewrite fmap_is_Some.
Qed.
Lemma lwps_dom m m' : dom m' = dom m → lwps_ok m → lwps_ok m'.
Proof.
  intros Hd Hm t Ht. rewrite <- size_dom, Hd, size_dom. apply Hm. apply elem_of_dom. rewrite <- Hd. by apply elem_of_dom.
Qed.

(** The wake-up takes the threads off the queue that it does not leave asleep. *)
Lemma stay_wakeup g q nl (l : list Z) woken q' q'l :
  g = Some (q, nl) → woken = match nl with Some k => [k] | None => l end →
  (q' = q → q'l = l) →
  (if decide (q' = q) then filter (λ x, x ∉ woken) l else q'l) = stay g q' q'l.
Proof.
  intros -> -> Hq. unfold stay. destruct (decide (q' = q)) as [E|]; [|done]. rewrite (Hq E). destruct nl.
  - apply list_filter_iff. intros x. set_solver.
  - apply elem_of_nil_inv. intros x [Hn Hx]%list_elem_of_filter. by apply Hn.
Qed.

Lemma wake_ok ow want wait s m t p ts q count nl h :
  inv_with ow want wait (Sys s m) → m !! t = Some p → locked p = true → asleep p = None → entering p = false →
  pc_wake p = Some (q, nl) → pc_mark p = None → ts_lookup (tstile s) = Ok (Some ts) →
  match nl with
  | Some l => q = TS_WRITER_Q ∧ count = 1 ∧ l ∈ ts_queue (tstile s) q
  | None => 0 < count ∧ count = Z.of_nat (length (ts_queue (tstile s) q))
  end → ow !! t = h →
  ∃ ts' woken, ts_wakeup (tstile s) ts q count nl = Ok (ts', woken) ∧
    inv_with ow want wait (Sys (Shared (rw_owner s) None ts') (wake_all woken (<[t:=Idle h]> m))).
Proof.
  intros Hinv Hp Hlk Ha Hen Hwk Hmk Hat Hcount Hh. pose proof Hinv as [H1 H2 H3 H4 H5 Hw]; simpl in *.
  destruct (H3 _ _ Hp) as (_&Hlkp&Haw). assert (Emu : tc_mutex s = Some t) by by apply Hlkp.
  assert (Ewk : waking s m = Some (q, nl)) by (unfold waking; rewrite Emu; simpl; by rewrite Hp).
  assert (Emk : marking s m = None) by (unfold marking; rewrite Emu; simpl; by rewrite Hp).
  destruct (ts_wakeup_law (tstile s) ts q count nl) as (ts'&Hwake&Hok&Hq'&Haw'); [done|done| | |].
  { destruct nl as [l|]; [|lia]. destruct Hcount as (->&->&Hl). destruct (ts_queue _ _); [set_solver|simpl; lia]. }
  { intros l ->. naive_solver. }
  set (woken := match nl with Some l => [l] | None => take (Z.to_nat count) (ts_queue (tstile s) q) end) in *.
  assert (Ewoken : woken = match nl with Some l => [l] | None => ts_queue (tstile s) q end).
  { unfold woken. destruct nl; [done|]. destruct Hcount as [_ ->]. rewrite Nat2Z.id. by rewrite take_ge. }
  clearbody woken.
  assert (Hstay : ∀ q', ts_queue ts' q' = stay (Some (q, nl)) q' (ts_queue (tstile s) q')).
  { intros q'. rewrite Hq'. apply (stay_wakeup _ q nl); [done|done|by intros ->]. }
  assert (Hwq : ∀ k, k ∈ woken → k ∈ ts_queue (tstile s) q).
  { intros k. rewrite Ewoken. destruct nl; [|done]. destruct Hcount as (_&_&?). by intros ->%list_elem_of_singleton. }
  assert (Htw : t ∉ woken).
  { intros Hin%Hwq. destruct (H5 _ _ Hin) as (op&Hop&_). rewrite Hp in Hop. by simplify_eq. }
  assert (Hdom : dom (wake_all woken (<[t:=Idle h]> m)) = dom m) by by rewrite wake_all_dom, (dom_insert_some _ _ p).
  exists ts', woken. split; [done|]. split; simpl; try done.
  - by eapply lwps_dom.
  - intros k r Hr. rewrite lookup_wake_all in Hr. destruct (decide (k = t)) as [->|Hne].
    { rewrite decide_False, lookup_insert_eq in Hr by done. simplify_eq. split_and!; [done|done|].
      intros _. apply Haw'. left. by apply Haw. }
    rewrite lookup_insert_ne in Hr by done. case_decide as Hkw.
    + destruct (H5 _ _ (Hwq _ Hkw)) as (op&Hop&Eq). rewrite Hop in Hr. simplify_eq/=.
      destruct (H3 _ _ Hop) as ((Hg&_)&_). rewrite Ewk in Hg. split_and!; [|done|by intros _; apply Haw'; right].
      simpl. rewrite Hg. destruct op, nl as [l|]; simpl in *; try (by left); try (by right).
      * by destruct Hcount as [? _].
      * left. try rewrite Ewoken in Hkw. apply list_elem_of_singleton in Hkw as ->. by rewrite decide_True.
    + destruct (H3 _ _ Hr) as (Hkr&Hlr&Har). split_and!; [| |intros ?; apply Haw'; left; by apply Har].
      * destruct (asleep r) as [op|] eqn:E.
        -- destruct r; simplify_eq/=. destruct Hkr as [Hg Hin]. rewrite Ewk in Hg. split.
           ++ rewrite Hg. simpl. try rewrite Ewoken in Hkw. destruct op, q, nl as [l|]; simpl; try done.
              rewrite decide_False; [done|]. set_solver.
           ++ rewrite Hq'. case_decide as Eq; [|done]. apply list_elem_of_filter. split; [done|]. by rewrite <- Eq.
        -- eapply knows_frame; [done|done| | |done|exact Hkr]; [by left|]. intros Hlk'.
           apply Hlr in Hlk'. congruence.
      * rewrite <- Hlr, Emu. naive_solver.
  - intros k q' Hk. rewrite Hstay in Hk. assert (Hold : k ∈ ts_queue (tstile s) q' ∧ k ∉ woken).
    { rewrite Ewoken. unfold stay in Hk. case_decide as Eq; [|split; [done|]].
      - subst. destruct nl; [|set_solver]. apply list_elem_of_filter in Hk as [? ?]. split; [done|]. set_solver.
      - intros Hin. rewrite <- Ewoken in Hin. destruct (H5 _ _ Hk) as (o1&Ho1&Eo1), (H5 _ _ (Hwq _ Hin)) as (o2&Ho2&Eo2).
        simplify_eq. }
    destruct Hold as [Hold Hnw]. destruct (H5 _ _ Hold) as (op&Hop&?). exists op. split; [|done].
    rewrite lookup_wake_all, decide_False, lookup_insert_ne by (done || intros ->; rewrite Hp in Hop; by simplify_eq).
    done.
  - destruct Hw as [Hwd Hdo Hwait Hwr Hrd Hwant]. rewrite Ewk, Emk in *. split; simpl; try done.
    + by rewrite Hdom.
    + rewrite Hwait. setoid_rewrite Hstay. naive_solver.
    + rewrite Hstay. intros [?|?]; [auto|done].
    + rewrite Hstay. intros HR Hwt. destruct (Hrd HR Hwt) as [?|?]; [by left|done].
    + intros Hwt. destruct (Hwant Hwt) as (k&r&Hr&Her&Hno). exists k.
      assert (k ≠ t) by (intros ->; rewrite Hp in Hr; simplify_eq; by rewrite Hen in Her).
      rewrite lookup_wake_all, lookup_insert_ne, Hr by done. case_decide.
      * exists (wake_pc r). split_and!; [done| |done]. by destruct r.
      * by exists r.
Qed.

(** A request goes to sleep. *)
Lemma block_ok eprio ow want wait s m t op ts :
  inv_with ow want wait (Sys s m) → m !! t = Some (EnterBlock op ts) →
  ∃ ts', ts_block eprio (tstile s) ts (queue_of op) t = Ok ts' ∧
    inv_with ow want wait (Sys (Shared (rw_owner s) None ts') (<[t:=EnterAsleep op]> m)).
Proof.
  intros Hinv Hp. pose proof Hinv as [H1 H2 H3 H4 H5 Hw]; simpl in *.
  destruct (H3 _ _ Hp) as ((Hown&Hat)&Hlkp&Haw). assert (Emu : tc_mutex s = Some t) by by apply Hlkp.
  assert (Ewk : waking s m = None) by (unfold waking; rewrite Emu; simpl; by rewrite Hp).
  assert (Emk : marking s m = Some op) by (unfold marking; rewrite Emu; simpl; by rewrite Hp).
  destruct (ts_block_law eprio (tstile s) ts (queue_of op) t) as (ts'&Hb&Hok&Hq'&Haw'); [done|done|by apply Haw|].
  assert (Hin : ∀ k q', k ∈ ts_queue ts' q' ↔ (k = t ∧ q' = queue_of op) ∨ k ∈ ts_queue (tstile s) q').
  { intros k q'. rewrite Hq'. case_decide as Eq; [subst; rewrite elem_of_cons; naive_solver|naive_solver]. }
  exists ts'. split; [done|]. split; simpl; try done.
  - eapply lwps_dom; [|exact H2]. by eapply dom_insert_some.
  - intros k r Hr. destruct (decide (k = t)) as [->|Hne].
    + rewrite lookup_insert_eq in Hr. simplify_eq. split_and!; [|done|done]. split; [by rewrite Hown|].
      apply Hin. auto.
    + rewrite lookup_insert_ne in Hr by done. destruct (H3 _ _ Hr) as (Hkr&Hlr&Har). split_and!.
      * destruct (asleep r) as [o|] eqn:E.
        -- destruct r; simplify_eq/=. destruct Hkr as [Hg ?]. rewrite Ewk in Hg. split; [done|]. apply Hin. auto.
        -- eapply knows_frame; [done|done| | |done|exact Hkr]; [by left|]. intros Hlk'. apply Hlr in Hlk'. congruence.
      * rewrite <- Hlr, Emu. naive_solver.
      * intros ?. apply Haw'. auto.
  - intros k q' [[-> ->]|Hk]%Hin; [exists op; by rewrite lookup_insert_eq|].
    destruct (H5 _ _ Hk) as (o&Ho&?). exists o. rewrite lookup_insert_ne; [done|]. intros ->.
    rewrite Hp in Ho. by simplify_eq.
  - destruct Hw as [Hwd Hdo Hwait Hwr Hrd Hwant]. rewrite Ewk, Emk in *. split; simpl; try done.
    + by rewrite (dom_insert_some _ _ (EnterBlock op ts)).
    + split; [|intros _; apply Hwait; by right]. intros _. left. exists (queue_of op).
      intros Hnil. assert (t ∈ ts_queue ts' (queue_of op)) as Hx by (apply Hin; auto). rewrite Hnil in Hx. set_solver.
    + intros [Hne|?]; [|done]. apply Hwr. destruct op; [left|by right]. intros Hnil. apply Hne.
      specialize (Hq' TS_WRITER_Q). simpl in Hq', Hnil. rewrite Hnil in Hq'. by apply Permutation_nil_r.
    + intros HR Hwt. left. intros Hnil. specialize (Hq' TS_WRITER_Q). simpl in Hq', Hnil. rewrite Hnil in Hq'.
      destruct op; simpl in Hq'; apply Permutation_nil_l in Hq'; [|done]. by destruct (Hrd HR Hwt).
    + intros Hwt. eapply want_frame; [done|done| |by apply Hwant]. intros He _. by destruct op.
Qed.

(** ** Every step of every function *)

Lemma to_mutex_refl s t : to_mutex s s t.
Proof. by intros ?. Qed.
Lemma to_mutex_take s t : tc_mutex s = None → to_mutex s (Shared (rw_owner s) (Some t) (tstile s)) t.
Proof. intros E t' Hne. simpl. rewrite E. naive_solver. Qed.
Lemma to_mutex_give s t : tc_mutex s = Some t → to_mutex s (unlock s) t.
Proof. intros E t' Hne. simpl. rewrite E. naive_solver. Qed.

(** The step leads to a state of the invariant, and to no fault. *)
Definition step_good m t (r : res (outcome T P)) : Prop :=
  ∃ o, r = Ok o ∧
    match o with
    | Blocked => True
    | Next s' p' woken => inv (Sys s' (wake_all woken (<[t:=p']> m)))
    end.

Lemma good_go m t s' p' : inv (Sys s' (<[t:=p']> m)) → step_good m t (go s' p').
Proof. intros Hi. eexists. split; [done|]. exact Hi. Qed.
Lemma good_blocked m t : step_good m t (mret Blocked).
Proof. eexists. by split. Qed.
Lemma good_cas m t s o n k :
  (rw_owner s = o → step_good m t (k (Shared n (tc_mutex s) (tstile s)) o)) →
  (rw_owner s ≠ o → step_good m t (k s (rw_owner s))) → step_good m t (rw_cas s o n k).
Proof. intros Heq Hne. unfold rw_cas. destruct (Z.eqb_spec (rw_owner s) o) as [E|E]; [rewrite E|]; auto. Qed.

Section thread.
Context (ow : gmap Z krw_t) (want wait : bool) (s : shared T) (m : gmap Z (pc P)) (t : Z) (p : pc P).
Hypothesis Hinv : inv_with ow want wait (Sys s m).
Hypothesis Hp : m !! t = Some p.

Lemma the_knows : knows ow wait s m t p.
Proof using Hinv Hp. by destruct (iv_threads _ _ _ _ Hinv _ _ Hp). Qed.
Lemma the_mutex : tc_mutex s = Some t ↔ locked p = true.
Proof using Hinv Hp. by destruct (iv_threads _ _ _ _ Hinv _ _ Hp) as (_&?&_). Qed.

Lemma good_local p' :
  asleep p = None → asleep p' = None → locked p' = locked p → pc_wake p' = pc_wake p → pc_mark p' = pc_mark p →
  (entering p = true → ow !! t = None → entering p' = true) → knows ow wait s m t p' → step_good m t (go s p').
Proof using Hinv Hp.
  intros Ha Ha' Hlk Hwk Hmk Hen Hk. apply good_go. exists ow, want, wait.
  eapply local_step; try done; [rewrite Hlk; exact the_mutex|].
  by destruct p'.
Qed.
Lemma good_lookup (k : option P → pc P) :
  asleep p = None → locked p = false → (∀ ts, asleep (k ts) = None) → (∀ ts, locked (k ts) = true) →
  (∀ ts, pc_wake (k ts) = None) → (∀ ts, pc_mark (k ts) = None) →
  (∀ ts, entering p = true → ow !! t = None → entering (k ts) = true) →
  (∀ ts s', ts_lookup (tstile s) = Ok ts → tstile s' = tstile s → rw_owner s' = rw_owner s →
     knows ow wait s' (<[t:=k ts]> m) t (k ts)) →
  step_good m t (lookup_step t s k).
Proof using Hinv Hp.
  intros Ha Hlk Hka Hkl Hkw Hkm Hke Hk. unfold lookup_step. destruct (tc_mutex s) eqn:E; [apply good_blocked|].
  destruct (ts_lookup_law (tstile s)) as (ts&Hts&_); [exact (iv_ts _ _ _ _ Hinv)|]. rewrite Hts, Ok_bind.
  apply good_go. exists ow, want, wait.
  eapply local_step; try done; [by apply to_mutex_take| | | |by apply Hk].
  - rewrite Hkw. by destruct p.
  - rewrite Hkm. by destruct p.
  - by apply Hke.
Qed.
Lemma good_unlock p' :
  asleep p = None → locked p = true → asleep p' = None → locked p' = false → pc_wake p = None → pc_mark p = None →
  pc_wake p' = None → pc_mark p' = None → (entering p = true → ow !! t = None → entering p' = true) →
  (∀ s', rw_owner s' = rw_owner s → knows ow wait s' (<[t:=p']> m) t p') → step_good m t (go (unlock s) p').
Proof using Hinv Hp.
  intros Ha Hlk Ha' Hlk' Hwk Hmk Hwk' Hmk' Hen Hk. apply good_go. exists ow, want, wait.
  assert (tc_mutex s = Some t) by by apply the_mutex.
  eapply local_step; try done; [by apply to_mutex_give|by rewrite Hlk'|congruence|congruence|by apply Hk].
Qed.
Lemma good_wake ts q count nl h :
  locked p = true → asleep p = None → entering p = false →
  pc_wake p = Some (q, nl) → pc_mark p = None → ts_lookup (tstile s) = Ok (Some ts) →
  match nl with
  | Some l => q = TS_WRITER_Q ∧ count = 1 ∧ l ∈ ts_queue (tstile s) q
  | None => 0 < count ∧ count = Z.of_nat (length (ts_queue (tstile s) q))
  end → ow !! t = h → step_good m t (wake_step s ts q count nl (Idle h)).
Proof using Hinv Hp.
  intros Hlk Ha He Hwk Hmk Hts Hc Hh.
  destruct (wake_ok _ _ _ _ _ _ _ _ _ _ _ _ Hinv Hp Hlk Ha He Hwk Hmk Hts Hc Hh) as (t'&woken&Hw&Hi).
  unfold wake_step. rewrite Hw, Ok_bind. eexists. split; [done|]. by eexists _, _, _.
Qed.

(** The lock is not this thread's, whatever the readers count up to. *)
Lemma not_mine : ow !! t = None → (rw_owner s .& RW_THREAD =? t) = false.
Proof using Hinv Hp.
  intros Hn. destruct (word_view _ _ _ _ _ _ _ Hinv Hp) as (k&wl&kt&Hown&Hw&Hk&Et&Hkt&Hlt&_).
  rewrite Hw, enc_thread by done. apply Z.eqb_neq. intros E. destruct wl; [|specialize (Hlt eq_refl); lia].
  inv Hown. rewrite lookup_singleton_None in Hn. lia.
Qed.
Lemma mine : ow !! t = Some RW_WRITER → (rw_owner s .& RW_THREAD =? t) = true.
Proof using Hinv Hp.
  intros Hn. destruct (word_view _ _ _ _ _ _ _ Hinv Hp) as (k&wl&kt&Hown&Hw&Hk&Et&Hkt&Hlt&_).
  destruct (owned_W _ _ _ _ Hown Hn) as (_&->&_). rewrite Hw, enc_thread by done. apply Z.eqb_refl.
Qed.
End thread.

(** A step within a function that leaves the shared state alone. *)
Ltac stay := eapply good_local; try eassumption; try done.

Lemma enter_good oncpu eprio ow want wait s m t p :
  inv_with ow want wait (Sys s m) → m !! t = Some p → step_good m t (enter_step t oncpu eprio s p).
Proof.
  intros Hinv Hp. pose proof (the_knows _ _ _ _ _ _ _ Hinv Hp) as Hk.
  destruct p; cbn [enter_step]; try apply good_blocked; simpl in Hk.
  - stay; by destruct op.
  - destruct (owner .& need_wait op =? 0) eqn:En.
    + apply good_cas; intros E.
      * rewrite Z.eqb_refl. apply good_go. eexists _, _, _. subst owner.
        eapply acquire_step; [exact Hinv|exact Hp|done|done|done|done|by left].
      * rewrite (proj2 (Z.eqb_neq _ _) E). stay; by destruct op.
    + rewrite (not_mine _ _ _ _ _ _ _ Hinv Hp Hk). stay; by destruct op.
  - destruct (rw_oncpu _ _); stay; by destruct op.
  - stay; by destruct op.
  - destruct (rw_oncpu _ _); [|destruct (_ =? 0)]; stay; by destruct op.
  - eapply good_lookup; try eassumption; try done. intros ts s' Hts E _. simpl. by rewrite E.
  - destruct Hk as [Hk Hat]. destruct ((rw_owner s .& need_wait op =? 0) || _) eqn:E.
    + stay; by destruct op.
    + apply orb_false_iff in E as [E _]. stay; by destruct op.
  - destruct Hk as (Hk&Hat&Hn). apply good_cas; intros E.
    + rewrite Z.eqb_refl. simpl. apply good_go. eexists _, _, _. by eapply mark_step.
    + rewrite (proj2 (Z.eqb_neq _ _) E). stay; by destruct op.
  - eapply good_unlock; try eassumption; try done; by destruct op.
  - destruct (block_ok eprio _ _ _ _ _ _ _ _ Hinv Hp) as (ts'&Hb&Hi). rewrite Hb, Ok_bind.
    apply good_go. by eexists _, _, _.
  - destruct op; [stay; naive_solver|]. destruct Hk as [Hk|[_ Hk]].
    + rewrite (mine _ _ _ _ _ _ _ Hinv Hp Hk). stay. intros _. congruence.
    + rewrite (not_mine _ _ _ _ _ _ _ Hinv Hp Hk). stay.
Qed.

Lemma try_good ow want wait s m t p :
  inv_with ow want wait (Sys s m) → m !! t = Some p → step_good m t (try_step t s p).
Proof.
  intros Hinv Hp. pose proof (the_knows _ _ _ _ _ _ _ Hinv Hp) as Hk.
  destruct p; cbn [try_step]; try apply good_blocked; simpl in Hk.
  - destruct (rw_owner s .& need_wait op =? 0) eqn:E; stay.
  - destruct Hk as [Hk Hn]. apply good_cas; intros E.
    + rewrite Z.eqb_refl. apply good_go. eexists _, _, _. subst owner.
      eapply acquire_step; [exact Hinv|exact Hp|done|done|done|done|by right].
    + rewrite (proj2 (Z.eqb_neq _ _) E). stay.
Qed.

Lemma up_good ow want wait s m t p :
  inv_with ow want wait (Sys s m) → m !! t = Some p → step_good m t (up_step t s p).
Proof.
  intros Hinv Hp. pose proof (the_knows _ _ _ _ _ _ _ Hinv Hp) as Hk.
  destruct (word_view _ _ _ _ _ _ _ Hinv Hp) as (k&wl&kt&Hown&Hw&Hkr&Et&Hkt&Hlt&Hd).
  destruct p; cbn [up_step]; try apply good_blocked; simpl in Hk.
  - destruct (owned_R _ _ _ _ Hown Hk) as (->&_&?). unfold rw_read_held. rewrite Hw, enc_wl, enc_thread by done.
    destruct (Z.eqb_spec (16 * k) 0); [lia|]. stay.
  - destruct (owned_R _ _ _ _ Hown Hk) as (->&_&?). stay. simpl. rewrite Hw, enc_wl, enc_thread by done.
    split_and!; [done|done|lia].
  - destruct Hk as (Hk&Hwl&Hth). rewrite Hwl. simpl. destruct (Z.eqb_spec (owner .& RW_THREAD) RW_READ_INCR) as [E|E]; simpl.
    + apply good_cas; intros Eo.
      * rewrite Z.eqb_refl. apply good_go. subst owner.
        destruct (owned_R _ _ _ _ Hown Hk) as (->&_&?). rewrite Hw, enc_thread in E by done.
        assert (k = 1) as -> by (change RW_READ_INCR with 16 in E; lia).
        eexists _, _, _. eapply swap_step with (op' := RW_WRITER); [exact Hinv|exact Hp|by apply (owned_one _ _ _ _ _ Hown Hk)|done..| | | |by left|done|intros; apply lookup_singleton_eq].
        -- by apply (owned_write _ t kt).
        -- rewrite Hw, enc_flags, Et by done. by rewrite enc_owner by lia.
        -- done.
      * rewrite (proj2 (Z.eqb_neq _ _) Eo). stay. simpl.
        destruct (owned_R _ _ _ _ Hown Hk) as (->&_&?). rewrite Hw, enc_wl, enc_thread by done.
        split_and!; [done|done|lia].
    + rewrite (proj2 (Z.eqb_neq _ _) Hth). stay.
Qed.

(** *** Handing the lock over *)

Definition readers (l : list Z) : gmap Z krw_t := gset_to_gmap RW_READER (list_to_set l).
Lemma lookup_readers l t : readers l !! t = if decide (t ∈ l) then Some RW_READER else None.
Proof.
  unfold readers. case_decide.
  - apply lookup_gset_to_gmap_Some. split; [set_solver|done].
  - apply lookup_gset_to_gmap_None. set_solver.
Qed.
Lemma size_readers l : NoDup l → size (readers l) = length l.
Proof. intros Hl. unfold readers. rewrite <- size_dom, dom_gset_to_gmap. by apply size_list_to_set. Qed.

Lemma enc_count n b :
  0 ≤ n → (if (b : bool) then 16 * n .| (RW_HAS_WAITERS .| RW_WRITE_WANTED) else 16 * n) = enc n false b b.
Proof.
  intros Hn. destruct b.
  - change (RW_HAS_WAITERS .| RW_WRITE_WANTED) with (16 * 0 + 3). rewrite <- (Z.add_0_r (16 * n)).
    rewrite lor_16, Z.lor_0_r by lia. done.
  - unfold enc, flags. lia.
Qed.

Section give.
Context (ow : gmap Z krw_t) (want wait : bool) (s : shared T) (m : gmap Z (pc P)) (t : Z) (p : pc P) (op : krw_t).
Hypothesis Hinv : inv_with ow want wait (Sys s m).
Hypothesis Hp : m !! t = Some p.
Hypothesis Hlast : last ow wait t op.
Hypothesis Hlk : locked p = true.
Hypothesis Hwk : pc_wake p = None.
Hypothesis Hmk : pc_mark p = None.
Hypothesis Ha : asleep p = None.
Let rq := ts_queue (tstile s) TS_READER_Q.
Let wq := ts_queue (tstile s) TS_WRITER_Q.

Lemma give_idle : waking s m = None ∧ marking s m = None.
Proof using Hinv Hp Hlk Hwk Hmk.
  assert (tc_mutex s = Some t) as E by by (eapply the_mutex; eauto).
  unfold waking, marking. rewrite E. simpl. rewrite Hp. simpl. by rewrite Hwk, Hmk.
Qed.
Lemma give_waiters : ¬ (rq = [] ∧ wq = []).
Proof using Hinv Hp Hlast Hlk Hwk Hmk.
  destruct give_idle as [Ewk Emk]. destruct Hlast as [_ Hw]. pose proof (iv_word _ _ _ _ Hinv) as [_ _ Hwait _ _ _]; simpl in *.
  apply Hwait in Hw. rewrite Ewk, Emk in Hw. intros [Er Ew]. destruct Hw as [[q Hq]|?]; [|done].
  apply Hq. simpl. by destruct q.
Qed.
Lemma give_lookup (r : option P) : ts_lookup (tstile s) = Ok r → ∃ ts, r = Some ts.
Proof using Hinv Hp Hlast Hlk Hwk Hmk.
  intros Hp0. destruct (ts_lookup_law (tstile s)) as (p1&E&Hnone); [exact (iv_ts _ _ _ _ Hinv)|].
  rewrite E in Hp0. injection Hp0 as <-. destruct p1 as [ts|]; [by exists ts|]. exfalso. apply give_waiters.
  by split; apply Hnone.
Qed.
(** A reader that is asleep while another reader holds the lock waits for a writer. *)
Lemma give_writer : op = RW_READER → wq ≠ [].
Proof using Hinv Hp Hlast Hlk Hwk Hmk.
  intros ->. destruct give_idle as [Ewk Emk]. destruct Hlast as [Eow Hw].
  pose proof (iv_word _ _ _ _ Hinv) as [(k&wl&Hown&_&Hd) _ _ _ Hrd _]; simpl in *.
  rewrite Ewk, Emk in Hrd; simpl in *.
  assert (Ht : ow !! t = Some RW_READER) by (rewrite Eow; apply lookup_singleton_eq).
  destruct (owned_R _ _ _ _ Hown Ht) as (->&_). destruct Hrd as [?|?]; [by exists t|by apply Hd|done|done].
Qed.
Lemma give_waits : wq ≠ [] → want = true.
Proof using Hinv Hp Hlk Hwk Hmk.
  intros Hq. destruct give_idle as [Ewk Emk]. pose proof (iv_word _ _ _ _ Hinv) as [_ _ _ Hwr _ _]; simpl in *.
  rewrite Ewk in Hwr. apply Hwr. by left.
Qed.
Lemma give_nodup : NoDup rq ∧ NoDup wq ∧ (∀ x, x ∈ rq → x ∉ wq).
Proof using Hinv.
  pose proof (ts_nodup (tstile s) (iv_ts _ _ _ _ Hinv)) as Hn.
  apply NoDup_app in Hn as (?&?&?). by split_and!.
Qed.
Lemma give_sleeper t' o : m !! t' = Some (EnterAsleep o) → t' ∈ ts_queue (tstile s) (queue_of o).
Proof using Hinv. intros Ht. by destruct (the_knows _ _ _ _ _ _ _ Hinv Ht). Qed.
Lemma give_not_awake t' r q : m !! t' = Some r → asleep r = None → t' ∉ ts_queue (tstile s) q.
Proof using Hinv.
  intros Hr Hn Hin. destruct (iv_sleepers _ _ _ _ Hinv _ _ Hin) as (o&Ho&_). simpl in Ho.
  rewrite Hr in Ho. by simplify_eq.
Qed.
Lemma give_dom x q : x ∈ ts_queue (tstile s) q → x ∈ dom m.
Proof using Hinv.
  intros Hin. destruct (iv_sleepers _ _ _ _ Hinv _ _ Hin) as (o&Ho&_). apply elem_of_dom. by eexists.
Qed.

(** To all readers that are asleep, and to [t] itself if it only downgrades. *)
Lemma give_readers (keep : bool) p' w' :
  rq ≠ [] → asleep p' = None → locked p' = true → pc_wake p' = Some (TS_READER_Q, None) → pc_mark p' = None →
  let ow' := if keep then <[t:=RW_READER]> (readers rq) else readers rq in
  let b := negb (Z.of_nat (length wq) =? 0) in
  w' = enc (Z.of_nat (length rq) + (if keep then 1 else 0)) false b b →
  (∀ s', tstile s' = tstile s → knows ow' b s' (<[t:=p']> m) t p') →
  inv (Sys (Shared w' (tc_mutex s) (tstile s)) (<[t:=p']> m)).
Proof using All.
  intros Hrq Ha' Hlk' Hwk' Hmk' ow' b Ew' Hk. destruct give_nodup as (Hndr&Hndw&Hdisj).
  assert (Htr : t ∉ rq) by by eapply give_not_awake.
  assert (Hb : b = true ↔ wq ≠ []).
  { unfold b. rewrite negb_true_iff, Z.eqb_neq. destruct wq; simpl; split; intros; done || lia. }
  assert (How : ∀ t', t' ≠ t → ow' !! t' = if decide (t' ∈ rq) then Some RW_READER else None).
  { intros t' Hne. unfold ow'. destruct keep; rewrite ?lookup_insert_ne by done; apply lookup_readers. }
  assert (Hsize : Z.of_nat (size ow') = Z.of_nat (length rq) + (if keep then 1 else 0)).
  { unfold ow'. destruct keep; [rewrite map_size_insert_None|]; rewrite ?size_readers by done; [lia| |lia].
    rewrite lookup_readers. by rewrite decide_False. }
  exists ow', b, b. eapply give_step with (k := Z.of_nat (size ow')) (wl := false); try done.
  - intros t' o Ho. assert (t' ≠ t) by (intros ->; rewrite Hp in Ho; by simplify_eq).
    rewrite How by done. pose proof (give_sleeper _ _ Ho) as Hin. destruct o; simpl in *.
    + by rewrite decide_True.
    + rewrite decide_False; [done|]. intros Hin'. by apply (Hdisj t').
  - intros t' r Hne Hr Hn. rewrite How, decide_False; [done| |done]. by eapply give_not_awake.
  - constructor. intros t' o Ho. destruct (decide (t' = t)) as [->|Hne].
    + unfold ow' in Ho. destruct keep; [rewrite lookup_insert_eq in Ho; by simplify_eq|].
      rewrite lookup_readers in Ho. by case_decide; simplify_eq.
    + rewrite How in Ho by done. by case_decide; simplify_eq.
  - by rewrite Hsize.
  - intros x. rewrite !elem_of_dom. intros [o Ho]. destruct (decide (x = t)) as [->|Hne]; [by eexists|].
    rewrite How in Ho by done. case_decide; [|done]. apply elem_of_dom. by eapply give_dom.
  - rewrite Hb. split; [intros Hne; by exists TS_WRITER_Q|]. intros [[] Hq]; by simpl in Hq.
  - simpl. intros Hq. split; [by apply Hb|]. intros E. apply Hrq, length_zero_iff_nil.
    rewrite E in Hsize. rewrite map_size_empty in Hsize. destruct keep; lia.
  - intros Hq%Hb. assert (∃ l, l ∈ wq) as [l Hl] by (destruct wq; [done|eexists; by left]).
    exists l. split; [done|]. assert (l ≠ t) by (intros ->; by eapply give_not_awake in Hl).
    rewrite How, decide_False; [done| |done]. intros Hin. by apply (Hdisj l).
  - intros _ Hq. by apply Hb.
Qed.

(** To the first writer that is asleep. *)
Lemma give_first l wq' ts w' :
  wq = l :: wq' → rq ≠ [] → ts_lookup (tstile s) = Ok (Some ts) →
  let b := Z.of_nat (length wq) >? 1 in
  w' = (let v := l .| RW_WRITE_LOCKED .| RW_HAS_WAITERS in if b then v .| RW_WRITE_WANTED else v) →
  inv (Sys (Shared w' (tc_mutex s) (tstile s)) (<[t:=ExitWake ts TS_WRITER_Q 1 (Some l)]> m)).
Proof using All.
  intros Ewq Hrq Hts b Ew'. destruct give_nodup as (Hndr&Hndw&Hdisj).
  assert (Hlw : l ∈ wq) by (rewrite Ewq; by left).
  assert (Hlt : l ≠ t) by (intros ->; by eapply give_not_awake in Hlw).
  destruct (iv_lwps _ _ _ _ Hinv l) as (kl&El&Hkl); [by apply elem_of_dom; eapply give_dom|].
  assert (Hlow : {[l := RW_WRITER]} !! t = (None : option krw_t)) by by apply lookup_singleton_ne.
  assert (Hb : b = true ↔ wq' ≠ []).
  { unfold b. rewrite Ewq. rewrite Z.gtb_lt. simpl. destruct wq'; simpl; split; intros; done || lia. }
  exists {[l := RW_WRITER]}, b, true. eapply give_step with (k := kl) (wl := true); try done.
  - intros t' o Ho. pose proof (give_sleeper _ _ Ho) as Hin. simpl. destruct o; simpl in Hin.
    + apply lookup_singleton_ne. intros <-. by apply (Hdisj l).
    + case_decide as E; [subst; apply lookup_singleton_eq|by apply lookup_singleton_ne].
  - intros t' r Hne Hr Hn. apply lookup_singleton_ne. intros <-. by eapply give_not_awake in Hlw.
  - by apply (owned_write _ l kl).
  - rewrite Ew'. cbv zeta. pose proof (enc_owner kl ltac:(lia) false b true) as E.
    rewrite El, <- E. destruct b; unfold flags.
    + by rewrite <- !Z.lor_assoc.
    + by rewrite <- !Z.lor_assoc.
  - rewrite dom_singleton_L. intros x ->%elem_of_singleton. by eapply give_dom.
  - split; [|done]. intros _. by exists TS_READER_Q.
  - simpl. fold wq. rewrite Ewq. intros Hq. split; [|apply map_non_empty_singleton].
    apply Hb. intros ->. apply Hq. rewrite filter_cons_False; [done|]. naive_solver.
  - intros Hq%Hb. destruct wq' as [|l2 wq']; [done|]. exists l2. fold wq. rewrite Ewq. split; [by right; left|].
    apply lookup_singleton_ne. intros <-. rewrite Ewq in Hndw. inv Hndw. set_solver.
  - intros (t'&Ht'). by apply lookup_singleton_Some in Ht' as [_ ?].
  - intros s' E. split_and!; [done|by rewrite E|done|done|]. by rewrite E.
Qed.

(** To all writers, who have to fight it out. *)
Lemma give_nobody ts :
  rq = [] → ts_lookup (tstile s) = Ok (Some ts) →
  inv (Sys (Shared RW_WRITE_WANTED (tc_mutex s) (tstile s))
    (<[t:=ExitWake ts TS_WRITER_Q (Z.of_nat (length wq)) None]> m)).
Proof using All.
  intros Erq Hts. assert (Hwq : wq ≠ []) by (intros E; by apply give_waiters).
  exists ∅, true, false. eapply give_step with (k := 0) (wl := false); try done.
  - change 0 with (Z.of_nat 0). rewrite <- (map_size_empty (M := gmap Z) (A := krw_t)).
    constructor. by intros ?? ?%lookup_empty_Some.
  - split; [done|]. intros [[] Hq]; [by fold rq in Hq|done].
  - intros _. assert (∃ l, l ∈ wq) as [l Hl] by (destruct wq; [done|eexists; by left]). by exists l.
  - intros (t'&Ht'). by apply lookup_empty_Some in Ht'.
  - intros s' E. split_and!; [done|by rewrite E|destruct wq; simpl; [done|lia]|by rewrite E].
Qed.
End give.

Lemma readers_bound ow want wait s m t p :
  inv_with ow want wait (Sys s m) → m !! t = Some p → Z.of_nat (length (ts_queue (tstile s) TS_READER_Q)) < 2 ^ 27.
Proof.
  intros Hinv Hp. destruct (iv_lwps _ _ _ _ Hinv t) as (k&_&_&Hb); [by eexists|]. simpl in Hb.
  assert (Hs : list_to_set (ts_queue (tstile s) TS_READER_Q) ⊆@{gset Z} dom m).
  { intros l Hl%elem_of_list_to_set. apply elem_of_dom. destruct (iv_sleepers _ _ _ _ Hinv _ _ Hl) as (op&Ho&_). by eexists. }
  apply subseteq_size in Hs. rewrite size_list_to_set, size_dom in Hs; [lia|].
  pose proof (ts_nodup (tstile s) (iv_ts _ _ _ _ Hinv)) as Hn. by apply NoDup_app in Hn as [? _].
Qed.
Lemma read_count_queue ow want wait s m t p : inv_with ow want wait (Sys s m) → m !! t = Some p →
  let n := Z.of_nat (length (ts_queue (tstile s) TS_READER_Q)) in read_count n = 16 * n.
Proof.
  intros Hinv Hp n. pose proof (readers_bound _ _ _ _ _ _ _ Hinv Hp) as Hb. fold n in Hb. assert (0 ≤ n) by (subst n; lia).
  unfold read_count. rewrite Z.shiftl_mul_pow2 by done. change (2 ^ RW_READ_COUNT_SHIFT) with 16.
  unfold s32. rewrite Z.mod_small by lia. rewrite u64_small by (unfold is_u64; lia). lia.
Qed.

(** [rw_vector_exit]'s hand-over. *)
Lemma give_good ow want wait s m t decr ts :
  inv_with ow want wait (Sys s m) → m !! t = Some (ExitGive decr ts) → step_good m t (exit_step t s (ExitGive decr ts)).
Proof.
  intros Hinv Hp. destruct (the_knows _ _ _ _ _ _ _ Hinv Hp) as (Hat&op&->&Hlast).
  destruct (give_lookup _ _ _ _ _ _ _ _ Hinv Hp Hlast eq_refl eq_refl eq_refl _ Hat) as [ts' ->].
  pose proof (iv_ts _ _ _ _ Hinv) as Hok; simpl in Hok. cbn [exit_step null_check]. rewrite Ok_bind.
  rewrite !(ts_count_law _ _ _ Hok Hat), !Ok_bind.
  destruct (Z.eqb_spec (Z.of_nat (length (ts_queue (tstile s) TS_READER_Q))) 0) as [Er|Er]; simpl.
  - assert (Erq : ts_queue (tstile s) TS_READER_Q = []) by (apply length_zero_iff_nil; lia).
    apply good_go. by eapply (give_nobody _ _ _ _ _ _ _ _ Hinv Hp Hlast).
  - assert (Hrq : ts_queue (tstile s) TS_READER_Q ≠ []) by (intros E; by rewrite E in Er).
    destruct op.
    + change (incr t RW_READER =? RW_READ_INCR) with true. cbn iota.
      pose proof (give_writer _ _ _ _ _ _ _ _ Hinv Hp Hlast eq_refl eq_refl eq_refl eq_refl) as Hwq.
      rewrite (ts_first_law _ _ _ Hok Hat), Ok_bind.
      destruct (ts_queue (tstile s) TS_WRITER_Q) as [|l wq'] eqn:Ewq; [done|]. cbn [head]. rewrite Ok_bind.
      apply good_go. eapply (give_first _ _ _ _ _ _ _ _ Hinv Hp Hlast); try done. by rewrite Ewq.
    + assert (incr t RW_WRITER =? RW_READ_INCR = false) as ->.
      { apply Z.eqb_neq. destruct (iv_lwps _ _ _ _ Hinv t) as (kt&->&Hkt); [by eexists|].
        rewrite incr_writer by lia. change RW_READ_INCR with 16. lia. }
      apply good_go.
      eapply (give_readers _ _ _ _ _ _ _ _ Hinv Hp Hlast eq_refl eq_refl eq_refl eq_refl false); try done.
      * rewrite (read_count_queue _ _ _ _ _ _ _ Hinv Hp), Z.add_0_r. apply enc_count. lia.
      * intros s' E. split_and!; [|by rewrite E|lia|by rewrite E].
        rewrite lookup_readers, decide_False; [done|]. by eapply give_not_awake.
Qed.

Lemma exit_good ow want wait s m t p :
  inv_with ow want wait (Sys s m) → m !! t = Some p → step_good m t (exit_step t s p).
Proof.
  intros Hinv Hp. pose proof (the_knows _ _ _ _ _ _ _ Hinv Hp) as Hk.
  destruct (word_view _ _ _ _ _ _ _ Hinv Hp) as (k&wl&kt&Hown&Hw&Hkr&Et&Hkt&Hlt&Hd).
  destruct p; try apply good_blocked; try (by eapply give_good); simpl in Hk.
  - cbn [exit_step]. destruct Hk as [op Hop].
    assert (negb (rw_owner s .& RW_WRITE_LOCKED =? 0) = bool_decide (op = RW_WRITER)) as ->.
    { rewrite Hw, enc_wl by done. destruct op; [by destruct (owned_R _ _ _ _ Hown Hop) as (->&_)|].
      by destruct (owned_W _ _ _ _ Hown Hop) as (_&_&->). }
    pose proof (hand_over_last _ _ _ _ _ _ _ _ Hinv Hp Hop) as [Hl _].
    destruct op; stay; eexists; split_and!; done.
  - cbn [exit_step]. destruct Hk as (op&Hop&->&->&Hl). destruct op; simpl.
    + destruct (owned_R _ _ _ _ Hown Hop) as (->&_&?). rewrite Hw, enc_thread by done.
      rewrite (proj2 (Z.eqb_neq _ _)) by lia. stay. by eexists.
    + rewrite (mine _ _ _ _ _ _ _ Hinv Hp Hop). stay. by eexists.
  - cbn [exit_step]. destruct Hk as (op&Hop&->&Hl). fold (hand_over (u64 (owner - incr t op))).
    destruct (hand_over (u64 (owner - incr t op))) eqn:Eh.
    + stay. exists op. auto.
    + apply good_cas; intros Eo.
      * rewrite Z.eqb_refl. apply good_go. subst owner. eexists _, _, _. by eapply release_step.
      * rewrite (proj2 (Z.eqb_neq _ _) Eo). stay. exists op. split_and!; [done..|].
        by apply (hand_over_last _ _ _ _ _ _ _ _ Hinv Hp Hop).
  - cbn [exit_step]. eapply good_lookup; try eassumption; try done. intros ts s' Hts E _. simpl. by rewrite E.
  - cbn [exit_step]. destruct Hk as (Hn&Hat&Hc). by eapply good_wake.
Qed.

Lemma owned_one_reader t : owned {[t := RW_READER]} 1 false.
Proof.
  change 1 with (Z.of_nat 1). rewrite <- (map_size_singleton (M := gmap Z) t RW_READER).
  constructor. by intros ?? [_ ?]%lookup_singleton_Some.
Qed.

(** [rw_downgrade] with the chain mutex. *)
Lemma down_locked_good ow want wait s m t ts owner :
  inv_with ow want wait (Sys s m) → m !! t = Some (DownLocked ts owner) →
  step_good m t (down_step t s (DownLocked ts owner)).
Proof.
  intros Hinv Hp. destruct (the_knows _ _ _ _ _ _ _ Hinv Hp) as (Hat&Hlast).
  destruct (give_lookup _ _ _ _ _ _ _ _ Hinv Hp Hlast eq_refl eq_refl eq_refl _ Hat) as [ts' ->].
  destruct (give_idle _ _ _ _ _ _ _ Hinv Hp eq_refl eq_refl eq_refl) as [Ewk Emk].
  pose proof (iv_ts _ _ _ _ Hinv) as Hok; simpl in Hok. cbn [down_step null_check]. rewrite Ok_bind.
  rewrite !(ts_count_law _ _ _ Hok Hat), !Ok_bind.
  destruct (Z.eqb_spec (Z.of_nat (length (ts_queue (tstile s) TS_READER_Q))) 0) as [Er|Er].
  - assert (Erq : ts_queue (tstile s) TS_READER_Q = []) by (apply length_zero_iff_nil; lia).
    assert (Hwq : ts_queue (tstile s) TS_WRITER_Q ≠ []).
    { intros E. by apply (give_waiters _ _ _ _ _ _ _ _ Hinv Hp Hlast eq_refl eq_refl eq_refl). }
    pose proof (give_waits _ _ _ _ _ _ _ Hinv Hp eq_refl eq_refl eq_refl Hwq) as ->.
    apply good_cas; intros Eo.
    + rewrite Z.eqb_refl. apply good_go. destruct Hlast as [Eow ->]. eexists _, _, _.
      eapply swap_step with (op' := RW_READER) (want' := true);
        [exact Hinv|exact Hp|done|done..|apply owned_one_reader|done|done|by left| |].
      * intros _ _. left. by rewrite Ewk.
      * intros. apply lookup_singleton_eq.
    + rewrite (proj2 (Z.eqb_neq _ _) Eo). stay.
  - assert (Hrq : ts_queue (tstile s) TS_READER_Q ≠ []) by (intros E; by rewrite E in Er).
    apply good_cas; intros Eo.
    + rewrite Z.eqb_refl. apply good_go.
      eapply (give_readers _ _ _ _ _ _ _ _ Hinv Hp Hlast eq_refl eq_refl eq_refl eq_refl true); try done.
      * rewrite (read_count_queue _ _ _ _ _ _ _ Hinv Hp). change RW_READ_INCR with 16.
        match goal with |- context [16 * ?a + 16] => replace (16 * a + 16) with (16 * (a + 1)) by lia end.
        pose proof (readers_bound _ _ _ _ _ _ _ Hinv Hp). rewrite u64_small by (unfold is_u64; lia). apply enc_count. lia.
      * intros s' E. split_and!; [by rewrite lookup_insert_eq|by rewrite E|lia|by rewrite E].
    + rewrite (proj2 (Z.eqb_neq _ _) Eo). stay.
Qed.

Lemma down_good ow want wait s m t p :
  inv_with ow want wait (Sys s m) → m !! t = Some p → step_good m t (down_step t s p).
Proof.
  intros Hinv Hp. pose proof (the_knows _ _ _ _ _ _ _ Hinv Hp) as Hk.
  destruct (word_view _ _ _ _ _ _ _ Hinv Hp) as (k&wl&kt&Hown&Hw&Hkr&Et&Hkt&Hlt&Hd).
  destruct p; try apply good_blocked; simpl in Hk; cbn [down_step].
  - rewrite (mine _ _ _ _ _ _ _ Hinv Hp Hk). stay.
  - destruct (owned_W _ _ _ _ Hown Hk) as (Eow&_).
    destruct (Z.eqb_spec (rw_owner s .& RW_HAS_WAITERS) 0) as [E|E]; stay.
    + simpl. auto.
    + simpl. split; [done|]. rewrite Hw, enc_wait in E by done. by destruct wait.
  - destruct Hk as (Hk&Hz&Hor). destruct (owned_W _ _ _ _ Hown Hk) as (Eow&_). apply good_cas; intros Eo.
    + rewrite Z.eqb_refl. apply good_go. subst owner. rewrite Hw, enc_wait in Hz by done.
      assert (wait = false) as -> by by destruct wait. eexists _, _, _.
      eapply swap_step with (op' := RW_READER) (want' := false);
        [exact Hinv|exact Hp|done|done..|apply owned_one_reader|done|done|by right|done|].
      intros. apply lookup_singleton_eq.
    + rewrite (proj2 (Z.eqb_neq _ _) Eo). stay. simpl. destruct Hor as [E|?]; [congruence|done].
  - eapply good_lookup; try eassumption; try done. intros ts s' Hts E _. simpl. by rewrite E.
  - by eapply down_locked_good.
  - destruct next; eapply good_unlock; try eassumption; done.
  - destruct Hk as (Hk&Hat&Hr&Er). by eapply good_wake.
Qed.

Lemma thread_good oncpu eprio ow want wait s m t p :
  inv_with ow want wait (Sys s m) → m !! t = Some p → step_good m t (thread_step t oncpu eprio s p).
Proof.
  intros Hinv Hp. destruct p; cbn [thread_step]; try apply good_blocked;
    first [by eapply enter_good | by eapply exit_good | by eapply try_good | by eapply down_good | by eapply up_good].
Qed.

Lemma call_good ow want wait s m t h p :
  inv_with ow want wait (Sys s m) → m !! t = Some (Idle h) → call h p → inv_with ow want wait (Sys s (<[t:=p]> m)).
Proof.
  intros Hinv Hp Hc. pose proof (the_knows _ _ _ _ _ _ _ Hinv Hp) as Hk. simpl in Hk.
  pose proof (the_mutex _ _ _ _ _ _ _ Hinv Hp) as Hm. simpl in Hm.
  eapply local_step; try eassumption; try done; destruct Hc; try done. simpl. rewrite Hk. by eexists.
Qed.

Lemma inv_step (x y : sys T P) : inv x → step x y → inv y.
Proof.
  intros (ow&want&wait&Hinv) Hstep. destruct Hstep as [s m t h p Hp Hc|s m t p oncpu eprio s' p' woken Hp Hs].
  - exists ow, want, wait. by eapply call_good.
  - destruct (thread_good oncpu eprio _ _ _ _ _ _ _ Hinv Hp) as (o&Ho&Hi). rewrite Hs in Ho. by simplify_eq.
Qed.

(** Threads that start with no locks, and turnstiles on which nobody sleeps. *)
Definition start_ok (ts0 : T) (lwps : list Z) : Prop :=
  ts_ok ts0 ∧ (∀ q, ts_queue ts0 q = []) ∧ (∀ l, l ∈ lwps → ts_awake ts0 l) ∧
  ∀ l, l ∈ lwps → ∃ k, l = 16 * k ∧ Z.of_nat (length lwps) < k < 2 ^ 60 ∧ Z.of_nat (length lwps) < 2 ^ 27.

Lemma lookup_init (lwps : list Z) t p :
  (list_to_map ((λ l, (l, Idle None)) <$> lwps) : gmap Z (pc P)) !! t = Some p → p = Idle None ∧ t ∈ lwps.
Proof.
  intros Hp%elem_of_list_to_map_2. apply list_elem_of_fmap in Hp as (l&[= -> ->]&?). done.
Qed.
Lemma size_init (lwps : list Z) :
  (size (list_to_map ((λ l, (l, Idle None)) <$> lwps) : gmap Z (pc P)) ≤ length lwps)%nat.
Proof.
  induction lwps as [|l lwps IH]; [done|].
  rewrite fmap_cons, list_to_map_cons, map_size_insert. cbn [length]. destruct (_ !! _); unfold id; lia.
Qed.

Lemma inv_init ts0 lwps : start_ok ts0 lwps → inv (sys_init ts0 lwps).
Proof.
  intros (Hok&Hq&Haw&Hl). exists ∅, false, false. split; simpl; try done.
  - intros t [p Hp]. destruct (lookup_init _ _ _ Hp) as [_ Hin]. destruct (Hl _ Hin) as (k&->&?).
    exists k. split; [done|]. pose proof (size_init lwps). lia.
  - intros t p Hp. destruct (lookup_init _ _ _ Hp) as [-> Hin]. split_and!; [by simpl|done|]. intros _. by apply Haw.
  - intros t q. rewrite Hq. set_solver.
  - split; simpl; try done.
    + exists 0, false. split_and!; [|done|done]. change 0 with (Z.of_nat 0).
      rewrite <- (map_size_empty (M := gmap Z) (A := krw_t)). constructor. by intros ?? ?%lookup_empty_Some.
    + split; [done|]. intros [[q Hne]|?]; [by rewrite Hq in Hne|done].
    + rewrite Hq. by intros [?|?].
Qed.

Lemma inv_reachable ts0 lwps x : start_ok ts0 lwps → reachable ts0 lwps x → inv x.
Proof.
  intros Hi%inv_init Hr. unfold reachable in Hr. remember (sys_init ts0 lwps) as x0 eqn:E. clear E.
  induction Hr; [done|]. apply IHHr. by eapply inv_step.
Qed.

(** A thread that can do something by itself. *)
Definition moves (x : sys T P) (t : Z) : Prop :=
  ∃ p, threads x !! t = Some p ∧
    ∀ oncpu eprio, ∃ s' p' woken, thread_step t oncpu eprio (lock x) p = Ok (Next s' p' woken).

Lemma not_blocked s t p oncpu eprio :
  (locked p = true ∨ tc_mutex s = None) → (∀ h, p ≠ Idle h) → asleep p = None →
  thread_step t oncpu eprio s p ≠ Ok Blocked.
Proof.
  intros Hm Hid Ha. destruct p; cbn [thread_step enter_step exit_step try_step down_step up_step locked] in *; try done;
    unfold go, rw_cas, lookup_step, wake_step; try (destruct Hm as [?|Hm]; [done|]; rewrite Hm).
  all: repeat match goal with
    | |- _ => done
    | |- context [if ?b then _ else _] => destruct b
    | |- context [match ?x with _ => _ end] => destruct x
    | |- context [?x ≫= _] => destruct x as [?|?]; [rewrite Ok_bind|done]
    end.
  exfalso. by eapply Hid.
Qed.

Lemma moves_intro (x : sys T P) t p :
  inv x → threads x !! t = Some p → locked p = true ∨ tc_mutex (lock x) = None → (∀ h, p ≠ Idle h) →
  asleep p = None → moves x t.
Proof.
  intros (ow&want&wait&Hinv) Hp Hm Hid Ha. exists p. split; [done|]. intros oncpu eprio. destruct x as [s m]; simpl in *.
  destruct (thread_good oncpu eprio _ _ _ _ _ _ _ Hinv Hp) as (o&Ho&_). rewrite Ho.
  destruct o as [|s' p' woken]; [|by eexists _, _, _]. by apply not_blocked in Ho.
Qed.

(** The lock is free when nobody holds it and nobody runs: then nobody sleeps. *)
Lemma no_sleeper (x : sys T P) t op :
  inv x → (∀ t p, threads x !! t = Some p → p = Idle None ∨ ∃ op, p = EnterAsleep op) →
  threads x !! t = Some (EnterAsleep op) → False.
Proof.
  intros (ow&want&wait&[H1 H2 H3 H4 H5 [(k&wl&Hown&_&Hd) Hdom Hwait Hwr Hrd Hwant]]) Hall Ht.
  destruct x as [s m]; simpl in *.
  assert (Hm : tc_mutex s = None).
  { destruct (tc_mutex s) as [u|] eqn:E; [|done]. destruct (H4 u eq_refl) as [p Hp].
    destruct (H3 _ _ Hp) as (_&Hl&_). destruct Hl as [Hl _]. rewrite E in Hl. specialize (Hl eq_refl).
    by destruct (Hall _ _ Hp) as [->|[? ->]]. }
  assert (Ewk : waking s m = None) by (unfold waking; by rewrite Hm). rewrite Ewk in *.
  assert (Eow : ow = ∅).
  { apply map_eq. intros u. rewrite lookup_empty. destruct (ow !! u) as [o|] eqn:Eu; [|done].
    assert (u ∈ dom m) as [p Hp]%elem_of_dom by (apply Hdom, elem_of_dom; by eexists).
    destruct (H3 _ _ Hp) as (Hk&_). destruct (Hall _ _ Hp) as [->|[? ->]]; simpl in Hk; [congruence|].
    destruct Hk as [Hk _]. rewrite Ewk in Hk. simpl in Hk. congruence. }
  destruct (H3 _ _ Ht) as ((_&Hin)&_).
  assert (wait = true) as Hw.
  { apply Hwait. left. exists (queue_of op). simpl. intros E. rewrite E in Hin. set_solver. }
  assert (Hwq : ts_queue (tstile s) TS_WRITER_Q ≠ [] → False).
  { intros Hne. by destruct (Hwr (or_introl Hne)) as [_ ?]. }
  assert (want = true) as Hwt.
  { apply Hd; [done|]. rewrite Eow in Hown. by inv Hown. }
  destruct (Hwant Hwt) as (u&p&Hp&He&_). destruct (Hall _ _ Hp) as [->|[o ->]]; [done|].
  destruct o; [done|]. destruct (H3 _ _ Hp) as ((_&Hu)&_). apply Hwq. intros E. simpl in Hu. rewrite E in Hu. set_solver.
Qed.

Lemma idle_or_moves (x : sys T P) t op :
  inv x → threads x !! t = Some (EnterAsleep op) →
  ∃ t', (∃ h, threads x !! t' = Some (Idle (Some h))) ∨ moves x t'.
Proof.
  intros Hinv Ht. destruct (tc_mutex (lock x)) as [u|] eqn:Em.
  { pose proof Hinv as (ow&want&wait&Hi). destruct (iv_mutex _ _ _ _ Hi _ Em) as [p Hp]. exists u. right.
    destruct (iv_threads _ _ _ _ Hi _ _ Hp) as (_&Hl&_). assert (locked p = true) as Hlk by by apply Hl.
    eapply moves_intro; [done|done|by left|by intros h ->|by destruct p]. }
  destruct (decide (map_Forall (λ _ p, (match p with Idle None => true | EnterAsleep _ => true | _ => false end) = true)
    (threads x))) as [Hall|Hex].
  - exfalso. eapply no_sleeper; [done| |done]. intros t' p Hp. specialize (Hall _ _ Hp). simpl in Hall.
    destruct p as [[]| | | | | | | | | | | | | | | | | | | | | | | | | | | | | |]; try done; eauto.
  - apply map_not_Forall in Hex as (t'&p&Hp&Hnot); [|apply _]. exists t'.
    destruct p as [[h|]| | | | | | | | | | | | | | | | | | | | | | | | | | | | | |]; try (by destruct Hnot); eauto;
      right; (eapply moves_intro; [done|done|by right|done|done]).
Qed.

(** C27: in every state that any threads reach by calling the functions of the
    lock, each interleaved with the others between any two accesses to the lock
    word, no step of a thread fails an assertion or follows a bad pointer, and
    when one thread has got the lock for writing, from [rw_vector_enter],
    [rw_vector_tryenter], [rw_tryupgrade] or as the one a reader handed it to, no
    other thread has it, for reading or for writing. *)
Theorem rw_exclusion ts0 lwps x : start_ok ts0 lwps → reachable ts0 lwps x →
  (∀ t p oncpu eprio, threads x !! t = Some p → ∃ o, thread_step t oncpu eprio (lock x) p = Ok o) ∧
  (∀ t t' h, threads x !! t = Some (Idle (Some RW_WRITER)) → threads x !! t' = Some (Idle (Some h)) → t' = t).
Proof.
  intros Hi Hr. destruct (inv_reachable _ _ _ Hi Hr) as (ow&want&wait&Hinv). split.
  - intros t p oncpu eprio Hp. destruct x as [s m]. destruct (thread_good oncpu eprio _ _ _ _ _ _ _ Hinv Hp) as (o&Ho&_). by exists o.
  - intros t t' h Ht Ht'. destruct (iv_threads _ _ _ _ Hinv _ _ Ht) as (Hk&_), (iv_threads _ _ _ _ Hinv _ _ Ht') as (Hk'&_).
    simpl in Hk, Hk'. destruct (wk_owned _ _ _ _ _ (iv_word _ _ _ _ Hinv)) as (k&wl&Hown&_).
    destruct Hown as [u k -> _|Hall]; [|by specialize (Hall _ _ Hk)].
    apply lookup_singleton_Some in Hk' as [<- _]. by apply lookup_singleton_Some in Hk as [<- _].
Qed.

(** C28: whenever a thread is asleep on the lock, some thread holds the lock and
    is outside its functions, or some thread in them can take a step: no wake-up
    is lost, so that the sleepers cannot be all that is left. In particular no
    thread sleeps on a lock that nobody holds or is in the course of taking or
    releasing. *)
Theorem rw_no_lost_wakeup ts0 lwps x t op : start_ok ts0 lwps → reachable ts0 lwps x →
  threads x !! t = Some (EnterAsleep op) →
  ∃ t', (∃ h, threads x !! t' = Some (Idle (Some h))) ∨ moves x t'.
Proof. intros Hi Hr Ht. eapply idle_or_moves; [by eapply inv_reachable|done]. Qed.
End spec.

(** ** With the turnstiles of Turnstile.v *)

Section run.
Context {T P : Type} `{TurnstileOps T P}.

(** A schedule: a thread makes a call, or takes a step. *)
Definition callb (h : option krw_t) (p : pc P) : bool :=
  match h, p with
  | None, EnterRead _ | None, TryRead _ | Some _, ExitRead | Some RW_WRITER, DownAssert | Some RW_READER, UpAssert => true
  | _, _ => false
  end.
Definition sched1 (x : sys T P) (a : Z * option (pc P)) : option (sys T P) :=
  match threads x !! a.1, a.2 with
  | Some (Idle h), Some p => if callb h p then Some (Sys (lock x) (<[a.1 := p]> (threads x))) else None
  | Some p, None =>
    match thread_step a.1 false (λ _, 0) (lock x) p with
    | Ok (Next s p' woken) => Some (Sys s (wake_all woken (<[a.1 := p']> (threads x))))
    | _ => None
    end
  | _, _ => None
  end.
Definition sched (x : sys T P) (l : list (Z * option (pc P))) : option (sys T P) := foldl (λ o a, o ≫= λ x, sched1 x a) (Some x) l.

Lemma callb_call h p : callb h p = true → call h p.
Proof. destruct h as [[]|], p; try done; constructor. Qed.
Lemma sched1_step x a y : sched1 x a = Some y → step x y.
Proof.
  destruct x as [s m], a as [t [p|]]; unfold sched1; simpl; destruct (m !! t) as [q|] eqn:E; try done.
  - destruct q; try done. destruct (callb _ _) eqn:Ec; [|done]. intros [= <-]. eapply StepCall; [done|by apply callb_call].
  - intros Hy. destruct (thread_step t false (λ _, 0) s q) as [[|s' p' w]|] eqn:Es; destruct q; simplify_eq; by eapply StepThread.
Qed.
Lemma sched_steps x l y : sched x l = Some y → rtc step x y.
Proof.
  unfold sched. revert x. induction l as [|a l IH]; intros x; simpl; [by intros [= ->]|].
  destruct (sched1 x a) as [z|] eqn:E; simpl.
  - intros Hy. eapply rtc_l; [by eapply sched1_step|by apply IH].
  - intros Hy. exfalso. revert Hy. clear. induction l; simpl; done.
Qed.
End run.

Definition demo_lwps : list Z := [1024; 2048].
#[local] Instance demo_turnstiles : TurnstileOps tstiles nat := turnstiles_of 8.

(** The first thread takes the lock for writing, the second goes to sleep. *)
Definition demo_calls : list (Z * option (pc nat)) :=
  (1024, Some (EnterRead RW_WRITER)) :: repeat (1024, None) 2 ++ (2048, Some (EnterRead RW_READER)) :: repeat (2048, None) 7.
#[local] Instance demo_laws : TurnstileLaws tstiles nat := turnstile_laws 8.
Definition demo_sys : sys tstiles nat :=
  default (sys_init (turnstile_init demo_lwps) demo_lwps) (sched (sys_init (turnstile_init demo_lwps) demo_lwps) demo_calls).

Lemma turnstiles_start obj lwps :
  NoDup lwps → (∀ l, l ∈ lwps → ∃ k, l = 16 * k ∧ Z.of_nat (length lwps) < k < 2 ^ 60 ∧ Z.of_nat (length lwps) < 2 ^ 27) →
  Z.of_nat (length lwps) < 2 ^ 32 →
  start_ok (H0 := turnstile_laws obj) (turnstile_init lwps) lwps.
Proof.
  intros Hnd Hl Hlen. destruct (init_spec lwps Hnd Hlen) as (R&Hok&Hdom). split_and!; simpl; [eauto| | |done].
  - intros q. rewrite (queue_in_spec _ _ _ _ _ Hok). unfold queue. by rewrite lookup_empty.
  - intros l Hin. apply (awake_spec _ _ _ _ Hok). rewrite <- elem_of_dom, Hdom, elem_of_list_to_set.
    split; [done|]. intros o (e&He&_). by rewrite lookup_empty in He.
Qed.
Lemma demo_start : start_ok (turnstile_init demo_lwps) demo_lwps.
Proof.
  apply turnstiles_start; [apply (bool_decide_unpack _); by vm_compute| |by vm_compute].
  intros l Hl. unfold demo_lwps in Hl. repeat (apply elem_of_cons in Hl as [->|Hl]); [by exists 64|by exists 128|set_solver].
Qed.
Lemma demo_reachable : reachable (turnstile_init demo_lwps) demo_lwps demo_sys.
Proof. apply (sched_steps _ demo_calls). unfold demo_sys. by vm_compute. Qed.

Lemma rw_exclusion_witness :
  threads demo_sys !! 1024 = Some (Idle (Some RW_WRITER)) ∧
  (∀ t p oncpu eprio, threads demo_sys !! t = Some p → ∃ o, thread_step t oncpu eprio (lock demo_sys) p = Ok o) ∧
  (∀ t' h, threads demo_sys !! t' = Some (Idle (Some h)) → t' = 1024).
Proof.
  assert (H : threads demo_sys !! 1024 = Some (Idle (Some RW_WRITER))) by (vm_compute; reflexivity).
  destruct (rw_exclusion _ _ _ demo_start demo_reachable) as [Hsafe Hex].
  split; [exact H|]. split; [exact Hsafe|]. intros t' h. by apply Hex.
Defined.

Lemma rw_no_lost_wakeup_witness :
  threads demo_sys !! 2048 = Some (EnterAsleep RW_READER) ∧
  ∃ t', (∃ h, threads demo_sys !! t' = Some (Idle (Some h))) ∨ moves demo_sys t'.
Proof.
  assert (H : threads demo_sys !! 2048 = Some (EnterAsleep RW_READER)) by (vm_compute; reflexivity).
  split; [exact H|]. exact (rw_no_lost_wakeup _ _ _ _ _ demo_start demo_reachable H).
Defined.
