(* ===== verification/Callout.v ===== *)
(** * Callouts: the hierarchical timing wheel (kern/kern_timeout.c, sys/callout.h)

    The circular queues are the doubly linked lists of the code, with the head of
    a queue and the callouts on it as the cells of one memory. A callout and a
    thread (lwp) are addresses, a processor is its number, and [callout_cpu] is
    what the code keeps for each. Every operation runs under the lock of the
    processor of its callout, so it is one step; the soft interrupt gives the lock
    up while it calls the function of a callout, and [callout_halt] while it
    sleeps, so these are several. Statistics are left out. *)

From S2P Require Export Prelude.

Definition BUCKETS : Z := 1024.
Definition WHEELSIZE : Z := 256.
Definition WHEELMASK : Z := 255.
Definition WHEELBITS : Z := 8.

Definition CALLOUT_BOUND : Z := 0x0001.
Definition CALLOUT_PENDING : Z := 0x0002.
Definition CALLOUT_FIRED : Z := 0x0004.
Definition CALLOUT_INVOKING : Z := 0x0008.
Definition CALLOUT_MPSAFE : Z := 0x0100.
Definition CALLOUT_FLAGMASK : Z := 0xff00.
Definition CALLOUT_MAGIC : Z := 0x11deeba1.

(** ** Circular queues *)

(** The cells with links: callouts, and the heads of the queues of a processor. *)
Inductive node := Elem (c : Z) | Todo (cpu : Z) | Wheel (cpu b : Z).
#[export] Instance node_eq_dec : EqDecision node.
Proof. solve_decision. Defined.
#[export] Instance node_countable : Countable node.
Proof.
  refine (inj_countable' (λ n, match n with
    | Elem c => inl c | Todo cpu => inr (inl cpu) | Wheel cpu b => inr (inr (cpu, b)) end)
    (λ s, match s with
    | inl c => Elem c | inr (inl cpu) => Todo cpu | inr (inr (cpu, b)) => Wheel cpu b end) _).
  by intros [].
Defined.

Record circqs := Links { cq_next : gmap node node; cq_prev : gmap node node }.

Definition next (h : circqs) (n : node) : res node :=
  match cq_next h !! n with Some m => Ok m | None => Fault Uninitialised end.
Definition prev (h : circqs) (n : node) : res node :=
  match cq_prev h !! n with Some m => Ok m | None => Fault Uninitialised end.
Definition set_next (h : circqs) (n m : node) : circqs := Links (<[n := m]> (cq_next h)) (cq_prev h).
Definition set_prev (h : circqs) (n m : node) : circqs := Links (cq_next h) (<[n := m]> (cq_prev h)).

Definition CIRCQ_INIT (h : circqs) (list : node) : circqs := set_prev (set_next h list list) list list.
Definition CIRCQ_INSERT (h : circqs) (elem list : node) : res circqs :=
  p ← prev h list;
  let h := set_prev h elem p in
  let h := set_next h elem list in
  p ← prev h list;
  let h := set_next h p elem in
  mret (set_prev h list elem).
Definition CIRCQ_EMPTY (h : circqs) (list : node) : res bool :=
  n ← next h list; mret (bool_decide (n = list)).
Definition CIRCQ_APPEND (h : circqs) (fst snd : node) : res circqs :=
  e ← CIRCQ_EMPTY h snd;
  if e : bool then mret h
  else
    p ← prev h fst; n ← next h snd;
    let h := set_next h p n in
    n ← next h snd; p ← prev h fst;
    let h := set_prev h n p in
    p ← prev h snd;
    let h := set_next h p fst in
    p ← prev h snd;
    let h := set_prev h fst p in
    mret (CIRCQ_INIT h snd).
Definition CIRCQ_REMOVE (h : circqs) (elem : node) : res circqs :=
  n ← next h elem; p ← prev h elem;
  let h := set_prev h n p in
  p ← prev h elem; n ← next h elem;
  mret (set_next h p n).
(** The first element, which has to be a callout. *)
Definition CIRCQ_FIRST (h : circqs) (list : node) : res Z :=
  n ← next h list; match n with Elem c => mret c | _ => Fault TypeConfusion end.

(** ** The wheel *)

(** [>>] of a negative [int] is an arithmetic shift. *)
Definition MASKWHEEL (wheel time : Z) : Z := Z.shiftr time (wheel * WHEELBITS) .& WHEELMASK.
Definition BUCKET (cc rel abs : Z) : node :=
  Wheel cc
    (if rel <=? Z.shiftl 1 (2 * WHEELBITS) then
       if rel <=? Z.shiftl 1 WHEELBITS then MASKWHEEL 0 abs
       else MASKWHEEL 1 abs + WHEELSIZE
     else if rel <=? Z.shiftl 1 (3 * WHEELBITS) then MASKWHEEL 2 abs + 2 * WHEELSIZE
     else MASKWHEEL 3 abs + 3 * WHEELSIZE).
Definition MOVEBUCKET (h : circqs) (cc wheel time : Z) : res circqs :=
  CIRCQ_APPEND h (Todo cc) (Wheel cc (MASKWHEEL wheel time + wheel * WHEELSIZE)).

(** ** The state *)

Record callout_impl := Callout {
  c_func : option Z;
  c_arg : Z;
  c_cpu : Z;
  c_time : Z;
  c_flags : Z;
  c_magic : Z;
}.
Record callout_cpu := CalloutCpu {
  cc_sleepq : list Z;
  cc_nwait : Z;
  cc_ticks : Z;
  cc_lwp : option Z;
  cc_active : option Z;
  cc_cancel : option Z;
}.
Record kernel := Kernel {
  links : circqs;
  callouts : gmap Z callout_impl;
  cpus : gmap Z callout_cpu;
}.

Definition with_flags (r : callout_impl) (f : Z) : callout_impl :=
  Callout (c_func r) (c_arg r) (c_cpu r) (c_time r) f (c_magic r).
Definition with_time (r : callout_impl) (t : Z) : callout_impl :=
  Callout (c_func r) (c_arg r) (c_cpu r) t (c_flags r) (c_magic r).
Definition with_func (r : callout_impl) (f : option Z) (arg : Z) : callout_impl :=
  Callout f arg (c_cpu r) (c_time r) (c_flags r) (c_magic r).
Definition with_cpu (r : callout_impl) (cpu : Z) : callout_impl :=
  Callout (c_func r) (c_arg r) cpu (c_time r) (c_flags r) (c_magic r).
Definition with_magic (r : callout_impl) (m : Z) : callout_impl :=
  Callout (c_func r) (c_arg r) (c_cpu r) (c_time r) (c_flags r) m.

Definition with_ticks (cc : callout_cpu) (t : Z) : callout_cpu :=
  CalloutCpu (cc_sleepq cc) (cc_nwait cc) t (cc_lwp cc) (cc_active cc) (cc_cancel cc).
Definition with_sleepers (cc : callout_cpu) (q : list Z) (n : Z) : callout_cpu :=
  CalloutCpu q n (cc_ticks cc) (cc_lwp cc) (cc_active cc) (cc_cancel cc).
Definition with_lwp (cc : callout_cpu) (l : option Z) : callout_cpu :=
  CalloutCpu (cc_sleepq cc) (cc_nwait cc) (cc_ticks cc) l (cc_active cc) (cc_cancel cc).
Definition with_active (cc : callout_cpu) (c : option Z) : callout_cpu :=
  CalloutCpu (cc_sleepq cc) (cc_nwait cc) (cc_ticks cc) (cc_lwp cc) c (cc_cancel cc).
Definition with_cancel (cc : callout_cpu) (c : option Z) : callout_cpu :=
  CalloutCpu (cc_sleepq cc) (cc_nwait cc) (cc_ticks cc) (cc_lwp cc) (cc_active cc) c.

Definition callout (st : kernel) (c : Z) : res callout_impl :=
  match callouts st !! c with Some r => Ok r | None => Fault UseAfterFree end.
Definition cpu_callout (st : kernel) (cpu : Z) : res callout_cpu :=
  match cpus st !! cpu with Some cc => Ok cc | None => Fault NullDeref end.
Definition put_links (st : kernel) (h : circqs) : kernel := Kernel h (callouts st) (cpus st).
Definition put_callout (st : kernel) (c : Z) (r : callout_impl) : kernel :=
  Kernel (links st) (<[c := r]> (callouts st)) (cpus st).
Definition put_cpu (st : kernel) (cpu : Z) (cc : callout_cpu) : kernel :=
  Kernel (links st) (callouts st) (<[cpu := cc]> (cpus st)).

Definition KASSERT (b : bool) : res unit := if b then mret () else Fault Panic.

(** A flag, and the flags without some. *)
Definition has (flags bit : Z) : bool := negb (flags .& bit =? 0).
Definition clear (flags bits : Z) : Z := flags .& (2 ^ 32 - 1 - bits).

(** ** Starting up *)

Definition buckets : list Z := Z.of_nat <$> seq 0 (Z.to_nat BUCKETS).
Definition init_queues (h : circqs) (cpu : Z) : circqs :=
  foldl CIRCQ_INIT (CIRCQ_INIT h (Todo cpu)) (Wheel cpu <$> buckets).
Definition zeroed : callout_cpu := CalloutCpu [] 0 0 None None None.

(** The boot processor is number 0. *)
Definition callout_startup : kernel := Kernel (init_queues (Links ∅ ∅) 0) ∅ {[0 := zeroed]}.
(** [sih]: the soft interrupt could be established. *)
Definition callout_init_cpu (st : kernel) (ci : Z) (sih : bool) : res kernel :=
  st ← match cpus st !! ci with
    | None => mret (Kernel (init_queues (links st) ci) (callouts st) (<[ci := zeroed]> (cpus st)))
    | Some _ => if sih then mret st else Fault Panic
    end;
  cc ← cpu_callout st ci;
  mret (put_cpu st ci (with_sleepers cc [] (cc_nwait cc))).

(** ** The life of a callout *)

(** The fields that are not set keep what the memory holds. *)
Definition callout_init (st : kernel) (curcpu c flags : Z) : res kernel :=
  KASSERT (clear flags CALLOUT_FLAGMASK =? 0);;
  let r := default (Callout None 0 0 0 0 0) (callouts st !! c) in
  let r := with_magic (with_func r None (c_arg r)) CALLOUT_MAGIC in
  if has flags CALLOUT_MPSAFE && bool_decide (is_Some (cpus st !! curcpu)) then
    mret (put_callout st c (with_cpu (with_flags r flags) curcpu))
  else mret (put_callout st c (with_cpu (with_flags r (flags .| CALLOUT_BOUND)) 0)).

Definition callout_destroy (st : kernel) (curlwp c : Z) : res kernel :=
  r ← callout st c;
  KASSERT (c_magic r =? CALLOUT_MAGIC);;
  KASSERT (negb (has (c_flags r) CALLOUT_PENDING));;
  cc ← cpu_callout st (c_cpu r);
  KASSERT (bool_decide (cc_lwp cc = Some curlwp) || bool_decide (cc_active cc ≠ Some c));;
  mret (put_callout st c (with_magic r 0)).

(** [callout_lock], in one step with what follows. *)
Definition callout_lock (st : kernel) (c : Z) : res (callout_impl * callout_cpu) :=
  r ← callout st c;
  KASSERT (c_magic r =? CALLOUT_MAGIC);;
  cc ← cpu_callout st (c_cpu r);
  mret (r, cc).

Definition remove_callout (st : kernel) (c : Z) : res kernel := h ← CIRCQ_REMOVE (links st) (Elem c); mret (put_links st h).
Definition insert_callout (st : kernel) (c : Z) (list : node) : res kernel :=
  h ← CIRCQ_INSERT (links st) (Elem c) list; mret (put_links st h).

(** [tryenter]: the lock of the processor that runs this could be taken. *)
Definition callout_schedule_locked (st : kernel) (curcpu : Z) (tryenter : bool) (c to_ticks : Z) : res kernel :=
  KASSERT (0 <=? to_ticks);;
  r ← callout st c;
  KASSERT (bool_decide (c_func r ≠ None));;
  occ ← cpu_callout st (c_cpu r);
  let r := with_flags r (clear (c_flags r) (CALLOUT_FIRED .| CALLOUT_INVOKING)) in
  if has (c_flags r) CALLOUT_PENDING then
    let old_time := c_time r in
    let r := with_time r (s32 (to_ticks + cc_ticks occ)) in
    let st := put_callout st c r in
    if s32 (c_time r - old_time) <? 0 then
      st ← remove_callout st c;
      insert_callout st c (Todo (c_cpu r))
    else mret st
  else
    cc ← (if has (c_flags r) CALLOUT_BOUND || (curcpu =? c_cpu r) then mret None
          else cc ← cpu_callout st curcpu; mret (if tryenter then Some cc else None));
    match cc with
    | None =>
      let r := with_time r (s32 (to_ticks + cc_ticks occ)) in
      let r := with_flags r (c_flags r .| CALLOUT_PENDING) in
      insert_callout (put_callout st c r) c (Todo (c_cpu r))
    | Some cc =>
      let r := with_cpu r curcpu in
      let r := with_time r (s32 (to_ticks + cc_ticks cc)) in
      let r := with_flags r (c_flags r .| CALLOUT_PENDING) in
      insert_callout (put_callout st c r) c (Todo curcpu)
    end.

Definition callout_setfunc (st : kernel) (c : Z) (func : option Z) (arg : Z) : res kernel :=
  KASSERT (bool_decide (func ≠ None));;
  '(r, _) ← callout_lock st c;
  mret (put_callout st c (with_func r func arg)).
Definition callout_reset (st : kernel) (curcpu : Z) (tryenter : bool) (c to_ticks : Z) (func : option Z) (arg : Z) : res kernel :=
  st ← callout_setfunc st c func arg;
  callout_schedule_locked st curcpu tryenter c to_ticks.
Definition callout_schedule (st : kernel) (curcpu : Z) (tryenter : bool) (c to_ticks : Z) : res kernel :=
  callout_lock st c;; callout_schedule_locked st curcpu tryenter c to_ticks.

(** What [callout_stop] and [callout_halt] do first: the callout is pending no
    more, and whether it has fired is the result. *)
Definition cancel_callout (st : kernel) (c : Z) : res (kernel * bool) :=
  '(r, _) ← callout_lock st c;
  st ← (if has (c_flags r) CALLOUT_PENDING then remove_callout st c else mret st);
  mret (put_callout st c (with_flags r (clear (c_flags r) (CALLOUT_PENDING .| CALLOUT_FIRED))), has (c_flags r) CALLOUT_FIRED).

Definition callout_stop (st : kernel) (c : Z) : res (kernel * bool) :=
  '(st, expired) ← cancel_callout st c;
  r ← callout st c;
  cc ← cpu_callout st (c_cpu r);
  mret (if decide (cc_active cc = Some c) then put_cpu st (c_cpu r) (with_cancel cc (Some c)) else st, expired).

(** One turn of the loop of [callout_halt]: it is done, or gives up the
    interlock, or sleeps until it is woken. *)
Inductive halt := HaltReturn | HaltUnlock | HaltSleep (st : kernel).
Definition callout_halt_loop (st : kernel) (curlwp c : Z) (interlock : bool) : res halt :=
  '(r, cc) ← callout_lock st c;
  if bool_decide (cc_active cc ≠ Some c) || bool_decide (cc_lwp cc = Some curlwp) then mret HaltReturn
  else if interlock then mret HaltUnlock
  else mret (HaltSleep (put_cpu st (c_cpu r) (with_sleepers cc (cc_sleepq cc ++ [curlwp]) (u32 (cc_nwait cc + 1))))).

Definition callout_test (st : kernel) (c flags : Z) : res bool := '(r, _) ← callout_lock st c; mret (has (c_flags r) flags).
Definition callout_expired (st : kernel) (c : Z) : res bool := callout_test st c CALLOUT_FIRED.
Definition callout_active (st : kernel) (c : Z) : res bool := callout_test st c (CALLOUT_PENDING .| CALLOUT_FIRED).
Definition callout_pending (st : kernel) (c : Z) : res bool := callout_test st c CALLOUT_PENDING.
Definition callout_invoking (st : kernel) (c : Z) : res bool := callout_test st c CALLOUT_INVOKING.
Definition callout_ack (st : kernel) (c : Z) : res kernel :=
  '(r, _) ← callout_lock st c; mret (put_callout st c (with_flags r (clear (c_flags r) CALLOUT_INVOKING))).

(** ** The clock *)

(** The result is whether the soft interrupt is scheduled. *)
Definition callout_hardclock (st : kernel) (curcpu : Z) : res (kernel * bool) :=
  cc ← cpu_callout st curcpu;
  let cc := with_ticks cc (u32 (cc_ticks cc + 1)) in
  let st := put_cpu st curcpu cc in
  let ticks := s32 (cc_ticks cc) in
  h ← MOVEBUCKET (links st) curcpu 0 ticks;
  h ← (if MASKWHEEL 0 ticks =? 0 then
         h ← MOVEBUCKET h curcpu 1 ticks;
         if MASKWHEEL 1 ticks =? 0 then
           h ← MOVEBUCKET h curcpu 2 ticks;
           if MASKWHEEL 2 ticks =? 0 then MOVEBUCKET h curcpu 3 ticks else mret h
         else mret h
       else mret h);
  empty ← CIRCQ_EMPTY h (Todo curcpu);
  mret (put_links st h, negb empty).

(** The loop of [callout_softclock] up to the next callout that is due, which is
    the result with its function and argument, or to the end. *)
Fixpoint softclock_loop (fuel : nat) (st : kernel) (curcpu : Z) : res (kernel * option (Z * Z * Z)) :=
  match fuel with
  | O => Fault NoFuel
  | S fuel =>
    empty ← CIRCQ_EMPTY (links st) (Todo curcpu);
    if empty : bool then
      cc ← cpu_callout st curcpu;
      mret (put_cpu st curcpu (with_lwp cc None), None)
    else
      c ← CIRCQ_FIRST (links st) (Todo curcpu);
      r ← callout st c;
      KASSERT (c_magic r =? CALLOUT_MAGIC);;
      func ← match c_func r with Some f => mret f | None => Fault Panic end;
      KASSERT (c_cpu r =? curcpu);;
      KASSERT (has (c_flags r) CALLOUT_PENDING);;
      KASSERT (negb (has (c_flags r) CALLOUT_FIRED));;
      st ← remove_callout st c;
      cc ← cpu_callout st curcpu;
      let ticks := s32 (cc_ticks cc) in
      if ticks <? c_time r then
        let delta := s32 (c_time r - ticks) in
        st ← insert_callout st c (BUCKET curcpu delta (c_time r));
        softclock_loop fuel st curcpu
      else
        let st := put_callout st c
          (with_flags r (clear (c_flags r) CALLOUT_PENDING .| (CALLOUT_FIRED .| CALLOUT_INVOKING))) in
        mret (put_cpu st curcpu (with_active cc (Some c)), Some (c, func, c_arg r))
  end.
Definition softclock_run (st : kernel) (curcpu : Z) : res (kernel * option (Z * Z * Z)) :=
  softclock_loop (S (size (callouts st))) st curcpu.

(** The soft interrupt starts. *)
Definition softclock_enter (st : kernel) (curcpu l : Z) : res (kernel * option (Z * Z * Z)) :=
  cc ← cpu_callout st curcpu;
  softclock_run (put_cpu st curcpu (with_lwp cc (Some l))) curcpu.

(** The function of a callout has returned; the result are the threads that are
    woken. To wake them the lock is given up before the loop goes on. *)
Definition softclock_return (st : kernel) (curcpu : Z) : res (kernel * list Z) :=
  cc ← cpu_callout st curcpu;
  let cc := with_active cc None in
  let count := cc_nwait cc in
  let '(cc, woken) :=
    if negb (count =? 0) then
      (with_sleepers cc (drop (Z.to_nat count) (cc_sleepq cc)) 0, take (Z.to_nat count) (cc_sleepq cc))
    else (cc, []) in
  mret (put_cpu st curcpu cc, woken).

(** ** The machine *)

(** A thread in [callout_halt]: it is about to look at the callout, with the
    interlock to give up or without, or it sleeps at a processor. *)
Inductive halting := HLoop (c : Z) (interlock : bool) | HAsleep (c cpu : Z).
Record machine := Machine { kern : kernel; halts : gmap Z halting }.

Inductive op :=
  | InitCpu (ci : Z)
  | Init (curcpu c flags : Z)
  | Destroy (l c : Z)
  | SetFunc (c f arg : Z)
  | Reset (curcpu : Z) (tryenter : bool) (c to_ticks f arg : Z)
  | Schedule (curcpu : Z) (tryenter : bool) (c to_ticks : Z)
  | Stop (c : Z)
  | Ack (c : Z)
  | Halt (l c : Z) (interlock : bool)
  | HaltTurn (l : Z)
  | HardClock (cpu : Z)
  | SoftEnter (cpu l : Z)
  | SoftReturn (cpu : Z)
  | SoftNext (cpu : Z).

(** What an operation answers: nothing, a truth value, or the callout whose
    function the soft interrupt calls next. *)
Inductive answer := ANone | ABool (b : bool) | AFire (f : option (Z * Z * Z)).

Definition wake_halt (h : halting) : halting := match h with HAsleep c _ => HLoop c false | _ => h end.
Definition quiet (s : machine) (st : res kernel) : res (machine * answer) := st ← st; mret (Machine st (halts s), ANone).

Definition exec (s : machine) (o : op) : res (machine * answer) :=
  let st := kern s in
  match o with
  | InitCpu ci => quiet s (callout_init_cpu st ci true)
  | Init curcpu c flags => quiet s (callout_init st curcpu c flags)
  | Destroy l c => quiet s (callout_destroy st l c)
  | SetFunc c f arg => quiet s (callout_setfunc st c (Some f) arg)
  | Reset curcpu tryenter c to_ticks f arg => quiet s (callout_reset st curcpu tryenter c to_ticks (Some f) arg)
  | Schedule curcpu tryenter c to_ticks => quiet s (callout_schedule st curcpu tryenter c to_ticks)
  | Stop c => '(st, b) ← callout_stop st c; mret (Machine st (halts s), ABool b)
  | Ack c => quiet s (callout_ack st c)
  | Halt l c interlock =>
    '(st, b) ← cancel_callout st c; mret (Machine st (<[l := HLoop c interlock]> (halts s)), ABool b)
  | HaltTurn l =>
    match halts s !! l with
    | Some (HLoop c interlock) =>
      v ← callout_halt_loop st l c interlock;
      match v with
      | HaltReturn => mret (Machine st (delete l (halts s)), ABool true)
      | HaltUnlock => mret (Machine st (<[l := HLoop c false]> (halts s)), ABool false)
      | HaltSleep st' =>
        r ← callout st c; mret (Machine st' (<[l := HAsleep c (c_cpu r)]> (halts s)), ABool false)
      end
    | _ => mret (s, ANone)
    end
  | HardClock cpu => '(st, b) ← callout_hardclock st cpu; mret (Machine st (halts s), ABool b)
  | SoftEnter cpu l => '(st, f) ← softclock_enter st cpu l; mret (Machine st (halts s), AFire f)
  | SoftReturn cpu =>
    '(st, woken) ← softclock_return st cpu;
    mret (Machine st (foldr (alter wake_halt) (halts s) woken), ANone)
  | SoftNext cpu => '(st, f) ← softclock_run st cpu; mret (Machine st (halts s), AFire f)
  end.

(** What the callers keep to. *)
Definition live (s : machine) (c : Z) : Prop := ∃ r, callouts (kern s) !! c = Some r ∧ c_magic r = CALLOUT_MAGIC.
Definition running (s : machine) (cpu c : Z) : Prop := ∃ cc, cpus (kern s) !! cpu = Some cc ∧ cc_active cc = Some c.
Definition legal (s : machine) (o : op) : Prop :=
  match o with
  | InitCpu ci => cpus (kern s) !! ci = None
  | Init curcpu c flags => ¬ live s c ∧ (∀ cpu, ¬ running s cpu c) ∧ clear flags CALLOUT_FLAGMASK = 0
  | Destroy l c => ∃ r cc, callouts (kern s) !! c = Some r ∧ c_magic r = CALLOUT_MAGIC ∧
      has (c_flags r) CALLOUT_PENDING = false ∧ cpus (kern s) !! c_cpu r = Some cc ∧
      (cc_lwp cc = Some l ∨ cc_active cc ≠ Some c)
  | SetFunc c _ _ | Stop c | Ack c => live s c
  | Reset curcpu _ c to_ticks _ _ => live s c ∧ 0 ≤ to_ticks < 2 ^ 31 ∧ is_Some (cpus (kern s) !! curcpu)
  | Schedule curcpu _ c to_ticks => live s c ∧ 0 ≤ to_ticks < 2 ^ 31 ∧ is_Some (cpus (kern s) !! curcpu) ∧
      ∃ r, callouts (kern s) !! c = Some r ∧ c_func r ≠ None
  | Halt l c _ => live s c ∧ halts s !! l = None
  | HaltTurn l => ∃ c interlock, halts s !! l = Some (HLoop c interlock) ∧ live s c ∧
      ∀ cpu cc, cpus (kern s) !! cpu = Some cc → Z.of_nat (length (cc_sleepq cc)) + 1 < 2 ^ 32
  | HardClock cpu => is_Some (cpus (kern s) !! cpu)
  | SoftEnter cpu l => halts s !! l = None ∧ ∃ cc, cpus (kern s) !! cpu = Some cc ∧ cc_lwp cc = None
  | SoftReturn cpu => ∃ cc l, cpus (kern s) !! cpu = Some cc ∧ cc_active cc ≠ None ∧ cc_lwp cc = Some l ∧ halts s !! l = None
  | SoftNext cpu => ∃ cc l, cpus (kern s) !! cpu = Some cc ∧ cc_active cc = None ∧ cc_lwp cc = Some l
  end.

(** The operation keeps the clock and the deadlines below 2^31. *)
Definition op_in_range (s : machine) (o : op) : Prop :=
  match o with
  | Reset _ _ _ to_ticks _ _ | Schedule _ _ _ to_ticks => ∀ cpu cc, cpus (kern s) !! cpu = Some cc → cc_ticks cc + to_ticks < 2 ^ 31
  | HardClock _ => ∀ cpu cc, cpus (kern s) !! cpu = Some cc → cc_ticks cc + 1 < 2 ^ 31
  | _ => True
  end.

(** The states that operations with [ok] build. *)
Inductive reach (ok : machine → op → Prop) : machine → Prop :=
  | reach_start : reach ok (Machine callout_startup ∅)
  | reach_step s o s' a : reach ok s → ok s o → exec s o = Ok (s', a) → reach ok s'.
