(* ===== verification/CalloutSpec.v ===== *)
(** * Callouts: the circular queues implement lists

    [queues_ok h D Q]: in the memory [h] each head in [D] starts the ring of the
    callouts [Q] gives it, and no callout is on two rings. The operations on the
    links are operations on these lists. *)

From S2P Require Export Prelude Callout.

(** ** Rings *)

Definition linked (h : circqs) (a b : node) : Prop := cq_next h !! a = Some b ∧ cq_prev h !! b = Some a.

(** The cells from [a] to [b], with the callouts [l] between them. *)
Fixpoint path (h : circqs) (a : node) (l : list Z) (b : node) : Prop :=
  match l with
  | [] => linked h a b
  | x :: l => linked h a (Elem x) ∧ path h (Elem x) l b
  end.
Definition is_head (n : node) : Prop := match n with Elem _ => False | _ => True end.

Lemma path_app h l1 x l2 : ∀ a b, path h a (l1 ++ x :: l2) b ↔ path h a l1 (Elem x) ∧ path h (Elem x) l2 b.
Proof. induction l1 as [|y l1 IH]; intros a b; simpl; [done|]. rewrite IH. tauto. Qed.

Lemma path_frame h h' l : ∀ a b,
  path h a l b →
  (cq_next h' !! a = cq_next h !! a) → (∀ x, x ∈ l → cq_next h' !! Elem x = cq_next h !! Elem x) →
  (∀ x, x ∈ l → cq_prev h' !! Elem x = cq_prev h !! Elem x) → (cq_prev h' !! b = cq_prev h !! b) →
  path h' a l b.
Proof.
  induction l as [|x l IH]; intros a b; simpl; unfold linked; intros Hp Hn Hns Hps Hb; [by rewrite Hn, Hb|].
  destruct Hp as [[? ?] Hp]. split; [by rewrite Hn, Hps by (by left)|]. apply IH; [done|..].
  - apply Hns. by left.
  - intros y Hy. apply Hns. by right.
  - intros y Hy. apply Hps. by right.
  - done.
Qed.

(** A ring spells its list. *)
Lemma path_det h hd l1 l2 : path h hd l1 hd → path h hd l2 hd → is_head hd → l1 = l2.
Proof.
  intros H1 H2 Hh. assert (Hgen : ∀ l1 l2 a, path h a l1 hd → path h a l2 hd → l1 = l2); [|by eapply Hgen].
  clear H1 H2 l1 l2. induction l1 as [|x l1 IH]; intros [|y l2] a; simpl; unfold linked; [done|..].
  - intros [E _] [[E' _] _]. rewrite E in E'. injection E' as ->. done.
  - intros [[E _] _] [E' _]. rewrite E in E'. injection E' as <-. done.
  - intros [[E _] H1] [[E' _] H2]. rewrite E in E'. injection E' as <-. f_equal. by eapply IH.
Qed.

(** The first and the last cell of a ring, after and before its head. *)
Definition first_of (hd : node) (l : list Z) : node := match l with [] => hd | x :: _ => Elem x end.
Definition last_of (hd : node) (l : list Z) : node := match last l with None => hd | Some x => Elem x end.

Lemma last_of_snoc hd l x : last_of hd (l ++ [x]) = Elem x.
Proof. unfold last_of. by rewrite last_snoc. Qed.
Lemma path_first h a l b : path h a l b → cq_next h !! a = Some (first_of b l).
Proof. destruct l; simpl; unfold linked; naive_solver. Qed.
Lemma path_last h a l b : path h a l b → cq_prev h !! b = Some (last_of a l).
Proof.
  destruct l as [|x l _] using rev_ind; simpl; [unfold linked; naive_solver|].
  rewrite path_app, last_of_snoc. simpl. unfold linked. naive_solver.
Qed.
Lemma first_of_elem hd l c : first_of hd l = Elem c → is_head hd → ∃ l', l = c :: l'.
Proof. destruct l; simpl; [by intros ->|intros [= ->]; eauto]. Qed.
Lemma first_of_in b l : first_of b l = b ∨ ∃ x, first_of b l = Elem x ∧ x ∈ l.
Proof. destruct l as [|x l]; [by left|right]. exists x. split; [done|by left]. Qed.
Lemma last_of_in a l : last_of a l = a ∨ ∃ x, last_of a l = Elem x ∧ x ∈ l.
Proof. destruct l as [|x l _] using rev_ind; [by left|right]. rewrite last_of_snoc. exists x. set_solver. Qed.

(** A path to [b] turned to [c]: only the last cell changes. *)
Lemma path_retarget h h' a l b c :
  path h a l b → NoDup l → (∀ x, a = Elem x → x ∉ l) →
  (∀ n, n ≠ last_of a l → n = a ∨ (∃ x, n = Elem x ∧ x ∈ l) → cq_next h' !! n = cq_next h !! n) →
  (∀ x, x ∈ l → cq_prev h' !! Elem x = cq_prev h !! Elem x) →
  linked h' (last_of a l) c → path h' a l c.
Proof.
  destruct l as [|x l _] using rev_ind; [done|].
  rewrite last_of_snoc. intros Hp Hnd Ha Hn Hpr Hl. rewrite path_app in *. destruct Hp as [Hp _]. split; [|done].
  apply NoDup_app in Hnd as (_&Hd&_). eapply path_frame; [done|..].
  - apply Hn; [intros ->; eapply Ha; [done|set_solver]|by left].
  - intros y Hy. apply Hn; [intros [= ->]; eapply Hd; [done|set_solver]|right; set_solver].
  - intros y Hy. apply Hpr. set_solver.
  - apply Hpr. set_solver.
Qed.

(** ** All queues *)

Record queues_ok (h : circqs) (D : node → Prop) (Q : node → list Z) : Prop := {
  q_ring hd : D hd → path h hd (Q hd) hd;
  q_head hd : D hd → is_head hd;
  q_nodup hd : D hd → NoDup (Q hd);
  q_uniq hd1 hd2 c : D hd1 → D hd2 → c ∈ Q hd1 → c ∈ Q hd2 → hd1 = hd2;
}.

Definition qset (Q : node → list Z) (hd : node) (l : list Z) : node → list Z := λ n, if decide (n = hd) then l else Q n.
Lemma qset_eq Q hd l : qset Q hd l hd = l.
Proof. unfold qset. by rewrite decide_True. Qed.
Lemma qset_ne Q hd l n : n ≠ hd → qset Q hd l n = Q n.
Proof. intros. unfold qset. by rewrite decide_False. Qed.

(** A change within one ring, or two: the others stay. *)
Definition touches (h h' : circqs) (T : node → Prop) : Prop :=
  ∀ n, ¬ T n → cq_next h' !! n = cq_next h !! n ∧ cq_prev h' !! n = cq_prev h !! n.
Lemma path_untouched h h' T a l b :
  path h a l b → touches h h' T → ¬ T a → ¬ T b → (∀ x, x ∈ l → ¬ T (Elem x)) → path h' a l b.
Proof.
  intros Hp Ht Ha Hb Hl. eapply path_frame; [done|by apply Ht|..|by apply Ht]; intros x Hx; by apply Ht, Hl.
Qed.

Lemma next_Ok h n m : cq_next h !! n = Some m → next h n = Ok m.
Proof. unfold next. by intros ->. Qed.
Lemma prev_Ok h n m : cq_prev h !! n = Some m → prev h n = Ok m.
Proof. unfold prev. by intros ->. Qed.

Lemma elem_eq (x y : Z) l : x = y → x ∈ y :: l.
Proof. intros ->. by left. Qed.
Lemma elem_eq_r (x y z : Z) l : x = y → y ∈ l → x ∈ z :: l.
Proof. intros ->. by right. Qed.

Section ring.
Context (h : circqs) (D : node → Prop) (Q : node → list Z) (Hok : queues_ok h D Q).

Lemma empty_spec hd : D hd → CIRCQ_EMPTY h hd = Ok (match Q hd with [] => true | _ => false end).
Proof using Hok.
  intros Hd. pose proof (path_first _ _ _ _ (q_ring _ _ _ Hok hd Hd)) as Hf. pose proof (q_head _ _ _ Hok hd Hd).
  unfold CIRCQ_EMPTY. rewrite (next_Ok _ _ _ Hf), Ok_bind. destruct (Q hd); simpl.
  - by rewrite bool_decide_true.
  - rewrite bool_decide_false; [done|]. by intros <-.
Qed.
Lemma first_spec hd c l : D hd → Q hd = c :: l → CIRCQ_FIRST h hd = Ok c.
Proof using Hok.
  intros Hd E. pose proof (path_first _ _ _ _ (q_ring _ _ _ Hok hd Hd)) as Hf. rewrite E in Hf.
  unfold CIRCQ_FIRST. by rewrite (next_Ok _ _ _ Hf), Ok_bind.
Qed.

Lemma ring_insert_spec hd c : D hd → (∀ hd', D hd' → c ∉ Q hd') →
  ∃ h', CIRCQ_INSERT h (Elem c) hd = Ok h' ∧ queues_ok h' D (qset Q hd (Q hd ++ [c])).
Proof using Hok.
  intros Hd Hc. pose proof (q_head _ _ _ Hok hd Hd) as Hh. pose proof (q_ring _ _ _ Hok hd Hd) as Hp.
  pose proof (path_last _ _ _ _ Hp) as Hl. assert (Hhc : hd ≠ Elem c) by (by intros ->).
  assert (Hlc : last_of hd (Q hd) ≠ Elem c).
  { destruct (last_of_in hd (Q hd)) as [->|(x&->&Hx)]; [done|]. intros [= ->]. by apply (Hc hd). }
  unfold CIRCQ_INSERT. rewrite (prev_Ok _ _ _ Hl), Ok_bind.
  rewrite (prev_Ok _ hd (last_of hd (Q hd))) by (simpl; by rewrite lookup_insert_ne). rewrite Ok_bind.
  eexists. split; [done|]. split; [|apply Hok|..].
  - intros hd' Hd'. destruct (decide (hd' = hd)) as [->|Hne].
    + rewrite qset_eq, path_app. unfold set_next, set_prev. split.
      * eapply path_retarget; [done|by apply Hok|by intros x ->| | |split]; simpl.
        -- intros n Hn Hin. rewrite lookup_insert_ne by done. rewrite lookup_insert_ne; [done|].
           intros <-. destruct Hin as [?|(x&[= <-]&?)]; [done|]. by apply (Hc hd).
        -- intros x Hx. rewrite !lookup_insert_ne; [done|intros [= ->]; by apply (Hc hd)|by intros ->].
        -- apply lookup_insert_eq.
        -- by rewrite lookup_insert_ne, lookup_insert_eq.
      * split; simpl; [by rewrite lookup_insert_ne, lookup_insert_eq|apply lookup_insert_eq].
    + rewrite qset_ne by done. pose proof (q_head _ _ _ Hok hd' Hd').
      eapply (path_untouched _ _ (λ n, n = hd ∨ n = Elem c ∨ n = last_of hd (Q hd))); [by apply Hok|..].
      * intros n Hn. simpl. rewrite !lookup_insert_ne by (intros <-; tauto). done.
      * intros [?|[->|E]]; [done|done|]. destruct (last_of_in hd (Q hd)) as [E'|(x&E'&_)]; [congruence|].
        by rewrite E, E' in *.
      * intros [?|[->|E]]; [done|done|]. destruct (last_of_in hd (Q hd)) as [E'|(x&E'&_)]; [congruence|].
        by rewrite E, E' in *.
      * intros x Hx [E|[[= ->]|E]]; [by subst|by apply (Hc hd')|].
        destruct (last_of_in hd (Q hd)) as [E'|(y&E'&Hy)]; rewrite E' in E; [by subst|].
        injection E as ->. apply Hne. by eapply (q_uniq _ _ _ Hok).
  - intros hd' Hd'. unfold qset. case_decide as E; [|by apply Hok]. subst. apply NoDup_app. split; [by apply Hok|].
    split; [|apply NoDup_singleton]. intros x Hx ->%list_elem_of_singleton. by apply (Hc hd).
  - intros hd1 hd2 x H1 H2. unfold qset. repeat case_decide; subst; try done.
    + intros [?| ->%list_elem_of_singleton]%elem_of_app ?; [by eapply (q_uniq _ _ _ Hok)|]. exfalso; eapply (Hc _ H2); done.
    + intros ? [?| ->%list_elem_of_singleton]%elem_of_app; [by eapply (q_uniq _ _ _ Hok)|]. exfalso; eapply (Hc _ H1); done.
    + by apply (q_uniq _ _ _ Hok).
Qed.

Lemma ring_remove_spec hd c : D hd → c ∈ Q hd →
  ∃ h', CIRCQ_REMOVE h (Elem c) = Ok h' ∧ queues_ok h' D (qset Q hd (filter (λ k, k ≠ c) (Q hd))).
Proof using Hok.
  intros Hd Hc. pose proof (q_head _ _ _ Hok hd Hd) as Hh. pose proof (q_ring _ _ _ Hok hd Hd) as Hp.
  pose proof (q_nodup _ _ _ Hok hd Hd) as Hnd. assert (Hhc : ∀ x, hd ≠ Elem x) by (by intros x ->).
  apply list_elem_of_split in Hc as (l1&l2&E). assert (c ∉ l1 ∧ c ∉ l2) as [Hc1 Hc2].
  { rewrite E in Hnd. apply NoDup_app in Hnd as (_&Hd1&Hnd2). apply NoDup_cons in Hnd2 as [? _]. split; [|done].
    intros ?. by apply (Hd1 c); [|left]. }
  assert (Ef : filter (λ k, k ≠ c) (Q hd) = l1 ++ l2).
  { rewrite E, filter_app, filter_cons, decide_False by tauto. by rewrite !filter_ne_notin. }
  rewrite Ef. rewrite E in Hp, Hnd. apply path_app in Hp as [Hp1 Hp2].
  assert (Hnd' : NoDup (l1 ++ l2)) by (by rewrite <- Permutation_middle in Hnd; apply NoDup_cons in Hnd as [_ ?]).
  apply NoDup_app in Hnd' as (Hnd1&Hdis&Hnd2).
  set (p := last_of hd l1). set (n := first_of hd l2).
  assert (Hnc : n ≠ Elem c) by (intros E'; destruct (first_of_in hd l2) as [?|(x&?&?)]; unfold n in E'; congruence).
  assert (Hpin : p = hd ∨ ∃ x, p = Elem x ∧ x ∈ l1) by apply last_of_in.
  assert (Hnin : n = hd ∨ ∃ x, n = Elem x ∧ x ∈ l2) by apply first_of_in.
  unfold CIRCQ_REMOVE. rewrite (next_Ok _ _ _ (path_first _ _ _ _ Hp2)), Ok_bind.
  rewrite (prev_Ok _ _ _ (path_last _ _ _ _ Hp1)), Ok_bind. fold n p.
  rewrite (prev_Ok _ (Elem c) p) by (simpl; rewrite lookup_insert_ne by done; apply (path_last _ _ _ _ Hp1)).
  rewrite Ok_bind, (next_Ok _ (Elem c) n) by apply (path_first _ _ _ _ Hp2). rewrite Ok_bind.
  eexists. split; [done|]. set (h' := set_next _ _ _).
  assert (Hlink : linked h' p n) by (split; simpl; apply lookup_insert_eq).
  assert (H1 : path h' hd l1 n).
  { eapply path_retarget; [done|done|by intros x ->| | |done].
    - intros m Hm _. simpl. by rewrite lookup_insert_ne.
    - intros x Hx. simpl. rewrite lookup_insert_ne; [done|]. intros E'. destruct Hnin as [?|(y&?&?)]; [congruence|].
      apply (Hdis x); [done|congruence]. }
  split; [|apply Hok|..].
  - intros hd' Hd'. destruct (decide (hd' = hd)) as [->|Hne].
    + rewrite qset_eq. destruct l2 as [|y l2]; [by rewrite app_nil_r|]. simpl in n, Hp2. apply path_app. split; [done|].
      apply NoDup_cons in Hnd2 as [Hy Hnd2]. destruct Hp2 as [_ Hp2]. eapply path_frame; [done|..].
      * simpl. rewrite lookup_insert_ne; [done|]. intros E'. destruct Hpin as [?|(x&?&?)]; [congruence|].
        apply (Hdis x); [done|apply elem_eq; congruence].
      * intros x Hx. simpl. rewrite lookup_insert_ne; [done|]. intros E'. destruct Hpin as [?|(z&?&?)]; [congruence|].
        apply (Hdis z); [done|eapply elem_eq_r; [|done]; congruence].
      * intros x Hx. simpl. rewrite lookup_insert_ne; [done|]. intros [= ->]. done.
      * simpl. by rewrite lookup_insert_ne by (symmetry; apply Hhc).
    + rewrite qset_ne by done. pose proof (q_head _ _ _ Hok hd' Hd').
      assert (Hel : ∀ x, x ∈ Q hd' → x ∈ l1 ∨ x ∈ l2 → False).
      { intros x Hx Hor. apply Hne. eapply (q_uniq _ _ _ Hok); [done|done|done|]. rewrite E. set_solver. }
      eapply (path_untouched _ _ (λ m, m = p ∨ m = n)); [by apply Hok|..].
      * intros m Hm. simpl. rewrite !lookup_insert_ne by (intros <-; tauto). done.
      * intros [->| ->]; [destruct Hpin as [?|(x&Ex&_)]|destruct Hnin as [?|(x&Ex&_)]]; try done; by rewrite Ex in *.
      * intros [->| ->]; [destruct Hpin as [?|(x&Ex&_)]|destruct Hnin as [?|(x&Ex&_)]]; try done; by rewrite Ex in *.
      * intros x Hx [E'|E']; [destruct Hpin as [?|(y&?&?)]|destruct Hnin as [?|(y&?&?)]]; try congruence;
          apply (Hel x); [done|left; congruence|done|right; congruence].
  - intros hd' Hd'. unfold qset. case_decide as E'; [|by apply Hok]. subst. by apply NoDup_app.
  - intros hd1 hd2 x Hd1 Hd2. assert (∀ y, y ∈ l1 ++ l2 → y ∈ Q hd) by (rewrite E; set_solver).
    unfold qset. repeat case_decide; subst; try done; intros; eapply (q_uniq _ _ _ Hok); eauto.
Qed.

Lemma ring_append_spec f s : D f → D s → f ≠ s →
  ∃ h', CIRCQ_APPEND h f s = Ok h' ∧ queues_ok h' D (qset (qset Q f (Q f ++ Q s)) s []).
Proof using Hok.
  intros Hf Hs Hne. unfold CIRCQ_APPEND. rewrite (empty_spec s Hs), Ok_bind.
  pose proof (q_ring _ _ _ Hok f Hf) as Hp1. pose proof (q_ring _ _ _ Hok s Hs) as Hp2.
  pose proof (q_head _ _ _ Hok f Hf) as Hh1. pose proof (q_head _ _ _ Hok s Hs) as Hh2.
  pose proof (q_nodup _ _ _ Hok f Hf) as Hnd1. pose proof (q_nodup _ _ _ Hok s Hs) as Hnd2.
  assert (Hfe : ∀ x, f ≠ Elem x) by (by intros x ->). assert (Hse : ∀ x, s ≠ Elem x) by (by intros x ->).
  destruct (Q s) as [|y l2] eqn:E2.
  { exists h. split; [done|]. split; [|apply Hok|..].
    - intros hd Hd. unfold qset. repeat case_decide; subst; rewrite ?app_nil_r; try by apply Hok. exact Hp2.
    - intros hd Hd. unfold qset. repeat case_decide; subst; rewrite ?app_nil_r; try by apply Hok. constructor.
    - intros hd1 hd2 x ? ?. unfold qset. repeat case_decide; subst; rewrite ?app_nil_r; try done; try (by intros ?%elem_of_nil); try (by intros ? ?%elem_of_nil);
        by apply (q_uniq _ _ _ Hok). }
  assert (Hdis : ∀ x, x ∈ Q f → x ∈ y :: l2 → False).
  { intros x Hx1 Hx2. apply Hne. eapply (q_uniq _ _ _ Hok); [done|done|done|]. by rewrite E2. }
  set (p := last_of f (Q f)). set (z := last_of (Elem y) l2).
  assert (Hpin : p = f ∨ ∃ x, p = Elem x ∧ x ∈ Q f) by apply last_of_in.
  assert (Hzin : z = Elem y ∨ ∃ x, z = Elem x ∧ x ∈ l2) by apply last_of_in.
  assert (Hps : p ≠ s) by (destruct Hpin as [?|(x&?&_)]; congruence).
  assert (Hzs : z ≠ s) by (destruct Hzin as [?|(x&?&_)]; congruence).
  assert (Hzf : z ≠ f) by (destruct Hzin as [?|(x&?&_)]; congruence).
  assert (Hzp : z ≠ p).
  { intros E. destruct Hzin as [?|(x&?&?)], Hpin as [?|(x'&?&?)]; try congruence.
    - apply (Hdis x'); [done|apply elem_eq; congruence].
    - apply (Hdis x'); [done|eapply elem_eq_r; [|done]; congruence]. }
  assert (Hpy : p ≠ Elem y) by (intros E; destruct Hpin as [?|(x&?&?)]; [congruence|apply (Hdis x); [done|apply elem_eq; congruence]]).
  pose proof (path_last _ _ _ _ Hp1) as Hl1. fold p in Hl1. destruct Hp2 as [Hp20 Hp2].
  pose proof (path_last _ _ _ _ Hp2) as Hl2. fold z in Hl2. destruct Hp20 as [Hn2 _].
  rewrite (prev_Ok _ _ _ Hl1), Ok_bind, (next_Ok _ _ _ Hn2), Ok_bind.
  rewrite (next_Ok _ s (Elem y)) by (simpl; by rewrite lookup_insert_ne). rewrite Ok_bind, (prev_Ok _ f p), Ok_bind by done.
  rewrite (prev_Ok _ s z) by (simpl; by rewrite lookup_insert_ne). rewrite Ok_bind.
  rewrite (prev_Ok _ s z) by (simpl; by rewrite lookup_insert_ne). rewrite Ok_bind.
  eexists. split; [done|]. set (h' := CIRCQ_INIT _ _).
  assert (Hpm : linked h' p (Elem y)).
  { split; simpl; repeat (rewrite lookup_insert_ne by congruence); apply lookup_insert_eq. }
  assert (Hzl : linked h' z f).
  { split; simpl; repeat (rewrite lookup_insert_ne by congruence); apply lookup_insert_eq. }
  apply NoDup_cons in Hnd2 as [Hy Hnd2].
  assert (Hr1 : path h' f (Q f ++ y :: l2) f).
  { apply path_app. split.
    - eapply path_retarget; [done|done|intros x Ex; by destruct (Hfe x)| | |done].
      + intros m Hm Hin. fold p in Hm. assert (m ≠ z ∧ m ≠ s) as [? ?].
        { destruct Hin as [->|(x&->&Hx)]; split; try congruence. intros E. destruct Hzin as [?|(x'&?&?)].
          - apply (Hdis x); [done|apply elem_eq; congruence].
          - apply (Hdis x); [done|eapply elem_eq_r; [|done]; congruence]. }
        simpl. by rewrite !lookup_insert_ne by congruence.
      + intros x Hx. simpl. rewrite !lookup_insert_ne; try congruence. intros [= ->]. eapply Hdis; [done|by left].
    - eapply path_retarget; [exact Hp2|done|by intros x [= <-]| | |done].
      + intros m Hm Hin. fold z in Hm. assert (m ≠ p ∧ m ≠ s) as [? ?].
        { destruct Hin as [->|(x&->&Hx)]; split; try congruence. intros E. destruct Hpin as [?|(x'&?&?)]; [congruence|].
          apply (Hdis x'); [done|eapply elem_eq_r; [|done]; congruence]. }
        simpl. by rewrite !lookup_insert_ne by congruence.
      + intros x Hx. simpl. rewrite !lookup_insert_ne; congruence. }
  split; [|apply Hok|..].
  - intros hd Hd. unfold qset. case_decide; subst; [split; simpl; apply lookup_insert_eq|].
    case_decide; subst; [done|]. pose proof (q_head _ _ _ Hok hd Hd).
    assert (Hhe : ∀ x, hd ≠ Elem x) by (by intros x ->).
    assert (Hno : ¬ (hd = p ∨ hd = z ∨ hd = f ∨ hd = s ∨ hd = Elem y)).
    { intros [E'|[E'|[E'|[E'|E']]]]; [| |done|done|by apply (Hhe y)].
      - destruct Hpin as [?|(x1&?&?)]; [congruence|apply (Hhe x1); congruence].
      - destruct Hzin as [?|(x1&?&?)]; [apply (Hhe y)|apply (Hhe x1)]; congruence. }
    eapply (path_untouched _ _ (λ m, m = p ∨ m = z ∨ m = f ∨ m = s ∨ m = Elem y)); [by apply Hok|..].
    + intros m Hm. simpl. rewrite !lookup_insert_ne by (intros <-; tauto). done.
    + exact Hno.
    + exact Hno.
    + intros x Hx. assert (x ∉ Q f ∧ x ∉ y :: l2) as [Hx1 Hx2].
      { split; intros Hin; [apply H0|apply H]; eapply (q_uniq _ _ _ Hok); eauto. by rewrite E2. }
      intros [E'|[E'|[E'|[E'|E']]]].
      * destruct Hpin as [?|(x1&?&?)]; [by apply (Hfe x); congruence|]. apply Hx1. by replace x with x1 by congruence.
      * apply Hx2. destruct Hzin as [?|(x1&?&?)]; [apply elem_eq; congruence|eapply elem_eq_r; [|done]; congruence].
      * by apply (Hfe x).
      * by apply (Hse x).
      * apply Hx2, elem_eq. congruence.
  - intros hd Hd. unfold qset. case_decide; [constructor|]. case_decide; [subst|by apply Hok].
    apply NoDup_app. split; [done|]. split; [intros x ??; by eapply Hdis|by apply NoDup_cons].
  - intros hd1 hd2 x Hd1 Hd2. unfold qset. repeat case_decide; subst; try done; try (by intros ?%elem_of_nil); try (by intros ? ?%elem_of_nil).
    + intros [?|Hx]%elem_of_app ?; [by eapply (q_uniq _ _ _ Hok)|]. rewrite <- E2 in Hx.
      assert (s = hd2) by (by apply (q_uniq _ _ _ Hok s hd2 x)). congruence.
    + intros ? [?|Hx]%elem_of_app; [by eapply (q_uniq _ _ _ Hok)|]. rewrite <- E2 in Hx.
      assert (s = hd1) by (by apply (q_uniq _ _ _ Hok s hd1 x)). congruence.
    + by apply (q_uniq _ _ _ Hok).
Qed.
End ring.
