(* ===== verification/CalloutSys.v ===== *)
(** * Callouts: the invariant of the timing wheel

    Every pending callout is on one queue of its processor, and while the clock
    has not wrapped, a callout in the wheel is in a bucket that the clock visits
    before it is due. The operations keep this. *)

From S2P Require Export Prelude Callout CalloutSpec.

(** ** Flags *)

Lemma has_testbit f k : 0 ≤ k → has f (2 ^ k) = Z.testbit f k.
Proof.
  intros Hk. unfold has. destruct (Z.testbit f k) eqn:E.
  - apply negb_true_iff, Z.eqb_neq. intros H. apply (f_equal (λ x, Z.testbit x k)) in H.
    rewrite Z.land_spec, Z.pow2_bits_true, E, Z.bits_0 in H by done. done.
  - apply negb_false_iff, Z.eqb_eq. apply Z.bits_inj'. intros i Hi. rewrite Z.land_spec, Z.bits_0.
    destruct (decide (i = k)) as [->|Hne]; [by rewrite E|]. rewrite Z.pow2_bits_false by done. apply andb_false_r.
Qed.
Lemma has_lor f g k : 0 ≤ k → has (f .| g) (2 ^ k) = has f (2 ^ k) || has g (2 ^ k).
Proof. intros Hk. rewrite !has_testbit by done. apply Z.lor_spec. Qed.
Lemma has_clear f m k : 0 ≤ k < 32 → 0 ≤ m < 2 ^ 32 → has (clear f m) (2 ^ k) = has f (2 ^ k) && negb (has m (2 ^ k)).
Proof.
  intros Hk Hm. rewrite !has_testbit by lia. unfold clear. rewrite Z.land_spec. f_equal.
  change (2 ^ 32 - 1) with (Z.ones 32). rewrite Z.sub_nocarry_ldiff.
  - rewrite Z.ldiff_spec, Z.ones_spec_low by lia. done.
  - apply Z.ldiff_ones_r_low; [lia|]. destruct (decide (m = 0)) as [->|]; [done|]. apply Z.log2_lt_pow2; lia.
Qed.

Section flags.
Variable f : Z.
Lemma pending_clear_fired : has (clear f (CALLOUT_FIRED .| CALLOUT_INVOKING)) CALLOUT_PENDING = has f CALLOUT_PENDING.
Proof. change CALLOUT_PENDING with (2 ^ 1). by rewrite has_clear, andb_true_r. Qed.
Lemma fired_clear_fired : has (clear f (CALLOUT_FIRED .| CALLOUT_INVOKING)) CALLOUT_FIRED = false.
Proof. change CALLOUT_FIRED with (2 ^ 2) at 2. by rewrite has_clear, andb_false_r. Qed.
Lemma bound_clear_fired : has (clear f (CALLOUT_FIRED .| CALLOUT_INVOKING)) CALLOUT_BOUND = has f CALLOUT_BOUND.
Proof. change CALLOUT_BOUND with (2 ^ 0). by rewrite has_clear, andb_true_r. Qed.
Lemma pending_set : has (f .| CALLOUT_PENDING) CALLOUT_PENDING = true.
Proof. change CALLOUT_PENDING with (2 ^ 1) at 2. by rewrite has_lor, orb_true_r. Qed.
Lemma fired_set_pending : has (f .| CALLOUT_PENDING) CALLOUT_FIRED = has f CALLOUT_FIRED.
Proof. change CALLOUT_FIRED with (2 ^ 2). by rewrite has_lor, orb_false_r. Qed.
Lemma bound_set_pending : has (f .| CALLOUT_PENDING) CALLOUT_BOUND = has f CALLOUT_BOUND.
Proof. change CALLOUT_BOUND with (2 ^ 0). by rewrite has_lor, orb_false_r. Qed.
Lemma pending_cancel : has (clear f (CALLOUT_PENDING .| CALLOUT_FIRED)) CALLOUT_PENDING = false.
Proof. change CALLOUT_PENDING with (2 ^ 1) at 2. by rewrite has_clear, andb_false_r. Qed.
Lemma bound_cancel : has (clear f (CALLOUT_PENDING .| CALLOUT_FIRED)) CALLOUT_BOUND = has f CALLOUT_BOUND.
Proof. change CALLOUT_BOUND with (2 ^ 0). by rewrite has_clear, andb_true_r. Qed.
Lemma pending_ack : has (clear f CALLOUT_INVOKING) CALLOUT_PENDING = has f CALLOUT_PENDING.
Proof. change CALLOUT_PENDING with (2 ^ 1). by rewrite has_clear, andb_true_r. Qed.
Lemma fired_ack : has (clear f CALLOUT_INVOKING) CALLOUT_FIRED = has f CALLOUT_FIRED.
Proof. change CALLOUT_FIRED with (2 ^ 2). by rewrite has_clear, andb_true_r. Qed.
Lemma bound_ack : has (clear f CALLOUT_INVOKING) CALLOUT_BOUND = has f CALLOUT_BOUND.
Proof. change CALLOUT_BOUND with (2 ^ 0). by rewrite has_clear, andb_true_r. Qed.
Lemma pending_fire : has (clear f CALLOUT_PENDING .| (CALLOUT_FIRED .| CALLOUT_INVOKING)) CALLOUT_PENDING = false.
Proof. change CALLOUT_PENDING with (2 ^ 1) at 2. by rewrite has_lor, has_clear, andb_false_r. Qed.
Lemma bound_fire : has (clear f CALLOUT_PENDING .| (CALLOUT_FIRED .| CALLOUT_INVOKING)) CALLOUT_BOUND = has f CALLOUT_BOUND.
Proof. change CALLOUT_BOUND with (2 ^ 0). by rewrite has_lor, has_clear, andb_true_r, orb_false_r. Qed.
Lemma pending_init : clear f CALLOUT_FLAGMASK = 0 → has f CALLOUT_PENDING = false ∧ has (f .| CALLOUT_BOUND) CALLOUT_PENDING = false.
Proof.
  intros Hf. assert (H : has f CALLOUT_PENDING = false).
  { change CALLOUT_PENDING with (2 ^ 1). apply (f_equal (λ x, has x (2 ^ 1))) in Hf.
    rewrite has_clear in Hf by done. change (has CALLOUT_FLAGMASK (2 ^ 1)) with false in Hf. by rewrite andb_true_r in Hf. }
  split; [done|]. change CALLOUT_PENDING with (2 ^ 1) in *. by rewrite has_lor, H.
Qed.
End flags.

(** ** The invariant *)

Definition head_of (cs : gmap Z callout_cpu) (n : node) : Prop :=
  match n with
  | Todo cpu => is_Some (cs !! cpu)
  | Wheel cpu b => is_Some (cs !! cpu) ∧ 0 ≤ b < BUCKETS
  | Elem _ => False
  end.
Definition cpu_of (n : node) : Z := match n with Todo cpu | Wheel cpu _ => cpu | Elem c => c end.
Definition pending (r : callout_impl) : bool := has (c_flags r) CALLOUT_PENDING.

(** The clock, at [t], next visits bucket [b] at tick [v]. *)
Definition visit (b t v : Z) : Prop :=
  ∃ w i, 0 ≤ w ≤ 3 ∧ b = i + w * WHEELSIZE ∧ 0 ≤ i < WHEELSIZE ∧
    v mod 256 ^ w = 0 ∧ (v / 256 ^ w) mod 256 = i ∧ t < v ≤ t + 256 ^ (w + 1).

Section invariant.
(** Whether no clock and no deadline has wrapped. *)
Variable timed : Prop.

Definition on_time (st : kernel) (hd : node) (r : callout_impl) : Prop :=
  0 ≤ c_time r < 2 ^ 31 ∧
  match hd with
  | Wheel cpu b => ∀ cc, cpus st !! cpu = Some cc → ∃ v, visit b (cc_ticks cc) v ∧ v ≤ c_time r
  | _ => True
  end.
Definition nowhere (st : kernel) (Q : node → list Z) (c : Z) : Prop := ∀ hd, head_of (cpus st) hd → c ∉ Q hd.
Definition queued (st : kernel) (Q : node → list Z) (c : Z) (r : callout_impl) : Prop :=
  c_magic r = CALLOUT_MAGIC ∧ c_func r ≠ None ∧ has (c_flags r) CALLOUT_FIRED = false ∧
  ∃ hd, head_of (cpus st) hd ∧ cpu_of hd = c_cpu r ∧ c ∈ Q hd ∧ (timed → on_time st hd r).
Definition callout_ok (st : kernel) (Q : node → list Z) (c : Z) : Prop :=
  match callouts st !! c with
  | None => nowhere st Q c
  | Some r => (c_magic r = CALLOUT_MAGIC → is_Some (cpus st !! c_cpu r)) ∧
      if pending r then queued st Q c r else nowhere st Q c
  end.
Definition cpu_ok (cc : callout_cpu) : Prop :=
  is_u32 (cc_ticks cc) ∧ (timed → cc_ticks cc < 2 ^ 31) ∧ cc_nwait cc = Z.of_nat (length (cc_sleepq cc)) ∧
  (cc_sleepq cc ≠ [] → cc_active cc ≠ None) ∧ (cc_active cc ≠ None → cc_lwp cc ≠ None).

Record state_ok (st : kernel) (Q : node → list Z) : Prop := {
  st_queues : queues_ok (links st) (head_of (cpus st)) Q;
  st_callout c : callout_ok st Q c;
  st_cpu cpu cc : cpus st !! cpu = Some cc → cpu_ok cc;
}.

Definition same_clock (st st' : kernel) : Prop := ∀ cpu, cc_ticks <$> cpus st' !! cpu = cc_ticks <$> cpus st !! cpu.
Lemma same_clock_some st st' cpu : same_clock st st' → is_Some (cpus st' !! cpu) ↔ is_Some (cpus st !! cpu).
Proof using. intros Hc. by rewrite <- (fmap_is_Some cc_ticks), Hc, fmap_is_Some. Qed.
Lemma same_clock_head st st' hd : same_clock st st' → head_of (cpus st') hd ↔ head_of (cpus st) hd.
Proof using. intros Hc. destruct hd; simpl; by rewrite ?(same_clock_some _ _ _ Hc). Qed.

Lemma on_time_frame st st' hd r : same_clock st st' → on_time st hd r → on_time st' hd r.
Proof using.
  intros Hc [H1 H2]. split; [done|]. destruct hd as [| |cpu b]; try done. intros cc' Hcc'. specialize (Hc cpu).
  rewrite Hcc' in Hc. simpl in Hc. destruct (cpus st !! cpu) as [cc|] eqn:E; [|done]. injection Hc as ->. by apply H2.
Qed.
Lemma nowhere_frame st st' Q Q' c :
  same_clock st st' → (∀ hd, head_of (cpus st) hd → c ∈ Q' hd ↔ c ∈ Q hd) → nowhere st Q c → nowhere st' Q' c.
Proof using. intros Hc HQ Hn hd Hd%(same_clock_head _ _ _ Hc). rewrite HQ by done. by apply Hn. Qed.
Lemma callout_ok_frame st st' Q Q' c :
  same_clock st st' → callouts st' !! c = callouts st !! c → (∀ hd, head_of (cpus st) hd → c ∈ Q' hd ↔ c ∈ Q hd) →
  callout_ok st Q c → callout_ok st' Q' c.
Proof using.
  intros Hc Hr HQ. unfold callout_ok. rewrite Hr. destruct (callouts st !! c) as [r|]; [|by apply nowhere_frame].
  intros [H1 H2]. split; [intros Hm; by apply (same_clock_some _ _ _ Hc), H1|].
  destruct (pending r); [|by eapply nowhere_frame]. destruct H2 as (?&?&?&hd&Hd&?&?&Ht). split_and!; [done..|].
  exists hd. split_and!; [by apply (same_clock_head _ _ _ Hc)|done|by apply HQ|]. intros HT. eapply on_time_frame; [done|by apply Ht].
Qed.

(** One callout, and the queue it is on, change. *)
Lemma change_ok st Q st' Q' c :
  state_ok st Q → same_clock st st' → queues_ok (links st') (head_of (cpus st)) Q' →
  (∀ k hd, k ≠ c → head_of (cpus st) hd → k ∈ Q' hd ↔ k ∈ Q hd) →
  (∀ k, k ≠ c → callouts st' !! k = callouts st !! k) → callout_ok st' Q' c →
  (∀ cpu cc, cpus st' !! cpu = Some cc → cpu_ok cc) → state_ok st' Q'.
Proof using.
  intros [H1 H2 H3] Hc Hq HQ Hr Hok Hcpu. split; [| |done].
  - destruct Hq as [Q1 Q2 Q3 Q4]. split; setoid_rewrite (same_clock_head _ _ _ Hc); done.
  - intros k. destruct (decide (k = c)) as [->|Hne]; [done|]. eapply callout_ok_frame; [done|by apply Hr| |done].
    intros hd Hd. by apply HQ.
Qed.

Lemma same_clock_refl st h m : same_clock st (Kernel h m (cpus st)).
Proof using. done. Qed.
Lemma same_clock_cpu st h m cpu cc cc' :
  cpus st !! cpu = Some cc → cc_ticks cc' = cc_ticks cc → same_clock st (Kernel h m (<[cpu := cc']> (cpus st))).
Proof using.
  intros Hcc Ht k. simpl. destruct (decide (k = cpu)) as [->|]; [|by rewrite lookup_insert_ne].
  rewrite lookup_insert_eq, Hcc. simpl. by rewrite Ht.
Qed.

(** Only the record of one callout changes. *)
Lemma change_record st Q c r :
  state_ok st Q → callout_ok (put_callout st c r) Q c → state_ok (put_callout st c r) Q.
Proof using.
  intros Hok Hc. eapply (change_ok st Q _ Q c); [done|done|apply Hok|done| |done|apply Hok].
  intros k Hk. simpl. by rewrite lookup_insert_ne.
Qed.
(** Only what a processor keeps besides its clock changes. *)
Lemma change_cpu st Q cpu cc cc' :
  state_ok st Q → cpus st !! cpu = Some cc → cc_ticks cc' = cc_ticks cc → cpu_ok cc' → state_ok (put_cpu st cpu cc') Q.
Proof using.
  intros Hok Hcc Ht Hcc'. assert (Hs : same_clock st (put_cpu st cpu cc')) by by eapply same_clock_cpu.
  eapply (change_ok st Q _ Q 0); [done|done|apply Hok|done|done| |].
  - eapply callout_ok_frame; [done|done|done|apply Hok].
  - intros k ck. simpl. destruct (decide (k = cpu)) as [->|]; [by rewrite lookup_insert_eq; intros [= <-]|].
    rewrite lookup_insert_ne by done. apply Hok.
Qed.

Lemma not_pending_nowhere st Q c r : state_ok st Q → callouts st !! c = Some r → pending r = false → nowhere st Q c.
Proof using. intros Hok Hr Hp. pose proof (st_callout _ _ Hok c) as H. unfold callout_ok in H. rewrite Hr, Hp in H. tauto. Qed.
Lemma pending_queued st Q c r : state_ok st Q → callouts st !! c = Some r → pending r = true → queued st Q c r.
Proof using. intros Hok Hr Hp. pose proof (st_callout _ _ Hok c) as H. unfold callout_ok in H. rewrite Hr, Hp in H. tauto. Qed.
Lemma queued_at st Q c r hd : state_ok st Q → callouts st !! c = Some r → head_of (cpus st) hd → c ∈ Q hd →
  pending r = true ∧ queued st Q c r ∧ cpu_of hd = c_cpu r ∧ (timed → on_time st hd r).
Proof using.
  intros Hok Hr Hd Hin. destruct (pending r) eqn:Hp.
  - pose proof (pending_queued _ _ _ _ Hok Hr Hp) as Hq. pose proof Hq as (_&_&_&hd'&Hd'&Hc&Hin'&Ht).
    assert (hd' = hd) as -> by by eapply (q_uniq _ _ _ (st_queues _ _ Hok)). done.
  - by edestruct (not_pending_nowhere _ _ _ _ Hok Hr Hp).
Qed.
Lemma on_queue st Q c hd : state_ok st Q → head_of (cpus st) hd → c ∈ Q hd → ∃ r, callouts st !! c = Some r.
Proof using.
  intros Hok Hd Hin. pose proof (st_callout _ _ Hok c) as H. unfold callout_ok in H.
  destruct (callouts st !! c) as [r|]; [by eexists|]. by edestruct H.
Qed.

(** ** A callout between two queues *)

Record hole_ok (st : kernel) (Q : node → list Z) (c : Z) : Prop := {
  ho_queues : queues_ok (links st) (head_of (cpus st)) Q;
  ho_callout k : k ≠ c → callout_ok st Q k;
  ho_cpu cpu cc : cpus st !! cpu = Some cc → cpu_ok cc;
  ho_nowhere : nowhere st Q c;
}.
Lemma hole_intro st Q c : state_ok st Q → nowhere st Q c → hole_ok st Q c.
Proof using. intros [] ?. by split. Qed.
Lemma hole_record st Q c r : hole_ok st Q c → hole_ok (put_callout st c r) Q c.
Proof using.
  intros [H1 H2 H3 H4]. split; try done. intros k Hk. eapply callout_ok_frame; [|..|by apply H2]; try done.
  simpl. by rewrite lookup_insert_ne.
Qed.
Lemma hole_close st Q c r :
  hole_ok st Q c → (c_magic r = CALLOUT_MAGIC → is_Some (cpus st !! c_cpu r)) → pending r = false →
  state_ok (put_callout st c r) Q.
Proof using.
  intros Hh Hm Hp. destruct (hole_record _ _ _ r Hh) as [H1 H2 H3 H4]. split; [done| |done]. intros k.
  destruct (decide (k = c)) as [->|]; [|by apply H2]. unfold callout_ok. simpl. by rewrite lookup_insert_eq, Hp.
Qed.
Lemma hole_callout st c r : callouts st !! c = Some r → put_callout st c r = st.
Proof using. intros Hr. unfold put_callout. rewrite insert_id by done. by destruct st. Qed.

Lemma remove_hole st Q c hd :
  state_ok st Q → head_of (cpus st) hd → c ∈ Q hd →
  ∃ h, CIRCQ_REMOVE (links st) (Elem c) = Ok h ∧ hole_ok (put_links st h) (qset Q hd (filter (λ k, k ≠ c) (Q hd))) c.
Proof using.
  intros Hok Hd Hin. destruct (ring_remove_spec _ _ _ (st_queues _ _ Hok) hd c Hd Hin) as (h&Hr&Hq).
  exists h. split; [done|]. split; [done| |apply Hok|].
  - intros k Hk. eapply callout_ok_frame; [done|done| |apply Hok]. intros hd' _. unfold qset.
    case_decide; [subst; rewrite list_elem_of_filter; tauto|done].
  - intros hd' Hd'. unfold qset. case_decide; [rewrite list_elem_of_filter; tauto|]. intros Hin'.
    assert (hd' = hd) by by eapply (q_uniq _ _ _ (st_queues _ _ Hok)). done.
Qed.
Lemma insert_hole st Q c hd r :
  hole_ok st Q c → callouts st !! c = Some r → head_of (cpus st) hd → pending r = true →
  c_magic r = CALLOUT_MAGIC → c_func r ≠ None → has (c_flags r) CALLOUT_FIRED = false → cpu_of hd = c_cpu r →
  (timed → on_time st hd r) →
  ∃ h, insert_callout st c hd = Ok (put_links st h) ∧ state_ok (put_links st h) (qset Q hd (Q hd ++ [c])).
Proof using.
  intros Hh Hr Hd Hp Hm Hf Hfi Hcpu Ht.
  destruct (ring_insert_spec _ _ _ (ho_queues _ _ _ Hh) hd c Hd (ho_nowhere _ _ _ Hh)) as (h&Hi&Hq).
  exists h. unfold insert_callout. rewrite Hi, Ok_bind. split; [done|]. split; [done| |apply Hh].
  intros k. destruct (decide (k = c)) as [->|Hk].
  - unfold callout_ok. simpl. rewrite Hr, Hp. split.
    + intros _. rewrite <- Hcpu. destruct hd; simpl in *; tauto.
    + split_and!; [done..|]. exists hd. rewrite qset_eq. split_and!; [done|done|set_solver|done].
  - eapply callout_ok_frame; [done|done| |by apply Hh]. intros hd' _. unfold qset.
    case_decide; [subst; rewrite elem_of_app, list_elem_of_singleton; tauto|done].
Qed.

(** ** The operations on one callout *)

Lemma callout_Ok st c r : callouts st !! c = Some r → callout st c = Ok r.
Proof using. unfold callout. by intros ->. Qed.
Lemma cpu_Ok st cpu cc : cpus st !! cpu = Some cc → cpu_callout st cpu = Ok cc.
Proof using. unfold cpu_callout. by intros ->. Qed.
Lemma KASSERT_true {A} (k : unit → res A) b : b = true → (KASSERT b ≫= k) = k ().
Proof using. by intros ->. Qed.

Definition alive (st : kernel) (c : Z) (r : callout_impl) : Prop := callouts st !! c = Some r ∧ c_magic r = CALLOUT_MAGIC.
Lemma alive_cpu st Q c r : state_ok st Q → alive st c r → ∃ cc, cpus st !! c_cpu r = Some cc.
Proof using.
  intros Hok [Hr Hm]. pose proof (st_callout _ _ Hok c) as H. unfold callout_ok in H. rewrite Hr in H. by apply H.
Qed.
Lemma lock_spec st Q c r : state_ok st Q → alive st c r →
  ∃ cc, cpus st !! c_cpu r = Some cc ∧ callout_lock st c = Ok (r, cc).
Proof using.
  intros Hok Ha. destruct (alive_cpu _ _ _ _ Hok Ha) as [cc Hcc]. destruct Ha as [Hr Hm]. exists cc. split; [done|].
  unfold callout_lock. rewrite (callout_Ok _ _ _ Hr), Ok_bind, KASSERT_true by lia. by rewrite (cpu_Ok _ _ _ Hcc).
Qed.

(** A record that keeps the place of the callout. *)
Lemma same_place st Q c r r' : state_ok st Q → alive st c r → c_magic r' = CALLOUT_MAGIC → c_cpu r' = c_cpu r →
  pending r' = pending r → c_func r' ≠ None ∨ c_func r' = c_func r →
  (pending r = true → has (c_flags r') CALLOUT_FIRED = false) →
  (timed → pending r = true → 0 ≤ c_time r' < 2 ^ 31 ∧ c_time r ≤ c_time r') → state_ok (put_callout st c r') Q.
Proof using.
  intros Hok [Hr Hm] Hm' Hc Hp Hf Hfi Ht. apply change_record; [done|]. unfold callout_ok. simpl. rewrite lookup_insert_eq, Hp, Hc.
  pose proof (st_callout _ _ Hok c) as H. unfold callout_ok in H. rewrite Hr in H. destruct H as [H1 H2]. split; [auto|].
  destruct (pending r) eqn:E; [|done]. destruct H2 as (_&Hf0&_&hd&Hd&Hch&Hin&Hot).
  split_and!; [done|by destruct Hf as [?| ->]|auto|]. exists hd. split_and!; [done|by rewrite Hc|done|].
  intros HT. destruct (Ht HT eq_refl). destruct (Hot HT) as [_ Hv]. split; [done|]. destruct hd; try done.
  intros cc Hcc. destruct (Hv cc Hcc) as (v&?&?). exists v. split; [done|lia].
Qed.

Lemma setfunc_ok st Q c r f arg : state_ok st Q → alive st c r →
  callout_setfunc st c (Some f) arg = Ok (put_callout st c (with_func r (Some f) arg)) ∧
  state_ok (put_callout st c (with_func r (Some f) arg)) Q.
Proof using.
  intros Hok Ha. destruct (lock_spec _ _ _ _ Hok Ha) as (cc&Hcc&Hl). split.
  - unfold callout_setfunc. by rewrite KASSERT_true, Hl by done.
  - eapply same_place; [done|done|by apply Ha|done|done|by left| |].
    + intros Hp. by apply (pending_queued _ _ _ _ Hok (proj1 Ha) Hp).
    + intros HT Hp. destruct (pending_queued _ _ _ _ Hok (proj1 Ha) Hp) as (_&_&_&hd&_&_&_&Ht). destruct (Ht HT). simpl. lia.
Qed.
Lemma ack_ok st Q c r : state_ok st Q → alive st c r →
  ∃ r', callout_ack st c = Ok (put_callout st c r') ∧ r' = with_flags r (clear (c_flags r) CALLOUT_INVOKING) ∧ state_ok (put_callout st c r') Q.
Proof using.
  intros Hok Ha. destruct (lock_spec _ _ _ _ Hok Ha) as (cc&Hcc&Hl). eexists. split_and!; [|done|].
  - unfold callout_ack. by rewrite Hl.
  - eapply same_place; [done|done|by apply Ha|done|apply pending_ack|by right| |].
    + intros Hp. simpl. rewrite fired_ack. by apply (pending_queued _ _ _ _ Hok (proj1 Ha) Hp).
    + intros HT Hp. destruct (pending_queued _ _ _ _ Hok (proj1 Ha) Hp) as (_&_&_&hd&_&_&_&Ht). destruct (Ht HT). simpl. lia.
Qed.
Lemma init_callout_ok st Q curcpu c flags :
  state_ok st Q → is_Some (cpus st !! 0) → (∀ r, ¬ alive st c r) → clear flags CALLOUT_FLAGMASK = 0 →
  ∃ r, callout_init st curcpu c flags = Ok (put_callout st c r) ∧ state_ok (put_callout st c r) Q ∧
    c_magic r = CALLOUT_MAGIC ∧ pending r = false.
Proof using.
  intros Hok H0 Hna Hfl. destruct (pending_init flags Hfl) as [Hp1 Hp2].
  assert (Hno : nowhere st Q c).
  { pose proof (st_callout _ _ Hok c) as H. unfold callout_ok in H. destruct (callouts st !! c) as [r|] eqn:Hr; [|done].
    destruct H as [_ H]. destruct (pending r); [|done]. destruct H as [Hm _]. by destruct (Hna r). }
  assert (Hch : ∀ r, (c_magic r = CALLOUT_MAGIC → is_Some (cpus st !! c_cpu r)) → pending r = false → state_ok (put_callout st c r) Q).
  { intros r. apply hole_close. by apply hole_intro. }
  unfold callout_init. rewrite KASSERT_true by lia. cbv zeta. case_bool.
  - eexists. split; [done|]. split; [|done]. apply Hch; [|done]. intros _. simpl.
    apply andb_true_iff in Heqb as [_ Hb]. by apply bool_decide_eq_true in Hb.
  - eexists. split; [done|]. split; [|done]. by apply Hch.
Qed.
Lemma destroy_ok st Q l c r cc : state_ok st Q → alive st c r → pending r = false → cpus st !! c_cpu r = Some cc →
  cc_lwp cc = Some l ∨ cc_active cc ≠ Some c →
  callout_destroy st l c = Ok (put_callout st c (with_magic r 0)) ∧ state_ok (put_callout st c (with_magic r 0)) Q.
Proof using.
  intros Hok [Hr Hm] Hp Hcc Hor. split.
  - unfold callout_destroy. rewrite (callout_Ok _ _ _ Hr), Ok_bind, KASSERT_true by lia. unfold pending in Hp.
    rewrite Hp, KASSERT_true, (cpu_Ok _ _ _ Hcc), Ok_bind by done.
    rewrite KASSERT_true by (apply orb_true_iff; by rewrite !bool_decide_eq_true). done.
  - apply change_record; [done|]. unfold callout_ok. simpl. rewrite lookup_insert_eq.
    change (pending (with_magic r 0)) with (pending r). rewrite Hp. split; [done|]. by apply (not_pending_nowhere _ _ _ _ Hok Hr).
Qed.

Lemma bind_remove {A} st c h (k : kernel → res A) :
  CIRCQ_REMOVE (links st) (Elem c) = Ok h → (remove_callout st c ≫= k) = k (put_links st h).
Proof using. intros Hh. unfold remove_callout. by rewrite Hh. Qed.

(** Not even the deadlines wrap. *)
Definition in_range (st : kernel) (to_ticks : Z) : Prop :=
  timed → ∀ cpu cc, cpus st !! cpu = Some cc → cc_ticks cc + to_ticks < 2 ^ 31.

(** What [callout_schedule_locked] leaves. *)
Record scheduled (st st' : kernel) (c to_ticks : Z) (r r' : callout_impl) : Prop := {
  sc_callouts : callouts st' = <[c := r']> (callouts st);
  sc_cpus : cpus st' = cpus st;
  sc_pending : pending r' = true;
  sc_time : ∃ cc, cpus st !! c_cpu r' = Some cc ∧ c_time r' = s32 (to_ticks + cc_ticks cc);
  sc_bound : has (c_flags r') CALLOUT_BOUND = has (c_flags r) CALLOUT_BOUND;
  sc_stays : has (c_flags r) CALLOUT_BOUND = true → c_cpu r' = c_cpu r;
  sc_func : c_func r' = c_func r ∧ c_arg r' = c_arg r ∧ c_magic r' = c_magic r;
}.

Lemma insert_todo st Q c r cpu cc to_ticks : hole_ok st Q c → callouts st !! c = Some r → cpus st !! cpu = Some cc →
  c_cpu r = cpu → pending r = true → c_magic r = CALLOUT_MAGIC → c_func r ≠ None → has (c_flags r) CALLOUT_FIRED = false →
  c_time r = s32 (to_ticks + cc_ticks cc) → 0 ≤ to_ticks → in_range st to_ticks →
  ∃ h Q', insert_callout st c (Todo cpu) = Ok (put_links st h) ∧ state_ok (put_links st h) Q'.
Proof using.
  intros Hh Hr Hcc Hc Hp Hm Hf Hfi Ht Hto Hin.
  destruct (insert_hole st Q c (Todo cpu) r) as (h&Hi&Hok); try done; [by eexists| |by eexists _, _].
  intros HT. split; [|done]. rewrite Ht. destruct (ho_cpu _ _ _ Hh _ _ Hcc) as [Hu _]. unfold is_u32 in Hu.
  specialize (Hin HT _ _ Hcc). rewrite s32_small; lia.
Qed.

Lemma schedule_ok st Q curcpu tryenter c to_ticks r :
  state_ok st Q → alive st c r → c_func r ≠ None → 0 ≤ to_ticks → is_Some (cpus st !! curcpu) → in_range st to_ticks →
  ∃ st' Q' r', callout_schedule_locked st curcpu tryenter c to_ticks = Ok st' ∧ state_ok st' Q' ∧ scheduled st st' c to_ticks r r'.
Proof using.
  intros Hok Ha Hf Hto [cc Hcc] Hrange. destruct (alive_cpu _ _ _ _ Hok Ha) as [occ Hocc]. destruct Ha as [Hr Hm].
  unfold callout_schedule_locked. rewrite KASSERT_true, (callout_Ok _ _ _ Hr), Ok_bind, KASSERT_true, (cpu_Ok _ _ _ Hocc), Ok_bind
    by (rewrite ?bool_decide_eq_true; lia || done).
  set (r0 := with_flags r (clear (c_flags r) (CALLOUT_FIRED .| CALLOUT_INVOKING))). cbv zeta.
  assert (Hp0 : pending r0 = pending r) by apply pending_clear_fired.
  assert (Hfi0 : has (c_flags r0) CALLOUT_FIRED = false) by apply fired_clear_fired.
  assert (Hb0 : has (c_flags r0) CALLOUT_BOUND = has (c_flags r) CALLOUT_BOUND) by apply bound_clear_fired.
  change (c_cpu r0) with (c_cpu r). change (has (c_flags r0) CALLOUT_PENDING) with (pending r0). rewrite Hp0.
  destruct (pending r) eqn:Hp.
  - set (r1 := with_time r0 (s32 (to_ticks + cc_ticks occ))).
    pose proof (pending_queued _ _ _ _ Hok Hr Hp) as (_&_&_&hd&Hd&Hch&Hin&Hot).
    destruct (s32 (c_time r1 - c_time r0) <? 0) eqn:Hlt.
    + destruct (remove_hole _ _ _ _ Hok Hd Hin) as (h&Hrem&Hh). change (links st) with (links (put_callout st c r1)) in Hrem.
      rewrite (bind_remove _ _ _ _ Hrem). change (c_cpu r1) with (c_cpu r).
      apply (hole_record _ _ _ r1) in Hh.
      destruct (insert_todo _ _ _ r1 (c_cpu r) occ to_ticks Hh) as (h'&Q'&Hi&Hok'); try done; [simpl; apply lookup_insert_eq|].
      exists (put_links (put_callout (put_links st h) c r1) h'), Q', r1. split_and!; [done|done|].
      split; [done|done|by rewrite ?Hp0|by exists occ|done|done|done].
    + exists (put_callout st c r1), Q, r1. split_and!; [done| |split; [done|done|by rewrite ?Hp0|by exists occ|done|done|done]].
      eapply same_place; [done|by split|done|done|by rewrite Hp|by right|done|].
      intros HT _. specialize (Hot HT) as [Ht _]. change (c_time r1) with (s32 (to_ticks + cc_ticks occ)) in *.
      change (c_time r0) with (c_time r) in Hlt. destruct (st_cpu _ _ Hok _ _ Hocc) as [Hu _]. unfold is_u32 in Hu.
      specialize (Hrange HT _ _ Hocc). rewrite (s32_small (to_ticks + cc_ticks occ)) in * by lia. rewrite s32_small in Hlt by lia. lia.
  - assert (Hh : hole_ok st Q c) by (apply hole_intro; [done|]; by eapply not_pending_nowhere).
    rewrite Hb0. destruct (has (c_flags r) CALLOUT_BOUND || (curcpu =? c_cpu r)) eqn:Hstay.
    + rewrite Ok_bind. cbv beta iota zeta. set (r1 := with_flags (with_time r0 _) _).
      destruct (insert_todo (put_callout st c r1) Q c r1 (c_cpu r) occ to_ticks) as (h'&Q'&Hi&Hok'); try done;
        [by apply hole_record|simpl; apply lookup_insert_eq|apply pending_set|simpl; by rewrite fired_set_pending|].
      eexists _, Q', r1. split_and!; [exact Hi|done|]. split; [done|done|apply pending_set|by exists occ|simpl; by rewrite bound_set_pending|done|done].
    + rewrite (cpu_Ok _ _ _ Hcc), !Ok_bind. apply orb_false_iff in Hstay as [Hnb Hne]. destruct tryenter; cbv beta iota zeta.
      * set (r1 := with_flags (with_time _ _) _).
        destruct (insert_todo (put_callout st c r1) Q c r1 curcpu cc to_ticks) as (h'&Q'&Hi&Hok'); try done;
          [by apply hole_record|simpl; apply lookup_insert_eq|apply pending_set|simpl; by rewrite fired_set_pending|].
        eexists _, Q', r1. split_and!; [exact Hi|done|]. split; [done|done|apply pending_set|by exists cc|simpl; by rewrite bound_set_pending|by rewrite Hnb|done].
      * set (r1 := with_flags (with_time r0 _) _).
        destruct (insert_todo (put_callout st c r1) Q c r1 (c_cpu r) occ to_ticks) as (h'&Q'&Hi&Hok'); try done;
          [by apply hole_record|simpl; apply lookup_insert_eq|apply pending_set|simpl; by rewrite fired_set_pending|].
        eexists _, Q', r1. split_and!; [exact Hi|done|]. split; [done|done|apply pending_set|by exists occ|simpl; by rewrite bound_set_pending|done|done].
Qed.

Lemma cancel_ok st Q c r : state_ok st Q → alive st c r →
  ∃ st' Q' r', cancel_callout st c = Ok (st', has (c_flags r) CALLOUT_FIRED) ∧ state_ok st' Q' ∧
    callouts st' = <[c := r']> (callouts st) ∧ cpus st' = cpus st ∧
    r' = with_flags r (clear (c_flags r) (CALLOUT_PENDING .| CALLOUT_FIRED)).
Proof using.
  intros Hok Ha. destruct (lock_spec _ _ _ _ Hok Ha) as (cc&Hcc&Hl). destruct Ha as [Hr Hm].
  unfold cancel_callout. rewrite Hl, Ok_bind. change (has (c_flags r) CALLOUT_PENDING) with (pending r).
  set (r1 := with_flags r _). assert (Hp1 : pending r1 = false) by apply pending_cancel.
  assert (Hcpu : c_magic r1 = CALLOUT_MAGIC → is_Some (cpus st !! c_cpu r1)) by (intros _; by exists cc).
  destruct (pending r) eqn:Hp.
  - pose proof (pending_queued _ _ _ _ Hok Hr Hp) as (_&_&_&hd&Hd&Hch&Hin&_).
    destruct (remove_hole _ _ _ _ Hok Hd Hin) as (h&Hrem&Hh).
    unfold remove_callout. rewrite Hrem, !Ok_bind. eexists _, _, r1. split_and!; [done| |done..]. by eapply hole_close.
  - rewrite Ok_bind. eexists _, Q, r1. split_and!; [done| |done..]. eapply hole_close; [|done..].
    apply hole_intro; [done|]. by eapply not_pending_nowhere.
Qed.
End invariant.
