(* ===== verification/CalloutClock.v ===== *)
(** * Callouts: the clock and the soft interrupt

    A tick moves the buckets that the clock has reached to the work list; the
    soft interrupt goes through the work list, calls what is due and puts the rest
    back into the wheel. *)

From S2P Require Export Prelude Callout CalloutSpec CalloutSys.

(** ** The wheel *)

Lemma MASKWHEEL_mod w t : 0 ≤ w → MASKWHEEL w t = (t / 256 ^ w) mod 256.
Proof.
  intros Hw. unfold MASKWHEEL. change WHEELMASK with (Z.ones 8). rewrite Z.land_ones, Z.shiftr_div_pow2 by (unfold WHEELBITS; lia).
  change WHEELBITS with 8. rewrite (Z.mul_comm w 8), Z.pow_mul_r by lia. done.
Qed.
Lemma MASKWHEEL_bounds w t : 0 ≤ w → 0 ≤ MASKWHEEL w t < WHEELSIZE.
Proof. intros Hw. rewrite MASKWHEEL_mod by done. apply Z.mod_pos_bound. done. Qed.

Ltac wheels := change (256 ^ 0) with 1 in *; change (256 ^ 1) with 256 in *; change (256 ^ 2) with 65536 in *;
  change (256 ^ 3) with 16777216 in *; change (256 ^ (0 + 1)) with 256 in *; change (256 ^ (1 + 1)) with 65536 in *;
  change (256 ^ (2 + 1)) with 16777216 in *; change (256 ^ (3 + 1)) with 4294967296 in *; change WHEELSIZE with 256 in *.

(** The bucket of a callout that is not due. *)
Definition bucket_of (rel abs : Z) : Z := match BUCKET 0 rel abs with Wheel _ b => b | _ => 0 end.
Lemma BUCKET_of cc rel abs : BUCKET cc rel abs = Wheel cc (bucket_of rel abs).
Proof. done. Qed.
Lemma bucket_of_cases rel abs : ∃ w, 0 ≤ w ≤ 3 ∧ bucket_of rel abs = MASKWHEEL w abs + w * WHEELSIZE ∧
  (rel ≤ 256 ^ (w + 1) ∨ w = 3) ∧ (256 ^ w < rel ∨ w = 0).
Proof.
  unfold bucket_of, BUCKET. change (Z.shiftl 1 (2 * WHEELBITS)) with 65536. change (Z.shiftl 1 WHEELBITS) with 256.
  change (Z.shiftl 1 (3 * WHEELBITS)) with 16777216.
  destruct (Z.leb_spec rel 65536); [destruct (Z.leb_spec rel 256)|destruct (Z.leb_spec rel 16777216)];
    [exists 0|exists 1|exists 2|exists 3]; wheels; split_and!; lia || done.
Qed.
Lemma bucket_bounds rel abs : 0 ≤ bucket_of rel abs < BUCKETS.
Proof.
  destruct (bucket_of_cases rel abs) as (w&Hw&->&_). pose proof (MASKWHEEL_bounds w abs ltac:(lia)).
  unfold BUCKETS, WHEELSIZE in *. lia.
Qed.
Lemma bucket_visit t T : 0 ≤ t < T → T < 2 ^ 31 → ∃ v, visit (bucket_of (T - t) T) t v ∧ v ≤ T.
Proof.
  intros Ht HT. destruct (bucket_of_cases (T - t) T) as (w&Hw&->&Hhi&Hlo).
  exists (256 ^ w * (T / 256 ^ w)). assert (Hp : 0 < 256 ^ w) by (apply Z.pow_pos_nonneg; lia).
  pose proof (Z.mul_div_le T _ Hp) as Hle. split; [|done].
  exists w, (MASKWHEEL w T). split_and!; [lia|lia|done|by apply MASKWHEEL_bounds; lia|by apply MASKWHEEL_bounds; lia| | | |].
  - rewrite Z.mul_comm. apply Z.mod_mul. lia.
  - rewrite (Z.mul_comm (256 ^ w)), Z.div_mul, MASKWHEEL_mod by lia. done.
  - pose proof (Z.mul_succ_div_gt T _ Hp). destruct Hlo as [Hlo| ->]; [lia|]. wheels. lia.
  - destruct Hhi as [?| ->]; [lia|]. wheels. lia.
Qed.

(** At the tick at which it is visited a bucket is moved. *)
Definition reached (w t : Z) : Prop := ∀ w', 0 ≤ w' < w → MASKWHEEL w' t = 0.
Lemma visit_reached b t v : visit b t v → ∃ w, 0 ≤ w ≤ 3 ∧ b = MASKWHEEL w v + w * WHEELSIZE ∧ reached w v.
Proof.
  intros (w&i&Hw&->&Hi&Hv&Hm&_). exists w. split; [done|]. split; [by rewrite MASKWHEEL_mod, Hm by lia|].
  intros w' Hw'. rewrite MASKWHEEL_mod by lia. assert (Hp : 0 < 256 ^ w') by (apply Z.pow_pos_nonneg; lia).
  apply Z.mod_divide in Hv as [k ->]; [|pose proof (Z.pow_pos_nonneg 256 w); lia].
  replace w with ((w - w' - 1) + 1 + w') by lia. rewrite !Z.pow_add_r by lia. change (256 ^ 1) with 256.
  replace (k * (256 ^ (w - w' - 1) * 256 * 256 ^ w')) with (k * 256 ^ (w - w' - 1) * 256 * 256 ^ w') by ring.
  rewrite Z.div_mul by lia. apply Z.mod_mul. done.
Qed.
Lemma visit_tick b t v : visit b t v → v ≠ t + 1 → visit b (t + 1) v.
Proof. intros (w&i&?&?&?&?&?&?) Hne. exists w, i. split_and!; lia. Qed.

(** ** A tick *)

Section clock.
Variable timed : Prop.
Implicit Types (D : node → Prop) (Q : node → list Z).

(** Queues of processor [cpu] that spill to its work list. *)
Record spill D (cpu : Z) Q Q' : Prop := {
  sp_stay c hd : D hd → c ∈ Q hd → c ∈ Q' hd ∨ (cpu_of hd = cpu ∧ c ∈ Q' (Todo cpu));
  sp_from c hd : D hd → c ∈ Q' hd → ∃ hd0, D hd0 ∧ cpu_of hd0 = cpu_of hd ∧ c ∈ Q hd0;
  sp_wheel c k b : c ∈ Q' (Wheel k b) → c ∈ Q (Wheel k b);
}.
Lemma spill_refl D cpu Q : spill D cpu Q Q.
Proof using. split; eauto. Qed.
Lemma spill_trans D cpu Q Q' Q'' : D (Todo cpu) → spill D cpu Q Q' → spill D cpu Q' Q'' → spill D cpu Q Q''.
Proof using.
  intros Hd [A1 A2 A3] [B1 B2 B3]. split; [| |eauto].
  - intros c hd Hh Hc. destruct (A1 _ _ Hh Hc) as [Hc'|[He Hc']].
    + destruct (B1 _ _ Hh Hc') as [?|[? ?]]; auto.
    + destruct (B1 _ _ Hd Hc') as [?|[? ?]]; auto.
  - intros c hd Hh Hc. destruct (B2 _ _ Hh Hc) as (hd1&H1&E1&Hc1). destruct (A2 _ _ H1 Hc1) as (hd0&H0&E0&Hc0).
    exists hd0. split_and!; [done|congruence|done].
Qed.

Lemma move_spec h D Q cpu w t : queues_ok h D Q → D (Todo cpu) → D (Wheel cpu (MASKWHEEL w t + w * WHEELSIZE)) →
  ∃ h' Q', MOVEBUCKET h cpu w t = Ok h' ∧ queues_ok h' D Q' ∧ spill D cpu Q Q' ∧ Q' (Wheel cpu (MASKWHEEL w t + w * WHEELSIZE)) = [].
Proof using.
  intros Hok Ht Hw. set (s := Wheel cpu (MASKWHEEL w t + w * WHEELSIZE)) in *.
  destruct (ring_append_spec h D Q Hok (Todo cpu) s Ht Hw) as (h'&Ha&Hok'); [done|].
  exists h', (qset (qset Q (Todo cpu) (Q (Todo cpu) ++ Q s)) s []). split; [exact Ha|]. split; [done|].
  split; [|apply qset_eq]. split.
  - intros c hd Hd Hc. unfold qset. destruct (decide (hd = s)) as [->|]; [right|left; rewrite ?decide_False by done].
    + split; [done|]. rewrite decide_False by done. rewrite decide_True by done. set_solver.
    + case_decide; subst; set_solver.
  - intros c hd Hd. unfold qset. case_decide as E1; [set_solver|]. case_decide as E2; [|eauto].
    subst. intros [?|?]%elem_of_app; [by exists (Todo cpu)|by exists s].
  - intros c k b. unfold qset. case_decide; [set_solver|]. by case_decide.
Qed.

(** What a tick does to the queues: each bucket that the clock has reached is
    empty. *)
Lemma tick_queues h D Q cpu t : queues_ok h D Q → D (Todo cpu) → (∀ b, 0 ≤ b < BUCKETS → D (Wheel cpu b)) →
  ∃ h' Q', (h ← MOVEBUCKET h cpu 0 t;
    if MASKWHEEL 0 t =? 0 then
      h ← MOVEBUCKET h cpu 1 t;
      if MASKWHEEL 1 t =? 0 then
        h ← MOVEBUCKET h cpu 2 t;
        if MASKWHEEL 2 t =? 0 then MOVEBUCKET h cpu 3 t else mret h
      else mret h
    else mret h) = Ok h' ∧ queues_ok h' D Q' ∧ spill D cpu Q Q' ∧
    ∀ w, 0 ≤ w ≤ 3 → reached w t → Q' (Wheel cpu (MASKWHEEL w t + w * WHEELSIZE)) = [].
Proof using.
  intros Hok Ht Hw.
  assert (Hwd : ∀ w, 0 ≤ w ≤ 3 → D (Wheel cpu (MASKWHEEL w t + w * WHEELSIZE))).
  { intros w Hw'. apply Hw. pose proof (MASKWHEEL_bounds w t ltac:(lia)). unfold BUCKETS, WHEELSIZE in *. lia. }
  assert (Hkeep : ∀ Q Q' b, spill D cpu Q Q' → Q (Wheel cpu b) = [] → Q' (Wheel cpu b) = []).
  { intros Q1 Q2 b Hs E. apply elem_of_nil_inv. intros c Hc%(sp_wheel _ _ _ _ Hs). rewrite E in Hc. set_solver. }
  destruct (move_spec h D Q cpu 0 t Hok Ht (Hwd 0 ltac:(lia))) as (h0&Q0&->&Hok0&Hs0&He0). rewrite Ok_bind.
  destruct (Z.eqb_spec (MASKWHEEL 0 t) 0) as [E0|E0].
  2: { exists h0, Q0. split_and!; try done. intros w Hw' Hr. destruct (decide (w = 0)) as [->|]; [done|]. by destruct E0; apply Hr; lia. }
  destruct (move_spec h0 D Q0 cpu 1 t Hok0 Ht (Hwd 1 ltac:(lia))) as (h1&Q1&->&Hok1&Hs1&He1). rewrite Ok_bind.
  pose proof (spill_trans _ _ _ _ _ Ht Hs0 Hs1) as Hs01. pose proof (Hkeep _ _ _ Hs1 He0) as He01.
  destruct (Z.eqb_spec (MASKWHEEL 1 t) 0) as [E1|E1].
  2: { exists h1, Q1. split_and!; try done. intros w Hw' Hr. destruct (decide (w = 0)) as [->|]; [done|].
       destruct (decide (w = 1)) as [->|]; [done|]. by destruct E1; apply Hr; lia. }
  destruct (move_spec h1 D Q1 cpu 2 t Hok1 Ht (Hwd 2 ltac:(lia))) as (h2&Q2&->&Hok2&Hs2&He2). rewrite Ok_bind.
  pose proof (spill_trans _ _ _ _ _ Ht Hs01 Hs2) as Hs02. pose proof (Hkeep _ _ _ Hs2 He01) as He02.
  pose proof (Hkeep _ _ _ Hs2 He1) as He12.
  destruct (Z.eqb_spec (MASKWHEEL 2 t) 0) as [E2|E2].
  2: { exists h2, Q2. split_and!; try done. intros w Hw' Hr. destruct (decide (w = 0)) as [->|]; [done|].
       destruct (decide (w = 1)) as [->|]; [done|]. destruct (decide (w = 2)) as [->|]; [done|]. by destruct E2; apply Hr; lia. }
  destruct (move_spec h2 D Q2 cpu 3 t Hok2 Ht (Hwd 3 ltac:(lia))) as (h3&Q3&->&Hok3&Hs3&He3).
  exists h3, Q3. split_and!; [done|done|by eapply spill_trans|]. intros w Hw' _.
  assert (w = 0 ∨ w = 1 ∨ w = 2 ∨ w = 3) as [->|[->|[->| ->]]] by lia; [by eapply Hkeep..|done].
Qed.

Lemma insert_some {V} (cs : gmap Z V) cpu cc k : is_Some (cs !! cpu) → is_Some (<[cpu := cc]> cs !! k) ↔ is_Some (cs !! k).
Proof using.
  intros Hs. destruct (decide (k = cpu)) as [->|]; [rewrite lookup_insert_eq; split; [done|by eexists]|by rewrite lookup_insert_ne].
Qed.
Lemma head_of_insert cs cpu cc hd : is_Some (cs !! cpu) → head_of (<[cpu := cc]> cs) hd ↔ head_of cs hd.
Proof using. intros Hs. destruct hd; simpl; by rewrite ?(insert_some _ _ _ _ Hs). Qed.
Lemma queues_heads h D D' Q : (∀ hd, D' hd ↔ D hd) → queues_ok h D Q → queues_ok h D' Q.
Proof using. intros HD [H1 H2 H3 H4]. split; setoid_rewrite HD; done. Qed.

Lemma hardclock_ok st Q cpu cc : state_ok timed st Q → cpus st !! cpu = Some cc → in_range timed st 1 →
  ∃ st' Q' b, callout_hardclock st cpu = Ok (st', b) ∧ state_ok timed st' Q' ∧ callouts st' = callouts st ∧
    cpus st' = <[cpu := with_ticks cc (u32 (cc_ticks cc + 1))]> (cpus st) ∧
    b = match Q' (Todo cpu) with [] => false | _ => true end.
Proof using.
  intros Hok Hcc Hrange. set (cc' := with_ticks cc (u32 (cc_ticks cc + 1))). set (t := s32 (cc_ticks cc')).
  assert (Hs : is_Some (cpus st !! cpu)) by by eexists.
  destruct (st_cpu _ _ _ Hok _ _ Hcc) as (Hu&Htk&Hn&Hsl&Hac). unfold is_u32 in Hu.
  assert (Ht : timed → cc_ticks cc + 1 < 2 ^ 31 ∧ cc_ticks cc' = cc_ticks cc + 1 ∧ t = cc_ticks cc + 1).
  { intros HT. specialize (Hrange HT _ _ Hcc). unfold t, cc'. simpl. rewrite u32_small by (unfold is_u32; lia).
    rewrite s32_small by lia. done. }
  destruct (tick_queues (links st) (head_of (cpus st)) Q cpu t) as (h'&Q'&Hq&Hqok&Hsp&He);
    [apply Hok|done|done|].
  exists (put_links (put_cpu st cpu cc') h'), Q', (match Q' (Todo cpu) with [] => false | _ => true end).
  assert (Hqok' : queues_ok h' (head_of (<[cpu := cc']> (cpus st))) Q').
  { eapply queues_heads; [|done]. intros hd. by apply head_of_insert. }
  split_and!; try done.
  - unfold callout_hardclock. rewrite (cpu_Ok _ _ _ Hcc), Ok_bind. fold cc'. cbv zeta. fold t.
    revert Hq. change (links (put_cpu st cpu cc')) with (links st).
    destruct (MOVEBUCKET (links st) cpu 0 t) as [h0|]; [|done]. rewrite !Ok_bind. intros Hq. rewrite Hq, Ok_bind.
    rewrite (empty_spec _ _ _ Hqok' (Todo cpu)), Ok_bind by (simpl; by rewrite lookup_insert_eq). by destruct (Q' (Todo cpu)).
  - split; [done| |].
    + intros k. pose proof (st_callout _ _ _ Hok k) as Hk. unfold callout_ok in *. simpl.
      assert (Hno : nowhere st Q k → nowhere (put_links (put_cpu st cpu cc') h') Q' k).
      { intros Hn0 hd Hd%head_of_insert Hin; [|done]. destruct (sp_from _ _ _ _ Hsp _ _ Hd Hin) as (hd0&Hd0&_&Hin0). by apply (Hn0 hd0). }
      destruct (callouts st !! k) as [r|]; [|auto]. destruct Hk as [H1 H2]. split; [intros Hm; by apply insert_some, H1|].
      destruct (pending r); [|auto]. destruct H2 as (Hm&Hf&Hfi&hd&Hd&Hc&Hin&Hot). split_and!; [done..|].
      destruct (sp_stay _ _ _ _ Hsp _ _ Hd Hin) as [Hin'|[Hcpu Hin']].
      * exists hd. split_and!; [by apply head_of_insert|done|done|]. intros HT. destruct (Hot HT) as [Hr Hv]. split; [done|].
        destruct hd as [| |k' b]; try done. simpl. intros ck. destruct (decide (k' = cpu)) as [->|Hne].
        -- rewrite lookup_insert_eq. intros [= <-]. destruct (Hv _ Hcc) as (v&Hvis&Hle). destruct (Ht HT) as (_&Et&Et').
           exists v. split; [|done]. rewrite Et. apply visit_tick; [done|]. intros ->.
           destruct (visit_reached _ _ _ Hvis) as (w&Hw&Eb&Hre). rewrite <- Et' in Eb, Hre. rewrite Eb, (He w Hw Hre) in Hin'.
           by apply elem_of_nil in Hin'.
        -- rewrite lookup_insert_ne by done. apply Hv.
      * exists (Todo cpu). split_and!; [by apply head_of_insert|simpl; congruence|done|]. intros HT. by destruct (Hot HT).
    + intros k ck. simpl. destruct (decide (k = cpu)) as [->|].
      * rewrite lookup_insert_eq. intros [= <-]. split; [apply u32_bounds|]. split_and!; try done.
        intros HT. destruct (Ht HT) as (?&->&?). done.
      * rewrite lookup_insert_ne by done. apply Hok.
Qed.

(** ** The soft interrupt *)

Lemma todo_size st Q cpu : state_ok timed st Q → is_Some (cpus st !! cpu) → (length (Q (Todo cpu)) ≤ size (callouts st))%nat.
Proof using.
  intros Hok Hs. assert (Hsub : list_to_set (Q (Todo cpu)) ⊆@{gset Z} dom (callouts st)).
  { intros c Hc%elem_of_list_to_set. apply elem_of_dom. destruct (on_queue _ _ _ _ _ Hok (Hs : head_of _ (Todo cpu)) Hc) as [r ->]. by eexists. }
  apply subseteq_size in Hsub. rewrite size_list_to_set, size_dom in Hsub; [done|]. by apply (q_nodup _ _ _ (st_queues _ _ _ Hok)).
Qed.

(** How the loop ends: the work list is empty, or a callout is due. *)
Definition fired (r : callout_impl) : callout_impl :=
  with_flags r (clear (c_flags r) CALLOUT_PENDING .| (CALLOUT_FIRED .| CALLOUT_INVOKING)).
Definition loop_end (st st' : kernel) Q' (cpu : Z) (cc : callout_cpu) (f : option (Z * Z * Z)) : Prop :=
  match f with
  | None => Q' (Todo cpu) = [] ∧ callouts st' = callouts st ∧ cpus st' = <[cpu := with_lwp cc None]> (cpus st)
  | Some (c, func, arg) => ∃ r, callouts st !! c = Some r ∧ pending r = true ∧ c_magic r = CALLOUT_MAGIC ∧ c_cpu r = cpu ∧
      c_func r = Some func ∧ c_arg r = arg ∧ c_time r ≤ s32 (cc_ticks cc) ∧
      callouts st' = <[c := fired r]> (callouts st) ∧ cpus st' = <[cpu := with_active cc (Some c)]> (cpus st)
  end.

Lemma soft_loop_ok cpu cc l : cc_lwp cc = Some l → cc_active cc = None → ∀ fuel st Q,
  state_ok timed st Q → cpus st !! cpu = Some cc → (length (Q (Todo cpu)) < fuel)%nat →
  ∃ st' Q' f, softclock_loop fuel st cpu = Ok (st', f) ∧ state_ok timed st' Q' ∧ loop_end st st' Q' cpu cc f.
Proof using.
  intros Hl Ha. induction fuel as [|fuel IH]; intros st Q Hok Hcc Hfuel; [lia|]. cbn [softclock_loop].
  assert (Hd : head_of (cpus st) (Todo cpu)) by by eexists.
  pose proof (st_cpu _ _ _ Hok _ _ Hcc) as (Hu&Htk&Hn&Hsl&Hac). unfold is_u32 in Hu.
  rewrite (empty_spec _ _ _ (st_queues _ _ _ Hok) _ Hd), Ok_bind. destruct (Q (Todo cpu)) as [|c q] eqn:EQ.
  { rewrite (cpu_Ok _ _ _ Hcc), Ok_bind. exists (put_cpu st cpu (with_lwp cc None)), Q, None. split_and!; [done| |done..].
    eapply change_cpu; [done|done|done|]. split_and!; simpl; try done. }
  rewrite (first_spec _ _ _ (st_queues _ _ _ Hok) _ c q Hd EQ), Ok_bind.
  assert (Hin : c ∈ Q (Todo cpu)) by (rewrite EQ; by left).
  destruct (on_queue _ _ _ _ _ Hok Hd Hin) as [r Hr]. rewrite (callout_Ok _ _ _ Hr), Ok_bind.
  destruct (queued_at _ _ _ _ _ _ Hok Hr Hd Hin) as (Hp&(Hm&Hf&Hfi&_)&Hc&Hot). simpl in Hc.
  destruct (c_func r) as [func|] eqn:Efunc; [|done].
  rewrite KASSERT_true, Ok_bind, KASSERT_true by lia. unfold pending in Hp. rewrite Hp, Hfi. rewrite !KASSERT_true by done.
  destruct (remove_hole _ _ _ _ _ Hok Hd Hin) as (h&Hrem&Hh). rewrite (bind_remove _ _ _ _ Hrem).
  rewrite (cpu_Ok (put_links st h) cpu cc Hcc), Ok_bind. cbv zeta.
  assert (Hnd : NoDup (c :: q)) by (rewrite <- EQ; by apply (q_nodup _ _ _ (st_queues _ _ _ Hok))).
  assert (Etail : filter (λ k, k ≠ c) (Q (Todo cpu)) = q).
  { rewrite EQ, filter_cons, decide_False by tauto. apply filter_ne_notin. by apply NoDup_cons in Hnd as [? _]. }
  destruct (Z.ltb_spec (s32 (cc_ticks cc)) (c_time r)) as [Hlt|Hge].
  - rewrite BUCKET_of. set (b := bucket_of _ _). pose proof (bucket_bounds (s32 (c_time r - s32 (cc_ticks cc))) (c_time r)) as Hb. fold b in Hb.
    destruct (insert_hole _ _ _ c (Wheel cpu b) r Hh Hr) as (h2&Hi&Hok2); try done; [by rewrite Efunc| |].
    { intros HT. destruct (Hot HT) as [Hrng _]. split; [done|]. simpl. rewrite Hcc. intros ? [= <-].
      specialize (Htk HT). unfold b. rewrite (s32_small (cc_ticks cc)) in * by lia. rewrite s32_small by lia. apply bucket_visit; lia. }
    rewrite Hi, Ok_bind. destruct (IH _ _ Hok2 Hcc) as (st'&Q'&f&Hrun&Hok'&Hend).
    { unfold qset. rewrite decide_False, decide_True, Etail by done. simpl in Hfuel. lia. }
    exists st', Q', f. split_and!; [done..|]. unfold loop_end in *. by destruct f as [[[c' f'] a']|].
  - eexists _, _, (Some (c, func, c_arg r)). split_and!; [done| |by exists r].
    assert (Hok3 : state_ok timed (put_callout (put_links st h) c (fired r)) (qset Q (Todo cpu) (filter (λ k, k ≠ c) (Q (Todo cpu))))).
    { eapply hole_close; [done| |apply pending_fire]. intros _. simpl. rewrite <- Hc. by eexists. }
    eapply change_cpu; [exact Hok3|done|done|]. split_and!; simpl; try done. by rewrite Hl.
Qed.

Lemma soft_run_ok cpu cc l st Q : cc_lwp cc = Some l → cc_active cc = None → state_ok timed st Q → cpus st !! cpu = Some cc →
  ∃ st' Q' f, softclock_run st cpu = Ok (st', f) ∧ state_ok timed st' Q' ∧ loop_end st st' Q' cpu cc f.
Proof using.
  intros Hl Ha Hok Hcc. eapply soft_loop_ok; [done..|]. pose proof (todo_size _ _ cpu Hok ltac:(by eexists)). lia.
Qed.
End clock.
