(* ===== verification/CalloutRun.v ===== *)
(** * Callouts: every run of the machine

    No operation that the callers may do goes wrong, the functions are called
    when they are due, and [callout_halt] waits for them. *)

From S2P Require Export Prelude Callout CalloutSpec CalloutSys CalloutClock.

(** ** A new processor *)

Lemma init_next ns : ∀ h n, cq_next (foldl CIRCQ_INIT h ns) !! n = if decide (n ∈ ns) then Some n else cq_next h !! n.
Proof.
  induction ns as [|m ns IH]; intros h n; cbn [foldl]; [done|]. rewrite IH. simpl.
  destruct (decide (n = m)) as [->|Hne].
  - rewrite lookup_insert_eq, (decide_True (P := m ∈ m :: ns)) by by left. by case_decide.
  - rewrite lookup_insert_ne by done. destruct (decide (n ∈ ns)); [rewrite decide_True by by right|rewrite decide_False]; [done..|].
    intros [?|?]%elem_of_cons; done.
Qed.
Lemma init_prev ns : ∀ h n, cq_prev (foldl CIRCQ_INIT h ns) !! n = if decide (n ∈ ns) then Some n else cq_prev h !! n.
Proof.
  induction ns as [|m ns IH]; intros h n; cbn [foldl]; [done|]. rewrite IH. simpl.
  destruct (decide (n = m)) as [->|Hne].
  - rewrite lookup_insert_eq, (decide_True (P := m ∈ m :: ns)) by by left. by case_decide.
  - rewrite lookup_insert_ne by done. destruct (decide (n ∈ ns)); [rewrite decide_True by by right|rewrite decide_False]; [done..|].
    intros [?|?]%elem_of_cons; done.
Qed.

Definition heads (ci : Z) : list node := Todo ci :: (Wheel ci <$> buckets).
Lemma init_queues_heads h ci : init_queues h ci = foldl CIRCQ_INIT h (heads ci).
Proof. done. Qed.
Lemma elem_heads ci n : n ∈ heads ci ↔ n = Todo ci ∨ ∃ b, n = Wheel ci b ∧ 0 ≤ b < BUCKETS.
Proof.
  unfold heads, buckets. rewrite elem_of_cons, list_elem_of_fmap. setoid_rewrite list_elem_of_fmap. setoid_rewrite elem_of_seq.
  split; (intros [?|H]; [by left|right]).
  - destruct H as (b&->&k&->&Hk). exists (Z.of_nat k). split; [done|]. lia.
  - destruct H as (b&->&Hb). exists b. split; [done|]. exists (Z.to_nat b). lia.
Qed.

Definition new_queues (Q : node → list Z) (ci : Z) : node → list Z := λ n, if decide (cpu_of n = ci) then [] else Q n.

Section init.
Variable timed : Prop.

Lemma init_queues_ok h Q cs ci cc : queues_ok h (head_of cs) Q → cs !! ci = None →
  queues_ok (init_queues h ci) (head_of (<[ci := cc]> cs)) (new_queues Q ci).
Proof using.
  intros Hok Hci. rewrite init_queues_heads.
  assert (Hhd : ∀ hd, head_of (<[ci := cc]> cs) hd → (cpu_of hd = ci ∧ hd ∈ heads ci) ∨ (cpu_of hd ≠ ci ∧ head_of cs hd)).
  { intros hd Hd. destruct (decide (cpu_of hd = ci)) as [E|E].
    - left. split; [done|]. apply elem_heads. destruct hd; simpl in *; subst; [done|by left|right]. exists b. tauto.
    - right. split; [done|]. destruct hd; simpl in *; rewrite ?lookup_insert_ne in Hd by done; done. }
  assert (Hnot : ∀ hd, is_head hd → cpu_of hd ≠ ci → hd ∉ heads ci).
  { intros hd Hh Hne Hin%elem_heads. destruct Hin as [->|(b&->&_)]; done. }
  split.
  - intros hd Hd. unfold new_queues. destruct (Hhd _ Hd) as [[E Hin]|[E Hd0]].
    + rewrite decide_True by done. split; [rewrite init_next|rewrite init_prev]; by rewrite decide_True.
    + rewrite decide_False by done. pose proof (q_head _ _ _ Hok _ Hd0) as Hh.
      eapply (path_untouched _ _ (λ n, n ∈ heads ci)); [by apply Hok| |by apply Hnot|by apply Hnot|].
      * intros n Hn. by rewrite init_next, init_prev, !decide_False.
      * intros x _ Hin%elem_heads. destruct Hin as [?|(b&?&_)]; done.
  - intros hd Hd. destruct hd; done.
  - intros hd Hd. unfold new_queues. case_decide; [constructor|]. destruct (Hhd _ Hd) as [[? _]|[_ Hd0]]; [done|by apply Hok].
  - intros hd1 hd2 c H1 H2. unfold new_queues. repeat case_decide; try (by intros ?%elem_of_nil); try (by intros ? ?%elem_of_nil).
    destruct (Hhd _ H1) as [[? _]|[_ Hd1]]; [done|]. destruct (Hhd _ H2) as [[? _]|[_ Hd2]]; [done|]. by apply (q_uniq _ _ _ Hok).
Qed.

Lemma zeroed_ok : cpu_ok timed zeroed.
Proof using. split_and!; done. Qed.

Lemma init_cpu_ok st Q ci : state_ok timed st Q → cpus st !! ci = None →
  ∃ h, callout_init_cpu st ci true = Ok (Kernel h (callouts st) (<[ci := zeroed]> (cpus st))) ∧
    state_ok timed (Kernel h (callouts st) (<[ci := zeroed]> (cpus st))) (new_queues Q ci).
Proof using.
  intros Hok Hci. exists (init_queues (links st) ci). split.
  - unfold callout_init_cpu. rewrite Hci, Ok_bind. unfold cpu_callout. simpl. rewrite lookup_insert_eq, Ok_bind.
    unfold put_cpu. simpl. by rewrite insert_insert_eq.
  - assert (Hmono : ∀ k, is_Some (cpus st !! k) → k ≠ ci ∧ is_Some (<[ci := zeroed]> (cpus st) !! k)).
    { intros k Hk. destruct (decide (k = ci)) as [->|Hne]; [rewrite Hci in Hk; by destruct Hk|]. by rewrite lookup_insert_ne. }
    assert (Hhd : ∀ hd, head_of (cpus st) hd → cpu_of hd ≠ ci ∧ head_of (<[ci := zeroed]> (cpus st)) hd).
    { intros hd Hd. destruct hd; simpl in *; [done|by apply Hmono|]. destruct Hd as [Hd Hb]. by apply Hmono in Hd as [??]. }
    split; simpl.
    + by apply init_queues_ok; [apply Hok|].
    + intros k. pose proof (st_callout _ _ _ Hok k) as Hk. unfold callout_ok in *. simpl.
      assert (Hno : nowhere st Q k → nowhere (Kernel (init_queues (links st) ci) (callouts st) (<[ci := zeroed]> (cpus st))) (new_queues Q ci) k).
      { intros Hn hd Hd. unfold new_queues. simpl in Hd. case_decide as E; [by intros ?%elem_of_nil|]. apply Hn.
        destruct hd; simpl in *; rewrite ?lookup_insert_ne in Hd by done; done. }
      destruct (callouts st !! k) as [r|]; [|auto]. destruct Hk as [H1 H2]. split; [intros Hm; by apply Hmono, H1|].
      destruct (pending r); [|auto]. destruct H2 as (?&?&?&hd&Hd&?&?&Hot). destruct (Hhd _ Hd) as [Hne Hd']. split_and!; [done..|].
      exists hd. unfold new_queues. rewrite decide_False by done. split_and!; [done..|]. intros HT. destruct (Hot HT) as [? Hv].
      split; [done|]. destruct hd; try done. simpl in *. by rewrite lookup_insert_ne.
    + intros k cc. destruct (decide (k = ci)) as [->|]; [rewrite lookup_insert_eq; intros [= <-]; apply zeroed_ok|].
      rewrite lookup_insert_ne by done. apply Hok.
Qed.

Lemma startup_ok : state_ok timed callout_startup (λ _, []).
Proof using.
  assert (H : queues_ok (Links ∅ ∅) (head_of ∅) (λ _, [])).
  { assert (Hno : ∀ hd, ¬ head_of ∅ hd).
    { intros [c|cpu|cpu b]; simpl; [by intros []|intros [? E]; by rewrite lookup_empty in E|intros [[? E] _]; by rewrite lookup_empty in E]. }
    split; intros hd; [intros []%Hno..|]. intros hd2 c []%Hno. }
  apply (init_queues_ok _ _ _ 0 zeroed) in H; [|done]. split.
  - destruct H as [H1 H2 H3 H4]. unfold callout_startup. simpl. rewrite <- insert_empty. split.
    + intros hd Hd. specialize (H1 hd Hd). unfold new_queues in H1. by case_decide.
    + done.
    + intros; constructor.
    + intros ? ? ? ? ? ?%elem_of_nil. done.
  - intros c. unfold callout_ok. change (callouts callout_startup) with (∅ : gmap Z callout_impl). rewrite lookup_empty.
    intros hd Hd. apply not_elem_of_nil.
  - intros k cc Hk. change (({[0 := zeroed]} : gmap Z callout_cpu) !! k = Some cc) in Hk.
    apply lookup_singleton_Some in Hk as [_ <-]. apply zeroed_ok.
Qed.
End init.

(** ** The invariant of the machine *)

Section machine.
Variable timed : Prop.

Record mach_ok (s : machine) (Q : node → list Z) : Prop := {
  m_state : state_ok timed (kern s) Q;
  m_boot : is_Some (cpus (kern s) !! 0);
  m_sleep l cpu : (∃ c, halts s !! l = Some (HAsleep c cpu)) ↔ ∃ cc, cpus (kern s) !! cpu = Some cc ∧ l ∈ cc_sleepq cc;
  m_bound cpu c r : running s cpu c → callouts (kern s) !! c = Some r → has (c_flags r) CALLOUT_BOUND = true → c_cpu r = cpu;
}.

(** What the soft interrupt and the clock answer, and what scheduling does. *)
Definition fire_post (s : machine) (Q' : node → list Z) (cpu : Z) (f : option (Z * Z * Z)) : Prop :=
  match f with
  | None => Q' (Todo cpu) = []
  | Some (c, func, arg) => ∃ r cc, callouts (kern s) !! c = Some r ∧ pending r = true ∧ c_cpu r = cpu ∧
      c_func r = Some func ∧ c_arg r = arg ∧ cpus (kern s) !! cpu = Some cc ∧ c_time r ≤ s32 (cc_ticks cc)
  end.
Definition op_post (s : machine) (o : op) (s' : machine) (a : answer) (Q' : node → list Z) : Prop :=
  match o, a with
  | HardClock cpu, ABool b => b = match Q' (Todo cpu) with [] => false | _ => true end
  | SoftEnter cpu _, AFire f | SoftNext cpu, AFire f => fire_post s Q' cpu f
  | Reset _ _ c t _ _, _ | Schedule _ _ c t, _ => ∃ r' cc, callouts (kern s') !! c = Some r' ∧ pending r' = true ∧
      cpus (kern s') = cpus (kern s) ∧ cpus (kern s) !! c_cpu r' = Some cc ∧ c_time r' = s32 (t + cc_ticks cc)
  | _, _ => True
  end.

Lemma same_cpus s st Q Q' hs :
  mach_ok s Q → state_ok timed st Q' → cpus st = cpus (kern s) →
  (∀ l cpu, (∃ c, hs !! l = Some (HAsleep c cpu)) ↔ ∃ c, halts s !! l = Some (HAsleep c cpu)) →
  (∀ c r', callouts st !! c = Some r' → (∀ cpu, ¬ running s cpu c) ∨
     ∃ r, callouts (kern s) !! c = Some r ∧ (has (c_flags r') CALLOUT_BOUND = true → has (c_flags r) CALLOUT_BOUND = true ∧ c_cpu r' = c_cpu r)) →
  mach_ok (Machine st hs) Q'.
Proof using.
  intros [H1 H2 H3 H4] Hok Hc Hh Hr. split; simpl; [done|by rewrite Hc|intros; by rewrite Hc, Hh|].
  intros cpu c r' Hrun Hr' Hb. assert (Hrun' : running s cpu c) by (unfold running in *; simpl in Hrun; by rewrite Hc in Hrun).
  destruct (Hr _ _ Hr') as [Hno|(r&Hr0&Himp)]; [by edestruct Hno|]. destruct (Himp Hb) as [Hb0 ->]. by eapply H4.
Qed.
(** The record of one callout changes, and its place, but not where it is bound. *)
Lemma same_but s st Q Q' hs c r r' :
  mach_ok s Q → state_ok timed st Q' → cpus st = cpus (kern s) → callouts st = <[c := r']> (callouts (kern s)) →
  (∀ l cpu, (∃ c, hs !! l = Some (HAsleep c cpu)) ↔ ∃ c, halts s !! l = Some (HAsleep c cpu)) →
  callouts (kern s) !! c = Some r → (has (c_flags r') CALLOUT_BOUND = true → has (c_flags r) CALLOUT_BOUND = true ∧ c_cpu r' = c_cpu r) →
  mach_ok (Machine st hs) Q'.
Proof using.
  intros Hm Hok Hc Hr Hh Hr0 Himp. eapply same_cpus; [done..|]. intros k rk. rewrite Hr. destruct (decide (k = c)) as [->|Hne].
  - rewrite lookup_insert_eq. intros [= <-]. right. by exists r.
  - rewrite lookup_insert_ne by done. intros Hk. right. by exists rk.
Qed.

Lemma lookup_woken l woken : ∀ hs : gmap Z halting,
  foldr (alter wake_halt) hs woken !! l = if decide (l ∈ woken) then wake_halt <$> hs !! l else hs !! l.
Proof using.
  induction woken as [|x woken IH]; intros hs; cbn [foldr]; [done|]. destruct (decide (l = x)) as [->|Hne].
  - rewrite lookup_alter_eq, IH, (decide_True (P := x ∈ x :: woken)) by by left.
    case_decide; [|done]. rewrite <- option_fmap_compose. apply option_fmap_ext. by intros [].
  - rewrite lookup_alter_ne, IH by done. destruct (decide (l ∈ woken)); [rewrite decide_True by by right|rewrite decide_False]; [done..|].
    intros [?|?]%elem_of_cons; done.
Qed.

(** The end of the loop of the soft interrupt, from a state in which the
    processor was in [cc0] before. *)
Lemma soft_end s Q cpu cc0 cc l hs st' Q' f :
  mach_ok s Q → cpus (kern s) !! cpu = Some cc0 → cc_ticks cc = cc_ticks cc0 → cc_lwp cc = Some l → cc_active cc = None →
  (∀ l k, (∃ c, hs !! l = Some (HAsleep c k)) ↔ ∃ ck, <[cpu := cc]> (cpus (kern s)) !! k = Some ck ∧ l ∈ cc_sleepq ck) →
  state_ok timed st' Q' → loop_end (put_cpu (kern s) cpu cc) st' Q' cpu cc f →
  mach_ok (Machine st' hs) Q' ∧ fire_post s Q' cpu f.
Proof using.
  intros [H1 H2 H3 H4] Hcc Ht Hl Ha Hh Hok' Hend.
  assert (Hboot : ∀ ck, is_Some (<[cpu := ck]> (cpus (kern s)) !! 0)).
  { intros ck. apply insert_some; [by eexists|done]. }
  assert (Hsl : ∀ ck, cc_sleepq ck = cc_sleepq cc → ∀ l k, (∃ c, hs !! l = Some (HAsleep c k)) ↔
     ∃ ck', <[cpu := ck]> (cpus (kern s)) !! k = Some ck' ∧ l ∈ cc_sleepq ck').
  { intros ck Eck l' k. rewrite Hh. destruct (decide (k = cpu)) as [->|]; [|by rewrite !lookup_insert_ne].
    rewrite !lookup_insert_eq. split; intros (?&[= <-]&?); eexists; (split; [done|congruence]). }
  unfold loop_end in Hend. simpl in Hend. destruct f as [[[c func] arg]|]; simpl.
  - destruct Hend as (r&Hr&Hp&Hm&Hcpu&Hf&Harg&Htime&Hcs&Hcpus). rewrite insert_insert_eq in Hcpus. split; [split; simpl|].
    + done.
    + rewrite Hcpus. apply Hboot.
    + rewrite Hcpus. by apply Hsl.
    + intros k c' r' (ck&Hck&Hac) Hr' Hb. simpl in Hck. rewrite Hcpus in Hck. rewrite Hcs in Hr'.
      destruct (decide (k = cpu)) as [->|Hne].
      * rewrite lookup_insert_eq in Hck. injection Hck as <-. injection Hac as <-. rewrite lookup_insert_eq in Hr'. by injection Hr' as <-.
      * rewrite lookup_insert_ne in Hck by done. assert (Hrun : running s k c') by by exists ck.
        destruct (decide (c' = c)) as [->|]; [|rewrite lookup_insert_ne in Hr' by done; by eapply H4].
        rewrite lookup_insert_eq in Hr'. injection Hr' as <-. simpl in Hb. rewrite bound_fire in Hb. simpl. by eapply H4.
    + exists r, cc0. rewrite <- Ht. done.
  - destruct Hend as (HQ&Hcs&Hcpus). rewrite insert_insert_eq in Hcpus. split; [split; simpl|done].
    + done.
    + rewrite Hcpus. apply Hboot.
    + rewrite Hcpus. by apply Hsl.
    + intros k c' r' (ck&Hck&Hac) Hr' Hb. simpl in Hck. rewrite Hcpus in Hck. rewrite Hcs in Hr'.
      destruct (decide (k = cpu)) as [->|Hne].
      * rewrite lookup_insert_eq in Hck. injection Hck as <-. simpl in Hac. congruence.
      * rewrite lookup_insert_ne in Hck by done. eapply H4; [by exists ck|done|done].
Qed.

Lemma soft_enter_ok s Q cpu l : mach_ok s Q → legal s (SoftEnter cpu l) →
  ∃ s' a Q', exec s (SoftEnter cpu l) = Ok (s', a) ∧ mach_ok s' Q' ∧ op_post s (SoftEnter cpu l) s' a Q'.
Proof using.
  intros Hm (Hl&cc&Hcc&Hlwp). destruct (st_cpu _ _ _ (m_state _ _ Hm) _ _ Hcc) as (Hu&Ht&Hn&Hsl&Hac).
  assert (Ea : cc_active cc = None) by (destruct (cc_active cc); [by destruct Hac|done]).
  set (cc1 := with_lwp cc (Some l)).
  assert (Hok1 : state_ok timed (put_cpu (kern s) cpu cc1) Q).
  { eapply change_cpu; [apply Hm|done|done|]. by split_and!. }
  destruct (soft_run_ok timed cpu cc1 l _ Q eq_refl Ea Hok1) as (st'&Q'&f&Hrun&Hok'&Hend); [apply lookup_insert_eq|].
  exists (Machine st' (halts s)), (AFire f), Q'. split.
  - cbn [exec]. unfold softclock_enter. rewrite (cpu_Ok _ _ _ Hcc), Ok_bind. fold cc1. by rewrite Hrun.
  - eapply (soft_end s Q cpu cc cc1 l); [done..| |done|done]. intros l' k. rewrite (m_sleep _ _ Hm).
    destruct (decide (k = cpu)) as [->|]; [|by rewrite lookup_insert_ne]. rewrite lookup_insert_eq, Hcc.
    split; intros (?&[= <-]&?); eexists; (split; [done|done]).
Qed.

Lemma soft_next_ok s Q cpu : mach_ok s Q → legal s (SoftNext cpu) →
  ∃ s' a Q', exec s (SoftNext cpu) = Ok (s', a) ∧ mach_ok s' Q' ∧ op_post s (SoftNext cpu) s' a Q'.
Proof using.
  intros Hm (cc&l&Hcc&Ea&Hlwp).
  destruct (soft_run_ok timed cpu cc l _ Q Hlwp Ea (m_state _ _ Hm) Hcc) as (st'&Q'&f&Hrun&Hok'&Hend).
  exists (Machine st' (halts s)), (AFire f), Q'. split; [cbn [exec]; by rewrite Hrun|].
  eapply (soft_end s Q cpu cc cc l); [done..| |done|].
  - intros l' k. by rewrite (m_sleep _ _ Hm), insert_id.
  - unfold put_cpu. rewrite insert_id by done. by destruct (kern s).
Qed.

Lemma soft_return_ok s Q cpu : mach_ok s Q → legal s (SoftReturn cpu) →
  ∃ s' a Q', exec s (SoftReturn cpu) = Ok (s', a) ∧ mach_ok s' Q' ∧ op_post s (SoftReturn cpu) s' a Q'.
Proof using.
  intros Hm (cc&l&Hcc&Hact&Hlwp&Hl). destruct (st_cpu _ _ _ (m_state _ _ Hm) _ _ Hcc) as (Hu&Ht&Hn&Hsl&Hac).
  set (cc1 := with_sleepers (with_active cc None) [] 0).
  exists (Machine (put_cpu (kern s) cpu cc1) (foldr (alter wake_halt) (halts s) (cc_sleepq cc))), ANone, Q. split_and!; [| |done].
  - cbn [exec]. unfold softclock_return. rewrite (cpu_Ok _ _ _ Hcc), Ok_bind. cbv zeta.
    change (cc_nwait (with_active cc None)) with (cc_nwait cc). change (cc_sleepq (with_active cc None)) with (cc_sleepq cc).
    rewrite Hn, Nat2Z.id, drop_all, firstn_all. destruct (Z.eqb_spec (Z.of_nat (length (cc_sleepq cc))) 0) as [E|E]; cbn [negb]; [|done].
    assert (Eq : cc_sleepq cc = []) by (apply length_zero_iff_nil; lia). rewrite Eq.
    assert (with_active cc None = cc1) as ->; [|done]. unfold cc1, with_active, with_sleepers. simpl. rewrite Eq, Hn, Eq. done.
  - split; simpl.
    + eapply change_cpu; [apply Hm|done|done|]. by split_and!.
    + apply insert_some; [by eexists|apply Hm].
    + intros l' k. rewrite lookup_woken. destruct (decide (k = cpu)) as [->|Hne].
      * rewrite lookup_insert_eq. split; [|by intros (?&[= <-]&?%elem_of_nil)]. intros [c Hc]. exfalso.
        destruct (decide (l' ∈ cc_sleepq cc)) as [Hin|Hin]; [by destruct (halts s !! l') as [[]|]|].
        apply Hin. assert (Hex : ∃ c, halts s !! l' = Some (HAsleep c cpu)) by by exists c.
        apply (m_sleep _ _ Hm) in Hex as (cc'&Hcc'&?). congruence.
      * rewrite lookup_insert_ne by done. rewrite <- (m_sleep _ _ Hm). case_decide as Hin; [|done].
        assert (Hex : ∃ ck, cpus (kern s) !! cpu = Some ck ∧ l' ∈ cc_sleepq ck) by by exists cc.
        apply (m_sleep _ _ Hm) in Hex as [c Hc]. rewrite Hc. split; [by intros [? ?]|]. intros [? [= -> <-]]. done.
    + intros k c r (ck&Hck&Hak) Hr Hb. simpl in *. eapply (m_bound _ _ Hm); [|done|done].
      destruct (decide (k = cpu)) as [->|Hk]; [|rewrite lookup_insert_ne in Hck by done; by exists ck].
      rewrite lookup_insert_eq in Hck. by injection Hck as <-.
Qed.

(** A thread that is not asleep changes its place. *)
Lemma awake_halts (hs hs' : gmap Z halting) l : (∀ c k, hs !! l ≠ Some (HAsleep c k)) → (∀ c k, hs' !! l ≠ Some (HAsleep c k)) →
  (∀ l', l' ≠ l → hs' !! l' = hs !! l') →
  ∀ l' cpu, (∃ c, hs' !! l' = Some (HAsleep c cpu)) ↔ ∃ c, hs !! l' = Some (HAsleep c cpu).
Proof using.
  intros H1 H2 H3 l' cpu. destruct (decide (l' = l)) as [->|Hne]; [|by setoid_rewrite (H3 l' Hne)].
  split; intros [c Hc]; [by destruct (H2 c cpu)|by destruct (H1 c cpu)].
Qed.

Lemma halt_turn_ok s Q l : mach_ok s Q → legal s (HaltTurn l) →
  ∃ s' a Q', exec s (HaltTurn l) = Ok (s', a) ∧ mach_ok s' Q' ∧ op_post s (HaltTurn l) s' a Q'.
Proof using.
  intros Hm (c&il&Hl&(r&Ha)&Hlen). cbn [exec]. rewrite Hl.
  destruct (lock_spec _ _ _ _ _ (m_state _ _ Hm) Ha) as (cc&Hcc&Hlock). destruct Ha as [Hr Hmag].
  assert (Hna : ∀ c k, halts s !! l ≠ Some (HAsleep c k)) by (intros ??; by rewrite Hl).
  assert (Hrest : ∀ hs, (∀ c k, hs !! l ≠ Some (HAsleep c k)) → (∀ l', l' ≠ l → hs !! l' = halts s !! l') → mach_ok (Machine (kern s) hs) Q).
  { intros hs Hl' Ho. eapply same_cpus; [done|apply Hm|done|by eapply awake_halts|]. intros k rk Hk. right. by exists rk. }
  unfold callout_halt_loop. rewrite Hlock, Ok_bind. case_bool; [|destruct il].
  - rewrite Ok_bind. eexists _, _, Q. split_and!; [done| |done]. apply Hrest; [intros ??; by rewrite lookup_delete_eq|].
    intros. by rewrite lookup_delete_ne.
  - rewrite Ok_bind. eexists _, _, Q. split_and!; [done| |done]. apply Hrest; [intros ??; by rewrite lookup_insert_eq|].
    intros. by rewrite lookup_insert_ne.
  - rewrite Ok_bind, (callout_Ok _ _ _ Hr), Ok_bind. eexists _, _, Q. split_and!; [done| |done].
    apply orb_false_iff in Heqb as [Hact%bool_decide_eq_false Hlw]. apply dec_stable in Hact.
    set (cc' := with_sleepers cc (cc_sleepq cc ++ [l]) (u32 (cc_nwait cc + 1))).
    destruct (st_cpu _ _ _ (m_state _ _ Hm) _ _ Hcc) as (Hu&Ht&Hn&Hsl&Hac). specialize (Hlen _ _ Hcc).
    assert (Hok' : state_ok timed (put_cpu (kern s) (c_cpu r) cc') Q).
    { eapply change_cpu; [apply Hm|done|done|]. split_and!; simpl; [done|done| |by rewrite Hact|done].
      rewrite Hn, u32_small by (unfold is_u32; lia). rewrite length_app. simpl. lia. }
    split; simpl; [done| | |].
    + apply insert_some; [by eexists|apply Hm].
    + intros l' k. destruct (decide (l' = l)) as [->|Hne].
      * rewrite lookup_insert_eq. split.
        -- intros [? [= <- <-]]. exists cc'. rewrite lookup_insert_eq. split; [done|]. simpl. set_solver.
        -- intros (ck&Hck&Hin). destruct (decide (k = c_cpu r)) as [->|Hk]; [by exists c|].
           rewrite lookup_insert_ne in Hck by done. assert (Hex : ∃ ck, cpus (kern s) !! k = Some ck ∧ l ∈ cc_sleepq ck) by by exists ck.
           apply (m_sleep _ _ Hm) in Hex as [? ?]. by edestruct Hna.
      * rewrite lookup_insert_ne by done. rewrite (m_sleep _ _ Hm). destruct (decide (k = c_cpu r)) as [->|Hk]; [|by rewrite lookup_insert_ne].
        rewrite lookup_insert_eq, Hcc. split; intros (?&[= <-]&Hin); eexists; (split; [done|]); simpl in *; set_solver.
    + intros k c' r' (ck&Hck&Hac') Hr' Hb. simpl in *. eapply (m_bound _ _ Hm); [|done|done].
      destruct (decide (k = c_cpu r)) as [->|Hk]; [|rewrite lookup_insert_ne in Hck by done; by exists ck].
      rewrite lookup_insert_eq in Hck. injection Hck as <-. by exists cc.
Qed.

Lemma hardclock_step s Q cpu : mach_ok s Q → legal s (HardClock cpu) → (timed → op_in_range s (HardClock cpu)) →
  ∃ s' a Q', exec s (HardClock cpu) = Ok (s', a) ∧ mach_ok s' Q' ∧ op_post s (HardClock cpu) s' a Q'.
Proof using.
  intros Hm [cc Hcc] Hr. destruct (hardclock_ok timed _ _ _ _ (m_state _ _ Hm) Hcc Hr) as (st'&Q'&b&Hh&Hok'&Hcs&Hcpus&Hb).
  exists (Machine st' (halts s)), (ABool b), Q'. cbn [exec]. rewrite Hh, Ok_bind. split_and!; [done| |done].
  split; simpl; [done|rewrite Hcpus; apply insert_some; [by eexists|apply Hm]| |].
  - intros l k. rewrite (m_sleep _ _ Hm), Hcpus. destruct (decide (k = cpu)) as [->|]; [|by rewrite lookup_insert_ne].
    rewrite lookup_insert_eq, Hcc. split; intros (?&[= <-]&?); eexists; (split; [done|done]).
  - intros k c r (ck&Hck&Hac) Hrr Hbb. simpl in *. rewrite Hcs in Hrr. rewrite Hcpus in Hck. eapply (m_bound _ _ Hm); [|done|done].
    destruct (decide (k = cpu)) as [->|Hk]; [|rewrite lookup_insert_ne in Hck by done; by exists ck].
    rewrite lookup_insert_eq in Hck. injection Hck as <-. by exists cc.
Qed.

Lemma init_cpu_step s Q ci : mach_ok s Q → legal s (InitCpu ci) →
  ∃ s' a Q', exec s (InitCpu ci) = Ok (s', a) ∧ mach_ok s' Q' ∧ op_post s (InitCpu ci) s' a Q'.
Proof using.
  intros Hm Hci. destruct (init_cpu_ok timed _ _ _ (m_state _ _ Hm) Hci) as (h&Hi&Hok'). simpl in Hci.
  eexists _, ANone, _. cbn [exec]. unfold quiet. rewrite Hi, Ok_bind. split_and!; [done| |done].
  split; simpl; [exact Hok'| | |].
  - destruct (decide (0 = ci)) as [<-|]; [rewrite lookup_insert_eq; by eexists|]. rewrite lookup_insert_ne by done. apply Hm.
  - intros l k. rewrite (m_sleep _ _ Hm). destruct (decide (k = ci)) as [->|]; [|by rewrite lookup_insert_ne].
    rewrite lookup_insert_eq, Hci. split; [by intros (?&?&?)|by intros (?&[= <-]&?%elem_of_nil)].
  - intros k c r (ck&Hck&Hac) Hrr Hbb. simpl in *. eapply (m_bound _ _ Hm); [|done|done].
    destruct (decide (k = ci)) as [->|Hk]; [|rewrite lookup_insert_ne in Hck by done; by exists ck].
    rewrite lookup_insert_eq in Hck. by injection Hck as <-.
Qed.

Lemma sched_step s Q curcpu tryenter c to_ticks r :
  mach_ok s Q → alive (kern s) c r → c_func r ≠ None → 0 ≤ to_ticks → is_Some (cpus (kern s) !! curcpu) →
  in_range timed (kern s) to_ticks →
  ∃ st' Q' , callout_schedule_locked (kern s) curcpu tryenter c to_ticks = Ok st' ∧ mach_ok (Machine st' (halts s)) Q' ∧
    ∃ r' cc, callouts st' !! c = Some r' ∧ pending r' = true ∧ cpus st' = cpus (kern s) ∧
      cpus (kern s) !! c_cpu r' = Some cc ∧ c_time r' = s32 (to_ticks + cc_ticks cc).
Proof using.
  intros Hm Ha Hf Hto Hcur Hr.
  destruct (schedule_ok timed _ _ curcpu tryenter c to_ticks r (m_state _ _ Hm) Ha Hf Hto Hcur Hr) as (st'&Q'&r'&Hs&Hok'&Hsc).
  destruct Hsc as [S1 S2 S3 (cc&S4&S4') S5 S6 S7]. exists st', Q'. split_and!; [done| |].
  - eapply (same_but s st' Q Q' _ c r r'); [done..|apply Ha|]. rewrite S5. intros Hb. split; [done|by apply S6].
  - exists r', cc. rewrite S1, S2, lookup_insert_eq. done.
Qed.

(** Every legal operation returns, and keeps the invariant. *)
Lemma exec_ok s Q o : mach_ok s Q → legal s o → (timed → op_in_range s o) →
  ∃ s' a Q', exec s o = Ok (s', a) ∧ mach_ok s' Q' ∧ op_post s o s' a Q'.
Proof using.
  intros Hm Hleg Hr.
  assert (Hok := m_state _ _ Hm).
  assert (Hrec : ∀ c r r', callouts (kern s) !! c = Some r → state_ok timed (put_callout (kern s) c r') Q →
    has (c_flags r') CALLOUT_BOUND = has (c_flags r) CALLOUT_BOUND → c_cpu r' = c_cpu r → mach_ok (Machine (put_callout (kern s) c r') (halts s)) Q).
  { intros c r r' Hcr Hst Hb Hc. eapply (same_but s _ Q Q _ c r r'); [done..|]. rewrite Hb. auto. }
  destruct o as [ci|curcpu c flags|l c|c f arg|curcpu tryenter c t f arg|curcpu tryenter c t|c|c|l c il|l|cpu|cpu l|cpu|cpu].
  - by eapply init_cpu_step.
  - destruct Hleg as (Hnl&Hnr&Hfl). destruct (init_callout_ok timed _ _ curcpu c flags Hok (m_boot _ _ Hm)) as (r&Hi&Hok'&_); [|done|].
    { intros r Ha. apply Hnl. by exists r. }
    eexists _, _, Q. cbn [exec]. unfold quiet. rewrite Hi, Ok_bind. split_and!; [done| |done].
    eapply same_cpus; [done|done|done|done|]. intros k rk Hk. simpl in Hk. destruct (decide (k = c)) as [->|Hne]; [by left|].
    rewrite lookup_insert_ne in Hk by done. right. by exists rk.
  - destruct Hleg as (r&cc&Hcr&Hmag&Hp&Hcc&Hor). destruct (destroy_ok timed _ _ l c r cc Hok (conj Hcr Hmag) Hp Hcc Hor) as [Hd Hok'].
    eexists _, _, Q. cbn [exec]. unfold quiet. rewrite Hd, Ok_bind. split_and!; [done|by eapply Hrec|done].
  - destruct Hleg as (r&Ha). destruct (setfunc_ok timed _ _ c r f arg Hok Ha) as [Hs Hok'].
    eexists _, _, Q. cbn [exec]. unfold quiet. rewrite Hs, Ok_bind. split_and!; [done| |done]. by eapply Hrec; [apply Ha|..].
  - destruct Hleg as ((r&Ha)&Ht&Hcur). destruct (setfunc_ok timed _ _ c r f arg Hok Ha) as [Hs Hok'].
    assert (Hm1 : mach_ok (Machine (put_callout (kern s) c (with_func r (Some f) arg)) (halts s)) Q) by (by eapply Hrec; [apply Ha|..]).
    destruct (sched_step _ _ curcpu tryenter c t (with_func r (Some f) arg) Hm1) as (st'&Q'&Hsch&Hm'&Hpost);
      [split; [simpl; apply lookup_insert_eq|apply Ha]|done|lia|done|done|].
    eexists _, _, Q'. cbn [exec]. unfold quiet, callout_reset. simpl in Hsch. rewrite Hs, Ok_bind, Hsch, Ok_bind. split_and!; done.
  - destruct Hleg as ((r&Ha)&Ht&Hcur&r0&Hr0&Hf). destruct Ha as [Hcr Hmag]. assert (r0 = r) as -> by congruence.
    destruct (sched_step _ _ curcpu tryenter c t r Hm (conj Hcr Hmag) Hf) as (st'&Q'&Hsch&Hm'&Hpost); [lia|done|done|].
    destruct (lock_spec _ _ _ _ _ Hok (conj Hcr Hmag)) as (cc&_&Hlock).
    eexists _, _, Q'. cbn [exec]. unfold quiet, callout_schedule. rewrite Hlock, Ok_bind, Hsch, Ok_bind. split_and!; done.
  - destruct Hleg as (r&Ha). destruct (cancel_ok timed _ _ _ _ Hok Ha) as (st'&Q'&r'&Hc&Hok'&Hcs&Hcpus&->).
    destruct (alive_cpu _ _ _ _ _ Hok Ha) as [cc Hcc].
    set (r' := with_flags r (clear (c_flags r) (CALLOUT_PENDING .| CALLOUT_FIRED))) in *.
    assert (Hm' : mach_ok (Machine st' (halts s)) Q').
    { eapply (same_but s st' Q Q' _ c r r'); [done..|apply Ha|]. simpl. rewrite bound_cancel. done. }
    assert (Hr' : callouts st' !! c = Some r') by (rewrite Hcs; apply lookup_insert_eq).
    cbn [exec]. unfold callout_stop. rewrite Hc, Ok_bind, (callout_Ok _ _ _ Hr'), Ok_bind.
    rewrite (cpu_Ok st' (c_cpu r') cc), !Ok_bind by by rewrite Hcpus. eexists _, _, Q'. split_and!; [done| |done].
    destruct (decide (cc_active cc = Some c)) as [Ea|]; [|done]. rewrite <- Hcpus in Hcc.
    destruct (st_cpu _ _ _ Hok' _ _ Hcc) as (?&?&?&?&?).
    split; simpl; [by eapply change_cpu; [done|done|done|split_and!]|apply insert_some; [by eexists|apply Hm']| |].
    + intros l k. rewrite (m_sleep _ _ Hm'). simpl. destruct (decide (k = c_cpu r')) as [->|]; [|by rewrite lookup_insert_ne].
      rewrite lookup_insert_eq. change (c_cpu r') with (c_cpu r). rewrite Hcc. split; intros (?&[= <-]&?); eexists; (split; [done|done]).
    + intros k c' rk (ck&Hck&Hac) Hrk Hb. simpl in *. eapply (m_bound _ _ Hm'); [|done|done].
      destruct (decide (k = c_cpu r)) as [->|Hk]; [|rewrite lookup_insert_ne in Hck by done; by exists ck].
      rewrite lookup_insert_eq in Hck. injection Hck as <-. by exists cc.
  - destruct Hleg as (r&Ha). destruct (ack_ok timed _ _ c r Hok Ha) as (r'&Hs&->&Hok').
    eexists _, _, Q. cbn [exec]. unfold quiet. rewrite Hs, Ok_bind. split_and!; [done| |done].
    eapply Hrec; [apply Ha|done|apply bound_ack|done].
  - destruct Hleg as ((r&Ha)&Hl). destruct (cancel_ok timed _ _ _ _ Hok Ha) as (st'&Q'&r'&Hc&Hok'&Hcs&Hcpus&->).
    cbn [exec]. rewrite Hc, Ok_bind. eexists _, _, Q'. split_and!; [done| |done].
    eapply (same_but s st' Q Q' _ c r); [done|done|done|exact Hcs| |apply Ha|simpl; by rewrite bound_cancel].
    eapply (awake_halts _ _ l); [intros ??; by rewrite Hl|intros ??; by rewrite lookup_insert_eq|intros; by rewrite lookup_insert_ne].
  - by eapply halt_turn_ok.
  - by eapply hardclock_step.
  - by eapply soft_enter_ok.
  - by eapply soft_return_ok.
  - by eapply soft_next_ok.
Qed.

Lemma startup_mach : mach_ok (Machine callout_startup ∅) (λ _, []).
Proof using.
  split; simpl; [apply startup_ok|by exists zeroed| |].
  - intros l cpu. split; [intros [c Hc]; by rewrite lookup_empty in Hc|]. intros (cc&[<- <-]%lookup_singleton_Some&Hin).
    by apply elem_of_nil in Hin.
  - intros cpu c r (cc&Hcc&Hac). simpl in Hcc. apply lookup_singleton_Some in Hcc as [<- <-]. done.
Qed.

Lemma reach_ok s : reach (λ s o, legal s o ∧ (timed → op_in_range s o)) s → ∃ Q, mach_ok s Q.
Proof using.
  induction 1 as [|s o s' a Hr [Q Hm] [Hl Hrange] He]; [eexists; apply startup_mach|].
  destruct (exec_ok s Q o Hm Hl Hrange) as (s1&a1&Q'&He'&Hm'&_). rewrite He in He'. simplify_eq. by exists Q'.
Qed.
End machine.

Lemma reach_mono (ok ok' : machine → op → Prop) s : (∀ s o, ok s o → ok' s o) → reach ok s → reach ok' s.
Proof. intros Hok. induction 1; [constructor|]. econstructor; eauto. Qed.
Lemma reach_legal s : reach legal s → ∃ Q, mach_ok False s Q.
Proof. intros Hr. apply reach_ok. eapply reach_mono; [|done]. by intros s' o Hl. Qed.
Definition legal_in_range (s : machine) (o : op) : Prop := legal s o ∧ op_in_range s o.
Lemma reach_timed s : reach legal_in_range s → ∃ Q, mach_ok True s Q.
Proof. intros Hr. apply reach_ok. eapply reach_mono; [|done]. intros s' o [? ?]. by split. Qed.

(** With nothing on the work list of a processor, all of its callouts are due
    later. *)
Lemma future s Q cpu c r cc : mach_ok True s Q → Q (Todo cpu) = [] → callouts (kern s) !! c = Some r → pending r = true →
  c_cpu r = cpu → cpus (kern s) !! cpu = Some cc → cc_ticks cc < c_time r.
Proof.
  intros Hm HQ Hr Hp Hc Hcc. destruct (pending_queued _ _ _ _ _ (m_state _ _ _ Hm) Hr Hp) as (_&_&_&hd&Hd&Hcpu&Hin&Hot).
  destruct (Hot I) as [_ Hv]. destruct hd as [|k|k b]; simpl in *; [done|subst; rewrite HQ in Hin; by apply elem_of_nil in Hin|].
  subst k. rewrite Hc in Hv. destruct (Hv _ Hcc) as (v&(w&i&_&_&_&_&_&Ht&_)&Hle). lia.
Qed.

(** ** The theorems *)

Definition on_ring (st : kernel) (hd : node) (c : Z) : Prop :=
  head_of (cpus st) hd ∧ ∃ l, path (links st) hd l hd ∧ NoDup l ∧ c ∈ l.

(** C30: any sequence of operations that the callers may do - processors, ticks,
    soft interrupts, and calls for any callouts, from the functions of callouts
    too - runs without a failed assertion, a bad pointer or a loop that does not
    end; after it the links of each queue form a ring of pending callouts of its
    processor, and every pending callout is on exactly one. *)
Theorem callout_safe s : reach legal s →
  (∀ o, legal s o → ∃ s' a, exec s o = Ok (s', a)) ∧
  (∀ hd, head_of (cpus (kern s)) hd → ∃ l, path (links (kern s)) hd l hd ∧ NoDup l ∧
     ∀ c, c ∈ l → ∃ r, callouts (kern s) !! c = Some r ∧ pending r = true ∧ c_cpu r = cpu_of hd) ∧
  (∀ c r, callouts (kern s) !! c = Some r → pending r = true →
     ∃ hd, on_ring (kern s) hd c ∧ ∀ hd', on_ring (kern s) hd' c → hd' = hd).
Proof.
  intros Hr. destruct (reach_legal _ Hr) as [Q Hm]. pose proof (m_state _ _ _ Hm) as Hok. pose proof (st_queues _ _ _ Hok) as Hq.
  split_and!.
  - intros o Hl. destruct (exec_ok False s Q o Hm Hl) as (s'&a&Q'&He&_); [done|]. by exists s', a.
  - intros hd Hd. exists (Q hd). split_and!; [by apply Hq..|]. intros c Hin. destruct (on_queue _ _ _ _ _ Hok Hd Hin) as [r Hrr].
    exists r. split; [done|]. by destruct (queued_at _ _ _ _ _ _ Hok Hrr Hd Hin) as (?&_&?&_).
  - intros c r Hrr Hp. destruct (pending_queued _ _ _ _ _ Hok Hrr Hp) as (_&_&_&hd&Hd&_&Hin&_). exists hd. split.
    + split; [done|]. exists (Q hd). by split_and!; [apply Hq|apply Hq|].
    + intros hd' [Hd' (l&Hl&Hnd&Hin')]. apply (q_uniq _ _ _ Hq hd' hd c); [done|done| |done].
      by rewrite (path_det _ _ _ _ Hl (q_ring _ _ _ Hq _ Hd') (q_head _ _ _ Hq _ Hd')) in Hin'.
Qed.

(** The processor whose soft interrupt runs in an operation. *)
Definition soft_cpu (o : op) : option Z := match o with SoftEnter cpu _ | SoftNext cpu => Some cpu | _ => None end.

Lemma fires_in_soft s o s' f : exec s o = Ok (s', AFire f) → ∃ cpu, soft_cpu o = Some cpu.
Proof.
  destruct o; cbn [exec soft_cpu]; unfold quiet; intros He; try (by eexists); inv_res;
    repeat (match goal with H : context [match ?x with _ => _ end] |- _ => destruct x end; inv_res).
Qed.

(** C31: as long as no clock and no deadline has wrapped, a callout that is
    scheduled for [t] ticks gets the time of its processor plus [t]; its function
    is never called before that time; a tick at which some callout of the
    processor is due asks for the soft interrupt; and when the soft interrupt has
    no further callout to call, every callout pending on the processor is in the
    future. The buckets of the wheel hold back no callout that is due. *)
Theorem callout_on_time s o s' a : reach legal_in_range s → legal_in_range s o → exec s o = Ok (s', a) →
  (∀ c f arg, a = AFire (Some (c, f, arg)) → ∃ r cc, callouts (kern s) !! c = Some r ∧ pending r = true ∧
     c_func r = Some f ∧ c_arg r = arg ∧ cpus (kern s) !! c_cpu r = Some cc ∧ c_time r ≤ cc_ticks cc) ∧
  (∀ cpu, (soft_cpu o = Some cpu ∧ a = AFire None) ∨ (o = HardClock cpu ∧ a = ABool false) →
     ∀ c r cc, callouts (kern s') !! c = Some r → pending r = true → c_cpu r = cpu → cpus (kern s') !! cpu = Some cc →
     cc_ticks cc < c_time r) ∧
  (∀ cpu b c t, o = Schedule cpu b c t → ∃ r cc, callouts (kern s') !! c = Some r ∧ pending r = true ∧
     cpus (kern s') !! c_cpu r = Some cc ∧ c_time r = cc_ticks cc + t).
Proof.
  intros Hr [Hl Hrange] He. destruct (reach_timed _ Hr) as [Q Hm].
  destruct (exec_ok True s Q o Hm Hl (λ _, Hrange)) as (s1&a1&Q'&He'&Hm'&Hpost). rewrite He in He'. simplify_eq.
  assert (Htick : ∀ t cpu cc, mach_ok True t Q ∨ mach_ok True t Q' → cpus (kern t) !! cpu = Some cc → 0 ≤ cc_ticks cc < 2 ^ 31).
  { intros t cpu cc Hor Hcc. assert (cpu_ok True cc) as (Hu&Ht&_) by (destruct Hor as [Hmt|Hmt]; by eapply (st_cpu _ _ _ (m_state _ _ _ Hmt))).
    unfold is_u32 in Hu. specialize (Ht I). lia. }
  split_and!.
  - intros c f arg ->. assert (∃ cpu, fire_post s Q' cpu (Some (c, f, arg))) as (cpu&r&cc&?&?&?&?&?&Hcc&Ht).
    { destruct (fires_in_soft _ _ _ _ He) as [cpu Hcpu]. exists cpu. destruct o; simplify_eq/=; done. }
    subst cpu. exists r, cc. split_and!; try done. specialize (Htick s _ _ (or_introl Hm) Hcc). rewrite s32_small in Ht; lia.
  - intros cpu Hor c r cc Hrr Hp Hc Hcc. eapply (future s1 Q' cpu); try done.
    destruct Hor as [[Hs ->]|[-> ->]]; [destruct o; simplify_eq/=; done|]. simpl in Hpost. by destruct (Q' (Todo cpu)).
  - intros cpu b c t ->. destruct Hpost as (r&cc&?&?&Hcpus&Hcc&Ht). exists r, cc. rewrite Hcpus. split_and!; [done..|].
    destruct Hl as (_&Hto&_). specialize (Htick s _ _ (or_introl Hm) Hcc). specialize (Hrange _ _ Hcc).
    rewrite Ht, s32_small; lia.
Qed.

(** C32: [callout_halt] of a callout that is bound to its processor returns only
    when the function of the callout is not running anywhere, unless the caller is
    that function; and a thread that sleeps in it waits for a function that is
    running, whose return wakes it. *)
Theorem callout_halt_waits s l : reach legal s →
  (∀ c interlock r s', halts s !! l = Some (HLoop c interlock) → callouts (kern s) !! c = Some r →
     has (c_flags r) CALLOUT_BOUND = true → exec s (HaltTurn l) = Ok (s', ABool true) →
     ∀ cpu cc, cpus (kern s) !! cpu = Some cc → cc_active cc = Some c → cc_lwp cc = Some l) ∧
  (∀ c cpu, halts s !! l = Some (HAsleep c cpu) → ∃ cc, cpus (kern s) !! cpu = Some cc ∧ cc_active cc ≠ None ∧
     cc_lwp cc ≠ None ∧ ∀ s' a, exec s (SoftReturn cpu) = Ok (s', a) → halts s' !! l = Some (HLoop c false)).
Proof.
  intros Hr. destruct (reach_legal _ Hr) as [Q Hm]. split.
  - intros c il r s' Hl Hrr Hb He cpu cc Hcc Hac.
    assert (Hcpu : c_cpu r = cpu) by (eapply (m_bound _ _ _ Hm); [by exists cc|done|done]). subst cpu.
    cbn [exec] in He. rewrite Hl in He. unfold callout_halt_loop, callout_lock in He.
    rewrite (callout_Ok _ _ _ Hrr), Ok_bind in He. destruct (c_magic r =? CALLOUT_MAGIC); [|done].
    unfold KASSERT in He. rewrite (cpu_Ok _ _ _ Hcc), !Ok_bind, Hac in He. rewrite bool_decide_false in He by tauto.
    destruct (bool_decide_reflect (cc_lwp cc = Some l)); [done|]. exfalso. clear -He. destruct il; cbn in He; inv_res.
  - intros c cpu Hl. assert (Hex : ∃ c, halts s !! l = Some (HAsleep c cpu)) by by exists c.
    apply (m_sleep _ _ _ Hm) in Hex as (cc&Hcc&Hin).
    destruct (st_cpu _ _ _ (m_state _ _ _ Hm) _ _ Hcc) as (_&_&Hn&Hsl&Hac). exists cc.
    assert (Ha : cc_active cc ≠ None) by (apply Hsl; intros E; rewrite E in Hin; by apply elem_of_nil in Hin).
    split_and!; [done|done|by apply Hac|]. intros s' a He. cbn [exec] in He. unfold softclock_return in He.
    rewrite (cpu_Ok _ _ _ Hcc), Ok_bind in He. cbv zeta in He. cbn [with_active cc_nwait cc_sleepq] in He.
    rewrite Hn, Nat2Z.id, firstn_all, (proj2 (Z.eqb_neq _ _)) in He; [|destruct (cc_sleepq cc); [by apply elem_of_nil in Hin|simpl; lia]].
    cbn [negb] in He. injection He as <- _. simpl. by rewrite lookup_woken, decide_True, Hl by done.
Qed.

(** ** Runs *)

Definition liveb (s : machine) (c : Z) : bool :=
  match callouts (kern s) !! c with Some r => c_magic r =? CALLOUT_MAGIC | None => false end.
Definition all_cpus (s : machine) (P : callout_cpu → bool) : bool := forallb (λ p, P p.2) (map_to_list (cpus (kern s))).
Definition ticks_below (s : machine) (n : Z) : bool := all_cpus s (λ cc, cc_ticks cc + n <? 2 ^ 31).
Definition has_cpu (s : machine) (cpu : Z) : bool := bool_decide (is_Some (cpus (kern s) !! cpu)).

(** A test for [legal_in_range]; only the operations of the examples pass it. *)
Definition legalb (s : machine) (o : op) : bool :=
  match o with
  | InitCpu ci => negb (has_cpu s ci)
  | Init curcpu c flags => negb (liveb s c) && all_cpus s (λ cc, negb (bool_decide (cc_active cc = Some c))) &&
      (clear flags CALLOUT_FLAGMASK =? 0)
  | Reset curcpu _ c t _ _ => liveb s c && (0 <=? t) && (t <? 2 ^ 31) && has_cpu s curcpu && ticks_below s t
  | Schedule curcpu _ c t => liveb s c && (0 <=? t) && (t <? 2 ^ 31) && has_cpu s curcpu && ticks_below s t &&
      match callouts (kern s) !! c with Some r => bool_decide (c_func r ≠ None) | None => false end
  | Stop c => liveb s c
  | Halt l c _ => liveb s c && bool_decide (halts s !! l = None)
  | HaltTurn l => match halts s !! l with Some (HLoop c _) => liveb s c | _ => false end &&
      all_cpus s (λ cc, Z.of_nat (length (cc_sleepq cc)) + 1 <? 2 ^ 32)
  | HardClock cpu => has_cpu s cpu && ticks_below s 1
  | SoftEnter cpu l => bool_decide (halts s !! l = None) &&
      match cpus (kern s) !! cpu with Some cc => bool_decide (cc_lwp cc = None) | None => false end
  | SoftReturn cpu => match cpus (kern s) !! cpu with
      | Some cc => bool_decide (cc_active cc ≠ None) &&
          match cc_lwp cc with Some l => bool_decide (halts s !! l = None) | None => false end
      | None => false
      end
  | SoftNext cpu => match cpus (kern s) !! cpu with
      | Some cc => bool_decide (cc_active cc = None) && bool_decide (cc_lwp cc ≠ None)
      | None => false
      end
  | _ => false
  end.
Lemma liveb_live s c : liveb s c = true ↔ live s c.
Proof.
  unfold liveb, live. destruct (callouts (kern s) !! c) as [r|]; [|naive_solver]. rewrite Z.eqb_eq. naive_solver.
Qed.
Lemma all_cpus_spec s P : all_cpus s P = true → ∀ cpu cc, cpus (kern s) !! cpu = Some cc → P cc = true.
Proof. unfold all_cpus. rewrite forallb_forall. intros H cpu cc Hcc%elem_of_map_to_list%list_elem_of_In. by apply (H (cpu, cc)). Qed.
Lemma ticks_below_spec s n : ticks_below s n = true → ∀ cpu cc, cpus (kern s) !! cpu = Some cc → cc_ticks cc + n < 2 ^ 31.
Proof. intros H cpu cc Hcc. pose proof (all_cpus_spec _ _ H _ _ Hcc) as Hb. simpl in Hb. lia. Qed.
Lemma legalb_legal s o : legalb s o = true → legal_in_range s o.
Proof.
  unfold legal_in_range.
  destruct o as [ci|curcpu c flags|l c|c f arg|curcpu tryenter c t f arg|curcpu tryenter c t|c|c|l c il|l|cpu|cpu l|cpu|cpu];
    cbn [legalb legal op_in_range]; unfold has_cpu; rewrite ?andb_true_iff, ?liveb_live, ?bool_decide_eq_true; try done.
  - rewrite negb_true_iff, bool_decide_eq_false. intros H. split; [by apply eq_None_not_Some|done].
  - rewrite negb_true_iff, Z.eqb_eq. intros [[Hl Ha] Hf]. split; [|done]. split_and!; [|  |done].
    + rewrite <- liveb_live. by rewrite Hl.
    + intros cpu (cc&Hcc&Hac). pose proof (all_cpus_spec _ _ Ha _ _ Hcc) as Hb. simpl in Hb. by rewrite Hac, bool_decide_true in Hb.
  - intros [[[[? ?] ?] ?] Ht]. pose proof (ticks_below_spec _ _ Ht). split; [split_and!|]; done || lia.
  - intros [[[[[? ?] ?] ?] Ht] Hf]. pose proof (ticks_below_spec _ _ Ht). split; [split_and!|]; try done; try lia.
    destruct (callouts (kern s) !! c) as [r|]; [|done]. exists r. by apply bool_decide_eq_true in Hf.
  - intros [Hl Hlen]. split; [|done]. destruct (halts s !! l) as [[c il|]|]; try done. exists c, il.
    split_and!; [done|by apply liveb_live|]. intros cpu cc Hcc. pose proof (all_cpus_spec _ _ Hlen _ _ Hcc) as Hb. simpl in Hb. lia.
  - intros [? Ht]. split; [done|]. exact (ticks_below_spec _ _ Ht).
  - intros [? Hb]. split; [|done]. split; [done|]. destruct (cpus (kern s) !! cpu) as [cc|]; [|done]. exists cc.
    by apply bool_decide_eq_true in Hb.
  - destruct (cpus (kern s) !! cpu) as [cc|]; [|done]. rewrite andb_true_iff, bool_decide_eq_true. intros [H1 H2].
    destruct (cc_lwp cc) as [l|] eqn:El; [|done]. apply bool_decide_eq_true in H2. split; [|done]. by exists cc, l.
  - destruct (cpus (kern s) !! cpu) as [cc|]; [|done]. rewrite andb_true_iff, !bool_decide_eq_true. intros [H1 H2].
    destruct (cc_lwp cc) as [l|] eqn:El; [|done]. split; [|done]. by exists cc, l.
Qed.

Definition run (s : machine) (ops : list op) : res machine :=
  foldl (λ s o, s ← s; if legalb s o then r ← exec s o; mret r.1 else Fault Panic) (mret s) ops.
Lemma run_from ops : ∀ m s', foldl (λ s o, s ← s; if legalb s o then r ← exec s o; mret r.1 else Fault Panic) m ops = Ok s' →
  ∀ s, m = Ok s → reach legal_in_range s → reach legal_in_range s'.
Proof.
  induction ops as [|o ops IH]; simpl; intros m s' Hrun s -> Hr; [by simplify_eq|].
  rewrite Ok_bind in Hrun. destruct (legalb s o) eqn:Hl.
  - destruct (exec s o) as [[s1 a]|f] eqn:He.
    + eapply (IH _ _ Hrun s1); [done|]. econstructor; [done|by apply legalb_legal|done].
    + exfalso. clear -Hrun. cbn in Hrun. induction ops as [|o' ops IH]; simpl in *; [done|]. by apply IH.
  - exfalso. clear -Hrun. induction ops as [|o' ops IH]; simpl in *; [done|]. by apply IH.
Qed.
Lemma run_reach ops s' : run (Machine callout_startup ∅) ops = Ok s' → reach legal_in_range s'.
Proof. intros Hrun. eapply run_from; [exact Hrun|done|constructor]. Qed.
Lemma range_legal s : reach legal_in_range s → reach legal s.
Proof. apply reach_mono. by intros ?? [? _]. Qed.

Definition is_ok {A} (m : res A) : bool := match m with Ok _ => true | Fault _ => false end.
Lemma ran (m : res machine) d : is_ok m = true → m = Ok (match m with Ok s => s | _ => d end).
Proof. by destruct m. Qed.
Definition answers (m : res (machine * answer)) : option answer := match m with Ok r => Some r.2 | Fault _ => None end.
Lemma answered m a : answers m = Some a → ∃ s, m = Ok (s, a).
Proof. destruct m as [[s b]|]; [|done]. intros [= ->]. by exists s. Qed.
Lemma on_record {V A} (m : gmap Z V) k (f : V → A) a : f <$> m !! k = Some a → ∃ v, m !! k = Some v ∧ f v = a.
Proof. intros (v&->&?)%fmap_Some. by exists v. Qed.

(** A callout for 300 ticks: it waits in the second wheel and then in the first,
    and its function is called at tick 300. *)
Definition ticks (n : nat) : list op := repeat (HardClock 0) n.
Definition demo_ops : list op :=
  [Init 0 100 CALLOUT_MPSAFE; Reset 0 true 100 300 7 8; HardClock 0; SoftEnter 0 10] ++ ticks 255 ++ [SoftEnter 0 10] ++ ticks 44.
Definition demo_machine : machine := match run (Machine callout_startup ∅) demo_ops with Ok s => s | _ => Machine callout_startup ∅ end.
Lemma demo_run : run (Machine callout_startup ∅) demo_ops = Ok demo_machine.
Proof. unfold demo_machine. apply ran. vm_compute. reflexivity. Qed.
Lemma demo_reach : reach legal_in_range demo_machine.
Proof. eapply run_reach, demo_run. Qed.
Lemma demo_legal : legal_in_range demo_machine (SoftEnter 0 10).
Proof. apply legalb_legal. vm_compute. reflexivity. Qed.

Lemma callout_safe_witness : (∀ o, legal demo_machine o → ∃ s' a, exec demo_machine o = Ok (s', a)) ∧
  ∃ hd, on_ring (kern demo_machine) hd 100 ∧ ∀ hd', on_ring (kern demo_machine) hd' 100 → hd' = hd.
Proof.
  destruct (callout_safe demo_machine (range_legal _ demo_reach)) as (H1&_&H3). split; [exact H1|].
  destruct (on_record (callouts (kern demo_machine)) 100 pending true) as (r&Hr&Hp); [vm_compute; reflexivity|].
  exact (H3 100 r Hr Hp).
Defined.

Lemma callout_on_time_witness : ∃ s', exec demo_machine (SoftEnter 0 10) = Ok (s', AFire (Some (100, 7, 8))) ∧
  ∃ r cc, callouts (kern demo_machine) !! 100 = Some r ∧ c_time r = 300 ∧ cpus (kern demo_machine) !! c_cpu r = Some cc ∧
    c_time r ≤ cc_ticks cc ∧ cc_ticks cc = 300.
Proof.
  assert (He : ∃ s', exec demo_machine (SoftEnter 0 10) = Ok (s', AFire (Some (100, 7, 8)))).
  { apply answered. vm_compute. reflexivity. }
  destruct He as [s' He]. exists s'. split; [exact He|].
  destruct (callout_on_time _ _ _ _ demo_reach demo_legal He) as (H1&_&_).
  destruct (H1 100 7 8 eq_refl) as (r&cc&Hr&_&_&_&Hcc&Hle). exists r, cc.
  destruct (on_record (callouts (kern demo_machine)) 100 (λ r, (c_cpu r, c_time r)) (0, 300)) as (r'&Hr'&E); [vm_compute; reflexivity|].
  rewrite Hr in Hr'. injection Hr' as <-. injection E as Ecpu Etime.
  split; [exact Hr|]. split; [exact Etime|]. split; [exact Hcc|]. split; [exact Hle|]. rewrite Ecpu in Hcc.
  destruct (on_record (cpus (kern demo_machine)) 0 cc_ticks 300) as (cc'&Hcc'&E); [vm_compute; reflexivity|].
  rewrite Hcc in Hcc'. injection Hcc' as <-. exact E.
Defined.

(** A callout bound to its processor whose function runs while a thread halts it. *)
Definition halt_ops : list op :=
  [Init 0 100 0; Reset 0 true 100 0 7 8; HardClock 0; SoftEnter 0 10; Halt 20 100 false; HaltTurn 20].
Definition halt_machine : machine := match run (Machine callout_startup ∅) halt_ops with Ok s => s | _ => Machine callout_startup ∅ end.
Lemma halt_run : run (Machine callout_startup ∅) halt_ops = Ok halt_machine.
Proof. unfold halt_machine. apply ran. vm_compute. reflexivity. Qed.
Lemma callout_halt_waits_witness : halts halt_machine !! 20 = Some (HAsleep 100 0) ∧
  ∃ cc, cpus (kern halt_machine) !! 0 = Some cc ∧ cc_active cc ≠ None ∧ cc_lwp cc ≠ None ∧
    ∀ s' a, exec halt_machine (SoftReturn 0) = Ok (s', a) → halts s' !! 20 = Some (HLoop 100 false).
Proof.
  assert (H : halts halt_machine !! 20 = Some (HAsleep 100 0)) by (vm_compute; reflexivity).
  split; [exact H|]. destruct (callout_halt_waits halt_machine 20 (range_legal _ (run_reach _ _ halt_run))) as [_ H2].
  exact (H2 100 0 H).
Defined.

(** ** What goes wrong *)

(** A callout that is not bound can be scheduled on another processor while its
    function runs; [callout_halt] then looks at the new processor and returns
    although the function is still running. *)
Definition miss_ops : list op :=
  [InitCpu 1; Init 0 100 CALLOUT_MPSAFE; Reset 0 true 100 0 7 8; HardClock 0; SoftEnter 0 10;
   Schedule 1 true 100 5; Halt 20 100 false].
Example halt_misses_running : ∃ s s', reach legal s ∧ halts s !! 20 = Some (HLoop 100 false) ∧
  exec s (HaltTurn 20) = Ok (s', ABool true) ∧ ∃ cc, cpus (kern s) !! 0 = Some cc ∧ cc_active cc = Some 100 ∧ cc_lwp cc = Some 10.
Proof.
  set (s := match run (Machine callout_startup ∅) miss_ops with Ok s => s | _ => Machine callout_startup ∅ end).
  assert (Hrun : run (Machine callout_startup ∅) miss_ops = Ok s) by (apply ran; by vm_compute).
  destruct (answered (exec s (HaltTurn 20)) (ABool true)) as [s' He]; [by vm_compute|].
  destruct (on_record (cpus (kern s)) 0 (λ cc, (cc_active cc, cc_lwp cc)) (Some 100, Some 10)) as (cc&Hcc&[= ? ?]); [by vm_compute|].
  exists s, s'. split; [exact (range_legal _ (run_reach _ _ Hrun))|]. split; [vm_compute; reflexivity|]. split; [exact He|].
  exists cc. split; [exact Hcc|]. by split.
Qed.

(** The clock alone, up to any tick. *)
Definition at_tick (n : Z) : machine := Machine (put_cpu callout_startup 0 (with_ticks zeroed n)) ∅.
Lemma move_empty h D Q cpu w t : queues_ok h D Q → D (Wheel cpu (MASKWHEEL w t + w * WHEELSIZE)) →
  Q (Wheel cpu (MASKWHEEL w t + w * WHEELSIZE)) = [] → MOVEBUCKET h cpu w t = Ok h.
Proof.
  intros Hok Hd HQ. unfold MOVEBUCKET, CIRCQ_APPEND. by rewrite (empty_spec _ _ _ Hok _ Hd), HQ.
Qed.
Lemma tick_alone h cs n : queues_ok h (head_of cs) (λ _, []) → cs !! 0 = Some (with_ticks zeroed n) → 0 ≤ n → n + 1 < 2 ^ 32 →
  exec (Machine (Kernel h ∅ cs) ∅) (HardClock 0) = Ok (Machine (Kernel h ∅ (<[0 := with_ticks zeroed (n + 1)]> cs)) ∅, ABool false).
Proof.
  intros Hq Hcs Hn Hb.
  assert (Hd : ∀ w t, 0 ≤ w ≤ 3 → head_of cs (Wheel 0 (MASKWHEEL w t + w * WHEELSIZE))).
  { intros w t Hw. split; [by eexists|]. pose proof (MASKWHEEL_bounds w t ltac:(lia)). unfold BUCKETS, WHEELSIZE in *. lia. }
  cbn [exec kern]. unfold callout_hardclock, cpu_callout. cbn [cpus]. rewrite Hcs, Ok_bind. cbv zeta.
  cbn [links put_cpu put_links cc_ticks with_ticks callouts]. rewrite u32_small by (unfold is_u32; lia).
  set (t := s32 (n + 1)).
  assert (Hmv : ∀ w, 0 ≤ w ≤ 3 → MOVEBUCKET h 0 w t = Ok h) by (intros w Hw; eapply move_empty; [exact Hq|by apply Hd|done]).
  assert (He : CIRCQ_EMPTY h (Todo 0) = Ok true) by (apply (empty_spec _ _ _ Hq (Todo 0)); by eexists).
  rewrite Hmv, Ok_bind by lia. destruct (MASKWHEEL 0 t =? 0); [|by rewrite Ok_bind, He].
  rewrite Hmv, Ok_bind by lia. destruct (MASKWHEEL 1 t =? 0); [|by rewrite Ok_bind, He].
  rewrite Hmv, Ok_bind by lia. destruct (MASKWHEEL 2 t =? 0); [|by rewrite Ok_bind, He].
  by rewrite Hmv, Ok_bind, He by lia.
Qed.
Lemma at_tick_next n : 0 ≤ n → n + 1 < 2 ^ 32 → exec (at_tick n) (HardClock 0) = Ok (at_tick (n + 1), ABool false).
Proof.
  intros Hn Hb. unfold at_tick, put_cpu. pose proof (st_queues _ _ _ (startup_ok False)) as Hq.
  rewrite (tick_alone _ _ n); [by rewrite insert_insert_eq| |apply lookup_insert_eq|done|done].
  eapply queues_heads; [|exact Hq]. intros hd. apply head_of_insert. by eexists.
Qed.
Lemma reach_tick n : (Z.of_nat n < 2 ^ 32) → reach legal (at_tick (Z.of_nat n)).
Proof.
  induction n as [|n IH]; intros Hn.
  - change (Z.of_nat 0) with 0. assert (at_tick 0 = Machine callout_startup ∅) as ->; [|constructor].
    unfold at_tick, put_cpu. change (with_ticks zeroed 0) with zeroed. by rewrite insert_id.
  - eapply (reach_step _ _ (HardClock 0)); [apply IH; lia|unfold at_tick, put_cpu; cbn [legal kern cpus]; by rewrite lookup_insert_eq|].
    replace (Z.of_nat (S n)) with (Z.of_nat n + 1) by lia. apply at_tick_next; lia.
Qed.

(** [c_time] and the clock are compared as they are, and not by their difference:
    when the clock is about to wrap, a callout for ten ticks is called at once. *)
Example callout_early_at_wrap : ∃ s s1 s2 s3 a b, s = at_tick (2 ^ 31 - 6) ∧ reach legal s ∧
  exec s (Init 0 100 CALLOUT_MPSAFE) = Ok (s1, a) ∧ exec s1 (Reset 0 true 100 10 7 8) = Ok (s2, b) ∧
  exec s2 (SoftEnter 0 10) = Ok (s3, AFire (Some (100, 7, 8))).
Proof.
  set (s := at_tick (2 ^ 31 - 6)).
  set (s1 := match exec s (Init 0 100 CALLOUT_MPSAFE) with Ok r => r.1 | _ => s end).
  set (s2 := match exec s1 (Reset 0 true 100 10 7 8) with Ok r => r.1 | _ => s end).
  destruct (answered (exec s2 (SoftEnter 0 10)) (AFire (Some (100, 7, 8)))) as [s3 H3]; [by vm_compute|].
  destruct (answered (exec s1 (Reset 0 true 100 10 7 8)) ANone) as [s2' H2]; [by vm_compute|].
  destruct (answered (exec s (Init 0 100 CALLOUT_MPSAFE)) ANone) as [s1' H1]; [by vm_compute|].
  assert (s1' = s1) as -> by (unfold s1; by rewrite H1). assert (s2' = s2) as -> by (unfold s2; by rewrite H2).
  exists s, s1, s2, s3, ANone, ANone. split; [reflexivity|]. split; [|split; [exact H1|split; [exact H2|exact H3]]].
  unfold s. rewrite <- (Z2Nat.id (2 ^ 31 - 6)) by lia. apply reach_tick. lia.
Qed.
