(* ===== verification/Cksum.v ===== *)
(** * The Internet checksum (netinet/cpu_in_cksum.c, in_cksum.c, in4_cksum.c,
    netinet6/in6_cksum.c, and the inline functions of netinet/in.h and
    netinet6/in6.h)

    The portable checksum of an mbuf chain, in its 32-bit and its 64-bit
    version, for either byte order, and the functions that add a pseudo header.
    An mbuf is the address of its data, its length, and the bytes in memory from
    that address to the end of its buffer; a load checks its alignment and its
    bounds. CksumSpec.v relates the functions to RFC 1071. *)

From S2P Require Import Prelude.

(** The constants of the configuration: [_BYTE_ORDER], [ULONG_MAX], [DIAGNOSTIC]. *)
Class Platform := {
  big_endian : bool;
  long_is_32 : bool;
  diagnostic : bool;
}.

(** [m_store]: the bytes from [m_data] on; [m_next] is the rest of the list. *)
Record mbuf := Mbuf {
  m_data : Z;
  m_len : Z;
  m_store : list Z;
}.

Section loads.
Context `{Platform}.

Definition load8 (m : mbuf) (d : Z) : res Z := get (m_store m) d.

(** Two bytes, in memory order, as a [uint16_t]. *)
Definition half (b0 b1 : Z) : Z :=
  if big_endian then Z.shiftl b0 8 + b1 else b0 + Z.shiftl b1 8.

Definition load16 (m : mbuf) (d : Z) : res Z :=
  if (m_data m + d) mod 2 =? 0 then
    b0 ← load8 m d; b1 ← load8 m (d + 1); Ok (half b0 b1)
  else Fault Misaligned.

Definition load32 (m : mbuf) (d : Z) : res Z :=
  if (m_data m + d) mod 4 =? 0 then
    b0 ← load8 m d; b1 ← load8 m (d + 1); b2 ← load8 m (d + 2); b3 ← load8 m (d + 3);
    Ok (if big_endian then Z.shiftl (half b0 b1) 16 + half b2 b3
        else half b0 b1 + Z.shiftl (half b2 b3) 16)
  else Fault Misaligned.

End loads.

(** ** cpu_in_cksum

    The two versions differ in the width of the accumulators and of the
    operands: a 32-bit accumulator takes 16-bit operands, a 64-bit accumulator
    32-bit operands. *)
Variant version := Portable32 | Portable64.

Definition width (v : version) : Z := match v with Portable32 => 32 | Portable64 => 64 end.
Definition size (v : version) : Z := match v with Portable32 => 2 | Portable64 => 4 end.

(** Arithmetic of the accumulators. *)
Definition acc (v : version) (z : Z) : Z := z mod 2 ^ width v.
(** [partial >> 32] and [partial & 0xffffffff]. *)
Definition hi (v : version) (z : Z) : Z := Z.shiftr z (width v / 2).
Definition lo (v : version) (z : Z) : Z := z .& Z.ones (width v / 2).
(** [(partial << 8) + (partial >> 56)] *)
Definition swap (v : version) (partial : Z) : Z :=
  acc v (acc v (Z.shiftl partial 8) + Z.shiftr partial (width v - 8)).

Section cksum.
Context `{Platform}.

Definition load (v : version) : mbuf → Z → res Z :=
  match v with Portable32 => load16 | Portable64 => load32 end.

(** [k] times the addition of the operand at [data], which moves on. *)
Fixpoint add_words (v : version) (k : nat) (m : mbuf) (data partial : Z) : res Z :=
  match k with
  | O => Ok partial
  | S k =>
      w ← load v m data;
      add_words v k m (data + size v) (acc v (partial + w))
  end.

(** The loop over blocks of sixteen operands. *)
Fixpoint cksum_blocks (v : version) (fuel : nat) (m : mbuf) (needs_swap : bool)
    (data mlen partial sum : Z) : res (Z * Z * Z * Z) :=
  match fuel with
  | O => Fault NoFuel
  | S fuel =>
      if mlen >=? 16 * size v then
        partial ← add_words v 16 m data partial;
        let data := data + 16 * size v in
        let mlen := mlen - 16 * size v in
        if negb (partial .& Z.shiftl 3 (width v - 2) =? 0) then
          let partial := if needs_swap then swap v partial else partial in
          let sum := acc v (sum + hi v partial) in
          let sum := acc v (sum + lo v partial) in
          cksum_blocks v fuel m needs_swap data mlen 0 sum
        else cksum_blocks v fuel m needs_swap data mlen partial sum
      else Ok (data, mlen, partial, sum)
  end.

(** [if (mlen & (k * size)) { ... data += k * size; }] *)
Definition add_bit (v : version) (k : nat) (m : mbuf) (mlen : Z) (s : Z * Z) : res (Z * Z) :=
  let '(data, partial) := s in
  let n := Z.of_nat k * size v in
  if mlen .& n =? 0 then Ok (data, partial)
  else partial ← add_words v k m data partial; Ok (data + n, partial).

(** [if (mlen & 2)] of the 64-bit version, whose operand is a [uint16_t]. *)
Definition add_half (m : mbuf) (mlen : Z) (s : Z * Z) : res (Z * Z) :=
  let '(data, partial) := s in
  if mlen .& 2 =? 0 then Ok (data, partial)
  else w ← load16 m data; Ok (data + 2, acc Portable64 (partial + w)).

(** The tests of the bits of [mlen], which say what remains. *)
Definition cksum_bits (v : version) (m : mbuf) (mlen : Z) (s : Z * Z) : res (Z * Z) :=
  s ← add_bit v 8 m mlen s;
  s ← add_bit v 4 m mlen s;
  s ← add_bit v 2 m mlen s;
  s ← add_bit v 1 m mlen s;
  match v with Portable32 => Ok s | Portable64 => add_half m mlen s end.

(** The blocks and the bits, up to [trailing_bytes]. *)
Definition cksum_aligned (v : version) (m : mbuf) (needs_swap : bool)
    (data mlen partial sum : Z) : res (Z * Z * Z * Z) :=
  '(data, mlen, partial, sum) ←
    cksum_blocks v (S (Z.to_nat mlen)) m needs_swap data mlen partial sum;
  '(data, partial) ← cksum_bits v m mlen (data, partial);
  Ok (data, mlen, partial, sum).

(** The second alignment step, of the 64-bit version alone. *)
Definition cksum_operands (v : version) (m : mbuf) (needs_swap : bool)
    (data mlen partial sum : Z) : res (Z * Z * Z * Z) :=
  match v with
  | Portable32 => cksum_aligned v m needs_swap data mlen partial sum
  | Portable64 =>
      if negb ((m_data m + data) .& 2 =? 0) then
        if mlen <? 2 then Ok (data, mlen, partial, sum)    (* goto trailing_bytes *)
        else
          w ← load16 m data;
          cksum_aligned v m needs_swap (data + 2) (mlen - 2) (acc v (partial + w)) sum
      else cksum_aligned v m needs_swap data mlen partial sum
  end.

(** The body of the second loop once [data] is even, from [needs_swap =
    started_on_odd] on; it returns [started_on_odd] and [sum]. *)
Definition cksum_even (v : version) (m : mbuf) (started_on_odd : bool)
    (data mlen partial sum : Z) : res (bool * Z) :=
  let needs_swap : bool := started_on_odd in
  '(data, mlen, partial, sum) ← cksum_operands v m needs_swap data mlen partial sum;
  (* trailing_bytes *)
  '(started_on_odd, partial) ←
    (if negb (mlen .& 1 =? 0) then
       b ← load8 m data;
       Ok (negb started_on_odd, acc v (partial + (if big_endian then Z.shiftl b 8 else b)))
     else Ok (started_on_odd, partial));
  let partial := if needs_swap then swap v partial else partial in
  let sum := acc v (sum + (hi v partial + lo v partial)) in
  let sum := acc v (hi v sum + lo v sum) in
  Ok (started_on_odd, sum).

(** The body of the second loop, from [post_initial_offset]; it returns [len],
    [started_on_odd] and [sum]. *)
Definition cksum_mbuf (v : version) (m : mbuf) (data mlen len : Z) (started_on_odd : bool)
    (sum : Z) : res (Z * bool * Z) :=
  if mlen =? 0 then Ok (len, started_on_odd, sum) else
  let mlen := if mlen >? len then len else mlen in
  let len := len - mlen in
  '(started_on_odd, sum) ←
    (if negb ((m_data m + data) .& 1 =? 0) then
       b ← load8 m data;
       let partial := if big_endian then b else Z.shiftl b 8 in
       cksum_even v m (negb started_on_odd) (data + 1) (mlen - 1) partial sum
     else cksum_even v m started_on_odd data mlen 0 sum);
  Ok (len, started_on_odd, sum).

(** The second loop; [None] is the return of -1. *)
Fixpoint cksum_loop (v : version) (m : list mbuf) (len : Z) (started_on_odd : bool)
    (sum : Z) : res (option Z) :=
  if len >? 0 then
    match m with
    | [] => Ok None
    | m0 :: next =>
        '(len, started_on_odd, sum) ← cksum_mbuf v m0 0 (m_len m0) len started_on_odd sum;
        cksum_loop v next len started_on_odd sum
    end
  else Ok (Some sum).

(** The first loop, which skips [off] bytes and enters the second. *)
Fixpoint cksum_skip (v : version) (m : list mbuf) (len off sum : Z) : res (option Z) :=
  match m with
  | [] => Ok None
  | m0 :: next =>
      let mlen := m_len m0 in
      if mlen >? off then
        '(len, started_on_odd, sum) ← cksum_mbuf v m0 off (mlen - off) len false sum;
        cksum_loop v next len started_on_odd sum
      else
        let off := off - mlen in
        if len =? 0 then cksum_loop v m len false sum
        else cksum_skip v next len off sum
  end.

(** [final_acc] and the value returned. *)
Definition final32 (sum : Z) : Z :=
  let final_acc := u32 ((Z.shiftr sum 16 .& 0xffff) + (sum .& 0xffff)) in
  let final_acc := u32 (Z.shiftr final_acc 16 + (final_acc .& 0xffff)) in
  Z.lnot final_acc .& 0xffff.

Definition final64 (sum : Z) : Z :=
  let final_acc := u32 (Z.shiftr sum 48 + (Z.shiftr sum 32 .& 0xffff)
                        + (Z.shiftr sum 16 .& 0xffff) + (sum .& 0xffff)) in
  let final_acc := u32 (Z.shiftr final_acc 16 + (final_acc .& 0xffff)) in
  let final_acc := u32 (Z.shiftr final_acc 16 + (final_acc .& 0xffff)) in
  Z.lnot final_acc .& 0xffff.

Definition cpu_in_cksum32 (m : list mbuf) (len off initial_sum : Z) : res Z :=
  if negb ((len >=? 0) && (off >=? 0)) then Fault Panic else
  r ← cksum_skip Portable32 m len off (Z.shiftr initial_sum 16 + (initial_sum .& 0xffff));
  Ok (match r with Some sum => final32 sum | None => -1 end).

Definition cpu_in_cksum64 (m : list mbuf) (len off initial_sum : Z) : res Z :=
  if negb ((len >=? 0) && (off >=? 0)) then Fault Panic else
  r ← cksum_skip Portable64 m len off initial_sum;
  Ok (match r with Some sum => final64 sum | None => -1 end).

Definition cpu_in_cksum (m : list mbuf) (len off initial_sum : Z) : res Z :=
  if long_is_32 then cpu_in_cksum32 m len off initial_sum
  else cpu_in_cksum64 m len off initial_sum.

Definition in_cksum (m : list mbuf) (len : Z) : res Z :=
  if negb (len >=? 0) then Fault Panic else cpu_in_cksum m len 0 0.

End cksum.

(** ** The pseudo headers *)

(** The sizes and offsets of [struct ip] and [struct ip6_hdr]. *)
Definition sizeof_ip : Z := 20.
Definition offsetof_ip_src : Z := 12.
Definition sizeof_ip6_hdr : Z := 40.
Definition offsetof_ip6_src : Z := 8.
Definition offsetof_ip6_dst : Z := 24.

(** The scope macros of netinet6/in6.h, on the sixteen bytes of an address. *)
Definition s6_addr (a : list Z) (i : nat) : Z := default 0 (a !! i).
Definition IN6_IS_ADDR_LINKLOCAL (a : list Z) : bool :=
  (s6_addr a 0 =? 0xfe) && (s6_addr a 1 .& 0xc0 =? 0x80).
Definition IN6_IS_ADDR_MULTICAST (a : list Z) : bool := s6_addr a 0 =? 0xff.
Definition IPV6_ADDR_MC_SCOPE (a : list Z) : Z := s6_addr a 1 .& 0x0f.
Definition IN6_IS_ADDR_MC_INTFACELOCAL (a : list Z) : bool :=
  IN6_IS_ADDR_MULTICAST a && (IPV6_ADDR_MC_SCOPE a =? 0x01).
Definition IN6_IS_ADDR_MC_LINKLOCAL (a : list Z) : bool :=
  IN6_IS_ADDR_MULTICAST a && (IPV6_ADDR_MC_SCOPE a =? 0x02).
Definition IN6_IS_SCOPE_LINKLOCAL (a : list Z) : bool :=
  IN6_IS_ADDR_LINKLOCAL a || IN6_IS_ADDR_MC_LINKLOCAL a.
Definition IN6_IS_SCOPE_EMBEDDABLE (a : list Z) : bool :=
  IN6_IS_SCOPE_LINKLOCAL a || IN6_IS_ADDR_MC_INTFACELOCAL a.

(** [in6_clearscope]: the address without its zone, and whether it changed. *)
Definition in6_clearscope (a : list Z) : list Z * bool :=
  if IN6_IS_SCOPE_LINKLOCAL a || IN6_IS_ADDR_MC_INTFACELOCAL a then
    (<[2%nat := 0]> (<[3%nat := 0]> a), negb ((s6_addr a 2 =? 0) && (s6_addr a 3 =? 0)))
  else (a, false).

Section pseudo.
Context `{Platform}.

(** The conversion of an [int] to [size_t]. *)
Definition size_t (z : Z) : Z := if long_is_32 then u32 z else u64 z.

(** The macro PANIC of in4_cksum.c. *)
Definition PANIC : res Z := if diagnostic then Fault Panic else Ok (-1).

(** The sum of the addresses, when they start at an odd address. *)
Definition in4_odd_words (m : mbuf) (w : Z) : res Z :=
  let w := w - 1 in
  w0 ← load16 m w; w1 ← load16 m (w + 2); w2 ← load16 m (w + 4);
  w3 ← load16 m (w + 6); w4 ← load16 m (w + 8);
  let partial := if big_endian then w0 .& 0x00ff else w0 .& 0xff00 in
  let partial := u32 (u32 (u32 (partial + w1) + w2) + w3) in
  Ok (u32 (partial + (if big_endian then w4 .& 0xff00 else w4 .& 0x00ff))).

Definition in4_cksum (m : list mbuf) (nxt off len : Z) : res Z :=
  match m with
  | [] => Fault NullDeref
  | m0 :: _ =>
      if size_t (m_len m0) <? sizeof_ip then PANIC else
      if nxt =? 0 then cpu_in_cksum m len off 0 else
      if size_t off <? sizeof_ip then PANIC else
      let sum := if big_endian then u32 ((len .& 0xffff) + nxt)
                 else u32 (Z.shiftl ((len .& 0xffff) + nxt) 8) in
      let w := offsetof_ip_src in
      if (m_data m0 + w) mod 2 =? 0 then
        w0 ← load16 m0 w; w1 ← load16 m0 (w + 2);
        w2 ← load16 m0 (w + 4); w3 ← load16 m0 (w + 6);
        cpu_in_cksum m len off (u32 (u32 (u32 (u32 (sum + w0) + w1) + w2) + w3))
      else
        partial ← in4_odd_words m0 w;
        cpu_in_cksum m len off (u32 (sum + u32 (Z.shiftl partial 8)))
  end.

(** [w[0]] to [w[7]] of an address, without [w[1]] if [skip1]. *)
Definition in6_addr_words (m : mbuf) (w : Z) (skip1 : bool) (sum : Z) : res Z :=
  w0 ← load16 m w; let sum := u32 (sum + w0) in
  sum ← (if negb skip1 then w1 ← load16 m (w + 2); Ok (u32 (sum + w1)) else Ok sum);
  w2 ← load16 m (w + 4); let sum := u32 (sum + w2) in
  w3 ← load16 m (w + 6); let sum := u32 (sum + w3) in
  w4 ← load16 m (w + 8); let sum := u32 (sum + w4) in
  w5 ← load16 m (w + 10); let sum := u32 (sum + w5) in
  w6 ← load16 m (w + 12); let sum := u32 (sum + w6) in
  w7 ← load16 m (w + 14); Ok (u32 (sum + w7)).

(** [n] bytes of memory from [d] on, as [memcpy] and the address macros read them. *)
Fixpoint read_bytes (m : mbuf) (d : Z) (n : nat) : res (list Z) :=
  match n with
  | O => Ok []
  | S n => b ← load8 m d; bs ← read_bytes m (d + 1) n; Ok (b :: bs)
  end.

(** The union [u] is an object of its own, aligned for its words: an address
    that is a multiple of four. *)
Definition in6_cksum (m : list mbuf) (nxt off len : Z) : res Z :=
  if nxt =? 0 then cpu_in_cksum m (s32 len) (s32 off) 0 else
  if off <? sizeof_ip6_hdr then Fault Panic else
  match m with
  | [] => Fault NullDeref
  | m0 :: _ =>
      if size_t (m_len m0) <? sizeof_ip6_hdr then Fault Panic else
      let lens := u32 (u32 ((len .& 0xffff) + (Z.shiftr len 16 .& 0xffff)) + nxt) in
      let sum := if big_endian then lens else u32 (Z.shiftl lens 8) in
      let w := offsetof_ip6_src in
      '(p, w) ← (if (m_data m0 + w) mod 2 =? 0 then Ok (m0, w)
                 else u ← read_bytes m0 w 32; Ok (Mbuf 0 32 u, 0));
      in6_src ← read_bytes p w 16;
      in6_dst ← read_bytes p (w + 16) 16;
      sum ← in6_addr_words p w (IN6_IS_SCOPE_EMBEDDABLE in6_src) sum;
      sum ← in6_addr_words p (w + 16) (IN6_IS_SCOPE_EMBEDDABLE in6_dst) sum;
      cpu_in_cksum m (s32 len) (s32 off) sum
  end.

(** ** Delayed checksums: the inline functions *)

(** Fold a 32-bit sum, as the three functions end. *)
Definition fold16 (sum : Z) : Z :=
  let sum := u16 (Z.shiftr sum 16) + u16 sum in
  u16 (if sum >? 0xffff then sum - 0xffff else sum).

Definition in_cksum_phdr (src dst lenproto : Z) : Z :=
  fold16 (u32 (lenproto + u16 (Z.shiftr src 16) + u16 src + u16 (Z.shiftr dst 16) + u16 dst)).

Definition in_cksum_addword (a b : Z) : Z :=
  let sum := u32 (a + b) in
  u16 (if sum >? 0xffff then sum - 0xffff else sum).

(** [src] and [dst] point to addresses of sixteen bytes, here mbufs. *)
Definition in6_cksum_phdr (src dst : mbuf) (len nxt : Z) : res Z :=
  a ← read_bytes src 0 16;
  sum ← in6_addr_words src 0 (IN6_IS_SCOPE_LINKLOCAL a) 0;
  b ← read_bytes dst 0 16;
  sum ← in6_addr_words dst 0 (IN6_IS_SCOPE_LINKLOCAL b) sum;
  let sum := u32 (sum + (u16 (Z.shiftr len 16) + u16 len)) in
  let sum := u32 (sum + (u16 (Z.shiftr nxt 16) + u16 nxt)) in
  Ok (fold16 sum).

End pseudo.
