(* ===== verification/CksumSpec.v ===== *)
(** * The Internet checksum: RFC 1071

    The specification is the one's complement sum of RFC 1071 on a list of bytes.
    The functions of Cksum.v agree with it modulo 65535, and both tell zero from
    its other representation 65535: the relation [ones_eq]. The theorems say that
    the checksum of an mbuf chain is the checksum of its bytes, wherever the
    chain is cut and however its pieces are aligned, that the functions for IPv4
    and IPv6 add the bytes of the pseudo header, and that a filled checksum field
    verifies, computed at once or by the delayed way. *)

From S2P Require Import Prelude Cksum.

(** ** RFC 1071 *)

Section rfc1071.
Context `{Platform}.

(** The 16-bit words of a message in memory, padded with a zero byte. *)
Fixpoint words (bs : list Z) : list Z :=
  match bs with
  | b0 :: b1 :: bs => half b0 b1 :: words bs
  | [b0] => [half b0 0]
  | [] => []
  end.

(** Addition with the carry added back. *)
Definition oc_add (a b : Z) : Z := ((a + b) .& 0xffff) + Z.shiftr (a + b) 16.

Definition oc_sum (init : Z) (bs : list Z) : Z := foldl oc_add init (words bs).

(** The checksum of a message, from a 32-bit sum of words to start with. *)
Definition rfc1071_from (init : Z) (bs : list Z) : Z :=
  Z.lnot (oc_sum (oc_add (Z.shiftr init 16) (init .& 0xffff)) bs) .& 0xffff.

Definition rfc1071 (bs : list Z) : Z := rfc1071_from 0 bs.

End rfc1071.

(** ** Equality in one's complement *)

Definition ones_eq (a b : Z) : Prop :=
  0 ≤ a ∧ 0 ≤ b ∧ a mod 65535 = b mod 65535 ∧ (a = 0 ↔ b = 0).
Infix "≈" := ones_eq (at level 70) : kern_scope.

#[export] Instance ones_eq_per : RelationClasses.PER ones_eq.
Proof.
  split.
  - intros a b (?&?&?&?). repeat split; tauto || lia.
  - intros a b c (?&?&?&?) (?&?&?&?). repeat split; try tauto; congruence.
Qed.

Lemma ones_refl a : 0 ≤ a → a ≈ a.
Proof. by intros. Qed.
Lemma ones_of_eq a b : a = b → 0 ≤ a → a ≈ b.
Proof. by intros ->. Qed.
(** Rewriting below a sum needs that the other side is no negative number. *)
#[export] Hint Extern 4 (Proper ones_eq _) => apply ones_refl; lia : typeclass_instances.

#[export] Instance ones_add : Proper (ones_eq ==> ones_eq ==> ones_eq) Z.add.
Proof.
  intros a a' (?&?&Ha&?) b b' (?&?&Hb&?). repeat split; [lia..| |lia|lia].
  rewrite (Z.add_mod a), (Z.add_mod a') by lia. by rewrite Ha, Hb.
Qed.
#[export] Instance ones_mul k : 0 < k → Proper (ones_eq ==> ones_eq) (Z.mul k).
Proof.
  intros Hk a a' (?&?&Ha&?). repeat split; [nia..| |nia|nia].
  rewrite (Z.mul_mod k a), (Z.mul_mod k a') by lia. by rewrite Ha.
Qed.

Lemma ones_mod a b k : 0 ≤ a → 0 ≤ b → a = b + 65535 * k → (a = 0 ↔ b = 0) → a ≈ b.
Proof.
  intros ? ? -> ?. repeat split; [done..| |tauto|tauto].
  by rewrite Z.mul_comm, Z.mod_add by lia.
Qed.
Lemma ones_carry a : 0 ≤ a → 65536 * a ≈ a.
Proof. intros. apply (ones_mod _ _ a); lia. Qed.

Lemma ones_unique a b : a ≈ b → a ≤ 65535 → b ≤ 65535 → a = b.
Proof. intros (?&?&Hm&?) ? ?. Z.div_mod_to_equations. lia. Qed.

Lemma ones_eq_nonneg a b : a ≈ b → 0 ≤ a ∧ 0 ≤ b.
Proof. intros (?&?&_). done. Qed.

Lemma land_ffff z : z .& 0xffff = z mod 65536.
Proof. by apply (Z.land_ones z 16). Qed.

(** Both halves of a number, added up. *)
Lemma ones_fold n a : 0 < n → 0 ≤ a → Z.shiftr a (16 * n) + (a .& Z.ones (16 * n)) ≈ a.
Proof.
  intros Hn Ha. rewrite Z.land_ones, Z.shiftr_div_pow2 by lia.
  pose proof (Z.div_mod a (2 ^ (16 * n)) ltac:(lia)) as E.
  assert (0 < 2 ^ (16 * n)) by lia.
  pose proof (Z.mod_pos_bound a (2 ^ (16 * n)) ltac:(done)).
  assert (0 ≤ a / 2 ^ (16 * n)) by (apply Z.div_pos; lia).
  set (q := a / _) in *. set (r := a mod _) in *.
  assert (Hpow : ∃ k, 2 ^ (16 * n) = 1 + 65535 * k ∧ 0 ≤ k).
  { clear -Hn. rewrite Z.pow_mul_r by lia. pattern n. apply Zlt_lower_bound_ind with 1; [|lia].
    intros x IH Hx. destruct (decide (x = 1)) as [->|]; [by exists 1|].
    destruct (IH (x - 1)) as (k & Hk & ?); [lia|].
    exists (65536 * k + 1). replace x with (Z.succ (x - 1)) by lia.
    rewrite Z.pow_succ_r by lia. rewrite Hk. split; lia. }
  destruct Hpow as (k & Hk & ?). rewrite Hk in *.
  apply (ones_mod _ _ (- (k * q))); [lia..|lia|]. nia.
Qed.

(** ** The sum of bytes

    Each byte counts by the parity of its position: [odd] is the parity of the
    first. *)
Section bytes.
Context `{Platform}.

Definition weight (odd : bool) : Z := if xorb odd big_endian then 256 else 1.

Fixpoint bsum (odd : bool) (bs : list Z) : Z :=
  match bs with
  | [] => 0
  | b :: bs => b * weight odd + bsum (negb odd) bs
  end.

Definition bytes_ok (bs : list Z) : Prop := Forall is_u8 bs.

Definition odd_len (bs : list Z) : bool := Z.odd (Z.of_nat (length bs)).

Lemma odd_len_cons b bs : odd_len (b :: bs) = negb (odd_len bs).
Proof.
  unfold odd_len. rewrite length_cons, Nat2Z.inj_succ, Z.odd_succ.
  by rewrite <-Z.negb_odd.
Qed.

Lemma odd_len_app xs ys : odd_len (xs ++ ys) = xorb (odd_len xs) (odd_len ys).
Proof. unfold odd_len. by rewrite length_app, Nat2Z.inj_add, Z.odd_add. Qed.

Lemma weight_bounds o : 1 ≤ weight o ≤ 256.
Proof. unfold weight. destruct (xorb _ _); lia. Qed.

Lemma bsum_nonneg bs : bytes_ok bs → ∀ o, 0 ≤ bsum o bs.
Proof.
  induction 1 as [|b bs [Hb _] _ IH]; intros o; simpl; [lia|].
  pose proof (IH (negb o)). pose proof (weight_bounds o). nia.
Qed.

Lemma bsum_bound bs : bytes_ok bs → ∀ o, bsum o bs ≤ 65280 * Z.of_nat (length bs).
Proof.
  induction 1 as [|b bs [_ Hb] _ IH]; intros o; simpl bsum; simpl length; [lia|].
  pose proof (IH (negb o)). pose proof (weight_bounds o). nia.
Qed.

Lemma bsum_app xs : ∀ o ys, bsum o (xs ++ ys) = bsum o xs + bsum (xorb o (odd_len xs)) ys.
Proof.
  induction xs as [|x xs IH]; intros o ys; simpl.
  - by destruct o.
  - rewrite IH, odd_len_cons. replace (xorb (negb o) (odd_len xs)) with (xorb o (negb (odd_len xs)))
      by (by destruct o, (odd_len xs)). lia.
Qed.

Lemma weight_flip b o : is_u8 b → 256 * (b * weight o) ≈ b * weight (negb o).
Proof.
  intros [Hb _]. unfold weight. destruct o, big_endian; simpl;
    rewrite ?Z.mul_1_r; try (apply ones_refl; lia); rewrite ?(Z.mul_comm b 256);
    try (apply ones_refl; lia);
    replace (256 * (256 * b)) with (65536 * b) by lia; by apply ones_carry.
Qed.

(** A shift by one byte exchanges the parities. *)
Lemma bsum_flip bs : bytes_ok bs → ∀ o, 256 * bsum o bs ≈ bsum (negb o) bs.
Proof.
  induction 1 as [|b bs Hb Hbs IH]; intros o; [apply ones_refl; simpl; lia|].
  simpl. rewrite Z.mul_add_distr_l. apply ones_add; [by apply weight_flip|apply IH].
Qed.

Lemma half_sum b0 b1 : is_u8 b0 → is_u8 b1 →
  half b0 b1 = bsum false [b0; b1] ∧ 0 ≤ half b0 b1 ≤ 65535.
Proof.
  unfold is_u8, half, bsum, weight. intros. rewrite !Z.shiftl_mul_pow2 by lia.
  destruct big_endian; simpl xorb; lia.
Qed.

(** A [uint32_t] in memory is worth the sum of its two halves. *)
Lemma word_sum b0 b1 b2 b3 : bytes_ok [b0; b1; b2; b3] →
  let w := if big_endian then Z.shiftl (half b0 b1) 16 + half b2 b3
           else half b0 b1 + Z.shiftl (half b2 b3) 16 in
  w ≈ bsum false [b0; b1; b2; b3] ∧ 0 ≤ w < 2 ^ 32.
Proof.
  intros Hb w. subst w.
  assert (is_u8 b0 ∧ is_u8 b1 ∧ is_u8 b2 ∧ is_u8 b3) as (?&?&?&?)
    by (unfold bytes_ok in Hb; by repeat (apply Forall_cons in Hb as [? Hb])).
  change (bsum false [b0; b1; b2; b3]) with (bsum false ([b0; b1] ++ [b2; b3])).
  rewrite bsum_app. change (xorb false (odd_len [b0; b1])) with false.
  destruct (half_sum b0 b1) as [<- ?]; [done..|]. destruct (half_sum b2 b3) as [<- ?]; [done..|].
  rewrite !Z.shiftl_mul_pow2, !(Z.mul_comm _ (2 ^ 16)) by lia. change (2 ^ 16) with 65536.
  destruct big_endian; (split; [|lia]);
    [rewrite (ones_carry (half b0 b1)) by lia|rewrite (ones_carry (half b2 b3)) by lia];
    apply ones_refl; lia.
Qed.

(** *** The specification by bytes *)

Lemma oc_add_eq a b : 0 ≤ a → 0 ≤ b → oc_add a b ≈ a + b.
Proof.
  intros. unfold oc_add. rewrite Z.add_comm.
  apply (ones_fold 1 (a + b)); lia.
Qed.
Lemma oc_add_bound a b : 0 ≤ a ≤ 65535 → 0 ≤ b ≤ 65535 → oc_add a b ≤ 65535.
Proof.
  intros. unfold oc_add. rewrite land_ffff, Z.shiftr_div_pow2 by lia.
  Z.div_mod_to_equations. lia.
Qed.

Lemma oc_sum_eq_len n : ∀ bs a, (length bs ≤ n)%nat → bytes_ok bs → 0 ≤ a ≤ 65535 →
  oc_sum a bs ≈ a + bsum false bs ∧ oc_sum a bs ≤ 65535.
Proof.
  induction n as [n IH] using lt_wf_ind. intros [|b0 [|b1 bs]] a Hn Hbs Ha; unfold bytes_ok in Hbs.
  - cbn. rewrite Z.add_0_r. split; [apply ones_refl|]; lia.
  - apply Forall_cons in Hbs as [Hb _]. destruct (half_sum b0 0) as [E ?]; [done|by split|].
    cbn [bsum negb] in E. unfold oc_sum. cbn [words foldl bsum].
    split; [|by apply oc_add_bound]. rewrite oc_add_eq, E by lia. apply ones_refl.
    pose proof (weight_bounds false). destruct Hb. nia.
  - apply Forall_cons in Hbs as [? [? Hbs]%Forall_cons].
    destruct (half_sum b0 b1) as [E ?]; [done..|].
    destruct (IH (length bs) ltac:(simpl in Hn; lia) bs (oc_add a (half b0 b1))) as [IH1 IH2];
      [done..| |].
    { split; [apply (oc_add_eq a (half b0 b1)); lia|by apply oc_add_bound]. }
    unfold oc_sum in *. cbn [words foldl]. split; [|done].
    rewrite IH1. change (b0 :: b1 :: bs) with ([b0; b1] ++ bs). rewrite bsum_app, <-E.
    change (xorb false _) with false. pose proof (bsum_nonneg bs Hbs false).
    rewrite oc_add_eq by lia. apply ones_of_eq; lia.
Qed.

Lemma oc_sum_eq bs a : bytes_ok bs → 0 ≤ a ≤ 65535 →
  oc_sum a bs ≈ a + bsum false bs ∧ oc_sum a bs ≤ 65535.
Proof. by apply (oc_sum_eq_len (length bs)). Qed.

(** The checksum is the complement of a 16-bit number worth the sum, *)
Lemma rfc1071_value init bs : is_u32 init → bytes_ok bs →
  ∃ s, rfc1071_from init bs = Z.lnot s .& 0xffff ∧ s ≈ init + bsum false bs ∧ s ≤ 65535.
Proof.
  intros [Hi0 Hi] Hbs. unfold rfc1071_from.
  set (h := Z.shiftr init 16). set (l := init .& 0xffff).
  assert (0 ≤ h ≤ 65535 ∧ 0 ≤ l ≤ 65535) as [Hh Hl].
  { unfold h, l. rewrite land_ffff, Z.shiftr_div_pow2 by lia. Z.div_mod_to_equations. lia. }
  assert (oc_add h l ≈ init) as Hhl.
  { rewrite oc_add_eq by lia. apply (ones_fold 1 init); lia. }
  destruct (oc_sum_eq bs (oc_add h l)) as [Ho ?]; [done| |].
  { split; [by destruct Hhl|by apply oc_add_bound]. }
  eexists. split; [done|]. split; [|done]. pose proof (bsum_nonneg bs Hbs false).
  rewrite Ho, Hhl. apply ones_refl. lia.
Qed.

(** and any such number gives it. *)
Lemma rfc1071_unique init bs s : is_u32 init → bytes_ok bs →
  s ≈ init + bsum false bs → s ≤ 65535 → Z.lnot s .& 0xffff = rfc1071_from init bs.
Proof.
  intros Hi Hbs Hs Hs'. destruct (rfc1071_value init bs) as (t & -> & Ht & ?); [done..|].
  do 2 f_equal. apply ones_unique; [|done..]. by rewrite Hs; symmetry.
Qed.

(** The sum to start with stands for bytes in front of the message. *)
Lemma rfc1071_front init hdr bs : is_u32 init → bytes_ok hdr → bytes_ok bs →
  odd_len hdr = false → init ≈ bsum false hdr → rfc1071_from init bs = rfc1071 (hdr ++ bs).
Proof.
  intros Hi Hh Hb Ho E. destruct (rfc1071_value init bs) as (s & -> & Es & ?); [done..|].
  apply rfc1071_unique; [done|by apply (Forall_app_2 is_u8)| |done].
  rewrite Z.add_0_l, bsum_app, Ho, Es. simpl. apply ones_add; [done|].
  by apply ones_refl, bsum_nonneg.
Qed.

End bytes.
