(* ===== verification/CksumChain.v ===== *)
(** * The Internet checksum of an mbuf chain

    [cpu_in_cksum] against the specification of CksumSpec.v: the loads, the runs
    of operands between two alignments, one mbuf, and the chain.  A call for no
    bytes is a case of its own, right only at an even address ([len0_ok]). *)

From S2P Require Import Prelude Cksum CksumSpec.

Lemma mod_step a n s : 0 < s → a mod s = 0 → n mod s = 0 → (a + n) mod s = 0.
Proof. intros Hs Ha Hn. rewrite Z.add_mod, Ha, Hn by lia. apply Z.mod_0_l. lia. Qed.

(** ** Accumulators *)

Lemma width_size v : width v = 16 * size v.
Proof. by destruct v. Qed.
Lemma size_pos v : 0 < size v.
Proof. by destruct v. Qed.

(** The bounds of a half and of a whole accumulator. *)
Definition half_max (v : version) : Z := 2 ^ (width v / 2).

Lemma half_max_sq v : 2 ^ width v = half_max v * half_max v.
Proof. by destruct v. Qed.

Lemma acc_small v z : 0 ≤ z < 2 ^ width v → acc v z = z.
Proof. apply Z.mod_small. Qed.

Lemma hi_lo_eq v z : 0 ≤ z → hi v z + lo v z ≈ z.
Proof. intros. destruct v; [by apply (ones_fold 1 z)|by apply (ones_fold 2 z)]. Qed.

Lemma hi_lo_bounds v z : 0 ≤ z < 2 ^ width v →
  0 ≤ hi v z < half_max v ∧ 0 ≤ lo v z < half_max v.
Proof.
  unfold hi, lo, half_max. rewrite Z.land_ones, Z.shiftr_div_pow2 by by destruct v.
  intros Hz. destruct v; [change (width _ / 2) with 16|change (width _ / 2) with 32];
    cbn [width] in *; Z.div_mod_to_equations; lia.
Qed.

(** The rotation is a multiplication by 256. *)
Lemma swap_eq v z : 0 ≤ z < 2 ^ width v → swap v z ≈ 256 * z ∧ 0 ≤ swap v z < 2 ^ width v.
Proof.
  unfold swap. intros Hz. rewrite Z.shiftl_mul_pow2, Z.shiftr_div_pow2 by (by destruct v).
  rewrite (acc_small _ (acc _ _ + _)); unfold acc.
  - destruct v; cbn [width] in *.
    + split; [|Z.div_mod_to_equations; lia].
      apply (ones_mod _ _ (- (65537 * (z / 2 ^ 24)))); Z.div_mod_to_equations; lia.
    + split; [|Z.div_mod_to_equations; lia].
      apply (ones_mod _ _ (- (281479271743489 * (z / 2 ^ 56)))); Z.div_mod_to_equations; lia.
  - destruct v; cbn [width] in *; Z.div_mod_to_equations; lia.
Qed.
Lemma sub_swap_eq v (b : bool) z : 0 ≤ z < 2 ^ width v →
  (if b then swap v z else z) ≈ (if b then 256 * z else z) ∧
  0 ≤ (if b then swap v z else z) < 2 ^ width v.
Proof. intros Hz. destruct b; [by apply swap_eq|]. split; [apply ones_refl; lia|done]. Qed.

(** ** Memory *)

Definition at_ (m : mbuf) (d : Z) (bs : list Z) : Prop :=
  0 ≤ d ∧ bs `prefix_of` drop (Z.to_nat d) (m_store m).

Lemma at_app m d xs ys :
  at_ m d (xs ++ ys) ↔ at_ m d xs ∧ at_ m (d + Z.of_nat (length xs)) ys.
Proof.
  unfold at_. split.
  - intros [Hd [zs E]]. rewrite <-app_assoc in E.
    split; (split; [lia|]); [by exists (ys ++ zs)|].
    rewrite Z2Nat.inj_add, Nat2Z.id, <-drop_drop, E, drop_app_length by lia. by exists zs.
  - intros [[Hd [zs E]] [_ [ws E']]]. split; [done|]. exists ws.
    rewrite Z2Nat.inj_add, Nat2Z.id, <-drop_drop, E, drop_app_length in E' by lia.
    by rewrite E, E', app_assoc.
Qed.
Lemma at_cons m d x xs : at_ m d (x :: xs) ↔ load8 m d = Ok x ∧ at_ m (d + 1) xs.
Proof.
  change (x :: xs) with ([x] ++ xs). rewrite at_app. change (Z.of_nat (length [x])) with 1.
  apply and_iff_compat_r. unfold at_, load8. rewrite get_Ok. apply and_iff_compat_l.
  rewrite <-(Nat.add_0_r (Z.to_nat d)) at 2. rewrite <-lookup_drop.
  destruct (drop _ _) as [|y ys]; simpl; split.
  - by intros [? ?].
  - done.
  - by intros [zs [= -> _]].
  - intros [= ->]. by exists ys.
Qed.

Section loads.
Context `{Platform}.

Lemma load16_ok m d b0 b1 : at_ m d [b0; b1] → (m_data m + d) mod 2 = 0 →
  load16 m d = Ok (half b0 b1).
Proof.
  intros [H0 [H1 _]%at_cons]%at_cons Hal. unfold load16. rewrite Hal, Z.eqb_refl, H0, Ok_bind.
  by rewrite H1, Ok_bind.
Qed.

Lemma load32_ok m d b0 b1 b2 b3 : at_ m d [b0; b1; b2; b3] → (m_data m + d) mod 4 = 0 →
  load32 m d = Ok (if big_endian then Z.shiftl (half b0 b1) 16 + half b2 b3
                   else half b0 b1 + Z.shiftl (half b2 b3) 16).
Proof.
  intros [H0 [H1 [H2 [H3 _]%at_cons]%at_cons]%at_cons]%at_cons Hal.
  rewrite <-Z.add_assoc in H2. rewrite <-!Z.add_assoc in H3. unfold load32.
  change (1 + 1) with 2 in H2. change (1 + (1 + 1)) with 3 in H3.
  by rewrite Hal, Z.eqb_refl, H0, Ok_bind, H1, Ok_bind, H2, Ok_bind, H3, Ok_bind.
Qed.

(** One operand, and its value as bytes. *)
Lemma load_ok v m d bs : at_ m d bs → bytes_ok bs → Z.of_nat (length bs) = size v →
  (m_data m + d) mod size v = 0 →
  ∃ w, load v m d = Ok w ∧ w ≈ bsum false bs ∧ 0 ≤ w < half_max v.
Proof.
  intros Hat Hok Hlen Hal. destruct v; simpl in Hlen.
  - destruct bs as [|b0 [|b1 [|]]]; try (simpl in Hlen; lia).
    eexists. split; [by apply load16_ok|]. unfold bytes_ok in Hok.
    apply Forall_cons in Hok as [? [? _]%Forall_cons].
    destruct (half_sum b0 b1) as [<- ?]; [done..|].
    split; [apply ones_refl; lia|change (half_max _) with 65536; lia].
  - destruct bs as [|b0 [|b1 [|b2 [|b3 [|]]]]]; try (simpl in Hlen; lia).
    eexists. split; [by apply load32_ok|]. by apply word_sum.
Qed.

(** ** Runs of operands

    From [d] to [d'], whose bytes [bs] a run has added to [p], by at most [c]. *)
Definition ran (m : mbuf) (d : Z) (bs : list Z) (p d' p' c : Z) : Prop :=
  d' = d + Z.of_nat (length bs) ∧ p' ≈ p + bsum false bs ∧ p ≤ p' ≤ p + c.

Lemma odd_len_mult bs s : (2 | s) → Z.of_nat (length bs) mod s = 0 → s ≠ 0 → odd_len bs = false.
Proof.
  intros [k ->] Hm Hs. unfold odd_len. apply Z.mod_divide in Hm as [q Hq]; [|done].
  rewrite Hq, Z.mul_assoc, Z.odd_mul. by rewrite andb_false_r.
Qed.

Lemma ran_app m d xs ys p d' p' d'' p'' c c' :
  odd_len xs = false → bytes_ok xs → bytes_ok ys →
  ran m d xs p d' p' c → ran m d' ys p' d'' p'' c' → 0 ≤ p →
  ran m d (xs ++ ys) p d'' p'' (c + c').
Proof.
  intros Ho Hxs Hys (-> & E & ?) (-> & E' & ?) Hp. split; [rewrite length_app; lia|].
  split; [|lia]. rewrite bsum_app, Ho, E', Z.add_assoc. simpl.
  pose proof (bsum_nonneg xs Hxs false). pose proof (bsum_nonneg ys Hys false).
  rewrite E. apply ones_refl. lia.
Qed.

Lemma add_words_ok v m : ∀ k bs d p,
  at_ m d bs → bytes_ok bs → Z.of_nat (length bs) = Z.of_nat k * size v →
  (m_data m + d) mod size v = 0 → 0 ≤ p →
  p + Z.of_nat k * half_max v ≤ 2 ^ width v →
  ∃ p', add_words v k m d p = Ok p' ∧
    ran m d bs p (d + Z.of_nat k * size v) p' (Z.of_nat k * half_max v).
Proof.
  pose proof (size_pos v). assert (0 < half_max v) by (by destruct v).
  induction k as [|k IH]; intros bs d p Hat Hok Hlen Hal Hp Hb.
  - destruct bs; [|simpl in Hlen; lia]. exists p. split; [done|].
    split; [simpl; lia|]. split; [|lia]. simpl. rewrite Z.add_0_r. by apply ones_refl.
  - rewrite <-(take_drop (Z.to_nat (size v)) bs) in Hat, Hok |- *.
    set (xs := take _ bs) in *. set (ys := drop _ bs) in *.
    assert (Z.of_nat (length xs) = size v) as Hx
      by (unfold xs; rewrite length_take; nia).
    assert (Z.of_nat (length ys) = Z.of_nat k * size v) as Hy
      by (unfold ys; rewrite length_drop; nia).
    apply at_app in Hat as [Hax Hay]. apply Forall_app in Hok as [Hox Hoy]. rewrite Hx in Hay.
    destruct (load_ok v m d xs) as (w & Hw & Ew & ?); [done..|].
    assert (p + w < 2 ^ width v) by nia.
    destruct (IH ys (d + size v) (p + w)) as (p' & E & R); [done..| | |nia|].
    { rewrite Z.add_assoc. apply mod_step; [done..|]. apply Z.mod_same. lia. }
    { lia. }
    exists p'. split; [cbn [add_words]; rewrite Hw, Ok_bind, acc_small by lia; done|].
    replace (Z.of_nat (S k) * half_max v) with (half_max v + Z.of_nat k * half_max v) by lia.
    replace (d + _) with (d + size v + Z.of_nat k * size v) by lia.
    eapply ran_app; [|done|done| |exact R|done].
    { apply (odd_len_mult _ (size v)); [by destruct v; [exists 1|exists 2]| |lia].
      by rewrite Hx, Z.mod_same by lia. }
    split; [lia|]. split; [|lia]. apply ones_add; [by apply ones_refl|done].
Qed.

(** *** The bits of the length *)

Lemma land_pow2 z j : 0 ≤ j →
  z mod (2 * 2 ^ j) = z mod 2 ^ j + (if z .& 2 ^ j =? 0 then 0 else 2 ^ j).
Proof.
  intros Hj. rewrite (Z.mul_comm 2), Z.rem_mul_r by lia. f_equal.
  assert (z .& 2 ^ j = if Z.testbit z j then 2 ^ j else 0) as ->.
  { apply Z.bits_inj'. intros i Hi. rewrite Z.land_spec, Z.pow2_bits_eqb by lia.
    destruct (Z.eqb_spec j i) as [->|Hne].
    - rewrite andb_true_r. destruct (Z.testbit z i) eqn:E.
      + by rewrite Z.pow2_bits_true.
      + by rewrite Z.testbit_0_l.
    - rewrite andb_false_r. destruct (Z.testbit z j); [by rewrite Z.pow2_bits_false|].
      by rewrite Z.testbit_0_l. }
  rewrite <-Z.testbit_spec' by done. destruct (Z.testbit z j); simpl Z.b2z.
  - rewrite (proj2 (Z.eqb_neq (2 ^ j) 0)); lia.
  - rewrite Z.eqb_refl. lia.
Qed.

(** A test either takes its operands off the front of the rest or nothing. *)
Definition bit_step (m : mbuf) (s : Z) (n c : Z) (d p : Z) (rest : list Z) (mlen : Z)
    (r : res (Z * Z)) : Prop :=
  ∃ xs ys p', rest = xs ++ ys ∧ r = Ok (d + Z.of_nat (length xs), p') ∧
    ran m d xs p (d + Z.of_nat (length xs)) p' c ∧
    Z.of_nat (length xs) mod s = 0 ∧ Z.of_nat (length ys) = mlen mod n.

Lemma bit_step_skip m s n c d p rest mlen :
  0 ≤ p → 0 ≤ c → 0 < s → Z.of_nat (length rest) = mlen mod n →
  bit_step m s n c d p rest mlen (Ok (d, p)).
Proof.
  intros ? ? Hs ?. exists [], rest, p. split; [done|]. simpl. rewrite Z.add_0_r.
  split; [done|]. split; [|split; [apply Z.mod_0_l; lia|done]].
  split; [simpl; lia|]. split; [|lia]. simpl. rewrite Z.add_0_r. by apply ones_refl.
Qed.

Lemma add_bit_ok v m k j d rest p mlen :
  at_ m d rest → bytes_ok rest → Z.of_nat k * size v = 2 ^ j → 0 ≤ j →
  Z.of_nat (length rest) = mlen mod (2 * 2 ^ j) →
  (m_data m + d) mod size v = 0 → 0 ≤ p →
  p + Z.of_nat k * half_max v ≤ 2 ^ width v →
  bit_step m (size v) (2 ^ j) (Z.of_nat k * half_max v) d p rest mlen
    (add_bit v k m mlen (d, p)).
Proof.
  intros Hat Hok Hk Hj Hlen Hal Hp Hb. rewrite land_pow2 in Hlen by done.
  pose proof (size_pos v). assert (0 < half_max v) by (by destruct v).
  unfold add_bit. rewrite Hk. case_bool; [apply bit_step_skip; lia|].
  pose proof (Z.mod_pos_bound mlen (2 ^ j) ltac:(lia)).
  rewrite <-(take_drop (Z.to_nat (2 ^ j)) rest) in Hat, Hok |- *.
  set (xs := take _ rest) in *. set (ys := drop _ rest) in *.
  assert (Z.of_nat (length xs) = 2 ^ j) as Hx by (unfold xs; rewrite length_take; lia).
  apply at_app in Hat as [Hax _]. apply Forall_app in Hok as [Hox _].
  destruct (add_words_ok v m k xs d p) as (p' & -> & R); [done|done|congruence|done|done|done|].
  rewrite Ok_bind, Hk in *. exists xs, ys, p'. rewrite Hx. split; [done|]. split; [done|].
  split; [done|]. rewrite <-Hk at 1. split; [apply Z.mod_mul; lia|].
  unfold ys. rewrite length_drop. lia.
Qed.

Lemma add_half_ok m d rest p mlen c :
  at_ m d rest → bytes_ok rest → Z.of_nat (length rest) = mlen mod 4 →
  (m_data m + d) mod 2 = 0 → 0 ≤ p → 65536 ≤ c → p + c ≤ 2 ^ 64 →
  bit_step m 2 2 c d p rest mlen (add_half m mlen (d, p)).
Proof.
  intros Hat Hok Hlen Hal Hp Hc Hb. pose proof (land_pow2 mlen 1 ltac:(lia)) as Hm.
  change (2 * 2 ^ 1) with 4 in Hm. change (2 ^ 1) with 2 in Hm.
  rewrite Hm in Hlen. unfold add_half. case_bool; [apply bit_step_skip; lia|].
  pose proof (Z.mod_pos_bound mlen 2 ltac:(lia)).
  destruct rest as [|b0 [|b1 ys]]; try (simpl in Hlen; lia).
  change (b0 :: b1 :: ys) with ([b0; b1] ++ ys) in *.
  apply at_app in Hat as [Hat _]. apply Forall_app in Hok as [Hok _].
  destruct (load_ok Portable32 m d [b0; b1]) as (w & Hw & Ew & Hb'); [done..|].
  change (half_max _) with 65536 in Hb'. change (load16 m d = Ok w) in Hw.
  rewrite Hw, Ok_bind, acc_small by (cbn [width]; lia).
  exists [b0; b1], ys, (p + w). split; [done|]. split; [done|].
  split; [|split; [done|rewrite length_app in Hlen; simpl in Hlen; lia]].
  split; [done|]. split; [|lia]. apply ones_add; [by apply ones_refl|done].
Qed.

Lemma bit_step_bind m s s' n n' c c' d p rest mlen r f :
  bit_step m s n c d p rest mlen r →
  at_ m d rest → bytes_ok rest → (2 | s') → (s' | s) → 0 < s' → 0 < s →
  (m_data m + d) mod s = 0 → 0 ≤ p →
  (∀ d' p' ys, at_ m d' ys → bytes_ok ys → Z.of_nat (length ys) = mlen mod n →
     (m_data m + d') mod s = 0 → p ≤ p' ≤ p + c →
     bit_step m s' n' c' d' p' ys mlen (f (d', p'))) →
  bit_step m s' n' (c + c') d p rest mlen (r ≫= f).
Proof.
  intros (xs & ys & p' & -> & -> & R & Hx & Hy) Hat Hok H2 Hss Hs' Hs Hal Hp Hf.
  apply at_app in Hat as [Hax Hay]. apply Forall_app in Hok as [Hox Hoy].
  rewrite Ok_bind.
  destruct (Hf (d + Z.of_nat (length xs)) p' ys) as (xs' & zs & p'' & -> & E & R' & Hx' & Hz);
    [done|done|done| |by destruct R as (_&_&?)|].
  { rewrite Z.add_assoc. by apply mod_step. }
  apply Forall_app in Hoy as [Hox' _].
  exists (xs ++ xs'), zs, p''. rewrite length_app, Nat2Z.inj_add, Z.add_assoc, <-app_assoc.
  split; [done|]. split; [done|]. split; [|split; [|done]].
  - eapply ran_app; [|done|done|exact R|exact R'|done].
    apply (odd_len_mult _ s); [by etrans|done|lia].
  - apply mod_step; [done| |done]. apply Z.mod_divide; [lia|].
    apply Z.mod_divide in Hx; [|lia]. by etrans.
Qed.

Lemma add_bit_bind v m k j d rest p mlen c' f :
  at_ m d rest → bytes_ok rest → Z.of_nat k * size v = 2 ^ j → 0 ≤ j →
  Z.of_nat (length rest) = mlen mod (2 * 2 ^ j) →
  (m_data m + d) mod size v = 0 → 0 ≤ p → 0 ≤ c' →
  p + (Z.of_nat k * half_max v + c') ≤ 2 ^ width v →
  (∀ d' p' ys, at_ m d' ys → bytes_ok ys → Z.of_nat (length ys) = mlen mod 2 ^ j →
     (m_data m + d') mod size v = 0 → 0 ≤ p' → p' + c' ≤ 2 ^ width v →
     bit_step m 2 2 c' d' p' ys mlen (f (d', p'))) →
  bit_step m 2 2 (Z.of_nat k * half_max v + c') d p rest mlen (add_bit v k m mlen (d, p) ≫= f).
Proof.
  intros Hat Hok Hk Hj Hlen Hal Hp Hc Hb Hf. pose proof (size_pos v).
  assert (0 < half_max v) by (by destruct v).
  eapply bit_step_bind; [apply (add_bit_ok v m k j); try done; lia|done|done|done| |
    done|done|done|done|].
  - by destruct v; [exists 1|exists 2].
  - intros d' p' ys ? ? ? ? ?. apply Hf; [done..|lia|lia].
Qed.

(** The bits together leave at most one byte. *)
Lemma cksum_bits_ok v m d rest p mlen :
  at_ m d rest → bytes_ok rest → Z.of_nat (length rest) = mlen mod (16 * size v) →
  (m_data m + d) mod size v = 0 → 0 ≤ p → p + 16 * half_max v ≤ 2 ^ width v →
  bit_step m 2 2 (16 * half_max v) d p rest mlen (cksum_bits v m mlen (d, p)).
Proof.
  intros Hat Hok Hlen Hal Hp Hb.
  assert (65536 ≤ half_max v) by (by destruct v). unfold cksum_bits.
  replace (16 * half_max v) with (Z.of_nat 8 * half_max v + (Z.of_nat 4 * half_max v
    + (Z.of_nat 2 * half_max v + (Z.of_nat 1 * half_max v + half_max v)))) in * by lia.
  apply (add_bit_bind v m 8 (3 + size v / 2)); try (done || lia || (destruct v; done || lia)).
  intros d1 p1 ys1 Hat1 Hok1 Hy1 Hal1 Hp1 Hb1.
  apply (add_bit_bind v m 4 (2 + size v / 2)); try (done || lia || (destruct v; done || lia)).
  intros d2 p2 ys2 Hat2 Hok2 Hy2 Hal2 Hp2 Hb2.
  apply (add_bit_bind v m 2 (1 + size v / 2)); try (done || lia || (destruct v; done || lia)).
  intros d3 p3 ys3 Hat3 Hok3 Hy3 Hal3 Hp3 Hb3.
  apply (add_bit_bind v m 1 (0 + size v / 2)); try (done || lia || (destruct v; done || lia)).
  intros d4 p4 ys4 Hat4 Hok4 Hy4 Hal4 Hp4 Hb4. destruct v.
  - apply bit_step_skip; done || lia.
  - apply add_half_ok; try done. apply Z.mod_divide; [done|].
    apply Z.mod_divide in Hal4; [|done]. etrans; [|exact Hal4]. by exists 2.
Qed.

(** *** The blocks *)

Lemma land_shiftl p c n : 0 ≤ n → p .& Z.shiftl c n = Z.shiftl (Z.shiftr p n .& c) n.
Proof.
  intros Hn. apply Z.bits_inj'. intros i Hi.
  rewrite Z.land_spec, !Z.shiftl_spec, Z.land_spec by lia.
  destruct (decide (i < n)).
  - by rewrite !(Z.testbit_neg_r _ (i - _)), andb_false_r by lia.
  - rewrite Z.shiftr_spec by lia. by replace (i - n + n) with i by lia.
Qed.

Lemma top_bits v p : 0 ≤ p < 2 ^ width v →
  (p .& Z.shiftl 3 (width v - 2) = 0 ↔ p < 2 ^ (width v - 2)).
Proof.
  intros Hp. assert (0 ≤ width v - 2) by (by destruct v).
  rewrite land_shiftl by done.
  rewrite Z.shiftl_mul_pow2, Z.shiftr_div_pow2 by done.
  rewrite (Z.land_ones _ 2 : _ → _ .& 3 = _) by done.
  destruct v; cbn [width] in *; Z.div_mod_to_equations; lia.
Qed.

(** What is left to fold into the sum after the swap. *)
Definition fac (b : bool) : Z := if b then 256 else 1.

Lemma fac_pos b : 0 < fac b.
Proof. by destruct b. Qed.
#[local] Instance ones_fac b : Proper (ones_eq ==> ones_eq) (Z.mul (fac b)).
Proof. apply ones_mul, fac_pos. Qed.
Lemma fac_nonneg b z : 0 ≤ z → 0 ≤ fac b * z.
Proof. pose proof (fac_pos b). nia. Qed.

Lemma swap_fac v (b : bool) z : 0 ≤ z < 2 ^ width v →
  (if b then swap v z else z) ≈ fac b * z ∧ 0 ≤ (if b then swap v z else z) < 2 ^ width v.
Proof.
  intros Hz. destruct b; unfold fac; [by apply swap_eq|].
  rewrite Z.mul_1_l. split; [apply ones_refl; lia|done].
Qed.

(** The weight of a sum and of the partial sum that waits: a reduction moves at
    most [2 * half_max] into the sum, and takes a quarter of the range of the
    partial sum. *)
Definition load_of (v : version) (p sum n : Z) : Z :=
  sum * 2 ^ (width v - 2) + 2 * half_max v * (p + half_max v * n).

(** A reduction. *)
Lemma reduce_ok v (b : bool) p sum : 0 ≤ p < 2 ^ width v → 0 ≤ sum →
  sum + 2 * half_max v ≤ 2 ^ width v →
  let q := if b then swap v p else p in
  let sum' := acc v (acc v (sum + hi v q) + lo v q) in
  sum' ≈ sum + fac b * p ∧ sum' ≤ sum + 2 * half_max v.
Proof.
  intros Hp Hs Hb q. destruct (swap_fac v b p) as [Eq Hq]; [done|]. fold q in Eq, Hq.
  destruct (hi_lo_bounds v q) as [??]; [done|].
  cbv zeta. rewrite (acc_small v (sum + _)), acc_small by lia. split; [|lia].
  rewrite <-Z.add_assoc, hi_lo_eq, Eq by lia. apply ones_refl.
  destruct b; unfold fac; lia.
Qed.

Ltac by_version v :=
  destruct v; unfold load_of, half_max in *; cbn [width size] in *;
  change (32 / 2) with 16 in *; change (64 / 2) with 32 in *; lia.

(** What the test at the end of a block makes of the sums. *)
Definition after_block (v : version) (ns : bool) (p sum : Z) : Z * Z :=
  if negb (p .& Z.shiftl 3 (width v - 2) =? 0) then
    (0, acc v (acc v (sum + hi v (if ns then swap v p else p))
           + lo v (if ns then swap v p else p)))
  else (p, sum).

Lemma after_block_ok v ns p p1 b sum n :
  0 ≤ p < 2 ^ (width v - 2) → p ≤ p1 ≤ p + 16 * half_max v → p1 ≈ p + b → 0 ≤ b →
  0 ≤ sum → 0 ≤ n →
  load_of v p sum (16 * size v + n) < 2 ^ (width v - 2) * 2 ^ (width v - 1) →
  let '(p2, sum2) := after_block v ns p1 sum in
  0 ≤ p2 < 2 ^ (width v - 2) ∧ 0 ≤ sum2 ∧
  load_of v p2 sum2 n ≤ load_of v p sum (16 * size v + n) ∧
  sum2 + fac ns * p2 ≈ sum + fac ns * p + fac ns * b.
Proof.
  intros Hp Hp1 Ep1 Hb Hs Hn Hl. assert (0 < fac ns) as Hf by (by destruct ns).
  assert (p1 < 2 ^ width v) by by_version v.
  assert (fac ns * p1 ≈ fac ns * p + fac ns * b) as Ef.
  { rewrite Ep1. apply ones_of_eq; nia. }
  unfold after_block. destruct (Z.eqb_spec (p1 .& Z.shiftl 3 (width v - 2)) 0) as [E|E].
  - apply top_bits in E; [|lia]. simpl. split; [lia|]. split; [done|].
    split; [by_version v|]. rewrite <-Z.add_assoc, <-Ef. apply ones_refl. nia.
  - rewrite top_bits in E by lia. simpl.
    destruct (reduce_ok v ns p1 sum) as [E2 B2]; [lia|done|by_version v|].
    cbv zeta in E2, B2. set (sum2 := acc v _) in *.
    split; [by destruct v|]. split; [by destruct E2|]. split; [by_version v|].
    rewrite Z.mul_0_r, Z.add_0_r, E2, <-Z.add_assoc, <-Ef. apply ones_refl. nia.
Qed.

Lemma cksum_blocks_ok v m ns : ∀ fuel bs d p sum,
  at_ m d bs → bytes_ok bs → (m_data m + d) mod size v = 0 →
  (length bs < fuel)%nat → 0 ≤ p < 2 ^ (width v - 2) → 0 ≤ sum →
  load_of v p sum (Z.of_nat (length bs)) < 2 ^ (width v - 2) * 2 ^ (width v - 1) →
  ∃ xs ys p' sum',
    bs = xs ++ ys ∧
    cksum_blocks v fuel m ns d (Z.of_nat (length bs)) p sum =
      Ok (d + Z.of_nat (length xs), Z.of_nat (length ys), p', sum') ∧
    Z.of_nat (length xs) mod (16 * size v) = 0 ∧
    Z.of_nat (length ys) < 16 * size v ∧
    0 ≤ p' < 2 ^ (width v - 2) ∧ 0 ≤ sum' ∧
    load_of v p' sum' (Z.of_nat (length ys)) ≤ load_of v p sum (Z.of_nat (length bs)) ∧
    sum' + fac ns * p' ≈ sum + fac ns * p + fac ns * bsum false xs.
Proof.
  pose proof (size_pos v) as Hsz.
  induction fuel as [|fuel IH]; intros bs d p sum Hat Hok Hal Hf Hp Hs Hl; [lia|].
  assert (0 < fac ns) by (by destruct ns).
  cbn [cksum_blocks]. destruct (Z.geb_spec (Z.of_nat (length bs)) (16 * size v)) as [Hge|Hlt].
  2:{ exists [], bs, p, sum. simpl length. rewrite Z.add_0_r.
      repeat (split; [done || lia|]). apply ones_of_eq; simpl; nia. }
  rewrite <-(take_drop (Z.to_nat (16 * size v)) bs) in Hat, Hok, Hl |- *.
  set (xs := take _ bs) in *. set (ys := drop _ bs) in *.
  assert (Z.of_nat (length xs) = 16 * size v) as Hx by (unfold xs; rewrite length_take; lia).
  assert (length ys < fuel)%nat as Hy by (unfold ys; rewrite length_drop; lia).
  rewrite length_app, Nat2Z.inj_add, Hx in Hl |- *.
  apply at_app in Hat as [Hax Hay]. apply Forall_app in Hok as [Hox Hoy]. rewrite Hx in Hay.
  destruct (add_words_ok v m 16 xs d p) as (p1 & -> & R); [done..|lia|by_version v|].
  destruct R as (_ & Ep1 & Hp1). change (Z.of_nat 16) with 16 in *.
  rewrite Ok_bind. replace (16 * size v + _ - _) with (Z.of_nat (length ys)) by lia.
  assert ((m_data m + (d + 16 * size v)) mod size v = 0) as Hal'.
  { rewrite Z.add_assoc. apply mod_step; [done..|]. apply Z.mod_mul. lia. }
  pose proof (bsum_nonneg xs Hox false) as Hbx.
  pose proof (after_block_ok v ns p p1 (bsum false xs) sum (Z.of_nat (length ys))) as Hab.
  specialize (Hab Hp Hp1 Ep1 Hbx Hs ltac:(lia) Hl).
  destruct (after_block v ns p1 sum) as [p2 sum2] eqn:Eab. destruct Hab as (Hp2 & Hs2 & Hl2 & E2).
  destruct (IH ys (d + 16 * size v) p2 sum2) as
    (xs' & zs & p' & sum' & Ey & E & Hx' & Hz & Hp' & Hs' & Hl' & E');
    [done..|lia|].
  exists (xs ++ xs'), zs, p', sum'. rewrite length_app, Nat2Z.inj_add, Hx, <-app_assoc, Ey.
  split; [done|]. split.
  { rewrite Z.add_assoc, <-E, Ey. unfold after_block in Eab.
    destruct (negb _); by injection Eab as <- <-. }
  split; [apply mod_step; [lia|apply Z.mod_same; lia|done]|]. split; [done|].
  split; [done|]. split; [done|]. split; [by rewrite <-Ey; lia|].
  rewrite Ey in Hoy. apply Forall_app in Hoy as [Hox' _].
  pose proof (bsum_nonneg xs' Hox' false). assert (0 ≤ fac ns * bsum false xs') by nia.
  assert (0 ≤ fac ns * p + fac ns * bsum false xs) by nia.
  rewrite bsum_app, (odd_len_mult xs (16 * size v)); [|by destruct v; [exists 16|exists 32]
    |rewrite Hx; apply Z.mod_same; lia|lia].
  change (xorb false false) with false. rewrite Z.mul_add_distr_l.
  rewrite E', E2. apply ones_of_eq; lia.
Qed.

(** *** From the first even address to the last byte *)

(** [r] has added all of [bs] but a last odd byte. *)
Definition summed (v : version) (ns : bool) (d p sum : Z) (bs : list Z)
    (r : res (Z * Z * Z * Z)) : Prop :=
  ∃ xs ys mlen p' sum', bs = xs ++ ys ∧
    r = Ok (d + Z.of_nat (length xs), mlen, p', sum') ∧
    odd_len xs = false ∧ Z.of_nat (length ys) = mlen mod 2 ∧
    0 ≤ p' ∧ p' + half_max v ≤ 2 ^ width v ∧ 0 ≤ sum' < 2 ^ (width v - 1) ∧
    sum' + fac ns * p' ≈ sum + fac ns * p + fac ns * bsum false xs.

Lemma cksum_aligned_ok v m ns bs d p sum :
  at_ m d bs → bytes_ok bs → (m_data m + d) mod size v = 0 →
  0 ≤ p < 2 ^ (width v - 2) → 0 ≤ sum →
  load_of v p sum (Z.of_nat (length bs)) < 2 ^ (width v - 2) * 2 ^ (width v - 1) →
  summed v ns d p sum bs (cksum_aligned v m ns d (Z.of_nat (length bs)) p sum).
Proof.
  intros Hat Hok Hal Hp Hs Hl. pose proof (size_pos v).
  destruct (cksum_blocks_ok v m ns (S (Z.to_nat (Z.of_nat (length bs)))) bs d p sum)
    as (xs & ys & p1 & s1 & -> & Eb & Hx & Hy & Hp1 & Hs1 & Hl1 & E1);
    [done|done|done|lia|done|done|done|].
  apply at_app in Hat as [_ Hat]. apply Forall_app in Hok as [Hox Hoy].
  destruct (cksum_bits_ok v m (d + Z.of_nat (length xs)) ys p1 (Z.of_nat (length ys)))
    as (zs & ws & p2 & -> & Ec & (_ & E2 & B2) & Hz & Hw); [done..| | |lia|by_version v|].
  { by rewrite Z.mod_small by lia. }
  { rewrite Z.add_assoc. apply mod_step; [done..|]. apply Z.mod_divide in Hx; [|lia].
    apply Z.mod_divide; [lia|]. etrans; [|exact Hx]. by apply Z.divide_factor_r. }
  unfold cksum_aligned. rewrite Eb, Ok_bind, Ec, Ok_bind.
  assert (odd_len xs = false) as Hxo.
  { apply (odd_len_mult _ (16 * size v)); [by destruct v; [exists 16|exists 32]|done|lia]. }
  assert (odd_len zs = false) as Hzo by (by apply (odd_len_mult _ 2)).
  exists (xs ++ zs), ws, (Z.of_nat (length (zs ++ ws))), p2, s1.
  rewrite <-app_assoc, (length_app xs zs), Nat2Z.inj_add, Z.add_assoc.
  split; [done|]. split; [done|]. split; [by rewrite odd_len_app, Hxo, Hzo|].
  split; [done|]. split; [lia|]. split; [by_version v|]. split; [by_version v|].
  apply Forall_app in Hoy as [Hoz _].
  pose proof (bsum_nonneg xs Hox false). pose proof (bsum_nonneg zs Hoz false).
  assert (0 < fac ns) as Hf by (by destruct ns).
  rewrite bsum_app, Hxo. change (xorb false false) with false.
  rewrite Z.mul_add_distr_l, Z.add_assoc, <-E1, E2.
  apply ones_of_eq; nia.
Qed.

Lemma land_1 z : z .& 1 = z mod 2.
Proof. by apply (Z.land_ones z 1). Qed.

Lemma land_2_aligned a : a mod 2 = 0 → (a .& 2 = 0 ↔ a mod 4 = 0).
Proof.
  intros Ha. pose proof (land_pow2 a 1 ltac:(done)) as Hm.
  change (2 ^ 1) with 2 in Hm. change (2 * 2) with 4 in Hm. rewrite Ha in Hm.
  destruct (Z.eqb_spec (a .& 2) 0); lia.
Qed.

Lemma cksum_operands_ok v m ns bs d p sum :
  at_ m d bs → bytes_ok bs → (m_data m + d) mod 2 = 0 →
  0 ≤ p < 65536 → 0 ≤ sum < 2 ^ (width v - 1) →
  load_of v (p + 65536) sum (Z.of_nat (length bs)) < 2 ^ (width v - 2) * 2 ^ (width v - 1) →
  summed v ns d p sum bs (cksum_operands v m ns d (Z.of_nat (length bs)) p sum).
Proof.
  intros Hat Hok Hal Hp Hs Hl. unfold cksum_operands.
  assert (Hskip : (m_data m + d) mod size v = 0 →
    summed v ns d p sum bs (cksum_aligned v m ns d (Z.of_nat (length bs)) p sum)).
  { intros Hal'. apply cksum_aligned_ok; [done..|by_version v|lia|by_version v]. }
  destruct v; [by apply Hskip|]. rewrite <-land_2_aligned in Hskip by done.
  destruct (Z.eqb_spec ((m_data m + d) .& 2) 0) as [E|E]; [by apply Hskip|]. clear Hskip.
  rewrite land_2_aligned in E by done. simpl negb.
  destruct (Z.ltb_spec (Z.of_nat (length bs)) 2) as [Hlt|Hge].
  - exists [], bs, (Z.of_nat (length bs)), p, sum. simpl length. rewrite Z.add_0_r.
    split; [done|]. split; [done|]. split; [done|].
    split; [by rewrite Z.mod_small by lia|]. split; [lia|]. split; [by_version Portable64|].
    split; [done|]. apply ones_of_eq; simpl; destruct ns; unfold fac; lia.
  - destruct bs as [|b0 [|b1 bs]]; try (simpl in Hge; lia).
    change (b0 :: b1 :: bs) with ([b0; b1] ++ bs) in *.
    apply at_app in Hat as [Hax Hat]. apply Forall_app in Hok as [Hox Hok].
    rewrite length_app, Nat2Z.inj_add in *. change (Z.of_nat (length [b0; b1])) with 2 in *.
    destruct (load_ok Portable32 m d [b0; b1]) as (w & Hw & Ew & Hb); [done..|].
    change (half_max _) with 65536 in Hb. change (load16 m d = Ok w) in Hw.
    rewrite Hw, Ok_bind, acc_small by (cbn [width]; lia).
    replace (2 + Z.of_nat (length bs) - 2) with (Z.of_nat (length bs)) by lia.
    destruct (cksum_aligned_ok Portable64 m ns bs (d + 2) (p + w) sum)
      as (xs & ys & n & p' & s' & -> & -> & Ho & Hy & Hp' & Hb' & Hs' & E');
      [done|done| |by_version Portable64|lia|by_version Portable64|].
    { cbn [size]. Z.div_mod_to_equations. lia. }
    exists ([b0; b1] ++ xs), ys, n, p', s'.
    rewrite <-app_assoc, length_app, Nat2Z.inj_add, Z.add_assoc.
    split; [done|]. split; [done|]. split; [by rewrite odd_len_app, Ho|].
    repeat (split; [done|]). apply Forall_app in Hok as [Hok _].
    pose proof (fac_nonneg ns _ (bsum_nonneg xs Hok false)).
    pose proof (fac_nonneg ns _ (bsum_nonneg _ Hox false)).
    pose proof (fac_nonneg ns p ltac:(lia)).
    rewrite E', bsum_app. change (xorb false _) with false. rewrite Ew.
    apply ones_of_eq; lia.
Qed.

(** *** One mbuf *)

Lemma fac_flip (o st : bool) bs : bytes_ok bs → fac (xorb st o) * bsum o bs ≈ bsum st bs.
Proof.
  intros Hok. pose proof (bsum_nonneg bs Hok o).
  destruct st, o; simpl xorb; unfold fac; rewrite ?Z.mul_1_l;
    try (apply ones_refl; lia); by apply bsum_flip.
Qed.

(** The swap and the two reductions. *)
Lemma cksum_end v (ns : bool) p sum :
  0 ≤ p < 2 ^ width v → 0 ≤ sum < 2 ^ (width v - 1) →
  let q := if ns then swap v p else p in
  let s := acc v (sum + (hi v q + lo v q)) in
  let r := acc v (hi v s + lo v s) in
  r ≈ sum + fac ns * p ∧ r < 2 * half_max v.
Proof.
  intros Hp Hs q. destruct (swap_fac v ns p) as [Eq Hq]; [done|]. fold q in Eq, Hq.
  destruct (hi_lo_bounds v q) as [??]; [done|]. cbv zeta.
  assert (2 ^ (width v - 1) + 2 * half_max v ≤ 2 ^ width v) by by_version v.
  rewrite (acc_small v (sum + _)) by lia. set (s := sum + _).
  destruct (hi_lo_bounds v s) as [??]; [lia|].
  assert (2 * half_max v ≤ 2 ^ width v) by by_version v.
  rewrite acc_small by lia. split; [|lia].
  pose proof (fac_nonneg ns p ltac:(lia)).
  rewrite hi_lo_eq by lia. unfold s. rewrite hi_lo_eq, Eq by lia. apply ones_refl. lia.
Qed.

Lemma cksum_even_ok v m (st : bool) bs d p sum :
  at_ m d bs → bytes_ok bs → (m_data m + d) mod 2 = 0 →
  0 ≤ p < 65536 → 0 ≤ sum < 2 * half_max v → Z.of_nat (length bs) < 2 ^ 27 →
  ∃ sum', cksum_even v m st d (Z.of_nat (length bs)) p sum = Ok (xorb st (odd_len bs), sum') ∧
    sum' ≈ sum + fac st * (p + bsum false bs) ∧ sum' < 2 * half_max v.
Proof.
  intros Hat Hok Hal Hp Hs Hn.
  destruct (cksum_operands_ok v m st bs d p sum)
    as (xs & ys & mlen & p1 & s1 & -> & E & Ho & Hy & Hp1 & Hb1 & Hs1 & E1);
    [done..|by_version v|by_version v|].
  unfold cksum_even. rewrite E, Ok_bind, land_1, <-Hy.
  apply at_app in Hat as [_ Hat]. apply Forall_app in Hok as [Hox Hoy].
  pose proof (fac_nonneg st _ (bsum_nonneg xs Hox false)).
  pose proof (fac_nonneg st _ (bsum_nonneg ys Hoy false)).
  pose proof (fac_nonneg st p ltac:(lia)).
  rewrite odd_len_app, Ho. set (p2 := p1 + bsum false ys).
  assert (p2 < 2 ^ width v ∧ 0 ≤ p2 ∧
    (if negb (Z.of_nat (length ys) =? 0) then
       b ← load8 m (d + Z.of_nat (length xs));
       Ok (negb st, acc v (p1 + (if big_endian then Z.shiftl b 8 else b)))
     else Ok (st, p1)) = Ok (xorb st (odd_len ys), p2)) as (Hp2 & ? & ->).
  { pose proof (Z.mod_pos_bound mlen 2 ltac:(done)).
    destruct ys as [|b [|]]; [| |simpl in Hy; lia]; unfold p2.
    - rewrite Z.add_0_r, xorb_false_r. split; [by_version v|done].
    - apply Forall_cons in Hoy as [Hb _]. apply at_cons in Hat as [Hb' _].
      assert ((if big_endian then Z.shiftl b 8 else b) = bsum false [b] ∧
        0 ≤ bsum false [b] < 65536) as [Eb Hbb].
      { unfold bsum, weight, is_u8 in *. rewrite Z.shiftl_mul_pow2 by done.
        destruct big_endian; simpl xorb; lia. }
      split; [by_version v|]. split; [lia|]. simpl negb. cbv iota.
      rewrite Hb', Ok_bind, Eb, acc_small by by_version v.
      by rewrite odd_len_cons, xorb_true_r. }
  rewrite Ok_bind. destruct (cksum_end v st p2 s1) as [E2 B2]; [done|done|].
  eexists. split; [done|]. split; [|done].
  cbv zeta in E2. rewrite E2. unfold p2.
  rewrite bsum_app, Ho, !Z.mul_add_distr_l, Z.add_assoc, E1.
  change (xorb false false) with false. apply ones_of_eq; lia.
Qed.

(** An mbuf adds the bytes from [d] on, as many as [len] asks for. *)
Lemma cksum_mbuf_ok v m (st : bool) bs d sum len :
  at_ m d bs → bytes_ok bs → 0 ≤ sum < 2 * half_max v → Z.of_nat (length bs) < 2 ^ 27 →
  0 < len → let bs' := take (Z.to_nat len) bs in
  ∃ sum', cksum_mbuf v m d (Z.of_nat (length bs)) len st sum =
      Ok (len - Z.of_nat (length bs'), xorb st (odd_len bs'), sum') ∧
    sum' ≈ sum + bsum st bs' ∧ sum' < 2 * half_max v.
Proof.
  intros Hat Hok Hs Hn Hlen. cbv zeta. unfold cksum_mbuf.
  destruct (Z.eqb_spec (Z.of_nat (length bs)) 0) as [E0|Hne].
  { destruct bs; [|done]. rewrite take_nil. exists sum. simpl. rewrite xorb_false_r, Z.add_0_r, Z.sub_0_r.
    split; [done|]. split; [apply ones_refl; lia|lia]. }
  rewrite <-(take_drop (Z.to_nat len) bs) in Hat, Hok. set (bs' := take _ bs) in *.
  apply at_app in Hat as [Hat _]. apply Forall_app in Hok as [Hok _].
  assert ((if Z.of_nat (length bs) >? len then len else Z.of_nat (length bs)) =
    Z.of_nat (length bs')) as ->.
  { unfold bs'. rewrite length_take. destruct (Z.gtb_spec (Z.of_nat (length bs)) len); lia. }
  assert (Z.of_nat (length bs') < 2 ^ 27 ∧ bs' ≠ []) as [Hn' Hne'].
  { unfold bs'. split; [rewrite length_take; lia|]. destruct bs; [done|].
    by replace (Z.to_nat len) with (S (Z.to_nat (len - 1))) by lia. }
  clearbody bs'. clear Hn Hne bs. rewrite land_1.
  destruct (Z.eqb_spec ((m_data m + d) mod 2) 0) as [E|E]; simpl negb; cbv iota.
  - destruct (cksum_even_ok v m st bs' d 0 sum) as (s & -> & Es & ?); [done..|].
    exists s. split; [done|]. split; [|done]. rewrite Es. apply ones_add; [apply ones_refl; lia|].
    rewrite Z.add_0_l. rewrite <-(xorb_false_r st) at 1. by apply fac_flip.
  - destruct bs' as [|b bs]; [done|]. apply at_cons in Hat as [-> Hat].
    apply Forall_cons in Hok as [Hb Hok]. rewrite Ok_bind. cbv zeta.
    set (p := if big_endian then b else Z.shiftl b 8).
    assert (p = b * weight true) as Ep.
    { unfold p, weight. rewrite Z.shiftl_mul_pow2 by done. by destruct big_endian; cbn; lia. }
    assert (Z.of_nat (length (b :: bs)) = Z.of_nat (length bs) + 1) as El by (simpl; lia).
    rewrite El in Hn' |- *. rewrite Z.add_simpl_r.
    destruct (cksum_even_ok v m (negb st) bs (d + 1) p sum) as (s & -> & Es & ?); [done|done| | |done|lia|].
    { Z.div_mod_to_equations. lia. }
    { rewrite Ep. destruct Hb. pose proof (weight_bounds true). nia. }
    exists s. rewrite odd_len_cons. split; [by destruct st, (odd_len bs)|]. split; [|done].
    rewrite Es. apply ones_add; [apply ones_refl; lia|]. rewrite Ep.
    rewrite <-(xorb_true_r st). by apply (fac_flip true st (b :: bs)), Forall_cons.
Qed.

(** ** The chain *)

(** An mbuf whose data lie in its buffer, of less than 128 megabytes. *)
Definition mbuf_ok (m : mbuf) : Prop :=
  0 ≤ m_len m < 2 ^ 27 ∧ m_len m ≤ Z.of_nat (length (m_store m)) ∧ bytes_ok (m_store m).

Definition mbuf_bytes (m : mbuf) : list Z := take (Z.to_nat (m_len m)) (m_store m).

(** The packet that a chain holds, and a part of it. *)
Definition flat (ms : list mbuf) : list Z := ms ≫= mbuf_bytes.
Definition part (off len : Z) (bs : list Z) : list Z :=
  take (Z.to_nat len) (drop (Z.to_nat off) bs).

Lemma mbuf_bytes_length m : mbuf_ok m → Z.of_nat (length (mbuf_bytes m)) = m_len m.
Proof. intros (?&?&?). unfold mbuf_bytes. rewrite length_take. lia. Qed.

Lemma mbuf_bytes_ok m : mbuf_ok m → bytes_ok (mbuf_bytes m).
Proof. intros (?&?&?). by apply Forall_take. Qed.

Lemma flat_ok ms : Forall mbuf_ok ms → bytes_ok (flat ms).
Proof.
  induction 1 as [|m ms Hm _ IH]; [by constructor|].
  cbn. apply Forall_app. by split; [apply mbuf_bytes_ok|].
Qed.

Lemma part_ok off len bs : bytes_ok bs → bytes_ok (part off len bs).
Proof. intros ?. by apply Forall_take, Forall_drop. Qed.

Lemma mbuf_at m off : 0 ≤ off → at_ m off (drop (Z.to_nat off) (mbuf_bytes m)).
Proof. intros ?. split; [done|]. unfold mbuf_bytes. rewrite skipn_firstn_comm. apply prefix_take. Qed.

(** What the loops answer: the sum [s] of [len] bytes, or that data are missing. *)
Definition answers (v : version) (st : bool) (sum len : Z) (bs : list Z)
    (r : res (option Z)) : Prop :=
  if bool_decide (len ≤ Z.of_nat (length bs)) then
    ∃ s, r = Ok (Some s) ∧ s ≈ sum + bsum st (take (Z.to_nat len) bs) ∧ s < 2 * half_max v
  else r = Ok None.

(** The answer from the first bytes and from the rest. *)
Lemma answers_app v st sum len xs ys s1 r :
  bytes_ok (xs ++ ys) → 0 ≤ sum → 0 < len →
  let xs' := take (Z.to_nat len) xs in
  s1 ≈ sum + bsum st xs' →
  answers v (xorb st (odd_len xs')) s1 (len - Z.of_nat (length xs')) ys r →
  answers v st sum len (xs ++ ys) r.
Proof.
  intros Hok Hs Hlen xs' E1. unfold answers. rewrite length_app.
  assert (Z.of_nat (length xs') = Z.min len (Z.of_nat (length xs))) as Hx
    by (unfold xs'; rewrite length_take; lia).
  assert (bytes_ok xs' ∧ bytes_ok ys) as [Hox Hoy].
  { apply Forall_app in Hok as [??]. split; [by apply Forall_take|done]. }
  destruct (decide (len ≤ Z.of_nat (length xs + length ys))).
  - rewrite !bool_decide_true by lia. intros (s & -> & E & Hb). exists s. split; [done|].
    split; [|done]. rewrite take_app, bsum_app. fold xs'.
    replace (Z.to_nat len - length xs)%nat with (Z.to_nat (len - Z.of_nat (length xs'))) by lia.
    pose proof (bsum_nonneg xs' Hox st).
    pose proof (bsum_nonneg (take (Z.to_nat (len - Z.of_nat (length xs'))) ys)
      ltac:(by apply Forall_take) (xorb st (odd_len xs'))).
    rewrite E, E1. apply ones_of_eq; lia.
  - by rewrite !bool_decide_false by lia.
Qed.

Lemma cksum_loop_ok v ms : Forall mbuf_ok ms → ∀ st sum len,
  0 ≤ sum < 2 * half_max v → 0 ≤ len →
  answers v st sum len (flat ms) (cksum_loop v ms len st sum).
Proof.
  induction 1 as [|m ms Hm Hms IH]; intros st sum len Hs Hl;
    cbn [cksum_loop]; destruct (Z.gtb_spec len 0) as [Hpos|Hz].
  - unfold answers. rewrite bool_decide_false; [done|simpl; lia].
  - replace len with 0 by lia. exists sum. rewrite take_0. simpl. rewrite Z.add_0_r.
    split; [done|]. split; [apply ones_refl|]; lia.
  - pose proof (mbuf_bytes_length m Hm) as Hlm. pose proof (mbuf_at m 0 ltac:(done)) as Hat.
    rewrite drop_0 in Hat. rewrite <-Hlm.
    destruct (cksum_mbuf_ok v m st (mbuf_bytes m) 0 sum len) as (s & -> & E & Hb);
      [done|by apply mbuf_bytes_ok|done|by destruct Hm; lia|done|].
    rewrite Ok_bind. change (flat (m :: ms)) with (mbuf_bytes m ++ flat ms).
    eapply answers_app; [by apply (flat_ok (m :: ms)), Forall_cons|lia|done|exact E|].
    apply IH; [by destruct E|]. rewrite length_take. lia.
  - replace len with 0 by lia. unfold answers. rewrite bool_decide_true by lia.
    exists sum. rewrite take_0. simpl. rewrite Z.add_0_r.
    split; [done|]. split; [apply ones_refl|]; lia.
Qed.

Lemma cksum_skip_ok v ms : Forall mbuf_ok ms → ∀ sum len off,
  0 ≤ sum < 2 * half_max v → 0 < len → 0 ≤ off →
  answers v false sum len (drop (Z.to_nat off) (flat ms)) (cksum_skip v ms len off sum).
Proof.
  induction 1 as [|m ms Hm Hms IH]; intros sum len off Hs Hl Ho; cbn [cksum_skip].
  - change (flat []) with (@nil Z).
    unfold answers. rewrite drop_nil, bool_decide_false; [done|simpl; lia].
  - pose proof (mbuf_bytes_length m Hm) as Hlm.
    change (flat (m :: ms)) with (mbuf_bytes m ++ flat ms).
    destruct (Z.gtb_spec (m_len m) off) as [Hgt|Hle].
    + assert (Hle : (Z.to_nat off ≤ length (mbuf_bytes m))%nat) by lia.
      rewrite drop_app_le by done. set (bs := drop _ (mbuf_bytes m)).
      assert (Z.of_nat (length bs) = m_len m - off) as Hbs
        by (unfold bs; rewrite length_drop; lia).
      assert (bytes_ok bs) by by apply Forall_drop, mbuf_bytes_ok.
      rewrite <-Hbs.
      destruct (cksum_mbuf_ok v m false bs off sum len) as (s & -> & E & Hb);
        [by apply mbuf_at|done|done|destruct Hm; lia|done|].
      rewrite Ok_bind. eapply answers_app; [|lia|done|exact E|].
      { apply Forall_app. split; [done|by apply flat_ok]. }
      apply cksum_loop_ok; [done|by destruct E|]. rewrite length_take. lia.
    + rewrite (proj2 (Z.eqb_neq len 0)) by lia. rewrite drop_app_ge by lia.
      replace (Z.to_nat off - _)%nat with (Z.to_nat (off - m_len m)) by lia.
      apply IH; lia.
Qed.

(** ** The whole function *)

(** The last folds of a sum give its 16-bit representative. *)
Lemma fold_once a : 0 ≤ a < 2 ^ 32 →
  u32 (Z.shiftr a 16 + (a .& 0xffff)) ≈ a ∧
  u32 (Z.shiftr a 16 + (a .& 0xffff)) = a / 65536 + a mod 65536.
Proof.
  intros Ha. pose proof (ones_fold 1 a ltac:(done) ltac:(lia)) as E.
  change (a .& Z.ones (16 * 1)) with (a .& 0xffff) in E. change (16 * 1) with 16 in E.
  rewrite land_ffff, Z.shiftr_div_pow2 in * by done.
  change (2 ^ 16) with 65536 in *.
  rewrite u32_small by (unfold is_u32; Z.div_mod_to_equations; lia). done.
Qed.

Lemma final32_ok sum : 0 ≤ sum < 2 ^ 17 →
  ∃ s, final32 sum = Z.lnot s .& 0xffff ∧ s ≈ sum ∧ s ≤ 65535.
Proof.
  intros Hs. unfold final32. cbv zeta. destruct (fold_once sum) as [E1 V1]; [lia|].
  assert (Z.shiftr sum 16 .& 0xffff = Z.shiftr sum 16) as ->.
  { rewrite land_ffff, Z.shiftr_div_pow2 by done. Z.div_mod_to_equations. lia. }
  set (f := u32 _) in *.
  assert (0 ≤ f ≤ 65535 + 1) by (rewrite V1; Z.div_mod_to_equations; lia).
  destruct (fold_once f) as [E2 V2]; [lia|]. eexists. split; [done|].
  split; [by rewrite E2|]. rewrite V2. Z.div_mod_to_equations. lia.
Qed.

Lemma final64_ok sum : 0 ≤ sum < 2 ^ 33 →
  ∃ s, final64 sum = Z.lnot s .& 0xffff ∧ s ≈ sum ∧ s ≤ 65535.
Proof.
  intros Hs. unfold final64. cbv zeta. set (f := u32 (_ + _ + _ + _)).
  assert (f ≈ sum ∧ f ≤ 65535 * 3) as [E1 B1].
  { unfold f. rewrite !land_ffff, !Z.shiftr_div_pow2 by done.
    rewrite u32_small by (unfold is_u32; Z.div_mod_to_equations; lia).
    split; [|Z.div_mod_to_equations; lia].
    apply (ones_mod _ _ (- (sum / 2 ^ 16 + sum / 2 ^ 32 + sum / 2 ^ 48)));
      Z.div_mod_to_equations; lia. }
  destruct (ones_eq_nonneg _ _ E1). destruct (fold_once f) as [E2 V2]; [lia|].
  set (g := u32 (Z.shiftr f 16 + _)) in *.
  assert (0 ≤ g ≤ 65535 + 2) by (rewrite V2; Z.div_mod_to_equations; lia).
  destruct (fold_once g) as [E3 V3]; [lia|]. eexists. split; [done|].
  split; [by rewrite E3, E2|]. rewrite V3. Z.div_mod_to_equations. lia.
Qed.

(** The value of an answer, from a start that is worth [init]. *)
Lemma answer_value v (final : Z → Z) init start len bs r :
  (∀ s, 0 ≤ s < 2 * half_max v → ∃ f, final s = Z.lnot f .& 0xffff ∧ f ≈ s ∧ f ≤ 65535) →
  is_u32 init → start ≈ init → bytes_ok bs →
  answers v false start len bs r →
  (r ≫= λ o, Ok (match o with Some sum => final sum | None => -1 end)) =
    Ok (if len <=? Z.of_nat (length bs) then rfc1071_from init (take (Z.to_nat len) bs) else -1).
Proof.
  intros Hfin Hi Hst Hok. unfold answers. destruct (Z.leb_spec len (Z.of_nat (length bs))).
  - rewrite bool_decide_true by done. intros (s & -> & E & Hb). rewrite Ok_bind. f_equal.
    destruct (Hfin s) as (f & -> & Ef & Hf); [by destruct E|].
    assert (bytes_ok (take (Z.to_nat len) bs)) as Hok' by by apply Forall_take.
    apply rfc1071_unique; [done|done| |done]. rewrite Ef, E.
    apply ones_add; [done|]. by apply ones_refl, bsum_nonneg.
  - by rewrite bool_decide_false by lia; intros ->.
Qed.

(** A call for no bytes: the first mbuf ends before the offset, or the byte at
    the offset has an even address ([cksum_len0_odd] below is the other case). *)
Definition len0_ok (ms : list mbuf) (off : Z) : Prop :=
  match ms with
  | [] => True
  | m0 :: _ => m_len m0 ≤ off ∨ (m_data m0 + off) mod 2 = 0
  end.

Lemma cksum_skip_len0 v m0 ms off sum : Forall mbuf_ok (m0 :: ms) → 0 ≤ off →
  len0_ok (m0 :: ms) off → 0 ≤ sum < 2 * half_max v →
  answers v false sum 0 [] (cksum_skip v (m0 :: ms) 0 off sum).
Proof.
  intros Hms Ho Hev Hs. unfold answers. rewrite bool_decide_true by done. simpl take.
  cbn [cksum_skip]. destruct (Z.gtb_spec (m_len m0) off) as [Hgt|Hle].
  - destruct Hev as [?|Hev]; [lia|]. unfold cksum_mbuf.
    rewrite (proj2 (Z.eqb_neq _ 0)) by lia. rewrite land_1, Hev. simpl negb. cbv iota.
    rewrite (proj2 (Z.gtb_lt _ _)) by lia.
    destruct (cksum_even_ok v m0 false [] off 0 sum) as (s & E & Es & Hb);
      [by split; [|apply prefix_nil]|by constructor|done|lia|done|done|].
    change (Z.of_nat (length [])) with 0 in E. rewrite E, !Ok_bind. change (xorb false (odd_len [])) with false.
    exists s. split; [by destruct ms|]. split; [|done].
    by replace (sum + bsum false []) with (sum + fac false * (0 + bsum false [])) by (cbn; lia).
  - exists sum. split; [done|]. cbn [bsum]. rewrite Z.add_0_r. split; [apply ones_refl|]; lia.
Qed.

(** The chain has the bytes asked for; when none are, the offset is not looked
    at. *)
Definition enough (ms : list mbuf) (len off : Z) : bool :=
  if len =? 0 then match ms with [] => false | _ => true end
  else off + len <=? Z.of_nat (length (flat ms)).

Definition cksum_spec (ms : list mbuf) (len off init : Z) : res Z :=
  Ok (if enough ms len off then rfc1071_from init (part off len (flat ms)) else -1).

Lemma cksum_skip_value v (final : Z → Z) ms len off init start :
  (∀ s, 0 ≤ s < 2 * half_max v → ∃ f, final s = Z.lnot f .& 0xffff ∧ f ≈ s ∧ f ≤ 65535) →
  is_u32 init → start ≈ init → 0 ≤ start < 2 * half_max v →
  Forall mbuf_ok ms → 0 ≤ len → 0 ≤ off → (len = 0 → len0_ok ms off) →
  (cksum_skip v ms len off start ≫= λ o, Ok (match o with Some sum => final sum | None => -1 end)) =
    cksum_spec ms len off init.
Proof.
  intros Hfin Hi Hst Hb Hms Hl Ho H0. unfold cksum_spec, enough.
  destruct (Z.eqb_spec len 0) as [->|Hne].
  - specialize (H0 eq_refl). destruct ms as [|m0 ms]; [done|]. unfold part. rewrite Z2Nat.inj_0, take_0.
    by rewrite (answer_value v final init start 0 [])
      by (done || constructor || by apply cksum_skip_len0).
  - assert (bytes_ok (drop (Z.to_nat off) (flat ms))) as Hok by by apply Forall_drop, flat_ok.
    rewrite (answer_value v final init start len (drop (Z.to_nat off) (flat ms)))
      by (done || apply cksum_skip_ok; done || lia).
    assert ((off + len <=? Z.of_nat (length (flat ms))) =
      (len <=? Z.of_nat (length (drop (Z.to_nat off) (flat ms))))) as ->; [|done].
    rewrite length_drop. lia.
Qed.

Lemma versions_value ms len off init :
  Forall mbuf_ok ms → is_u32 init → 0 ≤ len → 0 ≤ off → (len = 0 → len0_ok ms off) →
  cpu_in_cksum32 ms len off init = cksum_spec ms len off init ∧
  cpu_in_cksum64 ms len off init = cksum_spec ms len off init.
Proof.
  intros Hms Hi Hl Ho H0. pose proof Hi as [Hi0 Hi1].
  unfold cpu_in_cksum32, cpu_in_cksum64.
  rewrite (proj2 (Z.geb_le len 0)), (proj2 (Z.geb_le off 0)) by lia. simpl negb. cbv iota.
  split.
  - apply (cksum_skip_value Portable32); [exact final32_ok|done| | |done..].
    + apply (ones_fold 1 init); lia.
    + rewrite land_ffff, Z.shiftr_div_pow2 by done.
      change (2 * half_max _) with (2 ^ 17). Z.div_mod_to_equations. lia.
  - apply (cksum_skip_value Portable64); [exact final64_ok|done|by apply ones_refl| |done..].
    change (2 * half_max _) with (2 ^ 33). lia.
Qed.

Lemma cpu_in_cksum_value ms len off init :
  Forall mbuf_ok ms → is_u32 init → 0 ≤ len → 0 ≤ off → (len = 0 → len0_ok ms off) →
  cpu_in_cksum ms len off init = cksum_spec ms len off init.
Proof.
  intros. unfold cpu_in_cksum. destruct (versions_value ms len off init); [done..|].
  by destruct long_is_32.
Qed.

(** C33: The 32-bit and the 64-bit portable checksum of a part of a chain of mbufs
    are the RFC 1071 checksum of its bytes, for either byte order, wherever the
    chain is cut, at whatever addresses its pieces lie, and whatever the word sum
    to start with; they return -1 exactly if the chain has too few bytes. No load
    is misaligned or outside a buffer, and no accumulator loses a carry. Each
    mbuf lies in its buffer and holds less than 2^27 bytes, and the length and
    the offset are not negative. A call for no bytes gives the checksum of none,
    or -1 for the empty chain, when the first mbuf ends before the offset or the
    byte at the offset has an even address; at an odd address the code sums bytes
    it was not asked for, possibly out of bounds ([cksum_len0_odd] below). *)
Theorem cpu_in_cksum_rfc1071 ms len off init :
  Forall mbuf_ok ms → is_u32 init → 0 ≤ len → 0 ≤ off → (len = 0 → len0_ok ms off) →
  let answer :=
    if enough ms len off then rfc1071_from init (part off len (flat ms)) else -1 in
  cpu_in_cksum32 ms len off init = Ok answer ∧ cpu_in_cksum64 ms len off init = Ok answer.
Proof. apply versions_value. Qed.

End loads.

(** A little-endian machine; 100 bytes in three mbufs, two of them at odd
    addresses and one of odd length, with an empty one between. *)
Definition pc : Platform :=
  {| big_endian := false; long_is_32 := false; diagnostic := true |}.
Definition example_chain : list mbuf :=
  [Mbuf 4097 33 (seqZ 1 63); Mbuf 8192 0 []; Mbuf 4358 60 (seqZ 7 70); Mbuf 4611 7 (seqZ 90 7)].

Lemma mbuf_ok_dec m : Decision (mbuf_ok m).
Proof. unfold mbuf_ok, bytes_ok. apply _. Defined.
#[export] Existing Instance mbuf_ok_dec.

Lemma cpu_in_cksum_rfc1071_witness :
  @cpu_in_cksum64 pc example_chain 97 2 0x1ffff = Ok 40811 ∧
  @cpu_in_cksum64 pc example_chain 97 4 0 = Ok (-1).
Proof.
  assert (Forall mbuf_ok example_chain) as H by by_decide.
  split.
  - rewrite (proj2 (@cpu_in_cksum_rfc1071 pc example_chain 97 2 0x1ffff H
      ltac:(by_decide) ltac:(by_decide) ltac:(by_decide) ltac:(by_decide))). vm_compute. reflexivity.
  - rewrite (proj2 (@cpu_in_cksum_rfc1071 pc example_chain 97 4 0 H
      ltac:(by_decide) ltac:(by_decide) ltac:(by_decide) ltac:(by_decide))). vm_compute. reflexivity.
Defined.

(** Without bytes to sum, an mbuf whose data lie at an odd address is still
    summed: the first byte goes in, [mlen] becomes -1, and its bits ask for more. *)
Example cksum_len0_odd :
  @in_cksum pc [Mbuf 4096 10 (seqZ 1 64)] 0 = Ok 65535 ∧
  @in_cksum pc [Mbuf 4097 10 (seqZ 1 64)] 0 = Ok 65022 ∧
  @in_cksum pc [Mbuf 4099 10 (seqZ 1 10)] 0 = Fault OutOfBounds.
Proof. by vm_compute. Qed.
