(* ===== verification/CksumHdr.v ===== *)
(** * The Internet checksum with a pseudo header

    [in4_cksum] and [in6_cksum] compute the checksum of the pseudo header of
    RFC 768 or RFC 2460 in front of a part of the packet; the inline functions
    compute the sum of the pseudo header alone, for a checksum that is completed
    later. *)

From S2P Require Import Prelude Cksum CksumSpec CksumChain.

(** ** The pseudo headers, as bytes *)

(** A number in network byte order. *)
Definition be16 (n : Z) : list Z := [n / 256 mod 256; n mod 256].
Definition be32 (n : Z) : list Z := be16 (n / 65536) ++ be16 n.

(** The addresses are bytes 12 to 19 of an IPv4 packet; the length has 16 bits. *)
Definition pseudo4 (pkt : list Z) (nxt len : Z) : list Z :=
  part offsetof_ip_src 8 pkt ++ [0; nxt] ++ be16 len.

(** The addresses of an IPv6 packet without the zone that the kernel stores in them. *)
Definition pseudo6 (pkt : list Z) (nxt len : Z) : list Z :=
  (in6_clearscope (part offsetof_ip6_src 16 pkt)).1 ++
  (in6_clearscope (part offsetof_ip6_dst 16 pkt)).1 ++ be32 len ++ [0; 0; 0; nxt].

(** A chain that holds the packet [pkt], with [hlen] bytes of header in its first
    mbuf, whose buffer ends at an even address. *)
Definition packet (hlen : Z) (ms : list mbuf) (pkt : list Z) : Prop :=
  Forall mbuf_ok ms ∧ flat ms = pkt ∧
  match ms with
  | [] => False
  | m0 :: _ => hlen ≤ m_len m0 ∧ (m_data m0 + Z.of_nat (length (m_store m0))) mod 2 = 0
  end.

(** Closes the side conditions of a load at an even address. *)
Ltac even_addr := first [lia | Z.div_mod_to_equations; lia].

(** Forgets how words come from bytes, but for their sums and bounds. *)
Ltac abstract_halves :=
  repeat match goal with |- context [half ?x ?y] =>
    let E := fresh in
    destruct (half_sum x y) as [E ?]; [done..|]; cbn [bsum negb] in E;
    generalize dependent (half x y); intros end.

(** Sums of 32 bits that do not wrap around. *)
Ltac no_wrap :=
  repeat match goal with |- context [u32 (?x + ?y)] =>
    rewrite (u32_small (x + y)) by (unfold is_u32; lia) end.

Section pseudo.
Context `{Platform}.

Lemma be16_ok n : bytes_ok (be16 n).
Proof. repeat constructor; apply Z.mod_pos_bound; done. Qed.

(** *** Words in memory *)

Lemma at_half m d a i o x y :
  at_ m d a → a !! i = Some x → a !! S i = Some y → o = d + Z.of_nat i →
  (m_data m + o) mod 2 = 0 → load16 m o = Ok (half x y).
Proof.
  intros Hat Hx Hy -> Hal. apply load16_ok; [|done].
  rewrite <-(take_drop i a) in Hat. apply at_app in Hat as [_ Hat].
  rewrite length_take_le in Hat by (apply lookup_lt_Some in Hx; lia).
  rewrite (drop_S _ _ _ Hx), (drop_S _ _ _ Hy) in Hat.
  change (x :: y :: drop (S (S i)) a) with ([x; y] ++ drop (S (S i)) a) in Hat.
  by apply at_app in Hat as [Hat _].
Qed.

Lemma read_bytes_ok m a : ∀ d, at_ m d a → read_bytes m d (length a) = Ok a.
Proof.
  induction a as [|b a IH]; intros d Hat; [done|].
  apply at_cons in Hat as [Hb Hat]. simpl. by rewrite Hb, Ok_bind, (IH _ Hat), Ok_bind.
Qed.

(** The header of a packet is in its first mbuf. *)
Lemma packet_at hlen m0 ms pkt off len :
  packet hlen (m0 :: ms) pkt → 0 ≤ off → 0 ≤ len → off + len ≤ hlen →
  at_ m0 off (part off len pkt) ∧ Z.of_nat (length (part off len pkt)) = len.
Proof.
  intros (Hms & <- & Hl & _) ? ? ?. apply Forall_cons in Hms as [Hm _].
  pose proof (mbuf_bytes_length m0 Hm) as Hlm. unfold part.
  change (flat (m0 :: ms)) with (mbuf_bytes m0 ++ flat ms).
  rewrite drop_app_le by lia.
  rewrite take_app_le by (rewrite length_drop; lia).
  split; [|rewrite length_take, length_drop; lia].
  pose proof (mbuf_at m0 off ltac:(done)) as Hat.
  rewrite <-(take_drop (Z.to_nat len)) in Hat. by apply at_app in Hat as [Hat _].
Qed.

Lemma packet_ok hlen ms pkt : packet hlen ms pkt → bytes_ok pkt.
Proof. intros (? & <- & _). by apply flat_ok. Qed.

(** *** The sum of an IPv6 address *)

Lemma in6_addr_words_ok m w a (skip1 : bool) sum :
  at_ m w a → bytes_ok a → length a = 16%nat → (m_data m + w) mod 2 = 0 →
  0 ≤ sum → sum + 8 * 65536 ≤ 2 ^ 32 →
  let b := if skip1 then <[2%nat := 0]> (<[3%nat := 0]> a) else a in
  ∃ s, in6_addr_words m w skip1 sum = Ok s ∧ s = sum + bsum false b ∧
    bsum false b ≤ 8 * 65535.
Proof.
  intros Hat Hok Hlen Hal Hs Hb.
  do 16 (destruct a as [|? a]; [done|]). destruct a; [|done].
  unfold bytes_ok in Hok. repeat (apply Forall_cons in Hok as [? Hok]).
  unfold in6_addr_words.
  rewrite (at_half m w _ 0 w _ _ Hat eq_refl eq_refl), Ok_bind by even_addr.
  rewrite (at_half m w _ 2 (w + 2) _ _ Hat eq_refl eq_refl) by even_addr.
  rewrite (at_half m w _ 4 (w + 4) _ _ Hat eq_refl eq_refl) by even_addr.
  rewrite (at_half m w _ 6 (w + 6) _ _ Hat eq_refl eq_refl) by even_addr.
  rewrite (at_half m w _ 8 (w + 8) _ _ Hat eq_refl eq_refl) by even_addr.
  rewrite (at_half m w _ 10 (w + 10) _ _ Hat eq_refl eq_refl) by even_addr.
  rewrite (at_half m w _ 12 (w + 12) _ _ Hat eq_refl eq_refl) by even_addr.
  rewrite (at_half m w _ 14 (w + 14) _ _ Hat eq_refl eq_refl) by even_addr.
  abstract_halves.
  destruct skip1; simpl negb; cbv iota; rewrite !Ok_bind; cbv zeta.
  all: no_wrap.
  all: eexists; split; [done|]; cbn [bsum negb insert list_insert]; lia.
Qed.

(** *** The addresses of an IPv4 header *)

Lemma in4_words_ok m a sum (k : Z → res Z) :
  at_ m offsetof_ip_src a → bytes_ok a → length a = 8%nat → (m_data m + offsetof_ip_src) mod 2 = 0 →
  0 ≤ sum < 2 ^ 31 →
  let w := offsetof_ip_src in
  (w0 ← load16 m w; w1 ← load16 m (w + 2); w2 ← load16 m (w + 4); w3 ← load16 m (w + 6);
   k (u32 (u32 (u32 (u32 (sum + w0) + w1) + w2) + w3))) = k (sum + bsum false a).
Proof.
  intros Hat Hok Hlen Hal Hs w.
  do 8 (destruct a as [|? a]; [done|]). destruct a; [|done].
  unfold bytes_ok in Hok. repeat (apply Forall_cons in Hok as [? Hok]).
  rewrite (at_half m w _ 0 w _ _ Hat eq_refl eq_refl), Ok_bind by even_addr.
  rewrite (at_half m w _ 2 (w + 2) _ _ Hat eq_refl eq_refl), Ok_bind by even_addr.
  rewrite (at_half m w _ 4 (w + 4) _ _ Hat eq_refl eq_refl), Ok_bind by even_addr.
  rewrite (at_half m w _ 6 (w + 6) _ _ Hat eq_refl eq_refl), Ok_bind by even_addr.
  abstract_halves. no_wrap. f_equal. cbn [bsum negb]. lia.
Qed.

(** The masks keep the second or the first byte in memory. *)
Lemma mask_half x y : is_u8 x → is_u8 y →
  (if big_endian then half x y .& 0x00ff else half x y .& 0xff00) = y * weight true ∧
  (if big_endian then half x y .& 0xff00 else half x y .& 0x00ff) = x * weight false.
Proof.
  unfold is_u8. intros Hx Hy.
  assert (∀ z, 0 ≤ z < 65536 → z .& 0xff00 = z / 256 * 256 ∧ z .& 0xff = z mod 256) as Hm.
  { intros z Hz. split; [|by apply (Z.land_ones z 8)].
    pose proof (land_shiftl z 0xff 8 ltac:(done)) as E. change (Z.shiftl 0xff 8) with 0xff00 in E.
    rewrite E, (Z.land_ones _ 8 : _ → _ .& 255 = _), Z.shiftl_mul_pow2, Z.shiftr_div_pow2 by done.
    change (2 ^ 8) with 256. rewrite (Z.mod_small (z / 256)); [done|].
    Z.div_mod_to_equations. lia. }
  unfold half, weight. rewrite !Z.shiftl_mul_pow2 by done. change (2 ^ 8) with 256 in *.
  destruct big_endian; cbn [xorb].
  - destruct (Hm (x * 256 + y)) as [-> ->]; [lia|]. split; Z.div_mod_to_equations; lia.
  - destruct (Hm (x + y * 256)) as [-> ->]; [lia|]. split; Z.div_mod_to_equations; lia.
Qed.

Lemma in4_odd_words_ok m a b c :
  at_ m (offsetof_ip_src - 1) (b :: a ++ [c]) → bytes_ok (b :: a ++ [c]) → length a = 8%nat →
  (m_data m + offsetof_ip_src) mod 2 ≠ 0 →
  in4_odd_words m offsetof_ip_src = Ok (bsum true a) ∧ bsum true a ≤ 5 * 65535.
Proof.
  intros Hat Hok Hlen Hal. unfold in4_odd_words. set (w := offsetof_ip_src - 1) in *.
  assert ((m_data m + w) mod 2 = 0) as Hal' by (unfold w; Z.div_mod_to_equations; lia).
  destruct a as [|a0 [|a1 [|a2 [|a3 [|a4 [|a5 [|a6 [|a7 [|]]]]]]]]]; try done. cbn [app] in *.
  unfold bytes_ok in Hok. repeat (apply Forall_cons in Hok as [? Hok]).
  rewrite (at_half m w _ 0 w _ _ Hat eq_refl eq_refl), Ok_bind by even_addr.
  rewrite (at_half m w _ 2 (w + 2) _ _ Hat eq_refl eq_refl), Ok_bind by even_addr.
  rewrite (at_half m w _ 4 (w + 4) _ _ Hat eq_refl eq_refl), Ok_bind by even_addr.
  rewrite (at_half m w _ 6 (w + 6) _ _ Hat eq_refl eq_refl), Ok_bind by even_addr.
  rewrite (at_half m w _ 8 (w + 8) _ _ Hat eq_refl eq_refl), Ok_bind by even_addr.
  cbv zeta.
  rewrite (proj1 (mask_half b a0 ltac:(done) ltac:(done))),
    (proj2 (mask_half a7 c ltac:(done) ltac:(done))).
  abstract_halves. cbn [bsum negb]. unfold is_u8, weight in *.
  destruct big_endian; cbn [xorb] in *; no_wrap; (split; [f_equal|]; lia).
Qed.

(** *** in4_cksum *)

Lemma size_t_small z : 0 ≤ z < 2 ^ 32 → size_t z = z.
Proof.
  intros. unfold size_t. destruct long_is_32; [by apply u32_small|].
  apply u64_small. unfold is_u64. lia.
Qed.

(** The checksum after a pseudo header whose sum is the start. *)
Lemma cksum_front ms hdr len off init :
  Forall mbuf_ok ms → is_u32 init → 0 ≤ len → 0 ≤ off → (len = 0 → len0_ok ms off) →
  bytes_ok hdr → odd_len hdr = false → init ≈ bsum false hdr →
  cpu_in_cksum ms len off init =
    Ok (if enough ms len off
        then rfc1071 (hdr ++ part off len (flat ms)) else -1).
Proof.
  intros. rewrite cpu_in_cksum_value by done. unfold cksum_spec. f_equal. destruct (enough _ _ _); [|done].
  apply rfc1071_front; [done|done| |done|done]. by apply part_ok, flat_ok.
Qed.

Definition in4_start (nxt len : Z) : Z :=
  if big_endian then u32 ((len .& 0xffff) + nxt) else u32 (Z.shiftl ((len .& 0xffff) + nxt) 8).

Lemma in4_start_ok nxt len : 1 ≤ nxt < 256 →
  in4_start nxt len ≈ bsum false ([0; nxt] ++ be16 len) ∧ 0 ≤ in4_start nxt len < 2 ^ 26.
Proof.
  intros Hn. unfold in4_start, be16. cbn [app bsum negb]. unfold weight.
  rewrite land_ffff, Z.shiftl_mul_pow2 by done.
  assert (len mod 65536 = len / 256 mod 256 * 256 + len mod 256) as ->
    by (Z.div_mod_to_equations; lia).
  pose proof (Z.mod_pos_bound (len / 256) 256 ltac:(done)).
  pose proof (Z.mod_pos_bound len 256 ltac:(done)).
  destruct big_endian; cbn [xorb]; rewrite u32_small by (unfold is_u32; lia).
  - split; [apply ones_of_eq; lia|lia].
  - split; [|lia]. apply (ones_mod _ _ (len / 256 mod 256)); lia.
Qed.

(** A word before the addresses and the byte after them are in the buffer too. *)
Lemma odd_buffer m a : mbuf_ok m → sizeof_ip ≤ m_len m →
  (m_data m + Z.of_nat (length (m_store m))) mod 2 = 0 → (m_data m + offsetof_ip_src) mod 2 ≠ 0 →
  at_ m offsetof_ip_src a → length a = 8%nat →
  ∃ b c, at_ m (offsetof_ip_src - 1) (b :: a ++ [c]) ∧ bytes_ok (b :: a ++ [c]).
Proof.
  unfold sizeof_ip, offsetof_ip_src. intros (? & ? & Hok) Hl Hend Hodd [_ [zs Hzs]] Ha.
  change (Z.to_nat 12) with 12%nat in Hzs.
  destruct (lookup_lt_is_Some_2 (m_store m) 11) as [b Hb]; [lia|].
  assert (length (m_store m) ≠ 20%nat) as Hne.
  { intros E. rewrite E in Hend. Z.div_mod_to_equations. lia. }
  pose proof (f_equal length Hzs) as El. rewrite length_drop, length_app in El.
  destruct zs as [|c zs]; [simpl in El; lia|]. exists b, c.
  pose proof (drop_S _ _ _ Hb) as Hd. rewrite Hzs in Hd.
  split.
  - split; [done|]. exists zs. change (Z.to_nat (12 - 1)) with 11%nat.
    rewrite Hd. cbn [app]. by rewrite <-app_assoc.
  - pose proof (Forall_drop _ 11 _ Hok) as Hok'. rewrite Hd in Hok'.
    change (c :: zs) with ([c] ++ zs) in Hok'. rewrite app_assoc, app_comm_cons in Hok'.
    by apply Forall_app in Hok' as [? _].
Qed.

Lemma in4_cksum_value ms pkt nxt off len :
  packet sizeof_ip ms pkt → 1 ≤ nxt < 256 → sizeof_ip ≤ off < 2 ^ 31 → 0 ≤ len →
  (len = 0 → len0_ok ms off) →
  in4_cksum ms nxt off len =
    Ok (if enough ms len off
        then rfc1071 (pseudo4 pkt nxt len ++ part off len pkt) else -1).
Proof.
  intros Hp Hn Ho Hl H00. pose proof Hp as (Hms & <- & Hm0). unfold in4_cksum.
  destruct ms as [|m0 ms']; [done|]. destruct Hm0 as [Hm0 Hend]. set (ms := m0 :: ms') in *.
  pose proof (proj1 (Forall_cons_1 _ _ _ Hms)) as ((Hl0 & Hl1) & Hst & Hsto).
  pose proof (packet_ok _ _ _ Hp) as Hpok. unfold sizeof_ip in *.
  rewrite !size_t_small, !(proj2 (Z.ltb_ge _ _)), (proj2 (Z.eqb_neq nxt 0)) by lia.
  fold (in4_start nxt len). destruct (in4_start_ok nxt len Hn) as [Es Hs].
  destruct (packet_at 20 m0 ms' (flat ms) offsetof_ip_src 8) as [Hat Ha]; [done|done|done|done|].
  unfold pseudo4. set (a := part offsetof_ip_src 8 _) in *.
  assert (length a = 8%nat) as Ha' by lia.
  assert (bytes_ok a) as Hoka by (by apply part_ok).
  assert (bytes_ok ([0; nxt] ++ be16 len)) as Hokn.
  { repeat constructor; try lia; apply Z.mod_pos_bound; done. }
  assert (bytes_ok (a ++ [0; nxt] ++ be16 len)) as Hokh by (by apply (Forall_app_2 is_u8)).
  assert (odd_len a = false) as Hodda by (unfold odd_len; by rewrite Ha').
  assert (odd_len (a ++ [0; nxt] ++ be16 len) = false) as Hodd
    by (by rewrite odd_len_app, Hodda).
  pose proof (bsum_nonneg a Hoka false). pose proof (bsum_bound a Hoka false).
  pose proof (bsum_nonneg _ Hokn false).
  destruct (Z.eqb_spec ((m_data m0 + offsetof_ip_src) mod 2) 0) as [E|E].
  - pose proof (in4_words_ok m0 a (in4_start nxt len) (cpu_in_cksum ms len off)) as ->;
      [|done|done|done|done|lia].
    apply cksum_front; [done|unfold is_u32; lia|done|lia|done|done|done|].
    rewrite bsum_app, Hodda, Es. change (xorb false false) with false. apply ones_of_eq; lia.
  - assert (∃ b c, at_ m0 (offsetof_ip_src - 1) (b :: a ++ [c]) ∧ bytes_ok (b :: a ++ [c]))
      as (b & c & Hat' & Hok').
    { by apply odd_buffer. }
    destruct (in4_odd_words_ok m0 a b c) as [-> Hb]; [done..|]. rewrite Ok_bind.
    pose proof (bsum_nonneg a Hoka true).
    rewrite Z.shiftl_mul_pow2, (u32_small (_ * _)), u32_small by (unfold is_u32; lia).
    apply cksum_front; [done|unfold is_u32; lia|done|lia|done|done|done|].
    rewrite bsum_app, Hodda, Es, Z.add_comm, (Z.mul_comm _ (2 ^ 8)). change (xorb false false) with false.
    apply ones_add; [|by apply ones_refl]. by apply (bsum_flip a Hoka true).
Qed.

(** *** in6_cksum *)

Definition in6_start (nxt len : Z) : Z :=
  let lens := u32 (u32 ((len .& 0xffff) + (Z.shiftr len 16 .& 0xffff)) + nxt) in
  if big_endian then lens else u32 (Z.shiftl lens 8).

Lemma in6_start_ok nxt len : 1 ≤ nxt < 256 → is_u32 len →
  in6_start nxt len ≈ bsum false (be32 len ++ [0; 0; 0; nxt]) ∧ 0 ≤ in6_start nxt len < 2 ^ 26.
Proof.
  unfold is_u32. intros Hn Hl. unfold in6_start, be32, be16. cbn [app bsum negb]. unfold weight.
  cbv zeta. rewrite !land_ffff, Z.shiftl_mul_pow2, Z.shiftr_div_pow2 by done.
  change (2 ^ 16) with 65536.
  pose proof (Z.mod_pos_bound (len / 65536 / 256) 256 ltac:(done)).
  pose proof (Z.mod_pos_bound (len / 65536) 256 ltac:(done)).
  pose proof (Z.mod_pos_bound (len / 256) 256 ltac:(done)).
  pose proof (Z.mod_pos_bound len 256 ltac:(done)).
  assert (∀ n, n mod 65536 = n / 256 mod 256 * 256 + n mod 256) as Hm
    by (intros; Z.div_mod_to_equations; lia).
  rewrite !Hm. no_wrap.
  destruct big_endian; cbn [xorb].
  - split; [apply ones_of_eq; lia|lia].
  - rewrite u32_small by (unfold is_u32; lia). split; [|lia].
    apply (ones_mod _ _ (len / 65536 / 256 mod 256 + len / 256 mod 256)); lia.
Qed.

(** The copy of the addresses, or the addresses in place. *)
Lemma in6_copy_ok m a : at_ m offsetof_ip6_src a → length a = 32%nat →
  ∃ p w, (if (m_data m + offsetof_ip6_src) mod 2 =? 0 then Ok (m, offsetof_ip6_src)
          else u ← read_bytes m offsetof_ip6_src 32; Ok (Mbuf 0 32 u, 0)) = Ok (p, w) ∧
    at_ p w a ∧ (m_data p + w) mod 2 = 0.
Proof.
  intros Hat Hlen. destruct (Z.eqb_spec ((m_data m + offsetof_ip6_src) mod 2) 0) as [E|E].
  - by exists m, offsetof_ip6_src.
  - exists (Mbuf 0 32 a), 0. pose proof (read_bytes_ok m a _ Hat) as Hr. rewrite Hlen in Hr.
    rewrite Hr, Ok_bind. split; [done|]. split; [|done]. by split.
Qed.

Lemma clearscope_ok a : bytes_ok a → length a = 16%nat →
  bytes_ok (in6_clearscope a).1 ∧ length (in6_clearscope a).1 = 16%nat.
Proof.
  intros Hok Hlen. unfold in6_clearscope. case_bool; [|done]. simpl.
  rewrite !length_insert. split; [|done]. by repeat (apply Forall_insert; [|done]).
Qed.

(** The sums of both addresses. *)
Lemma in6_addrs_ok p w a b sum (k : Z → res Z) :
  at_ p w (a ++ b) → bytes_ok a → bytes_ok b → length a = 16%nat → length b = 16%nat →
  (m_data p + w) mod 2 = 0 → 0 ≤ sum < 2 ^ 31 →
  (in6_src ← read_bytes p w 16;
   in6_dst ← read_bytes p (w + 16) 16;
   sum ← in6_addr_words p w (IN6_IS_SCOPE_EMBEDDABLE in6_src) sum;
   sum ← in6_addr_words p (w + 16) (IN6_IS_SCOPE_EMBEDDABLE in6_dst) sum;
   k sum) =
  k (sum + bsum false (in6_clearscope a).1 + bsum false (in6_clearscope b).1) ∧
  bsum false (in6_clearscope a).1 + bsum false (in6_clearscope b).1 ≤ 16 * 65535.
Proof.
  intros [Hata Hatb]%at_app Hoka Hokb Ha Hb Hal Hs. rewrite Ha in Hatb. change (Z.of_nat 16) with 16 in Hatb.
  pose proof (read_bytes_ok p a _ Hata) as Hra. pose proof (read_bytes_ok p b _ Hatb) as Hrb.
  rewrite Ha in Hra. rewrite Hb in Hrb. rewrite Hra, Ok_bind, Hrb, Ok_bind.
  assert (∀ c, (if IN6_IS_SCOPE_EMBEDDABLE c then <[2%nat:=0]> (<[3%nat:=0]> c) else c)
    = (in6_clearscope c).1) as Hc.
  { intros c. unfold in6_clearscope, IN6_IS_SCOPE_EMBEDDABLE. by destruct (_ || _). }
  destruct (in6_addr_words_ok p w a (IN6_IS_SCOPE_EMBEDDABLE a) sum) as (s1 & -> & E1 & B1);
    [done..|lia|lia|]. rewrite Hc in E1, B1.
  destruct (clearscope_ok a) as [Hca _]; [done..|]. pose proof (bsum_nonneg _ Hca false).
  destruct (in6_addr_words_ok p (w + 16) b (IN6_IS_SCOPE_EMBEDDABLE b) s1) as (s2 & E & E2 & B2);
    [done..|even_addr|lia|lia|]. rewrite Hc in E2, B2.
  rewrite Ok_bind, E, Ok_bind. split; [f_equal; lia|lia].
Qed.

Lemma in6_cksum_value ms pkt nxt off len :
  packet sizeof_ip6_hdr ms pkt → 1 ≤ nxt < 256 → sizeof_ip6_hdr ≤ off < 2 ^ 31 →
  0 ≤ len < 2 ^ 31 → (len = 0 → len0_ok ms off) →
  in6_cksum ms nxt off len =
    Ok (if enough ms len off
        then rfc1071 (pseudo6 pkt nxt len ++ part off len pkt) else -1).
Proof.
  intros Hp Hn Ho Hl H00. pose proof Hp as (Hms & <- & Hm0). unfold in6_cksum.
  destruct ms as [|m0 ms']; [done|]. destruct Hm0 as [Hm0 Hend]. set (ms := m0 :: ms') in *.
  pose proof (proj1 (Forall_cons_1 _ _ _ Hms)) as ((Hl0 & Hl1) & Hst & Hsto).
  pose proof (packet_ok _ _ _ Hp) as Hpok. unfold sizeof_ip6_hdr in *.
  rewrite !size_t_small, !(proj2 (Z.ltb_ge _ _)), (proj2 (Z.eqb_neq nxt 0)) by lia.
  rewrite !s32_small by lia. fold (in6_start nxt len).
  destruct (in6_start_ok nxt len) as [Es Hs]; [done|unfold is_u32; lia|].
  set (a := part offsetof_ip6_src 16 (flat ms)). set (b := part offsetof_ip6_dst 16 (flat ms)).
  assert (at_ m0 offsetof_ip6_src (a ++ b) ∧ length a = 16%nat ∧ length b = 16%nat)
    as (Hat & Ha & Hb).
  { destruct (packet_at 40 m0 ms' (flat ms) offsetof_ip6_src 16) as [? El]; [done|done|done|done|].
    destruct (packet_at 40 m0 ms' (flat ms) offsetof_ip6_dst 16) as [? El']; [done|done|done|done|].
    rewrite at_app. unfold a, b. split; [|lia]. by rewrite El. }
  destruct (in6_copy_ok m0 (a ++ b)) as (p & w & -> & Hat' & Hal);
    [done|by rewrite length_app, Ha, Hb|]. rewrite Ok_bind.
  assert (bytes_ok a ∧ bytes_ok b) as [Hoka Hokb] by (by split; apply part_ok).
  destruct (in6_addrs_ok p w a b (in6_start nxt len) (cpu_in_cksum ms len off)) as [-> B];
    [done..|lia|].
  destruct (clearscope_ok a) as [Hca Hla]; [done..|]. destruct (clearscope_ok b) as [Hcb Hlb]; [done..|].
  pose proof (bsum_nonneg _ Hca false). pose proof (bsum_nonneg _ Hcb false).
  assert (bytes_ok (be32 len ++ [0; 0; 0; nxt])) as Hokn.
  { apply (Forall_app_2 is_u8); [apply (Forall_app_2 is_u8); apply be16_ok|].
    repeat constructor; lia. }
  assert (∀ c, length c = 16%nat → odd_len c = false) as Hodd
    by (intros c Hc; unfold odd_len; by rewrite Hc).
  unfold pseudo6. fold a b. apply cksum_front; [done|unfold is_u32; lia|lia|lia|done| | |].
  - apply (Forall_app_2 is_u8); [done|]. by apply (Forall_app_2 is_u8).
  - by rewrite !odd_len_app, (Hodd _ Hla), (Hodd _ Hlb).
  - rewrite !bsum_app, (Hodd _ Hla), (Hodd _ Hlb).
    pose proof (bsum_nonneg _ Hokn false) as Hn0. rewrite bsum_app in Hn0, Es.
    change (odd_len (be32 len)) with false in *. cbn [xorb] in *.
    rewrite Es. apply ones_of_eq; lia.
Qed.

(** ** Delayed checksums *)

(** The words that host code reads from memory in network order. *)
Definition s_addr (bs : list Z) : Z :=
  match bs with
  | [b0; b1; b2; b3] =>
      if big_endian then Z.shiftl (half b0 b1) 16 + half b2 b3
      else half b0 b1 + Z.shiftl (half b2 b3) 16
  | _ => 0
  end.
Definition htons (n : Z) : Z := half (n / 256 mod 256) (n mod 256).
Definition htonl (n : Z) : Z := s_addr (be32 n).

(** A [uint16_t] in memory. *)
Definition store16 (n : Z) : list Z := if big_endian then [n / 256; n mod 256] else [n mod 256; n / 256].

Lemma store16_ok n : 0 ≤ n ≤ 65535 → bytes_ok (store16 n) ∧ bsum false (store16 n) = n.
Proof.
  intros Hn. unfold store16. split.
  - destruct big_endian; repeat constructor; unfold is_u8; Z.div_mod_to_equations; lia.
  - unfold bsum, weight. destruct big_endian; cbn [xorb negb]; Z.div_mod_to_equations; lia.
Qed.

Lemma s_addr_ok bs : bytes_ok bs → length bs = 4%nat → s_addr bs ≈ bsum false bs ∧ is_u32 (s_addr bs).
Proof.
  intros Hok Hlen. do 4 (destruct bs as [|? bs]; [done|]). destruct bs; [|done]. by apply word_sum.
Qed.

Lemma fold16_ok sum : is_u32 sum → fold16 sum ≈ sum ∧ fold16 sum ≤ 65535.
Proof.
  unfold is_u32, fold16, u16. intros Hs. rewrite Z.shiftr_div_pow2 by done.
  rewrite (Z.mod_small (sum / 2 ^ 16)) by (Z.div_mod_to_equations; lia).
  pose proof (ones_fold 1 sum ltac:(done) ltac:(lia)) as E.
  change (sum .& Z.ones (16 * 1)) with (sum .& 0xffff) in E. change (16 * 1) with 16 in E.
  rewrite land_ffff, Z.shiftr_div_pow2 in E by done. change (2 ^ 16) with 65536 in *.
  set (f := sum / 65536 + sum mod 65536) in *.
  assert (0 ≤ f ≤ 131070) by (unfold f; Z.div_mod_to_equations; lia).
  cbv zeta. destruct (Z.gtb_spec f 0xffff); rewrite Z.mod_small by lia; (split; [|lia]).
  - rewrite <-E. apply (ones_mod _ _ (-1)); lia.
  - exact E.
Qed.

(** The two 16-bit halves that the inline functions add up. *)
Lemma u16_halves n : is_u32 n → u16 (Z.shiftr n 16) + u16 n ≈ n ∧
  0 ≤ u16 (Z.shiftr n 16) ≤ 65535 ∧ 0 ≤ u16 n ≤ 65535.
Proof.
  unfold is_u32, u16. intros Hn. pose proof (ones_fold 1 n ltac:(done) ltac:(lia)) as E.
  change (n .& Z.ones (16 * 1)) with (n .& 0xffff) in E. change (16 * 1) with 16 in E.
  rewrite land_ffff, Z.shiftr_div_pow2 in * by done. change (2 ^ 16) with 65536 in *.
  rewrite (Z.mod_small (n / 65536)) by (Z.div_mod_to_equations; lia).
  split; [done|]. Z.div_mod_to_equations. lia.
Qed.

Lemma in_cksum_phdr_ok src dst lenproto : is_u32 src → is_u32 dst → 0 ≤ lenproto ≤ 65535 →
  in_cksum_phdr src dst lenproto ≈ lenproto + src + dst ∧
  in_cksum_phdr src dst lenproto ≤ 65535.
Proof.
  intros Hs Hd Hl. unfold in_cksum_phdr.
  destruct (u16_halves src Hs) as (Es & ? & ?). destruct (u16_halves dst Hd) as (Ed & ? & ?).
  rewrite u32_small by (unfold is_u32; lia).
  match goal with |- fold16 ?x ≈ _ ∧ _ => destruct (fold16_ok x) as [E B]; [unfold is_u32; lia|] end.
  split; [|done]. rewrite E.
  transitivity (lenproto + (u16 (Z.shiftr src 16) + u16 src) + (u16 (Z.shiftr dst 16) + u16 dst)).
  - apply ones_of_eq; lia.
  - destruct Hs, Hd. rewrite Es, Ed. apply ones_refl. lia.
Qed.

(** Words can be added to such a sum one by one. *)
Lemma in_cksum_addword_ok a b : 0 ≤ a ≤ 65535 → 0 ≤ b ≤ 65535 →
  in_cksum_addword a b ≈ a + b ∧ in_cksum_addword a b ≤ 65535.
Proof.
  intros Ha Hb. unfold in_cksum_addword, u16. rewrite u32_small by (unfold is_u32; lia).
  cbv zeta. destruct (Z.gtb_spec (a + b) 0xffff); rewrite Z.mod_small by lia; (split; [|lia]).
  - apply (ones_mod _ _ (-1)); lia.
  - apply ones_refl. lia.
Qed.

Lemma in6_cksum_phdr_ok src dst a b len nxt :
  at_ src 0 a → at_ dst 0 b → bytes_ok a → bytes_ok b → length a = 16%nat → length b = 16%nat →
  m_data src mod 2 = 0 → m_data dst mod 2 = 0 → is_u32 len → is_u32 nxt →
  IN6_IS_ADDR_MC_INTFACELOCAL a = false → IN6_IS_ADDR_MC_INTFACELOCAL b = false →
  ∃ s, in6_cksum_phdr src dst len nxt = Ok s ∧ s ≤ 65535 ∧
    s ≈ bsum false (in6_clearscope a).1 + bsum false (in6_clearscope b).1 + len + nxt.
Proof.
  intros Hata Hatb Hoka Hokb Ha Hb Hala Halb Hl Hn Hia Hib. unfold in6_cksum_phdr.
  pose proof (read_bytes_ok src a _ Hata) as Hra. pose proof (read_bytes_ok dst b _ Hatb) as Hrb.
  rewrite Ha in Hra. rewrite Hb in Hrb. rewrite Hra, Ok_bind.
  destruct (in6_addr_words_ok src 0 a (IN6_IS_SCOPE_LINKLOCAL a) 0) as (s1 & -> & E1 & B1);
    [done..|by rewrite Z.add_0_r|lia|lia|]. rewrite Ok_bind, Hrb, Ok_bind.
  assert (∀ c, IN6_IS_ADDR_MC_INTFACELOCAL c = false →
    (if IN6_IS_SCOPE_LINKLOCAL c then <[2%nat:=0]> (<[3%nat:=0]> c) else c) =
    (in6_clearscope c).1) as Hc.
  { intros c Hi. unfold in6_clearscope. rewrite Hi, orb_false_r. by destruct (IN6_IS_SCOPE_LINKLOCAL c). }
  rewrite Hc in E1, B1 by done.
  destruct (clearscope_ok a) as [Hca _]; [done..|]. destruct (clearscope_ok b) as [Hcb _]; [done..|].
  pose proof (bsum_nonneg _ Hca false). pose proof (bsum_nonneg _ Hcb false).
  destruct (in6_addr_words_ok dst 0 b (IN6_IS_SCOPE_LINKLOCAL b) s1) as (s2 & -> & E2 & B2);
    [done..|by rewrite Z.add_0_r|lia|lia|]. rewrite Hc in E2, B2 by done. rewrite Ok_bind.
  destruct (u16_halves len Hl) as (El & ? & ?). destruct (u16_halves nxt Hn) as (En & ? & ?).
  cbv zeta. rewrite (u32_small (s2 + _)), u32_small by (unfold is_u32; lia).
  match goal with |- context [fold16 ?x] => destruct (fold16_ok x) as [E B]; [unfold is_u32; lia|] end.
  eexists. split; [done|]. split; [done|].
  rewrite E.
  transitivity (s2 + (u16 (Z.shiftr len 16) + u16 len) + (u16 (Z.shiftr nxt 16) + u16 nxt)).
  - apply ones_of_eq; lia.
  - destruct Hl, Hn. rewrite El, En. apply ones_of_eq; lia.
Qed.

(** ** A field that is filled in *)

(** The packet [pkt] with the 16-bit field at [i] set to [c]. *)
Definition with_field (pkt : list Z) (i c : Z) : list Z :=
  take (Z.to_nat i) pkt ++ store16 c ++ drop (Z.to_nat (i + 2)) pkt.

Lemma store16_length c : length (store16 c) = 2%nat.
Proof. unfold store16. by destruct big_endian. Qed.

Lemma with_field_length pkt i c : 0 ≤ i → i + 2 ≤ Z.of_nat (length pkt) →
  length (with_field pkt i c) = length pkt.
Proof.
  intros. unfold with_field. rewrite !length_app, length_take, length_drop, store16_length. lia.
Qed.

(** The parts in front of the field, and the part that holds it. *)
Lemma part_with_field_before pkt i c off len : 0 ≤ off → 0 ≤ len → off + len ≤ i →
  i ≤ Z.of_nat (length pkt) → part off len (with_field pkt i c) = part off len pkt.
Proof.
  intros. unfold part, with_field.
  rewrite drop_app_le by (rewrite length_take; lia).
  rewrite take_app_le by (rewrite length_drop, length_take; lia).
  rewrite skipn_firstn_comm, take_take. f_equal. lia.
Qed.

Lemma part_with_field pkt off len f c :
  0 ≤ off → 0 ≤ f → f + 2 ≤ len → off + len ≤ Z.of_nat (length pkt) →
  part off len (with_field pkt (off + f) c) =
    part off f pkt ++ store16 c ++ part (off + f + 2) (len - f - 2) pkt.
Proof.
  intros. unfold part, with_field.
  rewrite drop_app_le by (rewrite length_take; lia).
  rewrite skipn_firstn_comm. replace (Z.to_nat (off + f) - Z.to_nat off)%nat with (Z.to_nat f) by lia.
  rewrite take_app_ge by (rewrite length_take, length_drop; lia). f_equal.
  rewrite length_take, length_drop.
  rewrite take_app_ge by (rewrite store16_length; lia). rewrite store16_length. do 2 f_equal. lia.
Qed.

Lemma complement s : 0 ≤ s ≤ 65535 → Z.lnot s .& 0xffff = 65535 - s.
Proof. intros. rewrite land_ffff. unfold Z.lnot. Z.div_mod_to_equations. lia. Qed.

(** A message with a field at an even position: a sum of its header in the field
    gives the checksum without the header, and the checksum in the field verifies. *)
Lemma field_fill hdr pre post ph :
  bytes_ok hdr → bytes_ok pre → bytes_ok post → odd_len hdr = false → odd_len pre = false →
  0 < bsum false hdr → ph ≈ bsum false hdr → ph ≤ 65535 →
  let seg c := pre ++ store16 c ++ post in
  let c := rfc1071 (hdr ++ seg 0) in
  0 ≤ c ≤ 65535 ∧ rfc1071 (seg ph) = c ∧ rfc1071 (hdr ++ seg c) = 0.
Proof.
  intros Hh Hpre Hpost Oh Op Hpos Eph Hph seg c.
  assert (∀ d, 0 ≤ d ≤ 65535 → bytes_ok (seg d) ∧ bsum false (seg d) = d + bsum false (seg 0))
    as Hseg.
  { intros d Hd. destruct (store16_ok d Hd) as [Hd1 Hd2]. destruct (store16_ok 0) as [_ H0]; [lia|].
    split; [by repeat (apply (Forall_app_2 is_u8); [done|])|]. unfold seg.
    rewrite !bsum_app, Op. cbn [xorb]. rewrite Hd2, H0. unfold odd_len. rewrite !store16_length. lia. }
  destruct (Hseg 0) as [Hs0 _]; [lia|]. pose proof (bsum_nonneg _ Hs0 false).
  assert (∀ d, 0 ≤ d ≤ 65535 → bytes_ok (hdr ++ seg d)) as Hok
    by (intros d Hd; apply (Forall_app_2 is_u8); [done|by apply Hseg]).
  destruct (rfc1071_value 0 (hdr ++ seg 0)) as (s & Ec & Es & Bs); [done|apply Hok; lia|].
  change (rfc1071_from 0 (hdr ++ seg 0)) with c in Ec.
  rewrite Z.add_0_l, bsum_app, Oh in Es. cbn [xorb] in Es.
  pose proof Es as (Hs & _). rewrite complement in Ec by lia.
  assert (0 ≤ c ≤ 65535) as Hc by lia. split; [done|]. split.
  - pose proof Eph as (Hph0 & _). destruct (Hseg ph) as [Hsp Ep]; [lia|]. unfold rfc1071.
    rewrite <-(rfc1071_unique 0 (seg ph) s); [by rewrite complement by lia|done|done| |done].
    rewrite Z.add_0_l, Ep, Es, Eph. apply ones_refl. lia.
  - destruct (Hseg c Hc) as [_ Ecc].
    destruct (rfc1071_value 0 (hdr ++ seg c)) as (t & Et & Ht & Bt); [done|by apply Hok|].
    unfold rfc1071. rewrite Et. rewrite Z.add_0_l, bsum_app, Oh in Ht. cbn [xorb] in Ht.
    assert (t = 65535) as ->; [|done]. apply ones_unique; [|lia|lia].
    rewrite Ht, Ecc. transitivity (c + (bsum false hdr + bsum false (seg 0))).
    + apply ones_of_eq; lia.
    + rewrite <-Es. apply ones_of_eq; lia.
Qed.

(** ** The checksums of a transport protocol over IPv4 and over IPv6 *)

Definition ip_cksum (v6 : bool) : list mbuf → Z → Z → Z → res Z :=
  if v6 then in6_cksum else in4_cksum.
Definition ip_hlen (v6 : bool) : Z := if v6 then sizeof_ip6_hdr else sizeof_ip.
Definition pseudo (v6 : bool) : list Z → Z → Z → list Z := if v6 then pseudo6 else pseudo4.

(** The calls of the inline functions for a packet. *)
Definition ip_phdr (v6 : bool) (pkt : list Z) (nxt len : Z) : res Z :=
  if v6 then
    in6_cksum_phdr (Mbuf 0 16 (part offsetof_ip6_src 16 pkt)) (Mbuf 0 16 (part offsetof_ip6_dst 16 pkt))
      (htonl len) (htonl nxt)
  else
    Ok (in_cksum_phdr (s_addr (part offsetof_ip_src 4 pkt)) (s_addr (part (offsetof_ip_src + 4) 4 pkt))
          (htons (len + nxt))).

(** [in6_cksum_phdr] forgets that these addresses hold a zone too. *)
Definition no_zone (v6 : bool) (pkt : list Z) : Prop :=
  v6 = true →
  IN6_IS_ADDR_MC_INTFACELOCAL (part offsetof_ip6_src 16 pkt) = false ∧
  IN6_IS_ADDR_MC_INTFACELOCAL (part offsetof_ip6_dst 16 pkt) = false.

(** Without a protocol the checksum is that of the bytes alone. *)
Definition pseudo_of (v6 : bool) (pkt : list Z) (nxt len : Z) : list Z :=
  if nxt =? 0 then [] else pseudo v6 pkt nxt len.

Lemma ip_cksum_value v6 ms pkt nxt off len :
  packet (ip_hlen v6) ms pkt → 0 ≤ nxt < 256 → 0 ≤ off < 2 ^ 31 →
  (nxt ≠ 0 → ip_hlen v6 ≤ off) → 0 ≤ len < 2 ^ 31 → (len = 0 → len0_ok ms off) →
  ip_cksum v6 ms nxt off len =
    Ok (if enough ms len off
        then rfc1071 (pseudo_of v6 pkt nxt len ++ part off len pkt) else -1).
Proof.
  intros Hp Hn Ho Hh Hl H0. unfold pseudo_of. destruct (Z.eqb_spec nxt 0) as [->|Hne].
  - pose proof Hp as (Hms & <- & Hm0).
    assert (cpu_in_cksum ms len off 0 = cksum_spec ms len off 0) as E
      by (apply cpu_in_cksum_value; done || lia).
    unfold cksum_spec in E. change (rfc1071 ([] ++ ?x)) with (rfc1071_from 0 x).
    destruct v6; simpl.
    + unfold in6_cksum. simpl. by rewrite !s32_small by lia.
    + unfold in4_cksum. destruct ms as [|m0 ms']; [done|]. destruct Hm0 as [Hm0 _].
      pose proof (proj1 (Forall_cons_1 _ _ _ Hms)) as ((? & ?) & _).
      unfold ip_hlen, sizeof_ip in *. by rewrite size_t_small, (proj2 (Z.ltb_ge _ _)) by lia.
  - specialize (Hh Hne). destruct v6; [apply in6_cksum_value|apply in4_cksum_value];
      cbn [ip_hlen] in *; done || lia.
Qed.

Lemma htons_ok len nxt : 1 ≤ nxt < 256 → 0 ≤ len → len + nxt < 65536 →
  htons (len + nxt) ≈ bsum false ([0; nxt] ++ be16 len) ∧ 0 < htons (len + nxt) ≤ 65535.
Proof.
  intros Hn Hl Hb. destruct (in4_start_ok nxt len Hn) as [E _]. set (b := bsum _ _) in *.
  unfold in4_start, htons, half in *. rewrite land_ffff, (Z.mod_small len) in E by lia.
  rewrite !Z.shiftl_mul_pow2 in * by done. change (2 ^ 8) with 256 in *.
  set (n := len + nxt) in *. rewrite (Z.mod_small (n / 256)) by (Z.div_mod_to_equations; lia).
  destruct big_endian; rewrite u32_small in E by (unfold is_u32; lia).
  - split; [|Z.div_mod_to_equations; lia]. rewrite <-E.
    apply ones_of_eq; Z.div_mod_to_equations; lia.
  - split; [|Z.div_mod_to_equations; lia]. rewrite <-E.
    apply (ones_mod _ _ (- (n / 256))); Z.div_mod_to_equations; lia.
Qed.

Lemma part_split off a b bs : 0 ≤ off → 0 ≤ a → 0 ≤ b →
  part off (a + b) bs = part off a bs ++ part (off + a) b bs.
Proof.
  intros. unfold part. rewrite !Z2Nat.inj_add by lia.
  by rewrite <-drop_drop, take_take_drop.
Qed.

Lemma part_length off len bs : 0 ≤ off → 0 ≤ len → off + len ≤ Z.of_nat (length bs) →
  length (part off len bs) = Z.to_nat len.
Proof. intros. unfold part. rewrite length_take, length_drop. lia. Qed.

(** The inline functions compute the sum of the pseudo header, in 16 bits. *)
Definition phdr_spec (hdr : list Z) (r : res Z) : Prop :=
  bytes_ok hdr ∧ odd_len hdr = false ∧ 0 < bsum false hdr ∧
  ∃ ph, r = Ok ph ∧ ph ≈ bsum false hdr ∧ ph ≤ 65535.

Lemma ip4_phdr_ok pkt nxt len :
  bytes_ok pkt → sizeof_ip ≤ Z.of_nat (length pkt) → 1 ≤ nxt < 256 → 0 ≤ len →
  len + nxt < 65536 → phdr_spec (pseudo4 pkt nxt len) (ip_phdr false pkt nxt len).
Proof.
  intros Hok Hlen Hn Hl Hb. unfold sizeof_ip in *. unfold phdr_spec, pseudo4, ip_phdr.
  set (o := offsetof_ip_src). change 8 with (4 + 4). rewrite part_split by done.
  set (a := part o 4 pkt). set (b := part (o + 4) 4 pkt). set (t := [0; nxt] ++ be16 len).
  assert (length a = 4%nat ∧ length b = 4%nat) as [Ha Hb'].
  { unfold a, b, o, offsetof_ip_src. rewrite !part_length by lia. done. }
  assert (bytes_ok a ∧ bytes_ok b) as [Hoka Hokb] by (by split; apply part_ok).
  assert (bytes_ok t) as Hokt.
  { apply (Forall_app_2 is_u8); [|apply be16_ok]. repeat constructor; lia. }
  destruct (htons_ok len nxt) as [Eh Hh]; [done..|]. fold t in Eh.
  assert (bsum false ((a ++ b) ++ t) = bsum false a + bsum false b + bsum false t) as Es.
  { rewrite !bsum_app, odd_len_app. unfold odd_len. by rewrite Ha, Hb'. }
  pose proof (bsum_nonneg a Hoka false). pose proof (bsum_nonneg b Hokb false).
  pose proof Eh as (? & ? & _ & ?).
  destruct (s_addr_ok a) as [Ea ?]; [done..|]. destruct (s_addr_ok b) as [Eb ?]; [done..|].
  split; [by repeat (apply (Forall_app_2 is_u8); [|done])|].
  split; [rewrite !odd_len_app; unfold odd_len; by rewrite Ha, Hb'|].
  split; [lia|]. eexists. split; [done|].
  destruct (in_cksum_phdr_ok (s_addr a) (s_addr b) (htons (len + nxt))) as [E B]; [done..|lia|].
  destruct (ones_eq_nonneg _ _ Ea), (ones_eq_nonneg _ _ Eb).
  split; [|done]. rewrite E, Es, Eh, Ea, Eb. apply ones_of_eq; lia.
Qed.

Lemma ip6_phdr_ok pkt nxt len :
  bytes_ok pkt → sizeof_ip6_hdr ≤ Z.of_nat (length pkt) → 1 ≤ nxt < 256 → is_u32 len →
  no_zone true pkt → phdr_spec (pseudo6 pkt nxt len) (ip_phdr true pkt nxt len).
Proof.
  intros Hok Hlen Hn Hl [Hza Hzb]; [done|]. unfold sizeof_ip6_hdr in *. unfold phdr_spec, pseudo6, ip_phdr.
  set (a := part _ 16 pkt) in *. set (b := part offsetof_ip6_dst 16 pkt) in *.
  assert (length a = 16%nat ∧ length b = 16%nat) as [Ha Hb].
  { unfold a, b, offsetof_ip6_src, offsetof_ip6_dst. rewrite !part_length by lia. done. }
  assert (bytes_ok a ∧ bytes_ok b) as [Hoka Hokb] by (by split; apply part_ok).
  assert (be32 nxt = [0; 0; 0; nxt]) as En.
  { unfold be32, be16. cbn [app].
    rewrite (Z.div_small nxt 65536), (Z.div_small nxt 256), (Z.mod_small nxt 256) by lia. done. }
  assert (∀ n, bytes_ok (be32 n)) as Hokn by (intros n; apply (Forall_app_2 is_u8); apply be16_ok).
  destruct (s_addr_ok (be32 len)) as [El ?]; [done..|].
  destruct (s_addr_ok (be32 nxt)) as [Ex ?]; [done..|].
  destruct (clearscope_ok a) as [Hca Hla]; [done..|]. destruct (clearscope_ok b) as [Hcb Hlb]; [done..|].
  rewrite <-En. set (ca := (in6_clearscope a).1) in *. set (cb := (in6_clearscope b).1) in *.
  assert (bsum false (ca ++ cb ++ be32 len ++ be32 nxt) =
    bsum false ca + bsum false cb + bsum false (be32 len) + bsum false (be32 nxt)) as Es.
  { assert (odd_len ca = false) as Oa by (unfold odd_len; by rewrite Hla).
    assert (odd_len cb = false) as Ob by (unfold odd_len; by rewrite Hlb).
    rewrite !bsum_app, Oa, Ob. change (odd_len (be32 len)) with false. cbn [xorb]. lia. }
  pose proof (bsum_nonneg ca Hca false). pose proof (bsum_nonneg cb Hcb false).
  pose proof (bsum_nonneg _ (Hokn len) false).
  assert (0 < bsum false (be32 nxt)).
  { rewrite En. cbn [bsum negb]. pose proof (weight_bounds true). nia. }
  split.
  { do 2 (apply (Forall_app_2 is_u8); [done|]). apply (Forall_app_2 is_u8); apply Hokn. }
  split; [rewrite !odd_len_app; unfold odd_len; by rewrite Hla, Hlb|].
  split; [lia|].
  destruct (in6_cksum_phdr_ok (Mbuf 0 16 a) (Mbuf 0 16 b) a b (htonl len) (htonl nxt))
    as (ph & -> & B & E); [done..|]. exists ph. split; [done|]. split; [|done].
  destruct (ones_eq_nonneg _ _ El), (ones_eq_nonneg _ _ Ex).
  fold ca cb in E. unfold htonl in E. rewrite E, Es, El, Ex. apply ones_of_eq; lia.
Qed.

(** The pseudo header looks only at the header. *)
Lemma pseudo_before v6 pkt i c nxt len : ip_hlen v6 ≤ i → i ≤ Z.of_nat (length pkt) →
  pseudo v6 (with_field pkt i c) nxt len = pseudo v6 pkt nxt len.
Proof.
  intros Hi Hl. destruct v6; unfold pseudo, pseudo6, pseudo4, ip_hlen, sizeof_ip6_hdr, sizeof_ip,
    offsetof_ip6_src, offsetof_ip6_dst, offsetof_ip_src in *; by rewrite !part_with_field_before by lia.
Qed.

(** C34: The checksum of a transport protocol over IPv4 or IPv6 is the RFC 1071
    checksum of the pseudo header, with the addresses of the packet (without the
    zone that the kernel stores in IPv6 addresses of link or interface scope), the
    protocol and the length, followed by the [len] bytes from [off] on, and
    without a pseudo header when the protocol is 0; it is -1 if the packet is
    shorter. This holds also if the addresses are at an odd address. The header
    lies in the first mbuf, whose buffer ends at an even address (at an odd
    address [in4_cksum] loads the word that holds the byte after the addresses);
    the protocol is below 256, the offset after the header unless the protocol is
    0; and for a length of 0 the first mbuf ends before the offset or the byte at
    the offset has an even address. *)
Theorem in46_cksum_pseudo (v6 : bool) ms pkt nxt off len :
  packet (ip_hlen v6) ms pkt → 0 ≤ nxt < 256 → 0 ≤ off < 2 ^ 31 →
  (nxt ≠ 0 → ip_hlen v6 ≤ off) → 0 ≤ len < 2 ^ 31 → (len = 0 → len0_ok ms off) →
  ip_cksum v6 ms nxt off len =
    Ok (if enough ms len off
        then rfc1071 (pseudo_of v6 pkt nxt len ++ part off len pkt) else -1).
Proof. apply ip_cksum_value. Qed.

(** C35: A checksum field verifies however it is filled. With the checksum of the
    packet whose field (at an even offset of the segment) is zero in the field, the
    checksum of the packet is zero, which is what a receiver tests. The delayed
    way, the sum of [in_cksum_phdr] or [in6_cksum_phdr] in the field and later the
    checksum of the segment alone, gives the same checksum, unless an IPv6 address
    is an interface local multicast address: of these [in6_cksum_phdr] sums the
    zone and [in6_cksum] does not ([phdr_keeps_interface_zone] below). The
    chains hold the IP header in their first mbuf, whose buffer ends at an even
    address, the protocol is not 0, the segment lies after the
    header and holds the field, and its length plus the protocol is below 2^16. *)
Theorem cksum_field_verifies (v6 : bool) pkt nxt off len f ms0 :
  bytes_ok pkt → 1 ≤ nxt < 256 → ip_hlen v6 ≤ off < 2 ^ 31 → 0 ≤ f → f mod 2 = 0 →
  f + 2 ≤ len → len + nxt < 65536 → off + len ≤ Z.of_nat (length pkt) → no_zone v6 pkt →
  packet (ip_hlen v6) ms0 (with_field pkt (off + f) 0) →
  ∃ c ph, ip_cksum v6 ms0 nxt off len = Ok c ∧
    (∀ ms, packet (ip_hlen v6) ms (with_field pkt (off + f) c) → ip_cksum v6 ms nxt off len = Ok 0) ∧
    ip_phdr v6 pkt nxt len = Ok ph ∧
    (∀ ms, packet (ip_hlen v6) ms (with_field pkt (off + f) ph) → cpu_in_cksum ms len off 0 = Ok c).
Proof.
  intros Hok Hn Ho Hf Hev Hfl Hb Hlen Hz Hp0.
  assert (20 ≤ ip_hlen v6) by (by destruct v6).
  assert (ip_hlen v6 ≤ Z.of_nat (length pkt)) as Hh0 by lia.
  assert (phdr_spec (pseudo v6 pkt nxt len) (ip_phdr v6 pkt nxt len)) as (Hh & Oh & Hpos & ph & Eph & E & B).
  { destruct v6; [apply ip6_phdr_ok|apply ip4_phdr_ok]; unfold is_u32; done || lia. }
  assert (∀ d ms, packet (ip_hlen v6) ms (with_field pkt (off + f) d) →
    ip_cksum v6 ms nxt off len = Ok (rfc1071 (pseudo v6 pkt nxt len ++
      part off f pkt ++ store16 d ++ part (off + f + 2) (len - f - 2) pkt))) as Hv.
  { intros d ms Hp. rewrite (ip_cksum_value _ _ _ _ _ _ Hp) by lia.
    unfold pseudo_of, enough. pose proof Hp as (_ & -> & _).
    rewrite !(proj2 (Z.eqb_neq _ 0)), with_field_length, (proj2 (Z.leb_le _ _)) by lia. by rewrite part_with_field, pseudo_before by lia. }
  assert (odd_len (part off f pkt) = false) as Op.
  { unfold odd_len. rewrite part_length, Z2Nat.id by lia. rewrite <-Z.negb_even.
    by rewrite Zeven_mod, Hev. }
  destruct (field_fill (pseudo v6 pkt nxt len) (part off f pkt) (part (off + f + 2) (len - f - 2) pkt) ph)
    as (Hc & Ec & Ez); [done|by apply part_ok..|done|done|done|done|done|].
  eexists _, ph. split; [by apply Hv|]. split; [|split; [done|]].
  - intros ms Hp. by rewrite (Hv _ _ Hp), Ez.
  - intros ms (Hms & Hfl' & _). rewrite cpu_in_cksum_value by (done || lia). unfold cksum_spec, enough.
    rewrite (proj2 (Z.eqb_neq _ 0)), Hfl', with_field_length, (proj2 (Z.leb_le _ _)), part_with_field by lia.
    by rewrite <-Ec.
Qed.

End pseudo.

(** ** Examples *)

(** An IPv4 and an IPv6 packet with 13 bytes of UDP, the IPv6 one from a link
    local address in zone 7; a chain with the header at an odd address. *)
Definition udp : list Z := [0x30; 0x39; 0; 53; 0; 13; 0xab; 0xcd; 1; 2; 3; 4; 5].
Definition pkt4 : list Z :=
  [0x45; 0; 0; 33; 0; 1; 0; 0; 64; 17; 0; 0; 192; 168; 1; 2; 10; 200; 30; 4] ++ udp.
Definition pkt6 : list Z :=
  [0x60; 0; 0; 0; 0; 13; 17; 64] ++ ([0xfe; 0x80; 0; 7] ++ replicate 8 0 ++ [0; 0; 0; 1]) ++
  ([0x20; 1; 0xd; 0xb8] ++ replicate 11 0 ++ [9]) ++ udp.
Definition cut (n : nat) (pkt : list Z) : list mbuf :=
  [Mbuf 4097 (Z.of_nat n) (take n pkt ++ replicate (S (Nat.modulo n 2)) 0);
   Mbuf 8192 (Z.of_nat (length pkt - n)) (drop n pkt)].

(** A closed chain holds a closed packet. *)
Ltac by_packet := split; [by_decide|clear; vm_compute; repeat split; done].

Lemma in46_cksum_pseudo_witness :
  @ip_cksum pc false (cut 20 pkt4) 17 20 13 = Ok 7216 ∧ @ip_cksum pc true (cut 44 pkt6) 17 40 13 = Ok 20206.
Proof.
  assert (packet (ip_hlen false) (cut 20 pkt4) pkt4) as H4 by by_packet.
  assert (packet (ip_hlen true) (cut 44 pkt6) pkt6) as H6 by by_packet.
  split.
  - rewrite (@in46_cksum_pseudo pc false (cut 20 pkt4) pkt4 17 20 13 H4
      ltac:(by_decide) ltac:(by_decide) ltac:(by_decide) ltac:(by_decide) ltac:(done)). vm_compute. reflexivity.
  - rewrite (@in46_cksum_pseudo pc true (cut 44 pkt6) pkt6 17 40 13 H6
      ltac:(by_decide) ltac:(by_decide) ltac:(by_decide) ltac:(by_decide) ltac:(done)). vm_compute. reflexivity.
Defined.

(** An IPv6 packet to an interface local multicast address in zone 7. *)
Definition pkt6i : list Z :=
  take 24 pkt6 ++ ([0xff; 1; 0; 7] ++ replicate 11 0 ++ [1]) ++ udp.
Definition cut_field (n : nat) (pkt : list Z) (i c : Z) : list mbuf := cut n (@with_field pc pkt i c).

Lemma cksum_field_verifies_witness :
  @ip_cksum pc false (cut_field 20 pkt4 26 59867) 17 20 13 = Ok 0 ∧
  @ip_cksum pc true (cut_field 44 pkt6 46 7322) 17 40 13 = Ok 0.
Proof.
  split.
  - destruct (@cksum_field_verifies pc false pkt4 17 20 13 6 (cut_field 20 pkt4 26 0))
      as (c & ph & Hc & Hv & _);
      [by_decide|by_decide|by_decide|by_decide|by_decide|by_decide|by_decide|by_decide|done
      |by_packet|].
    assert (c = 59867) as -> by (vm_compute in Hc; congruence).
    apply Hv. by_packet.
  - destruct (@cksum_field_verifies pc true pkt6 17 40 13 6 (cut_field 44 pkt6 46 0))
      as (c & ph & Hc & Hv & _);
      [by_decide|by_decide|by_decide|by_decide|by_decide|by_decide|by_decide|by_decide
      |by vm_compute|by_packet|].
    assert (c = 7322) as -> by (vm_compute in Hc; congruence).
    apply Hv. by_packet.
Defined.

(** The zone of such an address goes into the sum of [in6_cksum_phdr], but not
    into that of [in6_cksum]: the delayed checksum is another one. *)
Example phdr_keeps_interface_zone :
  @in6_cksum pc (cut_field 44 pkt6i 46 0) 17 40 13 = Ok 56264 ∧
  (ph ← @ip_phdr pc true pkt6i 17 13; @cpu_in_cksum pc (cut_field 44 pkt6i 46 ph) 13 40 0) = Ok 54472.
Proof. by vm_compute. Qed.
