(* ===== verification/FfsMap.v ===== *)
(** * Allocation maps of FFS (ufs/ffs/ffs_tables.c, ufs/ffs/ffs_subr.c)

    The maps of free fragments and of free blocks of a cylinder group, as arrays
    of bytes, with the tables that describe a byte, the operations on one block
    (those on one bit are in Bits.v), and the accounts of free runs of fragments
    and of clusters of blocks. A bit that is set is free. FfsAlloc.v allocates and
    frees with them. *)

From S2P Require Export Bits.

(** ** The tables of ffs_tables.c *)

(** Bit patterns for identifying fragments in the block map; used as
    [((map & around) == inside)]. *)
Definition around : list Z :=
  [0x3; 0x7; 0xf; 0x1f; 0x3f; 0x7f; 0xff; 0x1ff; 0x3ff].
Definition inside : list Z :=
  [0x0; 0x2; 0x6; 0xe; 0x1e; 0x3e; 0x7e; 0xfe; 0x1fe].

(** The runs in a byte of the map, for one, two or four fragments per block and
    for eight: bit [n - 1], from the bit of the block size on, tells whether there
    is a run of exactly [n] fragments. *)
Definition fragtbl124 : list Z :=
  [0x00; 0x16; 0x16; 0x2a; 0x16; 0x16; 0x26; 0x4e;
   0x16; 0x16; 0x16; 0x3e; 0x2a; 0x3e; 0x4e; 0x8a;
   0x16; 0x16; 0x16; 0x3e; 0x16; 0x16; 0x36; 0x5e;
   0x16; 0x16; 0x16; 0x3e; 0x3e; 0x3e; 0x5e; 0x9e;
   0x16; 0x16; 0x16; 0x3e; 0x16; 0x16; 0x36; 0x5e;
   0x16; 0x16; 0x16; 0x3e; 0x3e; 0x3e; 0x5e; 0x9e;
   0x2a; 0x3e; 0x3e; 0x2a; 0x3e; 0x3e; 0x2e; 0x6e;
   0x3e; 0x3e; 0x3e; 0x3e; 0x2a; 0x3e; 0x6e; 0xaa;
   0x16; 0x16; 0x16; 0x3e; 0x16; 0x16; 0x36; 0x5e;
   0x16; 0x16; 0x16; 0x3e; 0x3e; 0x3e; 0x5e; 0x9e;
   0x16; 0x16; 0x16; 0x3e; 0x16; 0x16; 0x36; 0x5e;
   0x16; 0x16; 0x16; 0x3e; 0x3e; 0x3e; 0x5e; 0x9e;
   0x26; 0x36; 0x36; 0x2e; 0x36; 0x36; 0x26; 0x6e;
   0x36; 0x36; 0x36; 0x3e; 0x2e; 0x3e; 0x6e; 0xae;
   0x4e; 0x5e; 0x5e; 0x6e; 0x5e; 0x5e; 0x6e; 0x4e;
   0x5e; 0x5e; 0x5e; 0x7e; 0x6e; 0x7e; 0x4e; 0xce;
   0x16; 0x16; 0x16; 0x3e; 0x16; 0x16; 0x36; 0x5e;
   0x16; 0x16; 0x16; 0x3e; 0x3e; 0x3e; 0x5e; 0x9e;
   0x16; 0x16; 0x16; 0x3e; 0x16; 0x16; 0x36; 0x5e;
   0x16; 0x16; 0x16; 0x3e; 0x3e; 0x3e; 0x5e; 0x9e;
   0x16; 0x16; 0x16; 0x3e; 0x16; 0x16; 0x36; 0x5e;
   0x16; 0x16; 0x16; 0x3e; 0x3e; 0x3e; 0x5e; 0x9e;
   0x3e; 0x3e; 0x3e; 0x3e; 0x3e; 0x3e; 0x3e; 0x7e;
   0x3e; 0x3e; 0x3e; 0x3e; 0x3e; 0x3e; 0x7e; 0xbe;
   0x2a; 0x3e; 0x3e; 0x2a; 0x3e; 0x3e; 0x2e; 0x6e;
   0x3e; 0x3e; 0x3e; 0x3e; 0x2a; 0x3e; 0x6e; 0xaa;
   0x3e; 0x3e; 0x3e; 0x3e; 0x3e; 0x3e; 0x3e; 0x7e;
   0x3e; 0x3e; 0x3e; 0x3e; 0x3e; 0x3e; 0x7e; 0xbe;
   0x4e; 0x5e; 0x5e; 0x6e; 0x5e; 0x5e; 0x6e; 0x4e;
   0x5e; 0x5e; 0x5e; 0x7e; 0x6e; 0x7e; 0x4e; 0xce;
   0x8a; 0x9e; 0x9e; 0xaa; 0x9e; 0x9e; 0xae; 0xce;
   0x9e; 0x9e; 0x9e; 0xbe; 0xaa; 0xbe; 0xce; 0x8a].
Definition fragtbl8 : list Z :=
  [0x00; 0x01; 0x01; 0x02; 0x01; 0x01; 0x02; 0x04;
   0x01; 0x01; 0x01; 0x03; 0x02; 0x03; 0x04; 0x08;
   0x01; 0x01; 0x01; 0x03; 0x01; 0x01; 0x03; 0x05;
   0x02; 0x03; 0x03; 0x02; 0x04; 0x05; 0x08; 0x10;
   0x01; 0x01; 0x01; 0x03; 0x01; 0x01; 0x03; 0x05;
   0x01; 0x01; 0x01; 0x03; 0x03; 0x03; 0x05; 0x09;
   0x02; 0x03; 0x03; 0x02; 0x03; 0x03; 0x02; 0x06;
   0x04; 0x05; 0x05; 0x06; 0x08; 0x09; 0x10; 0x20;
   0x01; 0x01; 0x01; 0x03; 0x01; 0x01; 0x03; 0x05;
   0x01; 0x01; 0x01; 0x03; 0x03; 0x03; 0x05; 0x09;
   0x01; 0x01; 0x01; 0x03; 0x01; 0x01; 0x03; 0x05;
   0x03; 0x03; 0x03; 0x03; 0x05; 0x05; 0x09; 0x11;
   0x02; 0x03; 0x03; 0x02; 0x03; 0x03; 0x02; 0x06;
   0x03; 0x03; 0x03; 0x03; 0x02; 0x03; 0x06; 0x0a;
   0x04; 0x05; 0x05; 0x06; 0x05; 0x05; 0x06; 0x04;
   0x08; 0x09; 0x09; 0x0a; 0x10; 0x11; 0x20; 0x40;
   0x01; 0x01; 0x01; 0x03; 0x01; 0x01; 0x03; 0x05;
   0x01; 0x01; 0x01; 0x03; 0x03; 0x03; 0x05; 0x09;
   0x01; 0x01; 0x01; 0x03; 0x01; 0x01; 0x03; 0x05;
   0x03; 0x03; 0x03; 0x03; 0x05; 0x05; 0x09; 0x11;
   0x01; 0x01; 0x01; 0x03; 0x01; 0x01; 0x03; 0x05;
   0x01; 0x01; 0x01; 0x03; 0x03; 0x03; 0x05; 0x09;
   0x03; 0x03; 0x03; 0x03; 0x03; 0x03; 0x03; 0x07;
   0x05; 0x05; 0x05; 0x07; 0x09; 0x09; 0x11; 0x21;
   0x02; 0x03; 0x03; 0x02; 0x03; 0x03; 0x02; 0x06;
   0x03; 0x03; 0x03; 0x03; 0x02; 0x03; 0x06; 0x0a;
   0x03; 0x03; 0x03; 0x03; 0x03; 0x03; 0x03; 0x07;
   0x02; 0x03; 0x03; 0x02; 0x06; 0x07; 0x0a; 0x12;
   0x04; 0x05; 0x05; 0x06; 0x05; 0x05; 0x06; 0x04;
   0x05; 0x05; 0x05; 0x07; 0x06; 0x07; 0x04; 0x0c;
   0x08; 0x09; 0x09; 0x0a; 0x09; 0x09; 0x0a; 0x0c;
   0x10; 0x11; 0x11; 0x12; 0x20; 0x21; 0x40; 0x80].

(** [fragtbl]: the other pointers are null. *)
Definition fragtbl (frag : Z) : res (list Z) :=
  if (frag <? 0) || (8 <? frag) then Fault OutOfBounds
  else if frag =? 8 then Ok fragtbl8
  else if (frag =? 1) || (frag =? 2) || (frag =? 4) then Ok fragtbl124
  else Fault NullDeref.

(** ** Blocks of fragments *)

(** [fs_frag] fragments from [loc] on. *)
Definition blkmap (frag : Z) (map : list Z) (loc : Z) : res Z :=
  c ← get map (loc / NBBY);
  Ok (Z.shiftr c (loc mod NBBY) .& Z.shiftr 0xff (NBBY - frag)).

(** The byte of block [h] and the mask of its bits in it, by [fs_fragshift]. *)
Definition blk_mask (fragshift h : Z) : res (Z * Z) :=
  if fragshift =? 3 then Ok (h, 0xff)
  else if fragshift =? 2 then Ok (Z.shiftr h 1, Z.shiftl 0x0f (Z.shiftl (h .& 0x1) 2))
  else if fragshift =? 1 then Ok (Z.shiftr h 2, Z.shiftl 0x03 (Z.shiftl (h .& 0x3) 1))
  else if fragshift =? 0 then Ok (Z.shiftr h 3, Z.shiftl 0x01 (h .& 0x7))
  else Fault Panic.

Definition ffs_isblock (fragshift : Z) (cp : list Z) (h : Z) : res bool :=
  '(j, mask) ← blk_mask fragshift h; c ← get cp j; Ok (c .& mask =? mask).
Definition ffs_isfreeblock (fragshift : Z) (cp : list Z) (h : Z) : res bool :=
  '(j, mask) ← blk_mask fragshift h; c ← get cp j; Ok (c .& mask =? 0).
Definition ffs_clrblock (fragshift : Z) (cp : list Z) (h : Z) : res (list Z) :=
  '(j, mask) ← blk_mask fragshift h; c ← get cp j; put cp j (c .& Z.lnot mask).
Definition ffs_setblock (fragshift : Z) (cp : list Z) (h : Z) : res (list Z) :=
  '(j, mask) ← blk_mask fragshift h; c ← get cp j; put cp j (c .| mask).

(** ** Numbers of the file system's byte order *)

(** [bswap32] and [bswap64] of the compiler or of the C library reverse the bytes
    of a number; the code relies on the first being its own inverse. *)
Class Bswap := {
  bswap32 : Z → Z;
  bswap64 : Z → Z;
}.
Class BswapLaws `{Bswap} : Prop := {
  bswap32_u32 z : is_u32 z → is_u32 (bswap32 z);
  bswap32_inv z : is_u32 z → bswap32 (bswap32 z) = z;
  bswap32_0 : bswap32 0 = 0;
}.

Section numbers.
Context `{Bswap}.

Definition ufs_rw32 (a : Z) (ns : bool) : Z := if ns then bswap32 a else a.
Definition ufs_rw64 (a : Z) (ns : bool) : Z := if ns then bswap64 a else a.
(** The value that [ufs_add32] assigns. *)
Definition ufs_add32 (a b : Z) (ns : bool) : Z := ufs_rw32 (u32 (ufs_rw32 a ns + b)) ns.

(** Element [i] of an array of such numbers. *)
Definition add_at (l : list Z) (i b : Z) (ns : bool) : res (list Z) :=
  a ← get l i; put l i (ufs_add32 a b ns).

(** ** ffs_fragacct *)

(** The loop over [pos]. *)
Fixpoint fragacct_pos (fuel : nat) (frag siz fragmap field subfield pos : Z)
    (fraglist : list Z) (cnt : Z) (needswap : bool) : res (list Z) :=
  match fuel with
  | O => Fault NoFuel
  | S fuel =>
      if pos <=? frag then
        if fragmap .& field =? subfield then
          fraglist ← add_at fraglist siz cnt needswap;
          fragacct_pos fuel frag siz fragmap (Z.shiftl (Z.shiftl field siz) 1)
            (Z.shiftl (Z.shiftl subfield siz) 1) (pos + siz + 1) fraglist cnt needswap
        else
          fragacct_pos fuel frag siz fragmap (Z.shiftl field 1) (Z.shiftl subfield 1)
            (pos + 1) fraglist cnt needswap
      else Ok fraglist
  end.

(** The loop over [siz]. *)
Fixpoint fragacct_siz (fuel : nat) (frag inblk siz fragmap : Z) (fraglist : list Z) (cnt : Z)
    (needswap : bool) : res (list Z) :=
  match fuel with
  | O => Fault NoFuel
  | S fuel =>
      if siz <? frag then
        if inblk .& Z.shiftl 1 (siz + (frag .& (NBBY - 1))) =? 0 then
          fragacct_siz fuel frag inblk (siz + 1) fragmap fraglist cnt needswap
        else
          field ← get around siz;
          subfield ← get inside siz;
          fraglist ← fragacct_pos 10 frag siz fragmap field subfield siz fraglist cnt needswap;
          fragacct_siz fuel frag inblk (siz + 1) fragmap fraglist cnt needswap
      else Ok fraglist
  end.

Definition ffs_fragacct (frag fragmap : Z) (fraglist : list Z) (cnt : Z) (needswap : bool) :
    res (list Z) :=
  tbl ← fragtbl frag;
  c ← get tbl fragmap;
  fragacct_siz 10 frag (Z.shiftl c 1) 1 (Z.shiftl fragmap 1) fraglist cnt needswap.

End numbers.

(** ** Super block and cylinder group *)

Record csum := Csum { cs_nbfree : Z; cs_nffree : Z }.

(** Of [struct fs]: what the allocator uses. *)
Record fs := Fs {
  fs_frag : Z;              (** fragments in a block *)
  fs_fragshift : Z;
  fs_size : Z;              (** fragments in the file system *)
  fs_ncg : Z;               (** cylinder groups *)
  fs_fpg : Z;               (** fragments in a group *)
  fs_bsize : Z;
  fs_fshift : Z;            (** log2 of the size of a fragment *)
  fs_contigsumsize : Z;
  fs_swap : bool;           (** UFS_FSNEEDSWAP *)
  fs_cstotal : csum;
  fs_csp : list csum;       (** [fs_cs(fs, cg)] *)
  fs_maxcluster : list Z;
  fs_fmod : Z;
  fs_active : option (list Z);
}.

(** Of [struct cg] and the maps behind it; numbers are in the byte order of the
    file system. The cluster map lies between other data: [cg_before] is the byte
    in front of it, [cg_after] the one behind. *)
Record cg := Cg {
  cg_magic_ok : bool;       (** [cg_chkmagic] *)
  cg_old_time : Z;
  cg_time : Z;
  cg_cgx : Z;
  cg_nbfree : Z;            (** [cg_cs.cs_nbfree] *)
  cg_nffree : Z;            (** [cg_cs.cs_nffree] *)
  cg_rotor : Z;
  cg_frotor : Z;
  cg_frsum : list Z;
  cg_nclusterblks : Z;
  cg_clustersum : list Z;
  cg_before : Z;
  cg_clustersfree : list Z;
  cg_after : Z;
  cg_blksfree : list Z;
}.

Definition with_clusters (c : cg) (sum free : list Z) : cg :=
  Cg (cg_magic_ok c) (cg_old_time c) (cg_time c) (cg_cgx c) (cg_nbfree c) (cg_nffree c)
    (cg_rotor c) (cg_frotor c) (cg_frsum c) (cg_nclusterblks c) sum (cg_before c) free
    (cg_after c) (cg_blksfree c).
Definition with_maxcluster (f : fs) (l : list Z) : fs :=
  Fs (fs_frag f) (fs_fragshift f) (fs_size f) (fs_ncg f) (fs_fpg f) (fs_bsize f) (fs_fshift f) (fs_contigsumsize f)
    (fs_swap f) (fs_cstotal f) (fs_csp f) l (fs_fmod f) (fs_active f).

(** ** ffs_clusteracct *)

(** A byte at the map, at most one in front of it or behind it. *)
Definition cluster_byte (c : cg) (free : list Z) (j : Z) : res Z :=
  if j =? -1 then Ok (cg_before c)
  else if j =? Z.of_nat (length free) then Ok (cg_after c)
  else get free j.

(** [1U << n]: out of range, C says nothing of the value, and none is used. *)
Definition shl1 (n : Z) : option Z :=
  if (0 <=? n) && (n <? 32) then Some (Z.shiftl 1 n) else None.
Definition test_bit (map : Z) (bit : option Z) : res bool :=
  match bit with Some b => Ok (negb (map .& b =? 0)) | None => Fault ShiftRange end.

(** The free blocks from [i] up to [end_], and from [i] down to [end_]; [j] is the
    byte that [mapp] points to. They return where they stop. *)
Fixpoint cluster_forw (fuel : nat) (c : cg) (free : list Z) (i end_ map : Z) (bit : option Z)
    (j : Z) : res Z :=
  match fuel with
  | O => Fault NoFuel
  | S fuel =>
      if i <? end_ then
        t ← test_bit map bit;
        if negb t then Ok i
        else if negb (i .& (NBBY - 1) =? NBBY - 1) then
          cluster_forw fuel c free (i + 1) end_ map ((λ b, Z.shiftl b 1) <$> bit) j
        else
          map ← cluster_byte c free j;
          cluster_forw fuel c free (i + 1) end_ map (Some 1) (j + 1)
      else Ok i
  end.
Fixpoint cluster_back (fuel : nat) (c : cg) (free : list Z) (i end_ map : Z) (bit : option Z)
    (j : Z) : res Z :=
  match fuel with
  | O => Fault NoFuel
  | S fuel =>
      if i >? end_ then
        t ← test_bit map bit;
        if negb t then Ok i
        else if negb (i .& (NBBY - 1) =? 0) then
          cluster_back fuel c free (i - 1) end_ map ((λ b, Z.shiftr b 1) <$> bit) j
        else
          map ← cluster_byte c free j;
          cluster_back fuel c free (i - 1) end_ map (shl1 (NBBY - 1)) (j - 1)
      else Ok i
  end.

(** The largest cluster that is counted, of at most [i] blocks. *)
Fixpoint max_cluster `{Bswap} (i : nat) (sump : list Z) (needswap : bool) : res Z :=
  match i with
  | O => Ok 0
  | S i' =>
      a ← get sump (Z.of_nat i);
      if ufs_rw32 a needswap >? 0 then Ok (Z.of_nat i) else max_cluster i' sump needswap
  end.

Section clusteracct.
Context `{Bswap}.

(** The free blocks behind [blkno] and in front of it. *)
Definition count_forw (f : fs) (c : cg) (free : list Z) (blkno : Z) : res Z :=
  let start := blkno + 1 in
  let end_ := start + fs_contigsumsize f in
  let n := ufs_rw32 (cg_nclusterblks c) (fs_swap f) in
  let end_ := if u32 end_ >=? n then n else end_ in
  map ← cluster_byte c free (Z.quot start NBBY);
  i ← cluster_forw (S (Z.to_nat (end_ - start))) c free start end_ map (shl1 (Z.rem start NBBY))
    (Z.quot start NBBY + 1);
  Ok (i - start).
Definition count_back (f : fs) (c : cg) (free : list Z) (blkno : Z) : res Z :=
  let start := blkno - 1 in
  let end_ := start - fs_contigsumsize f in
  let end_ := if end_ <? 0 then -1 else end_ in
  map ← cluster_byte c free (Z.quot start NBBY);
  i ← cluster_back (S (Z.to_nat (start - end_))) c free start end_ map (shl1 (Z.rem start NBBY))
    (Z.quot start NBBY - 1);
  Ok (start - i).

Definition ffs_clusteracct (f : fs) (c : cg) (blkno cnt : Z) : res (fs * cg) :=
  if fs_contigsumsize f <=? 0 then Ok (f, c) else
  let needswap := fs_swap f in
  free ← (if cnt >? 0 then setbit (cg_clustersfree c) blkno else clrbit (cg_clustersfree c) blkno);
  forw ← count_forw f c free blkno;
  back ← count_back f c free blkno;
  let i := back + forw + 1 in
  let i := if i >? fs_contigsumsize f then fs_contigsumsize f else i in
  sump ← add_at (cg_clustersum c) i cnt needswap;
  sump ← (if back >? 0 then add_at sump back (- cnt) needswap else Ok sump);
  sump ← (if forw >? 0 then add_at sump forw (- cnt) needswap else Ok sump);
  i ← max_cluster (Z.to_nat (fs_contigsumsize f)) sump needswap;
  maxcluster ← put (fs_maxcluster f) (ufs_rw32 (cg_cgx c) needswap) i;
  Ok (with_maxcluster f maxcluster, with_clusters c sump free).

End clusteracct.
