(* ===== verification/FfsAlloc.v ===== *)
(** * Allocation in a cylinder group of FFS (ufs/ffs/ffs_alloc.c, libkern/scanc.c)

    The functions that allocate a block or a fragment in a cylinder group, extend a
    fragment, claim given fragments and free them, on the super block and on the
    group that [bread] gives. The mutex of the mount makes what they do to the
    super block one step. FfsSys.v shows what they keep. *)

From S2P Require Import Prelude FfsMap.

(** ** Addresses (ufs/ffs/fs.h) *)

Definition cgbase (f : fs) (c : Z) : Z := fs_fpg f * c.
Definition dtog (f : fs) (d : Z) : Z := Z.quot d (fs_fpg f).
Definition dtogd (f : fs) (d : Z) : Z := Z.rem d (fs_fpg f).
Definition ffs_numfrags (f : fs) (loc : Z) : Z := Z.shiftr loc (fs_fshift f).
Definition ffs_fragstoblks (f : fs) (frags : Z) : Z := Z.shiftr frags (fs_fragshift f).
Definition ffs_fragnum (f : fs) (fsb : Z) : Z := fsb .& (fs_frag f - 1).
Definition ffs_blknum (f : fs) (fsb : Z) : Z := fsb .& Z.lnot (fs_frag f - 1).
Definition howmany (x y : Z) : Z := (x + (y - 1)) / y.

Definition B_CONTIG : Z := 0x08.
Definition B_METAONLY : Z := 0x04.
Definition EBUSY : Z := 16.
Definition EIO : Z := 5.
Definition EINVAL : Z := 22.

(** ** Updates of the fields *)

Definition with_summary (f : fs) (total : csum) (csp : list csum) : fs :=
  Fs (fs_frag f) (fs_fragshift f) (fs_size f) (fs_ncg f) (fs_fpg f) (fs_bsize f) (fs_fshift f)
    (fs_contigsumsize f) (fs_swap f) total csp (fs_maxcluster f) (fs_fmod f) (fs_active f).
Definition with_fmod (f : fs) (m : Z) (active : option (list Z)) : fs :=
  Fs (fs_frag f) (fs_fragshift f) (fs_size f) (fs_ncg f) (fs_fpg f) (fs_bsize f) (fs_fshift f)
    (fs_contigsumsize f) (fs_swap f) (fs_cstotal f) (fs_csp f) (fs_maxcluster f) m active.
Definition with_times (c : cg) (old time : Z) : cg :=
  Cg (cg_magic_ok c) old time (cg_cgx c) (cg_nbfree c) (cg_nffree c) (cg_rotor c) (cg_frotor c)
    (cg_frsum c) (cg_nclusterblks c) (cg_clustersum c) (cg_before c) (cg_clustersfree c)
    (cg_after c) (cg_blksfree c).
Definition with_counts (c : cg) (nbfree nffree : Z) : cg :=
  Cg (cg_magic_ok c) (cg_old_time c) (cg_time c) (cg_cgx c) nbfree nffree (cg_rotor c)
    (cg_frotor c) (cg_frsum c) (cg_nclusterblks c) (cg_clustersum c) (cg_before c)
    (cg_clustersfree c) (cg_after c) (cg_blksfree c).
Definition with_rotors (c : cg) (rotor frotor : Z) : cg :=
  Cg (cg_magic_ok c) (cg_old_time c) (cg_time c) (cg_cgx c) (cg_nbfree c) (cg_nffree c) rotor
    frotor (cg_frsum c) (cg_nclusterblks c) (cg_clustersum c) (cg_before c) (cg_clustersfree c)
    (cg_after c) (cg_blksfree c).
Definition with_frags (c : cg) (frsum map : list Z) : cg :=
  Cg (cg_magic_ok c) (cg_old_time c) (cg_time c) (cg_cgx c) (cg_nbfree c) (cg_nffree c)
    (cg_rotor c) (cg_frotor c) frsum (cg_nclusterblks c) (cg_clustersum c) (cg_before c)
    (cg_clustersfree c) (cg_after c) map.

(** [ACTIVECG_CLR] *)
Definition activecg_clr (f : fs) (cgx : Z) : res fs :=
  match fs_active f with
  | None => Ok f
  | Some a => a ← clrbit a cgx; Ok (with_fmod f (fs_fmod f) (Some a))
  end.

Section alloc.
Context `{Bswap}.

(** Blocks and fragments that become free in group [cgx], in the group, in the sum
    of the groups and in the summary of the group. *)
Definition add_nbfree (f : fs) (c : cg) (cgx b : Z) : res (fs * cg) :=
  cs ← get (fs_csp f) cgx;
  csp ← put (fs_csp f) cgx (Csum (cs_nbfree cs + b) (cs_nffree cs));
  Ok (with_summary f (Csum (cs_nbfree (fs_cstotal f) + b) (cs_nffree (fs_cstotal f))) csp,
      with_counts c (ufs_add32 (cg_nbfree c) b (fs_swap f)) (cg_nffree c)).
Definition add_nffree (f : fs) (c : cg) (cgx n : Z) : res (fs * cg) :=
  cs ← get (fs_csp f) cgx;
  csp ← put (fs_csp f) cgx (Csum (cs_nbfree cs) (cs_nffree cs + n));
  Ok (with_summary f (Csum (cs_nbfree (fs_cstotal f)) (cs_nffree (fs_cstotal f) + n)) csp,
      with_counts c (cg_nbfree c) (ufs_add32 (cg_nffree c) n (fs_swap f))).

(** The fragments [from], ... set or cleared one by one. *)
Fixpoint set_frags (n : nat) (map : list Z) (i : Z) : res (list Z) :=
  match n with O => Ok map | S n => map ← setbit map i; set_frags n map (i + 1) end.
Fixpoint clr_frags (n : nat) (map : list Z) (i : Z) : res (list Z) :=
  match n with O => Ok map | S n => map ← clrbit map i; clr_frags n map (i + 1) end.

(** [scanc]: the bytes that are left when one matches. *)
Fixpoint scanc (size : nat) (map : list Z) (i : Z) (table : list Z) (mask : Z) : res Z :=
  match size with
  | O => Ok 0
  | S size' =>
      b ← get map i; t ← get table b;
      if t .& mask =? 0 then scanc size' map (i + 1) table mask else Ok (Z.of_nat size)
  end.

(** ** ffs_mapsearch *)

(** The loop over the positions in one block. *)
Fixpoint sift_pos (fuel : nat) (blk field subfield pos last : Z) : option Z :=
  match fuel with
  | O => None
  | S fuel =>
      if pos <=? last then
        if blk .& field =? subfield then Some pos
        else sift_pos fuel blk (Z.shiftl field 1) (Z.shiftl subfield 1) (pos + 1) last
      else None
  end.

(** The loop over the blocks of one byte. *)
Fixpoint sift_byte (fuel : nat) (f : fs) (map : list Z) (bno i allocsiz : Z) : res (option Z) :=
  match fuel with
  | O => Fault NoFuel
  | S fuel =>
      if bno <? i then
        blk ← blkmap (fs_frag f) map bno;
        field ← get around allocsiz;
        subfield ← get inside allocsiz;
        match sift_pos 10 (Z.shiftl blk 1) field subfield 0 (fs_frag f - allocsiz) with
        | Some pos => Ok (Some (bno + pos))
        | None => sift_byte fuel f map (bno + fs_frag f) i allocsiz
        end
      else Ok None
  end.

(** The two scans, for a byte of the map with a free run of [allocsiz]. *)
Definition scan_map (f : fs) (map : list Z) (start allocsiz : Z) : res Z :=
  let mask := Z.shiftl 1 (allocsiz - 1 + (fs_frag f .& (NBBY - 1))) in
  let len := howmany (fs_fpg f) NBBY - start in
  table ← fragtbl (fs_frag f);
  loc ← scanc (Z.to_nat (u32 len)) map start table mask;
  if loc =? 0 then
    let len := start + 1 in
    loc ← scanc (Z.to_nat (u32 len)) map 0 table mask;
    if loc =? 0 then Fault Panic       (* map corrupted *)
    else Ok ((0 + len - loc) * NBBY)
  else Ok ((start + len - loc) * NBBY).

Definition ffs_mapsearch (f : fs) (c : cg) (bpref allocsiz : Z) : res (cg * Z) :=
  let start :=
    if negb (bpref =? 0) then Z.quot (dtogd f bpref) NBBY
    else ufs_rw32 (cg_frotor c) (fs_swap f) / NBBY in
  bno ← scan_map f (cg_blksfree c) start allocsiz;
  let c := with_rotors c (cg_rotor c) (ufs_rw32 bno (fs_swap f)) in
  r ← sift_byte 10 f (cg_blksfree c) bno (bno + NBBY) allocsiz;
  match r with
  | Some bno => Ok (c, bno)
  | None => Fault Panic                (* block not in map *)
  end.

(** ** ffs_alloccgblk *)

(** From [gotit] on; the tables of the old layout are left out. *)
Definition take_block (f : fs) (c : cg) (bno : Z) : res (fs * cg * Z) :=
  let blkno := ffs_fragstoblks f bno in
  map ← ffs_clrblock (fs_fragshift f) (cg_blksfree c) blkno;
  let c := with_frags c (cg_frsum c) map in
  '(f, c) ← ffs_clusteracct f c blkno (-1);
  let cgx := ufs_rw32 (cg_cgx c) (fs_swap f) in
  '(f, c) ← add_nbfree f c cgx (-1);
  Ok (with_fmod f 1 (fs_active f), c, cgbase f cgx + bno).

Definition ffs_alloccgblk (f : fs) (c : cg) (bpref flags : Z) : res (fs * cg * Z) :=
  let search bpref :=
    '(c, bno) ← ffs_mapsearch f c bpref (fs_frag f);
    take_block f (with_rotors c (ufs_rw32 bno (fs_swap f)) (cg_frotor c)) bno in
  if (bpref =? 0) || negb (dtog f bpref =? ufs_rw32 (cg_cgx c) (fs_swap f)) then
    search (ufs_rw32 (cg_rotor c) (fs_swap f))
  else
    let bpref := ffs_blknum f bpref in
    let bno := dtogd f bpref in
    ok ← ffs_isblock (fs_fragshift f) (cg_blksfree c) (ffs_fragstoblks f bno);
    if (ok : bool) then take_block f c bno
    else if flags .& (B_CONTIG .| B_METAONLY) =? B_CONTIG then Ok (f, c, 0)
    else search bpref.

(** ** ffs_blkfree_common *)

(** The fragments become free one by one; one that is free already is a panic. *)
Fixpoint free_frags (n : nat) (map : list Z) (i : Z) : res (list Z) :=
  match n with
  | O => Ok map
  | S n =>
      b ← isset map i;
      if (b : bool) then Fault Panic else map ← setbit map i; free_frags n map (i + 1)
  end.

(** The times of the group, on a file system that is not of the old layout. *)
Definition stamp (f : fs) (c : cg) (now : Z) : cg :=
  with_times c (ufs_rw32 (u32 now) (fs_swap f)) (ufs_rw64 (u64 now) (fs_swap f)).

(** Free a fragment: all but the time and the end of [ffs_blkfree_common]. *)
Definition blkfree_frag (f : fs) (c : cg) (cgx cgbno frags : Z) : res (fs * cg) :=
  let bbase := cgbno - ffs_fragnum f cgbno in
  blk ← blkmap (fs_frag f) (cg_blksfree c) bbase;
  frsum ← ffs_fragacct (fs_frag f) blk (cg_frsum c) (-1) (fs_swap f);
  map ← free_frags (Z.to_nat frags) (cg_blksfree c) cgbno;
  '(f, c) ← add_nffree f (with_frags c frsum map) cgx (Z.max 0 frags);
  blk ← blkmap (fs_frag f) (cg_blksfree c) bbase;
  frsum ← ffs_fragacct (fs_frag f) blk (cg_frsum c) 1 (fs_swap f);
  let c := with_frags c frsum (cg_blksfree c) in
  let fragno := ffs_fragstoblks f bbase in
  full ← ffs_isblock (fs_fragshift f) (cg_blksfree c) fragno;
  if (full : bool) then
    '(f, c) ← add_nffree f c cgx (- fs_frag f);
    '(f, c) ← ffs_clusteracct f c fragno 1;
    add_nbfree f c cgx 1
  else Ok (f, c).

Definition ffs_blkfree_common (f : fs) (c : cg) (now bno size : Z) (devvp_is_snapshot : bool) :
    res (fs * cg) :=
  let cgx := dtog f bno in
  let c := stamp f c now in
  let cgbno := dtogd f bno in
  let finish fc := f ← activecg_clr (with_fmod (fc.1) 1 (fs_active (fc.1))) cgx; Ok (f, fc.2) in
  if size =? fs_bsize f then
    let fragno := ffs_fragstoblks f cgbno in
    free ← ffs_isfreeblock (fs_fragshift f) (cg_blksfree c) fragno;
    if negb free then
      if devvp_is_snapshot then Ok (f, c) else Fault Panic
    else
      map ← ffs_setblock (fs_fragshift f) (cg_blksfree c) fragno;
      '(f, c) ← ffs_clusteracct f (with_frags c (cg_frsum c) map) fragno 1;
      fc ← add_nbfree f c cgx 1;
      finish fc
  else
    fc ← blkfree_frag f c cgx cgbno (ffs_numfrags f size);
    finish fc.

(** ** ffs_alloccg

    [bp] is what [bread] gives, [None] after an error; the buffer is part of the
    result. The result is a fragment number, 0 after a failure. *)

(** The size to allocate: the first with a free run, or a block. *)
Fixpoint alloc_size (fuel : nat) (frsum : list Z) (allocsiz frag : Z) : res Z :=
  match fuel with
  | O => Fault NoFuel
  | S fuel =>
      if allocsiz <? frag then
        n ← get frsum allocsiz;
        if negb (n =? 0) then Ok allocsiz else alloc_size fuel frsum (allocsiz + 1) frag
      else Ok allocsiz
  end.

(** Break up a block: the fragments that are not needed become free. *)
Definition alloc_split (f : fs) (c : cg) (cgx bpref frags flags : Z) : res (fs * cg * Z) :=
  if cg_nbfree c =? 0 then Ok (f, c, 0) else
  '(f, c, blkno) ← ffs_alloccgblk f c bpref flags;
  let bno := dtogd f blkno in
  let i := fs_frag f - frags in
  map ← set_frags (Z.to_nat i) (cg_blksfree c) (bno + frags);
  '(f, c) ← add_nffree f (with_frags c (cg_frsum c) map) cgx i;
  frsum ← add_at (cg_frsum c) i 1 (fs_swap f);
  f ← activecg_clr (with_fmod f 1 (fs_active f)) cgx;
  Ok (f, with_frags c frsum (cg_blksfree c), blkno).

(** Take the first fragments of a run of [allocsiz]. *)
Definition alloc_run (f : fs) (c : cg) (cgx bpref frags allocsiz : Z) : res (fs * cg * Z) :=
  '(c, bno) ← ffs_mapsearch f c bpref allocsiz;
  map ← clr_frags (Z.to_nat frags) (cg_blksfree c) bno;
  '(f, c) ← add_nffree f (with_frags c (cg_frsum c) map) cgx (- frags);
  frsum ← add_at (cg_frsum c) allocsiz (-1) (fs_swap f);
  frsum ← (if negb (frags =? allocsiz) then add_at frsum (allocsiz - frags) 1 (fs_swap f)
           else Ok frsum);
  let blkno := cgbase f cgx + bno in
  f ← activecg_clr (with_fmod f 1 (fs_active f)) cgx;
  Ok (f, with_frags c frsum (cg_blksfree c), blkno).

Definition ffs_alloccg (f : fs) (bp : option cg) (cgx now bpref size realsize flags : Z) :
    res (fs * option cg * Z) :=
  cs ← get (fs_csp f) cgx;
  if (cs_nbfree cs =? 0) && (size =? fs_bsize f) then Ok (f, bp, 0) else
  match bp with
  | None => Ok (f, None, 0)
  | Some c =>
      if negb (cg_magic_ok c) || ((cg_nbfree c =? 0) && (size =? fs_bsize f)) then Ok (f, bp, 0)
      else
        let c := stamp f c now in
        '(f, c, blkno) ←
          (if size =? fs_bsize f then
             '(f, c, blkno) ← ffs_alloccgblk f c bpref flags;
             f ← activecg_clr f cgx;
             '(f, c) ←
               (if negb (realsize =? 0) && (realsize <? size) then
                  ffs_blkfree_common f c now (blkno + ffs_numfrags f realsize) (size - realsize) false
                else Ok (f, c));
             Ok (f, c, blkno)
           else
             let frags := ffs_numfrags f size in
             allocsiz ← alloc_size 10 (cg_frsum c) frags (fs_frag f);
             if allocsiz =? fs_frag f then alloc_split f c cgx bpref frags flags
             else alloc_run f c cgx bpref frags allocsiz);
        Ok (f, Some c, blkno)
  end.

(** ** ffs_blkalloc_ump

    Claims given fragments that are free. The result is an error number. *)

Fixpoint all_set (n : nat) (map : list Z) (i : Z) : res bool :=
  match n with
  | O => Ok true
  | S n => b ← isclr map i; if (b : bool) then Ok false else all_set n map (i + 1)
  end.

(** A block is claimed as a whole, or broken up. *)
Definition claim_block (f : fs) (c : cg) (cgx fragno : Z) : res (fs * cg * Z) :=
  full ← ffs_isblock (fs_fragshift f) (cg_blksfree c) fragno;
  if negb full then Ok (f, c, EBUSY) else
  map ← ffs_clrblock (fs_fragshift f) (cg_blksfree c) fragno;
  '(f, c) ← ffs_clusteracct f (with_frags c (cg_frsum c) map) fragno (-1);
  '(f, c) ← add_nbfree f c cgx (-1);
  Ok (f, c, 0).
Definition claim_frags (f : fs) (c : cg) (cgx cgbno frags : Z) : res (fs * cg * Z) :=
  let bbase := cgbno - ffs_fragnum f cgbno in
  free ← all_set (Z.to_nat frags) (cg_blksfree c) cgbno;
  if negb free then Ok (f, c, EBUSY) else
  let fragno := ffs_fragstoblks f bbase in
  full ← ffs_isblock (fs_fragshift f) (cg_blksfree c) fragno;
  '(f, c) ←
    (if (full : bool) then
       '(f, c) ← add_nffree f c cgx (fs_frag f);
       '(f, c) ← ffs_clusteracct f c fragno (-1);
       add_nbfree f c cgx (-1)
     else Ok (f, c));
  blk ← blkmap (fs_frag f) (cg_blksfree c) bbase;
  frsum ← ffs_fragacct (fs_frag f) blk (cg_frsum c) (-1) (fs_swap f);
  map ← clr_frags (Z.to_nat frags) (cg_blksfree c) cgbno;
  '(f, c) ← add_nffree f (with_frags c frsum map) cgx (- Z.max 0 frags);
  blk ← blkmap (fs_frag f) (cg_blksfree c) bbase;
  frsum ← ffs_fragacct (fs_frag f) blk (cg_frsum c) 1 (fs_swap f);
  Ok (f, with_frags c frsum (cg_blksfree c), 0).

Definition ffs_blkalloc_ump (f : fs) (bp : option cg) (bread_error now bno size : Z) :
    res (fs * option cg * Z) :=
  if negb ((u32 size <=? fs_bsize f) && (size .& Z.ones (fs_fshift f) =? 0)
           && (ffs_fragnum f bno + ffs_numfrags f size <=? fs_frag f) && (bno <? fs_size f))
  then Fault Panic else
  match bp with
  | None => Ok (f, None, bread_error)
  | Some c =>
      if negb (cg_magic_ok c) then Ok (f, bp, EIO) else
      let c := stamp f c now in
      let cgx := dtog f bno in
      let cgbno := dtogd f bno in
      '(f, c, error) ←
        (if size =? fs_bsize f then claim_block f c cgx (ffs_fragstoblks f cgbno)
         else claim_frags f c cgx cgbno (ffs_numfrags f size));
      if negb (error =? 0) then Ok (f, Some c, error) else
      f ← activecg_clr (with_fmod f 1 (fs_active f)) cgx;
      Ok (f, Some c, 0)
  end.

(** ** ffs_fragextend

    Extends the fragment at [bprev] in place. *)

(** The end of the free run behind the extended fragment. *)
Fixpoint run_end (fuel : nat) (map : list Z) (bno i last : Z) : res Z :=
  match fuel with
  | O => Fault NoFuel
  | S fuel =>
      if i <? last then
        b ← isclr map (bno + i);
        if (b : bool) then Ok i else run_end fuel map bno (i + 1) last
      else Ok i
  end.

Definition ffs_fragextend (f : fs) (bp : option cg) (cgx now bprev osize nsize : Z) :
    res (fs * option cg * Z) :=
  cs ← get (fs_csp f) cgx;
  if cs_nffree cs <? ffs_numfrags f (nsize - osize) then Ok (f, bp, 0) else
  let frags := ffs_numfrags f nsize in
  let bbase := ffs_fragnum f bprev in
  if bbase >? ffs_fragnum f (bprev + frags - 1) then Ok (f, bp, 0) else
  match bp with
  | None => Ok (f, None, 0)
  | Some c =>
      if negb (cg_magic_ok c) then Ok (f, bp, 0) else
      let c := stamp f c now in
      let bno := dtogd f bprev in
      let ofrags := ffs_numfrags f osize in
      free ← all_set (Z.to_nat (frags - ofrags)) (cg_blksfree c) (bno + ofrags);
      if negb free then Ok (f, Some c, 0) else
      i ← run_end 10 (cg_blksfree c) bno frags (fs_frag f - bbase);
      frsum ← add_at (cg_frsum c) (i - ofrags) (-1) (fs_swap f);
      frsum ← (if negb (i =? frags) then add_at frsum (i - frags) 1 (fs_swap f) else Ok frsum);
      map ← clr_frags (Z.to_nat (frags - ofrags)) (cg_blksfree c) (bno + ofrags);
      '(f, c) ← add_nffree f (with_frags c frsum map) cgx (- Z.max 0 (frags - ofrags));
      f ← activecg_clr (with_fmod f 1 (fs_active f)) cgx;
      Ok (f, Some c, bprev)
  end.

End alloc.

(** ** ffs_hashalloc

    The groups in the order of the overflow algorithm; [allocator] changes the state
    and returns a fragment, 0 after a failure. *)

Section hashalloc.
Context {S : Type} (allocator : S → Z → Z → res (S * Z)) (ncg : Z).

(** 2: quadratic rehash. *)
Fixpoint hash_quad (fuel : nat) (st : S) (cg i : Z) : res (S * Z) :=
  match fuel with
  | O => Fault NoFuel
  | Datatypes.S fuel =>
      if i <? ncg then
        let cg := cg + i in
        let cg := if cg >=? ncg then cg - ncg else cg in
        '(st, result) ← allocator st cg 0;
        if negb (result =? 0) then Ok (st, result) else hash_quad fuel st cg (i * 2)
      else Ok (st, 0)
  end.

(** 3: brute force search. *)
Fixpoint hash_brute (n : nat) (st : S) (cg : Z) : res (S * Z) :=
  match n with
  | O => Ok (st, 0)
  | Datatypes.S n =>
      '(st, result) ← allocator st cg 0;
      if negb (result =? 0) then Ok (st, result)
      else hash_brute n st (if cg + 1 =? ncg then 0 else cg + 1)
  end.

Definition ffs_hashalloc (st : S) (cg pref flags : Z) : res (S * Z) :=
  '(st, result) ← allocator st cg pref;
  if negb (result =? 0) then Ok (st, result)
  else if negb (flags .& B_CONTIG =? 0) then Ok (st, result)
  else
    '(st, result) ← hash_quad (Z.to_nat ncg) st cg 1;
    if negb (result =? 0) then Ok (st, result)
    else hash_brute (Z.to_nat (ncg - 2)) st (Z.rem (cg + 2) ncg).

End hashalloc.

(** ** The groups of a file system *)

(** The super block and the buffers of the groups, [None] where [bread] fails. *)
Definition volume : Type := fs * list (option cg).

(** An operation on the buffer of a group. *)
Definition on_group {A} (st : volume) (cgx : Z)
    (op : fs → option cg → res (fs * option cg * A)) : res (volume * A) :=
  bp ← get (st.2) cgx;
  '(f, bp, r) ← op (st.1) bp;
  bufs ← put (st.2) cgx bp;
  Ok (f, bufs, r).

Section groups.
Context `{Bswap}.

(** [ffs_hashalloc] of a block or of fragments. *)
Definition alloc_data (now size realsize flags : Z) (st : volume) (cgx bpref : Z) :
    res (volume * Z) :=
  on_group st cgx (λ f bp, ffs_alloccg f bp cgx now bpref size realsize flags).
Definition hashalloc_data (st : volume) (now cgx pref size realsize flags : Z) : res (volume * Z) :=
  ffs_hashalloc (alloc_data now size realsize flags) (fs_ncg (st.1)) st cgx pref flags.

Definition ffs_check_bad_allocation (f : fs) (bno size : Z) : res Z :=
  if (u32 size >? fs_bsize f) || negb (size .& Z.ones (fs_fshift f) =? 0)
     || (ffs_fragnum f bno + ffs_numfrags f size >? fs_frag f)
  then Fault Panic
  else if bno >=? fs_size f then Ok EINVAL else Ok 0.

(** [ffs_blkfree_cg]: without the group, the fragments stay in use. *)
Definition ffs_blkfree_cg (st : volume) (now bno size : Z) : res (volume * unit) :=
  on_group st (dtog (st.1) bno) (λ f bp,
    match bp with
    | None => Ok (f, None, tt)
    | Some c =>
        if negb (cg_magic_ok c) then Ok (f, bp, tt) else
        '(f, c) ← ffs_blkfree_common f c now bno size false; Ok (f, Some c, tt)
    end).

(** [ffs_blkfree] when discards are off and no snapshot takes the block. *)
Definition ffs_blkfree (st : volume) (now bno size : Z) : res (volume * unit) :=
  error ← ffs_check_bad_allocation (st.1) bno size;
  if negb (error =? 0) then Ok (st, tt) else ffs_blkfree_cg st now bno size.

Definition ffs_blkalloc (st : volume) (bread_error now bno size : Z) : res (volume * Z) :=
  error ← ffs_check_bad_allocation (st.1) bno size;
  if negb (error =? 0) then Ok (st, error) else
  on_group st (dtog (st.1) bno) (λ f bp, ffs_blkalloc_ump f bp bread_error now bno size).

(** The first part of [ffs_realloccg]: extension in place. *)
Definition fragextend (st : volume) (now bprev osize nsize : Z) : res (volume * Z) :=
  let cgx := dtog (st.1) bprev in
  on_group st cgx (λ f bp, ffs_fragextend f bp cgx now bprev osize nsize).

End groups.
