(* ===== verification/FfsMapSpec.v ===== *)
(** * The maps of FFS as lists of blocks

    A map of fragments holds a list of blocks, numbers of [fs_frag] bits: the
    operations on bits and blocks change one element of the list. The free runs
    of fragments in a block and the clusters of free blocks are the maximal runs
    of a list of booleans; the tables and [ffs_fragacct] count those of a block,
    [ffs_clusteracct] keeps the counts of those of the group. *)

From S2P Require Import Prelude FfsMap.

(** ** Maximal runs *)

(** The lengths of the maximal runs of [true], with [k] of them in front. *)
Fixpoint runs_from (k : nat) (l : list bool) : list nat :=
  match l with
  | [] => if bool_decide (k = 0%nat) then [] else [k]
  | true :: l => runs_from (S k) l
  | false :: l => (if bool_decide (k = 0%nat) then [] else [k]) ++ runs_from 0 l
  end.
Definition runs (l : list bool) : list nat := runs_from 0 l.

(** How many of them satisfy [p]. *)
Definition nruns (p : nat → bool) (l : list bool) : Z := Z.of_nat (length (filter p (runs l))).

Definition one (k : nat) : list nat := if bool_decide (k = 0%nat) then [] else [k].

(** The length of the run at the start of a list. *)
Fixpoint lead (l : list bool) : nat :=
  match l with true :: l => S (lead l) | _ => O end.

Lemma runs_from_lead l : ∀ k, runs_from k l = one (k + lead l) ++ runs (drop (lead l) l).
Proof.
  induction l as [|[] l IH]; intros k; simpl.
  - by rewrite Nat.add_0_r, app_nil_r.
  - rewrite IH. by rewrite Nat.add_succ_comm.
  - by rewrite Nat.add_0_r.
Qed.

Lemma runs_true k l : runs (replicate k true ++ l) = runs_from k l.
Proof.
  unfold runs. replace k with (0 + k)%nat at 2 by done. generalize 0%nat as j.
  induction k as [|k IH]; intros j; simpl; [by rewrite Nat.add_0_r|].
  rewrite IH. by rewrite Nat.add_succ_comm.
Qed.

Lemma runs_from_false k l1 l2 : runs_from k (l1 ++ false :: l2) = runs_from k l1 ++ runs l2.
Proof.
  revert k. induction l1 as [|[] l1 IH]; intros k; simpl.
  - done.
  - by rewrite IH.
  - by rewrite IH, app_assoc.
Qed.
Lemma runs_false l1 l2 : runs (l1 ++ false :: l2) = runs l1 ++ runs l2.
Proof. apply runs_from_false. Qed.

(** A list ends with a run, in front of which there is nothing or [false]. *)
Lemma trail_split l : ∃ l', l = l' ++ replicate (lead (reverse l)) true ∧
  (l' = [] ∨ ∃ l'', l' = l'' ++ [false]).
Proof.
  induction l as [|x l IH] using rev_ind; [by exists []; split; [|left]|].
  rewrite reverse_snoc. destruct x; simpl.
  - destruct IH as (l' & E & Hl). exists l'. split; [|done].
    rewrite E at 1. rewrite <-app_assoc. f_equal. by rewrite <-replicate_cons_app.
  - exists (l ++ [false]). split; [by rewrite app_nil_r|]. right. by exists l.
Qed.

(** What becomes of the runs when an element that was [false] turns [true]. *)
Lemma runs_set l1 l2 : ∃ xs ys,
  runs (l1 ++ false :: l2) =
    xs ++ one (lead (reverse l1)) ++ one (lead l2) ++ ys ∧
  runs (l1 ++ true :: l2) = xs ++ [(lead (reverse l1) + lead l2 + 1)%nat] ++ ys.
Proof.
  destruct (trail_split l1) as (l' & E & Hl). set (k := lead (reverse l1)) in *.
  assert (∀ t, runs (l1 ++ t) = (match l' with [] => [] | _ => runs (removelast l') end)
    ++ runs_from k t) as Hr.
  { intros t. rewrite E, <-app_assoc. destruct Hl as [->|[l'' ->]].
    - by rewrite <-runs_true.
    - rewrite <-app_assoc. cbn [app]. rewrite runs_false, removelast_last, runs_true.
      by destruct l''. }
  eexists _, (runs (drop (lead l2) l2)). rewrite !Hr. split.
  - cbn [runs_from]. change (runs_from 0 l2) with (runs l2). unfold runs at 2.
    by rewrite runs_from_lead.
  - cbn [runs_from]. rewrite runs_from_lead. unfold one at 1.
    rewrite bool_decide_false by lia. cbn [app].
    by replace (S k + lead l2)%nat with (k + lead l2 + 1)%nat by lia.
Qed.

(** The number of runs, when an element changes. *)
Lemma nruns_set p l1 l2 :
  let k := lead (reverse l1) in let j := lead l2 in
  nruns p (l1 ++ true :: l2) =
    nruns p (l1 ++ false :: l2) + Z.b2z (p (k + j + 1)%nat)
      - (if bool_decide (k = 0%nat) then 0 else Z.b2z (p k))
      - (if bool_decide (j = 0%nat) then 0 else Z.b2z (p j)).
Proof.
  destruct (runs_set l1 l2) as (xs & ys & E1 & E2). unfold nruns. rewrite E1, E2.
  rewrite !filter_app, !length_app.
  assert (∀ n, Z.of_nat (length (filter p [n])) = Z.b2z (p n)) as H1
    by (intros n; rewrite filter_cons; by destruct (p n)).
  assert (∀ n, Z.of_nat (length (filter p (one n))) =
    if bool_decide (n = 0%nat) then 0 else Z.b2z (p n)) as H2.
  { intros n. unfold one. case_bool_decide; [done|apply H1]. }
  rewrite !Nat2Z.inj_add, !H2, H1. lia.
Qed.

(** ** Blocks *)

(** The sizes of blocks, with their logarithm. *)
Definition frag_ok (F s : Z) : Prop := (F, s) ∈ [(1, 0); (2, 1); (4, 2); (8, 3)].

(** Goals on every size are decided for each. *)
Ltac by_frag H :=
  unfold frag_ok in H;
  repeat (apply elem_of_cons in H as [[= -> ->]|H]; [|]); [..|by apply elem_of_nil in H].

(** All fragments free. *)
Definition full (F : Z) : Z := 2 ^ F - 1.
(** The fragments of a block that are free. *)
Definition bits (F v : Z) : list bool := Z.testbit v <$> seqZ 0 F.
(** Fragments [i] to [i + n - 1]. *)
Definition piece (i n : Z) : Z := Z.shiftl (Z.ones n) i.

(** Block [s] of a byte. *)
Definition sub (F c s : Z) : Z := Z.shiftr c (F * s) .& full F.

(** The runs of exactly [k] fragments. *)
Definition frag_runs (F k v : Z) : Z := nruns (λ r, Z.of_nat r =? k) (bits F v).
(** The free fragments of a block that is not free as a whole. *)
Definition frag_free (F v : Z) : Z :=
  if v =? full F then 0 else Z.of_nat (length (filter Is_true (bits F v))).
Definition is_full (F v : Z) : bool := v =? full F.

(** A list of numbers below a bound, for facts that are decided one by one. *)
Definition below (n : Z) : list Z := seqZ 0 n.
Lemma below_all (P : Z → bool) n : forallb P (below n) = true → ∀ x, 0 ≤ x < n → P x = true.
Proof.
  rewrite forallb_forall. intros HP x Hx. apply HP, list_elem_of_In, elem_of_seqZ. lia.
Qed.
Lemma below_some (P : Z → bool) n : forallb P (below n) = false → ∃ x, 0 ≤ x < n ∧ P x = false.
Proof.
  intros H. assert (∃ x, x ∈ below n ∧ P x = false) as (x & Hx & HP).
  { revert H. induction (below n) as [|y l IH]; [done|]. simpl. intros [E|E]%andb_false_iff.
    - exists y. by split; [left|].
    - destruct (IH E) as (x & ? & ?). exists x. by split; [right|]. }
  exists x. apply elem_of_seqZ in Hx. by split; [lia|].
Qed.

Section bytes.
Context (F s : Z) (HF : frag_ok F s).

(** Byte [c'] is [c] with block [b] replaced by [v]. *)
Definition replaces (c c' b v : Z) : Prop :=
  is_u8 c' ∧ ∀ b', 0 ≤ b' < 8 / F → sub F c' b' = if b' =? b then v else sub F c b'.
Definition replacesb (c c' b v : Z) : bool :=
  (0 <=? c') && (c' <? 256) &&
  forallb (λ b', sub F c' b' =? (if b' =? b then v else sub F c b')) (below (8 / F)).
Lemma replacesb_true c c' b v : replacesb c c' b v = true → replaces c c' b v.
Proof.
  intros [Hu Hf]%andb_true_iff. split; [unfold is_u8; zb; lia|].
  intros b' Hb'. apply Z.eqb_eq. exact (below_all _ _ Hf b' Hb').
Qed.

Lemma replaces_u8 c c' b v : replaces c c' b v → replaces c (u8 c') b v.
Proof. intros H. by rewrite u8_small by apply H. Qed.

(** How the bits of a block change with those of its byte. *)
Definition byte_facts (c b i : Z) : bool :=
  let v := sub F c b in
  let bit := Z.shiftl 1 (F * b + i) in
  let all := Z.shiftl (full F) (F * b) in
  replacesb c (c .| bit) b (Z.setbit v i) && replacesb c (c .& Z.lnot bit) b (Z.clearbit v i) &&
  replacesb c (c .| all) b (full F) && replacesb c (c .& Z.lnot all) b 0 &&
  Bool.eqb (c .& bit =? 0) (negb (Z.testbit v i)) &&
  Bool.eqb (c .& all =? all) (is_full F v) && Bool.eqb (c .& all =? 0) (v =? 0) &&
  (Z.shiftr c (F * b) .& Z.shiftr 0xff (NBBY - F) =? v).

Lemma byte_facts_ok c b i : 0 ≤ c < 256 → 0 ≤ b < 8 / F → 0 ≤ i < F → byte_facts c b i = true.
Proof using HF.
  intros Hc Hb Hi. revert i Hi. apply below_all. revert b Hb.
  apply (below_all (λ b, forallb (λ i, byte_facts c b i) (below F))). revert c Hc.
  apply (below_all (λ c, forallb (λ b, forallb (λ i, byte_facts c b i) (below F)) (below (8 / F)))).
  unfold byte_facts, replacesb. by_frag HF; vm_compute; reflexivity.
Qed.
End bytes.

(** ** A map holds a list of blocks *)

Section repr.
Context (F s : Z) (HF : frag_ok F s).

Definition blk (map : list Z) (b : Z) : option Z :=
  (λ c, sub F c (b mod (8 / F))) <$> map !! Z.to_nat (b / (8 / F)).
Definition repr (map l : list Z) : Prop :=
  Forall is_u8 map ∧ ∀ b, 0 ≤ b → l !! Z.to_nat b = blk map b.

Lemma per_byte : 0 < 8 / F ∧ 0 < F ∧ F * (8 / F) = 8.
Proof using HF. by_frag HF; done. Qed.

(** The byte and the bit of fragment [i] of block [b]. *)
Lemma frag_place b i : 0 ≤ b → 0 ≤ i < F →
  (b * F + i) / NBBY = b / (8 / F) ∧ (b * F + i) mod NBBY = F * (b mod (8 / F)) + i ∧
  0 ≤ b mod (8 / F) < 8 / F ∧ 0 ≤ b / (8 / F).
Proof using HF.
  intros Hb Hi. unfold NBBY. by_frag HF.
  all: match goal with |- context [8 / ?f] =>
    let n := eval vm_compute in (8 / f) in change (8 / f) with n end.
  all: Z.div_mod_to_equations; lia.
Qed.

Lemma repr_byte map l b v : repr map l → 0 ≤ b → l !! Z.to_nat b = Some v →
  ∃ c, get map (b / (8 / F)) = Ok c ∧ map !! Z.to_nat (b / (8 / F)) = Some c ∧ is_u8 c ∧
    v = sub F c (b mod (8 / F)).
Proof using HF.
  intros [Hu Hl] Hb Hv. rewrite Hl in Hv by done. unfold blk in Hv.
  apply fmap_Some in Hv as (c & Hc & ->). exists c.
  destruct (frag_place b 0) as (_ & _ & _ & ?); [done|pose proof per_byte; lia|].
  split; [by apply get_Ok|]. split; [done|]. split; [|done]. by eapply Forall_lookup_1.
Qed.

(** A byte in which one block changes. *)
Lemma repr_put map l b c c' v' : repr map l → 0 ≤ b →
  map !! Z.to_nat (b / (8 / F)) = Some c → replaces F c c' (b mod (8 / F)) v' →
  ∃ map', put map (b / (8 / F)) c' = Ok map' ∧ repr map' (<[Z.to_nat b := v']> l) ∧
    length map' = length map.
Proof using HF.
  intros [Hu Hl] Hb Hc [Hc' Hs]. pose proof (lookup_lt_Some _ _ _ Hc) as Hlt.
  destruct per_byte as (HD & HF0 & HFD).
  destruct (frag_place b 0) as (_ & _ & Hm & Hd); [done|lia|].
  eexists. split; [by apply put_total; lia|]. split; [|by rewrite length_insert].
  split; [by apply Forall_insert|]. intros b1 Hb1. unfold blk.
  destruct (frag_place b1 0) as (_ & _ & Hm1 & Hd1); [done|lia|].
  assert (Hlb : ∃ v, l !! Z.to_nat b = Some v).
  { rewrite Hl by done. unfold blk. rewrite Hc. by eexists. }
  destruct Hlb as [v Hv].
  destruct (decide (b1 = b)) as [->|Hne].
  - rewrite list_lookup_insert_eq by (by eapply lookup_lt_Some).
    rewrite list_lookup_insert_eq by done. simpl. by rewrite Hs, Z.eqb_refl by done.
  - rewrite list_lookup_insert_ne by lia. rewrite Hl by done. unfold blk.
    destruct (decide (b1 / (8 / F) = b / (8 / F))) as [Ed|Hnd].
    + rewrite Ed, list_lookup_insert_eq, Hc by done. simpl. rewrite Hs by done.
      rewrite (proj2 (Z.eqb_neq _ _)); [done|]. intros Em. apply Hne.
      rewrite (Z.div_mod b1 (8 / F)), (Z.div_mod b (8 / F)) by lia. congruence.
    + by rewrite list_lookup_insert_ne by lia.
Qed.

Lemma repr_lookup map l b : repr map l → 0 ≤ b →
  (b < Z.of_nat (length map) * (8 / F) ↔ ∃ v, l !! Z.to_nat b = Some v).
Proof using HF.
  intros [Hu Hl] Hb. rewrite Hl by done. unfold blk. destruct per_byte as (HD & _).
  destruct (frag_place b 0) as (_ & _ & Hm & Hd); [done|destruct per_byte; lia|].
  assert (b < Z.of_nat (length map) * (8 / F) ↔ b / (8 / F) < Z.of_nat (length map)) as ->.
  { split; intros; [apply Z.div_lt_upper_bound; lia|].
    rewrite (Z.div_mod b (8 / F)) by lia. nia. }
  split.
  - intros. destruct (lookup_lt_is_Some_2 map (Z.to_nat (b / (8 / F)))) as [c ->]; [lia|].
    by eexists.
  - intros [v Hv]. apply fmap_Some in Hv as (c & Hc & _). apply lookup_lt_Some in Hc. lia.
Qed.

Lemma repr_length map l : repr map l → Z.of_nat (length l) = Z.of_nat (length map) * (8 / F).
Proof using HF.
  intros Hr. pose proof (repr_lookup map l) as H. destruct per_byte as (HD & _).
  set (n := Z.of_nat (length map) * (8 / F)) in *. assert (0 ≤ n) by (unfold n; nia).
  destruct (Z.lt_trichotomy (Z.of_nat (length l)) n) as [Hlt|[?|Hgt]]; [|done|].
  - apply H in Hlt as [v Hv]; [|done|lia]. apply lookup_lt_Some in Hv. lia.
  - destruct (lookup_lt_is_Some_2 l (Z.to_nat n)) as [v Hv]; [lia|].
    assert (n < n); [|lia]. apply H; [done..|]. by exists v.
Qed.

Lemma repr_bounds map l b v : repr map l → l !! b = Some v → 0 ≤ v < 2 ^ F.
Proof using HF.
  intros Hr Hv. rewrite <-(Nat2Z.id b) in Hv.
  destruct (repr_byte map l (Z.of_nat b) v Hr) as (c & _ & _ & _ & ->); [lia|done|].
  destruct per_byte as (_ & ? & _). unfold sub, full.
  replace (2 ^ F - 1) with (Z.ones F) by (rewrite Z.ones_equiv; lia).
  rewrite Z.land_ones by lia. apply Z.mod_pos_bound. lia.
Qed.

(** Block [b] and its byte. *)
Lemma byte_use map l b v i : repr map l → 0 ≤ b → l !! Z.to_nat b = Some v → 0 ≤ i < F →
  ∃ c, get map (b / (8 / F)) = Ok c ∧ map !! Z.to_nat (b / (8 / F)) = Some c ∧
    v = sub F c (b mod (8 / F)) ∧ byte_facts F c (b mod (8 / F)) i = true.
Proof using HF.
  intros Hr Hb Hv Hi. destruct (repr_byte map l b v Hr Hb Hv) as (c & ? & ? & Hc & ?).
  exists c. do 3 (split; [done|]). eapply byte_facts_ok; [done|exact Hc| |done].
  by destruct (frag_place b i) as (_ & _ & ? & _).
Qed.

Lemma blk_mask_place b : 0 ≤ b →
  blk_mask s b = Ok (b / (8 / F), Z.shiftl (full F) (F * (b mod (8 / F)))).
Proof using HF.
  intros Hb. by_frag HF; cbv [blk_mask Z.eqb Pos.eqb]; do 2 f_equal.
  all: rewrite ?Z.shiftr_div_pow2 by lia.
  all: try (by rewrite ?Z.div_1_r, ?Z.mod_1_r).
  - rewrite Z.mul_1_l. change (b .& 7) with (b .& Z.ones 3). rewrite (Z.land_ones b 3); done.
  - change (b .& 3) with (b .& Z.ones 2). rewrite (Z.land_ones b 2), (Z.shiftl_mul_pow2 _ 1) by lia. f_equal. apply Z.mul_comm.
  - change (b .& 1) with (b .& Z.ones 1). rewrite (Z.land_ones b 1), (Z.shiftl_mul_pow2 _ 2) by lia. f_equal. apply Z.mul_comm.
Qed.

(** *** Operations on a fragment *)

Lemma setbit_blk map l b v i : repr map l → 0 ≤ b → l !! Z.to_nat b = Some v → 0 ≤ i < F →
  ∃ map', setbit map (b * F + i) = Ok map' ∧ repr map' (<[Z.to_nat b := Z.setbit v i]> l) ∧
    length map' = length map.
Proof using HF.
  intros Hr Hb Hv Hi. destruct (frag_place b i Hb Hi) as (E1 & E2 & _).
  destruct (byte_use map l b v i Hr Hb Hv Hi) as (c & Hg & Hc & -> & H).
  unfold setbit, bit_mask. rewrite E1, E2, Hg, Ok_bind.
  eapply repr_put; [done..|]. unfold byte_facts in H. rewrite !andb_true_iff in H.
  apply replaces_u8, replacesb_true. tauto.
Qed.
Lemma clrbit_blk map l b v i : repr map l → 0 ≤ b → l !! Z.to_nat b = Some v → 0 ≤ i < F →
  ∃ map', clrbit map (b * F + i) = Ok map' ∧ repr map' (<[Z.to_nat b := Z.clearbit v i]> l) ∧
    length map' = length map.
Proof using HF.
  intros Hr Hb Hv Hi. destruct (frag_place b i Hb Hi) as (E1 & E2 & _).
  destruct (byte_use map l b v i Hr Hb Hv Hi) as (c & Hg & Hc & -> & H).
  unfold clrbit, bit_mask. rewrite E1, E2, Hg, Ok_bind.
  eapply repr_put; [done..|]. unfold byte_facts in H. rewrite !andb_true_iff in H.
  apply replaces_u8, replacesb_true. tauto.
Qed.
Lemma isclr_blk map l b v i : repr map l → 0 ≤ b → l !! Z.to_nat b = Some v → 0 ≤ i < F →
  isclr map (b * F + i) = Ok (negb (Z.testbit v i)).
Proof using HF.
  intros Hr Hb Hv Hi. destruct (frag_place b i Hb Hi) as (E1 & E2 & _).
  destruct (byte_use map l b v i Hr Hb Hv Hi) as (c & Hg & Hc & -> & H).
  unfold isclr, bit_mask. rewrite E1, E2, Hg, Ok_bind. f_equal.
  unfold byte_facts in H. rewrite !andb_true_iff in H. apply eqb_prop. tauto.
Qed.
Lemma isset_blk map l b v i : repr map l → 0 ≤ b → l !! Z.to_nat b = Some v → 0 ≤ i < F →
  isset map (b * F + i) = Ok (Z.testbit v i).
Proof using HF.
  intros Hr Hb Hv Hi. pose proof (isclr_blk map l b v i Hr Hb Hv Hi) as H.
  unfold isclr, isset in *. destruct (get map _) as [c|]; [|done].
  rewrite Ok_bind in H |- *. injection H as ->. by rewrite negb_involutive.
Qed.

(** *** Operations on a block *)

Lemma blkmap_blk map l b v : repr map l → 0 ≤ b → l !! Z.to_nat b = Some v →
  blkmap F map (b * F) = Ok v.
Proof using HF.
  intros Hr Hb Hv. destruct per_byte as (_ & HF0 & _).
  destruct (frag_place b 0 Hb) as (E1 & E2 & _); [lia|]. rewrite Z.add_0_r in E1, E2. rewrite Z.add_0_r in E2.
  destruct (byte_use map l b v 0 Hr Hb Hv) as (c & Hg & Hc & -> & H); [lia|].
  unfold blkmap. rewrite E1, E2, Hg, Ok_bind. f_equal.
  unfold byte_facts in H. rewrite !andb_true_iff in H. apply Z.eqb_eq. tauto.
Qed.
Lemma isblock_blk map l b v : repr map l → 0 ≤ b → l !! Z.to_nat b = Some v →
  ffs_isblock s map b = Ok (is_full F v).
Proof using HF.
  intros Hr Hb Hv. destruct per_byte as (_ & HF0 & _).
  destruct (byte_use map l b v 0 Hr Hb Hv) as (c & Hg & Hc & -> & H); [lia|].
  unfold ffs_isblock. rewrite blk_mask_place, Ok_bind, Hg, Ok_bind by done. f_equal.
  unfold byte_facts in H. rewrite !andb_true_iff in H. apply eqb_prop. tauto.
Qed.
Lemma isfreeblock_blk map l b v : repr map l → 0 ≤ b → l !! Z.to_nat b = Some v →
  ffs_isfreeblock s map b = Ok (v =? 0).
Proof using HF.
  intros Hr Hb Hv. destruct per_byte as (_ & HF0 & _).
  destruct (byte_use map l b v 0 Hr Hb Hv) as (c & Hg & Hc & -> & H); [lia|].
  unfold ffs_isfreeblock. rewrite blk_mask_place, Ok_bind, Hg, Ok_bind by done. f_equal.
  unfold byte_facts in H. rewrite !andb_true_iff in H. apply eqb_prop. tauto.
Qed.
Lemma clrblock_blk map l b v : repr map l → 0 ≤ b → l !! Z.to_nat b = Some v →
  ∃ map', ffs_clrblock s map b = Ok map' ∧ repr map' (<[Z.to_nat b := 0]> l) ∧
    length map' = length map.
Proof using HF.
  intros Hr Hb Hv. destruct per_byte as (_ & HF0 & _).
  destruct (byte_use map l b v 0 Hr Hb Hv) as (c & Hg & Hc & -> & H); [lia|].
  unfold ffs_clrblock. rewrite blk_mask_place, Ok_bind, Hg, Ok_bind by done.
  eapply repr_put; [done..|]. unfold byte_facts in H. rewrite !andb_true_iff in H.
  apply replacesb_true. tauto.
Qed.
Lemma setblock_blk map l b v : repr map l → 0 ≤ b → l !! Z.to_nat b = Some v →
  ∃ map', ffs_setblock s map b = Ok map' ∧ repr map' (<[Z.to_nat b := full F]> l) ∧
    length map' = length map.
Proof using HF.
  intros Hr Hb Hv. destruct per_byte as (_ & HF0 & _).
  destruct (byte_use map l b v 0 Hr Hb Hv) as (c & Hg & Hc & -> & H); [lia|].
  unfold ffs_setblock. rewrite blk_mask_place, Ok_bind, Hg, Ok_bind by done.
  eapply repr_put; [done..|]. unfold byte_facts in H. rewrite !andb_true_iff in H.
  apply replacesb_true. tauto.
Qed.

End repr.
