(* ===== verification/FfsFragSpec.v ===== *)
(** * Fragments of a block (for ufs/ffs/ffs_subr.c and ufs/ffs/ffs_alloc.c)

    The loops over the fragments of a block change one element of the list of
    blocks; the counters of a group hold numbers in the byte order of the file
    system, and [ffs_fragacct] adds to them the runs of a block. *)

From S2P Require Import Prelude FfsMap FfsMapSpec FfsAlloc.

(** ** Pieces of a block *)

Lemma piece_testbit i n j : 0 ≤ i → 0 ≤ n → 0 ≤ j →
  Z.testbit (piece i n) j = (i <=? j) && (j <? i + n).
Proof.
  intros Hi Hn Hj. unfold piece. rewrite Z.shiftl_spec by done.
  destruct (Z.leb_spec i j); simpl.
  - destruct (Z.ltb_spec j (i + n)).
    + apply Z.ones_spec_low. lia.
    + apply Z.ones_spec_high. lia.
  - by apply Z.testbit_neg_r; lia.
Qed.

(** A piece is its first fragment and the rest. *)
Lemma ldiff_piece v i n : 0 ≤ i → 0 ≤ n →
  Z.ldiff v (piece i (n + 1)) = Z.ldiff (Z.clearbit v i) (piece (i + 1) n).
Proof.
  intros Hi Hn. apply Z.bits_inj'. intros j Hj.
  rewrite !Z.ldiff_spec, Z.clearbit_eqb, !piece_testbit by lia.
  destruct (Z.testbit v j); simpl; [|done]. lia.
Qed.
Lemma lor_piece v i n : 0 ≤ i → 0 ≤ n →
  Z.lor v (piece i (n + 1)) = Z.lor (Z.setbit v i) (piece (i + 1) n).
Proof.
  intros Hi Hn. apply Z.bits_inj'. intros j Hj.
  rewrite !Z.lor_spec, Z.setbit_eqb, !piece_testbit by lia.
  destruct (Z.testbit v j); simpl; [by rewrite orb_true_r|]. lia.
Qed.

(** All, or none, of the fragments of a piece are free. *)
Definition has (v i n : Z) : bool := forallb (Z.testbit v) (seqZ i n).
Definition lacks (v i n : Z) : bool := forallb (λ j, negb (Z.testbit v j)) (seqZ i n).

Lemma has_S v i n : 0 ≤ n → has v i (n + 1) = Z.testbit v i && has v (i + 1) n.
Proof.
  intros Hn. unfold has. rewrite Z.add_1_r, seqZ_cons by lia. simpl.
  by rewrite Z.pred_succ, Z.add_1_r.
Qed.
Lemma lacks_S v i n : 0 ≤ n → lacks v i (n + 1) = negb (Z.testbit v i) && lacks v (i + 1) n.
Proof.
  intros Hn. unfold lacks. rewrite Z.add_1_r, seqZ_cons by lia. simpl.
  by rewrite Z.pred_succ, Z.add_1_r.
Qed.
Lemma lacks_setbit v i n : 0 ≤ i → lacks (Z.setbit v i) (i + 1) n = lacks v (i + 1) n.
Proof.
  intros Hi. unfold lacks. apply eq_true_iff_eq. rewrite !forallb_forall.
  split; intros H j Hj; specialize (H j Hj); apply list_elem_of_In, elem_of_seqZ in Hj;
    rewrite Z.setbit_neq in * by lia; done.
Qed.

Section pieces.
Context (F s : Z) (HF : frag_ok F s).
Implicit Types (map l : list Z) (b v i : Z).

Lemma clr_frags_blk (n : nat) : ∀ map l b v i,
  repr F map l → 0 ≤ b → l !! Z.to_nat b = Some v → 0 ≤ i → i + Z.of_nat n ≤ F →
  ∃ map', clr_frags n map (b * F + i) = Ok map' ∧
    repr F map' (<[Z.to_nat b := Z.ldiff v (piece i (Z.of_nat n))]> l) ∧ length map' = length map.
Proof using HF.
  induction n as [|n IH]; intros map l b v i Hr Hb Hv Hi Hn; simpl.
  - exists map. split; [done|]. split; [|done]. unfold piece. rewrite Z.shiftl_0_l, Z.ldiff_0_r.
    by rewrite list_insert_id.
  - destruct (clrbit_blk F s HF map l b v i) as (map1 & -> & Hr1 & El); [done..|lia|].
    rewrite Ok_bind, <-Z.add_assoc. eapply IH in Hr1 as (map2 & -> & Hr2 & El2); cycle 1.
    { done. } { apply list_lookup_insert_eq. by eapply lookup_lt_Some. } { lia. } { lia. }
    exists map2. split; [done|]. split; [|congruence].
    rewrite list_insert_insert_eq, <-ldiff_piece in Hr2 by lia.
    by rewrite Nat2Z.inj_succ, <-Z.add_1_r.
Qed.
Lemma set_frags_blk (n : nat) : ∀ map l b v i,
  repr F map l → 0 ≤ b → l !! Z.to_nat b = Some v → 0 ≤ i → i + Z.of_nat n ≤ F →
  ∃ map', set_frags n map (b * F + i) = Ok map' ∧
    repr F map' (<[Z.to_nat b := Z.lor v (piece i (Z.of_nat n))]> l) ∧ length map' = length map.
Proof using HF.
  induction n as [|n IH]; intros map l b v i Hr Hb Hv Hi Hn; simpl.
  - exists map. split; [done|]. split; [|done]. unfold piece. rewrite Z.shiftl_0_l, Z.lor_0_r.
    by rewrite list_insert_id.
  - destruct (setbit_blk F s HF map l b v i) as (map1 & -> & Hr1 & El); [done..|lia|].
    rewrite Ok_bind, <-Z.add_assoc. eapply IH in Hr1 as (map2 & -> & Hr2 & El2); cycle 1.
    { done. } { apply list_lookup_insert_eq. by eapply lookup_lt_Some. } { lia. } { lia. }
    exists map2. split; [done|]. split; [|congruence].
    rewrite list_insert_insert_eq, <-lor_piece in Hr2 by lia.
    by rewrite Nat2Z.inj_succ, <-Z.add_1_r.
Qed.

(** Freeing fragments that are allocated is setting them. *)
Lemma free_frags_set (n : nat) : ∀ map l b v i,
  repr F map l → 0 ≤ b → l !! Z.to_nat b = Some v → 0 ≤ i → i + Z.of_nat n ≤ F →
  lacks v i (Z.of_nat n) = true → free_frags n map (b * F + i) = set_frags n map (b * F + i).
Proof using HF.
  induction n as [|n IH]; intros map l b v i Hr Hb Hv Hi Hn Hl; simpl; [done|].
  rewrite Nat2Z.inj_succ, <-Z.add_1_r, lacks_S in Hl by lia.
  apply andb_true_iff in Hl as [Hl1 Hl2]. apply negb_true_iff in Hl1.
  rewrite (isset_blk F s HF map l b v i), Hl1, Ok_bind by (done || lia).
  destruct (setbit_blk F s HF map l b v i) as (map1 & -> & Hr1 & El); [done..|lia|].
  rewrite !Ok_bind, <-Z.add_assoc. eapply IH; [done..| |lia|lia|].
  - apply list_lookup_insert_eq. by eapply lookup_lt_Some.
  - by rewrite lacks_setbit.
Qed.

(** A fragment that is free already is a panic. *)
Lemma free_frags_panic (n : nat) : ∀ map l b v i,
  repr F map l → 0 ≤ b → l !! Z.to_nat b = Some v → 0 ≤ i → i + Z.of_nat n ≤ F →
  lacks v i (Z.of_nat n) = false → free_frags n map (b * F + i) = Fault Panic.
Proof using HF.
  induction n as [|n IH]; intros map l b v i Hr Hb Hv Hi Hn Hl; simpl; [done|].
  rewrite Nat2Z.inj_succ, <-Z.add_1_r, lacks_S in Hl by lia.
  rewrite (isset_blk F s HF map l b v i), Ok_bind by (done || lia).
  destruct (Z.testbit v i); [done|]. simpl in Hl.
  destruct (setbit_blk F s HF map l b v i) as (map1 & -> & Hr1 & El); [done..|lia|].
  rewrite Ok_bind, <-Z.add_assoc. eapply IH; [done..| |lia|lia|].
  - apply list_lookup_insert_eq. by eapply lookup_lt_Some.
  - by rewrite lacks_setbit.
Qed.

Lemma all_set_blk (n : nat) : ∀ map l b v i,
  repr F map l → 0 ≤ b → l !! Z.to_nat b = Some v → 0 ≤ i → i + Z.of_nat n ≤ F →
  all_set n map (b * F + i) = Ok (has v i (Z.of_nat n)).
Proof using HF.
  induction n as [|n IH]; intros map l b v i Hr Hb Hv Hi Hn; simpl; [done|].
  rewrite (isclr_blk F s HF map l b v i), Ok_bind by (done || lia).
  rewrite Nat2Z.inj_succ, <-Z.add_1_r, has_S by lia.
  destruct (Z.testbit v i); simpl; [|done]. rewrite <-Z.add_assoc.
  apply (IH map l); done || lia.
Qed.

(** The end of the run at fragment [i]. *)
Fixpoint run_to (fuel : nat) (v i last : Z) : Z :=
  match fuel with
  | O => i
  | S fuel => if (i <? last) && Z.testbit v i then run_to fuel v (i + 1) last else i
  end.
Lemma run_end_blk (fuel : nat) : ∀ map l b v o i last,
  repr F map l → 0 ≤ b → l !! Z.to_nat b = Some v → 0 ≤ o → 0 ≤ i → o + last ≤ F →
  Z.max 0 (last - i) < Z.of_nat fuel →
  run_end fuel map (b * F + o) i last = Ok (run_to fuel v (o + i) (o + last) - o).
Proof using HF.
  induction fuel as [|fuel IH]; intros map l b v o i last Hr Hb Hv Ho Hi Hl Hf; simpl;
    destruct (Z.ltb_spec i last); simpl; try lia.
  - rewrite <-Z.add_assoc, (isclr_blk F s HF map l b v (o + i)), Ok_bind by (done || lia).
    rewrite (proj2 (Z.ltb_lt _ _)) by lia. destruct (Z.testbit v (o + i)); simpl.
    + rewrite (IH map l b v) by (done || lia). by rewrite Z.add_assoc.
    + f_equal. lia.
  - rewrite (proj2 (Z.ltb_ge _ _)) by lia. simpl. f_equal. lia.
Qed.

End pieces.

(** ** Counters *)

Section counters.
Context `{BswapLaws}.

(** A number in the byte order of the file system. *)
Definition stored (ns : bool) (n : Z) : Z := ufs_rw32 (u32 n) ns.

Lemma stored_inv ns n : ufs_rw32 (stored ns n) ns = u32 n.
Proof. unfold stored, ufs_rw32. destruct ns; [|done]. apply bswap32_inv, u32_bounds. Qed.
Lemma stored_add ns n b : ufs_add32 (stored ns n) b ns = stored ns (n + b).
Proof.
  unfold ufs_add32. rewrite stored_inv. unfold stored. f_equal.
  unfold u32. by rewrite Z.add_mod_idemp_l.
Qed.
Lemma stored_0 ns n : is_u32 n → stored ns n = 0 ↔ n = 0.
Proof.
  intros Hn. split.
  - intros E. pose proof (stored_inv ns n) as E2. rewrite E, u32_small in E2 by done.
    rewrite <-E2. unfold ufs_rw32. destruct ns; [apply bswap32_0|done].
  - intros ->. unfold stored, ufs_rw32. destruct ns; [apply bswap32_0|done].
Qed.

(** Entries [lo] to [hi - 1] of an array hold the numbers [g]. *)
Definition counts (ns : bool) (lo hi : Z) (g : Z → Z) (l : list Z) : Prop :=
  ∀ k, lo ≤ k < hi → l !! Z.to_nat k = Some (stored ns (g k)).

Lemma counts_ext ns lo hi g g' l :
  (∀ k, lo ≤ k < hi → g k = g' k) → counts ns lo hi g l → counts ns lo hi g' l.
Proof. intros E Hc k Hk. rewrite Hc, E by done. done. Qed.

Definition bump (i b : Z) (g : Z → Z) (k : Z) : Z := if k =? i then g k + b else g k.

Lemma counts_get ns lo hi g l k : 0 ≤ lo → counts ns lo hi g l → lo ≤ k < hi →
  get l k = Ok (stored ns (g k)).
Proof. intros Hlo Hc Hk. apply get_Ok. split; [lia|]. by apply Hc. Qed.
Lemma counts_add ns lo hi g l i b : 0 ≤ lo → counts ns lo hi g l → lo ≤ i < hi →
  ∃ l', add_at l i b ns = Ok l' ∧ counts ns lo hi (bump i b g) l' ∧ length l' = length l.
Proof.
  intros Hlo Hc Hi. unfold add_at. rewrite (counts_get ns lo hi g) by done. rewrite Ok_bind.
  pose proof (lookup_lt_Some _ _ _ (Hc i Hi)). eexists. split; [by apply put_total; lia|].
  split; [|by rewrite length_insert]. intros k Hk. unfold bump.
  destruct (Z.eqb_spec k i) as [->|Hne].
  - rewrite list_lookup_insert_eq by lia. by rewrite stored_add.
  - rewrite list_lookup_insert_ne by lia. by apply Hc.
Qed.

Fixpoint add_all (l tr : list Z) (cnt : Z) (ns : bool) : res (list Z) :=
  match tr with [] => Ok l | i :: tr => l ← add_at l i cnt ns; add_all l tr cnt ns end.
Definition occ (k : Z) (tr : list Z) : Z := Z.of_nat (length (filter (λ i, i = k) tr)).

Lemma counts_add_all ns lo hi cnt tr : ∀ g l, 0 ≤ lo → counts ns lo hi g l →
  Forall (λ i, lo ≤ i < hi) tr →
  ∃ l', add_all l tr cnt ns = Ok l' ∧ counts ns lo hi (λ k, g k + cnt * occ k tr) l' ∧
    length l' = length l.
Proof.
  induction tr as [|i tr IH]; intros g l Hlo Hc Htr; simpl.
  - exists l. split; [done|]. split; [|done]. eapply counts_ext; [|done].
    intros k _. unfold occ. simpl. lia.
  - apply Forall_cons in Htr as [Hi Htr].
    destruct (counts_add ns lo hi g l i cnt) as (l1 & -> & Hc1 & El1); [done..|]. rewrite Ok_bind.
    destruct (IH _ l1 Hlo Hc1 Htr) as (l2 & -> & Hc2 & El2). exists l2. split; [done|].
    split; [|congruence]. eapply counts_ext; [|done]. intros k _. unfold bump, occ.
    rewrite filter_cons. destruct (Z.eqb_spec k i) as [->|Hne].
    + rewrite decide_True by done. cbn [length]. lia.
    + by rewrite decide_False by congruence.
Qed.

(** The sizes that [ffs_fragacct] counts. *)
Fixpoint pos_sizes (fuel : nat) (frag siz fragmap field subfield pos : Z) : option (list Z) :=
  match fuel with
  | O => None
  | S fuel =>
      if pos <=? frag then
        if fragmap .& field =? subfield then
          cons siz <$> pos_sizes fuel frag siz fragmap (Z.shiftl (Z.shiftl field siz) 1)
            (Z.shiftl (Z.shiftl subfield siz) 1) (pos + siz + 1)
        else pos_sizes fuel frag siz fragmap (Z.shiftl field 1) (Z.shiftl subfield 1) (pos + 1)
      else Some []
  end.
Fixpoint siz_sizes (fuel : nat) (frag inblk siz fragmap : Z) : option (list Z) :=
  match fuel with
  | O => None
  | S fuel =>
      if siz <? frag then
        if inblk .& Z.shiftl 1 (siz + (frag .& (NBBY - 1))) =? 0 then
          siz_sizes fuel frag inblk (siz + 1) fragmap
        else
          field ← around !! Z.to_nat siz;
          subfield ← inside !! Z.to_nat siz;
          a ← pos_sizes 10 frag siz fragmap field subfield siz;
          b ← siz_sizes fuel frag inblk (siz + 1) fragmap;
          Some (a ++ b)
      else Some []
  end.
Definition sizes (F v : Z) : option (list Z) :=
  tbl ← (match fragtbl F with Ok t => Some t | Fault _ => None end);
  c ← tbl !! Z.to_nat v;
  siz_sizes 10 F (Z.shiftl c 1) 1 (Z.shiftl v 1).

Lemma pos_sizes_ok cnt ns fuel : ∀ frag siz fragmap field subfield pos tr l,
  pos_sizes fuel frag siz fragmap field subfield pos = Some tr →
  fragacct_pos fuel frag siz fragmap field subfield pos l cnt ns = add_all l tr cnt ns.
Proof.
  induction fuel as [|fuel IH]; intros frag siz fragmap field subfield pos tr l Htr; [done|].
  simpl in Htr |- *. destruct (pos <=? frag); [|by injection Htr as <-].
  destruct (_ =? subfield); [|by apply IH].
  apply fmap_Some in Htr as (tr' & Htr & ->). simpl.
  destruct (add_at l siz cnt ns) as [l'|]; [|done]. rewrite !Ok_bind. by apply IH.
Qed.
Lemma add_all_app cnt ns tr1 tr2 : ∀ l,
  add_all l (tr1 ++ tr2) cnt ns = add_all l tr1 cnt ns ≫= λ l, add_all l tr2 cnt ns.
Proof.
  induction tr1 as [|i tr1 IH]; intros l; simpl; [done|].
  destruct (add_at l i cnt ns) as [l'|]; [|done]. rewrite !Ok_bind. apply IH.
Qed.
Lemma siz_sizes_ok cnt ns fuel : ∀ frag inblk siz fragmap tr l, 0 ≤ siz →
  siz_sizes fuel frag inblk siz fragmap = Some tr →
  fragacct_siz fuel frag inblk siz fragmap l cnt ns = add_all l tr cnt ns.
Proof.
  induction fuel as [|fuel IH]; intros frag inblk siz fragmap tr l Hs Htr; [done|].
  cbn [siz_sizes] in Htr; cbn [fragacct_siz]. destruct (siz <? frag); [|by injection Htr as <-].
  destruct (_ =? 0); [apply IH; [lia|done]|].
  apply bind_Some in Htr as (fi & Hfi & Htr). apply bind_Some in Htr as (su & Hsu & Htr).
  apply bind_Some in Htr as (a & Ha & Htr). apply bind_Some in Htr as (b & Hb & Htr).
  injection Htr as <-.
  rewrite (proj2 (get_Ok around siz fi)), (proj2 (get_Ok inside siz su)) by done.
  rewrite !Ok_bind, add_all_app. erewrite pos_sizes_ok by exact Ha.
  destruct (add_all l a cnt ns) as [l'|]; [|done]. rewrite !Ok_bind. apply IH; [lia|done].
Qed.

(** The tables and the loops find the runs of a block, each once. *)
Definition sizes_facts (F v : Z) : bool :=
  match sizes F v with
  | Some tr =>
      forallb (λ i, (1 <=? i) && (i <? F)) tr &&
      forallb (λ k, occ k tr =? frag_runs F k v) (seqZ 1 (F - 1))
  | None => false
  end.
Lemma sizes_facts_ok F s v : frag_ok F s → 0 ≤ v < 2 ^ F → sizes_facts F v = true.
Proof.
  intros HF Hv. revert v Hv. apply below_all. by_frag HF; vm_compute; reflexivity.
Qed.

(** [ffs_fragacct] adds [cnt] for each run of free fragments of the block. *)
Lemma fragacct_counts F s v ns g l cnt : frag_ok F s → 0 ≤ v < 2 ^ F →
  counts ns 1 F g l →
  ∃ l', ffs_fragacct F v l cnt ns = Ok l' ∧
    counts ns 1 F (λ k, g k + cnt * frag_runs F k v) l' ∧ length l' = length l.
Proof.
  intros HF Hv Hc. pose proof (sizes_facts_ok F s v HF Hv) as Hs. unfold sizes_facts in Hs.
  destruct (sizes F v) as [tr|] eqn:E; [|done]. apply andb_true_iff in Hs as [Hr Ho].
  assert (ffs_fragacct F v l cnt ns = add_all l tr cnt ns) as ->.
  { unfold sizes in E. unfold ffs_fragacct. destruct (fragtbl F) as [tbl|]; [|done].
    cbn [mbind option_bind] in E. apply bind_Some in E as (c & Hc' & E). rewrite Ok_bind.
    rewrite (proj2 (get_Ok tbl v c)) by (split; [lia|done]). rewrite Ok_bind.
    apply siz_sizes_ok; [lia|done]. }
  destruct (counts_add_all ns 1 F cnt tr g l) as (l' & El & Hc' & ?); [lia|done| |].
  { apply Forall_forall. intros i Hi. rewrite forallb_forall in Hr.
    specialize (Hr i (proj1 (list_elem_of_In _ _) Hi)). zb. lia. }
  exists l'. split; [done|]. split; [|done]. eapply counts_ext; [|done]. intros k Hk. simpl.
  rewrite forallb_forall in Ho. specialize (Ho k). apply Z.eqb_eq in Ho; [by rewrite Ho|].
  apply list_elem_of_In, elem_of_seqZ. lia.
Qed.

End counters.
