(* ===== verification/FfsCluster.v ===== *)
(** * The account of clusters (for ffs_clusteracct of ufs/ffs/ffs_subr.c)

    The cluster map has a bit for each block, set when the block is free as a
    whole; [cg_clustersum] counts its maximal runs by length, those of
    [fs_contigsumsize] blocks or more together. A change of one bit keeps the
    counts. *)

From S2P Require Import Prelude FfsMap FfsMapSpec FfsAlloc FfsFragSpec.

(** ** The cluster map *)

(** The bits of the map are the list [cl]. *)
Definition cmap (free : list Z) (cl : list bool) : Prop :=
  Forall is_u8 free ∧
  ∀ b x, 0 ≤ b → cl !! Z.to_nat b = Some x →
    ∃ c, free !! Z.to_nat (b / 8) = Some c ∧ x = Z.testbit c (b mod 8).

(** The same through the bits of the array. *)
Lemma cmap_bits free cl : cmap free cl ↔ bytes_wf free ∧
  ∀ b x, 0 ≤ b → cl !! Z.to_nat b = Some x → has_bit free b ∧ bit free b = x.
Proof.
  unfold cmap, bytes_wf. split; intros [Hw Hm]; (split; [done|]); intros b x Hb Hx.
  - destruct (Hm b x Hb Hx) as (c & Hc & ->). pose proof (lookup_lt_Some _ _ _ Hc).
    unfold has_bit, bit, NBBY. rewrite Hc. split; [|done].
    pose proof (Z.div_mod b 8). pose proof (Z.mod_pos_bound b 8). lia.
  - destruct (Hm b x Hb Hx) as [Hi <-]. destruct (has_bit_byte free b Hi) as [Hl _].
    destruct (get_total free (b / NBBY) Hl) as (c & _ & Hc). exists c. split; [done|].
    unfold bit, NBBY in *. by rewrite Hc.
Qed.

Lemma cmap_set free cl b x (v : bool) : cmap free cl → 0 ≤ b → cl !! Z.to_nat b = Some x →
  ∃ free', (if v then setbit free b else clrbit free b) = Ok free' ∧
    cmap free' (<[Z.to_nat b := v]> cl) ∧ length free' = length free.
Proof.
  intros [Hw Hm]%cmap_bits Hb Hx. destruct (Hm b x Hb Hx) as [Hi _].
  assert (∃ free', (if v then setbit free b else clrbit free b) = Ok free' ∧
    length free' = length free ∧ bytes_wf free' ∧
    ∀ j, 0 ≤ j → bit free' j = if j =? b then v else bit free j) as (free' & E & Hl & Hw' & Hj).
  { destruct v; [destruct (setbit_spec free b Hi Hw) as (r & ? & ? & ? & H)
                |destruct (clrbit_spec free b Hi Hw) as (r & ? & ? & ? & H)];
      exists r; (do 3 (split; [done|])); intros j Hj; rewrite H by done; by destruct (_ =? _). }
  exists free'. split; [done|]. split; [|done]. apply cmap_bits. split; [done|].
  intros j y Hj0 Hy. unfold has_bit. rewrite Hl, Hj by done. destruct (Z.eqb_spec j b) as [->|Hne].
  - rewrite list_lookup_insert_eq in Hy by (by eapply lookup_lt_Some). by injection Hy as <-.
  - rewrite list_lookup_insert_ne in Hy by lia. by apply Hm.
Qed.

(** ** The scans *)

Lemma lead_take n l : lead (take n l) = (n `min` lead l)%nat.
Proof.
  revert n. induction l as [|[] l IH]; intros [|n]; simpl; [done..|by rewrite IH|done|done].
Qed.

Lemma shl1_bit i : 0 ≤ i → shl1 (Z.rem i NBBY) = Some (2 ^ (i mod 8)).
Proof.
  intros Hi. unfold shl1, NBBY. rewrite Z.rem_mod_nonneg by lia.
  assert (0 ≤ i mod 8 < 8) by (apply Z.mod_pos_bound; lia).
  rewrite (proj2 (andb_true_iff _ _)) by lia. by rewrite Z.shiftl_1_l.
Qed.

Lemma land_7 i : i .& (NBBY - 1) = i mod 8.
Proof. change (NBBY - 1) with (Z.ones 3). by rewrite Z.land_ones by lia. Qed.

Section scans.
Context (c : cg) (free : list Z) (cl : list bool) (Hm : cmap free cl).

Lemma test_bit_byte m i : 0 ≤ i → test_bit m (Some (2 ^ (i mod 8))) = Ok (Z.testbit m (i mod 8)).
Proof using.
  intros Hi. simpl. rewrite <-Z.shiftl_1_l, testbit_pow2; [done|].
  pose proof (Z.mod_pos_bound i 8). lia.
Qed.

Lemma cluster_byte_in i x : 0 ≤ i → cl !! Z.to_nat i = Some x →
  ∃ m, cluster_byte c free (i / 8) = Ok m ∧ Z.testbit m (i mod 8) = x.
Proof using Hm.
  intros Hi Hx. destruct Hm as [_ H]. destruct (H i x Hi Hx) as (m & Hc & ->).
  exists m. split; [|done]. pose proof (lookup_lt_Some _ _ _ Hc).
  assert (0 ≤ i / 8) by (apply Z.div_pos; lia). unfold cluster_byte.
  rewrite (proj2 (Z.eqb_neq _ _)), (proj2 (Z.eqb_neq _ _)) by lia. by apply get_Ok.
Qed.
Lemma cluster_byte_near i : 0 ≤ i ≤ Z.of_nat (length cl) → ∃ m, cluster_byte c free (i / 8) = Ok m.
Proof using Hm.
  intros Hi. destruct (decide (i < Z.of_nat (length cl))) as [Hlt|].
  - destruct (lookup_lt_is_Some_2 cl (Z.to_nat i)) as [x Hx]; [lia|].
    destruct (cluster_byte_in i x) as (m & ? & _); [lia|done|]. by exists m.
  - assert (i / 8 ≤ Z.of_nat (length free)).
    { destruct (decide (i = 0)) as [->|]; [rewrite Z.div_0_l; lia|].
      destruct (lookup_lt_is_Some_2 cl (Z.to_nat (i - 1))) as [x Hx]; [lia|].
      destruct Hm as [_ H]. destruct (H (i - 1) x) as (m & Hc & _); [lia|done|].
      apply lookup_lt_Some in Hc. Z.div_mod_to_equations. lia. }
    assert (0 ≤ i / 8) by (apply Z.div_pos; lia). unfold cluster_byte.
    rewrite (proj2 (Z.eqb_neq _ _)) by lia. case_bool; [by eexists|]. zb.
    destruct (get_total free (i / 8)) as (m & Hg & _); [lia|]. by exists m.
Qed.

(** The bits from [i] on are [seg]. *)
Lemma cluster_forw_lead (seg : list bool) : ∀ fuel i end_ m,
  0 ≤ i → end_ = i + Z.of_nat (length seg) → end_ ≤ Z.of_nat (length cl) →
  (∀ k x, seg !! k = Some x → cl !! (Z.to_nat i + k)%nat = Some x) →
  (seg ≠ [] → cluster_byte c free (i / 8) = Ok m) → (length seg < fuel)%nat →
  cluster_forw fuel c free i end_ m (Some (2 ^ (i mod 8))) (i / 8 + 1) =
    Ok (i + Z.of_nat (lead seg)).
Proof using Hm.
  induction seg as [|x seg IH]; intros fuel i end_ m Hi He Hn Hs Hb Hf;
    (destruct fuel as [|fuel]; [simpl in Hf; lia|]); cbn [cluster_forw length] in *.
  - rewrite (proj2 (Z.ltb_ge _ _)) by lia. simpl. by rewrite Z.add_0_r.
  - rewrite (proj2 (Z.ltb_lt _ _)), test_bit_byte, Ok_bind by lia.
    pose proof (Hs 0%nat x eq_refl) as Hx. rewrite Nat.add_0_r in Hx.
    destruct (cluster_byte_in i x Hi Hx) as (m' & Hm' & Ht).
    rewrite Hb in Hm' by done. injection Hm' as <-. rewrite Ht.
    destruct x; simpl; [|by rewrite Z.add_0_r].
    rewrite land_7. assert (Hstep : ∀ k y, seg !! k = Some y → cl !! (Z.to_nat (i + 1) + k)%nat = Some y).
    { intros k y Hk. rewrite <-(Hs (S k) y Hk). f_equal. lia. }
    destruct (Z.eqb_spec (i mod 8) (NBBY - 1)) as [E|E]; unfold NBBY in E; simpl.
    + assert (E1 : i / 8 + 1 = (i + 1) / 8) by (Z.div_mod_to_equations; lia).
      assert (E2 : (i + 1) mod 8 = 0) by (Z.div_mod_to_equations; lia). rewrite E1.
      destruct (cluster_byte_near (i + 1)) as [m2 Hm2]; [lia|]. rewrite Hm2, Ok_bind.
      replace (Some 1) with (Some (2 ^ ((i + 1) mod 8))) by (by rewrite E2).
      rewrite (IH fuel (i + 1) end_ m2) by (done || lia). f_equal. lia.
    + assert (E1 : i / 8 = (i + 1) / 8) by (Z.div_mod_to_equations; lia).
      assert (E2 : (i + 1) mod 8 = i mod 8 + 1) by (Z.div_mod_to_equations; lia).
      rewrite Z.shiftl_mul_pow2, <-Z.pow_add_r by (try apply Z.mod_pos_bound; lia).
      rewrite <-E2, E1. rewrite (IH fuel (i + 1) end_ m) by (done || lia || (intros _; rewrite <-E1; by apply Hb)).
      f_equal. lia.
Qed.

(** The bits from [i] down are [seg]. *)
Lemma cluster_back_lead (seg : list bool) : ∀ fuel i end_ m,
  end_ = i - Z.of_nat (length seg) → -1 ≤ end_ → i < Z.of_nat (length cl) →
  (∀ k x, seg !! k = Some x → cl !! Z.to_nat (i - Z.of_nat k) = Some x) →
  (seg ≠ [] → cluster_byte c free (i / 8) = Ok m) → (length seg < fuel)%nat →
  cluster_back fuel c free i end_ m (Some (2 ^ (i mod 8))) (i / 8 - 1) =
    Ok (i - Z.of_nat (lead seg)).
Proof using Hm.
  induction seg as [|x seg IH]; intros fuel i end_ m He Hn Hi Hs Hb Hf;
    (destruct fuel as [|fuel]; [simpl in Hf; lia|]); cbn [cluster_back length] in *.
  - rewrite Z.gtb_ltb, (proj2 (Z.ltb_ge _ _)) by lia. simpl. by rewrite Z.sub_0_r.
  - rewrite Z.gtb_ltb, (proj2 (Z.ltb_lt _ _)), test_bit_byte, Ok_bind by lia.
    pose proof (Hs 0%nat x eq_refl) as Hx. rewrite Z.sub_0_r in Hx.
    destruct (cluster_byte_in i x ltac:(lia) Hx) as (m' & Hm' & Ht).
    rewrite Hb in Hm' by done. injection Hm' as <-. rewrite Ht.
    destruct x; simpl; [|by rewrite Z.sub_0_r].
    rewrite land_7. assert (Hstep : ∀ k y, seg !! k = Some y → cl !! Z.to_nat (i - 1 - Z.of_nat k) = Some y).
    { intros k y Hk. rewrite <-(Hs (S k) y Hk). do 2 f_equal. lia. }
    destruct (Z.eqb_spec (i mod 8) 0) as [E|E]; simpl.
    + assert (E1 : i / 8 - 1 = (i - 1) / 8) by (Z.div_mod_to_equations; lia).
      assert (E2 : (i - 1) mod 8 = 7) by (Z.div_mod_to_equations; lia). rewrite E1.
      assert (∃ m2, cluster_byte c free ((i - 1) / 8) = Ok m2) as [m2 Hm2].
      { destruct (decide (i = 0)) as [->|]; [by eexists|]. apply cluster_byte_near. lia. }
      rewrite Hm2, Ok_bind.
      replace (shl1 (NBBY - 1)) with (Some (2 ^ ((i - 1) mod 8))) by (by rewrite E2).
      rewrite (IH fuel (i - 1) end_ m2) by (done || lia). f_equal. lia.
    + assert (E1 : i / 8 = (i - 1) / 8) by (Z.div_mod_to_equations; lia).
      assert (E2 : (i - 1) mod 8 = i mod 8 - 1) by (Z.div_mod_to_equations; lia).
      rewrite Z.shiftr_div_pow2 by lia.
      rewrite <-Z.pow_sub_r by (pose proof (Z.mod_pos_bound i 8); lia).
      rewrite <-E2, E1. rewrite (IH fuel (i - 1) end_ m) by (done || lia || (intros _; rewrite <-E1; by apply Hb)).
      f_equal. lia.
Qed.

End scans.

(** ** ffs_clusteracct *)

(** The free blocks next to block [b], and the runs of [k] blocks, those of [K] or
    more together. *)
Definition behind (b : nat) (cl : list bool) : nat := lead (drop (S b) cl).
Definition front (b : nat) (cl : list bool) : nat := lead (reverse (take b cl)).
Definition clusters (K : Z) (cl : list bool) (k : Z) : Z :=
  nruns (λ r, Z.of_nat r `min` K =? k) cl.

Section clusteracct.
Context `{BswapLaws}.
Context (f : fs) (c : cg).
Local Notation K := (fs_contigsumsize f).
Local Notation ns := (fs_swap f).

Section counts_of_neighbours.
Context (free : list Z) (cl : list bool) (b : nat) (x : bool).
Context (Hm : cmap free cl) (Hb : cl !! b = Some x) (HK : 0 < K)
  (Hn : cg_nclusterblks c = stored ns (Z.of_nat (length cl)))
  (Hsmall : Z.of_nat (length cl) + K < 2 ^ 31).

Lemma count_forw_ok :
  count_forw f c free (Z.of_nat b) = Ok (Z.of_nat (behind b cl) `min` K).
Proof using All.
  pose proof (lookup_lt_Some _ _ _ Hb) as Hlt.
  unfold count_forw. rewrite Hn, stored_inv, u32_small by (unfold is_u32; lia).
  set (start := Z.of_nat b + 1). rewrite u32_small by (unfold is_u32, start; lia).
  set (end_ := if _ >=? _ then _ else _).
  assert (Hend : end_ = start + Z.of_nat (length (take (Z.to_nat K) (drop (S b) cl)))).
  { unfold end_. rewrite length_take, length_drop, Z.geb_leb. unfold start.
    destruct (Z.leb_spec (Z.of_nat (length cl)) (Z.of_nat b + 1 + K)); lia. }
  rewrite !Z.quot_div_nonneg by (unfold start, NBBY; lia). change NBBY with 8.
  destruct (cluster_byte_near c free cl Hm start) as [m Hmb]; [unfold start; lia|].
  rewrite Hmb, Ok_bind, shl1_bit by (unfold start; lia).

  rewrite (cluster_forw_lead c free cl Hm (take (Z.to_nat K) (drop (S b) cl))).
  - rewrite Ok_bind, lead_take. f_equal. unfold behind. lia.
  - unfold start; lia.
  - done.
  - rewrite Hend, length_take, length_drop. unfold start. lia.
  - intros k y Hk. apply lookup_take_Some in Hk as [Hk _]. rewrite lookup_drop in Hk.
    rewrite <-Hk. f_equal. unfold start. lia.
  - done.
  - rewrite Hend. lia.
Qed.

Lemma count_back_ok :
  count_back f c free (Z.of_nat b) = Ok (Z.of_nat (front b cl) `min` K).
Proof using All.
  pose proof (lookup_lt_Some _ _ _ Hb) as Hlt.
  unfold count_back. set (start := Z.of_nat b - 1).
  set (end_ := if _ <? 0 then _ else _).
  assert (Hend : end_ = start - Z.of_nat (length (take (Z.to_nat K) (reverse (take b cl))))).
  { unfold end_. rewrite length_take, length_reverse, length_take. unfold start.
    destruct (Z.ltb_spec (Z.of_nat b - 1 - K) 0); lia. }
  assert (Hl : Z.of_nat (lead (take (Z.to_nat K) (reverse (take b cl)))) =
    Z.of_nat (front b cl) `min` K) by (rewrite lead_take; unfold front; lia).
  destruct (decide (b = 0%nat)) as [->|Hb0].
  - replace (Z.quot start NBBY) with (0 / 8) by done.
    destruct (cluster_byte_near c free cl Hm 0) as [m ->]; [lia|]. rewrite Ok_bind.
    rewrite take_0, reverse_nil, take_nil in Hend, Hl. simpl in Hend, Hl. cbn [cluster_back]. rewrite Z.gtb_ltb, (proj2 (Z.ltb_ge _ _)) by lia.
    rewrite Ok_bind. f_equal. change (front 0 cl) with 0%nat. lia.
  - rewrite !Z.quot_div_nonneg by (unfold start, NBBY; lia). change NBBY with 8.
    destruct (cluster_byte_near c free cl Hm start) as [m Hmb]; [unfold start; lia|].
    rewrite Hmb, Ok_bind, shl1_bit by (unfold start; lia).
    rewrite (cluster_back_lead c free cl Hm (take (Z.to_nat K) (reverse (take b cl)))).
    + rewrite Ok_bind, Hl. f_equal. lia.
    + done.
    + rewrite Hend, length_take, length_reverse, length_take. unfold start. lia.
    + unfold start. lia.
    + intros k y Hk. apply lookup_take_Some in Hk as [Hk _].
      pose proof (lookup_lt_Some _ _ _ Hk) as Hkl. rewrite length_reverse, length_take in Hkl.
      apply reverse_lookup_Some in Hk as [Hk _]. apply lookup_take_Some in Hk as [Hk _].
      rewrite length_take in Hk. rewrite <-Hk. f_equal. unfold start. lia.
    + done.
    + rewrite Hend. lia.
Qed.
End counts_of_neighbours.

(** What a change of block [b] does to the number of runs. *)
Lemma clusters_set cl b x v k : 0 < K → cl !! b = Some x → 1 ≤ k ≤ K →
  let fo := Z.of_nat (behind b cl) `min` K in let ba := Z.of_nat (front b cl) `min` K in
  clusters K (<[b := true]> cl) k = clusters K (<[b := false]> cl) k +
    Z.b2z (k =? (ba + fo + 1) `min` K) - (if 0 <? ba then Z.b2z (k =? ba) else 0)
      - (if 0 <? fo then Z.b2z (k =? fo) else 0) ∧
  clusters K (<[b := v]> cl) k = (if v : bool then clusters K (<[b := true]> cl) k
    else clusters K (<[b := false]> cl) k).
Proof.
  intros HK Hb Hk fo ba. split; [|by destruct v].
  pose proof (lookup_lt_Some _ _ _ Hb) as Hlt.
  assert (∀ v, <[b:=v]> cl = take b cl ++ v :: drop (S b) cl) as E.
  { intros v'. by apply insert_take_drop. }
  unfold clusters. rewrite !E, nruns_set. fold (front b cl). fold (behind b cl).
  rewrite !(Z.eqb_sym k). unfold ba, fo.
  assert (∀ n : nat, (if bool_decide (n = 0%nat) then 0 else Z.b2z (Z.of_nat n `min` K =? k)) =
    (if 0 <? Z.of_nat n `min` K then Z.b2z (Z.of_nat n `min` K =? k) else 0)) as Ez.
  { intros n. case_bool_decide; [subst; by rewrite (proj2 (Z.ltb_ge _ _)) by lia|]. by rewrite (proj2 (Z.ltb_lt _ _)) by lia. }
  rewrite !Ez. do 3 f_equal. f_equal. lia.
Qed.

Lemma max_cluster_ok cl l (i : nat) : Z.of_nat i ≤ K →
  (∀ k, 0 ≤ clusters K cl k < 2 ^ 32) → counts ns 1 (K + 1) (clusters K cl) l →
  ∃ m, max_cluster i l ns = Ok m ∧ 0 ≤ m ≤ Z.of_nat i ∧
    (∀ k, m < k ≤ Z.of_nat i → clusters K cl k = 0) ∧ (0 < m → 0 < clusters K cl m).
Proof.
  intros Hi Hb Hc. induction i as [|i IH].
  - exists 0. split; [done|]. split; [lia|]. split; lia.
  - unfold max_cluster; fold max_cluster. rewrite (counts_get ns 1 (K + 1) (clusters K cl)) by (done || lia).
    rewrite Ok_bind, stored_inv, u32_small by apply Hb. rewrite Z.gtb_ltb.
    destruct (Z.ltb_spec 0 (clusters K cl (Z.of_nat (S i)))).
    + exists (Z.of_nat (S i)). split; [done|]. split; [lia|]. split; lia.
    + destruct IH as (m & -> & Hm & Hz & Hp); [lia|]. exists m. split; [done|].
      split; [lia|]. split; [|done]. intros k Hk.
      destruct (decide (k = Z.of_nat (S i))) as [->|]; [|apply Hz; lia].
      specialize (Hb (Z.of_nat (S i))). lia.
Qed.

Lemma runs_from_length l : ∀ k, (length (runs_from k l) ≤ length l + 1)%nat.
Proof.
  induction l as [|[] l IH]; intros k; simpl.
  - by case_bool_decide; simpl; lia.
  - specialize (IH (S k)). lia.
  - specialize (IH 0%nat). case_bool_decide; simpl; lia.
Qed.
Lemma clusters_bounds cl k : 0 ≤ clusters K cl k ≤ Z.of_nat (length cl) + 1.
Proof.
  unfold clusters, nruns, runs. pose proof (runs_from_length cl 0).
  match goal with |- context [filter ?P ?l] => pose proof (length_filter P l) end. lia.
Qed.

Context (cl : list bool) (b : nat) (v : bool) (cgx : Z).

(** The account keeps the counts, and notes the longest cluster. *)
Lemma clusteracct_ok :
  0 < K → cmap (cg_clustersfree c) cl → cl !! b = Some (negb v) →
  cg_nclusterblks c = stored ns (Z.of_nat (length cl)) → Z.of_nat (length cl) + K < 2 ^ 31 →
  counts ns 1 (K + 1) (clusters K cl) (cg_clustersum c) →
  cg_cgx c = stored ns cgx → is_u32 cgx → cgx < Z.of_nat (length (fs_maxcluster f)) →
  let cl' := <[b := v]> cl in
  ∃ free' sum' m,
    ffs_clusteracct f c (Z.of_nat b) (if v then 1 else -1) =
      Ok (with_maxcluster f (<[Z.to_nat cgx := m]> (fs_maxcluster f)), with_clusters c sum' free') ∧
    cmap free' cl' ∧ counts ns 1 (K + 1) (clusters K cl') sum' ∧
    0 ≤ m ≤ K ∧ (∀ k, m < k ≤ K → clusters K cl' k = 0) ∧ (0 < m → 0 < clusters K cl' m).
Proof.
  intros HK Hm Hb Hn Hs Hc Hx Hcg Hmc cl'. pose proof (lookup_lt_Some _ _ _ Hb) as Hlt.
  destruct (cmap_set (cg_clustersfree c) cl (Z.of_nat b) (negb v) v) as (free' & Ef & Hm' & _);
    [done|lia|by rewrite Nat2Z.id|]. rewrite Nat2Z.id in Hm'. fold cl' in Hm'.
  assert (Hb' : cl' !! b = Some v) by (by apply list_lookup_insert_eq).
  assert (Hl : length cl' = length cl) by apply length_insert.
  unfold ffs_clusteracct. rewrite (proj2 (Z.leb_gt _ _)) by done.
  replace ((if v then 1 else -1) >? 0) with v by (by destruct v). rewrite Ef, Ok_bind.
  rewrite (count_forw_ok free' cl' b v), Ok_bind by (done || congruence).
  rewrite (count_back_ok free' cl' b v), Ok_bind by (done || congruence).
  set (fo := Z.of_nat (behind b cl') `min` K). set (ba := Z.of_nat (front b cl') `min` K).
  replace (if ba + fo + 1 >? K then K else ba + fo + 1) with ((ba + fo + 1) `min` K)
    by (rewrite Z.gtb_ltb; destruct (Z.ltb_spec K (ba + fo + 1)); lia).
  set (i := (ba + fo + 1) `min` K). set (cnt := if v then 1 else -1).
  destruct (counts_add ns 1 (K + 1) (clusters K cl) (cg_clustersum c) i cnt) as (s1 & -> & H1 & _);
    [lia|done|lia|]. rewrite Ok_bind. set (g1 := bump i cnt _) in H1.
  assert (∃ s2, (if ba >? 0 then add_at s1 ba (- cnt) ns else Ok s1) = Ok s2 ∧
    counts ns 1 (K + 1) (if 0 <? ba then bump ba (- cnt) g1 else g1) s2) as (s2 & -> & H2).
  { rewrite Z.gtb_ltb. destruct (Z.ltb_spec 0 ba); [|by exists s1].
    destruct (counts_add ns 1 (K + 1) g1 s1 ba (- cnt)) as (s2 & -> & ? & _); [lia|done|lia|].
    by exists s2. }
  rewrite Ok_bind. set (g2 := if 0 <? ba then _ else g1) in H2.
  assert (∃ s3, (if fo >? 0 then add_at s2 fo (- cnt) ns else Ok s2) = Ok s3 ∧
    counts ns 1 (K + 1) (if 0 <? fo then bump fo (- cnt) g2 else g2) s3) as (s3 & -> & H3).
  { rewrite Z.gtb_ltb. destruct (Z.ltb_spec 0 fo); [|by exists s2].
    destruct (counts_add ns 1 (K + 1) g2 s2 fo (- cnt)) as (s3 & -> & ? & _); [lia|done|lia|].
    by exists s3. }
  rewrite Ok_bind.
  assert (Hc3 : counts ns 1 (K + 1) (clusters K cl') s3).
  { eapply counts_ext; [|exact H3]. intros k Hk. simpl.
    destruct (clusters_set cl' b v v k) as [Es Ev]; [lia|done|lia|].
    assert (Ecl : clusters K cl k = if v then clusters K (<[b:=false]> cl') k
      else clusters K (<[b:=true]> cl') k).
    { rewrite <-(list_insert_id cl b (negb v)) by done. unfold cl'.
      rewrite !list_insert_insert_eq. by destruct v. }
    rewrite (list_insert_id cl' b v) in Ev by done. rewrite Ev. fold fo ba in Es. fold i in Es.
    rewrite Es. unfold g2, g1, bump, cnt.
    destruct (0 <? ba), (0 <? fo), v; cbn beta iota; rewrite Ecl, ?Es; clear;
      destruct (k =? i), (k =? ba), (k =? fo); cbn [Z.b2z]; lia. }
  destruct (max_cluster_ok cl' s3 (Z.to_nat K)) as (m & -> & Hm1 & Hm2 & Hm3); [lia| |done|].
  { intros k. pose proof (clusters_bounds cl' k). lia. }
  rewrite Ok_bind. exists free', s3, m. rewrite Hx, stored_inv, u32_small by done.
  rewrite put_total by (unfold is_u32 in Hcg; lia). rewrite Ok_bind.
  rewrite Z2Nat.id in Hm1, Hm2 by lia. done.
Qed.
End clusteracct.
