(* ===== verification/FfsSearch.v ===== *)
(** * The search of the map (for ffs_mapsearch of ufs/ffs/ffs_alloc.c)

    [ffs_mapsearch] finds a free run of the given number of fragments, where the
    group has one: the table selects a byte that holds such a run, the patterns a
    block of the byte and the place in the block. *)

From S2P Require Import Prelude FfsMap FfsMapSpec FfsAlloc FfsFragSpec.

(** A maximal run of [k] free fragments at fragment [p]. *)
Definition run_at (v p k : Z) : bool :=
  negb (Z.testbit v (p - 1)) && has v p k && negb (Z.testbit v (p + k)).

(** What the tables promise, for a byte and for a block. *)
Definition table_facts (F c k : Z) : bool :=
  match fragtbl F with
  | Ok tbl =>
      match tbl !! Z.to_nat c with
      | Some t =>
          Bool.eqb (t .& Z.shiftl 1 (k - 1 + (F .& (NBBY - 1))) =? 0)
            (forallb (λ b, frag_runs F k (sub F c b) =? 0) (below (8 / F)))
      | None => false
      end
  | Fault _ => false
  end.
Definition sift_facts (F v k : Z) : bool :=
  match around !! Z.to_nat k, inside !! Z.to_nat k with
  | Some field, Some subfield =>
      match sift_pos 10 (Z.shiftl v 1) field subfield 0 (F - k) with
      | Some p => (0 <=? p) && (p <=? F - k) && run_at v p k && negb (frag_runs F k v =? 0)
      | None => frag_runs F k v =? 0
      end
  | _, _ => false
  end.

Section facts.
Context (F s : Z) (HF : frag_ok F s).

Lemma table_facts_ok c k : 0 ≤ c < 256 → 1 ≤ k ≤ F → table_facts F c k = true.
Proof using HF.
  intros Hc Hk. replace k with (k - 1 + 1) by lia. generalize (below_all
    (λ k, forallb (λ c, table_facts F c (k + 1)) (below 256)) F). intros Hall.
  apply (below_all (λ c, table_facts F c (k - 1 + 1)) 256); [|done].
  apply Hall; [|lia]. clear -HF. by_frag HF; vm_compute; reflexivity.
Qed.
Lemma sift_facts_ok v k : 0 ≤ v < 2 ^ F → 1 ≤ k ≤ F → sift_facts F v k = true.
Proof using HF.
  intros Hv Hk. replace k with (k - 1 + 1) by lia. generalize (below_all
    (λ k, forallb (λ v, sift_facts F v (k + 1)) (below (2 ^ F))) F). intros Hall.
  apply (below_all (λ v, sift_facts F v (k - 1 + 1)) (2 ^ F)); [|done].
  apply Hall; [|lia]. clear -HF. by_frag HF; vm_compute; reflexivity.
Qed.
Lemma fragtbl_length : ∃ tbl, fragtbl F = Ok tbl ∧ length tbl = 256%nat.
Proof using HF. by_frag HF; by eexists. Qed.
Lemma block_of_byte b : 0 ≤ b → b = b / (8 / F) * (8 / F) + b mod (8 / F).
Proof using HF. intros. destruct (per_byte F _ HF). rewrite Z.mul_comm. apply Z.div_mod. lia. Qed.
End facts.

(** ** scanc *)

(** The bytes that the table marks. *)
Definition marked (table : list Z) (mask c : Z) : bool :=
  match table !! Z.to_nat c with Some t => negb (t .& mask =? 0) | None => false end.

Lemma scanc_ok table mask map (size : nat) : ∀ i,
  Forall is_u8 map → length table = 256%nat → 0 ≤ i → i + Z.of_nat size ≤ Z.of_nat (length map) →
  ∃ r, scanc size map i table mask = Ok r ∧ 0 ≤ r ≤ Z.of_nat size ∧
    if r =? 0 then ∀ j c, i ≤ j < i + Z.of_nat size → map !! Z.to_nat j = Some c →
      marked table mask c = false
    else ∃ c, map !! Z.to_nat (i + Z.of_nat size - r) = Some c ∧ marked table mask c = true.
Proof.
  induction size as [|size IH]; intros i Hu Ht Hi Hs.
  - exists 0. split; [done|]. split; [done|]. simpl. lia.
  - cbn [scanc]. destruct (get_total map i) as (c & -> & Hc); [lia|]. rewrite Ok_bind.
    assert (is_u8 c) as Hcu by (by eapply Forall_lookup_1). unfold is_u8 in Hcu.
    destruct (get_total table c) as (t & -> & Htc); [lia|]. rewrite Ok_bind.
    destruct (Z.eqb_spec (t .& mask) 0) as [E|E].
    + destruct (IH (i + 1) Hu Ht) as (r & -> & Hr & H); [lia..|]. exists r. split; [done|].
      split; [lia|]. destruct (r =? 0).
      * intros j c' Hj Hc'. destruct (decide (j = i)) as [->|]; [|apply (H j); [lia|done]].
        rewrite Hc in Hc'. injection Hc' as <-. unfold marked. rewrite Htc.
        by apply negb_false_iff, Z.eqb_eq.
      * destruct H as (c' & Hc' & Hm). exists c'. split; [|done]. rewrite <-Hc'. f_equal. lia.
    + exists (Z.of_nat (S size)). split; [done|]. split; [lia|].
      rewrite (proj2 (Z.eqb_neq _ _)) by lia. exists c. rewrite Z.add_simpl_r. split; [done|].
      unfold marked. rewrite Htc. by apply negb_true_iff, Z.eqb_neq.
Qed.

(** ** ffs_mapsearch *)

Section mapsearch.
Context `{BswapLaws}.
Context (f : fs) (HF : frag_ok (fs_frag f) (fs_fragshift f)).
Local Notation F := (fs_frag f).
Context (map l : list Z) (Hr : repr F map l).
Context (Hlen : Z.of_nat (length map) = howmany (fs_fpg f) NBBY)
  (Hsmall : Z.of_nat (length map) < 2 ^ 28).
Context (k : Z) (Hk : 1 ≤ k ≤ F).

(** There is such a run. *)
Definition available : Prop := ∃ (b : nat) v, l !! b = Some v ∧ frag_runs F k v ≠ 0.

(** A byte is marked when one of its blocks has a run. *)
Lemma marked_byte tbl j c : fragtbl F = Ok tbl → 0 ≤ j → map !! Z.to_nat j = Some c →
  let m := marked tbl (Z.shiftl 1 (k - 1 + (F .& (NBBY - 1)))) c in
  (m = true → ∃ t v, 0 ≤ t < 8 / F ∧ l !! Z.to_nat (j * (8 / F) + t) = Some v ∧
    frag_runs F k v ≠ 0) ∧
  (∀ t v, 0 ≤ t < 8 / F → l !! Z.to_nat (j * (8 / F) + t) = Some v → frag_runs F k v ≠ 0 →
    m = true).
Proof using HF Hr Hk.
  intros Ht Hj Hc m. pose proof Hr as [Hu Hl].
  assert (is_u8 c) as Hcu by (by eapply Forall_lookup_1).
  pose proof (table_facts_ok F _ HF c k Hcu Hk) as Hf. unfold table_facts in Hf. rewrite Ht in Hf.
  unfold m, marked. destruct (tbl !! Z.to_nat c) as [t0|]; [|done].
  apply eqb_prop in Hf. rewrite Hf. destruct (per_byte F _ HF) as (HD & _ & _).
  assert (Hblk : ∀ t, 0 ≤ t < 8 / F → l !! Z.to_nat (j * (8 / F) + t) = Some (sub F c t)).
  { intros t Hb. rewrite Hl by nia. unfold blk.
    replace ((j * (8 / F) + t) / (8 / F)) with j by
      (rewrite Z.div_add_l, Z.div_small; lia). rewrite Hc. simpl.
    replace ((j * (8 / F) + t) mod (8 / F)) with t; [done|].
    rewrite Z.add_comm, Z.mod_add, Z.mod_small; lia. }
  split.
  - intros E%negb_true_iff. apply below_some in E as (t & Hin & Hne).
    exists t, (sub F c t). split; [lia|]. split; [apply Hblk; lia|]. by apply Z.eqb_neq.
  - intros t v Hb Hv Hne. rewrite Hblk in Hv by done. injection Hv as <-. apply negb_true_iff.
    destruct (forallb _ _) eqn:E; [|done]. exfalso. apply Hne, Z.eqb_eq.
    exact (below_all _ _ E t Hb).
Qed.

(** The scans find a byte with a run. *)
Lemma scan_map_ok start : 0 ≤ start < Z.of_nat (length map) → available →
  ∃ j t v, scan_map f map start k = Ok (j * NBBY) ∧ 0 ≤ j < Z.of_nat (length map) ∧
    0 ≤ t < 8 / F ∧ l !! Z.to_nat (j * (8 / F) + t) = Some v ∧ frag_runs F k v ≠ 0.
Proof using Hlen Hsmall HF Hr Hk.
  intros Hs (b0 & v0 & Hv0 & Hne0). unfold scan_map. rewrite <-Hlen.
  destruct (fragtbl_length F _ HF) as (tbl & Ht & Htl). rewrite Ht, Ok_bind.
  set (mask := Z.shiftl 1 _). pose proof Hr as [Hu Hl]. destruct (per_byte F _ HF) as (HD & _).
  assert (Hfound : ∀ j c, 0 ≤ j < Z.of_nat (length map) → map !! Z.to_nat j = Some c →
    marked tbl mask c = true → ∃ t v, 0 ≤ t < 8 / F ∧
    l !! Z.to_nat (j * (8 / F) + t) = Some v ∧ frag_runs F k v ≠ 0).
  { intros j c Hj Hc Hm. destruct (marked_byte tbl j c) as [Hj' _]; [done|lia|done|].
    by apply Hj'. }
  assert (0 ≤ Z.of_nat (length map) - start) by lia.
  rewrite !u32_small by (unfold is_u32; lia).
  destruct (scanc_ok tbl mask map (Z.to_nat (Z.of_nat (length map) - start)) start) as (r & -> & Hr1 & Hsc1);
    [done..|lia|lia|]. rewrite Ok_bind. destruct (Z.eqb_spec r 0) as [->|Hr0].
  - destruct (scanc_ok tbl mask map (Z.to_nat (start + 1)) 0) as (r & -> & Hr2 & Hsc2); [done..|lia|].
    rewrite Ok_bind. destruct (Z.eqb_spec r 0) as [->|Hr0].
    + exfalso. set (b := Z.of_nat b0). assert (0 ≤ b / (8 / F)) by (apply Z.div_pos; lia).
      rewrite <-(Nat2Z.id b0) in Hv0. fold b in Hv0.
      destruct (repr_byte F _ HF map l b v0) as (c & _ & Hc & _ & _); [done|lia|done|].
      pose proof (lookup_lt_Some _ _ _ Hc).
      destruct (marked_byte tbl (b / (8 / F)) c) as [_ Hm]; [done|lia|done|].
      rewrite (block_of_byte F _ HF b) in Hv0 by lia.
      specialize (Hm (b mod (8 / F)) v0 ltac:(apply Z.mod_pos_bound; lia) Hv0 Hne0).
      fold mask in Hm. destruct (decide (b / (8 / F) < start)).
      * rewrite (Hsc2 (b / (8 / F)) c) in Hm; [done|lia|done].
      * rewrite (Hsc1 (b / (8 / F)) c) in Hm; [done|lia|done].
    + destruct Hsc2 as (c & Hc & Hm). rewrite Z2Nat.id in Hc, Hr2 by lia.
      destruct (Hfound (0 + (start + 1) - r) c) as (t & v & ? & ? & ?); [lia|done..|].
      by exists (0 + (start + 1) - r), t, v; split; [|split; [lia|]].
  - destruct Hsc1 as (c & Hc & Hm). rewrite Z2Nat.id in Hc, Hr1 by lia.
    destruct (Hfound (start + (Z.of_nat (length map) - start) - r) c) as (t & v & ? & ? & ?);
      [lia|done..|].
    by exists (start + (Z.of_nat (length map) - start) - r), t, v; split; [|split; [lia|]].
Qed.

(** The blocks of the byte are sifted in order. *)
Lemma sift_byte_ok (fuel : nat) j t : ∀ u, 0 ≤ j → 0 ≤ u ≤ t → t < 8 / F → t - u < Z.of_nat fuel →
  (∃ v, l !! Z.to_nat (j * (8 / F) + t) = Some v ∧ frag_runs F k v ≠ 0) →
  (∀ u', u ≤ u' ≤ t → ∃ v, l !! Z.to_nat (j * (8 / F) + u') = Some v) →
  ∃ b p v, sift_byte fuel f map ((j * (8 / F) + u) * F) (j * NBBY + NBBY) k =
      Ok (Some (b * F + p)) ∧ b / (8 / F) = j ∧ l !! Z.to_nat b = Some v ∧
    0 ≤ p ≤ F - k ∧ run_at v p k = true ∧ frag_runs F k v ≠ 0.
Proof using Hr HF Hk Hsmall Hlen.
  destruct (per_byte F _ HF) as (HD & HF0 & HFD).
  induction fuel as [|fuel IH]; intros u Hj Hu Ht Hf (v & Hv & Hne) Hin; [lia|].
  cbn [sift_byte]. unfold NBBY at 1. rewrite (proj2 (Z.ltb_lt _ _)) by (unfold NBBY; nia).
  destruct (Hin u) as [w Hw]; [lia|].
  rewrite (blkmap_blk F _ HF map l (j * (8 / F) + u) w), Ok_bind by (done || nia).
  pose proof (repr_bounds F _ HF map l _ w Hr Hw) as Hwb.
  pose proof (sift_facts_ok F _ HF w k Hwb Hk) as Hs. unfold sift_facts in Hs.
  destruct (around !! Z.to_nat k) as [field|] eqn:Ea; [|done].
  destruct (inside !! Z.to_nat k) as [subfield|] eqn:Ei; [|done].
  rewrite (proj2 (get_Ok around k field)), (proj2 (get_Ok inside k subfield)), !Ok_bind
    by (split; [lia|done]).
  destruct (sift_pos _ _ _ _ _ _) as [p|].
  - rewrite !andb_true_iff in Hs. destruct Hs as (((Hp1 & Hp2) & Hrun) & Hnz). zb.
    exists (j * (8 / F) + u), p, w. split; [done|]. split; [|done].
    rewrite Z.div_add_l, Z.div_small; lia.
  - apply Z.eqb_eq in Hs. destruct (decide (u = t)) as [->|].
    { rewrite Hw in Hv. by injection Hv as ->. }
    replace ((j * (8 / F) + u) * F + F) with ((j * (8 / F) + (u + 1)) * F) by lia.
    apply IH; [lia..|by exists v|]. intros u' Hu'. apply Hin. lia.
Qed.

(** A group with a run of [k] fragments: the search finds one. *)
Lemma mapsearch_ok c bpref : cg_blksfree c = map → 0 < fs_fpg f →
  0 ≤ bpref → (bpref = 0 → 0 ≤ ufs_rw32 (cg_frotor c) (fs_swap f) < NBBY * Z.of_nat (length map)) →
  available →
  ∃ b p v, ffs_mapsearch f c bpref k =
      Ok (with_rotors c (cg_rotor c) (stored (fs_swap f) (b / (8 / F) * NBBY)), b * F + p) ∧
    0 ≤ b ∧ b / (8 / F) < Z.of_nat (length map) ∧ l !! Z.to_nat b = Some v ∧
    0 ≤ p ≤ F - k ∧ run_at v p k = true ∧ frag_runs F k v ≠ 0.
Proof using Hlen Hsmall HF Hr Hk.
  intros Hmap Hfpg Hbp Hro Hav. unfold ffs_mapsearch. rewrite Hmap.
  match goal with |- context [scan_map _ _ ?x _] => set (start := x) end.
  assert (Hst : 0 ≤ start < Z.of_nat (length map)).
  { unfold start. destruct (Z.eqb_spec bpref 0) as [->|Hb0]; simpl.
    - specialize (Hro eq_refl). unfold NBBY in *. split; [apply Z.div_pos; lia|].
      apply Z.div_lt_upper_bound; lia.
    - unfold dtogd. rewrite Z.rem_mod_nonneg by lia.
      pose proof (Z.mod_pos_bound bpref (fs_fpg f) Hfpg).
      rewrite Z.quot_div_nonneg by (unfold NBBY; lia). rewrite Hlen. unfold howmany, NBBY.
      split; [apply Z.div_pos; lia|]. Z.div_mod_to_equations. lia. }
  destruct (scan_map_ok start Hst Hav) as (j & t & v & -> & Hj & Ht & Hv & Hne). rewrite Ok_bind.
  destruct (per_byte F _ HF) as (HD & HF0 & HFD).
  assert (8 / F ≤ 8) by nia.
  destruct (sift_byte_ok 10 j t 0) as (b & p & w & E & Hb & Hw & Hp & Hrun & Hnw);
    [lia..|by exists v| |].
  { intros u' Hu'. apply (repr_lookup F _ HF map l); [done|nia|nia]. }
  rewrite Z.add_0_r, <-Z.mul_assoc, (Z.mul_comm (8 / F)), HFD in E. change 8 with NBBY in E at 1.
  cbn [cg_blksfree with_rotors]. rewrite Hmap, E, Ok_bind. exists b, p, w. rewrite Hb.
  unfold stored. rewrite u32_small by (unfold is_u32, NBBY; lia).
  split; [done|]. split; [|split; [lia|done]]. apply Z.nlt_ge. intros Hneg.
  assert (b / (8 / F) < 0) by (apply Z.div_lt_upper_bound; lia). lia.
Qed.
End mapsearch.
