(* ===== verification/FfsAcct.v ===== *)
(** * The accounts of a cylinder group (for ufs/ffs/ffs_alloc.c)

    What the fields of the super block and of a group say about the group, as a
    relation to numbers, and how the steps of the allocator change the numbers:
    the operations of FfsSys.v are sequences of these steps. *)

From S2P Require Import Prelude FfsMap FfsMapSpec FfsAlloc FfsFragSpec FfsCluster FfsSearch.

(** ** Sums over the blocks of a group *)

Definition tally (g : Z → Z) (l : list Z) : Z := foldr (λ v n, g v + n) 0 l.

Lemma tally_insert g l (b : nat) v v' : l !! b = Some v →
  tally g (<[b := v']> l) = tally g l + g v' - g v.
Proof.
  revert b. induction l as [|x l IH]; intros [|b] Hb; simpl in *; [done..| |].
  - injection Hb as ->. lia.
  - rewrite (IH b Hb). lia.
Qed.
Lemma tally_bounds g m l : (∀ v, v ∈ l → 0 ≤ g v ≤ m) →
  0 ≤ tally g l ≤ m * Z.of_nat (length l).
Proof.
  induction l as [|x l IH]; intros H; simpl; [lia|].
  assert (0 ≤ g x ≤ m) by (apply H; by left).
  assert (0 ≤ tally g l ≤ m * Z.of_nat (length l)) by (apply IH; intros; apply H; by right).
  nia.
Qed.
Lemma tally_nonneg g l : (∀ v, v ∈ l → 0 ≤ g v) → 0 ≤ tally g l.
Proof.
  induction l as [|x l IH]; intros H; simpl; [lia|].
  assert (0 ≤ g x) by (apply H; by left). assert (0 ≤ tally g l); [|lia].
  apply IH. intros. apply H. by right.
Qed.
(** The terms of a sum of numbers that are not negative. *)
Lemma tally_term g l (b : nat) v : (∀ v, v ∈ l → 0 ≤ g v) → l !! b = Some v → g v ≤ tally g l.
Proof.
  revert b. induction l as [|x l IH]; intros b H Hb; [done|]. simpl.
  assert (0 ≤ g x) by (apply H; by left).
  assert (Hl : ∀ v, v ∈ l → 0 ≤ g v) by (intros; apply H; by right).
  pose proof (tally_nonneg g l Hl). destruct b as [|b]; simpl in Hb.
  - injection Hb as ->. lia.
  - specialize (IH b Hl Hb). lia.
Qed.
Lemma tally_pos g l : 0 < tally g l → ∃ (b : nat) v, l !! b = Some v ∧ 0 < g v.
Proof.
  induction l as [|x l IH]; simpl; [lia|]. intros Hp. destruct (Z.lt_ge_cases 0 (g x)).
  - by exists 0%nat, x.
  - destruct IH as (b & v & ? & ?); [lia|]. by exists (S b), v.
Qed.

(** ** What taking and giving fragments does to a block *)

Definition full_count (F v : Z) : Z := Z.b2z (is_full F v).

(** Fragments [p] to [p + n - 1] are taken, those at the front of a run of [k]. *)
Definition taken (v p n : Z) : Z := Z.ldiff v (piece p n).
Definition take_facts (F v p n : Z) : bool :=
  let v' := taken v p n in
  (negb (has v p n) ||
    ((0 <=? v') && (v' <? 2 ^ F) && negb (is_full F v') &&
     (frag_free F v' =? frag_free F v + F * full_count F v - n) &&
     existsb (λ k, negb (frag_runs F k v =? 0)) (seqZ n (F - n + 1)) &&
     (is_full F v || (n <=? frag_free F v)) &&
     (Z.testbit v (p - 1) || let e := run_to 10 v (p + n) F in
        (p + n <=? e) && (e <=? F) && run_at v p (e - p)))) &&
  forallb (λ k, negb (run_at v p k) || (F <? p + k) ||
    (has v p n && negb (is_full F v) && forallb (λ j, frag_runs F j v' =?
      frag_runs F j v - Z.b2z (j =? k) + (if n =? k then 0 else Z.b2z (j =? k - n))) (seqZ 1 (F - 1))))
    (seqZ n (F - n)).

(** Fragments [p] to [p + n - 1] are given back. *)
Definition given (v p n : Z) : Z := Z.lor v (piece p n).
Definition give_facts (F v p n : Z) : bool :=
  let v' := given v p n in
  negb (lacks v p n) ||
    ((0 <=? v') && (v' <? 2 ^ F) && negb (is_full F v) &&
     (frag_free F v' =? frag_free F v + n - F * full_count F v')).

(** The fragments of a whole block that are left. *)
Definition split_facts (F n : Z) : bool :=
  (given 0 n (F - n) =? taken (full F) 0 n) &&
  forallb (λ j, frag_runs F j (taken (full F) 0 n) =? Z.b2z (j =? F - n)) (seqZ 1 (F - 1)).
Definition block_facts (F v : Z) : bool :=
  (0 <=? frag_free F v) && (frag_free F v <=? F) &&
  forallb (λ j, (0 <=? frag_runs F j v) && (frag_runs F j v <=? F)) (seqZ 1 F) &&
  Bool.eqb (frag_runs F F v =? 0) (negb (is_full F v)).

(** A piece that is a whole block. *)
Definition whole_facts (F v : Z) : bool :=
  Bool.eqb (lacks v 0 F) (v =? 0) && Bool.eqb (has v 0 F) (is_full F v) &&
  (given 0 0 F =? full F) && (taken (full F) 0 F =? 0).

Section facts.
Context (F s : Z) (HF : frag_ok F s).

Lemma whole_facts_ok v : 0 ≤ v < 2 ^ F → whole_facts F v = true.
Proof using HF. revert v. apply below_all. by_frag HF; vm_compute; reflexivity. Qed.
Lemma take_facts_ok v p n : 0 ≤ v < 2 ^ F → 0 ≤ p → 1 ≤ n → p + n ≤ F → take_facts F v p n = true.
Proof using HF.
  intros Hv Hp Hn Hpn. revert v Hv. apply below_all.
  replace n with (n - 1 + 1) by lia. set (n' := n - 1). assert (Hn' : 0 ≤ n' < F - p) by lia.
  clearbody n'. revert n' Hn'.
  apply (below_all (λ n, forallb (λ v, take_facts F v p (n + 1)) (below (2 ^ F)))).
  assert (Hp' : 0 ≤ p < F) by lia. clear -HF Hp'. revert p Hp'. apply (below_all (λ p,
    forallb (λ n, forallb (λ v, take_facts F v p (n + 1)) (below (2 ^ F))) (below (F - p)))).
  by_frag HF; vm_compute; reflexivity.
Qed.
Lemma give_facts_ok v p n : 0 ≤ v < 2 ^ F → 0 ≤ p → 1 ≤ n → p + n ≤ F → give_facts F v p n = true.
Proof using HF.
  intros Hv Hp Hn Hpn. revert v Hv. apply below_all.
  replace n with (n - 1 + 1) by lia. set (n' := n - 1). assert (Hn' : 0 ≤ n' < F - p) by lia.
  clearbody n'. revert n' Hn'.
  apply (below_all (λ n, forallb (λ v, give_facts F v p (n + 1)) (below (2 ^ F)))).
  assert (Hp' : 0 ≤ p < F) by lia. clear -HF Hp'. revert p Hp'. apply (below_all (λ p,
    forallb (λ n, forallb (λ v, give_facts F v p (n + 1)) (below (2 ^ F))) (below (F - p)))).
  by_frag HF; vm_compute; reflexivity.
Qed.
Lemma split_facts_ok n : 1 ≤ n < F → split_facts F n = true.
Proof using HF.
  intros Hn. replace n with (n - 1 + 1) by lia. set (n' := n - 1).
  assert (Hn' : 0 ≤ n' < F - 1) by lia. clearbody n'. revert n' Hn'.
  apply (below_all (λ n, split_facts F (n + 1))). clear n Hn. by_frag HF; vm_compute; reflexivity.
Qed.
Lemma block_facts_ok v : 0 ≤ v < 2 ^ F → block_facts F v = true.
Proof using HF. revert v. apply below_all. by_frag HF; vm_compute; reflexivity. Qed.
End facts.

(** ** The fields and the numbers they hold *)

Definition csum_sum (l : list csum) : csum :=
  Csum (foldr (λ x n, cs_nbfree x + n) 0 l) (foldr (λ x n, cs_nffree x + n) 0 l).

Lemma csum_sum_insert l (i : nat) x y : l !! i = Some x →
  csum_sum (<[i := y]> l) = Csum (cs_nbfree (csum_sum l) + cs_nbfree y - cs_nbfree x)
    (cs_nffree (csum_sum l) + cs_nffree y - cs_nffree x).
Proof.
  revert i. induction l as [|z l IH]; intros [|i] Hi; simpl in *; [done..| |].
  - injection Hi as ->. unfold csum_sum. simpl. f_equal; lia.
  - specialize (IH i Hi). unfold csum_sum in *. simpl in *. injection IH as -> ->. f_equal; lia.
Qed.

(** The constants of a file system and of a group. *)
Record geometry := Geometry {
  q_frag : Z; q_fragshift : Z; q_size : Z; q_fpg : Z; q_fshift : Z; q_contig : Z; q_swap : bool;
  q_ncg : Z;               (** the groups of the file system *)
  q_cgx : Z;               (** the number of the group *)
  q_ndblk : Z;             (** its fragments *)
  q_magic : bool;          (** its header is good *)
}.
Definition q_blocks (q : geometry) : Z := q_ndblk q / q_frag q.

Record geometry_ok (q : geometry) : Prop := {
  q_frag_ok : frag_ok (q_frag q) (q_fragshift q);
  q_fpg_pos : 0 < q_fpg q;
  q_fpg_blocks : q_fpg q mod q_frag q = 0;
  q_fpg_small : q_fpg q < 2 ^ 28;
  q_contig_small : q_contig q < 2 ^ 28;
  q_fshift_pos : 0 ≤ q_fshift q;
  q_ncg_u32 : is_u32 (q_ncg q);
  q_cgx_ncg : 0 ≤ q_cgx q < q_ncg q;
  q_ndblk_fpg : 0 ≤ q_ndblk q ≤ q_fpg q;
  q_in_size : q_fpg q * q_cgx q + q_ndblk q ≤ q_size q;
}.

Lemma q_cgx_u32 q : geometry_ok q → is_u32 (q_cgx q).
Proof. intros Hq. pose proof (q_ncg_u32 q Hq). pose proof (q_cgx_ncg q Hq). unfold is_u32 in *. lia. Qed.

Section acct.
Context `{Hlaws : BswapLaws}.
Context (q : geometry) (Hq : geometry_ok q) (csp0 : list csum) (max0 : list Z).
Local Notation F := (q_frag q).
Local Notation K := (q_contig q).
Local Notation ns := (q_swap q).

(** The super block, for a group with [nb] free blocks and [nf] free fragments. *)
Record super_acct (f : fs) (nb nf : Z) (cl : list bool) : Prop := {
  a_frag : fs_frag f = F;
  a_fragshift : fs_fragshift f = q_fragshift q;
  a_size : fs_size f = q_size q;
  a_ncg : fs_ncg f = q_ncg q;
  a_fpg : fs_fpg f = q_fpg q;
  a_fshift : fs_fshift f = q_fshift q;
  a_bsize : fs_bsize f = Z.shiftl F (q_fshift q);
  a_contig : fs_contigsumsize f = K;
  a_swap : fs_swap f = ns;
  a_csp : fs_csp f = <[Z.to_nat (q_cgx q) := Csum nb nf]> csp0;
  a_csp0 : q_cgx q < Z.of_nat (length csp0);
  a_total : fs_cstotal f = csum_sum (fs_csp f);
  a_active : ∀ a, fs_active f = Some a → q_ncg q ≤ 8 * Z.of_nat (length a);
  a_maxcluster : 0 < K → q_cgx q < Z.of_nat (length max0) ∧ ∃ m,
    fs_maxcluster f = <[Z.to_nat (q_cgx q) := m]> max0 ∧
    ∀ k, m < k ≤ K → clusters K cl k = 0;
}.
(** The group, with [fr] runs of fragments, the map [l] and the cluster map [cl]. *)
Record group_acct (c : cg) (nb nf : Z) (fr : Z → Z) (l : list Z) (cl : list bool) : Prop := {
  a_magic : cg_magic_ok c = q_magic q;
  a_cgx : cg_cgx c = stored ns (q_cgx q);
  a_nbfree : cg_nbfree c = stored ns nb;
  a_nffree : cg_nffree c = stored ns nf;
  a_frsum : counts ns 1 F fr (cg_frsum c);
  a_map : repr F (cg_blksfree c) l;
  a_length : Z.of_nat (length (cg_blksfree c)) = howmany (q_fpg q) NBBY;
  a_cllength : Z.of_nat (length cl) = q_blocks q;
  a_clusters : 0 < K → cmap (cg_clustersfree c) cl ∧
    cg_nclusterblks c = stored ns (q_blocks q) ∧
    counts ns 1 (K + 1) (clusters K cl) (cg_clustersum c);
  a_rotor : 0 ≤ ufs_rw32 (cg_rotor c) ns;
  a_frotor : 0 ≤ ufs_rw32 (cg_frotor c) ns < NBBY * Z.of_nat (length (cg_blksfree c));
}.
Definition acct (f : fs) (c : cg) (nb nf : Z) (fr : Z → Z) (l : list Z) (cl : list bool) : Prop :=
  super_acct f nb nf cl ∧ group_acct c nb nf fr l cl.

(** *** Steps *)

Lemma stamp_acct f c now nb nf fr l cl : acct f c nb nf fr l cl →
  acct f (stamp f c now) nb nf fr l cl.
Proof. intros [Hf []]. by split. Qed.
Lemma fmod_acct f c m nb nf fr l cl : acct f c nb nf fr l cl →
  acct (with_fmod f m (fs_active f)) c nb nf fr l cl.
Proof. intros [[] Hc]. by split. Qed.

Lemma activecg_clr_acct f c nb nf fr l cl : acct f c nb nf fr l cl →
  ∃ f', activecg_clr f (q_cgx q) = Ok f' ∧ acct f' c nb nf fr l cl.
Proof using Hlaws Hq.
  intros [Hf Hc]. unfold activecg_clr. destruct (fs_active f) as [a|] eqn:Ea; [|by exists f].
  pose proof (a_active _ _ _ _ Hf a Ea). pose proof (q_cgx_ncg q Hq) as Hx.
  assert (0 ≤ q_cgx q / NBBY < Z.of_nat (length a)).
  { unfold NBBY. split; [apply Z.div_pos; lia|]. apply Z.div_lt_upper_bound; lia. }
  unfold clrbit. destruct (get_total a (q_cgx q / NBBY)) as (x & -> & _); [done|].
  rewrite Ok_bind, put_total, Ok_bind by done. eexists. split; [done|]. split; [|done].
  destruct Hf. split; try done. intros a' [= <-]. by rewrite length_insert.
Qed.

Lemma add_nbfree_acct f c b nb nf fr l cl : acct f c nb nf fr l cl →
  ∃ f' c', add_nbfree f c (q_cgx q) b = Ok (f', c') ∧ acct f' c' (nb + b) nf fr l cl.
Proof using Hlaws Hq.
  intros [Hf Hc]. unfold add_nbfree. pose proof (q_cgx_u32 q Hq) as [Hx _].
  pose proof (a_csp0 _ _ _ _ Hf) as Hl. rewrite (a_csp _ _ _ _ Hf).
  rewrite (proj2 (get_Ok _ (q_cgx q) (Csum nb nf)))
    by (split; [done|by rewrite list_lookup_insert_eq by lia]).
  rewrite Ok_bind, put_total, list_insert_insert_eq, Ok_bind by (rewrite length_insert; lia).
  eexists _, _. split; [done|]. split.
  - pose proof (a_total _ _ _ _ Hf) as Ht. rewrite (a_csp _ _ _ _ Hf) in Ht.
    destruct Hf. split; try done. simpl. rewrite Ht.
    rewrite <-(list_insert_insert_eq csp0 (Z.to_nat (q_cgx q)) (Csum (nb + b) nf) (Csum nb nf)).
    rewrite (csum_sum_insert (<[Z.to_nat (q_cgx q) := Csum nb nf]> csp0) _ (Csum nb nf)) by
      (by rewrite list_lookup_insert_eq by lia). simpl. f_equal; lia.
  - destruct Hc. split; try done. simpl. by rewrite a_nbfree0, (a_swap _ _ _ _ Hf), stored_add.
Qed.
Lemma add_nffree_acct f c b nb nf fr l cl : acct f c nb nf fr l cl →
  ∃ f' c', add_nffree f c (q_cgx q) b = Ok (f', c') ∧ acct f' c' nb (nf + b) fr l cl.
Proof using Hlaws Hq.
  intros [Hf Hc]. unfold add_nffree. pose proof (q_cgx_u32 q Hq) as [Hx _].
  pose proof (a_csp0 _ _ _ _ Hf) as Hl. rewrite (a_csp _ _ _ _ Hf).
  rewrite (proj2 (get_Ok _ (q_cgx q) (Csum nb nf)))
    by (split; [done|by rewrite list_lookup_insert_eq by lia]).
  rewrite Ok_bind, put_total, list_insert_insert_eq, Ok_bind by (rewrite length_insert; lia).
  eexists _, _. split; [done|]. split.
  - pose proof (a_total _ _ _ _ Hf) as Ht. rewrite (a_csp _ _ _ _ Hf) in Ht.
    destruct Hf. split; try done. simpl. rewrite Ht.
    rewrite <-(list_insert_insert_eq csp0 (Z.to_nat (q_cgx q)) (Csum nb (nf + b)) (Csum nb nf)).
    rewrite (csum_sum_insert (<[Z.to_nat (q_cgx q) := Csum nb nf]> csp0) _ (Csum nb nf)) by
      (by rewrite list_lookup_insert_eq by lia). simpl. f_equal; lia.
  - destruct Hc. split; try done. simpl. by rewrite a_nffree0, (a_swap _ _ _ _ Hf), stored_add.
Qed.

(** A new map, and a new account of its runs. *)
Lemma map_acct f c map nb nf fr l l' cl : acct f c nb nf fr l cl →
  repr F map l' → length map = length (cg_blksfree c) →
  acct f (with_frags c (cg_frsum c) map) nb nf fr l' cl.
Proof. intros [Hf []] Hr Hl. split; [done|]. split; simpl; rewrite ?Hl; done. Qed.
Lemma frsum_acct f c frsum nb nf fr fr' l cl : acct f c nb nf fr l cl →
  counts ns 1 F fr' frsum →
  acct f (with_frags c frsum (cg_blksfree c)) nb nf fr' l cl.
Proof. intros [Hf []] Hr. by split. Qed.
Lemma rotors_acct f c rotor frotor nb nf fr l cl : acct f c nb nf fr l cl →
  0 ≤ ufs_rw32 rotor ns → 0 ≤ ufs_rw32 frotor ns < NBBY * Z.of_nat (length (cg_blksfree c)) →
  acct f (with_rotors c rotor frotor) nb nf fr l cl.
Proof. intros [Hf []] Hr Hf'. by split. Qed.

(** Changes of one counter of runs, for numbers known up to equality. *)
Lemma add_at_acct f c i b nb nf fr l cl : acct f c nb nf fr l cl → 1 ≤ i < F →
  ∃ frsum, add_at (cg_frsum c) i b ns = Ok frsum ∧
    acct f (with_frags c frsum (cg_blksfree c)) nb nf (bump i b fr) l cl.
Proof.
  intros Ha Hi. destruct (counts_add ns 1 F fr (cg_frsum c) i b) as (fs' & E & Hc & _);
    [lia|by apply Ha|done|]. exists fs'. split; [done|]. by eapply frsum_acct.
Qed.
Lemma fragacct_acct f c v cnt nb nf fr l cl : acct f c nb nf fr l cl → 0 ≤ v < 2 ^ F →
  ∃ frsum, ffs_fragacct F v (cg_frsum c) cnt ns = Ok frsum ∧
    acct f (with_frags c frsum (cg_blksfree c)) nb nf (λ k, fr k + cnt * frag_runs F k v) l cl.
Proof using Hlaws Hq.
  intros Ha Hv.
  destruct (fragacct_counts F _ v ns fr (cg_frsum c) cnt (q_frag_ok q Hq) Hv) as (fs' & E & Hc & _);
    [by apply Ha|]. exists fs'. split; [done|]. by eapply frsum_acct.
Qed.

Lemma clusteracct_acct f c (b : nat) v nb nf fr l cl : acct f c nb nf fr l cl →
  cl !! b = Some (negb v) →
  ∃ f' c', ffs_clusteracct f c (Z.of_nat b) (if v then 1 else -1) = Ok (f', c') ∧
    acct f' c' nb nf fr l (<[b := v]> cl) ∧ cg_frsum c' = cg_frsum c ∧
    cg_blksfree c' = cg_blksfree c ∧ cg_cgx c' = cg_cgx c ∧ fs_active f' = fs_active f.
Proof using Hlaws Hq.
  intros [Hf Hc] Hb. pose proof (a_contig _ _ _ _ Hf) as EK. pose proof (a_swap _ _ _ _ Hf) as Es.
  pose proof (a_cllength _ _ _ _ _ _ Hc) as Hcl.
  destruct (Z.leb_spec K 0) as [HK|HK].
  - unfold ffs_clusteracct. rewrite EK, (proj2 (Z.leb_le _ _)) by done.
    exists f, c. split; [done|]. split; [|done]. split.
    + destruct Hf. split; try done. lia.
    + destruct Hc. split; try done; [by rewrite length_insert|lia].
  - destruct (a_clusters _ _ _ _ _ _ Hc HK) as (Hm & Hn & Hcs).
    destruct (a_maxcluster _ _ _ _ Hf HK) as (Hml & m0 & Em0 & _).
    pose proof (q_cgx_u32 q Hq) as Hx. pose proof (q_fpg_small q Hq). pose proof (q_contig_small q Hq).
    pose proof (q_ndblk_fpg q Hq).
    destruct (per_byte _ _ (q_frag_ok q Hq)) as (_ & HF0 & _).
    assert (q_blocks q ≤ q_ndblk q) by (apply Z.div_le_upper_bound; nia).
    destruct (clusteracct_ok f c cl b v (q_cgx q)) as (free & sum & m & E & Hm' & Hs' & Hm1 & Hm2 & _);
      rewrite ?EK, ?Es, ?Hcl, ?Em0, ?length_insert; try done.
    { lia. } { apply Hc. }
    rewrite E, Em0, list_insert_insert_eq. eexists _, _. split; [done|]. split; [|done].
    rewrite EK, ?Es in *. split.
    + destruct Hf. split; try done. intros _. split; [done|]. by exists m.
    + destruct Hc. split; try done. simpl. by rewrite length_insert.
Qed.

End acct.
