(* ===== verification/FfsSys.v ===== *)
(** * Allocation in a cylinder group is exact (for ufs/ffs/ffs_alloc.c)

    In a sound group the counts of free blocks, of free fragments, of runs of
    fragments and of clusters are those of the map, and so are the summaries in the
    super block. Allocation, claims, extension and freeing keep a group sound, do
    not run into a panic, and take or give the fragments that they report. *)

From S2P Require Import Prelude FfsMap FfsMapSpec FfsAlloc FfsFragSpec FfsCluster FfsSearch FfsAcct.

Section sys.
Context `{Hlaws : BswapLaws}.
Context (q : geometry) (Hq : geometry_ok q) (csp0 : list csum) (max0 : list Z).
Local Notation F := (q_frag q).
Local Notation K := (q_contig q).
Local Notation ns := (q_swap q).
Local Notation acct := (acct q csp0 max0).

(** ** Sound groups *)

(** Free fragments belong to the group; fragment 0 of the file system is in use. *)
Definition placed (l : list Z) : Prop := ∀ b v i, l !! Z.to_nat b = Some v → 0 ≤ b → 0 ≤ i < F →
  Z.testbit v i = true → b * F + i < q_ndblk q ∧ (q_cgx q = 0 → b * F + i ≠ 0).

(** The blocks of the group that are free as a whole. *)
Definition full_map (l : list Z) : list bool := is_full F <$> take (Z.to_nat (q_blocks q)) l.

Definition sound (f : fs) (c : cg) (l : list Z) : Prop :=
  acct f c (tally (full_count F) l) (tally (frag_free F) l) (λ k, tally (frag_runs F k) l) l
    (full_map l) ∧ placed l.

(** The number of fragment [p] of block [b] in the file system. *)
Definition address (b p : Z) : Z := q_fpg q * q_cgx q + b * F + p.

Lemma F_facts : 0 < F ∧ 0 < 8 / F ∧ F * (8 / F) = 8 ∧ F ≤ 8.
Proof using Hq. pose proof (per_byte _ _ (q_frag_ok q Hq)). nia. Qed.

Lemma sound_bounds f c l b v : sound f c l → l !! b = Some v → 0 ≤ v < 2 ^ F.
Proof using Hq.
  intros [[_ Hc] _] Hv. eapply repr_bounds; [apply q_frag_ok, Hq|apply Hc|done].
Qed.

(** A block of the group. *)
Lemma placed_block l b v i : placed l → l !! Z.to_nat b = Some v → 0 ≤ b → 0 ≤ i < F →
  Z.testbit v i = true → b * F + F ≤ q_fpg q.
Proof using Hq.
  intros Hp Hv Hb Hi Ht. destruct (Hp b v i Hv Hb Hi Ht) as [Hlt _].
  destruct F_facts as (HF & _). pose proof (q_ndblk_fpg q Hq). pose proof (q_fpg_blocks q Hq) as E.
  apply Z.mod_divide in E as [x Ex]; [|lia]. rewrite Ex.
  assert (b < x) by (apply (Zmult_lt_reg_r _ _ F); lia). nia.
Qed.
Lemma full_testbit v i : is_full F v = true → 0 ≤ i < F → Z.testbit v i = true.
Proof using.
  intros Hv%Z.eqb_eq Hi. subst v. unfold full. replace (2 ^ F - 1) with (Z.ones F)
    by (rewrite Z.ones_equiv; lia). apply Z.ones_spec_low. lia.
Qed.
Lemma placed_full l b v : placed l → l !! Z.to_nat b = Some v → 0 ≤ b → is_full F v = true →
  b < q_blocks q ∧ full_map l !! Z.to_nat b = Some true ∧ b * F + F ≤ q_fpg q ∧
  (q_cgx q = 0 → b ≠ 0).
Proof using Hq.
  intros Hp Hv Hb Hf. destruct F_facts as (HF & _).
  assert (Hlt : b < q_blocks q).
  { destruct (Hp b v (F - 1) Hv Hb) as [Hlt _]; [lia|apply full_testbit; [done|lia]|].
    assert (b + 1 ≤ q_ndblk q / F); [|unfold q_blocks; lia]. apply Z.div_le_lower_bound; nia. }
  split; [done|]. split; [|split].
  - unfold full_map. rewrite list_lookup_fmap, lookup_take_lt, Hv by lia. simpl. by rewrite Hf.
  - apply (placed_block l b v 0); [done..|lia|apply full_testbit; [done|lia]].
  - intros Hz ->. destruct (Hp 0 v 0 Hv Hb) as [_ H0]; [lia|apply full_testbit; [done|lia]|].
    by apply H0.
Qed.

Lemma placed_insert l b v v' : placed l → l !! Z.to_nat b = Some v →
  (∀ i, 0 ≤ i < F → Z.testbit v' i = true →
    Z.testbit v i = true ∨ (b * F + i < q_ndblk q ∧ (q_cgx q = 0 → b * F + i ≠ 0))) →
  0 ≤ b → placed (<[Z.to_nat b := v']> l).
Proof using.
  intros Hp Hv Hsub Hb b1 v1 i H1 Hb1 Hi Ht. destruct (decide (b1 = b)) as [->|Hne].
  - rewrite list_lookup_insert_eq in H1 by (by eapply lookup_lt_Some). injection H1 as <-.
    destruct (Hsub i Hi Ht) as [Ht'|]; [|done]. by apply (Hp b v i).
  - rewrite list_lookup_insert_ne in H1 by lia. by apply (Hp b1 v1 i).
Qed.

Lemma full_map_insert l b v' :
  full_map (<[b := v']> l) = <[b := is_full F v']> (full_map l).
Proof using.
  unfold full_map. destruct (decide (b < Z.to_nat (q_blocks q))%nat).
  - by rewrite take_insert_lt, list_fmap_insert by done.
  - rewrite take_insert_ge by lia. rewrite list_insert_ge; [done|].
    rewrite length_fmap, length_take. lia.
Qed.
Lemma full_map_same l b v v' : l !! b = Some v → is_full F v' = is_full F v →
  full_map (<[b := v']> l) = full_map l.
Proof using.
  intros Hv E. rewrite full_map_insert. unfold full_map.
  destruct (decide (b < Z.to_nat (q_blocks q))%nat).
  - rewrite list_insert_id; [done|]. rewrite list_lookup_fmap, lookup_take_lt, Hv by lia.
    simpl. by rewrite E.
  - rewrite list_insert_ge; [done|]. rewrite length_fmap, length_take. lia.
Qed.

(** The accounts after a change of one block. *)
Lemma sound_change f c l b v v' nb nf fr cl : l !! b = Some v →
  acct f c nb nf fr (<[b := v']> l) cl →
  nb = tally (full_count F) l + full_count F v' - full_count F v →
  nf = tally (frag_free F) l + frag_free F v' - frag_free F v →
  (∀ k, 1 ≤ k < F → fr k = tally (frag_runs F k) l + frag_runs F k v' - frag_runs F k v) →
  cl = full_map (<[b := v']> l) → placed (<[b := v']> l) → sound f c (<[b := v']> l).
Proof using.
  intros Hv [Hf Hc] -> -> Hfr -> Hp. split; [|done].
  rewrite !(tally_insert _ l b v v') by done. split; [done|].
  destruct Hc. split; try done. eapply counts_ext; [|done]. intros k Hk. simpl.
  by rewrite (tally_insert _ l b v v'), Hfr by done.
Qed.

(** Facts about one block. *)
Lemma block_use f c l b v : sound f c l → l !! b = Some v →
  0 ≤ frag_free F v ≤ F ∧ (∀ k, 1 ≤ k ≤ F → 0 ≤ frag_runs F k v ≤ F) ∧
  (frag_runs F F v = 0 ↔ is_full F v = false).
Proof using Hq.
  intros Hs Hv. pose proof (sound_bounds f c l b v Hs Hv) as Hb.
  pose proof (block_facts_ok F _ (q_frag_ok q Hq) v Hb) as HB. unfold block_facts in HB.
  rewrite !andb_true_iff in HB. destruct HB as (((H1 & H2) & H3) & H4). zb.
  split; [lia|]. split.
  - intros k Hk. rewrite forallb_forall in H3. specialize (H3 k).
    rewrite andb_true_iff in H3. assert (k ∈ seqZ 1 F) as Hin by (apply elem_of_seqZ; lia).
    apply list_elem_of_In in Hin. apply H3 in Hin. zb. lia.
  - apply eqb_prop in H4. rewrite <-Z.eqb_eq, H4. apply negb_true_iff.
Qed.

Lemma dtogd_address b p : 0 ≤ b → 0 ≤ p < F → b * F + F ≤ q_fpg q → ∀ f, fs_fpg f = q_fpg q →
  fs_frag f = F → fs_fragshift f = q_fragshift q →
  dtog f (address b p) = q_cgx q ∧ dtogd f (address b p) = b * F + p ∧
  ffs_fragstoblks f (b * F + p) = b ∧ ffs_fragnum f (b * F + p) = p ∧
  ffs_fragnum f (address b p) = p ∧ ffs_blknum f (address b p) = address b 0 ∧
  cgbase f (q_cgx q) + (b * F + p) = address b p ∧ 0 ≤ address b p.
Proof using Hq.
  intros Hb Hp Hin f Ef Eg Es. pose proof (q_cgx_u32 q Hq) as [Hx _].
  pose proof (q_fpg_pos q Hq). pose proof (q_fpg_blocks q Hq) as Em.
  apply Z.mod_divide in Em as [x Ex]; [|lia].
  unfold dtog, dtogd, ffs_fragstoblks, ffs_fragnum, ffs_blknum, cgbase. rewrite Ef, Eg, Es.
  assert (Ea : address b p = q_cgx q * q_fpg q + (b * F + p)) by (unfold address; lia).
  assert (Ha : address b p = (x * q_cgx q + b) * F + p) by (unfold address; rewrite Ex; lia).
  assert (Ha0 : address b 0 = (x * q_cgx q + b) * F) by (unfold address; rewrite Ex; lia).
  assert (0 ≤ address b p) by (unfold address; nia).
  rewrite Z.quot_div_nonneg, Z.rem_mod_nonneg by lia.
  assert (Hland : ∀ y, 0 ≤ y → y .& (F - 1) = y mod F ∧ Z.shiftr y (q_fragshift q) = y / F ∧
    y .& Z.lnot (F - 1) = y - y mod F).
  { intros y Hy. assert (HF : F = 2 ^ q_fragshift q ∧ 0 ≤ q_fragshift q).
    { pose proof (q_frag_ok q Hq) as Hk. generalize (q_frag q) (q_fragshift q) Hk.
      intros F0 s0 Hk0. by_frag Hk0; lia. }
    destruct HF as [HF Hs0]. rewrite HF. rewrite Z.shiftr_div_pow2 by done.
    replace (2 ^ q_fragshift q - 1) with (Z.ones (q_fragshift q)) by (rewrite Z.ones_equiv; lia).
    rewrite Z.land_ones by done. split; [done|]. split; [done|].
    rewrite <-Z.ldiff_land, Z.ldiff_ones_r, Z.shiftl_mul_pow2, Z.shiftr_div_pow2 by done.
    pose proof (Z.div_mod y (2 ^ q_fragshift q)). lia. }
  assert (Hmod : ∀ y, (y * F + p) mod F = p ∧ (y * F + p) / F = y).
  { intros y. split; [rewrite Z.add_comm, Z.mod_add, Z.mod_small; lia|].
    rewrite Z.div_add_l, Z.div_small; lia. }
  assert (0 ≤ b * F + p < q_fpg q) by nia.
  destruct (Hland (b * F + p)) as (-> & -> & _); [nia|].
  destruct (Hland (address b p)) as (-> & _ & ->); [lia|].
  rewrite Ha at 3 4 5. rewrite !(proj1 (Hmod _)), !(proj2 (Hmod _)).
  split; [rewrite Ea, Z.div_add_l, Z.div_small; lia|].
  split; [rewrite Ea, Z.add_comm, Z.mod_add, Z.mod_small; lia|]. rewrite Ha0, Ea. 
  repeat split; lia.
Qed.

(** ** Allocation *)

Lemma with_fmod_sound f c m l : sound f c l → sound (with_fmod f m (fs_active f)) c l.
Proof using. intros [Ha Hp]. split; [by apply fmod_acct|done]. Qed.
Lemma stamp_sound f c now l : sound f c l → sound f (stamp f c now) l.
Proof using. intros [Ha Hp]. split; [by apply stamp_acct|done]. Qed.
Lemma clr_sound f c l : sound f c l → ∃ f', activecg_clr f (q_cgx q) = Ok f' ∧ sound f' c l.
Proof using Hlaws Hq.
  intros [Ha Hp]. destruct (activecg_clr_acct q Hq csp0 max0 _ _ _ _ _ _ _ Ha) as (f' & ? & ?).
  by exists f'.
Qed.

Lemma sound_super f c l : sound f c l → super_acct q csp0 max0 f (tally (full_count F) l)
  (tally (frag_free F) l) (full_map l).
Proof using. by intros [[? _] _]. Qed.
Lemma sound_group f c l : sound f c l → group_acct q c (tally (full_count F) l)
  (tally (frag_free F) l) (λ k, tally (frag_runs F k) l) l (full_map l).
Proof using. by intros [[_ ?] _]. Qed.

Lemma full_is_full : is_full F (full F) = true.
Proof using. apply Z.eqb_refl. Qed.
Lemma zero_facts : 0 < F → is_full F 0 = false ∧ frag_free F 0 = 0 ∧
  (∀ k, 1 ≤ k < F → frag_runs F k 0 = 0) ∧ frag_free F (full F) = 0 ∧
  (∀ k, 1 ≤ k < F → frag_runs F k (full F) = 0).
Proof using Hlaws Hq.
  intros HF. pose proof (q_frag_ok q Hq) as Hk. generalize (q_frag q) (q_fragshift q) Hk.
  intros F0 s0 Hk0. split; [by by_frag Hk0|]. split; [by by_frag Hk0|].
  assert (∀ v, forallb (λ k, frag_runs F0 (k + 1) v =? 0) (below (F0 - 1)) = true →
    ∀ k, 1 ≤ k < F0 → frag_runs F0 k v = 0) as Hb.
  { intros v E k Hk1. pose proof (below_all _ _ E (k - 1) ltac:(lia)) as H1. apply Z.eqb_eq in H1.
    by rewrite Z.sub_add in H1. }
  split; [apply Hb; by by_frag Hk0|]. split; [by by_frag Hk0|apply Hb; by by_frag Hk0].
Qed.

(** A free block is taken as a whole. *)
Lemma clear_block_ok f c l b : sound f c l → 0 ≤ b → l !! Z.to_nat b = Some (full F) →
  ∃ map f1 c1 f2 c2, ffs_clrblock (q_fragshift q) (cg_blksfree c) b = Ok map ∧
    ffs_clusteracct f (with_frags c (cg_frsum c) map) b (-1) = Ok (f1, c1) ∧
    ufs_rw32 (cg_cgx c1) (fs_swap f1) = q_cgx q ∧
    add_nbfree f1 c1 (q_cgx q) (-1) = Ok (f2, c2) ∧ sound f2 c2 (<[Z.to_nat b := 0]> l).
Proof using Hlaws Hq.
  intros Hs Hb Hv. pose proof Hs as [Ha Hp].
  destruct F_facts as (HF & _). destruct (zero_facts HF) as (Z1 & Z2 & Z3 & Z4 & Z5).
  destruct (placed_full l b (full F) Hp Hv Hb full_is_full) as (HN & Hcl & _).
  destruct (clrblock_blk F _ (q_frag_ok q Hq) (cg_blksfree c) l b (full F)) as (map & E & Hr & Hl);
    [by apply Ha|done..|].
  pose proof (map_acct q csp0 max0 f c map _ _ _ _ _ _ Ha Hr Hl) as A1.
  destruct (clusteracct_acct q Hq csp0 max0 f _ (Z.to_nat b) false _ _ _ _ _ A1 Hcl)
    as (f1 & c1 & E1 & A2 & _ & _ & _). rewrite Z2Nat.id in E1 by done.
  destruct (add_nbfree_acct q Hq csp0 max0 f1 c1 (-1) _ _ _ _ _ A2) as (f2 & c2 & E2 & A3).
  exists map, f1, c1, f2, c2. split; [done|]. split; [done|]. split; [|split; [done|]].
  { pose proof A2 as [Hf1 Hc1]. rewrite (a_cgx _ _ _ _ _ _ _ Hc1), (a_swap _ _ _ _ _ _ _ Hf1).
    by rewrite stored_inv, u32_small by apply q_cgx_u32, Hq. }
  eapply (sound_change f2 c2 l _ (full F) 0); [done|exact A3|..].
  - unfold full_count. rewrite Z1, full_is_full. simpl. lia.
  - lia.
  - intros k Hk. rewrite Z3, Z5 by done. lia.
  - by rewrite full_map_insert, Z1.
  - apply (placed_insert l b (full F)); [done..| |done]. intros i _ Hi.
    by rewrite Z.testbit_0_l in Hi.
Qed.
Lemma take_block_ok f c l b : sound f c l → 0 ≤ b → l !! Z.to_nat b = Some (full F) →
  ∃ f' c', take_block f c (b * F) = Ok (f', c', address b 0) ∧
    sound f' c' (<[Z.to_nat b := 0]> l).
Proof using Hlaws Hq.
  intros Hs Hb Hv. pose proof (sound_super _ _ _ Hs) as Hsu. destruct F_facts as (HF & _).
  destruct (placed_full l b (full F) (proj2 Hs) Hv Hb full_is_full) as (_ & _ & Hin & _).
  destruct (dtogd_address b 0) with (f := f) as (_ & _ & E3 & _);
    [done|lia|done|apply Hsu..|]. rewrite Z.add_0_r in E3.
  unfold take_block. rewrite E3, (a_fragshift _ _ _ _ _ _ _ Hsu).
  destruct (clear_block_ok f c l b Hs Hb Hv) as (map & f1 & c1 & f2 & c2 & -> & E & E' & E2 & Hs2).
  rewrite Ok_bind, E, Ok_bind, E', E2, Ok_bind. pose proof (sound_super _ _ _ Hs2) as Hsu2.
  destruct (dtogd_address b 0) with (f := f2) as (_ & _ & _ & _ & _ & _ & E7 & _);
    [done|lia|done|apply Hsu2..|]. rewrite Z.add_0_r in E7. rewrite E7.
  eexists _, c2. split; [done|]. by apply with_fmod_sound.
Qed.

Lemma block_in f c l b : sound f c l → 0 ≤ b → b * F + F ≤ q_fpg q →
  ∃ v, l !! Z.to_nat b = Some v.
Proof using Hq.
  intros Hs Hb Hin. destruct (sound_group _ _ _ Hs) as [].
  destruct F_facts as (HF & HD & HFD & _).
  apply (repr_lookup F _ (q_frag_ok q Hq) (cg_blksfree c) l b); [done..|].
  rewrite a_length. unfold howmany, NBBY.
  assert ((b + 1) * F ≤ q_fpg q) by lia.
  assert (b + 1 ≤ q_fpg q / F) by (apply Z.div_le_lower_bound; lia).
  pose proof (q_fpg_blocks q Hq) as Em. apply Z.mod_divide in Em as [x Ex]; [|lia].
  rewrite Ex, Z.div_mul in * by lia.
  assert (x * F ≤ (x * F + (8 - 1)) / 8 * 8) by (Z.div_mod_to_equations; lia). nia.
Qed.
Lemma pref_address f bpref : fs_fpg f = q_fpg q → 0 ≤ bpref → dtog f bpref = q_cgx q →
  ∃ b p, bpref = address b p ∧ 0 ≤ b ∧ 0 ≤ p < F ∧ b * F + F ≤ q_fpg q.
Proof using Hq.
  intros Ef Hb Hd. unfold dtog in Hd. rewrite Ef in Hd. pose proof (q_fpg_pos q Hq).
  destruct F_facts as (HF & _). rewrite Z.quot_div_nonneg in Hd by lia.
  pose proof (Z.div_mod bpref (q_fpg q)) as E. rewrite Hd in E. set (r := bpref mod q_fpg q) in *.
  assert (0 ≤ r < q_fpg q) by (apply Z.mod_pos_bound; lia).
  pose proof (q_fpg_blocks q Hq) as Em. apply Z.mod_divide in Em as [x Ex]; [|lia].
  exists (r / F), (r mod F). pose proof (Z.div_mod r F). pose proof (Z.mod_pos_bound r F HF).
  assert (0 ≤ r / F) by (apply Z.div_pos; lia).
  split; [unfold address; lia|]. split; [done|]. split; [done|].
  assert (r / F < x) by (apply Z.div_lt_upper_bound; lia). nia.
Qed.

(** Allocation at the given place or not at all, for a contiguous file. *)
Definition contig (flags : Z) : Prop := flags .& (B_CONTIG .| B_METAONLY) = B_CONTIG.

(** The search, in a sound group. *)
Lemma search_ok f c l bpref k : sound f c l → 0 ≤ bpref → 1 ≤ k ≤ F →
  (∃ (b : nat) v, l !! b = Some v ∧ frag_runs F k v ≠ 0) →
  ∃ c' bno b p v, ffs_mapsearch f c bpref k = Ok (c', b * F + p) ∧ sound f c' l ∧
    sound f (with_rotors c' (stored ns bno) (cg_frotor c')) l ∧ bno = b * F + p ∧
    0 ≤ b ∧ l !! Z.to_nat b = Some v ∧ 0 ≤ p ≤ F - k ∧ run_at v p k = true ∧
    frag_runs F k v ≠ 0 ∧ b * F + F ≤ q_fpg q ∧ is_u32 bno.
Proof using Hlaws Hq.
  intros Hs Hbp Hk Hav. pose proof Hs as [Ha Hp]. pose proof (sound_super _ _ _ Hs) as Hsu.
  pose proof (sound_group _ _ _ Hs) as Hg. destruct F_facts as (HF & HD & HFD & HF8).
  pose proof (q_fpg_small q Hq). pose proof (q_fpg_pos q Hq).
  pose proof (a_frag _ _ _ _ _ _ _ Hsu) as E1. pose proof (a_fpg _ _ _ _ _ _ _ Hsu) as E2.
  pose proof (a_fragshift _ _ _ _ _ _ _ Hsu) as E3. pose proof (a_swap _ _ _ _ _ _ _ Hsu) as E4.
  pose proof (a_length _ _ _ _ _ _ _ Hg) as E5. pose proof (a_frotor _ _ _ _ _ _ _ Hg) as E6.
  assert (Hfrag : frag_ok (fs_frag f) (fs_fragshift f)) by (rewrite E1, E3; apply Hq).
  assert (Hlen : Z.of_nat (length (cg_blksfree c)) < 2 ^ 28).
  { rewrite E5. unfold howmany, NBBY. Z.div_mod_to_equations. lia. }
  destruct (mapsearch_ok f Hfrag (cg_blksfree c) l) with (k := k) (c := c) (bpref := bpref)
    as (b & p & v & E & Hb & Hbl & Hv & Hpk & Hrun & Hne);
    rewrite ?E1, ?E2, ?E4; try done; [apply Ha|unfold available; by rewrite E1|].
  rewrite E1, E4 in *. set (c' := with_rotors _ _ _) in E.
  assert (Hbit : Z.testbit v p = true).
  { unfold run_at in Hrun. rewrite !andb_true_iff in Hrun. destruct Hrun as [[_ Hh] _].
    replace k with (k - 1 + 1) in Hh by lia. rewrite has_S in Hh by lia.
    by apply andb_true_iff in Hh as [? _]. }
  assert (Hin : b * F + F ≤ q_fpg q) by (apply (placed_block l b v p); done || lia).
  set (bno := b * F + p). assert (Hbno : is_u32 bno) by (unfold bno, is_u32; nia).
  assert (Hc' : sound f c' l).
  { split; [|done]. apply rotors_acct; [done|apply Hg|]. rewrite stored_inv, u32_small.
    - unfold NBBY. assert (0 ≤ b / (8 / F)) by (apply Z.div_pos; lia). lia.
    - unfold is_u32, NBBY. assert (0 ≤ b / (8 / F)) by (apply Z.div_pos; lia). lia. }
  exists c', bno, b, p, v. split; [done|]. split; [done|]. split.
  { destruct Hc' as [Ha' _]. split; [|done]. apply rotors_acct; [done| |apply Ha'].
    rewrite stored_inv, u32_small by done. apply Hbno. }
  done.
Qed.

Lemma tally_full l : 0 < tally (full_count F) l → ∃ b : nat, l !! b = Some (full F).
Proof using.
  intros (b & v & Hv & Hf)%tally_pos. exists b. unfold full_count, is_full in Hf.
  destruct (Z.eqb_spec v (full F)) as [->|]; [done|simpl in Hf; lia].
Qed.
Lemma tally_nonneg_full l : 0 ≤ tally (full_count F) l.
Proof using. apply tally_nonneg. intros v _. unfold full_count. destruct (is_full F v); simpl; lia. Qed.
Lemma tally_small f c l g : sound f c l → (∀ v, v ∈ l → 0 ≤ g v ≤ F) → is_u32 (tally g l).
Proof using Hlaws Hq.
  intros Hs HB%tally_bounds.
  pose proof (repr_length _ _ (q_frag_ok q Hq) _ _ (a_map _ _ _ _ _ _ _ (sound_group _ _ _ Hs))) as E.
  pose proof (a_length _ _ _ _ _ _ _ (sound_group _ _ _ Hs)) as E2. rewrite E2 in E.
  pose proof (q_fpg_small q Hq). destruct F_facts as (? & ? & HFD & ?). pose proof (q_fpg_pos q Hq).
  assert (howmany (q_fpg q) NBBY < 2 ^ 26) by (unfold howmany, NBBY; Z.div_mod_to_equations; lia).
  assert (F * Z.of_nat (length l) = 8 * howmany (q_fpg q) NBBY) by nia. unfold is_u32. lia.
Qed.
Lemma full_count_bounds v : 0 < F → 0 ≤ full_count F v ≤ F.
Proof using. unfold full_count. destruct (is_full F v); simpl; lia. Qed.

Lemma alloccgblk_ok f c l bpref flags : sound f c l → 0 ≤ bpref → 0 < tally (full_count F) l →
  ∃ f' c' blkno, ffs_alloccgblk f c bpref flags = Ok (f', c', blkno) ∧
    ((blkno = 0 ∧ contig flags ∧ f' = f ∧ c' = c) ∨
     ∃ b, blkno = address b 0 ∧ 0 ≤ b ∧ l !! Z.to_nat b = Some (full F) ∧
       sound f' c' (<[Z.to_nat b := 0]> l)).
Proof using Hlaws Hq.
  intros Hs Hbp Hav. pose proof (sound_super _ _ _ Hs) as Hsu. pose proof (sound_group _ _ _ Hs) as Hg.
  pose proof (a_fpg _ _ _ _ _ _ _ Hsu) as Efpg. pose proof (a_frag _ _ _ _ _ _ _ Hsu) as Efrag.
  destruct F_facts as (HF & _).
  assert (Hsearch : ∀ r, 0 ≤ r → ∃ f' c' b,
    (ffs_mapsearch f c r (fs_frag f) ≫= (λ '(c, bno),
      take_block f (with_rotors c (ufs_rw32 bno (fs_swap f)) (cg_frotor c)) bno)) =
      Ok (f', c', address b 0) ∧ 0 ≤ b ∧ l !! Z.to_nat b = Some (full F) ∧
    sound f' c' (<[Z.to_nat b := 0]> l)).
  { intros r Hr. rewrite Efrag. destruct (search_ok f c l r F) as
      (c' & bno & b & p & v & E & Hs1 & Hs2 & Eb & Hb & Hv & Hp & _ & Hne & _ & Hu); [done..|lia| |].
    { destruct (tally_full l Hav) as [b Hb]. exists b, (full F). split; [done|].
      intros E0. apply (block_use f c l b (full F)) in E0; [|done..].
      by rewrite full_is_full in E0. }
    assert (p = 0) as -> by lia. rewrite Z.add_0_r in *. rewrite E, Ok_bind.
    assert (v = full F) as ->.
    { destruct (is_full F v) eqn:Ef; [by apply Z.eqb_eq in Ef|]. exfalso. apply Hne.
      by eapply (block_use f c l). }
    subst bno. rewrite (a_swap _ _ _ _ _ _ _ Hsu). unfold stored in Hs2.
    rewrite u32_small in Hs2 by done. destruct (take_block_ok _ _ l b Hs2 Hb Hv) as (f' & c2 & -> & ?).
    by exists f', c2, b. }
  unfold ffs_alloccgblk. rewrite (a_cgx _ _ _ _ _ _ _ Hg), (a_swap _ _ _ _ _ _ _ Hsu).
  rewrite stored_inv, u32_small by apply q_cgx_u32, Hq. rewrite (a_swap _ _ _ _ _ _ _ Hsu) in Hsearch.
  destruct (_ || _) eqn:Et.
  - destruct (Hsearch (ufs_rw32 (cg_rotor c) ns)) as (f' & c' & b & -> & ?); [apply Hg|].
    exists f', c', (address b 0). split; [done|]. right. by exists b.
  - zb. destruct Et as [_ Ed]. destruct (pref_address f bpref Efpg Hbp Ed) as (b & p & -> & Hb & Hp & Hin).
    destruct (dtogd_address b p) with (f := f) as (_ & _ & _ & _ & _ & -> & _ & Ha0); [done..|apply Hsu|].
    destruct (dtogd_address b 0) with (f := f) as (_ & -> & -> & _); [done|lia|done..|apply Hsu|].
    destruct (block_in f c l b Hs Hb Hin) as [v Hv].
    rewrite (a_fragshift _ _ _ _ _ _ _ Hsu), (isblock_blk F _ (q_frag_ok q Hq) _ l b v), Ok_bind
      by (done || apply Hg). destruct (is_full F v) eqn:Ef.
    + apply Z.eqb_eq in Ef. subst v. rewrite Z.add_0_r.
      destruct (take_block_ok f c l b Hs Hb Hv) as (f' & c' & -> & ?).
      exists f', c', (address b 0). split; [done|]. right. by exists b.
    + destruct (Z.eqb_spec (flags .& (B_CONTIG .| B_METAONLY)) B_CONTIG) as [Ec|Ec].
      { exists f, c, 0. split; [done|]. by left. }
      destruct (Hsearch (address b 0)) as (f' & c' & b' & -> & ?).
      { destruct (dtogd_address b 0) with (f := f) as (_ & _ & _ & _ & _ & _ & _ & ?);
          [done|lia|done..|apply Hsu|done]. }
      exists f', c', (address b' 0). split; [done|]. right. by exists b'.
Qed.

(** ** Giving fragments back *)

(** Fragments that may be free: of the group, and not fragment 0. *)
Definition in_group (b p n : Z) : Prop :=
  0 ≤ b ∧ 0 ≤ p ∧ 1 ≤ n ∧ p + n ≤ F ∧ b * F + p + n ≤ q_ndblk q ∧ (q_cgx q = 0 → 0 < b * F + p).

Lemma in_group_block b p n : in_group b p n → b * F + F ≤ q_fpg q.
Proof using Hq.
  intros (Hb & Hp & Hn & Hpn & Hin & _). destruct F_facts as (HF & _).
  pose proof (q_ndblk_fpg q Hq). pose proof (q_fpg_blocks q Hq) as E.
  apply Z.mod_divide in E as [x Ex]; [|lia]. rewrite Ex.
  assert (b < x) by (apply (Zmult_lt_reg_r _ _ F); lia). nia.
Qed.

Lemma placed_given l b p n v : placed l → l !! Z.to_nat b = Some v → in_group b p n →
  placed (<[Z.to_nat b := given v p n]> l).
Proof using.
  intros Hp Hv (Hb & Hp0 & Hn & Hpn & Hin & H0). apply (placed_insert l b v); [done..| |done].
  intros i Hi Ht. unfold given in Ht. rewrite Z.lor_spec, piece_testbit in Ht by lia.
  apply orb_true_iff in Ht as [Ht|Ht]; [by left|right]. zb. lia.
Qed.

Lemma give_use f c l b v p n : sound f c l → l !! Z.to_nat b = Some v → in_group b p n →
  lacks v p n = true → 0 ≤ given v p n < 2 ^ F ∧ is_full F v = false ∧
    frag_free F (given v p n) = frag_free F v + n - F * full_count F (given v p n).
Proof using Hlaws Hq.
  intros Hs Hv (Hb & Hp & Hn & Hpn & _) Hl. pose proof (sound_bounds f c l _ v Hs Hv) as Hvb.
  pose proof (give_facts_ok F _ (q_frag_ok q Hq) v p n Hvb Hp Hn Hpn) as Hf. unfold give_facts in Hf.
  rewrite Hl in Hf. simpl in Hf. rewrite !andb_true_iff in Hf. destruct Hf as (((H1 & H2) & H3) & H4).
  apply negb_true_iff in H3. zb. done.
Qed.

Lemma blkfree_frag_ok f c l b v p n : sound f c l → l !! Z.to_nat b = Some v → in_group b p n →
  lacks v p n = true →
  ∃ f' c', blkfree_frag f c (q_cgx q) (b * F + p) n = Ok (f', c') ∧
    sound f' c' (<[Z.to_nat b := given v p n]> l).
Proof using Hlaws Hq.
  intros Hs Hv Hgr Hl. pose proof Hs as [Ha Hpl]. pose proof (sound_super _ _ _ Hs) as Hsu.
  pose proof (in_group_block b p n Hgr) as Hin. pose proof Hgr as (Hb & Hp & Hn & Hpn & _).
  destruct (give_use f c l b v p n Hs Hv Hgr Hl) as (Hvb' & Hnf & Hfree).
  pose proof (sound_bounds f c l _ v Hs Hv) as Hvb. pose proof (q_frag_ok q Hq) as HFk.
  pose proof (placed_given l b p n v Hpl Hv Hgr) as Hpl'.
  set (v' := given v p n) in *. set (l' := <[Z.to_nat b := v']> l) in *.
  assert (Hv' : l' !! Z.to_nat b = Some v') by (apply list_lookup_insert_eq; by eapply lookup_lt_Some).
  destruct (dtogd_address b p) with (f := f) as (_ & _ & _ & E4 & _);
    [done|lia|done|apply Hsu..|]. 
  unfold blkfree_frag. rewrite E4, (a_frag _ _ _ _ _ _ _ Hsu), (a_swap _ _ _ _ _ _ _ Hsu), Z.add_simpl_r.
  rewrite (blkmap_blk F _ HFk _ l b v), Ok_bind by (done || apply Ha).
  destruct (fragacct_acct q Hq csp0 max0 f c v (-1) _ _ _ _ _ Ha Hvb) as (frsum & -> & A1).
  rewrite Ok_bind.
  rewrite (free_frags_set F _ HFk _ _ l b v p) by (done || lia || apply Ha || (rewrite Z2Nat.id; [done|lia])).
  destruct (set_frags_blk F _ HFk (Z.to_nat n) (cg_blksfree c) l b v p) as (map & -> & Hr & Hlen);
    [apply Ha|done..|lia|]. rewrite Ok_bind. rewrite Z2Nat.id in Hr by lia. fold v' l' in Hr.
  pose proof (map_acct q csp0 max0 f _ map _ _ _ _ l' _ A1 Hr Hlen) as A2.
  change (with_frags (with_frags c frsum (cg_blksfree c)) _ map) with (with_frags c frsum map) in A2.
  rewrite Z.max_r by lia.
  destruct (add_nffree_acct q Hq csp0 max0 f _ n _ _ _ _ _ A2) as (f1 & c1 & -> & A3). rewrite Ok_bind.
  pose proof A3 as [Hsu1 Hg1]. rewrite (a_frag _ _ _ _ _ _ _ Hsu1), (a_swap _ _ _ _ _ _ _ Hsu1).
  rewrite (blkmap_blk F _ HFk _ l' b v'), Ok_bind by (done || apply Hg1).
  destruct (fragacct_acct q Hq csp0 max0 f1 c1 v' 1 _ _ _ _ _ A3 Hvb') as (frsum1 & -> & A4).
  rewrite Ok_bind. set (c2 := with_frags c1 frsum1 _) in *.
  destruct (dtogd_address b 0) with (f := f1) as (_ & _ & E5 & _); [done|lia|done|apply Hsu1..|].
  rewrite Z.add_0_r in E5. rewrite E5, (a_fragshift _ _ _ _ _ _ _ Hsu1).
  rewrite (isblock_blk F _ HFk _ l' b v'), Ok_bind by (done || apply A4).
  destruct (is_full F v') eqn:Ef.
  - destruct (placed_full l' b v' Hpl' Hv' Hb Ef) as (HN & Hcl & _).
    destruct (add_nffree_acct q Hq csp0 max0 f1 c2 (- F) _ _ _ _ _ A4) as (f3 & c3 & -> & A5).
    rewrite Ok_bind. assert (Hcl0 : full_map l !! Z.to_nat b = Some false).
    { unfold full_map. rewrite list_lookup_fmap, lookup_take_lt, Hv by lia. simpl. by rewrite Hnf. }
    destruct (clusteracct_acct q Hq csp0 max0 f3 c3 (Z.to_nat b) true _ _ _ _ _ A5 Hcl0)
      as (f4 & c4 & E & A6 & _). rewrite Z2Nat.id in E by done. rewrite E, Ok_bind.
    destruct (add_nbfree_acct q Hq csp0 max0 f4 c4 1 _ _ _ _ _ A6) as (f5 & c5 & -> & A7).
    exists f5, c5. split; [done|]. eapply (sound_change f5 c5 l _ v v'); [done|exact A7|..|done].
    + unfold full_count. rewrite Ef, Hnf. simpl. lia.
    + unfold full_count in Hfree. rewrite Ef in Hfree. simpl in Hfree. lia.
    + intros k Hk. lia.
    + by rewrite full_map_insert, Ef.
  - exists f1, c2. split; [done|]. eapply (sound_change f1 c2 l _ v v'); [done|exact A4|..|done].
    + unfold full_count. rewrite Ef, Hnf. lia.
    + unfold full_count in Hfree. rewrite Ef in Hfree. simpl in Hfree. lia.
    + intros k Hk. lia.
    + symmetry. by apply (full_map_same l _ v v'); [|rewrite Ef, Hnf].
Qed.

Lemma whole_use v : 0 ≤ v < 2 ^ F → lacks v 0 F = (v =? 0) ∧ has v 0 F = is_full F v ∧
  given 0 0 F = full F ∧ taken (full F) 0 F = 0.
Proof using Hq.
  intros Hv. pose proof (whole_facts_ok F _ (q_frag_ok q Hq) v Hv) as Hw. unfold whole_facts in Hw.
  rewrite !andb_true_iff in Hw. destruct Hw as (((H1 & H2) & H3) & H4). zb.
  apply eqb_prop in H1, H2. done.
Qed.

(** Bytes and fragments. *)
Lemma numfrags_bytes f n : fs_fshift f = q_fshift q → ffs_numfrags f (Z.shiftl n (q_fshift q)) = n.
Proof using Hq.
  intros E. unfold ffs_numfrags. rewrite E. pose proof (q_fshift_pos q Hq).
  by rewrite Z.shiftr_shiftl_l, Z.sub_diag, Z.shiftl_0_r by done.
Qed.
Lemma bytes_eqb n m : (Z.shiftl n (q_fshift q) =? Z.shiftl m (q_fshift q)) = (n =? m).
Proof using Hq.
  pose proof (q_fshift_pos q Hq). rewrite !Z.shiftl_mul_pow2 by done.
  assert (0 < 2 ^ q_fshift q) by (by apply Z.pow_pos_nonneg).
  destruct (Z.eqb_spec n m) as [->|]; [apply Z.eqb_refl|]. apply Z.eqb_neq. nia.
Qed.
Lemma bytes_ltb n m : (Z.shiftl n (q_fshift q) <? Z.shiftl m (q_fshift q)) = (n <? m).
Proof using Hq.
  pose proof (q_fshift_pos q Hq). rewrite !Z.shiftl_mul_pow2 by done.
  assert (0 < 2 ^ q_fshift q) by (by apply Z.pow_pos_nonneg).
  destruct (Z.ltb_spec n m); [apply Z.ltb_lt|apply Z.ltb_ge]; nia.
Qed.
Lemma bytes_sub n m :
  Z.shiftl n (q_fshift q) - Z.shiftl m (q_fshift q) = Z.shiftl (n - m) (q_fshift q).
Proof using Hq. pose proof (q_fshift_pos q Hq). rewrite !Z.shiftl_mul_pow2 by done. lia. Qed.

(** A block that is in use as a whole becomes free. *)
Lemma give_block_ok f c l b : sound f c l → l !! Z.to_nat b = Some 0 → in_group b 0 F →
  ∃ map f1 c1 f2 c2, ffs_setblock (q_fragshift q) (cg_blksfree c) b = Ok map ∧
    ffs_clusteracct f (with_frags c (cg_frsum c) map) b 1 = Ok (f1, c1) ∧
    add_nbfree f1 c1 (q_cgx q) 1 = Ok (f2, c2) ∧ sound f2 c2 (<[Z.to_nat b := full F]> l).
Proof using Hlaws Hq.
  intros Hs Hv Hgr. pose proof Hs as [Ha Hpl]. pose proof Hgr as (Hb & _).
  pose proof (sound_bounds f c l _ 0 Hs Hv) as Hvb. destruct (whole_use 0 Hvb) as (_ & _ & E2 & _).
  destruct F_facts as (HF & _). destruct (zero_facts HF) as (Z1 & Z2 & Z3 & Z4 & Z5).
  destruct (setblock_blk F _ (q_frag_ok q Hq) _ l b 0 (a_map _ _ _ _ _ _ _ (proj2 Ha)) Hb Hv)
    as (map & E & Hr & Hlen).
  pose proof (map_acct q csp0 max0 f _ map _ _ _ _ _ _ Ha Hr Hlen) as A1.
  pose proof (placed_given l b 0 F 0 Hpl Hv Hgr) as Hpl'. rewrite E2 in Hpl'.
  destruct (placed_full _ b (full F) Hpl') as (HN & _);
    [apply list_lookup_insert_eq; by eapply lookup_lt_Some|done|apply full_is_full|].
  assert (Hcl0 : full_map l !! Z.to_nat b = Some (negb true)).
  { unfold full_map. rewrite list_lookup_fmap, lookup_take_lt, Hv by lia.
    change (Some (is_full F 0) = Some false). by rewrite Z1. }
  destruct (clusteracct_acct q Hq csp0 max0 f _ (Z.to_nat b) true _ _ _ _ _ A1 Hcl0)
    as (f1 & c1 & E1 & A2 & _). rewrite Z2Nat.id in E1 by done.
  destruct (add_nbfree_acct q Hq csp0 max0 f1 c1 1 _ _ _ _ _ A2) as (f2 & c2 & E3 & A3).
  exists map, f1, c1, f2, c2. do 3 (split; [done|]).
  eapply (sound_change f2 c2 l _ 0 (full F)); [done|exact A3|..|done].
  - unfold full_count. rewrite Z1, full_is_full. simpl. lia.
  - lia.
  - intros k Hk. rewrite Z3, Z5 by done. lia.
  - by rewrite full_map_insert, full_is_full.
Qed.

(** The end of the operations. *)
Lemma finish_ok f c l : sound f c l → ∃ f',
  activecg_clr (with_fmod f 1 (fs_active f)) (q_cgx q) = Ok f' ∧ sound f' c l.
Proof using Hlaws Hq. intros Hs. apply clr_sound. by apply with_fmod_sound. Qed.

(** Freeing fragments that are in use. *)
Lemma blkfree_ok f c l now b v p n snap : sound f c l → l !! Z.to_nat b = Some v → in_group b p n →
  lacks v p n = true →
  ∃ f' c', ffs_blkfree_common f c now (address b p) (Z.shiftl n (q_fshift q)) snap = Ok (f', c') ∧
    sound f' c' (<[Z.to_nat b := given v p n]> l).
Proof using Hlaws Hq.
  intros Hs0 Hv Hgr Hl. pose proof (stamp_sound f c now l Hs0) as Hs.
  pose proof (sound_super _ _ _ Hs) as Hsu. pose proof (in_group_block b p n Hgr) as Hin.
  pose proof Hgr as (Hb & Hp & Hn & Hpn & _). destruct F_facts as (HF & _).
  unfold ffs_blkfree_common. rewrite (a_bsize _ _ _ _ _ _ _ Hsu), bytes_eqb.
  destruct (dtogd_address b p) with (f := f) as (-> & -> & E3 & _);
    [done|lia|done|apply Hsu..|]. cbv zeta.
  destruct (Z.eqb_spec n F) as [->|Hne].
  - assert (p = 0) as -> by lia. rewrite Z.add_0_r in *. rewrite E3, (a_fragshift _ _ _ _ _ _ _ Hsu).
    pose proof (sound_bounds f _ l _ v Hs Hv) as Hvb. destruct (whole_use v Hvb) as (E1 & _ & E2 & _).
    rewrite E1 in Hl. apply Z.eqb_eq in Hl. subst v. rewrite E2 in *.
    rewrite (isfreeblock_blk F _ (q_frag_ok q Hq) _ l b 0), Ok_bind by (done || apply (sound_group _ _ _ Hs)).
    cbn [Z.eqb negb].
    destruct (give_block_ok f _ l b Hs Hv Hgr) as (map & f1 & c1 & f2 & c2 & -> & E & E' & Hs2).
    rewrite Ok_bind, E, Ok_bind, E', Ok_bind.
    destruct (finish_ok f2 c2 _ Hs2) as (f3 & E5 & ?). cbn [fst snd]. rewrite E5. by exists f3, c2.
  - rewrite numfrags_bytes by apply Hsu.
    destruct (blkfree_frag_ok f _ l b v p n Hs Hv Hgr Hl) as (f1 & c1 & -> & Hs1).
    rewrite Ok_bind. destruct (finish_ok f1 c1 _ Hs1) as (f2 & E & ?). cbn [fst snd]. rewrite E. by exists f2, c1.
Qed.

(** Freeing a fragment that is free is a panic, and leaves a snapshot's block alone. *)
Lemma blkfree_bad f c l now b v p n snap : sound f c l → l !! Z.to_nat b = Some v → in_group b p n →
  lacks v p n = false →
  ffs_blkfree_common f c now (address b p) (Z.shiftl n (q_fshift q)) snap =
    if snap && (n =? F) then Ok (f, stamp f c now) else Fault Panic.
Proof using Hlaws Hq.
  intros Hs0 Hv Hgr Hl. pose proof (stamp_sound f c now l Hs0) as Hs.
  pose proof (sound_super _ _ _ Hs) as Hsu. pose proof (in_group_block b p n Hgr) as Hin.
  pose proof Hgr as (Hb & Hp & Hn & Hpn & _). destruct F_facts as (HF & _).
  pose proof (sound_bounds f _ l _ v Hs Hv) as Hvb. pose proof (q_frag_ok q Hq) as HFk.
  unfold ffs_blkfree_common. rewrite (a_bsize _ _ _ _ _ _ _ Hsu), bytes_eqb.
  destruct (dtogd_address b p) with (f := f) as (-> & -> & E3 & E4 & _);
    [done|lia|done|apply Hsu..|]. cbv zeta.
  destruct (Z.eqb_spec n F) as [->|Hne].
  - assert (p = 0) as -> by lia. rewrite Z.add_0_r in *. rewrite E3, (a_fragshift _ _ _ _ _ _ _ Hsu).
    destruct (whole_use v Hvb) as (E1 & _). rewrite E1 in Hl.
    rewrite (isfreeblock_blk F _ HFk _ l b v), Hl, Ok_bind by (done || apply (sound_group _ _ _ Hs)).
    by destruct snap.
  - rewrite numfrags_bytes, andb_false_r by apply Hsu. unfold blkfree_frag.
    rewrite E4, (a_frag _ _ _ _ _ _ _ Hsu), (a_swap _ _ _ _ _ _ _ Hsu), Z.add_simpl_r.
    rewrite (blkmap_blk F _ HFk _ l b v), Ok_bind by (done || apply (sound_group _ _ _ Hs)).
    destruct (fragacct_acct q Hq csp0 max0 f _ v (-1) _ _ _ _ _ (proj1 Hs) Hvb) as (frsum & -> & _).
    rewrite Ok_bind, (free_frags_panic F _ HFk _ _ l b v p); [done|apply (sound_group _ _ _ Hs)|done..| |];
      rewrite Z2Nat.id by lia; [lia|done].
Qed.

(** ** ffs_alloccg *)

(** A place for [n] fragments. *)
Definition room (l : list Z) (n : Z) : Prop := ∃ (b : nat) v p, l !! b = Some v ∧ 0 ≤ p ∧ p + n ≤ F ∧
  has v p n = true.

Lemma take_use f c l b v p n : sound f c l → l !! Z.to_nat b = Some v → 0 ≤ p → 1 ≤ n → p + n ≤ F →
  take_facts F v p n = true.
Proof using Hlaws Hq.
  intros Hs Hv. apply (take_facts_ok F _ (q_frag_ok q Hq)). by apply (sound_bounds f c l (Z.to_nat b)).
Qed.

Lemma take_has f c l b v p n : sound f c l → l !! Z.to_nat b = Some v → 0 ≤ p → 1 ≤ n →
  p + n ≤ F → has v p n = true →
  0 ≤ taken v p n < 2 ^ F ∧ is_full F (taken v p n) = false ∧
  frag_free F (taken v p n) = frag_free F v + F * full_count F v - n ∧
  (∃ k, n ≤ k ≤ F ∧ frag_runs F k v ≠ 0) ∧ (is_full F v = true ∨ n ≤ frag_free F v) ∧
  (Z.testbit v (p - 1) = false → let e := run_to 10 v (p + n) F in
    p + n ≤ e ≤ F ∧ run_at v p (e - p) = true).
Proof using Hlaws Hq.
  intros Hs Hv Hp Hn Hpn Hh. pose proof (take_use f c l b v p n Hs Hv Hp Hn Hpn) as HT.
  unfold take_facts in HT. apply andb_true_iff in HT as [HT _]. rewrite Hh in HT. cbn [negb orb] in HT.
  rewrite !andb_true_iff, !orb_true_iff in HT.
  destruct HT as [[[[[[H1 H2] H3] H4] H5] H6] H7].
  apply negb_true_iff in H3. apply existsb_exists in H5 as (k & Hin & Hne).
  apply list_elem_of_In, elem_of_seqZ in Hin. zb.
  split; [lia|]. split; [done|]. split; [lia|]. split; [by exists k; split; [lia|]|].
  split; [destruct H6; [by left|right; lia]|]. intros Ht. destruct H7 as [|H7]; [congruence|].
  done.
Qed.

Lemma room_runs f c l n : sound f c l → 1 ≤ n → room l n →
  ∃ k, n ≤ k ≤ F ∧ ∃ (b : nat) v, l !! b = Some v ∧ frag_runs F k v ≠ 0.
Proof using Hlaws Hq.
  intros Hs Hn (b & v & p & Hv & Hp & Hpn & Hh). rewrite <-(Nat2Z.id b) in Hv.
  destruct (take_has f c l _ v p n Hs Hv Hp Hn Hpn Hh) as (_ & _ & _ & (k & Hk & Hne) & _).
  exists k. split; [done|]. rewrite Nat2Z.id in Hv. by exists b, v.
Qed.

Lemma runs_nonneg f c l k : sound f c l → 1 ≤ k ≤ F → ∀ v, v ∈ l → 0 ≤ frag_runs F k v ≤ F.
Proof using Hlaws Hq.
  intros Hs Hk v (b & Hv)%list_elem_of_lookup. by apply (block_use f c l b v).
Qed.
(** No runs of [k] fragments are counted when there are none. *)
Lemma no_runs f c l k : sound f c l → 1 ≤ k ≤ F → tally (frag_runs F k) l = 0 →
  ∀ (b : nat) v, l !! b = Some v → frag_runs F k v = 0.
Proof using Hlaws Hq.
  intros Hs Hk Ht b v Hv. pose proof (runs_nonneg f c l k Hs Hk) as Hr.
  pose proof (tally_term (frag_runs F k) l b v) as H1.
  destruct (Hr v) as [? _]; [by eapply list_elem_of_lookup_2|].
  assert (frag_runs F k v ≤ 0); [|lia]. rewrite <-Ht. apply H1; [|done]. intros w Hw. by apply Hr.
Qed.

Lemma alloc_size_ok f c l (fuel : nat) : ∀ k, sound f c l → 1 ≤ k ≤ F → F - k < Z.of_nat fuel →
  ∃ r, alloc_size fuel (cg_frsum c) k F = Ok r ∧ k ≤ r ≤ F ∧
    (r < F → ∃ (b : nat) v, l !! b = Some v ∧ frag_runs F r v ≠ 0) ∧
    (∀ j, k ≤ j < r → tally (frag_runs F j) l = 0).
Proof using Hlaws Hq.
  induction fuel as [|fuel IH]; intros k Hs Hk Hf; [lia|]. cbn [alloc_size].
  destruct (Z.ltb_spec k F); [|exists k; split; [done|]; split; [lia|]; split; lia].
  rewrite (counts_get ns 1 F (λ k, tally (frag_runs F k) l)), Ok_bind by (lia || apply (sound_group _ _ _ Hs)).
  assert (Hsm : is_u32 (tally (frag_runs F k) l)).
  { apply (tally_small f c l); [done|]. by apply (runs_nonneg f c l). }
  destruct (Z.eqb_spec (stored ns (tally (frag_runs F k) l)) 0) as [E|E]; simpl.
  - rewrite stored_0 in E by done. destruct (IH (k + 1)) as (r & -> & Hr & H1 & H2); [done|lia|lia|].
    exists r. split; [done|]. split; [lia|]. split; [done|]. intros j Hj.
    destruct (decide (j = k)) as [->|]; [done|apply H2; lia].
  - rewrite stored_0 in E by done. exists k. split; [done|]. split; [lia|]. split; [|lia].
    intros _. destruct Hsm. destruct (tally_pos (frag_runs F k) l) as (b & v & ? & ?); [lia|].
    exists b, v. split; [done|lia].
Qed.

(** Fragments [p] to [p + n - 1] of block [b], all free, are taken: number [blkno]. *)
Definition takes (l : list Z) (n blkno : Z) (l' : list Z) : Prop :=
  ∃ b p v, blkno = address b p ∧ 0 ≤ b ∧ 0 ≤ p ∧ p + n ≤ F ∧ l !! Z.to_nat b = Some v ∧
    has v p n = true ∧ l' = <[Z.to_nat b := taken v p n]> l.

Lemma has_inside v p n i : has v p n = true → p ≤ i < p + n → Z.testbit v i = true.
Proof using.
  unfold has. rewrite forallb_forall. intros Hh Hi. apply Hh, list_elem_of_In, elem_of_seqZ. lia.
Qed.
Lemma placed_taken l b v p n : placed l → l !! Z.to_nat b = Some v → 0 ≤ b → 0 ≤ p → 0 ≤ n →
  placed (<[Z.to_nat b := taken v p n]> l).
Proof using.
  intros Hp Hv Hb Hp0 Hn. apply (placed_insert l b v); [done..| |done]. intros i Hi Ht. left.
  unfold taken in Ht. rewrite Z.ldiff_spec in Ht. by apply andb_true_iff in Ht as [? _].
Qed.

(** Breaking up a block. *)
Lemma alloc_split_ok f c l bpref n flags : sound f c l → 0 ≤ bpref → 1 ≤ n < F → ¬ contig flags →
  ∃ f' c' blkno l', alloc_split f c (q_cgx q) bpref n flags = Ok (f', c', blkno) ∧ sound f' c' l' ∧
    ((blkno = 0 ∧ l' = l ∧ tally (full_count F) l = 0) ∨ takes l n blkno l').
Proof using Hlaws Hq.
  intros Hs Hbp Hn Hfl. unfold alloc_split. pose proof (sound_group _ _ _ Hs) as Hg.
  destruct F_facts as (HF & _). destruct (zero_facts HF) as (Z1 & Z2 & Z3 & Z4 & Z5).
  rewrite (a_nbfree _ _ _ _ _ _ _ Hg).
  assert (Hu : is_u32 (tally (full_count F) l)).
  { apply (tally_small f c l); [done|]. intros. by apply full_count_bounds. }
  destruct (Z.eqb_spec (stored ns (tally (full_count F) l)) 0) as [E|E]; rewrite stored_0 in E by done.
  { exists f, c, 0, l. split; [done|]. split; [done|]. by left. }
  destruct (alloccgblk_ok f c l bpref flags Hs Hbp) as (f1 & c1 & blkno & -> & [(_ & ? & _)|Hb]);
    [destruct Hu; lia|done|]. destruct Hb as (b & -> & Hb & Hv & Hs1). rewrite Ok_bind.
  pose proof Hs as [_ Hpl].
  destruct (placed_full l b (full F) Hpl Hv Hb full_is_full) as (_ & _ & Hin & _).
  pose proof Hs1 as [Ha1 Hpl1]. pose proof (sound_super _ _ _ Hs1) as Hsu1.
  destruct (dtogd_address b 0) with (f := f1) as (_ & -> & _); [done|lia|done|apply Hsu1..|].
  rewrite (a_frag _ _ _ _ _ _ _ Hsu1), Z.add_0_r.
  pose proof (split_facts_ok F _ (q_frag_ok q Hq) n Hn) as HSp. unfold split_facts in HSp.
  apply andb_true_iff in HSp as [Eg Hru]. apply Z.eqb_eq in Eg.
  assert (Hv0 : <[Z.to_nat b := 0]> l !! Z.to_nat b = Some 0)
    by (apply list_lookup_insert_eq; by eapply lookup_lt_Some).
  destruct (set_frags_blk F _ (q_frag_ok q Hq) (Z.to_nat (F - n)) (cg_blksfree c1) _ b 0 n
    (a_map _ _ _ _ _ _ _ (proj2 Ha1)) Hb Hv0) as (map & -> & Hr & Hlen); [lia|lia|].
  rewrite Z2Nat.id, list_insert_insert_eq in Hr by lia. rewrite Ok_bind.
  pose proof (map_acct q csp0 max0 f1 c1 map _ _ _ _ _ _ Ha1 Hr Hlen) as A2.
  destruct (add_nffree_acct q Hq csp0 max0 f1 _ (F - n) _ _ _ _ _ A2) as (f2 & c2 & -> & A3).
  rewrite Ok_bind. rewrite (a_swap _ _ _ _ _ _ _ (proj1 A3)).
  destruct (add_at_acct q csp0 max0 f2 c2 (F - n) 1 _ _ _ _ _ A3) as (frsum & -> & A4); [lia|].
  rewrite Ok_bind. change (Z.lor 0 (piece n (F - n))) with (given 0 n (F - n)) in A4.
  rewrite Eg in A4. set (v' := taken (full F) 0 n) in *. set (l' := <[Z.to_nat b := v']> l) in *.
  assert (Hh : has (full F) 0 n = true).
  { unfold has. apply forallb_forall. intros i Hi%list_elem_of_In%elem_of_seqZ.
    apply full_testbit; [apply full_is_full|lia]. }
  destruct (take_has f c l b (full F) 0 n Hs Hv) as (_ & Hnf & Hfr & _); [lia..|done|].
  fold v' in Hnf, Hfr. assert (Hs4 : sound f2 (with_frags c2 frsum (cg_blksfree c2)) l').
  { eapply (sound_change f2 _ l _ (full F) v'); [done|exact A4|..].
    - rewrite (tally_insert _ l _ (full F) 0) by done. unfold full_count. rewrite Hnf, Z1. lia.
    - unfold full_count in Hfr. rewrite full_is_full in Hfr. simpl in Hfr.
      rewrite (tally_insert _ l _ (full F) 0), Z2, Hfr, Z4 by done. lia.
    - intros k Hk. unfold bump. rewrite (tally_insert _ l _ (full F) 0), Z3, Z5 by done.
      rewrite forallb_forall in Hru. specialize (Hru k).
      apply Z.eqb_eq in Hru; [|apply list_elem_of_In, elem_of_seqZ; lia]. rewrite Hru.
      destruct (k =? F - n); simpl; lia.
    - unfold l'. by rewrite !full_map_insert, Hnf, Z1.
    - apply placed_taken; done || lia. }
  destruct (finish_ok f2 _ l' Hs4) as (f3 & -> & Hs3). rewrite Ok_bind.
  eexists f3, _, _, l'. split; [done|]. split; [done|]. right. exists b, 0, (full F).
  by rewrite Z.add_0_l; repeat split; try done; lia.
Qed.

(** Taking the front of a run of [k] fragments. *)
Lemma take_run f c l b v p n k : sound f c l → l !! Z.to_nat b = Some v → 0 ≤ p → 1 ≤ n ≤ k →
  k < F → p + k ≤ F → run_at v p k = true →
  has v p n = true ∧ is_full F v = false ∧ ∀ j, 1 ≤ j < F → frag_runs F j (taken v p n) =
    frag_runs F j v - Z.b2z (j =? k) + (if n =? k then 0 else Z.b2z (j =? k - n)).
Proof using Hlaws Hq.
  intros Hs Hv Hp Hn Hk Hpk Hrun. pose proof (take_use f c l b v p n Hs Hv Hp) as HT.
  unfold take_facts in HT. cbv zeta in HT. rewrite andb_true_iff, !forallb_forall in HT.
  destruct HT as [_ HT]; [lia..|]. specialize (HT k). rewrite Hrun in HT. cbn [negb orb] in HT.
  rewrite (proj2 (Z.ltb_ge _ _)) in HT by lia. cbn [orb] in HT.
  rewrite !andb_true_iff, negb_true_iff, forallb_forall in HT.
  destruct HT as [[Hh Hnf] Hj]; [apply list_elem_of_In, elem_of_seqZ; lia|].
  split; [done|]. split; [done|]. intros j Hj1. apply Z.eqb_eq, Hj.
  apply list_elem_of_In, elem_of_seqZ. lia.
Qed.

(** The accounts of such a change. *)
Definition run_counts (k n : Z) (fr : Z → Z) : Z → Z :=
  if n =? k then bump k (-1) fr else bump (k - n) 1 (bump k (-1) fr).
Lemma run_acct f c nb nf fr l cl k n : acct f c nb nf fr l cl → 1 ≤ n ≤ k → k < F →
  ∃ frsum frsum', add_at (cg_frsum c) k (-1) ns = Ok frsum ∧
    (if negb (n =? k) then add_at frsum (k - n) 1 ns else Ok frsum) = Ok frsum' ∧
    acct f (with_frags c frsum' (cg_blksfree c)) nb nf (run_counts k n fr) l cl.
Proof using Hlaws.
  intros Ha Hn Hk. destruct (add_at_acct q csp0 max0 f c k (-1) _ _ _ _ _ Ha) as (fs1 & E1 & A1); [lia|].
  unfold run_counts. destruct (Z.eqb_spec n k); simpl; [by exists fs1, fs1|].
  destruct (add_at_acct q csp0 max0 f _ (k - n) 1 _ _ _ _ _ A1) as (fs2 & E2 & A2); [lia|].
  by exists fs1, fs2.
Qed.
Lemma run_sound f c l b v p n k nb nf fr cl : sound f c l → l !! Z.to_nat b = Some v → 0 ≤ b →
  0 ≤ p → 1 ≤ n ≤ k → k < F → p + k ≤ F → run_at v p k = true → 
  ∀ f' c', acct f' c' nb nf fr (<[Z.to_nat b := taken v p n]> l) cl →
  nb = tally (full_count F) l → nf = tally (frag_free F) l - n →
  (∀ j, 1 ≤ j < F → fr j = run_counts k n (λ k, tally (frag_runs F k) l) j) → cl = full_map l →
  sound f' c' (<[Z.to_nat b := taken v p n]> l).
Proof using Hlaws Hq.
  intros Hs Hv Hb Hp Hn Hk Hpk Hrun f' c' Ha' -> -> Hfr ->.
  destruct (take_run f c l b v p n k) as (Hh & Hnf & Hru); [done..|].
  destruct (take_has f c l b v p n) as (_ & Hnf' & Hfree & _); [done..|lia|lia|done|].
  eapply (sound_change f' c' l _ v); [done|exact Ha'|..].
  - unfold full_count. rewrite Hnf, Hnf'. lia.
  - unfold full_count in Hfree. rewrite Hnf in Hfree. simpl in Hfree. lia.
  - intros j Hj. rewrite Hfr, Hru by done. unfold run_counts, bump.
    destruct (Z.eqb_spec n k), (Z.eqb_spec j k), (Z.eqb_spec j (k - n)); simpl; lia.
  - symmetry. apply (full_map_same l _ v); [done|]. by rewrite Hnf, Hnf'.
  - apply placed_taken; [apply Hs|done..|lia].
Qed.

(** Taking the front of a run that the search finds. *)
Lemma alloc_run_ok f c l bpref n k : sound f c l → 0 ≤ bpref → 1 ≤ n ≤ k → k < F →
  (∃ (b : nat) v, l !! b = Some v ∧ frag_runs F k v ≠ 0) →
  ∃ f' c' blkno l', alloc_run f c (q_cgx q) bpref n k = Ok (f', c', blkno) ∧ sound f' c' l' ∧
    takes l n blkno l'.
Proof using Hlaws Hq.
  intros Hs Hbp Hn Hk Hav. destruct (search_ok f c l bpref k Hs Hbp) as
    (c1 & bno & b & p & v & E & Hs1 & _ & _ & Hb & Hv & Hp & Hrun & _ & Hin & _); [lia|done|].
  unfold alloc_run. rewrite E, Ok_bind.
  destruct (take_run f c1 l b v p n k) as (Hh & _); [done|done|lia|done..|lia|done|].
  pose proof Hs1 as [Ha1 _].
  destruct (clr_frags_blk F _ (q_frag_ok q Hq) (Z.to_nat n) (cg_blksfree c1) l b v p
    (a_map _ _ _ _ _ _ _ (proj2 Ha1)) Hb Hv) as (map & -> & Hr & Hlen); [lia|lia|].
  rewrite Z2Nat.id in Hr by lia. rewrite Ok_bind.
  pose proof (map_acct q csp0 max0 f c1 map _ _ _ _ _ _ Ha1 Hr Hlen) as A2.
  destruct (add_nffree_acct q Hq csp0 max0 f _ (- n) _ _ _ _ _ A2) as (f2 & c2 & -> & A3).
  rewrite Ok_bind. rewrite (a_swap _ _ _ _ _ _ _ (proj1 A3)).
  destruct (run_acct f2 c2 _ _ _ _ _ k n A3 Hn Hk) as (fs1 & fs2 & -> & E2 & A4).
  rewrite Ok_bind, E2, Ok_bind.
  assert (Hs4 : sound f2 (with_frags c2 fs2 (cg_blksfree c2)) (<[Z.to_nat b := taken v p n]> l)).
  { eapply (run_sound f c1 l b v p n k); [done..|lia|done|done|lia|done|exact A4|done|lia|done|done]. }
  destruct (finish_ok f2 _ _ Hs4) as (f3 & -> & Hs3). rewrite Ok_bind.
  destruct (dtogd_address b p) with (f := f2) as (_ & _ & _ & _ & _ & _ & -> & _);
    [done|lia|done|apply A3..|].
  eexists f3, _, _, _. split; [done|]. split; [done|].
  exists b, p, v. repeat split; try done; lia.
Qed.

(** Nothing to take. *)
Lemma no_room f c l n : sound f c l → 1 ≤ n ≤ F → tally (full_count F) l = 0 →
  (∀ j, n ≤ j < F → tally (frag_runs F j) l = 0) → ¬ room l n.
Proof using Hlaws Hq.
  intros Hs Hn Ht Hr Hroom. destruct (room_runs f c l n Hs) as (k & Hk & b & v & Hv & Hne); [lia|done|].
  destruct (decide (k = F)) as [->|].
  - apply Hne. apply (block_use f c l b v); [done..|].
    pose proof (tally_term (full_count F) l b v) as H1. unfold full_count in *.
    destruct (is_full F v); [|done]. simpl in *. rewrite Ht in H1. exfalso.
    assert (1 ≤ 0); [|lia]. apply H1; [|done]. intros w _. destruct (is_full F w); simpl; lia.
  - apply Hne, (no_runs f c l k) with b; [done|lia|apply Hr; lia|done].
Qed.

(** The fragments that a block of a smaller size does not need are given back. *)
Lemma trim_ok f c l b now m : sound f c (<[Z.to_nat b := 0]> l) → placed l → 0 ≤ b →
  l !! Z.to_nat b = Some (full F) → 1 ≤ m < F → ∃ f' c',
  ffs_blkfree_common f c now (address b 0 + m) (Z.shiftl (F - m) (q_fshift q)) false = Ok (f', c') ∧
  sound f' c' (<[Z.to_nat b := taken (full F) 0 m]> l).
Proof using Hlaws Hq.
  intros Hs Hpl Hb Hv Hm. destruct F_facts as (HF & _).
  assert (Hv0 : <[Z.to_nat b := 0]> l !! Z.to_nat b = Some 0)
    by (apply list_lookup_insert_eq; by eapply lookup_lt_Some).
  destruct (Hpl b (full F) (F - 1) Hv Hb) as [Hin _]; [lia|apply full_testbit; [apply full_is_full|lia]|].
  assert (Hgr : in_group b m (F - m)) by (unfold in_group; nia).
  replace (address b 0 + m) with (address b m) by (unfold address; lia).
  destruct (blkfree_ok f c _ now b 0 m (F - m) false Hs Hv0 Hgr) as (f' & c' & -> & Hs').
  { unfold lacks. apply forallb_forall. intros i _. by rewrite Z.testbit_0_l. }
  exists f', c'. split; [done|]. rewrite list_insert_insert_eq in Hs'.
  pose proof (split_facts_ok F _ (q_frag_ok q Hq) m Hm) as HSp. unfold split_facts in HSp.
  apply andb_true_iff in HSp as [Eg _]. apply Z.eqb_eq in Eg. by rewrite Eg in Hs'.
Qed.

(** Allocation of a block. *)
Lemma alloc_block_ok f c l now bpref m flags : sound f c l → 0 ≤ bpref → 0 ≤ m →
  0 < tally (full_count F) l → (contig flags → m = 0 ∨ F ≤ m) →
  let want := if (0 <? m) && (m <? F) then m else F in
  ∃ f' c' blkno l',
    ('(f, c, blkno) ← ffs_alloccgblk f c bpref flags;
     f ← activecg_clr f (q_cgx q);
     '(f, c) ←
       (if negb (Z.shiftl m (q_fshift q) =? 0) && (Z.shiftl m (q_fshift q) <? Z.shiftl F (q_fshift q)) then
          ffs_blkfree_common f c now (blkno + ffs_numfrags f (Z.shiftl m (q_fshift q)))
            (Z.shiftl F (q_fshift q) - Z.shiftl m (q_fshift q)) false
        else Ok (f, c));
     Ok (f, c, blkno)) = Ok (f', c', blkno) ∧ sound f' c' l' ∧
    ((blkno = 0 ∧ l' = l ∧ contig flags) ∨ takes l want blkno l').
Proof using Hlaws Hq.
  intros Hs Hbp Hm Hav Hfl want. destruct F_facts as (HF & _).
  assert (Htest : negb (Z.shiftl m (q_fshift q) =? 0) = negb (m =? 0)).
  { rewrite <-(Z.shiftl_0_l (q_fshift q)) at 1. by rewrite bytes_eqb. }
  rewrite Htest, bytes_ltb, bytes_sub.
  destruct (alloccgblk_ok f c l bpref flags Hs Hbp Hav) as (f1 & c1 & blkno & -> & [Hfail|Hb]).
  - destruct Hfail as (-> & Hc & -> & ->). rewrite Ok_bind.
    destruct (clr_sound f c l Hs) as (f2 & -> & Hs2). rewrite Ok_bind.
    assert (negb (m =? 0) && (m <? F) = false) as ->.
    { destruct (Hfl Hc) as [->|]; [done|]. rewrite (proj2 (Z.ltb_ge _ _)) by lia. apply andb_false_r. }
    rewrite Ok_bind. exists f2, c, 0, l. split; [done|]. split; [done|]. by left.
  - destruct Hb as (b & -> & Hb & Hv & Hs1). rewrite Ok_bind.
    destruct (clr_sound _ _ _ Hs1) as (f2 & -> & Hs2). rewrite Ok_bind.
    assert (Hh : ∀ k, k ≤ F → has (full F) 0 k = true).
    { intros k Hk. unfold has. apply forallb_forall. intros i Hi%list_elem_of_In%elem_of_seqZ.
      apply full_testbit; [apply full_is_full|lia]. }
    assert (Hwhole : takes l F (address b 0) (<[Z.to_nat b := 0]> l)).
    { exists b, 0, (full F). destruct (whole_use (full F)) as (_ & _ & _ & ->);
        [by apply (sound_bounds f c l (Z.to_nat b))|]. by repeat split; try done; try lia; apply Hh; lia. }
    unfold want. destruct (Z.eqb_spec m 0) as [->|Hm0]; cbn [negb andb].
    { exists f2, c1, (address b 0), (<[Z.to_nat b := 0]> l). split; [done|]. split; [done|]. by right. }
    rewrite (proj2 (Z.ltb_lt 0 m)) by lia. cbn [andb]. destruct (Z.ltb_spec m F).
    + rewrite numfrags_bytes by apply (sound_super _ _ _ Hs2).
      destruct (trim_ok f2 c1 l b now m Hs2) as (f3 & c3 & -> & Hs3); [apply Hs|done..|lia|].
      rewrite Ok_bind. exists f3, c3, (address b 0), (<[Z.to_nat b := taken (full F) 0 m]> l).
      split; [done|]. split; [done|]. right. exists b, 0, (full F).
      by repeat split; try done; try lia; apply Hh; lia.
    + exists f2, c1, (address b 0), (<[Z.to_nat b := 0]> l). split; [done|]. split; [done|]. by right.
Qed.

(** [ffs_alloccg] in a sound group: it takes what it reports, and reports nothing only
    when there is nothing of the size. *)
Lemma alloccg_ok f c l now bpref n m flags : sound f c l → 0 ≤ bpref → 1 ≤ n ≤ F → 0 ≤ m →
  (contig flags → n = F ∧ (m = 0 ∨ F ≤ m)) →
  let want := if (n =? F) && ((0 <? m) && (m <? F)) then m else n in
  ∃ f' c' blkno l',
    ffs_alloccg f (Some c) (q_cgx q) now bpref (Z.shiftl n (q_fshift q)) (Z.shiftl m (q_fshift q)) flags =
      Ok (f', Some c', blkno) ∧ sound f' c' l' ∧
    ((blkno = 0 ∧ l' = l ∧ (cg_magic_ok c = true → ¬ contig flags → ¬ room l n)) ∨
     (cg_magic_ok c = true ∧ takes l want blkno l')).
Proof using Hlaws Hq.
  intros Hs Hbp Hn Hm Hfl want. pose proof (sound_super _ _ _ Hs) as Hsu.
  pose proof (sound_group _ _ _ Hs) as Hg. destruct F_facts as (HF & _).
  assert (Hu : is_u32 (tally (full_count F) l)).
  { apply (tally_small f c l); [done|]. intros. by apply full_count_bounds. }
  assert (Hno : n = F → tally (full_count F) l = 0 → ¬ room l n).
  { intros -> Ht. apply (no_room f c l); [done|lia|done|lia]. }
  unfold ffs_alloccg. rewrite (a_csp _ _ _ _ _ _ _ Hsu), (a_bsize _ _ _ _ _ _ _ Hsu), bytes_eqb.
  pose proof (a_csp0 _ _ _ _ _ _ _ Hsu). pose proof (q_cgx_u32 q Hq) as [Hx _].
  rewrite (proj2 (get_Ok _ (q_cgx q) (Csum (tally (full_count F) l) (tally (frag_free F) l))))
    by (split; [done|by rewrite list_lookup_insert_eq by lia]).
  rewrite Ok_bind. cbn [cs_nbfree]. rewrite (a_nbfree _ _ _ _ _ _ _ Hg).
  destruct (Z.eqb_spec n F) as [HnF|HnF].
  - rewrite !andb_true_r. destruct (Z.eqb_spec (tally (full_count F) l) 0) as [Et|Et].
    { exists f, c, 0, l. split; [done|]. split; [done|]. left. split; [done|]. split; [done|].
      intros _ _. by apply Hno. }
    destruct (cg_magic_ok c); [|by exists f, c, 0, l; split; [done|]; split; [done|]; left].
    rewrite (proj2 (Z.eqb_neq _ _)) by (by rewrite stored_0). cbn [negb orb].
    pose proof (stamp_sound f c now l Hs) as Hs1. subst n.
    destruct (alloc_block_ok f (stamp f c now) l now bpref m flags Hs1 Hbp Hm) as
      (f' & c' & blkno & l' & E & Hs' & Hout); [destruct Hu; lia|intros; by apply Hfl|].
    rewrite E. rewrite Ok_bind.
    exists f', c', blkno, l'. split; [done|]. split; [done|].
    destruct Hout as [(-> & -> & ?)|?]; [left|by right]. done.
  - rewrite !andb_false_r, orb_false_r.
    destruct (cg_magic_ok c); [|by exists f, c, 0, l; split; [done|]; split; [done|]; left].
    cbn [negb]. pose proof (stamp_sound f c now l Hs) as Hs1.
    rewrite numfrags_bytes, (a_frag _ _ _ _ _ _ _ Hsu) by apply Hsu.
    destruct (alloc_size_ok f (stamp f c now) l 10 n Hs1 Hn) as (k & -> & Hk & Hav & Hnone);
      [destruct F_facts; lia|]. rewrite Ok_bind.
    assert (Hfl' : ¬ contig flags) by (intros Hc; by destruct (Hfl Hc)).
    destruct (Z.eqb_spec k F) as [->|HkF].
    + destruct (alloc_split_ok f _ l bpref n flags Hs1 Hbp) as (f' & c' & blkno & l' & -> & Hs' & Hout);
        [lia|done|]. rewrite Ok_bind. exists f', c', blkno, l'. split; [done|]. split; [done|].
      destruct Hout as [(-> & -> & Ht)|?]; [left|by right]. split; [done|]. split; [done|].
      intros _ _. by apply (no_room f c l).
    + destruct (alloc_run_ok f _ l bpref n k Hs1 Hbp) as (f' & c' & blkno & l' & -> & Hs' & Hout);
        [lia|lia|apply Hav; lia|]. rewrite Ok_bind. exists f', c', blkno, l'.
      split; [done|]. split; [done|]. by right.
Qed.

(** ** ffs_blkalloc_ump *)

Lemma claim_block_ok f c l b v : sound f c l → 0 ≤ b → l !! Z.to_nat b = Some v →
  ∃ f' c', claim_block f c (q_cgx q) b = Ok (f', c', if is_full F v then 0 else EBUSY) ∧
    sound f' c' (if is_full F v then <[Z.to_nat b := 0]> l else l).
Proof using Hlaws Hq.
  intros Hs Hb Hv. unfold claim_block. rewrite (a_fragshift _ _ _ _ _ _ _ (sound_super _ _ _ Hs)).
  rewrite (isblock_blk F _ (q_frag_ok q Hq) _ l b v), Ok_bind by (done || apply (sound_group _ _ _ Hs)).
  destruct (is_full F v) eqn:Ef; simpl; [|by exists f, c].
  apply Z.eqb_eq in Ef. subst v.
  destruct (clear_block_ok f c l b Hs Hb Hv) as (map & f1 & c1 & f2 & c2 & -> & E & _ & E2 & Hs2).
  rewrite Ok_bind, E, Ok_bind, E2, Ok_bind. by exists f2, c2.
Qed.

(** A block that is broken up is no longer counted as free. *)
Lemma break_ok f c l b v : sound f c l → 0 ≤ b → l !! Z.to_nat b = Some v →
  ∃ f' c', (if is_full F v then
       '(f, c) ← add_nffree f c (q_cgx q) F;
       '(f, c) ← ffs_clusteracct f c b (-1);
       add_nbfree f c (q_cgx q) (-1)
     else Ok (f, c)) = Ok (f', c') ∧
    acct f' c' (tally (full_count F) l - full_count F v) (tally (frag_free F) l + F * full_count F v)
      (λ k, tally (frag_runs F k) l) l (<[Z.to_nat b := false]> (full_map l)).
Proof using Hlaws Hq.
  intros Hs Hb Hv. pose proof Hs as [Ha Hpl]. unfold full_count at 2 3.
  destruct (is_full F v) eqn:Ef; simpl.
  - destruct (placed_full l b v Hpl Hv Hb Ef) as (HN & Hcl & _).
    destruct (add_nffree_acct q Hq csp0 max0 f c F _ _ _ _ _ Ha) as (f1 & c1 & -> & A1). rewrite Ok_bind.
    destruct (clusteracct_acct q Hq csp0 max0 f1 c1 (Z.to_nat b) false _ _ _ _ _ A1 Hcl)
      as (f2 & c2 & E2 & A2 & _). rewrite Z2Nat.id in E2 by done. rewrite E2, Ok_bind.
    destruct (add_nbfree_acct q Hq csp0 max0 f2 c2 (-1) _ _ _ _ _ A2) as (f3 & c3 & -> & A3).
    exists f3, c3. split; [done|]. by rewrite Z.mul_1_r.
  - exists f, c. split; [done|]. rewrite Z.mul_0_r, Z.sub_0_r, Z.add_0_r.
    replace (<[Z.to_nat b := false]> (full_map l)) with (full_map l); [done|].
    rewrite <-Ef, <-full_map_insert. by rewrite list_insert_id.
Qed.

Lemma claim_frags_ok f c l b v p n : sound f c l → l !! Z.to_nat b = Some v → 0 ≤ b → 0 ≤ p →
  1 ≤ n → p + n ≤ F → b * F + F ≤ q_fpg q →
  ∃ f' c', claim_frags f c (q_cgx q) (b * F + p) n = Ok (f', c', if has v p n then 0 else EBUSY) ∧
    sound f' c' (if has v p n then <[Z.to_nat b := taken v p n]> l else l).
Proof using Hlaws Hq.
  intros Hs Hv Hb Hp Hn Hpn Hin. pose proof (sound_super _ _ _ Hs) as Hsu.
  pose proof (sound_group _ _ _ Hs) as Hg. pose proof (q_frag_ok q Hq) as HFk.
  destruct F_facts as (HF & _). pose proof (sound_bounds f c l _ v Hs Hv) as Hvb.
  destruct (dtogd_address b p) with (f := f) as (_ & _ & _ & E4 & _); [done|lia|done|apply Hsu..|].
  destruct (dtogd_address b 0) with (f := f) as (_ & _ & E5 & _); [done|lia|done|apply Hsu..|].
  rewrite Z.add_0_r in E5. unfold claim_frags. rewrite E4, Z.add_simpl_r, E5.
  rewrite (all_set_blk F _ HFk _ _ l b v p), Ok_bind by (done || lia || apply Hg).
  rewrite Z2Nat.id by lia. destruct (has v p n) eqn:Hh; simpl; [|by exists f, c].
  rewrite (a_fragshift _ _ _ _ _ _ _ Hsu), (isblock_blk F _ HFk _ l b v), Ok_bind by (done || apply Hg).
  rewrite (a_frag _ _ _ _ _ _ _ Hsu). cbn [negb].
  destruct (break_ok f c l b v Hs Hb Hv) as (f1 & c1 & -> & A1). rewrite Ok_bind.
  rewrite (a_frag _ _ _ _ _ _ _ (proj1 A1)), (a_swap _ _ _ _ _ _ _ (proj1 A1)).
  rewrite (blkmap_blk F _ HFk _ l b v), Ok_bind by (done || apply A1).
  destruct (fragacct_acct q Hq csp0 max0 f1 c1 v (-1) _ _ _ _ _ A1 Hvb) as (frsum & -> & A2).
  rewrite Ok_bind.
  destruct (clr_frags_blk F _ HFk (Z.to_nat n) (cg_blksfree c1) l b v p
    (a_map _ _ _ _ _ _ _ (proj2 A1)) Hb Hv) as (map & -> & Hr & Hlen); [lia|lia|].
  rewrite Z2Nat.id in Hr by lia. rewrite Ok_bind.
  pose proof (map_acct q csp0 max0 f1 _ map _ _ _ _ _ _ A2 Hr Hlen) as A3.
  change (with_frags (with_frags c1 frsum (cg_blksfree c1)) _ map) with (with_frags c1 frsum map) in A3.
  rewrite Z.max_r by lia.
  destruct (add_nffree_acct q Hq csp0 max0 f1 _ (- n) _ _ _ _ _ A3) as (f2 & c2 & -> & A4).
  rewrite Ok_bind. rewrite (a_frag _ _ _ _ _ _ _ (proj1 A4)), (a_swap _ _ _ _ _ _ _ (proj1 A4)).
  destruct (take_has f c l b v p n) as (Hvb' & Hnf & Hfree & _); [done..|].
  change (Z.ldiff v (piece p n)) with (taken v p n) in A4. set (v' := taken v p n) in *.
  rewrite (blkmap_blk F _ HFk _ (<[Z.to_nat b := v']> l) b v'), Ok_bind; [|apply A4|done|];
    [|apply list_lookup_insert_eq; by eapply lookup_lt_Some].
  destruct (fragacct_acct q Hq csp0 max0 f2 c2 v' 1 _ _ _ _ _ A4 Hvb') as (frsum2 & -> & A5).
  rewrite Ok_bind. eexists f2, _. split; [done|].
  eapply (sound_change f2 _ l _ v v'); [done|exact A5|..].
  - unfold full_count. rewrite Hnf. simpl. lia.
  - lia.
  - intros k Hk. lia.
  - by rewrite full_map_insert, Hnf.
  - apply placed_taken; [apply Hs|done..|lia].
Qed.

Lemma size_test b p n : 0 ≤ p → 1 ≤ n → p + n ≤ F → address b p < q_size q →
  (u32 (Z.shiftl n (q_fshift q)) <=? Z.shiftl F (q_fshift q)) &&
    (Z.shiftl n (q_fshift q) .& Z.ones (q_fshift q) =? 0) && (p + n <=? F) &&
    (address b p <? q_size q) = true.
Proof using Hq.
  intros Hp Hn Hpn Hsz.
  pose proof (q_fshift_pos q Hq) as Hfs. assert (0 < 2 ^ q_fshift q) by (by apply Z.pow_pos_nonneg).
  rewrite !andb_true_iff, Z.land_ones, !Z.shiftl_mul_pow2, Z.mod_mul by lia.
  assert (u32 (n * 2 ^ q_fshift q) ≤ n * 2 ^ q_fshift q) by (apply Z.mod_le; nia).
  zb. repeat split; try done; nia.
Qed.

(** Claiming given fragments: all of them are free, or none is taken. *)
Lemma blkalloc_ok f c l err now b p n v : sound f c l → l !! Z.to_nat b = Some v → 0 ≤ b → 0 ≤ p →
  1 ≤ n → p + n ≤ F → b * F + F ≤ q_fpg q → address b p < q_size q →
  let e := if cg_magic_ok c then if has v p n then 0 else EBUSY else EIO in
  ∃ f' c', ffs_blkalloc_ump f (Some c) err now (address b p) (Z.shiftl n (q_fshift q)) =
      Ok (f', Some c', e) ∧
    sound f' c' (if e =? 0 then <[Z.to_nat b := taken v p n]> l else l).
Proof using Hlaws Hq.
  intros Hs Hv Hb Hp Hn Hpn Hin Hsz e. pose proof (sound_super _ _ _ Hs) as Hsu.
  pose proof (q_fshift_pos q Hq) as Hfs. destruct F_facts as (HF & _).
  destruct (dtogd_address b p) with (f := f) as (Ed & Eg & E3 & _ & E5 & _);
    [done|lia|done|apply Hsu..|].
  unfold ffs_blkalloc_ump. rewrite (a_bsize _ _ _ _ _ _ _ Hsu), bytes_eqb, numfrags_bytes by apply Hsu.
  rewrite (a_fshift _ _ _ _ _ _ _ Hsu), (a_frag _ _ _ _ _ _ _ Hsu), E5, (a_size _ _ _ _ _ _ _ Hsu).
  rewrite size_test by done. cbn [negb]. unfold e. destruct (cg_magic_ok c) eqn:Em; cbn [negb]; [|by exists f, c].
  pose proof (stamp_sound f c now l Hs) as Hs1. rewrite Ed, Eg. cbv zeta.
  assert (Hclaim : ∃ f' c', (if n =? F then claim_block f (stamp f c now) (q_cgx q) (ffs_fragstoblks f (b * F + p))
    else claim_frags f (stamp f c now) (q_cgx q) (b * F + p) n) =
      Ok (f', c', if has v p n then 0 else EBUSY) ∧
    sound f' c' (if has v p n then <[Z.to_nat b := taken v p n]> l else l)).
  { rewrite E3. destruct (Z.eqb_spec n F) as [->|]; [|by apply claim_frags_ok].
    assert (p = 0) as -> by lia. pose proof (sound_bounds f c l _ v Hs Hv) as Hvb.
    destruct (whole_use v Hvb) as (_ & -> & _). destruct (whole_use v Hvb) as (_ & _ & _ & E0).
    destruct (claim_block_ok f _ l b v Hs1 Hb Hv) as (f' & c' & E & Hs'). exists f', c'.
    split; [done|]. destruct (is_full F v) eqn:Ef; [|done]. apply Z.eqb_eq in Ef. subst v.
    by rewrite E0. }
  destruct Hclaim as (f1 & c1 & -> & Hs2). rewrite Ok_bind.
  destruct (has v p n); cbn [Z.eqb negb]; [|by exists f1, c1].
  destruct (finish_ok f1 c1 _ Hs2) as (f2 & -> & Hs3). by exists f2, c1.
Qed.

(** ** ffs_fragextend *)

Lemma fragnum_mod f x : fs_frag f = F → ffs_fragnum f x = x mod F.
Proof using Hq.
  intros E. unfold ffs_fragnum. rewrite E. pose proof (q_frag_ok q Hq) as Hk.
  generalize (q_frag q) (q_fragshift q) Hk. intros F0 s0 Hk0.
  assert (HF : F0 = 2 ^ s0 ∧ 0 ≤ s0) by (by_frag Hk0; lia). destruct HF as [-> ?].
  replace (2 ^ s0 - 1) with (Z.ones s0) by (rewrite Z.ones_equiv; lia). by apply Z.land_ones.
Qed.

(** The run behind the fragments is cut. *)
Lemma extend_run_ok f c l b p o n v : sound f c l → l !! Z.to_nat b = Some v → 0 ≤ b → 0 ≤ p →
  1 ≤ o < n → p + n ≤ F → has v (p + o) (n - o) = true →
  (let e := run_to 10 v (p + n) F in p + n ≤ e ≤ F ∧ run_at v (p + o) (e - (p + o)) = true) →
  ∃ i frsum frsum' map f' c', run_end 10 (cg_blksfree c) (b * F + p) n (F - p) = Ok i ∧
    add_at (cg_frsum c) (i - o) (-1) ns = Ok frsum ∧
    (if negb (i =? n) then add_at frsum (i - n) 1 ns else Ok frsum) = Ok frsum' ∧
    clr_frags (Z.to_nat (n - o)) (cg_blksfree c) (b * F + p + o) = Ok map ∧
    add_nffree f (with_frags c frsum' map) (q_cgx q) (- Z.max 0 (n - o)) = Ok (f', c') ∧
    sound f' c' (<[Z.to_nat b := taken v (p + o) (n - o)]> l).
Proof using Hlaws Hq.
  intros Hs Hv Hb Hp Ho Hpn Hh [He Hrun]. pose proof Hs as [Ha _].
  pose proof (sound_group _ _ _ Hs) as Hg. destruct F_facts as (HF & _ & _ & HF8).
  set (e := run_to 10 v (p + n) F) in *. pose proof (q_frag_ok q Hq) as HFk.
  destruct (run_acct f c _ _ _ _ _ (e - (p + o)) (n - o) Ha) as (fs1 & fs2 & E1 & E2 & A1); [lia|lia|].
  destruct (clr_frags_blk F _ HFk (Z.to_nat (n - o)) (cg_blksfree c) l b v (p + o)
    (a_map _ _ _ _ _ _ _ Hg) Hb Hv) as (map & E3 & Hr & Hlen); [lia|lia|].
  rewrite Z2Nat.id in Hr by lia.
  pose proof (map_acct q csp0 max0 f _ map _ _ _ _ _ _ A1 Hr Hlen) as A2.
  change (with_frags (with_frags c fs2 (cg_blksfree c)) _ map) with (with_frags c fs2 map) in A2.
  destruct (add_nffree_acct q Hq csp0 max0 f _ (- Z.max 0 (n - o)) _ _ _ _ _ A2) as (f2 & c2 & E4 & A3).
  exists (e - p), fs1, fs2, map, f2, c2. split.
  { rewrite (run_end_blk F _ HFk 10 _ l b v p) by (done || lia || apply Hg).
    by replace (p + (F - p)) with F by lia. }
  replace (e - p - o) with (e - (p + o)) by lia. split; [done|]. split.
  { replace (e - p =? n) with (n - o =? e - (p + o)).
    - by replace (e - p - n) with (e - (p + o) - (n - o)) by lia.
    - apply eq_true_iff_eq. rewrite !Z.eqb_eq. lia. }
  split; [by rewrite <-Z.add_assoc|]. split; [done|].
  eapply (run_sound f c l b v (p + o) (n - o) (e - (p + o)));
    [done..|lia|lia|lia|lia|done|exact A3|done|lia|done|done].
Qed.

(** Fragments [p] to [p + o - 1] of block [b] grow to [n], in their block and when those
    behind them are free. *)
Lemma fragextend_ok f c l now b p o n v : sound f c l → l !! Z.to_nat b = Some v → 0 ≤ b → 0 ≤ p →
  1 ≤ o < n → n ≤ F → p + o ≤ F → b * F + F ≤ q_fpg q → Z.testbit v (p + o - 1) = false →
  let ok := cg_magic_ok c && (p + n <=? F) && has v (p + o) (n - o) in
  ∃ f' c', ffs_fragextend f (Some c) (q_cgx q) now (address b p) (Z.shiftl o (q_fshift q))
      (Z.shiftl n (q_fshift q)) = Ok (f', Some c', if ok then address b p else 0) ∧
    sound f' c' (if ok then <[Z.to_nat b := taken v (p + o) (n - o)]> l else l).
Proof using Hlaws Hq.
  intros Hs Hv Hb Hp Ho Hn Hpo Hin Ht ok. pose proof (sound_super _ _ _ Hs) as Hsu.
  pose proof (sound_group _ _ _ Hs) as Hg. pose proof (q_frag_ok q Hq) as HFk.
  destruct F_facts as (HF & _ & _ & HF8). pose proof (q_cgx_u32 q Hq) as [Hx _].
  pose proof (a_csp0 _ _ _ _ _ _ _ Hsu).
  destruct (dtogd_address b p) with (f := f) as (_ & Eg & _ & _ & E5 & _);
    [done|lia|done|apply Hsu..|].
  unfold ffs_fragextend. rewrite (a_csp _ _ _ _ _ _ _ Hsu).
  rewrite (proj2 (get_Ok _ (q_cgx q) (Csum (tally (full_count F) l) (tally (frag_free F) l))))
    by (split; [done|by rewrite list_lookup_insert_eq by lia]).
  rewrite Ok_bind, bytes_sub, !numfrags_bytes by apply Hsu. cbn [cs_nffree].
  assert (Hfree : p + n ≤ F → has v (p + o) (n - o) = true → n - o ≤ tally (frag_free F) l ∧
    is_full F v = false ∧ let e := run_to 10 v (p + n) F in
    p + n ≤ e ≤ F ∧ run_at v (p + o) (e - (p + o)) = true).
  { intros Hpn Hh. destruct (take_has f c l b v (p + o) (n - o)) as (_ & _ & _ & _ & Hff & Hrun); [done..|lia|lia|lia|done|].
    assert (Hnf : is_full F v = false).
    { destruct (is_full F v) eqn:Ef; [|done]. rewrite (full_testbit v (p + o - 1) Ef) in Ht by lia. done. }
    replace (p + o + (n - o)) with (p + n) in Hrun by lia. split; [|split; [done|by apply Hrun]].
    pose proof (tally_term (frag_free F) l (Z.to_nat b) v) as H1.
    destruct Hff as [?|Hff]; [congruence|]. assert (frag_free F v ≤ tally (frag_free F) l); [|lia].
    apply H1; [|done]. intros w (i & Hi)%list_elem_of_lookup. by apply (block_use f c l i w). }
  rewrite E5, fragnum_mod by apply Hsu.
  assert (Ea : (address b p + n - 1) mod F = if p + n <=? F then p + n - 1 else p + n - 1 - F).
  { assert (Em : address b p mod F = p) by (by rewrite <-(fragnum_mod f) by apply Hsu).
    pose proof (Z.div_mod (address b p) F ltac:(lia)) as Ed. rewrite Em in Ed.
    destruct (Z.leb_spec (p + n) F); symmetry.
    - apply (Z.mod_unique _ _ (address b p / F)); lia.
    - apply (Z.mod_unique _ _ (address b p / F + 1)); lia. }
  rewrite Ea. clear Ea. destruct (Z.ltb_spec (tally (frag_free F) l) (n - o)) as [Hlt|Hge].
  { assert (ok = false) as ->; [|by exists f, c]. unfold ok.
    destruct (Z.leb_spec (p + n) F); [|by rewrite andb_false_r].
    destruct (has v (p + o) (n - o)); [|by rewrite andb_false_r]. destruct (Hfree ltac:(done) eq_refl). lia. }
  rewrite Z.gtb_ltb. unfold ok. clear ok. destruct (Z.leb_spec (p + n) F) as [Hpn|Hpn].
  2:{ rewrite (proj2 (Z.ltb_lt _ _)) by lia. exists f, c. by rewrite andb_false_r. }
  rewrite (proj2 (Z.ltb_ge _ _)), andb_true_r by lia.
  destruct (cg_magic_ok c); cbn [negb andb]; [|by exists f, c].
  pose proof (stamp_sound f c now l Hs) as Hs1. rewrite Eg. cbv zeta.
  rewrite <-Z.add_assoc, (all_set_blk F _ HFk _ _ l b v (p + o)), Ok_bind by (done || lia || apply Hg).
  rewrite Z2Nat.id by lia. destruct (has v (p + o) (n - o)) eqn:Hh; cbn [negb];
    [|by exists f, (stamp f c now)].
  destruct (extend_run_ok f (stamp f c now) l b p o n v Hs1 Hv Hb Hp Ho Hpn Hh) as
    (i & fs1 & fs2 & map & f2 & c2 & E & E1 & E2 & E3 & E4 & Hs2); [by apply Hfree|].
  rewrite (a_frag _ _ _ _ _ _ _ Hsu), (a_swap _ _ _ _ _ _ _ Hsu), E, Ok_bind, E1, Ok_bind, E2, Ok_bind.
  rewrite <-Z.add_assoc in E3. rewrite E3, Ok_bind, E4, Ok_bind.
  destruct (finish_ok f2 c2 _ Hs2) as (f3 & -> & Hs3). by exists f3, c2.
Qed.
End sys.
