(* ===== verification/FfsVol.v ===== *)
(** * Allocation on a file system (for ffs_hashalloc of ufs/ffs/ffs_alloc.c)

    The cylinder overflow algorithm asks every group, so that it fails only when no
    group has room; over the allocator of data it keeps every group of the file
    system sound. *)

From S2P Require Import Prelude FfsMap FfsMapSpec FfsAlloc FfsFragSpec FfsCluster.
From S2P Require Import FfsSearch FfsAcct FfsSys.

(** ** Every group is asked *)

Section hash.
Context {S : Type} (allocator : S → Z → Z → res (S * Z)) (ncg : Z) (pref0 : Z).
Context (P : S → Prop) (Q : S → Z → Prop) (done_at : Z → Prop).

(** An allocator that fails leaves the state as good as it was, and notes the group. *)
Hypothesis allocator_ok : ∀ st cg pref, P st → 0 ≤ cg < ncg → pref = pref0 ∨ pref = 0 →
  ∃ st' r, allocator st cg pref = Ok (st', r) ∧
    ((r = 0 ∧ P st' ∧ done_at cg) ∨ (r ≠ 0 ∧ Q st' r)).

Lemma hash_quad_ok (fuel : nat) : ∀ st cg i, P st → 0 ≤ cg < ncg → 1 ≤ i →
  Z.max 0 (ncg - i) < Z.of_nat fuel →
  ∃ st' r, hash_quad allocator ncg fuel st cg i = Ok (st', r) ∧
    ((r = 0 ∧ P st' ∧ (i < ncg → done_at ((cg + i) mod ncg))) ∨ (r ≠ 0 ∧ Q st' r)).
Proof using allocator_ok.
  induction fuel as [|fuel IH]; intros st cg i HP Hcg Hi Hf; [lia|]. cbn [hash_quad].
  destruct (Z.ltb_spec i ncg); [|exists st, 0; split; [done|]; left; split; [done|]; split; [done|lia]].
  assert (Ecg : (if cg + i >=? ncg then cg + i - ncg else cg + i) = (cg + i) mod ncg).
  { rewrite Z.geb_leb. destruct (Z.leb_spec ncg (cg + i)).
    - apply (Z.mod_unique _ _ 1); lia.
    - symmetry. apply Z.mod_small. lia. }
  cbv zeta. rewrite Ecg. set (cg' := (cg + i) mod ncg).
  assert (0 ≤ cg' < ncg) by (apply Z.mod_pos_bound; lia).
  destruct (allocator_ok st cg' 0) as (st1 & r & -> & [(-> & HP1 & Hd)|(Hr & HQ)]); [done|done|by right| |];
    rewrite Ok_bind.
  - cbn [Z.eqb negb]. destruct (IH st1 cg' (i * 2)) as (st2 & r2 & -> & Hout); [done|done|lia|lia|].
    exists st2, r2. split; [done|]. destruct Hout as [(-> & ? & _)|?]; [left|by right].
    split; [done|]. split; [done|]. by intros _.
  - rewrite (proj2 (Z.eqb_neq _ _)) by done. exists st1, r. split; [done|]. by right.
Qed.

Lemma hash_brute_ok (n : nat) : ∀ st cg, P st → 0 ≤ cg < ncg →
  ∃ st' r, hash_brute allocator ncg n st cg = Ok (st', r) ∧
    ((r = 0 ∧ P st' ∧ ∀ k, 0 ≤ k < Z.of_nat n → done_at ((cg + k) mod ncg)) ∨ (r ≠ 0 ∧ Q st' r)).
Proof using allocator_ok.
  induction n as [|n IH]; intros st cg HP Hcg; cbn [hash_brute].
  - exists st, 0. split; [done|]. left. split; [done|]. split; [done|lia].
  - destruct (allocator_ok st cg 0) as (st1 & r & -> & [(-> & HP1 & Hd)|(Hr & HQ)]); [done|done|by right| |];
      rewrite Ok_bind.
    + cbn [Z.eqb negb].
      assert (Ecg : (if cg + 1 =? ncg then 0 else cg + 1) = (cg + 1) mod ncg).
      { destruct (Z.eqb_spec (cg + 1) ncg) as [->|].
        - symmetry. apply Z.mod_same. lia.
        - symmetry. apply Z.mod_small. lia. }
      rewrite Ecg. destruct (IH st1 ((cg + 1) mod ncg)) as (st2 & r2 & -> & Hout);
        [done|apply Z.mod_pos_bound; lia|].
      exists st2, r2. split; [done|]. destruct Hout as [(-> & HP2 & Hk)|?]; [left|by right].
      split; [done|]. split; [done|]. intros k Hk0. destruct (decide (k = 0)) as [->|].
      * by rewrite Z.add_0_r, Z.mod_small.
      * specialize (Hk (k - 1) ltac:(lia)). rewrite Z.add_mod_idemp_l in Hk by lia.
        by replace (cg + 1 + (k - 1)) with (cg + k) in Hk by lia.
    + rewrite (proj2 (Z.eqb_neq _ _)) by done. exists st1, r. split; [done|]. by right.
Qed.

Lemma hashalloc_ok st cg flags : P st → 0 ≤ cg < ncg →
  ∃ st' r, ffs_hashalloc allocator ncg st cg pref0 flags = Ok (st', r) ∧
    ((r = 0 ∧ P st' ∧ (flags .& B_CONTIG = 0 → ∀ k, 0 ≤ k < ncg → done_at k)) ∨
     (r ≠ 0 ∧ Q st' r)).
Proof using allocator_ok.
  intros HP Hcg. unfold ffs_hashalloc.
  destruct (allocator_ok st cg pref0) as (st1 & r & -> & [(-> & HP1 & Hd)|(Hr & HQ)]);
    [done|done|by left| |]; rewrite Ok_bind; [|rewrite (proj2 (Z.eqb_neq r 0)) by done; cbn [negb];
    exists st1, r; split; [done|]; by right].
  cbn [Z.eqb negb]. destruct (Z.eqb_spec (flags .& B_CONTIG) 0); cbn [negb];
    [|exists st1, 0; split; [done|]; left; by split].
  destruct (hash_quad_ok (Z.to_nat ncg) st1 cg 1) as (st2 & r & -> & [(-> & HP2 & Hd1)|(Hr & HQ)]);
    [done|done|lia|lia| |]; rewrite Ok_bind; [|rewrite (proj2 (Z.eqb_neq r 0)) by done; cbn [negb];
    exists st2, r; split; [done|]; by right].
  cbn [Z.eqb negb]. rewrite Z.rem_mod_nonneg by lia.
  destruct (hash_brute_ok (Z.to_nat (ncg - 2)) st2 ((cg + 2) mod ncg)) as (st3 & r & -> & Hout);
    [done|apply Z.mod_pos_bound; lia|]. exists st3, r. split; [done|].
  destruct Hout as [(-> & HP3 & Hk)|?]; [left|by right]. split; [done|]. split; [done|].
  intros _ k Hk0. set (d := (k - cg) mod ncg). assert (0 ≤ d < ncg) by (apply Z.mod_pos_bound; lia).
  assert (Ek : k = (cg + d) mod ncg).
  { unfold d. rewrite Z.add_mod_idemp_r by lia. replace (cg + (k - cg)) with k by lia.
    by rewrite Z.mod_small. }
  destruct (decide (d = 0)) as [E|]; [|destruct (decide (d = 1)) as [E|]].
  - rewrite Ek, E, Z.add_0_r, Z.mod_small by done. done.
  - rewrite Ek, E. apply Hd1. lia.
  - specialize (Hk (d - 2) ltac:(lia)). rewrite Z.add_mod_idemp_l in Hk by lia.
    rewrite Ek. by replace (cg + d) with (cg + 2 + (d - 2)) by lia.
Qed.
End hash.

(** ** Sound file systems *)

Section volume.
Context `{Hlaws : BswapLaws}.
(** The constants of the file system, and of each group its size and whether its header is
    good. *)
Context (G : geometry) (ndblk : Z → Z) (magic : Z → bool).

Definition geo (i : Z) : geometry :=
  Geometry (q_frag G) (q_fragshift G) (q_size G) (q_fpg G) (q_fshift G) (q_contig G) (q_swap G)
    (q_ncg G) i (ndblk i) (magic i).
Local Notation F := (q_frag G).
Local Notation sound_at i f := (sound (geo i) (fs_csp f) (fs_maxcluster f) f).

Definition volume_ok : Prop := ∀ i, 0 ≤ i < q_ncg G → geometry_ok (geo i).

(** Each group that can be read is sound, for the map [ls !! i]. *)
Record vol_sound (st : volume) (ls : list (list Z)) : Prop := {
  v_bufs : Z.of_nat (length (st.2)) = q_ncg G;
  v_maps : Z.of_nat (length ls) = q_ncg G;
  v_csp : Z.of_nat (length (fs_csp (st.1))) = q_ncg G;
  v_ncg : fs_ncg (st.1) = q_ncg G;
  v_fpg : fs_fpg (st.1) = q_fpg G;
  v_sound : ∀ i c l, 0 ≤ i → (st.2) !! Z.to_nat i = Some (Some c) → ls !! Z.to_nat i = Some l →
    sound_at i (st.1) c l;
}.

(** The group can be read. *)
Definition readable (st : volume) (i : Z) : Prop :=
  magic i = true ∧ ∃ c, (st.2) !! Z.to_nat i = Some (Some c).

Context (Hgeo : volume_ok).

Lemma super_lookup q csp0 max0 f nb nf cl : geometry_ok q → super_acct q csp0 max0 f nb nf cl →
  fs_csp f !! Z.to_nat (q_cgx q) = Some (Csum nb nf) ∧ length (fs_csp f) = length csp0 ∧
  (∀ j, j ≠ Z.to_nat (q_cgx q) → fs_csp f !! j = csp0 !! j) ∧
  (0 < q_contig q → length (fs_maxcluster f) = length max0 ∧
    ∀ j, j ≠ Z.to_nat (q_cgx q) → fs_maxcluster f !! j = max0 !! j).
Proof using.
  intros Hq Hf. pose proof (a_csp _ _ _ _ _ _ _ Hf) as E. pose proof (a_csp0 _ _ _ _ _ _ _ Hf) as Hl.
  pose proof (q_cgx_ncg q Hq). rewrite E. split; [by rewrite list_lookup_insert_eq by lia|].
  split; [apply length_insert|]. split; [intros; by apply list_lookup_insert_ne|].
  intros HK. destruct (a_maxcluster _ _ _ _ _ _ _ Hf HK) as (_ & m & -> & _).
  split; [apply length_insert|]. intros. by apply list_lookup_insert_ne.
Qed.

(** A group that was not changed is as sound as before. *)
Lemma sound_other i j f f' c c' l l' : 0 ≤ i < q_ncg G → 0 ≤ j < q_ncg G → i ≠ j →
  sound_at j f c l → sound (geo i) (fs_csp f) (fs_maxcluster f) f' c' l' → sound_at j f' c l.
Proof using Hlaws Hgeo.
  intros Hi Hj Hne [[Hfj Hcj] Hp] [[Hf' _] _]. split; [|done]. split; [|done].
  destruct (super_lookup _ _ _ _ _ _ _ (Hgeo j Hj) Hfj) as (Ej & Lj & _ & Mj).
  destruct (super_lookup _ _ _ _ _ _ _ (Hgeo i Hi) Hf') as (_ & Li & Oi & Mi).
  change (q_cgx (geo i)) with i in *. change (q_cgx (geo j)) with j in *.
  assert (Z.to_nat j ≠ Z.to_nat i) as Hn by lia.
  assert (Ecsp : fs_csp f' !! Z.to_nat j = Some (Csum (tally (full_count (q_frag (geo j))) l)
    (tally (frag_free (q_frag (geo j))) l))) by (by rewrite Oi).
  pose proof (lookup_lt_Some _ _ _ Ecsp).
  pose proof (a_maxcluster _ _ _ _ _ _ _ Hfj) as HM. destruct Hf'. split; try done.
  - simpl. by rewrite list_insert_id.
  - simpl. lia.
  - intros HK. destruct (HM HK) as (Hml & m & Em & Hm).
    destruct (Mi HK) as [EL EM]. split; [simpl in *; lia|]. exists m. split; [|done].
    simpl in *. symmetry. apply list_insert_id. rewrite EM, Em by done.
    by apply list_lookup_insert_eq; lia.
Qed.
Lemma sound_same i f f' c' l' : 0 ≤ i < q_ncg G →
  sound (geo i) (fs_csp f) (fs_maxcluster f) f' c' l' → sound_at i f' c' l'.
Proof using Hlaws Hgeo.
  intros Hi [[Hf' Hc'] Hp]. split; [|done]. split; [|done].
  destruct (super_lookup _ _ _ _ _ _ _ (Hgeo i Hi) Hf') as (Ei & Li & _ & Mi).
  change (q_cgx (geo i)) with i in *. pose proof (lookup_lt_Some _ _ _ Ei).
  pose proof (a_maxcluster _ _ _ _ _ _ _ Hf') as HM. destruct Hf'. split; try done.
  - by rewrite list_insert_id.
  - simpl. lia.
  - intros HK. destruct (HM HK) as (Hml & m & Em & Hm). destruct (Mi HK) as [EL _].
    split; [simpl in *; lia|]. exists m. split; [|done]. simpl in *. by rewrite Em, list_insert_insert_eq.
Qed.

(** An operation that keeps its group sound keeps the file system sound. *)
Lemma on_group_ok {A} st ls i (op : fs → option cg → res (fs * option cg * A)) c l f' c' l' r :
  vol_sound st ls → 0 ≤ i < q_ncg G → (st.2) !! Z.to_nat i = Some (Some c) →
  ls !! Z.to_nat i = Some l → op (st.1) (Some c) = Ok (f', Some c', r) →
  sound (geo i) (fs_csp (st.1)) (fs_maxcluster (st.1)) f' c' l' →
  ∃ st', on_group st i op = Ok (st', r) ∧ vol_sound st' (<[Z.to_nat i := l']> ls) ∧
    ∀ j, readable st' j ↔ readable st j.
Proof using Hlaws Hgeo.
  intros Hv Hi Hc Hl Hop Hs. unfold on_group.
  rewrite (proj2 (get_Ok (st.2) i (Some c))), Ok_bind, Hop, Ok_bind by (split; [lia|done]).
  pose proof (v_bufs _ _ Hv) as Lb. rewrite put_total, Ok_bind by lia.
  eexists (f', _). split; [done|]. pose proof Hs as [[Hf' _] _].
  destruct (super_lookup _ _ _ _ _ _ _ (Hgeo i Hi) Hf') as (_ & Li & _).
  split; [split; simpl|].
  - rewrite length_insert. apply Hv.
  - rewrite length_insert. apply Hv.
  - rewrite Li. apply Hv.
  - apply (a_ncg _ _ _ _ _ _ _ Hf').
  - apply (a_fpg _ _ _ _ _ _ _ Hf').
  - intros j c1 l1 Hj Hc1 Hl1. destruct (decide (j = i)) as [->|Hne].
    + rewrite list_lookup_insert_eq in Hc1 by (by eapply lookup_lt_Some).
      rewrite list_lookup_insert_eq in Hl1 by (by eapply lookup_lt_Some).
      injection Hc1 as <-. injection Hl1 as <-. by apply (sound_same i (st.1)).
    + rewrite list_lookup_insert_ne in Hc1 by lia. rewrite list_lookup_insert_ne in Hl1 by lia. pose proof (lookup_lt_Some _ _ _ Hc1).
      apply (sound_other i j (st.1) f' c1 c' l1 l'); [done|lia|done|by apply Hv|done].
  - intros j. unfold readable. simpl. destruct (decide (Z.to_nat j = Z.to_nat i)) as [->|Hne].
    + rewrite list_lookup_insert_eq by (by eapply lookup_lt_Some). rewrite Hc. naive_solver.
    + by rewrite list_lookup_insert_ne by done.
Qed.

Lemma map_id st ls i l : vol_sound st ls → ls !! Z.to_nat i = Some l → <[Z.to_nat i := l]> ls = ls.
Proof using. intros _ Hl. by apply list_insert_id. Qed.

Lemma group_cases st ls i : vol_sound st ls → 0 ≤ i < q_ncg G → ∃ l, ls !! Z.to_nat i = Some l ∧
  ((st.2) !! Z.to_nat i = Some None ∨
   ∃ c, (st.2) !! Z.to_nat i = Some (Some c) ∧ cg_magic_ok c = magic i ∧ sound_at i (st.1) c l).
Proof using.
  intros Hv Hi. destruct (lookup_lt_is_Some_2 ls (Z.to_nat i)) as [l Hl]; [pose proof (v_maps _ _ Hv); lia|].
  destruct (lookup_lt_is_Some_2 (st.2) (Z.to_nat i)) as [bp Hb]; [pose proof (v_bufs _ _ Hv); lia|].
  exists l. split; [done|]. destruct bp as [c|]; [right|by left]. exists c. split; [done|].
  pose proof (v_sound _ _ Hv i c l ltac:(lia) Hb Hl) as Hs. split; [|done].
  apply (a_magic _ _ _ _ _ _ _ (sound_group _ _ _ _ _ _ Hs)).
Qed.

(** ** Allocation *)

Lemma takes_nonzero i f c l n r l' : 0 ≤ i < q_ncg G → sound_at i f c l → 1 ≤ n →
  takes (geo i) l n r l' → r ≠ 0.
Proof using Hlaws Hgeo.
  intros Hi Hs Hn (b & p & v & -> & Hb & Hp & Hpn & Hv & Hh & _) Hz.
  pose proof (Hgeo i Hi) as Hq. destruct (F_facts (geo i) Hq) as (HF & _).
  pose proof (q_fpg_pos _ Hq). unfold address in Hz.
  change (q_cgx (geo i)) with i in *. change (q_frag (geo i)) with F in *.
  assert (i = 0 ∧ b = 0 ∧ p = 0) as (-> & -> & ->) by nia.
  destruct Hs as [_ Hpl]. destruct (Hpl 0 v 0 Hv) as [_ Hno]; [done|simpl; lia| |].
  - apply (has_inside v 0 n); [done|lia].
  - by apply Hno.
Qed.

(** The space that an allocation looks for, and takes. *)
Definition wanted (n m : Z) : Z := if (n =? F) && ((0 <? m) && (m <? F)) then m else n.

Section allocation.
Context (now n m flags : Z) (Hn : 1 ≤ n ≤ F) (Hm : 0 ≤ m)
  (Hfl : contig flags → n = F ∧ (m = 0 ∨ F ≤ m)) (ls : list (list Z)) (st0 : volume).
Local Notation alloc := (alloc_data now (Z.shiftl n (q_fshift G)) (Z.shiftl m (q_fshift G)) flags).

(** The maps are as they were, and the same groups can be read. *)
Definition untouched (st : volume) : Prop :=
  vol_sound st ls ∧ ∀ j, readable st j ↔ readable st0 j.
Definition took (st : volume) (r : Z) : Prop := ∃ i l l', ls !! Z.to_nat i = Some l ∧ 0 ≤ i < q_ncg G ∧
  readable st i ∧ readable st0 i ∧ takes (geo i) l (wanted n m) r l' ∧
  vol_sound st (<[Z.to_nat i := l']> ls).
Definition no_space (i : Z) : Prop := readable st0 i → ¬ contig flags → ∀ l,
  ls !! Z.to_nat i = Some l → ¬ room (geo i) l n.

Lemma alloc_data_ok st i pref : untouched st → 0 ≤ i < q_ncg G → 0 ≤ pref →
  ∃ st' r, alloc st i pref = Ok (st', r) ∧
    ((r = 0 ∧ untouched st' ∧ no_space i) ∨ (r ≠ 0 ∧ took st' r)).
Proof using Hlaws Hgeo Hn Hm Hfl.
  intros [Hv Hre] Hi Hpref. destruct (group_cases st ls i Hv Hi) as (l & Hl & [Hb|(c & Hc & Em & Hs)]).
  - exists st, 0. split.
    + unfold alloc_data, on_group. rewrite (proj2 (get_Ok (st.2) i None)), Ok_bind by (split; [lia|done]).
      unfold ffs_alloccg. pose proof (v_csp _ _ Hv).
      destruct (get_total (fs_csp (st.1)) i) as (cs & -> & _); [lia|]. rewrite Ok_bind.
      assert (Hput : put (st.2) i None = Ok (st.2)).
      { pose proof (v_bufs _ _ Hv). rewrite put_total by lia. f_equal. by apply list_insert_id. }
      destruct (_ && _); rewrite Ok_bind, Hput, Ok_bind; by destruct st.
    + left. split; [done|]. split; [done|]. intros Hr%Hre. destruct Hr as (_ & c & Hc). by rewrite Hb in Hc.
  - destruct (alloccg_ok (geo i) (Hgeo i Hi) _ _ (st.1) c l now pref n m flags Hs Hpref) as
      (f' & c' & r & l' & E & Hs' & Hout); [done..|].
    destruct (on_group_ok st ls i (λ f bp, ffs_alloccg f bp i now pref _ _ flags) c l f' c' l' r Hv Hi
      Hc Hl E Hs') as (st' & E' & Hv' & Hre').
    exists st', r. split; [exact E'|]. destruct Hout as [(-> & -> & Hno)|(Hmg & Ht)]; [left|right].
    + split; [done|]. rewrite (list_insert_id ls) in Hv' by done. split.
      { split; [done|]. intros j. by rewrite Hre'. }
      intros Hr Hc' l0 Hl0. rewrite Hl in Hl0. injection Hl0 as <-. apply Hno; [|done].
      rewrite Em. apply Hr.
    + split; [|exists i, l, l'; split; [done|]; split; [done|]].
      2:{ assert (readable st i) by (split; [congruence|by exists c]).
          split; [by apply Hre'|split; [by apply Hre|done]]. }
      apply (takes_nonzero i (st.1) c l (wanted n m) r l'); [done..| |exact Ht].
      unfold wanted. destruct ((n =? F) && _) eqn:Ew; [|lia]. zb. lia.
Qed.
End allocation.

Lemma hashalloc_took st ls now i pref n m flags :
  vol_sound st ls → 0 ≤ i < q_ncg G → 0 ≤ pref → 1 ≤ n ≤ F → 0 ≤ m →
  (contig flags → n = F ∧ (m = 0 ∨ F ≤ m)) →
  ∃ st' r, hashalloc_data st now i pref (Z.shiftl n (q_fshift G)) (Z.shiftl m (q_fshift G)) flags =
      Ok (st', r) ∧
    ((r = 0 ∧ untouched ls st st' ∧
      (flags .& B_CONTIG = 0 → ∀ k, 0 ≤ k < q_ncg G → no_space n flags ls st k)) ∨
     (r ≠ 0 ∧ took n m ls st st' r)).
Proof using Hlaws Hgeo.
  intros Hv Hi Hpref Hn Hm Hfl. unfold hashalloc_data. rewrite (v_ncg _ _ Hv).
  apply hashalloc_ok; [|by split|done].
  intros st1 cg pr Hst1 Hcg Hpr. apply alloc_data_ok; try done. destruct Hpr; lia.
Qed.
Lemma not_contig flags : flags .& B_CONTIG = 0 → ¬ contig flags.
Proof using.
  intros Hc Hco. unfold contig in Hco. apply (f_equal (λ x, x .& B_CONTIG)) in Hco.
  rewrite <-Z.land_assoc in Hco. change ((B_CONTIG .| B_METAONLY) .& B_CONTIG) with B_CONTIG in Hco.
  by rewrite Hc in Hco.
Qed.

(** C36: [ffs_hashalloc] over [ffs_alloccg] on a sound file system, for [n] fragments (of a whole
    block cut down to [m] when these are fewer), never faults, and keeps the file system sound:
    the counts, the runs and the clusters of every group and the summaries of the super block are
    those of the maps. It takes free fragments of one block, as many as are wanted, and returns the
    first of them, and no map changes otherwise; it returns 0 only when no group that can be read
    has room, or when a contiguous place was asked for. *)
Theorem hashalloc_refines st ls now i pref n m flags :
  vol_sound st ls → 0 ≤ i < q_ncg G → 0 ≤ pref → 1 ≤ n ≤ F → 0 ≤ m →
  (contig flags → n = F ∧ (m = 0 ∨ F ≤ m)) →
  ∃ st' r, hashalloc_data st now i pref (Z.shiftl n (q_fshift G)) (Z.shiftl m (q_fshift G)) flags =
      Ok (st', r) ∧
    ((r = 0 ∧ vol_sound st' ls ∧ (flags .& B_CONTIG = 0 → ∀ j l, 0 ≤ j < q_ncg G → readable st j →
        ls !! Z.to_nat j = Some l → ¬ room (geo j) l n)) ∨
     (r ≠ 0 ∧ ∃ j l l', ls !! Z.to_nat j = Some l ∧ takes (geo j) l (wanted n m) r l' ∧
        vol_sound st' (<[Z.to_nat j := l']> ls))).
Proof using Hlaws Hgeo.
  intros Hv Hi Hpref Hn Hm Hfl.
  destruct (hashalloc_took st ls now i pref n m flags) as
    (st' & r & E & [(-> & [Hv' _] & Hno)|(Hr & j & l & l' & ? & _ & _ & _ & ? & ?)]); [done..| |];
    exists st'; [exists 0|exists r]; (split; [done|]); [left|right].
  - split; [done|]. split; [done|]. intros Hc j l Hj Hre Hl. apply (Hno Hc j Hj); [done| |done].
    by apply not_contig.
  - split; [done|]. by exists j, l, l'.
Qed.

(** ** Freeing *)

(** Fragment [bno] is number [p] of block [b] of group [i]. *)
Lemma place_of f i b p n : fs_fpg f = q_fpg G → 0 ≤ i < q_ncg G → in_group (geo i) b p n →
  dtog f (address (geo i) b p) = i ∧ b * F + F ≤ q_fpg G.
Proof using Hgeo.
  intros Ef Hi Hgr. pose proof (in_group_block (geo i) (Hgeo i Hi) b p n Hgr) as Hin.
  destruct Hgr as (Hb & Hp & Hn & Hpn & _). split; [|done]. unfold dtog. rewrite Ef.
  pose proof (Hgeo i Hi) as Hq. pose proof (q_fpg_pos _ Hq). unfold address. simpl in *.
  rewrite Z.quot_div_nonneg by nia. replace (q_fpg G * i + b * F + p) with (i * q_fpg G + (b * F + p)) by lia.
  rewrite Z.div_add_l, Z.div_small by nia. lia.
Qed.

Lemma group_of st ls i l : vol_sound st ls → readable st i → 0 ≤ i < q_ncg G →
  ls !! Z.to_nat i = Some l → ∃ c, (st.2) !! Z.to_nat i = Some (Some c) ∧ cg_magic_ok c = true ∧
    sound_at i (st.1) c l.
Proof using.
  intros Hv (Hmg & c & Hc) Hi Hl. exists c. split; [done|].
  pose proof (v_sound _ _ Hv i c l ltac:(lia) Hc Hl) as Hs. split; [|done].
  by rewrite (a_magic _ _ _ _ _ _ _ (sound_group _ _ _ _ _ _ Hs)).
Qed.

(** Arguments that denote fragments of a group are not refused. *)
Lemma check_ok i f c l b p n : 0 ≤ i < q_ncg G → sound_at i f c l → in_group (geo i) b p n →
  address (geo i) b p < q_size G ∧
  ffs_check_bad_allocation f (address (geo i) b p) (Z.shiftl n (q_fshift G)) = Ok 0.
Proof using Hlaws Hgeo.
  intros Hi Hs Hgr. pose proof (Hgeo i Hi) as Hq. pose proof Hs as [[Hf _] _].
  pose proof Hgr as (Hb & Hp & Hn & Hpn & Hnd & _). pose proof (q_in_size _ Hq) as Hsz.
  pose proof (in_group_block _ Hq b p n Hgr) as Hin.
  assert (Ha : address (geo i) b p < q_size (geo i)) by (unfold address; lia). split; [done|].
  destruct (dtogd_address (geo i) Hq b p) with (f := f) as (_ & _ & _ & _ & E5 & _);
    [done|lia|done|apply Hf..|].
  pose proof (size_test (geo i) Hq b p n Hp Hn Hpn Ha) as Ht.
  unfold ffs_check_bad_allocation. rewrite (a_bsize _ _ _ _ _ _ _ Hf), (a_fshift _ _ _ _ _ _ _ Hf).
  rewrite E5, (a_frag _ _ _ _ _ _ _ Hf), (a_size _ _ _ _ _ _ _ Hf).
  change (Z.shiftl n (q_fshift G)) with (Z.shiftl n (q_fshift (geo i))).
  rewrite (numfrags_bytes _ Hq) by apply Hf. rewrite !andb_true_iff in Ht.
  destruct Ht as (((T1 & T2) & T3) & T4). rewrite T2, !Z.gtb_ltb, Z.geb_leb. cbn [negb].
  rewrite orb_false_r. zb. rewrite (proj2 (orb_false_iff _ _)) by (split; apply Z.ltb_ge; lia).
  by rewrite (proj2 (Z.leb_gt _ _)).
Qed.

(** Freeing fragments that are in use, on the file system. *)
Lemma free_vol st ls now i l b p n v : vol_sound st ls → readable st i → 0 ≤ i < q_ncg G →
  ls !! Z.to_nat i = Some l → l !! Z.to_nat b = Some v → in_group (geo i) b p n →
  lacks v p n = true →
  ∃ st', ffs_blkfree st now (address (geo i) b p) (Z.shiftl n (q_fshift G)) = Ok (st', tt) ∧
    vol_sound st' (<[Z.to_nat i := <[Z.to_nat b := given v p n]> l]> ls).
Proof using Hlaws Hgeo.
  intros Hv Hre Hi Hl Hlb Hgr El. destruct (group_of st ls i l Hv Hre Hi Hl) as (c & Hc & Hmg & Hs).
  unfold ffs_blkfree. destruct (check_ok i (st.1) c l b p n Hi Hs Hgr) as [_ ->]. rewrite Ok_bind.
  cbn [Z.eqb negb]. unfold ffs_blkfree_cg.
  destruct (place_of (st.1) i b p n (v_fpg _ _ Hv) Hi Hgr) as [-> _].
  destruct (blkfree_ok (geo i) (Hgeo i Hi) _ _ (st.1) c l now b v p n false Hs Hlb Hgr El) as
    (f' & c' & E & Hs').
  match goal with |- context [on_group st i ?op] =>
    destruct (on_group_ok st ls i op c l f' c' (<[Z.to_nat b := given v p n]> l) tt Hv Hi Hc Hl)
      as (st' & E' & Hv' & _) end; [|done|by exists st'].
  rewrite Hmg. cbn [negb]. change (q_fshift G) with (q_fshift (geo i)). by rewrite E.
Qed.

(** C37: On a sound file system [ffs_blkfree] of fragments that are in use makes exactly these free
    and keeps it sound (a block that becomes free as a whole is counted as a block again, and its
    cluster); when one of them is free already it panics. *)
Theorem blkfree_exact st ls now i l b p n v : vol_sound st ls → readable st i → 0 ≤ i < q_ncg G →
  ls !! Z.to_nat i = Some l → l !! Z.to_nat b = Some v → in_group (geo i) b p n →
  if lacks v p n then
    ∃ st', ffs_blkfree st now (address (geo i) b p) (Z.shiftl n (q_fshift G)) = Ok (st', tt) ∧
      vol_sound st' (<[Z.to_nat i := <[Z.to_nat b := given v p n]> l]> ls)
  else ffs_blkfree st now (address (geo i) b p) (Z.shiftl n (q_fshift G)) = Fault Panic.
Proof using Hlaws Hgeo.
  intros Hv Hre Hi Hl Hlb Hgr. destruct (lacks v p n) eqn:El; [by apply free_vol|].
  destruct (group_of st ls i l Hv Hre Hi Hl) as (c & Hc & Hmg & Hs).
  unfold ffs_blkfree. destruct (check_ok i (st.1) c l b p n Hi Hs Hgr) as [_ ->]. rewrite Ok_bind.
  cbn [Z.eqb negb]. unfold ffs_blkfree_cg.
  destruct (place_of (st.1) i b p n (v_fpg _ _ Hv) Hi Hgr) as [-> _].
  unfold on_group. rewrite (proj2 (get_Ok (st.2) i (Some c))), Ok_bind by (split; [lia|done]).
  rewrite Hmg. cbn [negb]. change (q_fshift G) with (q_fshift (geo i)).
  by rewrite (blkfree_bad (geo i) (Hgeo i Hi) _ _ (st.1) c l now b v p n false Hs Hlb Hgr El).
Qed.

(** *** Back and forth *)

Lemma give_taken v p n : 0 ≤ p → 0 ≤ n → has v p n = true →
  given (taken v p n) p n = v ∧ lacks (taken v p n) p n = true.
Proof using.
  intros Hp Hn Hh. split.
  - apply Z.bits_inj'. intros j Hj. unfold given, taken.
    rewrite Z.lor_spec, Z.ldiff_spec, piece_testbit by done.
    destruct ((p <=? j) && (j <? p + n)) eqn:E; cbn [negb]; [|by rewrite andb_true_r, orb_false_r].
    rewrite orb_true_r. zb. symmetry. by apply (has_inside v p n).
  - unfold lacks, taken. apply forallb_forall. intros i Hi%list_elem_of_In%elem_of_seqZ.
    rewrite Z.ldiff_spec, piece_testbit by lia.
    rewrite (proj2 (Z.leb_le _ _)), (proj2 (Z.ltb_lt _ _)) by lia. by rewrite andb_false_r.
Qed.
Lemma taken_in_group i f c l b p n v : 0 ≤ i < q_ncg G → sound_at i f c l → 0 ≤ b → 0 ≤ p → 1 ≤ n →
  p + n ≤ F → l !! Z.to_nat b = Some v → has v p n = true → in_group (geo i) b p n.
Proof using Hlaws Hgeo.
  intros Hi [_ Hpl] Hb Hp Hn Hpn Hv Hh. simpl in *.
  destruct (Hpl b v (p + n - 1) Hv Hb) as [H1 _]; [simpl; lia|apply (has_inside v p n); [done|lia]|].
  destruct (Hpl b v p Hv Hb) as [_ H2]; [simpl; lia|apply (has_inside v p n); [done|lia]|].
  destruct (F_facts (geo i) (Hgeo i Hi)) as (HF & _). unfold in_group. simpl in *.
  repeat split; lia || (intros Hz; specialize (H2 Hz); nia).
Qed.

(** C39: Freeing what an allocation took gives back the maps that the file system had before it, and
    with them every count. *)
Theorem alloc_free_roundtrip st ls now now' i pref n m flags st' r :
  vol_sound st ls → 0 ≤ i < q_ncg G → 0 ≤ pref → 1 ≤ n ≤ F → 0 ≤ m →
  (contig flags → n = F ∧ (m = 0 ∨ F ≤ m)) →
  hashalloc_data st now i pref (Z.shiftl n (q_fshift G)) (Z.shiftl m (q_fshift G)) flags =
    Ok (st', r) → r ≠ 0 →
  ∃ st'', ffs_blkfree st' now' r (Z.shiftl (wanted n m) (q_fshift G)) = Ok (st'', tt) ∧
    vol_sound st'' ls.
Proof using Hlaws Hgeo.
  intros Hv Hi Hpref Hn Hm Hfl E Hr.
  destruct (hashalloc_took st ls now i pref n m flags) as
    (st1 & r1 & E1 & Hout); [done..|]. rewrite E in E1. injection E1 as <- <-.
  destruct Hout as [(-> & _)|(_ & j & l & l' & Hl & Hj & Hre & Hre0 & Ht & Hv')]; [done|].
  destruct (group_of _ _ j l Hv Hre0 Hj Hl) as (c & _ & _ & Hs).
  destruct Ht as (b & p & v & -> & Hb & Hp & Hpn & Hlb & Hh & ->).
  assert (Hw : 1 ≤ wanted n m) by (unfold wanted; destruct ((n =? F) && _) eqn:Ew; zb; lia).
  destruct (give_taken v p (wanted n m)) as [Eg El]; [lia..|done|].
  set (v' := taken v p (wanted n m)) in *. set (l' := <[Z.to_nat b := v']> l) in *.
  destruct (free_vol st' _ now' j l' b p (wanted n m) v' Hv' Hre Hj) as (st'' & E2 & Hv'').
  { apply list_lookup_insert_eq. by eapply lookup_lt_Some. }
  { apply list_lookup_insert_eq. by eapply lookup_lt_Some. }
  { by apply (taken_in_group j (st.1) c l b p _ v). } { done. }
  exists st''. split; [done|]. unfold l' in Hv''.
  rewrite Eg, !list_insert_insert_eq, (list_insert_id l), (list_insert_id ls) in Hv'' by done.
  done.
Qed.

(** ** Claims *)

Lemma blkalloc_vol st ls err now i l b p n v : vol_sound st ls → readable st i → 0 ≤ i < q_ncg G →
  ls !! Z.to_nat i = Some l → l !! Z.to_nat b = Some v → in_group (geo i) b p n →
  ∃ st', ffs_blkalloc st err now (address (geo i) b p) (Z.shiftl n (q_fshift G)) =
      Ok (st', if has v p n then 0 else EBUSY) ∧
    vol_sound st' (if has v p n then <[Z.to_nat i := <[Z.to_nat b := taken v p n]> l]> ls else ls).
Proof using Hlaws Hgeo.
  intros Hv Hre Hi Hl Hlb Hgr. destruct (group_of st ls i l Hv Hre Hi Hl) as (c & Hc & Hmg & Hs).
  unfold ffs_blkalloc. destruct (check_ok i (st.1) c l b p n Hi Hs Hgr) as [Hsz ->]. rewrite Ok_bind.
  cbn [Z.eqb negb]. destruct (place_of (st.1) i b p n (v_fpg _ _ Hv) Hi Hgr) as [-> Hin].
  pose proof Hgr as (Hb & Hp & Hn & Hpn & _).
  destruct (blkalloc_ok (geo i) (Hgeo i Hi) _ _ (st.1) c l err now b p n v Hs Hlb Hb Hp Hn Hpn Hin Hsz) as
    (f' & c' & E & Hs'). rewrite Hmg in E, Hs'.
  match goal with |- context [on_group st i ?op] =>
    destruct (on_group_ok st ls i op c l f' c' _ _ Hv Hi Hc Hl E Hs') as (st' & E' & Hv' & _) end.
  exists st'. split; [exact E'|]. destruct (has v p n); [done|].
  cbn [EBUSY Z.eqb] in Hv'. by rewrite (list_insert_id ls) in Hv'.
Qed.

Lemma fragextend_vol st ls now i l b p o n v : vol_sound st ls → readable st i → 0 ≤ i < q_ncg G →
  ls !! Z.to_nat i = Some l → l !! Z.to_nat b = Some v → in_group (geo i) b p o →
  lacks v p o = true → o < n ≤ F →
  let ok := (p + n <=? F) && has v (p + o) (n - o) in
  ∃ st', fragextend st now (address (geo i) b p) (Z.shiftl o (q_fshift G)) (Z.shiftl n (q_fshift G)) =
      Ok (st', if ok then address (geo i) b p else 0) ∧
    vol_sound st'
      (if ok then <[Z.to_nat i := <[Z.to_nat b := taken v (p + o) (n - o)]> l]> ls else ls).
Proof using Hlaws Hgeo.
  intros Hv Hre Hi Hl Hlb Hgr Hla Hon ok. destruct (group_of st ls i l Hv Hre Hi Hl) as (c & Hc & Hmg & Hs).
  unfold fragextend. destruct (place_of (st.1) i b p o (v_fpg _ _ Hv) Hi Hgr) as [-> Hin].
  pose proof Hgr as (Hb & Hp & Ho & Hpo & _).
  assert (Hbit : Z.testbit v (p + o - 1) = false).
  { unfold lacks in Hla. rewrite forallb_forall in Hla. apply negb_true_iff, Hla.
    apply list_elem_of_In, elem_of_seqZ. lia. }
  destruct (fragextend_ok (geo i) (Hgeo i Hi) _ _ (st.1) c l now b p o n v Hs Hlb Hb Hp) as
    (f' & c' & E & Hs'); [lia|by apply Hon|done|done|done|].
  rewrite Hmg in E, Hs'. cbn [andb] in E, Hs'.
  match goal with |- context [on_group st i ?op] =>
    destruct (on_group_ok st ls i op c l f' c' _ _ Hv Hi Hc Hl E Hs') as (st' & E' & Hv' & _) end.
  exists st'. split; [exact E'|]. unfold ok. destruct (_ && _) in Hv' |- *; [done|].
  by rewrite (list_insert_id ls) in Hv'.
Qed.

(** C38: On a sound file system [ffs_blkalloc] takes the given fragments when all of them are free,
    and none with [EBUSY] else; [ffs_fragextend] grows fragments that are in use in place, exactly
    when the fragments behind them are in the same block and free, and takes none else. Neither
    faults, and the file system stays sound. *)
Theorem claims_exact st ls err now i l b p o v : vol_sound st ls → readable st i → 0 ≤ i < q_ncg G →
  ls !! Z.to_nat i = Some l → l !! Z.to_nat b = Some v → in_group (geo i) b p o →
  (∃ st', ffs_blkalloc st err now (address (geo i) b p) (Z.shiftl o (q_fshift G)) =
      Ok (st', if has v p o then 0 else EBUSY) ∧
    vol_sound st' (if has v p o then <[Z.to_nat i := <[Z.to_nat b := taken v p o]> l]> ls else ls)) ∧
  (∀ n, lacks v p o = true → o < n ≤ F →
    let ok := (p + n <=? F) && has v (p + o) (n - o) in
    ∃ st', fragextend st now (address (geo i) b p) (Z.shiftl o (q_fshift G)) (Z.shiftl n (q_fshift G)) =
        Ok (st', if ok then address (geo i) b p else 0) ∧
      vol_sound st'
        (if ok then <[Z.to_nat i := <[Z.to_nat b := taken v (p + o) (n - o)]> l]> ls else ls)).
Proof using Hlaws Hgeo.
  intros. split; [by apply blkalloc_vol|]. intros. by apply fragextend_vol.
Qed.

(** ** Bounds *)

(** The free fragments of a block are at most those of its fragments that may be free. *)
Definition frag_total (v : Z) : Z := F * full_count F v + frag_free F v.
Definition total_facts (v m : Z) : bool :=
  negb (forallb (λ i, negb (Z.testbit v i) || (i <? m)) (below F)) || (frag_total v <=? m).
Lemma total_facts_ok s v m : frag_ok F s → 0 ≤ v < 2 ^ F → 0 ≤ m < F + 1 → total_facts v m = true.
Proof using.
  intros HF Hv Hm. revert v Hv. apply below_all. revert m Hm.
  apply (below_all (λ m, forallb (λ v, total_facts v m) (below (2 ^ F)))).
  unfold total_facts, frag_total. generalize (q_frag G) HF. intros F0 HF0. by_frag HF0; vm_compute; reflexivity.
Qed.

Lemma totals_le nd s : frag_ok F s → 0 < F → ∀ l b0, 0 ≤ b0 →
  (∀ (k : nat) v i, l !! k = Some v → 0 ≤ i < F → Z.testbit v i = true → (b0 + Z.of_nat k) * F + i < nd) →
  (∀ v, v ∈ l → 0 ≤ v < 2 ^ F) → tally frag_total l ≤ Z.max 0 (nd - b0 * F).
Proof using.
  intros HF HF0. induction l as [|v l IH]; intros b0 Hb0 Hin Hb; simpl; [lia|].
  set (m := Z.min F (Z.max 0 (nd - b0 * F))).
  pose proof (total_facts_ok s v m HF) as Ht. unfold total_facts in Ht.
  assert (Hall : forallb (λ i, negb (Z.testbit v i) || (i <? m)) (below F) = true).
  { apply forallb_forall. intros i Hi%list_elem_of_In%elem_of_seqZ.
    destruct (Z.testbit v i) eqn:E; [|done]. specialize (Hin 0%nat v i eq_refl ltac:(lia) E).
    simpl. apply Z.ltb_lt. lia. }
  rewrite Hall in Ht. cbn [negb orb] in Ht.
  assert (frag_total v ≤ m) by (apply Z.leb_le, Ht; [apply Hb; by left|lia]).
  assert (tally frag_total l ≤ Z.max 0 (nd - (b0 + 1) * F)); [|lia].
  apply IH; [lia| |intros; apply Hb; by right]. intros k w i Hw Hi E.
  specialize (Hin (S k) w i Hw Hi E). lia.
Qed.
Lemma frag_total_tally l :
  tally frag_total l = F * tally (full_count F) l + tally (frag_free F) l.
Proof using. induction l as [|v l IH]; simpl; [lia|]. rewrite IH. unfold frag_total. lia. Qed.

(** C40: In a sound file system the 32-bit counts of a group hold, without wrapping, numbers of
    blocks and of fragments that together are not more than the group has, and the summary of the
    group in the super block holds the same numbers. *)
Theorem free_counts_bounded st ls i c : vol_sound st ls → 0 ≤ i < q_ncg G →
  (st.2) !! Z.to_nat i = Some (Some c) →
  let nbfree := ufs_rw32 (cg_nbfree c) (q_swap G) in
  let nffree := ufs_rw32 (cg_nffree c) (q_swap G) in
  0 ≤ nbfree ∧ 0 ≤ nffree ∧ F * nbfree + nffree ≤ ndblk i ∧
  fs_csp (st.1) !! Z.to_nat i = Some (Csum nbfree nffree).
Proof using Hlaws Hgeo.
  intros Hv Hi Hc. destruct (group_cases st ls i Hv Hi) as (l & Hl & [Hb|(c' & Hc' & _ & Hs)]);
    [congruence|]. rewrite Hc in Hc'. injection Hc' as <-.
  pose proof (Hgeo i Hi) as Hq. destruct (F_facts (geo i) Hq) as (HF & _).
  pose proof (sound_group _ _ _ _ _ _ Hs) as Hg. pose proof (q_ndblk_fpg _ Hq) as [Hnd _].
  assert (Hfull : ∀ v, v ∈ l → 0 ≤ full_count F v ≤ F).
  { intros v _. by apply (full_count_bounds (geo i)). }
  assert (Hfree : ∀ v, v ∈ l → 0 ≤ frag_free F v ≤ F).
  { intros v (k & Hk)%list_elem_of_lookup. by apply (block_use (geo i) Hq _ _ _ _ _ _ _ Hs Hk). }
  intros nbfree nffree.
  assert (nbfree = tally (full_count F) l ∧ nffree = tally (frag_free F) l) as [-> ->].
  { unfold nbfree, nffree. rewrite (a_nbfree _ _ _ _ _ _ _ Hg), (a_nffree _ _ _ _ _ _ _ Hg).
    change (q_swap (geo i)) with (q_swap G). rewrite !stored_inv.
    split; apply u32_small, (tally_small (geo i) Hq _ _ _ _ _ _ Hs); done. }
  split; [apply tally_nonneg; intros; by apply Hfull|].
  split; [apply tally_nonneg; intros; by apply Hfree|]. split.
  - rewrite <-frag_total_tally. replace (ndblk i) with (Z.max 0 (ndblk i - 0 * F)) by (simpl in *; lia).
    apply (totals_le (ndblk i) (q_fragshift G)); [apply Hq|done|done| |].
    + intros k v j Hk Hj Ht. pose proof Hs as [_ Hpl].
      destruct (Hpl (Z.of_nat k) v j) as [? _]; [by rewrite Nat2Z.id|lia|done|done|].
      by rewrite Z.add_0_l.
    + intros v (k & Hk)%list_elem_of_lookup. by apply (sound_bounds (geo i) Hq _ _ _ _ _ _ _ Hs Hk).
  - pose proof Hs as [[Hf _] _]. apply (super_lookup _ _ _ _ _ _ _ Hq Hf).
Qed.
End volume.
