(* ===== verification/FfsExample.v ===== *)
(** * A small file system (for the theorems of FfsVol.v)

    Two groups of three blocks, the second cut short, with numbers in the other byte
    order, shown to be sound by computation, and the witnesses of FfsVol.v on it. *)

From S2P Require Import Prelude FfsMap FfsMapSpec FfsAlloc FfsFragSpec FfsCluster.
From S2P Require Import FfsSearch FfsAcct FfsSys FfsVol.

(** ** Reversed bytes *)

Definition swap_bytes (z : Z) : Z :=
  z mod 256 * 2 ^ 24 + z / 2 ^ 8 mod 256 * 2 ^ 16 + z / 2 ^ 16 mod 256 * 2 ^ 8 + z / 2 ^ 24 mod 256.
#[export] Instance swap_example : Bswap := {|
  bswap32 := swap_bytes;
  bswap64 z := swap_bytes (u32 z) * 2 ^ 32 + swap_bytes (z / 2 ^ 32);
|}.

Lemma swap_digits a b c d : 0 ≤ a < 256 → 0 ≤ b < 256 → 0 ≤ c < 256 → 0 ≤ d < 256 →
  swap_bytes (a * 2 ^ 24 + b * 2 ^ 16 + c * 2 ^ 8 + d) = d * 2 ^ 24 + c * 2 ^ 16 + b * 2 ^ 8 + a.
Proof.
  intros Ha Hb Hc Hd. unfold swap_bytes. set (z := _ + d).
  assert (z mod 256 = d) as -> by (symmetry; apply (Z.mod_unique _ _ (a * 2 ^ 16 + b * 2 ^ 8 + c)); unfold z; lia).
  assert (z / 2 ^ 8 = a * 2 ^ 16 + b * 2 ^ 8 + c) as -> by (symmetry; apply (Z.div_unique _ _ _ d); unfold z; lia).
  assert (z / 2 ^ 16 = a * 2 ^ 8 + b) as -> by
    (symmetry; apply (Z.div_unique _ _ _ (c * 2 ^ 8 + d)); unfold z; lia).
  assert (z / 2 ^ 24 = a) as -> by
    (symmetry; apply (Z.div_unique _ _ _ (b * 2 ^ 16 + c * 2 ^ 8 + d)); unfold z; lia).
  rewrite (Z.mod_small a) by done.
  assert ((a * 2 ^ 8 + b) mod 256 = b) as -> by (symmetry; apply (Z.mod_unique _ _ a); lia).
  assert ((a * 2 ^ 16 + b * 2 ^ 8 + c) mod 256 = c) as ->
    by (symmetry; apply (Z.mod_unique _ _ (a * 2 ^ 8 + b)); lia).
  done.
Qed.
Lemma digits z : is_u32 z → ∃ a b c d, (0 ≤ a < 256) ∧ (0 ≤ b < 256) ∧ (0 ≤ c < 256) ∧ (0 ≤ d < 256) ∧
  z = a * 2 ^ 24 + b * 2 ^ 16 + c * 2 ^ 8 + d.
Proof.
  intros Hz. unfold is_u32 in Hz. exists (z / 2 ^ 24), (z / 2 ^ 16 mod 2 ^ 8), (z / 2 ^ 8 mod 2 ^ 8), (z mod 2 ^ 8).
  Z.div_mod_to_equations. lia.
Qed.
#[export] Instance swap_example_laws : BswapLaws.
Proof.
  split; [| |done]; intros z (a & b & c & d & Ha & Hb & Hc & Hd & ->)%digits; simpl.
  - rewrite swap_digits by done. unfold is_u32. lia.
  - by rewrite !swap_digits.
Qed.

(** ** Facts that are decided *)

Lemma counts_decide ns lo hi g l :
  forallb (λ k, bool_decide (l !! Z.to_nat k = Some (stored ns (g k)))) (seqZ lo (hi - lo)) = true →
  counts ns lo hi g l.
Proof.
  rewrite forallb_forall. intros HA k Hk. specialize (HA k).
  apply bool_decide_eq_true in HA; [done|]. apply list_elem_of_In, elem_of_seqZ. lia.
Qed.
Lemma cmap_decide free cl :
  forallb (λ c, (0 <=? c) && (c <? 256)) free &&
  forallb (λ b, match cl !! Z.to_nat b, free !! Z.to_nat (b / 8) with
    | Some x, Some c => Bool.eqb x (Z.testbit c (b mod 8)) | _, _ => false end)
    (below (Z.of_nat (length cl))) = true → cmap free cl.
Proof.
  intros [H1 H2]%andb_true_iff. split.
  - apply Forall_forall. intros c Hc%list_elem_of_In. rewrite forallb_forall in H1. specialize (H1 c Hc).
    unfold is_u8. zb. lia.
  - intros b x Hb Hx. pose proof (lookup_lt_Some _ _ _ Hx).
    pose proof (below_all _ _ H2 b ltac:(lia)) as H3. cbv beta in H3. rewrite Hx in H3.
    destruct (free !! _) as [c|]; [|done]. exists c. split; [done|]. by apply eqb_prop in H3.
Qed.
Lemma repr_bytes map : Forall is_u8 map → repr 8 map map.
Proof.
  intros Hu. split; [done|]. intros b Hb. unfold blk. change (8 / 8) with 1.
  rewrite Z.div_1_r, Z.mod_1_r. destruct (map !! Z.to_nat b) as [c|] eqn:Hc; [|done]. simpl. f_equal.
  assert (is_u8 c) as Hcu by (by eapply Forall_lookup_1). unfold sub.
  change (8 * 0) with 0. rewrite Z.shiftr_0_r. change (full 8) with (Z.ones 8).
  by rewrite Z.land_ones, Z.mod_small.
Qed.
Lemma placed_decide q l :
  forallb (λ b, match l !! Z.to_nat b with
    | Some v => forallb (λ i, negb (Z.testbit v i) ||
        ((b * q_frag q + i <? q_ndblk q) && negb ((q_cgx q =? 0) && (b * q_frag q + i =? 0))))
        (below (q_frag q))
    | None => true end) (below (Z.of_nat (length l))) = true → placed q l.
Proof.
  intros HA b v i Hv Hb Hi Ht. pose proof (lookup_lt_Some _ _ _ Hv).
  pose proof (below_all _ _ HA b ltac:(lia)) as HB. cbv beta in HB. rewrite Hv in HB.
  pose proof (below_all _ _ HB i Hi) as HC. cbv beta in HC. rewrite Ht in HC. cbn [negb orb] in HC.
  apply andb_true_iff in HC as [HC1 HC2]. zb. lia.
Qed.

(** ** The file system *)

Definition fs_ex : fs :=
  Fs 8 3 44 2 24 4096 9 2 true (Csum 3 8) [Csum 1 4; Csum 2 4] [1; 2] 0 (Some [3]).
Definition num (n : Z) : Z := swap_bytes n.
Definition cg_ex0 : cg :=
  Cg true 0 0 (num 0) (num 1) (num 4) 0 0 [0; 0; 0; 0; num 1; 0; 0; 0] (num 3) [0; num 1; 0] 0 [2] 0
    [0; 0xff; 0x3c].
Definition cg_ex1 : cg :=
  Cg true 0 0 (num 1) (num 2) (num 4) 0 0 [0; 0; 0; 0; num 1; 0; 0; 0] (num 2) [0; 0; num 1] 0 [3] 0
    [0xff; 0xff; 0x0f].
Definition geo_ex : geometry := Geometry 8 3 44 24 9 2 true 2 0 0 true.
Definition nd_ex (i : Z) : Z := if i =? 0 then 24 else 20.
Definition vol_ex : volume := (fs_ex, [Some cg_ex0; Some cg_ex1]).
Definition maps_ex : list (list Z) := [[0; 0xff; 0x3c]; [0xff; 0xff; 0x0f]].
Local Notation geo i := (geo geo_ex nd_ex (λ _, true) i).

Lemma volume_ex_ok : volume_ok geo_ex nd_ex (λ _, true).
Proof.
  intros i Hi. simpl in Hi. assert (i = 0 ∨ i = 1) as [->| ->] by lia.
  all: split; simpl; unfold is_u32; try lia; try done.
  all: unfold frag_ok; by repeat (try (by left); right).
Qed.

Lemma sound_ex i c l : 0 ≤ i → (vol_ex.2) !! Z.to_nat i = Some (Some c) → maps_ex !! Z.to_nat i = Some l →
  sound (geo i) (fs_csp (vol_ex.1)) (fs_maxcluster (vol_ex.1)) (vol_ex.1) c l.
Proof.
  intros Hi Hc Hl. assert (i = 0 ∨ i = 1) as Hcase.
  { apply lookup_lt_Some in Hl. simpl in Hl. lia. }
  destruct Hcase as [->| ->]; simpl in Hc, Hl; injection Hc as <-; injection Hl as <-.
  all: split; [split; split|by apply placed_decide]; try done; try (simpl; lia).
  all: try (by intros a [= <-]).
  all: try (by apply counts_decide).
  all: try (apply repr_bytes; repeat (apply Forall_cons; split; [done|]); done).
  all: try (intros _; split; [by apply cmap_decide|]; split; [done|]; by apply counts_decide).
  - intros _. split; [done|]. exists 1. split; [done|]. intros k Hk. simpl in Hk.
    assert (k = 2) as -> by lia. done.
  - intros _. split; [done|]. exists 2. split; [done|]. simpl. lia.
Qed.
Lemma vol_ex_sound : vol_sound geo_ex nd_ex (λ _, true) vol_ex maps_ex.
Proof. split; try done. apply sound_ex. Qed.
Lemma readable_ex i : 0 ≤ i < 2 → readable (λ _, true) vol_ex i.
Proof. intros Hi. split; [done|]. assert (i = 0 ∨ i = 1) as [->| ->] by lia; by eexists. Qed.

(** ** Witnesses *)

(** Two fragments, from the run of four in the first group. *)
Lemma hashalloc_refines_witness : ∃ st' r, hashalloc_data vol_ex 5 0 0 1024 0 0 = Ok (st', r) ∧
  ((r = 0 ∧ vol_sound geo_ex nd_ex (λ _, true) st' maps_ex ∧ (0 .& B_CONTIG = 0 → ∀ j l, 0 ≤ j < 2 →
      readable (λ _, true) vol_ex j → maps_ex !! Z.to_nat j = Some l → ¬ room (geo j) l 2)) ∨
   (r ≠ 0 ∧ ∃ j l l', maps_ex !! Z.to_nat j = Some l ∧ takes (geo j) l 2 r l' ∧
      vol_sound geo_ex nd_ex (λ _, true) st' (<[Z.to_nat j := l']> maps_ex))).
Proof.
  apply (hashalloc_refines geo_ex nd_ex (λ _, true) volume_ex_ok vol_ex maps_ex 5 0 0 2 0 0 vol_ex_sound);
    simpl; try lia. done.
Defined.

(** A block cut down to three fragments. *)
Lemma alloc_free_roundtrip_witness :
  match hashalloc_data vol_ex 5 1 0 4096 1536 0 with
  | Ok (st', r) => r = 24 ∧ ∃ st'', ffs_blkfree st' 6 r 1536 = Ok (st'', tt) ∧
      vol_sound geo_ex nd_ex (λ _, true) st'' maps_ex
  | Fault _ => False
  end.
Proof.
  destruct (hashalloc_data vol_ex 5 1 0 4096 1536 0) as [[st' r]|] eqn:E;
    [|vm_compute in E; discriminate E].
  assert (r = 24) as -> by (vm_compute in E; congruence). split; [done|].
  apply (alloc_free_roundtrip geo_ex nd_ex (λ _, true) volume_ex_ok vol_ex maps_ex 5 6 1 0 8 3 0 st' 24
    vol_ex_sound); simpl; try lia; done.
Defined.

(** The fragments 16, 17 and 18 of the first group: 18 is free already. *)
Lemma blkfree_exact_witness : ffs_blkfree vol_ex 5 16 1536 = Fault Panic ∧
  ∃ st', ffs_blkfree vol_ex 5 16 1024 = Ok (st', tt) ∧
    vol_sound geo_ex nd_ex (λ _, true) st' [[0; 0xff; 0x3f]; [0xff; 0xff; 0x0f]].
Proof.
  assert (Hc : ∀ n, 1 ≤ n ≤ 3 → in_group (geo 0) 2 0 n) by (intros n; unfold in_group, nd_ex; simpl; lia).
  assert (Hi : 0 ≤ 0 < 2) by lia. split.
  - refine (blkfree_exact geo_ex nd_ex (λ _, true) volume_ex_ok vol_ex maps_ex 5 0 [0; 0xff; 0x3c] 2 0 3 0x3c
      vol_ex_sound (readable_ex 0 Hi) Hi eq_refl eq_refl (Hc 3 _)). lia.
  - refine (blkfree_exact geo_ex nd_ex (λ _, true) volume_ex_ok vol_ex maps_ex 5 0 [0; 0xff; 0x3c] 2 0 2 0x3c
      vol_ex_sound (readable_ex 0 Hi) Hi eq_refl eq_refl (Hc 2 _)). lia.
Defined.

(** Fragments 16 and 17 of the first group grow to four, not to seven. *)
Lemma claims_exact_witness :
  (∃ st', ffs_blkalloc vol_ex 0 5 16 1024 = Ok (st', EBUSY) ∧
     vol_sound geo_ex nd_ex (λ _, true) st' maps_ex) ∧
  (∃ st', fragextend vol_ex 5 16 1024 2048 = Ok (st', 16) ∧
     vol_sound geo_ex nd_ex (λ _, true) st' [[0; 0xff; 0x30]; [0xff; 0xff; 0x0f]]).
Proof.
  assert (Hc : in_group (geo 0) 2 0 2) by (unfold in_group, nd_ex; simpl; lia).
  assert (Hi : 0 ≤ 0 < 2) by lia. assert (Hn : 2 < 4 ≤ 8) by lia.
  destruct (claims_exact geo_ex nd_ex (λ _, true) volume_ex_ok vol_ex maps_ex 0 5 0 [0; 0xff; 0x3c] 2 0 2 0x3c
    vol_ex_sound (readable_ex 0 Hi) Hi eq_refl eq_refl Hc) as [H1 H2].
  split; [exact H1|]. exact (H2 4 eq_refl Hn).
Defined.

Lemma free_counts_bounded_witness :
  0 ≤ 2 ∧ 0 ≤ 4 ∧ 8 * 2 + 4 ≤ 20 ∧ [Csum 1 4; Csum 2 4] !! 1%nat = Some (Csum 2 4).
Proof.
  refine (free_counts_bounded geo_ex nd_ex (λ _, true) volume_ex_ok vol_ex maps_ex 1 cg_ex1
    vol_ex_sound _ eq_refl). simpl. lia.
Defined.

(** ** What the theorems leave out *)

(** [ffs_alloccg] breaks up a block for fragments of a contiguous file: when
    [ffs_alloccgblk] finds the place in use and returns 0, fragments of block 0 of the
    group become free all the same, and 0 is returned. *)
Example contig_split_frees_block0 :
  match ffs_alloccg fs_ex (Some cg_ex0) 0 5 16 2560 0 B_CONTIG with
  | Ok (_, Some c, r) => r = 0 ∧ cg_blksfree cg_ex0 = [0; 0xff; 0x3c] ∧
      cg_blksfree c = [0xe0; 0xff; 0x3c]
  | _ => False
  end.
Proof. vm_compute. done. Qed.

(** For block 0 [ffs_clusteracct] shifts by -1 in front of the group, a shift that C does
    not define; the bit is not used. *)
Example clusteracct_shift_of_block0 :
  shl1 (Z.rem (0 - 1) NBBY) = None ∧ count_back fs_ex cg_ex0 [2] 0 = Ok 0.
Proof. vm_compute. done. Qed.
